(* ===== verification/_CoqProject ===== *)
-Q . S2P
Durablepg.v
Prelude.v
GoText.v
Json.v
Types.v
Builder.v
Postgres.v
ToyPg.v
Queries.v
Store.v
Statements.v
Claims.v
Events.v
Inert.v
Timing.v
Leases.v
Uuid.v
Effects.v
Engine.v
SqlText.v
Registry.v
Worker.v
Fairness.v
Replay.v
Invariant.v
Journal.v
Loading.v
Deployment.v
Client.v
Progress.v
Delivery.v
Contexts.v
Loops.v
Heartbeat.v
Deadlines.v
Dispatcher.v
Listener.v
Migrate.v
Explain.v
Growthbench.v
Benchmark.v
Seeding.v
Goroutines.v
Accounting.v
Limits.v
Undisturbed.v
Polls.v
Lifetime.v
Failing.v
Crashing.v
Scenario.v
Witnesses.v
BenchWitnesses.v
