(* ===== verification/Durablepg.v ===== *)
(** * A verification library for durablepg

    durablepg executes durable workflows on PostgreSQL: a workflow is a list of steps,
    sleeps and waits; a run of it is a row of [workflow_runs]; every result is stored in
    [step_checkpoints], so that a run which is interrupted goes on where it stood.  The
    library models the Go package under src/ and the benchmark that src/cmd/growthbench
    runs against it, and proves what makes them correct.

    ** The program

    - builder.go compiles a build function to a numbered list of operations.
    - engine.go holds the registered versions and the calls of a client: [Enqueue],
      [EmitEvent], [RunStatus], [RunOutput], [Cancel].
    - queries.go holds the SQL statements; nothing else touches the tables, whose schema
      is in migrate.go.
    - worker.go runs a worker: a dispatch loop claims due runs under a lease and starts
      a goroutine for each, which executes the operations and records every result in a
      statement that is fenced by the lease; a heartbeat renews the leases; a listener
      wakes the dispatch loop; maintenance loops recover expired leases, time waits out
      and prune events.
    - leases.go is the table that the dispatch loop, the goroutines and the heartbeat of
      a worker share; types.go has what a step sees and the options.
    - cmd/growthbench/main.go fills the tables with finished runs in stages, beside workers
      that serve a load, and measures their claims.

    Engines meet only in the tables, each on its own schedule; every call may fail, also
    after it has taken effect.  This is what the theorems range over.

    ** The files

    Foundations:
    - [Prelude]: Go's errors and outcomes, tactics, lemmas on lists and maps.
    - [GoText], [Json]: what the package uses of strings, unicode/utf8, encoding/hex and
      encoding/json, on bytes; [sanitizeError] of worker.go.
    - [Timing]: durations, 64-bit arithmetic, [backoffDuration].
    - [Postgres]: the tables of migrate.go, and the class of the server's value functions
      with the documented laws; [ToyPg] is an instance of it.
    - [Effects]: the monad of the Go functions with effects.  An oracle gives the moment
      of each effect: the transactions of others that commit before it, the fault of the
      call, the clock, what user code answers.  A theorem about all oracles is a theorem
      about all interleavings of statements and all faults.  The world logs the statements
      that have taken effect, with who sent them.

    The program:
    - [Types], [Builder], [Engine], [Uuid]: types.go, builder.go, engine.go ([newUUID] in
      [Uuid]; a function of Go keeps its name).
    - [Queries]: queries.go, a function per statement, collected by [stmt] and [exec];
      [SqlText]: the texts that [newQueries] renders, and a lexer for them.
    - [Worker]: claiming and executing, [claimReadyRuns] to [executeClaim].
    - [Leases]: leases.go.  [Loops], [Heartbeat], [Dispatcher], [Listener]: the loops of
      [StartWorker].  [heartbeatLoop] runs over its turns, each with the clock's readings
      and what the claims do to the table meanwhile; the last two are transition systems,
      whose steps are the code between two points at which another goroutine can be seen.
    - [Migrate]: [ApplySchema] of migrate.go as a transaction over a catalog.
    - [Growthbench]: the flags, the milestones, the tracer and the statements of the
      benchmark, as functions on the same tables; [Explain]: reading a plan from the JSON
      of EXPLAIN, with the numbers that encoding/json makes of it; [Benchmark]: [run] and
      what it calls, in a monad of its own over the tables, the catalog and what the
      goroutines share.  The workers and the producer are [happening]s before each effect
      of [run], given by an oracle; channels are values, and waiting for what cannot come
      is Go's deadlock.

    Theorems:
    - [Store], [Statements], [Claims], [Events]: the statements.  [row_change] is the
      specification of what a statement may do to a row; every statement refines it,
      and the state diagram, the finality of final states, write-once checkpoints and
      the well-formedness of rows follow.  Then what each statement does on each branch:
      fencing, the first commit wins, claims and their exclusion, recovery,
      deduplication, delivery and timeout of waits, cancellation, pruning.
    - [Fairness]: whoever claims and enqueues, a due run keeps its place in its queue, and
      is claimed when the claims have asked for more runs than were ahead of it.
    - [Inert]: finished runs, however many, change no answer of any statement that does
      not ask for them.
    - [SqlText]: whatever the schema is called, the server reads the same tokens, with the
      name as one identifier, a placeholder for every argument, and no other tables.
    - [Registry], [Contexts], [Client]: what [New] and [Register] guarantee; what a step
      reads of a wait, by an event, a timeout or the worker's own delivery; what [Enqueue], [Cancel], [RunStatus] and [RunOutput]
      promise a caller.
    - [Replay]: what executing a claim may do, for every oracle; a committed step is not
      called again, and a step sees the committed results.
    - [Invariant], [Journal], [Loading]: lemmas on tables.  The invariant between the rows
      and the workflows, and a specification without tables, in which a run is a status and
      an append-only list of outcomes: both are kept by every statement without a fence
      and by those of a worker that are due ([own_stmt] of [Replay]); a claim loads exactly
      the results of its run.
    - [Deployment]: the histories of several engines, their clients and loops, in any
      interleaving.  A fenced statement in a history is one that [executeClaim] sent for a
      run that [claimReadyRuns] had claimed, both run with oracles that agree with the
      history; that such statements are due is a theorem of [Replay] and [Loading], by which the
      history keeps the invariant and refines the specification.
    - [Progress]: without interference, steps run to completion and a failure is recorded.
    - [Undisturbed], [Polls]: what executing a claim, and a poll - maintenance, a claim,
      its execution - do to the only run in the tables when nothing else happens.  On
      them: [Lifetime], polled again and again, a run of any workflow completes, after
      one poll more than the sleeps and waits ahead of it; [Failing], a run whose step
      always fails has failed after exactly the allowed attempts; [Crashing], a run whose
      workers die is given up when its lost leases reach the same limit.
    - [Delivery]: a wait that parks has missed no event, and one that is delivered
      records the newest.
    - [Loops]: a maintenance tick drains a backlog of up to eight full batches.
    - [Heartbeat], [Deadlines]: a renewal is planned before every deadline, and bounded by
      those of the claims that were there when it began; a claim is never cancelled while
      the loop is prompt, as long as no more renewals in a row fail than the lease has
      room for; a deadline that a worker holds for a claim is one until which the server
      protects it.
    - [Dispatcher], [Listener]: concurrency is bounded, no free slot and no published run
      is overlooked, [WaitForIdle] waits for every claim.
    - [Migrate]: the schema is applied all or nothing, and once.
    - [Limits]: inputs that the package accepts and the server refuses.
    - [Growthbench], [Seeding]: the percentiles are nearest ranks, only claims are timed,
      the accepted milestones, and the history of all stages is complete and inert.
    - [Goroutines], [Accounting]: however the benchmark ends it does not hang, and leaves
      no worker and no producer behind; when it ends without an error, every run that it
      counted is there and has completed.  The first is a logic of triples for both
      outcomes of a program, the second follows the good one.
    - [Scenario], [Witnesses], [BenchWitnesses]: a small deployment and a short benchmark on
      which the hypotheses of the theorems hold, by evaluation.

    ** Correspondence

    An integer of Go is a [Z]; [int64] wraps where the code can overflow, and a
    parameter of a statement is refused outside its column's range, as the driver does.
    A string is its bytes.  Times are nanoseconds in the worker and microseconds in the
    tables.  A panic is an outcome.  A nil [json.RawMessage], function or context error
    is [None].  A mutex makes its section one step.  Iteration over a Go map is in the
    order of [map_to_list], and no theorem depends on it.

    A statement is one step on the tables: PostgreSQL lets it see one snapshot and locks
    what it writes.  That two statements do not write one row at once, and that a
    statement which waited for a row checks its condition again, is the server's; rows
    locked by others at the time of a claim or a recovery are given by the environment
    of the statement ([locked_runs]), since [SKIP LOCKED] shows them.  A transaction of
    several statements (waiting for an event, emitting one) sees what others commit
    between its statements and holds its own writes back until it commits; meanwhile a
    transaction of others that would change a row it has written, or take an advisory lock
    that it has taken, waits ([interfere_one]).

    ** Assumptions

    Theorems about statements assume [PostgresLaws]; [ToyPg] satisfies them.  [Deadlines]
    assumes that the clocks of worker and server run at the same rate and that the
    server's UUIDs are fresh; [Dispatcher] that a claim's tokens are; [Delivery] that
    whoever emits an event of the key does so by a call of [EmitEvent] on the same schema
    ([emitters]), so that the lock which it takes excludes it; [Deployment] that engines agree
    on what a version is, that fenced statements come from workers and that the server's
    UUIDs are in canonical form.
    [Progress] and what is built on [Polls] are about workers that nothing disturbs, and
    say of the oracle that nobody else acts, no call fails and how user code behaves.
    [seedHistory_succeeds] assumes that the ids which the server derives from the numbers
    of the history differ; [history_is_seeded] does not.  [Accounting] assumes a database
    that is new to the benchmark, beside which its engines' statements are executed
    ([serving]), and nothing of the server's answers; with [Goroutines] it assumes that a DDL text
    succeeds or fails.  A producer that was told to stop does so, and so does a worker once it is
    cancelled and the claims are released ([recv_worker]); no other worker need ever return.  [Heartbeat]
    says in [healthy] how late the loop and the answers may be.

    ** Bounds

    Recursion is structural nearly everywhere: over the operations of a workflow, the
    rows, the ticks.  [batches] counts down its batch limit.  [scan_value] in [Json]
    counts down the nesting limit of encoding/json, and the rest of its recursion
    consumes input.  [seed_batches] is given as many rounds as there are rows to write,
    and each of its rounds writes one or more.  The maintenance and retention loops never
    end, so they are given the number of their ticks; the dispatch loop, the listener and the
    node of [Deadlines] are relations, without a bound; [heartbeatLoop] is given its turns.
    [await] is given the ticks that its timeout has room for, and may end at any of them;
    the workers that the benchmark collects are two.

    ** Not modelled

    - Of cmd/growthbench: what the server's statistics and EXPLAIN answer, and what
      connecting to it does, are parameters; the lines it prints are the values in them,
      without their format; its two workers are, to it, the statements they execute and
      what they return.
    - Logging, and the text of wrapped errors beyond their format and arguments.
    - The connection of the listener: its calls succeed or fail.
    - Timers: a tick may come at any moment, and when it comes is stated only by [healthy].
    - The goroutines of step functions that outlive their context; a step function
      answers or panics.
    - That the server does for a text of queries.go what the function of the same name in
      [Queries] does is the reading of the statement, not a theorem; the DDL text of
      migrate.go is there in full, and what it does is the server's too. *)

From Stdlib Require Import ZArith String.
Open Scope Z_scope.

(** ** Constants of the program *)

(** Go's [time] constants, in nanoseconds. *)
Definition Nanosecond : Z := 1.
Definition Microsecond : Z := 1000 * Nanosecond.
Definition Millisecond : Z := 1000 * Microsecond.
Definition Second : Z := 1000 * Millisecond.
Definition Minute : Z := 60 * Second.
Definition Hour : Z := 60 * Minute.

(** [const] block of engine.go. *)
Definition defaultSchema : string := "durable".
Definition defaultQueue : string := "default".
Definition defaultPollInterval : Z := 250 * Millisecond.
Definition defaultLeaseTTL : Z := 30 * Second.
Definition defaultHeartbeatInterval : Z := 10 * Second.
Definition defaultMaxAttempts : Z := 25.
Definition defaultEventTTL : Z := 24 * Hour.
Definition maxSchemaLength : nat := 48.

(** [const] block of queries.go. *)
Definition maintenanceBatch : Z := 1024.
Definition pruneBatch : Z := 2048.

(** [maxErrorLength] of worker.go. *)
Definition maxErrorLength : nat := 4000.
