(* ===== verification/Prelude.v ===== *)
(** * Prelude: Go errors and outcomes, shared notations, tactics and lemmas

    Every other file of the library requires this one.  It holds the
    representation of Go's [error] values, the outcome monad in which fallible
    code is written, the tactics used across the development and the generic
    lemmas on lists, options, strings and finite maps. *)

From Stdlib Require Export ZArith Lia Ascii String.
From stdpp Require Export base gmap strings list fin_maps sorting pretty.
From S2P Require Export Durablepg.

#[global] Set Default Goal Selector "!".
Open Scope Z_scope.

(** ** Errors

    The package compares errors only with [errors.Is] against the sentinels
    below, so an error value is its message template with its arguments, a
    sentinel, or a [%w] wrapping of another error.  Rendering a template to
    text ([fmt]'s [%q] escapes) is a parameter where the text is used. *)
Inductive sentinel :=
  | ErrStepResultNotFound
  | ErrRunNotFound
  | errLostLease
  | ErrUnsupportedSchema
  | pgx_ErrNoRows
  | context_Canceled
  | context_DeadlineExceeded.

#[global] Instance sentinel_eq_dec : EqDecision sentinel.
Proof. solve_decision. Defined.

Inductive error :=
  | Errorf (format : string) (args : list string)
  | Sentinel (s : sentinel)
  | Wrapf (format : string) (args : list string) (inner : error).

#[global] Instance error_eq_dec : EqDecision error.
Proof. solve_decision. Defined.

(** [errors.Is(err, target)] for the package's sentinels. *)
Fixpoint errors_Is (e : error) (s : sentinel) : bool :=
  match e with
  | Errorf _ _ => false
  | Sentinel s' => bool_decide (s' = s)
  | Wrapf _ _ e' => errors_Is e' s
  end.

(** ** Outcomes: a Go call that returns [(T, error)] or panics *)
Inductive outcome (A : Type) :=
  | Ok (a : A)
  | Err (e : error)
  | Panic (msg : string) (args : list string).
Arguments Ok {A} a.
Arguments Err {A} e.
Arguments Panic {A} msg args.

#[global] Instance outcome_eq_dec {A} `{!EqDecision A} : EqDecision (outcome A).
Proof. solve_decision. Defined.

#[global] Instance outcome_ret : MRet outcome := @Ok.
#[global] Instance outcome_bind : MBind outcome := λ A B f m,
  match m with Ok a => f a | Err e => Err e | Panic v a => Panic v a end.
#[global] Instance outcome_fmap : FMap outcome := λ A B f m,
  match m with Ok a => Ok (f a) | Err e => Err e | Panic v a => Panic v a end.

Definition is_ok {A} (o : outcome A) : bool :=
  match o with Ok _ => true | _ => false end.

(** [if cond { return err }] and [if cond { panic(v) }]. *)
Definition guard_err (cond : bool) (e : error) : outcome () :=
  if cond then Err e else Ok ().
Definition guard_panic (cond : bool) (msg : string) (args : list string) : outcome () :=
  if cond then Panic msg args else Ok ().

Lemma outcome_bind_Ok {A B} (m : outcome A) (f : A → outcome B) b :
  m ≫= f = Ok b ↔ ∃ a, m = Ok a ∧ f a = Ok b.
Proof.
  destruct m as [a|e|v l]; cbn; split; [eauto|by intros (?&[=->]&?)|..];
    try done; by intros (?&?&?).
Qed.

Lemma outcome_bind_assoc {A B C} (m : outcome A) (f : A → outcome B) (g : B → outcome C) :
  (m ≫= f) ≫= g = m ≫= (λ a, f a ≫= g).
Proof. by destruct m. Qed.

Lemma guard_err_Ok c e u : guard_err c e = Ok u ↔ c = false.
Proof. by destruct c, u. Qed.
Lemma guard_panic_Ok c m a u : guard_panic c m a = Ok u ↔ c = false.
Proof. by destruct c, u. Qed.

(** ** Lists *)

Lemma filter_all {A} (P : A → Prop) `{∀ x, Decision (P x)} (l : list A) :
  Forall P l → filter P l = l.
Proof. induction 1; [done|]. rewrite filter_cons_True by done. by f_equal. Qed.
Lemma filter_none {A} (P : A → Prop) `{∀ x, Decision (P x)} (l : list A) :
  Forall (λ x, ¬ P x) l → filter P l = [].
Proof. induction 1; [done|]. by rewrite filter_cons_False. Qed.

Lemma NoDup_fmap_inj {A B} (f : A → B) (l : list A) x y :
  NoDup (f <$> l) → x ∈ l → y ∈ l → f x = f y → x = y.
Proof.
  intros Hnd [i Hi]%list_elem_of_lookup [j Hj]%list_elem_of_lookup E.
  enough (i = j) as -> by congruence.
  apply (NoDup_lookup (f <$> l) i j (f y)); [done|..]; rewrite list_lookup_fmap, ?Hi, ?Hj; cbn;
    congruence.
Qed.

(** ** Tactics *)

(** Split an equation [m ≫= f = Ok b] into the equations of its steps. *)
Ltac invert_outcome :=
  repeat match goal with
  | H : _ ≫= _ = Ok _ |- _ => apply outcome_bind_Ok in H as (?&?&?)
  | H : guard_err _ _ = Ok _ |- _ => apply guard_err_Ok in H
  | H : guard_panic _ _ _ = Ok _ |- _ => apply guard_panic_Ok in H
  | H : mret _ = Ok _ |- _ => injection H as H
  | H : Ok _ = Ok _ |- _ => injection H as H
  | H : Err _ = Ok _ |- _ => discriminate H
  | H : Panic _ _ = Ok _ |- _ => discriminate H
  | u : () |- _ => destruct u
  end; subst.

(** Case on the innermost [match]/[if] scrutinee of the goal or a hypothesis. *)
Ltac case_match_in H :=
  match type of H with
  | context [match ?x with _ => _ end] =>
    lazymatch x with
    | context [match _ with _ => _ end] => fail
    | _ => destruct x eqn:?
    end
  end.

Ltac bool_to_prop :=
  repeat match goal with
  | H : _ && _ = true |- _ => apply andb_prop in H as [? ?]
  | H : bool_decide _ = true |- _ => apply bool_decide_eq_true in H
  | H : bool_decide _ = false |- _ => apply bool_decide_eq_false in H
  | H : (_ <? _)%Z = true |- _ => apply Z.ltb_lt in H
  | H : (_ <? _)%Z = false |- _ => apply Z.ltb_ge in H
  | H : (_ <=? _)%Z = true |- _ => apply Z.leb_le in H
  | H : (_ <=? _)%Z = false |- _ => apply Z.leb_gt in H
  | H : (_ =? _)%Z = true |- _ => apply Z.eqb_eq in H
  | H : (_ =? _)%Z = false |- _ => apply Z.eqb_neq in H
  | H : Is_true _ |- _ => apply Is_true_true in H
  end.

Create HintDb durable.
