(* ===== verification/GoText.v ===== *)
(** * Go text: byte strings, UTF-8, [strings.TrimSpace], [hex] and [sanitizeError]

    A Go string is a byte sequence: [string] (8-bit [ascii] characters) in
    interfaces, [list ascii] inside the algorithms below.  The file models what
    the package uses of the standard library on text ([strings.TrimSpace],
    [strings.ToValidUTF8], [strings.ReplaceAll] on NUL, [utf8.RuneStart],
    [utf8.ValidString], [encoding/hex]) and, from worker.go, [sanitizeError]. *)

From S2P Require Import Prelude.

Abbreviation s2b := list_ascii_of_string.
Abbreviation b2s := string_of_list_ascii.

(** The value of a byte, and the byte of a value ([byte(x)] keeps 8 bits). *)
Definition bval (c : ascii) : Z := Z.of_N (Ascii.N_of_ascii c).
Definition byte_of (z : Z) : ascii := Ascii.ascii_of_N (Z.to_N (z mod 256)).
Definition in_range (lo hi : Z) (c : ascii) : bool := (lo <=? bval c) && (bval c <=? hi).

(** ** UTF-8 *)

(** A continuation byte; [utf8.RuneStart(b)] is [b&0xC0 != 0x80]. *)
Definition is_cont (c : ascii) : bool := in_range 128 191 c.
Definition RuneStart (c : ascii) : bool := negb (Z.land (bval c) 192 =? 128).

(** The accepted second byte after a given leading byte (unicode/utf8's table). *)
Definition second_ok (c0 c1 : ascii) : bool :=
  in_range (if bval c0 =? 224 then 160 else if bval c0 =? 240 then 144 else 128)
           (if bval c0 =? 237 then 159 else if bval c0 =? 244 then 143 else 191) c1.

(** [rune_len s] is the width of the valid encoding at the head of [s], and 0
    when [utf8.DecodeRune] would answer [(RuneError, 0)] or [(RuneError, 1)]. *)
Definition rune_len (s : list ascii) : nat :=
  match s with
  | [] => 0%nat
  | c0 :: s1 =>
    if bval c0 <? 128 then 1%nat
    else if in_range 194 223 c0 then
      match s1 with c1 :: _ => if is_cont c1 then 2%nat else 0%nat | _ => 0%nat end
    else if in_range 224 239 c0 then
      match s1 with
      | c1 :: c2 :: _ => if second_ok c0 c1 && is_cont c2 then 3%nat else 0%nat
      | _ => 0%nat
      end
    else if in_range 240 244 c0 then
      match s1 with
      | c1 :: c2 :: c3 :: _ =>
        if second_ok c0 c1 && is_cont c2 && is_cont c3 then 4%nat else 0%nat
      | _ => 0%nat
      end
    else 0%nat
  end.

(** [utf8.ValidString], with [k] continuation bytes of the current rune left. *)
Fixpoint valid_from (k : nat) (s : list ascii) : bool :=
  match s, k with
  | [], 0 => true
  | [], S _ => false
  | c :: r, S k' => is_cont c && valid_from k' r
  | c :: r, 0 =>
    match rune_len s with
    | 0 => false
    | S k' => valid_from k' r
    end
  end%nat.
Definition valid_utf8 (s : list ascii) : bool := valid_from 0 s.

(** The replacement character U+FFFD. *)
Definition rune_error : list ascii := [byte_of 239; byte_of 191; byte_of 189].
Definition NUL : ascii := byte_of 0.

(** [strings.ToValidUTF8(s, "\uFFFD")]: each run of invalid bytes becomes one
    replacement; [copy] counts the bytes of a valid rune still to be copied. *)
Fixpoint to_valid (copy : nat) (invalid : bool) (s : list ascii) : list ascii :=
  match s with
  | [] => []
  | c :: r =>
    match copy with
    | S k => c :: to_valid k false r
    | 0%nat =>
      match rune_len s with
      | 0%nat => (if invalid then [] else rune_error) ++ to_valid 0 true r
      | S k => c :: to_valid k false r
      end
    end
  end.
Definition ToValidUTF8 (s : list ascii) : list ascii := to_valid 0 false s.

(** [strings.ReplaceAll(s, "\x00", "\uFFFD")]. *)
Fixpoint replace_nul (s : list ascii) : list ascii :=
  match s with
  | [] => []
  | c :: r => (if bool_decide (c = NUL) then rune_error else [c]) ++ replace_nul r
  end.

(** [for end > 0 && !utf8.RuneStart(msg[end]) { end-- }]; [msg[end]] is in range
    because the caller has [len(msg) > end]. *)
Fixpoint rune_boundary (msg : list ascii) (stop : nat) : nat :=
  match stop with
  | 0%nat => 0
  | S e =>
    if from_option RuneStart true (msg !! stop) then stop else rune_boundary msg e
  end.

Definition sanitize_bytes (msg : list ascii) : list ascii :=
  let msg := replace_nul (ToValidUTF8 msg) in
  if (length msg <=? maxErrorLength)%nat then msg
  else take (rune_boundary msg maxErrorLength) msg.

(** [sanitizeError] of worker.go. *)
Definition sanitizeError (msg : string) : string := b2s (sanitize_bytes (s2b msg)).

(** PostgreSQL accepts a [text] value exactly when it is valid UTF-8 without NUL. *)
Definition storable (s : list ascii) : bool := valid_utf8 s && bool_decide (NUL ∉ s).

(** ** [strings.TrimSpace] *)

(** The UTF-8 encodings of the runes for which [unicode.IsSpace] holds. *)
Definition space_encodings : list (list ascii) :=
  map (map byte_of)
    ([[9]; [10]; [11]; [12]; [13]; [32]; [194; 133]; [194; 160]; [225; 154; 128];
      [226; 128; 168]; [226; 128; 169]; [226; 128; 175]; [226; 129; 159]; [227; 128; 128]]
     ++ map (λ b, [226; 128; b]) [128; 129; 130; 131; 132; 133; 134; 135; 136; 137; 138]).

(** Drop one leading encoding of the list, if there is one. *)
Definition strip_one (encs : list (list ascii)) (s : list ascii) : option (list ascii) :=
  match filter (λ e, e `prefix_of` s) encs with
  | [] => None
  | e :: _ => Some (drop (length e) s)
  end.

Fixpoint trim_left (encs : list (list ascii)) (fuel : nat) (s : list ascii) : list ascii :=
  match fuel with
  | 0%nat => s
  | S f => match strip_one encs s with Some r => trim_left encs f r | None => s end
  end.

Definition trim_bytes (s : list ascii) : list ascii :=
  let l := trim_left space_encodings (length s) s in
  reverse (trim_left (map reverse space_encodings) (length l) (reverse l)).

Definition TrimSpace (s : string) : string := b2s (trim_bytes (s2b s)).

(** ** [encoding/hex] *)
Definition hex_digit (n : Z) : ascii :=
  byte_of (if n <? 10 then 48 + n else 87 + n).
Definition hex_Encode (bs : list Z) : list ascii :=
  b ← bs; [hex_digit (b / 16); hex_digit (b mod 16)].

(** ** Decimal integers ([fmt]'s [%d], and PostgreSQL's integer output) *)

(** Digits of [n], most significant first; [fuel] bounds their number. *)
Fixpoint digits (fuel : nat) (n : Z) (acc : list ascii) : list ascii :=
  match fuel with
  | 0%nat => acc
  | S f =>
    let acc := byte_of (48 + n mod 10) :: acc in
    if n / 10 =? 0 then acc else digits f (n / 10) acc
  end.

(** 20 digits hold every 64-bit integer. *)
Definition itoa_bytes (n : Z) : list ascii :=
  if n <? 0 then byte_of 45 :: digits 20 (- n) [] else digits 20 n [].
Definition itoa (n : Z) : string := b2s (itoa_bytes n).

#[global] Arguments rune_len : simpl never.
#[global] Arguments bval : simpl never.
#[global] Arguments in_range : simpl never.
#[global] Arguments is_cont : simpl never.
#[global] Arguments second_ok : simpl never.

(** ** Facts on bytes *)

Lemma bval_range c : 0 <= bval c < 256.
Proof. unfold bval. pose proof (Ascii.N_ascii_bounded c). lia. Qed.

Lemma bval_byte_of z : bval (byte_of z) = z mod 256.
Proof.
  unfold bval, byte_of. pose proof (Z.mod_pos_bound z 256 ltac:(lia)).
  rewrite Ascii.N_ascii_embedding; lia.
Qed.

Lemma RuneStart_is_cont c : RuneStart c = negb (is_cont c).
Proof. by destruct c as [[] [] [] [] [] [] [] []]. Qed.

Lemma second_ok_cont c0 c1 : second_ok c0 c1 = true → is_cont c1 = true.
Proof.
  unfold second_ok, is_cont, in_range.
  repeat case_match; intros; bool_to_prop; apply andb_true_intro; split; apply Z.leb_le; lia.
Qed.

Lemma NUL_not_cont : is_cont NUL = false.
Proof. done. Qed.

(** ** The head rune *)

Ltac rune_cases H :=
  unfold rune_len in H; cbn -[Z.ltb in_range second_ok is_cont] in H;
  repeat case_match; simplify_eq; bool_to_prop.

(** The bytes after the first of a valid rune are continuation bytes. *)
Lemma rune_len_conts c r k :
  rune_len (c :: r) = S k →
  (k ≤ 3)%nat ∧ (k ≤ length r)%nat ∧ Forall (λ c, is_cont c = true) (take k r).
Proof.
  intros H. rune_cases H; cbn; split_and!; try lia; repeat constructor;
    eauto using second_ok_cont.
Qed.

(** The width of the head rune depends only on the bytes of that rune. *)
Lemma rune_len_ext c r r' k :
  rune_len (c :: r) = S k → take k r' = take k r → rune_len (c :: r') = S k.
Proof.
  intros H Htk. unfold rune_len in H |- *.
  cbn -[Z.ltb in_range second_ok is_cont] in H |- *.
  repeat case_match; cbn [take] in *; simplify_eq; try done; bool_to_prop; try lia;
    repeat match goal with H : _ && _ = false |- _ => apply andb_false_iff in H as [?|?] end;
    congruence.
Qed.

Lemma rune_len_NUL r : rune_len (NUL :: r) = 1%nat.
Proof. done. Qed.

(** ** Valid strings *)

Lemma valid_from_conts k s :
  valid_from k s = true → (k ≤ length s)%nat ∧ Forall (λ c, is_cont c = true) (take k s).
Proof.
  revert k. induction s as [|c s IH]; intros [|k]; cbn; intros H; try done.
  - split; [lia|constructor].
  - bool_to_prop. destruct (IH _ H0). split; [lia|]. by constructor.
Qed.

(** Cutting a valid string where a rune starts leaves a valid string. *)
Lemma valid_from_take k s n :
  valid_from k s = true → (n ≤ length s)%nat →
  from_option RuneStart true (s !! n) = true → (k ≤ n)%nat →
  valid_from k (take n s) = true.
Proof.
  revert k n. induction s as [|c s IH]; intros k n Hv Hn Hst Hk.
  { by rewrite take_nil. }
  destruct n as [|n].
  { assert (k = 0%nat) as -> by lia. done. }
  cbn [take]. cbn in Hn, Hst. destruct k as [|k].
  - cbn in Hv |- *. destruct (rune_len (c :: s)) as [|k'] eqn:Hr; [done|].
    destruct (valid_from_conts _ _ Hv) as [Hlen Hc].
    assert (k' ≤ n)%nat as Hkn.
    { destruct (decide (k' ≤ n)%nat); [done|exfalso].
      destruct (s !! n) as [d|] eqn:Hd.
      - cbn in Hst. rewrite RuneStart_is_cont in Hst.
        rewrite Forall_lookup in Hc. rewrite (Hc n d) in Hst; [done|].
        rewrite lookup_take_lt; [done|lia].
      - apply lookup_ge_None in Hd. lia. }
    rewrite (rune_len_ext c s (take n s) k' Hr) by (rewrite take_take; f_equal; lia).
    by apply IH; [..|lia|done|lia].
  - cbn in Hv |- *. bool_to_prop. rewrite H. cbn. apply IH; [done|lia|done|lia].
Qed.

(** In a valid string a rune starts at one of any four consecutive positions. *)
Lemma valid_from_start k s n c :
  valid_from k s = true → s !! n = Some c → is_cont c = true → (k ≤ n)%nat →
  ∃ m d, (m < n ≤ m + 3)%nat ∧ s !! m = Some d ∧ RuneStart d = true.
Proof.
  revert k n. induction s as [|c0 s IH]; intros k n Hv Hn Hc Hk; [done|].
  destruct k as [|k].
  - cbn in Hv. destruct (rune_len (c0 :: s)) as [|k'] eqn:Hr; [done|].
    destruct (rune_len_conts _ _ _ Hr) as (Hk3 & _ & _).
    assert (is_cont c0 = false) as Hc0.
    { destruct (is_cont c0) eqn:E; [|done]. unfold is_cont, in_range in E.
      rune_cases Hr; unfold in_range in *; bool_to_prop; lia. }
    destruct n as [|n]; cbn in Hn; simplify_eq; [congruence|].
    destruct (decide (n < k')%nat).
    + exists 0%nat, c0. rewrite RuneStart_is_cont, Hc0. split_and!; [lia..|done|done].
    + destruct (IH k' n Hv Hn Hc ltac:(lia)) as (m & d & ? & ? & ?).
      exists (S m), d. split_and!; [lia..|done|done].
  - cbn in Hv. bool_to_prop. destruct n as [|n]; [lia|]. cbn in Hn.
    destruct (IH k n H0 Hn Hc ltac:(lia)) as (m & d & ? & ? & ?).
    exists (S m), d. split_and!; [lia..|done|done].
Qed.

(** ** [ToValidUTF8] and NUL replacement *)

Lemma valid_rune_error_app s : valid_from 0 (rune_error ++ s) = valid_from 0 s.
Proof. done. Qed.

Lemma to_valid_copy k inv s :
  (k ≤ length s)%nat → take k (to_valid k inv s) = take k s.
Proof.
  revert k inv. induction s as [|c s IH]; intros [|k] inv Hk; cbn in *; try done.
  f_equal. apply IH. lia.
Qed.

Lemma to_valid_valid k inv s :
  (k ≤ length s)%nat → Forall (λ c, is_cont c = true) (take k s) →
  valid_from k (to_valid k inv s) = true.
Proof.
  revert k inv. induction s as [|c s IH]; intros [|k] inv Hk Hc; cbn in *; try lia; try done.
  - destruct (rune_len (c :: s)) as [|k'] eqn:Hr.
    + specialize (IH 0%nat true ltac:(lia) ltac:(constructor)).
      destruct inv; [done|]. by rewrite valid_rune_error_app.
    + destruct (rune_len_conts _ _ _ Hr) as (_ & Hl & Hf). cbn.
      rewrite (rune_len_ext c s _ k' Hr) by by apply to_valid_copy.
      by apply IH.
  - inversion Hc as [|?? Hc0 Hf]; subst. rewrite Hc0. cbn. apply IH; [lia|done].
Qed.

Lemma to_valid_id k inv s : valid_from k s = true → to_valid k inv s = s.
Proof.
  revert k inv. induction s as [|c s IH]; intros [|k] inv H; cbn in *; try done.
  - destruct (rune_len (c :: s)); [done|]. by rewrite IH.
  - bool_to_prop. by rewrite IH.
Qed.

Lemma replace_nul_take k s :
  Forall (λ c, is_cont c = true) (take k s) → take k (replace_nul s) = take k s.
Proof.
  revert k. induction s as [|c s IH]; intros [|k] Hf; cbn in *; try done.
  inversion Hf as [|?? Hc0 Hf']; subst. case_bool_decide; [by subst|].
  cbn. f_equal. by apply IH.
Qed.

Lemma replace_nul_valid k s :
  valid_from k s = true → valid_from k (replace_nul s) = true.
Proof.
  revert k. induction s as [|c s IH]; intros [|k] H; cbn -[rune_error] in *; try done.
  - destruct (rune_len (c :: s)) as [|k'] eqn:Hr; [done|].
    case_bool_decide.
    + subst. rewrite rune_len_NUL in Hr. simplify_eq.
      rewrite valid_rune_error_app. by apply IH.
    + cbn. destruct (rune_len_conts _ _ _ Hr) as (_ & _ & Hf).
      rewrite (rune_len_ext c s _ k' Hr) by by apply replace_nul_take.
      by apply IH.
  - bool_to_prop. case_bool_decide; [by subst|]. cbn. rewrite H. cbn. by apply IH.
Qed.

Lemma replace_nul_no_nul s : NUL ∉ replace_nul s.
Proof.
  induction s as [|c s IH]; cbn -[rune_error]; [set_solver|].
  case_bool_decide; rewrite elem_of_app; intros [Hin|Hin]; try done.
  - apply list_elem_of_In in Hin. vm_compute in Hin. by intuition.
  - apply list_elem_of_singleton in Hin. congruence.
Qed.

Lemma replace_nul_id s : NUL ∉ s → replace_nul s = s.
Proof.
  induction s as [|c s IH]; cbn; [done|]. intros H.
  case_bool_decide; [subst; set_solver|]. cbn. f_equal. apply IH. set_solver.
Qed.

(** ** [sanitizeError] *)

Lemma rune_boundary_start msg n :
  from_option RuneStart true (msg !! rune_boundary msg n) = true ∨ rune_boundary msg n = 0%nat.
Proof.
  induction n as [|n IH]; [by right|]. cbn.
  destruct (from_option RuneStart true (msg !! S n)) eqn:E; [by left|done].
Qed.

Lemma rune_boundary_le msg n : (rune_boundary msg n ≤ n)%nat.
Proof. induction n as [|n IH]; [done|]. cbn [rune_boundary]. case_match; lia. Qed.

Lemma rune_boundary_ge msg n m d :
  msg !! m = Some d → RuneStart d = true → (m ≤ n)%nat → (m ≤ rune_boundary msg n)%nat.
Proof.
  intros Hm Hd. induction n as [|n IH]; intros Hle; [done|]. cbn [rune_boundary].
  case_match; [done|]. destruct (decide (m = S n)) as [->|].
  - rewrite Hm in H. cbn in H. congruence.
  - apply IH. lia.
Qed.

Lemma valid_head_start s : valid_from 0 s = true → from_option RuneStart true (s !! 0%nat) = true.
Proof.
  destruct s as [|c s]; [done|]. cbn. rewrite RuneStart_is_cont.
  destruct (is_cont c) eqn:E; [|done]. unfold is_cont, in_range in E. bool_to_prop.
  destruct (rune_len (c :: s)) eqn:Hr; [done|]. intros _.
  rune_cases Hr; unfold in_range in *; bool_to_prop; lia.
Qed.

Definition cleaned (msg : list ascii) : list ascii := replace_nul (ToValidUTF8 msg).

Lemma cleaned_valid msg : valid_utf8 (cleaned msg) = true.
Proof.
  apply replace_nul_valid, to_valid_valid; [lia|constructor].
Qed.

Lemma sanitize_valid msg : valid_utf8 (sanitize_bytes msg) = true.
Proof.
  unfold sanitize_bytes. fold (cleaned msg). pose proof (cleaned_valid msg) as Hv.
  destruct (length (cleaned msg) <=? maxErrorLength)%nat eqn:Hl; [done|].
  apply Nat.leb_gt in Hl.
  pose proof (rune_boundary_le (cleaned msg) maxErrorLength).
  apply valid_from_take; [done|lia| |lia].
  destruct (rune_boundary_start (cleaned msg) maxErrorLength) as [Hb|Hb]; [done|rewrite Hb].
  by apply valid_head_start.
Qed.

Lemma sanitize_prefix msg : sanitize_bytes msg `prefix_of` cleaned msg.
Proof.
  unfold sanitize_bytes. fold (cleaned msg). case_match; [done|].
  apply prefix_take.
Qed.

Lemma sanitize_no_nul msg : NUL ∉ sanitize_bytes msg.
Proof.
  destruct (sanitize_prefix msg) as [r Hr]. pose proof (replace_nul_no_nul (ToValidUTF8 msg)) as H.
  unfold cleaned in Hr. rewrite Hr in H. set_solver.
Qed.

Lemma sanitize_length msg :
  (length (sanitize_bytes msg) ≤ maxErrorLength)%nat ∧
  ((maxErrorLength < length (cleaned msg))%nat →
   (maxErrorLength - 3 ≤ length (sanitize_bytes msg))%nat).
Proof.
  unfold sanitize_bytes. fold (cleaned msg).
  destruct (length (cleaned msg) <=? maxErrorLength)%nat eqn:Hl.
  { apply Nat.leb_le in Hl. split; lia. }
  apply Nat.leb_gt in Hl. pose proof (rune_boundary_le (cleaned msg) maxErrorLength).
  rewrite length_take. split; [lia|intros _].
  destruct (lookup_lt_is_Some_2 (cleaned msg) maxErrorLength Hl) as [c Hc].
  assert (maxErrorLength - 3 ≤ rune_boundary (cleaned msg) maxErrorLength)%nat; [|lia].
  destruct (is_cont c) eqn:Hcont.
  - destruct (valid_from_start 0 _ _ _ (cleaned_valid msg) Hc Hcont ltac:(lia))
      as (m & d & ? & Hm & Hd).
    pose proof (rune_boundary_ge _ maxErrorLength _ _ Hm Hd ltac:(lia)). lia.
  - pose proof (rune_boundary_ge _ maxErrorLength _ _ Hc) as Hge.
    rewrite RuneStart_is_cont, Hcont in Hge. specialize (Hge eq_refl). lia.
Qed.

Lemma sanitize_id msg :
  storable msg = true → (length msg ≤ maxErrorLength)%nat → sanitize_bytes msg = msg.
Proof.
  intros [Hv Hn]%andb_prop Hl. bool_to_prop. unfold sanitize_bytes, ToValidUTF8.
  rewrite to_valid_id by done. rewrite replace_nul_id by done.
  by rewrite (proj2 (Nat.leb_le _ _) Hl).
Qed.

(** ** [TrimSpace] *)

Lemma strip_one_None encs s :
  strip_one encs s = None ↔ ∀ e, e ∈ encs → ¬ e `prefix_of` s.
Proof.
  unfold strip_one. destruct (filter _ _) as [|e l] eqn:E.
  - split; [|done]. intros _ e He Hp.
    assert (e ∈ filter (λ e, e `prefix_of` s) encs) as Hin by by apply list_elem_of_filter.
    rewrite E in Hin. by apply elem_of_nil in Hin.
  - split; [done|]. intros H.
    assert (e ∈ filter (λ e, e `prefix_of` s) encs) as [Hp Hin]%list_elem_of_filter
      by (rewrite E; apply elem_of_cons; by left).
    by destruct (H e Hin).
Qed.

Lemma strip_one_Some encs s r :
  strip_one encs s = Some r → ∃ e, e ∈ encs ∧ s = e ++ r.
Proof.
  unfold strip_one. destruct (filter _ _) as [|e l] eqn:E; [done|]. intros [= <-].
  assert (e ∈ filter (λ e, e `prefix_of` s) encs) as [[t ->] Hin]%list_elem_of_filter
    by (rewrite E; apply elem_of_cons; by left).
  exists e. split; [done|]. by rewrite drop_app_length.
Qed.

Lemma trim_left_suffix encs n s : ∃ p, s = p ++ trim_left encs n s.
Proof.
  revert s. induction n as [|n IH]; intros s; cbn; [by exists []|].
  destruct (strip_one encs s) as [r|] eqn:E; [|by exists []].
  apply strip_one_Some in E as (e & _ & ->). destruct (IH r) as [p Hp].
  exists (e ++ p). by rewrite <-app_assoc, <-Hp.
Qed.

Lemma trim_left_id encs n s : strip_one encs s = None → trim_left encs n s = s.
Proof. destruct n; cbn; [done|]. by intros ->. Qed.

Lemma trim_left_done encs n s :
  [] ∉ encs → (length s ≤ n)%nat → strip_one encs (trim_left encs n s) = None.
Proof.
  intros Hne. revert s. induction n as [|n IH]; intros s Hl; cbn.
  - destruct s; [|cbn in Hl; lia]. apply strip_one_None. intros e He Hp.
    apply prefix_nil_inv in Hp. by subst.
  - destruct (strip_one encs s) as [r|] eqn:E; [|done].
    apply IH. apply strip_one_Some in E as (e & He & ->).
    rewrite length_app in Hl. destruct e; [done|cbn in Hl; lia].
Qed.

(** Neither end of a trimmed string is a space rune. *)
Definition trimmed (s : list ascii) : Prop :=
  strip_one space_encodings s = None ∧
  strip_one (map reverse space_encodings) (reverse s) = None.

Lemma space_encodings_nonempty :
  [] ∉ space_encodings ∧ [] ∉ map reverse space_encodings.
Proof.
  split; intros H; apply list_elem_of_In in H; vm_compute in H; by intuition.
Qed.

Lemma trim_bytes_trimmed s : trimmed (trim_bytes s).
Proof.
  destruct space_encodings_nonempty as [Hne Hne']. unfold trim_bytes.
  set (l := trim_left space_encodings (length s) s).
  pose proof (trim_left_done space_encodings (length s) s Hne ltac:(done)) as Hl. fold l in Hl.
  pose proof (trim_left_done (map reverse space_encodings) (length l) (reverse l) Hne'
    ltac:(by rewrite length_reverse)) as Hr.
  destruct (trim_left_suffix (map reverse space_encodings) (length l) (reverse l)) as [p Hp].
  set (t := trim_left (map reverse space_encodings) (length l) (reverse l)) in *.
  split; [|by rewrite reverse_involutive].
  apply strip_one_None. intros e He Hpre. rewrite strip_one_None in Hl. apply (Hl e He).
  assert (l = reverse t ++ reverse p) as Hlt
    by (rewrite <-reverse_app, <-Hp, reverse_involutive; done).
  rewrite Hlt.
  by apply prefix_app_r.
Qed.

Lemma trim_bytes_id s : trimmed s → trim_bytes s = s.
Proof.
  intros [Hl Hr]. unfold trim_bytes.
  rewrite (trim_left_id _ _ _ Hl), (trim_left_id _ _ _ Hr).
  by rewrite reverse_involutive.
Qed.

Lemma s2b_b2s l : s2b (b2s l) = l.
Proof. apply list_ascii_of_string_of_list_ascii. Qed.
Lemma b2s_s2b s : b2s (s2b s) = s.
Proof. apply string_of_list_ascii_of_string. Qed.

Lemma s2b_app a b : s2b (a +:+ b) = s2b a ++ s2b b.
Proof.
  induction a as [|c a IH]; [done|].
  change (s2b (String c a +:+ b)) with (c :: s2b (a +:+ b)). by rewrite IH.
Qed.

Lemma TrimSpace_trimmed s : trimmed (s2b (TrimSpace s)).
Proof. unfold TrimSpace. rewrite s2b_b2s. apply trim_bytes_trimmed. Qed.

Lemma TrimSpace_id s : trimmed (s2b s) → TrimSpace s = s.
Proof. intros H. unfold TrimSpace. by rewrite trim_bytes_id, b2s_s2b. Qed.

Lemma TrimSpace_idem s : TrimSpace (TrimSpace s) = TrimSpace s.
Proof. apply TrimSpace_id, TrimSpace_trimmed. Qed.

#[export] Hint Resolve TrimSpace_trimmed : durable.
#[export] Hint Rewrite TrimSpace_idem s2b_b2s b2s_s2b : durable.


(** ** Decimal integers *)

Definition digits_val (s : list ascii) : Z := foldl (λ acc c, acc * 10 + (bval c - 48)) 0 s.
Definition is_digit (c : ascii) : bool := in_range 48 57 c.
#[global] Arguments is_digit : simpl never.

Lemma bval_digit n : bval (byte_of (48 + n mod 10)) = 48 + n mod 10.
Proof.
  rewrite bval_byte_of. pose proof (Z.mod_pos_bound n 10 ltac:(lia)). apply Z.mod_small. lia.
Qed.

Lemma is_digit_digit n : is_digit (byte_of (48 + n mod 10)) = true.
Proof.
  unfold is_digit, in_range. rewrite bval_digit.
  pose proof (Z.mod_pos_bound n 10 ltac:(lia)). apply andb_true_intro; split; apply Z.leb_le; lia.
Qed.

(** [digits] puts in front of [acc] a nonempty block of digits that reads as [n]. *)
Lemma digits_spec fuel n acc :
  0 <= n < 10 ^ Z.of_nat fuel → (0 < fuel)%nat →
  ∃ c ds, digits fuel n acc = c :: ds ++ acc ∧ is_digit c = true ∧
    Forall (λ c, is_digit c = true) ds ∧ digits_val (c :: ds) = n ∧
    (ds ≠ [] → bval c ≠ 48).
Proof.
  revert n acc. induction fuel as [|f IH]; intros n acc Hn Hf; [lia|]. cbn [digits].
  pose proof (Z.div_mod n 10 ltac:(lia)) as Hdm. pose proof (Z.mod_pos_bound n 10 ltac:(lia)).
  destruct (n / 10 =? 0) eqn:E; bool_to_prop.
  - exists (byte_of (48 + n mod 10)), []. rewrite is_digit_digit. split_and!; try done.
    + cbn. rewrite bval_digit. lia.
  - assert (0 <= n / 10 < 10 ^ Z.of_nat f) as Hq.
    { rewrite Nat2Z.inj_succ, Z.pow_succ_r in Hn by lia. split; [apply Z.div_pos; lia|].
      apply Z.div_lt_upper_bound; lia. }
    assert (0 < f)%nat as Hf'. { destruct f; [|lia]. cbn in Hq. lia. }
    destruct (IH (n / 10) (byte_of (48 + n mod 10) :: acc) Hq Hf')
      as (c & ds & -> & Hc & Hds & Hv & Hz).
    exists c, (ds ++ [byte_of (48 + n mod 10)]). rewrite <-app_assoc. split_and!; try done.
    + apply Forall_app_2; [done|]. constructor; [apply is_digit_digit|constructor].
    + unfold digits_val in *. rewrite app_comm_cons, foldl_app, Hv. cbn. rewrite bval_digit. lia.
    + intros _ Hb. destruct ds as [|d ds]; [|by apply Hz].
      cbn in Hv. rewrite Hb in Hv. lia.
Qed.

Lemma itoa_bytes_nonneg n :
  0 <= n < 10 ^ 20 →
  ∃ c ds, itoa_bytes n = c :: ds ∧ is_digit c = true ∧
    Forall (λ c, is_digit c = true) ds ∧ digits_val (c :: ds) = n ∧ (ds ≠ [] → bval c ≠ 48).
Proof.
  intros Hn. unfold itoa_bytes. rewrite (proj2 (Z.ltb_ge n 0)) by lia.
  destruct (digits_spec 20 n [] Hn ltac:(lia)) as (c & ds & -> & Hs).
  exists c, ds. by rewrite app_nil_r.
Qed.

Lemma itoa_inj n m :
  0 <= n < 10 ^ 20 → 0 <= m < 10 ^ 20 → itoa_bytes n = itoa_bytes m → n = m.
Proof.
  intros (c & ds & Hn & _ & _ & Hv & _)%itoa_bytes_nonneg
         (c' & ds' & Hm & _ & _ & Hv' & _)%itoa_bytes_nonneg. congruence.
Qed.

Lemma sanitize_storable msg : storable (s2b (sanitizeError msg)) = true.
Proof.
  unfold sanitizeError. rewrite s2b_b2s. unfold storable. rewrite sanitize_valid.
  apply bool_decide_eq_true, sanitize_no_nul.
Qed.

(** Whatever bytes an error message has, its sanitised form can be stored as
    PostgreSQL text - valid UTF-8 without NUL - and is at most 4000 bytes; it loses at
    most three bytes below that bound to keep its last character whole, and a message
    that was storable and short enough is unchanged. *)
Theorem sanitizeError_storable msg :
  let out := s2b (sanitizeError msg) in
  storable out = true ∧ (length out ≤ maxErrorLength)%nat ∧
  out `prefix_of` replace_nul (ToValidUTF8 (s2b msg)) ∧
  ((maxErrorLength < length (replace_nul (ToValidUTF8 (s2b msg))))%nat →
     (maxErrorLength - 3 ≤ length out)%nat) ∧
  (storable (s2b msg) = true → (length (s2b msg) ≤ maxErrorLength)%nat →
     sanitizeError msg = msg).
Proof.
  cbn zeta. split; [apply sanitize_storable|]. unfold sanitizeError. rewrite s2b_b2s.
  destruct (sanitize_length (s2b msg)) as [Hl Hl'].
  split_and!; [done|apply sanitize_prefix|done|].
  - intros ? ?. by rewrite sanitize_id, b2s_s2b.
Qed.
