(* ===== verification/Json.v ===== *)
(** * JSON text as encoding/json reads it

    What the package uses of [encoding/json] on bytes: the validity scan of
    [json.Unmarshal] (scanner.go's grammar, with its nesting limit), the raw
    bytes of object members and array elements ([json.RawMessage]), the decoding
    of [struct{Received json.RawMessage}] in [StepContext.Event], and the decoding
    of [[][2]json.RawMessage] with its integer indices in [claimReadyRuns].
    Decoding into a caller's type is an argument where it is used. *)

From S2P Require Import Prelude GoText.

Definition dquote : ascii := "034".
Definition backslash : ascii := "092".
Definition ch (z : Z) (c : ascii) : bool := bval c =? z.
Definition is_dq := ch 34.
Definition is_hex (c : ascii) : bool :=
  is_digit c || in_range 97 102 c || in_range 65 70 c.
Definition is_ws (c : ascii) : bool := ch 32 c || ch 9 c || ch 10 c || ch 13 c.

(** [maxNestingDepth] of encoding/json. *)
Definition maxNestingDepth : nat := 100 * 100.

(** Each scanner returns what follows the text it recognised. *)
Fixpoint skip_ws (s : list ascii) : list ascii :=
  match s with c :: r => if is_ws c then skip_ws r else s | [] => [] end.

(** After an opening quote, up to the closing one. *)
Fixpoint scan_str (s : list ascii) : option (list ascii) :=
  match s with
  | [] => None
  | c :: r =>
    if is_dq c then Some r
    else if ch 92 c then
      match r with
      | e :: r' =>
        if ch 117 e then
          match r' with
          | h1 :: h2 :: h3 :: h4 :: r'' =>
            if is_hex h1 && is_hex h2 && is_hex h3 && is_hex h4 then scan_str r'' else None
          | _ => None
          end
        else if existsb (λ z, ch z e) [98; 102; 110; 114; 116; 92; 47; 34] then scan_str r'
        else None
      | [] => None
      end
    else if bval c <? 32 then None
    else scan_str r
  end.

Fixpoint skip_digits (s : list ascii) : list ascii :=
  match s with c :: r => if is_digit c then skip_digits r else s | [] => [] end.

(** One or more digits. *)
Definition scan_digits1 (s : list ascii) : option (list ascii) :=
  match s with c :: r => if is_digit c then Some (skip_digits r) else None | [] => None end.

Definition scan_exp (s : list ascii) : option (list ascii) :=
  match s with
  | c :: r =>
    if ch 101 c || ch 69 c then
      match r with
      | g :: r' => if ch 43 g || ch 45 g then scan_digits1 r' else scan_digits1 r
      | [] => None
      end
    else Some s
  | [] => Some []
  end.

Definition scan_frac (s : list ascii) : option (list ascii) :=
  match s with
  | c :: r => if ch 46 c then scan_digits1 r else Some s
  | [] => Some []
  end.

(** The integer part: [0] or a digit [1-9] and more digits. *)
Definition scan_int (s : list ascii) : option (list ascii) :=
  match s with
  | c :: r => if ch 48 c then Some r else if is_digit c then Some (skip_digits r) else None
  | [] => None
  end.

Definition scan_number (s : list ascii) : option (list ascii) :=
  let s := match s with c :: r => if ch 45 c then r else s | [] => s end in
  s ← scan_int s; s ← scan_frac s; scan_exp s.

Fixpoint scan_lit (lit s : list ascii) : option (list ascii) :=
  match lit, s with
  | [], _ => Some s
  | l :: lit', c :: s' => if bool_decide (l = c) then scan_lit lit' s' else None
  | _ :: _, [] => None
  end.

(** The bytes of [s] before its suffix [r]. *)
Definition before (s r : list ascii) : list ascii := take (length s - length r) s.

(** Members of an object after its opening brace (which is not empty): the raw
    keys (between their quotes) and raw values; [val] scans one value. *)
Fixpoint scan_members (val : list ascii → option (list ascii)) (n : nat) (s : list ascii)
    : option (list (list ascii * list ascii) * list ascii) :=
  match n, s with
  | S n', q :: s1 =>
    if is_dq q then
      s2 ← scan_str s1;
      match skip_ws s2 with
      | c :: s3 =>
        if ch 58 c then
          let s4 := skip_ws s3 in
          s5 ← val s4;
          match skip_ws s5 with
          | d :: s6 =>
            if ch 125 d then Some ([(before s1 (dquote :: s2), before s4 s5)], s6)
            else if ch 44 d then
              '(ms, r) ← scan_members val n' (skip_ws s6);
              Some ((before s1 (dquote :: s2), before s4 s5) :: ms, r)
            else None
          | [] => None
          end
        else None
      | [] => None
      end
    else None
  | _, _ => None
  end.

(** Elements of an array after its opening bracket (which is not empty). *)
Fixpoint scan_elems (val : list ascii → option (list ascii)) (n : nat) (s : list ascii)
    : option (list (list ascii) * list ascii) :=
  match n with
  | 0%nat => None
  | S n' =>
    s1 ← val s;
    match skip_ws s1 with
    | d :: s2 =>
      if ch 93 d then Some ([before s s1], s2)
      else if ch 44 d then
        '(es, r) ← scan_elems val n' (skip_ws s2); Some (before s s1 :: es, r)
      else None
    | [] => None
    end
  end.

Definition scan_object val (r : list ascii) :=
  match skip_ws r with
  | c :: r' => if ch 125 c then Some ([], r') else scan_members val (length r) (c :: r')
  | [] => None
  end.
Definition scan_array val (r : list ascii) :=
  match skip_ws r with
  | c :: r' => if ch 93 c then Some ([], r') else scan_elems val (length r) (c :: r')
  | [] => None
  end.

(** One value whose first byte is the head of [s]; [d] levels of nesting are left. *)
Fixpoint scan_value (d : nat) (s : list ascii) : option (list ascii) :=
  match s with
  | [] => None
  | c :: r =>
    if is_dq c then scan_str r
    else if ch 123 c then
      match d with
      | S d' => snd <$> scan_object (scan_value d') r
      | 0%nat => None
      end
    else if ch 91 c then
      match d with
      | S d' => snd <$> scan_array (scan_value d') r
      | 0%nat => None
      end
    else if ch 116 c then scan_lit (s2b "true") s
    else if ch 102 c then scan_lit (s2b "false") s
    else if ch 110 c then scan_lit (s2b "null") s
    else scan_number s
  end.

(** [checkValid]: one value surrounded by white space. *)
Definition check_valid (data : list ascii) : bool :=
  match scan_value maxNestingDepth (skip_ws data) with
  | Some r => bool_decide (skip_ws r = [])
  | None => false
  end.

Definition syntax_error : error := Errorf "invalid JSON syntax" [].
Definition type_error (ty : string) : error := Errorf "json: cannot unmarshal value into Go value of type %s" [ty].

(** ** [struct{Received json.RawMessage `json:"received"`}] *)

Definition hex_val (c : ascii) : Z :=
  if is_digit c then bval c - 48 else if in_range 97 102 c then bval c - 87 else bval c - 55.

(** The code units of a member name, escapes decoded; only comparison with an
    ASCII name is needed. *)
Fixpoint unquote (s : list ascii) : list Z :=
  match s with
  | c :: r =>
    if ch 92 c then
      match r with
      | e :: r' =>
        if ch 117 e then
          match r' with
          | h1 :: h2 :: h3 :: h4 :: r'' =>
            hex_val h1 * 4096 + hex_val h2 * 256 + hex_val h3 * 16 + hex_val h4 :: unquote r''
          | _ => []
          end
        else (if ch 98 e then 8 else if ch 102 e then 12 else if ch 110 e then 10
              else if ch 114 e then 13 else if ch 116 e then 9 else bval e) :: unquote r'
      | [] => []
      end
    else bval c :: unquote r
  | [] => []
  end.

(** encoding/json prefers the exact name and otherwise folds case. *)
Definition fold_case (z : Z) : Z := if (65 <=? z) && (z <=? 90) then z + 32 else z.
Definition is_received_key (k : list ascii) : bool :=
  bool_decide (fold_case <$> unquote k = bval <$> s2b "received").

(** [json.Unmarshal(raw, &outcome)] and then [outcome.Received]: a later
    duplicate member overwrites an earlier one; [null] leaves the struct alone. *)
Definition unmarshal_received (data : list ascii) : outcome (option (list ascii)) :=
  if check_valid data then
    match skip_ws data with
    | c :: r =>
      if ch 123 c then
        match scan_object (scan_value (pred maxNestingDepth)) r with
        | Some (ms, _) =>
          Ok (foldl (λ acc '(k, v), if is_received_key k then Some v else acc) None ms)
        | None => Err syntax_error
        end
      else if ch 110 c then Ok None
      else Err (type_error "struct")
    | [] => Err syntax_error
    end
  else Err syntax_error.

(** ** [[][2]json.RawMessage] and [int] *)

(** An element of the outer array: a short inner array leaves [nil] entries, a
    long one is cut, [null] leaves both entries [nil]. *)
Definition unmarshal_pair (e : list ascii)
    : outcome (option (list ascii) * option (list ascii)) :=
  match e with
  | c :: r =>
    if ch 91 c then
      match scan_array (scan_value (pred (pred maxNestingDepth))) r with
      | Some (es, _) => Ok (es !! 0%nat, es !! 1%nat)
      | None => Err syntax_error
      end
    else if ch 110 c then Ok (None, None)
    else Err (type_error "[2]json.RawMessage")
  | [] => Err syntax_error
  end.

Definition unmarshal_pairs (data : list ascii)
    : outcome (list (option (list ascii) * option (list ascii))) :=
  if check_valid data then
    match skip_ws data with
    | c :: r =>
      if ch 91 c then
        match scan_array (scan_value (pred maxNestingDepth)) r with
        | Some (es, _) =>
          foldr (λ e acc, p ← unmarshal_pair e; ps ← acc; mret (p :: ps)) (Ok []) es
        | None => Err syntax_error
        end
      else if ch 110 c then Ok []
      else Err (type_error "[][2]json.RawMessage")
    | [] => Err syntax_error
    end
  else Err syntax_error.

(** [json.Unmarshal(data, &index)] for an [int]: [nil] and other values that are
    not an integer literal in range are errors, [null] leaves the zero. *)
Definition unmarshal_int (data : list ascii) : outcome Z :=
  if check_valid data then
    let t := skip_ws data in
    if bool_decide (head t = Some (byte_of 110)) then Ok 0
    else
      let neg := bool_decide (head t = Some (byte_of 45)) in
      let ds := if neg then tail t else t in
      let ds := before ds (skip_digits ds) in
      let z := if neg then - digits_val ds else digits_val ds in
      if bool_decide (ds ≠ []) &&
         bool_decide (skip_ws (skip_digits (if neg then tail t else t)) = []) &&
         (-(2^63) <=? z) && (z <? 2^63)
      then Ok z else Err (type_error "int")
  else Err syntax_error.

(** ** The scanners do not look past the text they recognise

    A number is the one token that ends only at a byte that cannot continue it;
    [delim t] says that [t] does not begin with such a byte. *)
Definition num_cont (c : ascii) : bool := is_digit c || ch 46 c || ch 101 c || ch 69 c.
Definition delim (t : list ascii) : Prop := from_option num_cont false (head t) = false.

#[global] Arguments ch : simpl never.
#[global] Arguments is_dq : simpl never.
#[global] Arguments is_digit : simpl never.
#[global] Arguments is_hex : simpl never.
#[global] Arguments is_ws : simpl never.
#[global] Arguments maxNestingDepth : simpl never.

Lemma delim_cons c t :
  delim (c :: t) → is_digit c = false ∧ ch 46 c = false ∧ ch 101 c = false ∧ ch 69 c = false.
Proof.
  unfold delim. cbn. unfold num_cont. intros H.
  by repeat match goal with H : _ || _ = false |- _ => apply orb_false_iff in H as [? ?] end.
Qed.

Lemma skip_ws_app s t c r : skip_ws s = c :: r → skip_ws (s ++ t) = c :: r ++ t.
Proof. induction s as [|d s IH]; cbn; [done|]. case_match; [done|by intros [= -> ->]]. Qed.

Lemma scan_str_app s t r : scan_str s = Some r → scan_str (s ++ t) = Some (r ++ t).
Proof.
  remember (length s) as n eqn:Hn. assert (length s ≤ n)%nat as Hle by lia. clear Hn.
  revert s Hle r. induction n as [|n IH]; intros s Hle r; destruct s as [|c s];
    cbn in Hle; try lia; cbn; try done.
  destruct (is_dq c); [by intros [= ->]|].
  destruct (ch 92 c).
  - destruct s as [|e s]; [done|]. cbn in *. destruct (ch 117 e).
    + destruct s as [|h1 [|h2 [|h3 [|h4 s]]]]; try done. cbn in *.
      case_match; [|done]. apply IH. lia.
    + case_match; [|done]. apply IH. lia.
  - destruct (bval c <? 32); [done|]. apply IH. lia.
Qed.

Lemma skip_digits_app s t : delim t → skip_digits (s ++ t) = skip_digits s ++ t.
Proof.
  intros Ht. induction s as [|c s IH]; cbn.
  - destruct t as [|c t]; [done|]. cbn. apply delim_cons in Ht as (-> & _). done.
  - by case_match.
Qed.

Lemma scan_digits1_app s t r :
  delim t → scan_digits1 s = Some r → scan_digits1 (s ++ t) = Some (r ++ t).
Proof.
  intros Ht. destruct s as [|c s]; [done|]. cbn. case_match; [|done].
  intros [= <-]. by rewrite skip_digits_app.
Qed.

Lemma scan_exp_app s t r :
  delim t → scan_exp s = Some r → scan_exp (s ++ t) = Some (r ++ t).
Proof.
  intros Ht. destruct s as [|c s]; cbn.
  - intros [= <-]. destruct t as [|c t]; [done|]. cbn.
    by apply delim_cons in Ht as (_ & _ & -> & ->).
  - case_match; [|by intros [= <-]]. destruct s as [|g s]; [done|]. cbn.
    case_match; [by apply scan_digits1_app|].
    by apply (scan_digits1_app (g :: s) t r).
Qed.

Lemma scan_frac_app s t r :
  delim t → scan_frac s = Some r → scan_frac (s ++ t) = Some (r ++ t).
Proof.
  intros Ht. destruct s as [|c s]; cbn.
  - intros [= <-]. destruct t as [|c t]; [done|]. cbn.
    by apply delim_cons in Ht as (_ & -> & _).
  - case_match; [by apply scan_digits1_app|by intros [= <-]].
Qed.

Lemma scan_int_app s t r :
  delim t → scan_int s = Some r → scan_int (s ++ t) = Some (r ++ t).
Proof.
  intros Ht. destruct s as [|c s]; [done|]. cbn. case_match; [by intros [= <-]|].
  case_match; [|done]. intros [= <-]. by rewrite skip_digits_app.
Qed.

Lemma scan_number_app s t r :
  delim t → scan_number s = Some r → scan_number (s ++ t) = Some (r ++ t).
Proof.
  intros Ht. unfold scan_number.
  assert (∀ u, (scan_int u ≫= λ s, scan_frac s ≫= scan_exp) = Some r →
    (scan_int (u ++ t) ≫= λ s, scan_frac s ≫= scan_exp) = Some (r ++ t)) as Hu.
  { intros u (s1 & H1 & (s2 & H2 & H3)%bind_Some)%bind_Some.
    rewrite (scan_int_app _ t _ Ht H1). cbn. rewrite (scan_frac_app _ t _ Ht H2). cbn.
    by apply scan_exp_app. }
  destruct s as [|c s]; [done|]. cbn [app]. destruct (ch 45 c); [apply Hu|apply (Hu (c :: s))].
Qed.

Lemma scan_lit_app lit s t r : scan_lit lit s = Some r → scan_lit lit (s ++ t) = Some (r ++ t).
Proof.
  revert s. induction lit as [|l lit IH]; intros [|c s]; cbn; try done.
  - by intros [= <-].
  - by intros [= <-].
  - case_match; [apply IH|done].
Qed.

Lemma before_app s r t : before (s ++ t) (r ++ t) = before s r.
Proof.
  unfold before. rewrite !length_app.
  replace (length s + length t - (length r + length t))%nat with (length s - length r)%nat by lia.
  by rewrite take_app_le by lia.
Qed.

Section stable.
Context (t : list ascii) (val val' : list ascii → option (list ascii)).
Hypothesis val_nil : val [] = None.
Hypothesis val_app : ∀ s r, val s = Some r → val' (s ++ t) = Some (r ++ t).

(** [val] on what is left after white space. *)
Lemma val_ws_app s r :
  val (skip_ws s) = Some r →
  skip_ws (s ++ t) = skip_ws s ++ t ∧ val' (skip_ws (s ++ t)) = Some (r ++ t).
Proof.
  destruct (skip_ws s) as [|c s'] eqn:E; [by rewrite val_nil|].
  rewrite (skip_ws_app _ t _ _ E). intros H. split; [done|]. by apply (val_app (c :: s')).
Qed.

Lemma scan_members_app n n' s ms r :
  scan_members val n s = Some (ms, r) → (n ≤ n')%nat →
  scan_members val' n' (s ++ t) = Some (ms, r ++ t).
Proof.
  revert n' s ms r. induction n as [|n IH]; intros n' s ms r; [done|].
  intros H Hle. destruct n' as [|n']; [lia|]. destruct s as [|q s1]; [done|]. cbn in H |- *.
  destruct (is_dq q); [|done].
  apply bind_Some in H as (s2 & H2 & H). rewrite (scan_str_app _ t _ H2). cbn.
  destruct (skip_ws s2) as [|c s3] eqn:E2; [done|]. rewrite (skip_ws_app _ t _ _ E2).
  destruct (ch 58 c); [|done].
  apply bind_Some in H as (s5 & [Ews H5]%val_ws_app & H).
  rewrite H5. cbn. rewrite Ews. change (dquote :: s2 ++ t) with ((dquote :: s2) ++ t).
  rewrite !before_app.
  destruct (skip_ws s5) as [|d s6] eqn:E5; [done|]. rewrite (skip_ws_app _ t _ _ E5).
  destruct (ch 125 d); [by simplify_eq|]. destruct (ch 44 d); [|done].
  apply bind_Some in H as ([ms' r'] & H & ?). simplify_eq.
  assert (skip_ws (s6 ++ t) = skip_ws s6 ++ t) as ->.
  { destruct (skip_ws s6) as [|c6 s6'] eqn:E6; [by destruct n|]. by apply skip_ws_app. }
  rewrite (IH n' _ _ _ H) by lia. done.
Qed.

Lemma scan_elems_app n n' s es r :
  scan_elems val n s = Some (es, r) → (n ≤ n')%nat →
  scan_elems val' n' (s ++ t) = Some (es, r ++ t).
Proof.
  revert n' s es r. induction n as [|n IH]; intros n' s es r; [done|].
  intros H Hle. destruct n' as [|n']; [lia|]. cbn in H |- *.
  apply bind_Some in H as (s1 & H1 & H). rewrite (val_app _ _ H1). cbn. rewrite before_app.
  destruct (skip_ws s1) as [|d s2] eqn:E; [done|]. rewrite (skip_ws_app _ t _ _ E).
  destruct (ch 93 d); [by simplify_eq|]. destruct (ch 44 d); [|done].
  apply bind_Some in H as ([es' r'] & H & ?). simplify_eq.
  assert (skip_ws (s2 ++ t) = skip_ws s2 ++ t) as ->.
  { destruct (skip_ws s2) as [|c6 s6'] eqn:E6; [|by apply skip_ws_app].
    destruct n; cbn in H; [done|]. by rewrite val_nil in H. }
  rewrite (IH n' _ _ _ H) by lia. done.
Qed.

Lemma scan_object_app s ms r :
  scan_object val s = Some (ms, r) → scan_object val' (s ++ t) = Some (ms, r ++ t).
Proof.
  unfold scan_object. destruct (skip_ws s) as [|c s'] eqn:E; [done|].
  rewrite (skip_ws_app _ t _ _ E). destruct (ch 125 c); [by intros [= <- <-]|].
  intros H. apply (scan_members_app _ _ _ _ _ H). rewrite length_app. lia.
Qed.

Lemma scan_array_app s es r :
  scan_array val s = Some (es, r) → scan_array val' (s ++ t) = Some (es, r ++ t).
Proof.
  unfold scan_array. destruct (skip_ws s) as [|c s'] eqn:E; [done|].
  rewrite (skip_ws_app _ t _ _ E). destruct (ch 93 c); [by intros [= <- <-]|].
  intros H. apply (scan_elems_app _ _ _ _ _ H). rewrite length_app. lia.
Qed.
End stable.

Lemma scan_value_nil d : scan_value d [] = None.
Proof. by destruct d. Qed.

(** A value scans the same when more text and more nesting are allowed. *)
Lemma scan_value_app d d' s t r :
  delim t → (d ≤ d')%nat → scan_value d s = Some r → scan_value d' (s ++ t) = Some (r ++ t).
Proof.
  intros Ht. revert d' s r. induction d as [|d IH]; intros d' s r Hle;
    (destruct s as [|c s]; [done|]); destruct d' as [|d']; try lia; cbn [scan_value app];
    repeat (case_match; try done; try (by apply scan_str_app);
            try (by apply (scan_lit_app _ (c :: s))); try (by apply (scan_number_app (c :: s)))).
  all: rewrite fmap_Some; intros ([xs r'] & Hx & ->).
  - by rewrite (scan_object_app t (scan_value d) (scan_value d') (scan_value_nil d)
      (λ s r, IH d' s r ltac:(lia)) _ _ _ Hx).
  - by rewrite (scan_array_app t (scan_value d) (scan_value d') (scan_value_nil d)
      (λ s r, IH d' s r ltac:(lia)) _ _ _ Hx).
Qed.

(** ** Arrays, objects and integers in PostgreSQL's output format *)

(** [v] is exactly one JSON value, at most [d] levels deep. *)
Definition json_value (d : nat) (v : list ascii) : Prop := scan_value d v = Some [].

(** [jsonb]'s text output of an array and of a one-member object. *)
Fixpoint join_tail (close : list ascii) (es : list (list ascii)) : list ascii :=
  match es with
  | [] => close
  | e :: es => s2b ", " ++ e ++ join_tail close es
  end.
Definition array_text (es : list (list ascii)) : list ascii :=
  s2b "[" ++ match es with [] => s2b "]" | e :: es => e ++ join_tail (s2b "]") es end.
Definition object1_text (k v : list ascii) : list ascii :=
  s2b "{" ++ (dquote :: k ++ [dquote]) ++ s2b ": " ++ v ++ s2b "}".

Lemma delim_join_tail close es :
  (∃ c, close = [c] ∧ num_cont c = false) → delim (join_tail close es).
Proof. intros (c & -> & H). by destruct es. Qed.

(** The first byte of a value is no white space and no closing bracket. *)
Lemma not_value_start c :
  is_ws c || ch 93 c || ch 125 c = true →
  is_dq c || ch 123 c || ch 91 c || ch 116 c || ch 102 c || ch 110 c || ch 45 c || ch 48 c
    || is_digit c = false.
Proof. by destruct c as [[] [] [] [] [] [] [] []]. Qed.

Lemma scan_value_head d c r r' :
  scan_value d (c :: r) = Some r' → is_ws c = false ∧ ch 93 c = false ∧ ch 125 c = false.
Proof.
  intros H. destruct (is_ws c || ch 93 c || ch 125 c) eqn:E.
  - exfalso. apply not_value_start in E.
    repeat match goal with H : _ || _ = false |- _ => apply orb_false_iff in H as [H ?] end.
    destruct d; cbn -[scan_number] in H; unfold scan_number, scan_int in H;
      repeat match goal with E : ?b = false |- _ => rewrite E in H; clear E end; done.
  - by repeat match goal with H : _ || _ = false |- _ => apply orb_false_iff in H as [? ?] end.
Qed.

Lemma json_value_head d v :
  json_value d v → ∃ c r, v = c :: r ∧ is_ws c = false ∧ ch 93 c = false ∧ ch 125 c = false.
Proof.
  destruct v as [|c r]; unfold json_value; [by rewrite scan_value_nil|].
  intros H. exists c, r. split; [done|]. by eapply scan_value_head.
Qed.

Lemma skip_ws_value d v t : json_value d v → skip_ws (v ++ t) = v ++ t.
Proof. intros (c & r & -> & H & _)%json_value_head. cbn. by rewrite H. Qed.

Lemma json_value_scan d d' v t :
  json_value d v → (d ≤ d')%nat → delim t → scan_value d' (v ++ t) = Some t.
Proof. intros Hv Hd Ht. by apply (scan_value_app d d' v t [] Ht Hd). Qed.

Lemma before_value v t : before (v ++ t) t = v.
Proof.
  unfold before. rewrite length_app.
  replace (length v + length t - length t)%nat with (length v) by lia.
  by rewrite take_app_length.
Qed.

(** Evaluate the character tests on literal characters. *)
Ltac eval_test t := let v := eval vm_compute in t in change t with v.
Ltac eval_chars := repeat progress (cbv beta iota; cbn [skip_ws];
  match goal with
  | |- context [is_ws (Ascii ?a ?b ?c ?d ?e ?f ?g ?h)] => eval_test (is_ws (Ascii a b c d e f g h))
  | |- context [is_dq (Ascii ?a ?b ?c ?d ?e ?f ?g ?h)] => eval_test (is_dq (Ascii a b c d e f g h))
  | |- context [is_dq dquote] => eval_test (is_dq dquote)
  | |- context [ch ?n (Ascii ?a ?b ?c ?d ?e ?f ?g ?h)] => eval_test (ch n (Ascii a b c d e f g h))
  | |- _ => idtac
  end); cbv beta iota; cbn [skip_ws].

Lemma scan_elems_text d d' es e n t :
  Forall (json_value d) (e :: es) → (d ≤ d')%nat → (length es < n)%nat →
  scan_elems (scan_value d') n (e ++ join_tail (s2b "]") es ++ t) = Some (e :: es, t).
Proof.
  revert e n. induction es as [|e2 es IH]; intros e n Hall Hd Hn;
    inversion Hall as [|?? He Hes]; subst; (destruct n as [|n]; [cbn in Hn; lia|]);
    cbn [scan_elems join_tail].
  - rewrite (json_value_scan d d' e) by done. cbn. eval_chars. by rewrite before_value.
  - rewrite <-!app_assoc. rewrite (json_value_scan d d' e) by done. cbn. eval_chars.
    rewrite (before_value e (_ :: _)). inversion Hes as [|?? He2 _]; subst.
    rewrite (skip_ws_value d e2) by done. rewrite IH; [done|done|done|cbn in Hn; lia].
Qed.

Lemma scan_array_text d d' es t :
  Forall (json_value d) es → (d ≤ d')%nat →
  scan_array (scan_value d') (tail (array_text es) ++ t) = Some (es, t).
Proof.
  intros Hes Hd. unfold scan_array, array_text. destruct es as [|e es]; [done|]. cbn [tail app s2b].
  rewrite <-app_assoc. inversion Hes as [|?? He _]; subst.
  rewrite (skip_ws_value d e) by done.
  destruct (json_value_head _ _ He) as (c & r & -> & _ & Hc & _). cbn [app]. rewrite Hc.
  apply (scan_elems_text d d' es (c :: r) _ t); [done|done|].
  cbn [length]. rewrite !length_app. clear.
  assert (length es < length (join_tail ["]"%char] es))%nat; [|lia].
  induction es as [|e es IH]; cbn; [lia|]. rewrite length_app. lia.
Qed.

Lemma json_value_array d es :
  Forall (json_value d) es → json_value (S d) (array_text es).
Proof.
  intros Hes. unfold json_value. pose proof (scan_array_text d d es [] Hes ltac:(done)) as H.
  rewrite app_nil_r in H. unfold array_text in *. cbn [app s2b tail] in *. cbn [scan_value].
  eval_chars. by rewrite H.
Qed.

Lemma json_value_check d v :
  json_value d v → (d ≤ maxNestingDepth)%nat → check_valid v = true ∧ skip_ws v = v.
Proof.
  intros Hv Hd. pose proof (skip_ws_value d v [] Hv) as Hs. rewrite app_nil_r in Hs.
  split; [|done]. unfold check_valid. rewrite Hs.
  pose proof (json_value_scan d maxNestingDepth v [] Hv Hd ltac:(done)) as H.
  rewrite app_nil_r in H. by rewrite H.
Qed.

Lemma skip_digits_all ds : Forall (λ c, is_digit c = true) ds → skip_digits ds = [].
Proof. induction 1 as [|c ds Hc _ IH]; cbn; [done|]. by rewrite Hc. Qed.

Lemma digit_start c :
  is_digit c = true →
  is_dq c || ch 123 c || ch 91 c || ch 116 c || ch 102 c || ch 110 c || ch 45 c || is_ws c = false.
Proof. by destruct c as [[] [] [] [] [] [] [] []]. Qed.

Lemma json_value_itoa n : 0 <= n < 10 ^ 20 → json_value 0 (itoa_bytes n).
Proof.
  intros (c & ds & -> & Hc & Hds & _ & Hz)%itoa_bytes_nonneg. unfold json_value.
  pose proof (digit_start c Hc) as H.
  repeat match goal with H : _ || _ = false |- _ => apply orb_false_iff in H as [H ?] end.
  cbn [scan_value]. unfold scan_number.
  repeat match goal with E : ?b = false |- context [?b] => rewrite E end.
  unfold scan_int. destruct (ch 48 c) eqn:E48.
  - destruct ds as [|d ds]; [done|]. destruct (Hz ltac:(done)). unfold ch in E48. by bool_to_prop.
  - rewrite Hc, skip_digits_all by done. done.
Qed.

Lemma unmarshal_int_itoa n : 0 <= n < 2 ^ 63 → unmarshal_int (itoa_bytes n) = Ok n.
Proof.
  intros Hn. assert (0 <= n < 10 ^ 20) as Hn' by lia.
  destruct (json_value_check 0 _ (json_value_itoa n Hn') ltac:(lia)) as [Hc Hs].
  unfold unmarshal_int. rewrite Hc, Hs.
  destruct (itoa_bytes_nonneg n Hn') as (c & ds & -> & Hd & Hds & Hv & _).
  pose proof (digit_start c Hd) as H.
  repeat match goal with H : _ || _ = false |- _ => apply orb_false_iff in H as [H ?] end.
  assert (∀ z, is_digit (byte_of z) = false → bool_decide (Some c = Some (byte_of z)) = false)
    as Hne.
  { intros z Hz. apply bool_decide_eq_false_2. intros [= ->]. congruence. }
  cbn [head]. rewrite (Hne 110), (Hne 45) by done.
  cbn [tail skip_digits]. rewrite Hd, (skip_digits_all ds Hds).
  assert (before (c :: ds) [] = c :: ds) as ->.
  { pose proof (before_value (c :: ds) []) as Hb. by rewrite app_nil_r in Hb. }
  rewrite Hv. rewrite !bool_decide_eq_true_2 by done.
  rewrite (proj2 (Z.leb_le _ _)), (proj2 (Z.ltb_lt n _)) by lia. done.
Qed.

(** Decoding the array of [[index, value]] pairs that PostgreSQL prints. *)
Definition pair_text (p : Z * list ascii) : list ascii :=
  array_text [itoa_bytes p.1; p.2].

Lemma unmarshal_pairs_text d l :
  Forall (λ p, 0 <= p.1 < 10 ^ 20 ∧ json_value d p.2) l → (S (S d) ≤ maxNestingDepth)%nat →
  unmarshal_pairs (array_text (pair_text <$> l)) =
    Ok ((λ p, (Some (itoa_bytes p.1), Some p.2)) <$> l).
Proof.
  intros Hl Hd.
  assert (∀ p, p ∈ l → Forall (json_value d) [itoa_bytes p.1; p.2]) as Hp.
  { rewrite Forall_forall in Hl. intros p (H1 & H2)%Hl. repeat constructor; [|done].
    unfold json_value. rewrite <-(app_nil_r (itoa_bytes p.1)).
    apply (json_value_scan 0); [by apply json_value_itoa|lia|done]. }
  assert (Forall (json_value (S d)) (pair_text <$> l)) as Hps.
  { apply Forall_fmap, Forall_forall. intros p Hin. apply json_value_array, Hp, Hin. }
  destruct (json_value_check _ _ (json_value_array _ _ Hps) Hd) as [Hc Hs].
  unfold unmarshal_pairs. rewrite Hc, Hs.
  pose proof (scan_array_text (S d) (pred maxNestingDepth) _ [] Hps ltac:(lia)) as Hscan.
  rewrite app_nil_r in Hscan. unfold array_text in Hscan |- * at 1.
  cbn [app s2b tail] in Hscan |- *. eval_chars.
  rewrite Hscan. clear Hscan Hc Hs Hps Hl. induction l as [|p l IH]; [done|].
  cbn [fmap list_fmap foldr]. rewrite IH by set_solver.
  assert (unmarshal_pair (pair_text p) = Ok (Some (itoa_bytes p.1), Some p.2)) as ->; [|done].
  pose proof (scan_array_text d (pred (pred maxNestingDepth)) [itoa_bytes p.1; p.2] []
    (Hp p ltac:(set_solver)) ltac:(lia)) as Hscan.
  rewrite app_nil_r in Hscan. unfold unmarshal_pair, pair_text, array_text in *.
  cbn [app s2b tail] in *. eval_chars. by rewrite Hscan.
Qed.

(** The outcome of a delivered wait, as the worker writes it and as [jsonb] prints it. *)
Definition received_text (sp v : list ascii) : list ascii :=
  (dquote :: s2b "received" ++ [dquote]) ++ s2b ":" ++ sp ++ v ++ s2b "}".

Lemma scan_received d d' v sp :
  json_value d v → (d ≤ d')%nat → sp = [] ∨ sp = s2b " " →
  scan_object (scan_value d') (received_text sp v) = Some ([(s2b "received", v)], []).
Proof.
  intros Hv Hd' Hsp. unfold received_text. set (t := sp ++ v ++ s2b "}").
  assert (∀ n, scan_members (scan_value d') (S n)
    (dquote :: s2b "received" ++ dquote :: s2b ":" ++ t) = Some ([(s2b "received", v)], []))
    as Hm; [|apply Hm].
  intros n. cbn [scan_members]. eval_chars.
  change (scan_str (s2b "received" ++ dquote :: s2b ":" ++ t)) with (Some (s2b ":" ++ t)).
  cbn [mbind option_bind]. rewrite before_value. cbn [s2b app]. eval_chars.
  assert (skip_ws t = v ++ s2b "}") as ->.
  { unfold t. destruct Hsp as [-> | ->]; cbn; eval_chars; by rewrite (skip_ws_value d v). }
  rewrite (json_value_scan d d' v) by done. cbn [mbind option_bind s2b]. eval_chars.
  by rewrite before_value.
Qed.

Lemma json_value_received d v sp :
  json_value d v → sp = [] ∨ sp = s2b " " → json_value (S d) (s2b "{" ++ received_text sp v).
Proof.
  intros Hv Hsp. unfold json_value. change (s2b "{" ++ received_text sp v)
    with ("{"%char :: received_text sp v). cbn [scan_value]. eval_chars.
  by rewrite (scan_received d d v sp).
Qed.

Lemma unmarshal_received_text d v sp :
  json_value d v → (S d ≤ maxNestingDepth)%nat → sp = [] ∨ sp = s2b " " →
  unmarshal_received (s2b "{" ++ received_text sp v) = Ok (Some v).
Proof.
  intros Hv Hd Hsp. unfold unmarshal_received, check_valid. revert Hd.
  generalize maxNestingDepth as M. intros M Hd.
  change (skip_ws (s2b "{" ++ received_text sp v)) with ("{"%char :: received_text sp v).
  destruct M as [|M]; [lia|]. cbn [scan_value pred]. eval_chars.
  rewrite (scan_received d M v sp) by (done || lia). cbn [fmap option_fmap option_map snd].
  rewrite bool_decide_eq_true_2 by done. done.
Qed.

Lemma object1_received v : object1_text (s2b "received") v = s2b "{" ++ received_text (s2b " ") v.
Proof. done. Qed.

Lemma json_value_mono d d' v : json_value d v → (d ≤ d')%nat → json_value d' v.
Proof.
  intros Hv Hd. unfold json_value. rewrite <-(app_nil_r v). by apply (json_value_scan d).
Qed.
