(* ===== verification/Types.v ===== *)
(** * types.go: run states, the step context and the options

    [StepContext]'s accessors over the values of earlier operations, the
    enqueue and step options as functions on their records, and [RunState].
    Decoding into a caller's destination is an argument [dst : option (list ascii
    → error + T)]: [None] is a nil destination and the function is what
    [json.Unmarshal] makes of the bytes for the destination's type (a panic of the
    destination's own [UnmarshalJSON] is not modelled). *)

From S2P Require Import Prelude GoText Json.

(** ** [RunState] *)
Inductive RunState :=
  | RunReady | RunLeased | RunWaitingEvent | RunCompleted | RunFailed | RunCancelled.

#[global] Instance RunState_eq_dec : EqDecision RunState.
Proof. solve_decision. Defined.

(** The text of a state, as the column [state] holds it. *)
Definition RunState_text (s : RunState) : string :=
  match s with
  | RunReady => "ready" | RunLeased => "leased" | RunWaitingEvent => "waiting_event"
  | RunCompleted => "completed" | RunFailed => "failed" | RunCancelled => "cancelled"
  end.

Definition Terminal (s : RunState) : bool :=
  bool_decide (s = RunCompleted) || bool_decide (s = RunFailed) || bool_decide (s = RunCancelled).

(** What [RunStatus] of engine.go answers. *)
Record RunStatus := {
  rs_ID : string;
  rs_WorkflowName : string;
  rs_WorkflowVersion : Z;
  rs_Queue : string;
  rs_State : RunState;
  rs_StepIndex : Z;
  rs_Attempt : Z;
  rs_MaxAttempts : Z;
  rs_LeaseFailures : Z;
  rs_NextRunAt : Z;
  rs_WaitingEventKey : option string;
  rs_WaitingDeadline : option Z;
  rs_LastError : option string;
  rs_CreatedAt : Z;
  rs_UpdatedAt : Z;
}.

(** ** [StepContext] *)

(** A [json.RawMessage] is its bytes; [None] is a nil slice. *)
Record StepContext := {
  sc_RunID : string;
  sc_Workflow : string;
  sc_Input : option (list ascii);
  sc_StepKey : string;
  sc_values : list (option (list ascii));
  sc_names : gmap string nat;
}.

(** [sc.raw(name)]. *)
Definition sc_raw (sc : StepContext) (name : string) : option (list ascii) :=
  match sc_names sc !! name with
  | Some index =>
    if (length (sc_values sc) <=? index)%nat then None
    else mjoin (sc_values sc !! index)
  | None => None
  end.

Definition nil_step_context : error := Errorf "nil step context" [].

Section accessors.
Context {T : Type}.

(** What a call leaves behind: its boolean, its error and the decoded value. *)
Record decoded := { dec_ok : bool; dec_err : option error; dec_dst : option T }.

(** [DecodeInput]: an empty input leaves the destination alone. *)
Definition DecodeInput (sc : option StepContext) (dst : list ascii → error + T)
    : option error * option T :=
  match sc with
  | None => (Some nil_step_context, None)
  | Some sc =>
    match sc_Input sc with
    | None | Some [] => (None, None)
    | Some raw =>
      match dst raw with
      | inr v => (None, Some v)
      | inl e => (Some e, None)
      end
    end
  end.

Definition Value (sc : option StepContext) (step : string)
    (dst : option (list ascii → error + T)) : decoded :=
  match sc with
  | None => {| dec_ok := false; dec_err := Some nil_step_context; dec_dst := None |}
  | Some sc =>
    match sc_raw sc step with
    | None => {| dec_ok := false; dec_err := None; dec_dst := None |}
    | Some raw =>
      match dst with
      | None => {| dec_ok := true; dec_err := Some (Errorf "dst cannot be nil" []); dec_dst := None |}
      | Some unmarshal =>
        match unmarshal raw with
        | inr v => {| dec_ok := true; dec_err := None; dec_dst := Some v |}
        | inl e =>
          {| dec_ok := false; dec_err := Some (Wrapf "decode step value %q: %w" [step] e);
             dec_dst := None |}
        end
      end
    end
  end.

Definition StepResult (sc : option StepContext) (step : string)
    (dst : option (list ascii → error + T)) : option error * option T :=
  let r := Value sc step dst in
  match dec_err r with
  | Some e => (Some e, dec_dst r)
  | None =>
    if dec_ok r then (None, dec_dst r)
    else (Some (Wrapf "%w: %s" [step] (Sentinel ErrStepResultNotFound)), None)
  end.

(** The literal compared by [string(raw) == `"timed_out"`]. *)
Definition timed_out_text : list ascii := dquote :: s2b "timed_out" ++ [dquote].

Definition Event (sc : option StepContext) (wait : string)
    (dst : option (list ascii → error + T)) : decoded :=
  match sc with
  | None => {| dec_ok := false; dec_err := Some nil_step_context; dec_dst := None |}
  | Some sc =>
    match sc_raw sc wait with
    | None =>
      {| dec_ok := false;
         dec_err := Some (Wrapf "%w: %s" [wait] (Sentinel ErrStepResultNotFound));
         dec_dst := None |}
    | Some raw =>
      if bool_decide (raw = timed_out_text) then
        {| dec_ok := false; dec_err := None; dec_dst := None |}
      else
        match unmarshal_received raw with
        | Ok (Some received) =>
          match dst with
          | None => {| dec_ok := true; dec_err := None; dec_dst := None |}
          | Some unmarshal =>
            match unmarshal received with
            | inr v => {| dec_ok := true; dec_err := None; dec_dst := Some v |}
            | inl e =>
              {| dec_ok := true; dec_err := Some (Wrapf "decode event payload %q: %w" [wait] e);
                 dec_dst := None |}
            end
          end
        | _ =>
          {| dec_ok := false;
             dec_err := Some (Errorf "decode wait outcome %q: not an event outcome" [wait]);
             dec_dst := None |}
        end
    end
  end.
End accessors.
Arguments decoded : clear implicits.

Definition sc_WorkflowID (sc : option StepContext) : string := from_option sc_RunID "" sc.
Definition sc_WorkflowName (sc : option StepContext) : string := from_option sc_Workflow "" sc.

(** [RawValue] returns a copy of the stored bytes. *)
Definition RawValue (sc : option StepContext) (step : string) : option (list ascii) :=
  sc ← sc; sc_raw sc step.

Definition IdempotencyKey (sc : option StepContext) : string :=
  match sc with
  | None => ""
  | Some sc =>
    if bool_decide (sc_RunID sc = "") || bool_decide (sc_StepKey sc = "") then ""
    else sc_RunID sc +:+ ":" +:+ sc_StepKey sc
  end.

(** ** Options *)

(** [enqueueOptions]; an empty [runID] or [idempotencyKey] means unset. *)
Record enqueueOptions := {
  o_runID : string;
  o_workflowVersion : Z;
  o_queue : string;
  o_maxAttempts : Z;
  o_idempotencyKey : string;
  o_scheduledAt : option Z;
}.

(** An [EnqueueOption] is a mutation of the options. *)
Definition EnqueueOption := enqueueOptions → enqueueOptions.

Definition WithWorkflowVersion (version : Z) : EnqueueOption := λ o,
  {| o_runID := o_runID o; o_workflowVersion := version; o_queue := o_queue o;
     o_maxAttempts := o_maxAttempts o; o_idempotencyKey := o_idempotencyKey o;
     o_scheduledAt := o_scheduledAt o |}.
Definition WithRunID (id : string) : EnqueueOption := λ o,
  {| o_runID := id; o_workflowVersion := o_workflowVersion o; o_queue := o_queue o;
     o_maxAttempts := o_maxAttempts o; o_idempotencyKey := o_idempotencyKey o;
     o_scheduledAt := o_scheduledAt o |}.
Definition WithWorkflowID (id : string) : EnqueueOption := WithRunID id.
Definition WithQueue (queue : string) : EnqueueOption := λ o,
  {| o_runID := o_runID o; o_workflowVersion := o_workflowVersion o; o_queue := queue;
     o_maxAttempts := o_maxAttempts o; o_idempotencyKey := o_idempotencyKey o;
     o_scheduledAt := o_scheduledAt o |}.
Definition WithMaxAttempts (n : Z) : EnqueueOption := λ o,
  {| o_runID := o_runID o; o_workflowVersion := o_workflowVersion o; o_queue := o_queue o;
     o_maxAttempts := n; o_idempotencyKey := o_idempotencyKey o;
     o_scheduledAt := o_scheduledAt o |}.
Definition WithIdempotencyKey (key : string) : EnqueueOption := λ o,
  {| o_runID := o_runID o; o_workflowVersion := o_workflowVersion o; o_queue := o_queue o;
     o_maxAttempts := o_maxAttempts o; o_idempotencyKey := key;
     o_scheduledAt := o_scheduledAt o |}.
Definition WithDeduplicationKey (key : string) : EnqueueOption := WithIdempotencyKey key.
Definition WithScheduledAt (at_ : Z) : EnqueueOption := λ o,
  {| o_runID := o_runID o; o_workflowVersion := o_workflowVersion o; o_queue := o_queue o;
     o_maxAttempts := o_maxAttempts o; o_idempotencyKey := o_idempotencyKey o;
     o_scheduledAt := Some at_ |}.

(** [for _, opt := range opts { if opt != nil { opt(&o) } }]. *)
Definition apply_options {O : Type} (opts : list (option (O → O))) (o : O) : O :=
  foldl (λ o opt, match opt with Some f => f o | None => o end) o opts.

Record stepOptions := { so_timeout : Z }.
Definition StepOption := stepOptions → stepOptions.
Definition WithStepTimeout (timeout : Z) : StepOption := λ _, {| so_timeout := timeout |}.
