(* ===== verification/Builder.v ===== *)
(** * builder.go: workflow definitions and their compilation

    A workflow's build function is the sequence of the builder
    methods it calls; it stops at the first one that panics.  Step functions and
    key resolvers are user code, called through handles ([nat]); a nil function is
    [None].  [compileWorkflow] runs the calls and numbers the operations. *)

From S2P Require Import Prelude GoText Json Types.

(** A handle on a user function. *)
Definition StepFunc := nat.
Definition KeyFunc := nat.

(** ** Operations *)

Record stepOp := { st_name : string; st_fn : StepFunc; st_opts : stepOptions }.

(** [keyFn = None] is a nil resolver: the fixed [key] is used. *)
Record waitEventOp := { w_name : string; w_key : string; w_keyFn : option KeyFunc; w_timeout : Z }.

Inductive operation :=
  | opStep (step : stepOp)
  | opSleep (sleep : Z)
  | opWaitEvent (wait : waitEventOp).

#[global] Instance operation_eq_dec : EqDecision operation.
Proof.
  assert (EqDecision stepOptions) by solve_decision.
  assert (EqDecision stepOp) by solve_decision.
  assert (EqDecision waitEventOp) by solve_decision. solve_decision.
Defined.

(** What calling a resolver did: it returned, or it panicked with a value. *)
Inductive key_result :=
  | KeyReturned (key : string) (err : option error)
  | KeyPanicked (v : string).

(** [op.resolve(sc)], given what [keyFn(sc)] does. *)
Definition resolve_key (op : waitEventOp) (called : key_result) : outcome string :=
  raw ← match w_keyFn op with
        | None => Ok (w_key op)
        | Some _ =>
          match called with
          | KeyPanicked v => Err (Errorf "durablepg: event key resolver panicked: %v" [v])
          | KeyReturned _ (Some e) => Err e
          | KeyReturned k None => Ok k
          end
        end;
  let key := TrimSpace raw in
  _ ← guard_err (bool_decide (key = "")) (Errorf "durablepg: resolved event key is required" []);
  mret key.

(** ** The builder *)

Record Builder := { b_ops : list operation; b_stepNames : gset string }.
Definition new_Builder : Builder := {| b_ops := []; b_stepNames := ∅ |}.

Definition append_op (b : Builder) (op : operation) : Builder :=
  {| b_ops := b_ops b ++ [op]; b_stepNames := b_stepNames b |}.

Definition addName (b : Builder) (name : string) : outcome (string * Builder) :=
  let name := TrimSpace name in
  _ ← guard_panic (bool_decide (name = "")) "durablepg: step name is required" [];
  _ ← guard_panic (bool_decide (name ∈ b_stepNames b)) "durablepg: duplicate step name %q" [name];
  mret (name, {| b_ops := b_ops b; b_stepNames := {[name]} ∪ b_stepNames b |}).

Definition Step (b : Builder) (name : string) (fn : option StepFunc)
    (opts : list (option StepOption)) : outcome Builder :=
  match fn with
  | None => Panic "durablepg: step %q has nil function" [name]
  | Some fn =>
    '(name, b) ← addName b name;
    let o := apply_options opts {| so_timeout := 0 |} in
    _ ← guard_panic (so_timeout o <? 0) "durablepg: step %q timeout cannot be negative" [name];
    mret (append_op b (opStep {| st_name := name; st_fn := fn; st_opts := o |}))
  end.

Definition Sleep (b : Builder) (d : Z) : outcome Builder :=
  _ ← guard_panic (d <=? 0) "durablepg: sleep duration must be > 0" [];
  mret (append_op b (opSleep d)).

Definition WaitEvent (b : Builder) (name key : string) (timeout : Z) : outcome Builder :=
  let key := TrimSpace key in
  _ ← guard_panic (bool_decide (key = "")) "durablepg: wait event key is required" [];
  _ ← guard_panic (timeout <=? 0) "durablepg: wait event timeout must be > 0" [];
  '(name, b) ← addName b name;
  mret (append_op b (opWaitEvent
    {| w_name := name; w_key := key; w_keyFn := None; w_timeout := timeout |})).

Definition WaitEventFunc (b : Builder) (name : string) (keyFn : option KeyFunc) (timeout : Z)
    : outcome Builder :=
  match keyFn with
  | None => Panic "durablepg: event key resolver is required" []
  | Some keyFn =>
    _ ← guard_panic (timeout <=? 0) "durablepg: wait event timeout must be > 0" [];
    '(name, b) ← addName b name;
    mret (append_op b (opWaitEvent
      {| w_name := name; w_key := ""; w_keyFn := Some keyFn; w_timeout := timeout |}))
  end.

(** ** Definitions *)

Inductive builder_call :=
  | CallStep (name : string) (fn : option StepFunc) (opts : list (option StepOption))
  | CallSleep (d : Z)
  | CallWaitEvent (name key : string) (timeout : Z)
  | CallWaitEventFunc (name : string) (keyFn : option KeyFunc) (timeout : Z).

Definition builder_step (b : Builder) (c : builder_call) : outcome Builder :=
  match c with
  | CallStep name fn opts => Step b name fn opts
  | CallSleep d => Sleep b d
  | CallWaitEvent name key timeout => WaitEvent b name key timeout
  | CallWaitEventFunc name keyFn timeout => WaitEventFunc b name keyFn timeout
  end.

(** [wf.Build(b)]. *)
Definition Build (calls : list builder_call) (b : Builder) : outcome Builder :=
  foldl (λ ob c, b ← ob; builder_step b c) (Ok b) calls.

(** A [Workflow] value; [wf_version = None] has no [Version] method. *)
Record workflowDefinition := {
  wf_name : string;
  wf_version : option Z;
  wf_build : list builder_call;
}.

Definition DefineWorkflowVersion (name : string) (version : Z) (build : list builder_call)
    : workflowDefinition := {| wf_name := name; wf_version := Some version; wf_build := build |}.
Definition DefineWorkflow (name : string) (build : list builder_call) : workflowDefinition :=
  DefineWorkflowVersion name 1 build.

Record compiledWorkflow := {
  cw_name : string;
  cw_version : Z;
  cw_ops : list operation;
  cw_names : gmap string nat;
  cw_outputIndex : Z;
}.

(** The name under which an operation records a value. *)
Definition op_name (op : operation) : option string :=
  match op with
  | opStep s => Some (st_name s)
  | opWaitEvent w => Some (w_name w)
  | opSleep _ => None
  end.

(** [for i, op := range ops { switch op.kind ... }]. *)
Definition index_op (acc : gmap string nat * Z) (iop : nat * operation) : gmap string nat * Z :=
  match op_name iop.2 with
  | Some name => (<[name := iop.1]> acc.1, Z.of_nat iop.1)
  | None => acc
  end.
Definition index_ops (ops : list operation) : gmap string nat * Z :=
  foldl index_op (∅, -1) (imap pair ops).

Definition compileWorkflow (wf : option workflowDefinition) : outcome compiledWorkflow :=
  match wf with
  | None => Err (Errorf "workflow is nil" [])
  | Some wf =>
    let name := TrimSpace (wf_name wf) in
    _ ← guard_err (bool_decide (name = "")) (Errorf "workflow name is required" []);
    let version := default 1 (wf_version wf) in
    _ ← guard_err (version <? 1) (Errorf "workflow %q version must be positive" [name]);
    b ← Build (wf_build wf) new_Builder;
    _ ← guard_err (bool_decide (b_ops b = []))
          (Errorf "workflow %q has no operations" [name]);
    let (names, outputIndex) := index_ops (b_ops b) in
    mret {| cw_name := name; cw_version := version; cw_ops := b_ops b;
            cw_names := names; cw_outputIndex := outputIndex |}
  end.

(** ** Well-formed operations and definitions *)

Definition name_ok (name : string) : Prop := name ≠ "" ∧ trimmed (s2b name).

Definition op_ok (op : operation) : Prop :=
  match op with
  | opStep s => name_ok (st_name s) ∧ 0 <= so_timeout (st_opts s)
  | opSleep d => 0 < d
  | opWaitEvent w =>
    name_ok (w_name w) ∧ 0 < w_timeout w ∧ (w_keyFn w = None → name_ok (w_key w))
  end.

(** The invariant of a builder between calls. *)
Record builder_wf (b : Builder) : Prop := {
  bw_ops : Forall op_ok (b_ops b);
  bw_names : b_stepNames b = list_to_set (omap op_name (b_ops b));
  bw_nodup : NoDup (omap op_name (b_ops b));
}.

(** What [index_ops] computes: positions of names, and the last named position. *)
Definition names_index (ops : list operation) (names : gmap string nat) : Prop :=
  ∀ n i, names !! n = Some i ↔ ∃ op, ops !! i = Some op ∧ op_name op = Some n.

Definition last_named (ops : list operation) (out : Z) : Prop :=
  (out = -1 ∧ Forall (λ op, op_name op = None) ops) ∨
  (∃ i op n, out = Z.of_nat i ∧ ops !! i = Some op ∧ op_name op = Some n ∧
    ∀ j op', (i < j)%nat → ops !! j = Some op' → op_name op' = None).

Record compiled_wf (cw : compiledWorkflow) : Prop := {
  cwf_name : name_ok (cw_name cw);
  cwf_version : 1 <= cw_version cw;
  cwf_nonempty : cw_ops cw ≠ [];
  cwf_ops : Forall op_ok (cw_ops cw);
  cwf_nodup : NoDup (omap op_name (cw_ops cw));
  cwf_names : names_index (cw_ops cw) (cw_names cw);
  cwf_output : last_named (cw_ops cw) (cw_outputIndex cw);
}.

Lemma TrimSpace_name_ok s : TrimSpace s ≠ "" → name_ok (TrimSpace s).
Proof. split; auto with durable. Qed.

Lemma new_Builder_wf : builder_wf new_Builder.
Proof. split; cbn; [constructor|done|constructor]. Qed.

Lemma addName_Ok b name n b' :
  addName b name = Ok (n, b') →
  n = TrimSpace name ∧ name_ok n ∧ n ∉ b_stepNames b ∧ b_ops b' = b_ops b ∧
  b_stepNames b' = {[n]} ∪ b_stepNames b.
Proof.
  unfold addName. intros H. invert_outcome. bool_to_prop. simplify_eq.
  split_and!; try done. by apply TrimSpace_name_ok.
Qed.

(** Appending a named operation keeps the invariant. *)
Lemma append_named_wf b b' n op :
  builder_wf b → name_ok n → n ∉ b_stepNames b → b_ops b' = b_ops b →
  b_stepNames b' = {[n]} ∪ b_stepNames b → op_name op = Some n → op_ok op →
  builder_wf (append_op b' op).
Proof.
  intros [Hops Hnames Hnd] Hn Hfresh Ho Hs Hname Hop. unfold append_op.
  split; cbn; rewrite Ho.
  - by apply Forall_app_2; [|constructor].
  - rewrite omap_app, list_to_set_app_L, Hs, Hnames. cbn. rewrite Hname. cbn. set_solver.
  - rewrite omap_app. cbn. rewrite Hname. apply NoDup_app. split_and!; [done| |].
    + intros x Hx ->%list_elem_of_singleton. apply Hfresh. rewrite Hnames. set_solver.
    + apply NoDup_singleton.
Qed.

Lemma builder_step_wf b c b' : builder_wf b → builder_step b c = Ok b' → builder_wf b'.
Proof.
  intros Hb H. destruct c as [name fn opts|d|name key timeout|name keyFn timeout];
    cbn [builder_step] in H.
  - unfold Step in H. destruct fn as [fn|]; [|done]. invert_outcome.
    destruct x as [n b0]. invert_outcome.
    apply addName_Ok in H as (-> & ? & ? & ? & ?). bool_to_prop.
    eapply append_named_wf; [done..|cbn; done|cbn; by split].
  - unfold Sleep in H. invert_outcome. bool_to_prop. destruct Hb as [Hops Hnames Hnd].
    split; unfold append_op; cbn; rewrite ?omap_app; cbn; rewrite ?app_nil_r; try done.
    by apply Forall_app_2; [|constructor].
  - unfold WaitEvent in H. invert_outcome. destruct x1 as [n b0]. invert_outcome.
    apply addName_Ok in H1 as (-> & ? & ? & ? & ?). bool_to_prop.
    eapply append_named_wf; [done..|cbn; done|cbn; split_and!; [done..|]].
    intros _. by apply TrimSpace_name_ok.
  - unfold WaitEventFunc in H. destruct keyFn as [keyFn|]; [|done]. invert_outcome.
    destruct x0 as [n b0]. invert_outcome.
    apply addName_Ok in H0 as (-> & ? & ? & ? & ?). bool_to_prop.
    eapply append_named_wf; [done..|cbn; done|cbn; by split_and!].
Qed.

Lemma Build_cons c calls b : Build (c :: calls) b = (b' ← builder_step b c; Build calls b').
Proof.
  unfold Build. cbn. destruct (builder_step b c) as [b'|e|v l]; [done| |]; cbn;
    induction calls; cbn; congruence.
Qed.

Lemma Build_wf calls b b' : builder_wf b → Build calls b = Ok b' → builder_wf b'.
Proof.
  revert b. induction calls as [|c calls IH]; intros b Hb H.
  - unfold Build in H. cbn in H. by simplify_eq.
  - rewrite Build_cons in H. invert_outcome. eauto using builder_step_wf.
Qed.

Lemma index_ops_snoc ops op :
  index_ops (ops ++ [op]) = index_op (index_ops ops) (length ops, op).
Proof.
  unfold index_ops. rewrite imap_app, foldl_app. cbn. by rewrite Nat.add_0_r.
Qed.

Lemma lookup_snoc_Some {A} (l : list A) x i y :
  (l ++ [x]) !! i = Some y ↔ l !! i = Some y ∨ (i = length l ∧ y = x).
Proof.
  rewrite lookup_app_Some, list_lookup_singleton_Some. split.
  - intros [?|(? & ? & ->)]; [by left|right]. split; [lia|done].
  - intros [?|[-> ->]]; [by left|right]. by rewrite Nat.sub_diag.
Qed.

Lemma index_ops_spec ops :
  NoDup (omap op_name ops) →
  names_index ops (index_ops ops).1 ∧ last_named ops (index_ops ops).2.
Proof.
  induction ops as [|op ops IH] using rev_ind; intros Hnd.
  - split; [|by left]. intros n i. cbn. rewrite lookup_empty. split; [done|by intros (?&?&?)].
  - rewrite omap_app in Hnd. apply NoDup_app in Hnd as (Hnd & Hfresh & _).
    destruct (IH Hnd) as [Hn Hl]. unfold names_index in *.
    rewrite index_ops_snoc. unfold index_op. cbn [snd fst].
    destruct (op_name op) as [m|] eqn:Hm; cbn [fst snd].
    + split.
      * intros n i. rewrite lookup_insert_Some, Hn. setoid_rewrite lookup_snoc_Some. split.
        { intros [[<- <-]|[Hne (o & Ho & Hon)]]; [exists op; by split; [right|]|].
          exists o. by split; [left|]. }
        { intros (o & [Ho|[-> ->]] & Hon); [|left; split; congruence].
          right. split; [|by exists o]. intros <-.
          apply (Hfresh m); [|cbn; rewrite Hm; set_solver].
          apply list_elem_of_omap. exists o. split; [|done]. by eapply list_elem_of_lookup_2. }
      * right. exists (length ops), op, m. setoid_rewrite lookup_snoc_Some.
        split_and!; [done|by right|done|].
        intros j o Hj [Ho|[-> _]]; [|lia]. apply lookup_lt_Some in Ho. lia.
    + split.
      * intros n i. rewrite Hn. setoid_rewrite lookup_snoc_Some. split.
        { intros (o & Ho & Hon). exists o. by split; [left|]. }
        { intros (o & [Ho|[-> ->]] & Hon); [by exists o|congruence]. }
      * destruct Hl as [[-> Hall]|(i & o & n & -> & Ho & Hon & Hlast)].
        { left. split; [done|]. by apply Forall_app_2; [|constructor]. }
        { right. exists i, o, n. setoid_rewrite lookup_snoc_Some. split_and!; [done|by left|done|].
          intros j o' Hj [Ho'|[-> ->]]; [by eapply Hlast|done]. }
Qed.

(** ** Compilation *)

Lemma compile_inv wf cw :
  compileWorkflow (Some wf) = Ok cw →
  ∃ b, Build (wf_build wf) new_Builder = Ok b ∧ b_ops b ≠ [] ∧
    TrimSpace (wf_name wf) ≠ "" ∧ 1 <= default 1 (wf_version wf) ∧
    cw = {| cw_name := TrimSpace (wf_name wf); cw_version := default 1 (wf_version wf);
            cw_ops := b_ops b; cw_names := (index_ops (b_ops b)).1;
            cw_outputIndex := (index_ops (b_ops b)).2 |}.
Proof.
  unfold compileWorkflow. intros H. invert_outcome.
  destruct (index_ops _) as [names out] eqn:E. invert_outcome. bool_to_prop.
  eexists. split_and!; try done. by rewrite E.
Qed.

(** What a builder call needs: its own arguments, whatever the calls before it. *)
Definition call_name (c : builder_call) : option string :=
  match c with
  | CallStep name _ _ | CallWaitEvent name _ _ | CallWaitEventFunc name _ _ =>
    Some (TrimSpace name)
  | CallSleep _ => None
  end.

Definition call_ok (c : builder_call) : Prop :=
  match c with
  | CallStep name fn opts =>
    fn ≠ None ∧ TrimSpace name ≠ "" ∧ 0 <= so_timeout (apply_options opts {| so_timeout := 0 |})
  | CallSleep d => 0 < d
  | CallWaitEvent name key timeout => TrimSpace name ≠ "" ∧ TrimSpace key ≠ "" ∧ 0 < timeout
  | CallWaitEventFunc name keyFn timeout => keyFn ≠ None ∧ TrimSpace name ≠ "" ∧ 0 < timeout
  end.

Lemma addName_is_ok b name :
  is_ok (addName b name) = true ↔ TrimSpace name ≠ "" ∧ TrimSpace name ∉ b_stepNames b.
Proof.
  unfold addName. destruct (bool_decide (TrimSpace name = "")) eqn:E1; bool_to_prop; cbn.
  - rewrite E1. naive_solver.
  - destruct (bool_decide (_ ∈ _)) eqn:E2; bool_to_prop; cbn; naive_solver.
Qed.

Lemma is_ok_guard_panic {A} c m a (k : () → outcome A) :
  is_ok (guard_panic c m a ≫= k) = true ↔ c = false ∧ is_ok (k ()) = true.
Proof. destruct c; cbn; naive_solver. Qed.
Lemma is_ok_bind {A B} (m : outcome A) (k : A → outcome B) :
  is_ok (m ≫= k) = true ↔ ∃ a, m = Ok a ∧ is_ok (k a) = true.
Proof. destruct m; cbn; naive_solver. Qed.
Lemma is_ok_spec {A} (m : outcome A) : is_ok m = true ↔ ∃ a, m = Ok a.
Proof. destruct m; cbn; naive_solver. Qed.

Lemma builder_step_is_ok b c :
  is_ok (builder_step b c) = true ↔
  call_ok c ∧ ∀ n, call_name c = Some n → n ∉ b_stepNames b.
Proof.
  assert (∀ name (k : string * Builder → outcome Builder), (∀ p, is_ok (k p) = true) →
    is_ok (addName b name ≫= k) = true ↔
    TrimSpace name ≠ "" ∧ TrimSpace name ∉ b_stepNames b) as Hadd.
  { intros name k Hk. rewrite is_ok_bind, <-addName_is_ok, is_ok_spec.
    split; intros (a & ?); exists a; naive_solver. }
  destruct c as [name fn opts|d|name key timeout|name keyFn timeout]; cbn [builder_step].
  - unfold Step. destruct fn as [fn|]; [|cbn; naive_solver]. cbn [call_ok call_name].
    destruct (decide (so_timeout (apply_options opts {| so_timeout := 0 |}) < 0)) as [Hlt|Hge].
    + rewrite is_ok_bind. split; [|naive_solver lia].
      intros ([n b0] & _ & H). rewrite is_ok_guard_panic in H. destruct H as [H _].
      bool_to_prop. lia.
    + rewrite Hadd; [naive_solver lia|]. intros [n b0]. rewrite is_ok_guard_panic.
      split; [apply Z.ltb_ge; lia|done].
  - unfold Sleep. rewrite is_ok_guard_panic, Z.leb_gt. cbn. naive_solver.
  - unfold WaitEvent. rewrite !is_ok_guard_panic, Hadd by (by intros []).
    rewrite bool_decide_eq_false, Z.leb_gt. cbn. naive_solver.
  - unfold WaitEventFunc. destruct keyFn as [keyFn|]; [|cbn; naive_solver].
    rewrite !is_ok_guard_panic, Hadd by (by intros []). rewrite Z.leb_gt. cbn. naive_solver.
Qed.

(** A successful call appends one operation under the call's name. *)
Lemma builder_step_append b c b' :
  builder_step b c = Ok b' →
  ∃ op, b_ops b' = b_ops b ++ [op] ∧ op_name op = call_name c ∧
    b_stepNames b' = list_to_set (option_list (call_name c)) ∪ b_stepNames b.
Proof.
  intros H. destruct c as [name fn opts|d|name key timeout|name keyFn timeout];
    cbn [builder_step] in H.
  - unfold Step in H. destruct fn; [|done]. invert_outcome. destruct x as [n b0]. invert_outcome.
    apply addName_Ok in H as (-> & _ & _ & Hops & Hn). eexists. cbn. rewrite Hops, Hn.
    split_and!; [done..|set_solver].
  - unfold Sleep in H. invert_outcome. eexists. cbn. split_and!; [done..|set_solver].
  - unfold WaitEvent in H. invert_outcome. destruct x1 as [n b0]. invert_outcome.
    apply addName_Ok in H1 as (-> & _ & _ & Hops & Hn). eexists. cbn. rewrite Hops, Hn.
    split_and!; [done..|set_solver].
  - unfold WaitEventFunc in H. destruct keyFn; [|done]. invert_outcome. destruct x0 as [n b0].
    invert_outcome. apply addName_Ok in H0 as (-> & _ & _ & Hops & Hn). eexists. cbn.
    rewrite Hops, Hn. split_and!; [done..|set_solver].
Qed.

Lemma Build_is_ok calls b :
  is_ok (Build calls b) = true ↔
  Forall call_ok calls ∧ NoDup (omap call_name calls) ∧
  ∀ n, n ∈ omap call_name calls → n ∉ b_stepNames b.
Proof.
  revert b. induction calls as [|c calls IH]; intros b.
  - cbn. split; [|done]. intros _. split_and!; [constructor|constructor|set_solver].
  - rewrite Build_cons, is_ok_bind, Forall_cons. cbn [omap list_omap].
    assert (∀ b', builder_step b c = Ok b' → is_ok (Build calls b') = true ↔
      Forall call_ok calls ∧ NoDup (omap call_name calls) ∧
      ∀ n, n ∈ omap call_name calls → n ∉ b_stepNames b ∧ call_name c ≠ Some n) as Hstep.
    { intros b' (op & _ & _ & Hn)%builder_step_append. rewrite IH, Hn.
      repeat (apply and_iff_compat_l). apply forall_proper; intros n.
      destruct (call_name c) as [m|]; set_solver. }
    pose proof (builder_step_is_ok b c) as Hok. rewrite is_ok_spec in Hok.
    split.
    + intros (b' & Hb & H). apply Hstep in H as (Hall & Hnd & Hf); [|done].
      destruct (proj1 Hok (ex_intro _ b' Hb)) as [Hc Hn].
      split; [by split|]. destruct (call_name c) as [m|] eqn:Hm; [|split; [done|naive_solver]].
      split; [constructor; [|done]|].
      * intros Hin. by destruct (Hf m Hin).
      * intros n [->|Hin]%elem_of_cons; [by apply Hn|by apply Hf].
    + intros ([Hc Hall] & Hnd & Hf).
      destruct (proj2 Hok) as [b' Hb].
      { split; [done|]. intros n Hn. apply Hf. rewrite Hn. apply elem_of_cons. by left. }
      exists b'. split; [done|]. apply Hstep; [done|]. split; [done|].
      destruct (call_name c) as [m|] eqn:Hm; [|split; [done|naive_solver]].
      apply NoDup_cons in Hnd as [Hm' Hnd]. split; [done|]. intros n Hin. split.
      * apply Hf, elem_of_cons. by right.
      * intros [= ->]. done.
Qed.

(** The operations of a built definition correspond to the calls, in order. *)
Lemma Build_ops_length calls b b' :
  Build calls b = Ok b' → length (b_ops b') = (length (b_ops b) + length calls)%nat.
Proof.
  revert b. induction calls as [|c calls IH]; intros b H.
  - unfold Build in H. cbn in *. simplify_eq. lia.
  - rewrite Build_cons in H. invert_outcome.
    apply builder_step_append in H as (op & Hops & _). rewrite (IH _ H0), Hops, length_app.
    cbn. lia.
Qed.

Lemma compiled_is_wf d cw : compileWorkflow (Some d) = Ok cw → compiled_wf cw.
Proof.
  intros (b & Hb & Hne & Hn & Hv & ->)%compile_inv.
  destruct (Build_wf _ _ _ new_Builder_wf Hb) as [Hops _ Hnd].
  destruct (index_ops_spec _ Hnd) as [Hnames Hout].
  split; cbn; try done. by apply TrimSpace_name_ok.
Qed.

(** C35: a compiled workflow is well-formed: its name and the names of its operations
    are nonempty and trimmed, its version is positive, its timeouts, sleeps and waits
    are valid, no name occurs twice, a name leads to the position of its operation, and
    the output position is that of the last operation that records a value. *)
Theorem compile_sound wf cw :
  compileWorkflow (Some wf) = Ok cw → compiled_wf cw.
Proof. apply compiled_is_wf. Qed.

(** C36: compilation succeeds for exactly the valid definitions: a nonempty name, a
    positive version, at least one operation, valid arguments in every builder call
    and no name used twice; every other definition is rejected. *)
Theorem compile_complete name version calls :
  is_ok (compileWorkflow (Some (DefineWorkflowVersion name version calls))) = true ↔
  TrimSpace name ≠ "" ∧ 1 <= version ∧ calls ≠ [] ∧
  Forall call_ok calls ∧ NoDup (omap call_name calls).
Proof.
  pose proof (Build_is_ok calls new_Builder) as HB. cbn [b_stepNames new_Builder] in HB.
  unfold compileWorkflow, DefineWorkflowVersion. cbn [wf_name wf_version wf_build default].
  destruct (bool_decide (TrimSpace name = "")) eqn:E1; bool_to_prop; cbn; [naive_solver|].
  destruct (version <? 1) eqn:E2; bool_to_prop; cbn; [naive_solver lia|].
  rewrite is_ok_bind. split.
  - intros (b & Hb & H). destruct (proj1 HB ltac:(by rewrite Hb)) as (Hall & Hnd & _).
    split_and!; [done|lia| |done|done]. intros ->. unfold Build in Hb. cbn in Hb. by simplify_eq.
  - intros (_ & _ & Hne & Hall & Hnd).
    destruct (proj1 (is_ok_spec _) (proj2 HB ltac:(split_and!; [done..|set_solver]))) as [b Hb].
    exists b. split; [done|]. apply Build_ops_length in Hb. cbn in Hb.
    rewrite bool_decide_eq_false_2; [by destruct (index_ops _)|].
    intros Hnil. rewrite Hnil in Hb. destruct calls; [done|cbn in Hb; lia].
Qed.
