(* ===== verification/Postgres.v ===== *)
(** * PostgreSQL: the interface the statements rely on

    PostgreSQL is not part of the repository.  The class [Postgres] names the
    functions of the server that the statements of queries.go use on values, and
    [PostgresLaws] the documented behaviour the theorems rely on.  The tables of
    migrate.go are records and finite maps; a statement runs in an [env]
    that holds what the server decides: clock readings, generated UUIDs and the
    rows that other transactions hold locked.  [ToyPg] is a concrete instance on
    which witnesses are evaluated. *)

From S2P Require Import Prelude GoText Json Types.

(** ** Functions of the server *)

Class Postgres := {
  (** [text → uuid]: the canonical text of a UUID literal, or an input error. *)
  uuid_in : string → option string;
  (** [text → jsonb → text]: the text [jsonb] prints for a document, or an input error. *)
  jsonb_in : list ascii → option (list ascii);
  (** How deep the arrays and objects of a document may nest. *)
  jsonb_depth : nat;
  (** [jsonb_build_array(index, value)], [jsonb_agg], [jsonb_build_object('received', v)]. *)
  jsonb_build_array : Z → list ascii → list ascii;
  jsonb_agg : list (list ascii) → list ascii;
  jsonb_build_received : list ascii → list ascii;
  (** [hashtext]. *)
  hashtext : string → Z;
}.

(** What the worker writes for a delivered event before PostgreSQL normalises it. *)
Definition received_raw (payload : list ascii) : list ascii :=
  s2b "{" ++ (dquote :: s2b "received" ++ [dquote]) ++ s2b ":" ++ payload ++ s2b "}".

Class PostgresLaws `{Postgres} : Prop := {
  uuid_in_canonical s u : uuid_in s = Some u → uuid_in u = Some u;
  jsonb_in_canonical s t : jsonb_in s = Some t → jsonb_in t = Some t;
  (** jsonb prints [", "] between elements and [": "] after a member name. *)
  jsonb_build_array_text i v : jsonb_build_array i v = array_text [itoa_bytes i; v];
  jsonb_agg_text es : jsonb_agg es = array_text es;
  jsonb_build_received_text v : jsonb_build_received v = object1_text (s2b "received") v;
  jsonb_in_received s t u :
    jsonb_in s = Some t → jsonb_in (received_raw s) = Some u → u = jsonb_build_received t;
  (** A [jsonb] text is one JSON value without surrounding white space; its nesting is
      bounded by the server's stack, below the limit of Go's decoder. *)
  jsonb_in_value s t : jsonb_in s = Some t → json_value jsonb_depth t;
  jsonb_depth_bound : (jsonb_depth + 3 ≤ maxNestingDepth)%nat;
  jsonb_build_received_canonical t u :
    (∀ x, jsonb_in t = Some x → x = t) →
    jsonb_in (jsonb_build_received t) = Some u → u = jsonb_build_received t;
  jsonb_in_timed_out : jsonb_in timed_out_text = Some timed_out_text;
}.

(** ** Tables *)

(** A row of [workflow_runs] without its primary key. *)
Record run := {
  workflow_name : string;
  workflow_version : Z;
  queue : string;
  state : RunState;
  step_index : Z;
  attempt : Z;
  max_attempts : Z;
  lease_failures : Z;
  next_run_at : Z;
  lease_token : option string;
  lease_until : option Z;
  waiting_event_key : option string;
  waiting_deadline : option Z;
  input_json : list ascii;
  output_json : option (list ascii);
  dedup_key : option string;
  last_error : option string;
  created_at : Z;
  updated_at : Z;
}.

(** A row of [event_log] without its identity. *)
Record event := {
  event_key : string;
  payload_json : list ascii;
  ev_created_at : Z;
  expires_at : Z;
}.

(** Timestamps are microseconds.  [step_checkpoints] maps [(run_id, step_index)]
    to [value_json] ([completed_at] is never read).  [next_event_id] is the state of
    the identity column; [notifications] is what [pg_notify] sent, newest last. *)
Record db := {
  workflow_runs : gmap string run;
  step_checkpoints : gmap (string * Z) (list ascii);
  event_log : gmap Z event;
  next_event_id : Z;
  notifications : list (string * string);
}.

Definition empty_db : db :=
  {| workflow_runs := ∅; step_checkpoints := ∅; event_log := ∅; next_event_id := 1;
     notifications := [] |}.

Definition set_runs (m : gmap string run) (d : db) : db :=
  {| workflow_runs := m; step_checkpoints := step_checkpoints d; event_log := event_log d;
     next_event_id := next_event_id d; notifications := notifications d |}.
Definition set_checkpoints (c : gmap (string * Z) (list ascii)) (d : db) : db :=
  {| workflow_runs := workflow_runs d; step_checkpoints := c; event_log := event_log d;
     next_event_id := next_event_id d; notifications := notifications d |}.
Definition set_events (ev : gmap Z event) (next : Z) (d : db) : db :=
  {| workflow_runs := workflow_runs d; step_checkpoints := step_checkpoints d; event_log := ev;
     next_event_id := next; notifications := notifications d |}.
Definition notify (channel : string) (queues : list string) (d : db) : db :=
  {| workflow_runs := workflow_runs d; step_checkpoints := step_checkpoints d;
     event_log := event_log d; next_event_id := next_event_id d;
     notifications := notifications d ++ (pair channel <$> queues) |}.

(** ** [SET column = value], one function per mutable column *)

Definition set_state (x : RunState) (r : run) : run :=
  {| workflow_name := workflow_name r; workflow_version := workflow_version r; queue := queue r;
     state := x; step_index := step_index r; attempt := attempt r;
     max_attempts := max_attempts r; lease_failures := lease_failures r;
     next_run_at := next_run_at r; lease_token := lease_token r; lease_until := lease_until r;
     waiting_event_key := waiting_event_key r; waiting_deadline := waiting_deadline r;
     input_json := input_json r; output_json := output_json r; dedup_key := dedup_key r;
     last_error := last_error r; created_at := created_at r; updated_at := updated_at r |}.
Definition set_step_index (x : Z) (r : run) : run :=
  {| workflow_name := workflow_name r; workflow_version := workflow_version r; queue := queue r;
     state := state r; step_index := x; attempt := attempt r;
     max_attempts := max_attempts r; lease_failures := lease_failures r;
     next_run_at := next_run_at r; lease_token := lease_token r; lease_until := lease_until r;
     waiting_event_key := waiting_event_key r; waiting_deadline := waiting_deadline r;
     input_json := input_json r; output_json := output_json r; dedup_key := dedup_key r;
     last_error := last_error r; created_at := created_at r; updated_at := updated_at r |}.
Definition set_attempt (x : Z) (r : run) : run :=
  {| workflow_name := workflow_name r; workflow_version := workflow_version r; queue := queue r;
     state := state r; step_index := step_index r; attempt := x;
     max_attempts := max_attempts r; lease_failures := lease_failures r;
     next_run_at := next_run_at r; lease_token := lease_token r; lease_until := lease_until r;
     waiting_event_key := waiting_event_key r; waiting_deadline := waiting_deadline r;
     input_json := input_json r; output_json := output_json r; dedup_key := dedup_key r;
     last_error := last_error r; created_at := created_at r; updated_at := updated_at r |}.
Definition set_lease_failures (x : Z) (r : run) : run :=
  {| workflow_name := workflow_name r; workflow_version := workflow_version r; queue := queue r;
     state := state r; step_index := step_index r; attempt := attempt r;
     max_attempts := max_attempts r; lease_failures := x;
     next_run_at := next_run_at r; lease_token := lease_token r; lease_until := lease_until r;
     waiting_event_key := waiting_event_key r; waiting_deadline := waiting_deadline r;
     input_json := input_json r; output_json := output_json r; dedup_key := dedup_key r;
     last_error := last_error r; created_at := created_at r; updated_at := updated_at r |}.
Definition set_next_run_at (x : Z) (r : run) : run :=
  {| workflow_name := workflow_name r; workflow_version := workflow_version r; queue := queue r;
     state := state r; step_index := step_index r; attempt := attempt r;
     max_attempts := max_attempts r; lease_failures := lease_failures r;
     next_run_at := x; lease_token := lease_token r; lease_until := lease_until r;
     waiting_event_key := waiting_event_key r; waiting_deadline := waiting_deadline r;
     input_json := input_json r; output_json := output_json r; dedup_key := dedup_key r;
     last_error := last_error r; created_at := created_at r; updated_at := updated_at r |}.
Definition set_lease_token (x : option string) (r : run) : run :=
  {| workflow_name := workflow_name r; workflow_version := workflow_version r; queue := queue r;
     state := state r; step_index := step_index r; attempt := attempt r;
     max_attempts := max_attempts r; lease_failures := lease_failures r;
     next_run_at := next_run_at r; lease_token := x; lease_until := lease_until r;
     waiting_event_key := waiting_event_key r; waiting_deadline := waiting_deadline r;
     input_json := input_json r; output_json := output_json r; dedup_key := dedup_key r;
     last_error := last_error r; created_at := created_at r; updated_at := updated_at r |}.
Definition set_lease_until (x : option Z) (r : run) : run :=
  {| workflow_name := workflow_name r; workflow_version := workflow_version r; queue := queue r;
     state := state r; step_index := step_index r; attempt := attempt r;
     max_attempts := max_attempts r; lease_failures := lease_failures r;
     next_run_at := next_run_at r; lease_token := lease_token r; lease_until := x;
     waiting_event_key := waiting_event_key r; waiting_deadline := waiting_deadline r;
     input_json := input_json r; output_json := output_json r; dedup_key := dedup_key r;
     last_error := last_error r; created_at := created_at r; updated_at := updated_at r |}.
Definition set_waiting_event_key (x : option string) (r : run) : run :=
  {| workflow_name := workflow_name r; workflow_version := workflow_version r; queue := queue r;
     state := state r; step_index := step_index r; attempt := attempt r;
     max_attempts := max_attempts r; lease_failures := lease_failures r;
     next_run_at := next_run_at r; lease_token := lease_token r; lease_until := lease_until r;
     waiting_event_key := x; waiting_deadline := waiting_deadline r;
     input_json := input_json r; output_json := output_json r; dedup_key := dedup_key r;
     last_error := last_error r; created_at := created_at r; updated_at := updated_at r |}.
Definition set_waiting_deadline (x : option Z) (r : run) : run :=
  {| workflow_name := workflow_name r; workflow_version := workflow_version r; queue := queue r;
     state := state r; step_index := step_index r; attempt := attempt r;
     max_attempts := max_attempts r; lease_failures := lease_failures r;
     next_run_at := next_run_at r; lease_token := lease_token r; lease_until := lease_until r;
     waiting_event_key := waiting_event_key r; waiting_deadline := x;
     input_json := input_json r; output_json := output_json r; dedup_key := dedup_key r;
     last_error := last_error r; created_at := created_at r; updated_at := updated_at r |}.
Definition set_output_json (x : option (list ascii)) (r : run) : run :=
  {| workflow_name := workflow_name r; workflow_version := workflow_version r; queue := queue r;
     state := state r; step_index := step_index r; attempt := attempt r;
     max_attempts := max_attempts r; lease_failures := lease_failures r;
     next_run_at := next_run_at r; lease_token := lease_token r; lease_until := lease_until r;
     waiting_event_key := waiting_event_key r; waiting_deadline := waiting_deadline r;
     input_json := input_json r; output_json := x; dedup_key := dedup_key r;
     last_error := last_error r; created_at := created_at r; updated_at := updated_at r |}.
Definition set_last_error (x : option string) (r : run) : run :=
  {| workflow_name := workflow_name r; workflow_version := workflow_version r; queue := queue r;
     state := state r; step_index := step_index r; attempt := attempt r;
     max_attempts := max_attempts r; lease_failures := lease_failures r;
     next_run_at := next_run_at r; lease_token := lease_token r; lease_until := lease_until r;
     waiting_event_key := waiting_event_key r; waiting_deadline := waiting_deadline r;
     input_json := input_json r; output_json := output_json r; dedup_key := dedup_key r;
     last_error := x; created_at := created_at r; updated_at := updated_at r |}.
Definition set_updated_at (x : Z) (r : run) : run :=
  {| workflow_name := workflow_name r; workflow_version := workflow_version r; queue := queue r;
     state := state r; step_index := step_index r; attempt := attempt r;
     max_attempts := max_attempts r; lease_failures := lease_failures r;
     next_run_at := next_run_at r; lease_token := lease_token r; lease_until := lease_until r;
     waiting_event_key := waiting_event_key r; waiting_deadline := waiting_deadline r;
     input_json := input_json r; output_json := output_json r; dedup_key := dedup_key r;
     last_error := last_error r; created_at := created_at r; updated_at := x |}.

(** [r ▷ SET f x]: the row after an assignment; right-hand sides name the old row. *)
Declare Scope sql_scope.
Notation "r ▷ f" := (f r) (at level 61, left associativity, only parsing) : sql_scope.
Delimit Scope sql_scope with sql.

(** ** The environment of a statement *)

(** [now ()] (the start of the transaction), [statement_timestamp()], the reading of
    [clock_timestamp()] in the WHERE clause and in the SET list for each row, the
    value of [gen_random_uuid()] for each row, and the rows and events that other
    transactions hold locked (which SKIP LOCKED skips). *)
Record env := {
  now : Z;
  statement_timestamp : Z;
  clock_timestamp : string → Z;
  clock_timestamp_set : string → Z;
  gen_random_uuid : string → string;
  locked_runs : gset string;
  locked_events : gset Z;
}.

(** [n * INTERVAL '1 millisecond'] in microseconds. *)
Definition interval_ms (n : Z) : Z := n * 1000.

(** ** Relational operators *)

Section update.
Context (P : string → run → bool) (f : string → run → run).

(** [UPDATE ... SET f WHERE P]; the rows it affects, and their number. *)
Definition update_where (m : gmap string run) : gmap string run :=
  map_imap (λ id r, Some (if P id r then f id r else r)) m.
Definition affected (m : gmap string run) : gmap string run :=
  filter (λ kv, P kv.1 kv.2) m.
Definition rows_affected (m : gmap string run) : Z := Z.of_nat (size (affected m)).
End update.

(** [INSERT ... ON CONFLICT DO NOTHING]: existing rows win. *)
Definition insert_new (rows cps : gmap (string * Z) (list ascii)) : gmap (string * Z) (list ascii) :=
  cps ∪ rows.

(** One checkpoint of value [v] at the cursor of each row of [m]. *)
Definition checkpoints_at_cursor (v : list ascii) (m : gmap string run)
    : gmap (string * Z) (list ascii) :=
  list_to_map ((λ '(id, r), ((id, step_index r), v)) <$> map_to_list m).

(** [SELECT DISTINCT queue FROM m]. *)
Definition distinct_queues (m : gmap string run) : list string :=
  elements (list_to_set (C := gset string) (queue <$> (map_to_list m).*2)).

(** [ORDER BY key, id]. *)
Definition row_le (a b : Z * string) : Prop :=
  a.1 < b.1 ∨ (a.1 = b.1 ∧ String.le a.2 b.2).
#[global] Instance row_le_dec : RelDecision row_le.
Proof. unfold RelDecision, row_le. intros a b. apply _. Defined.

(** [SELECT id FROM m WHERE P ORDER BY key, id LIMIT n FOR UPDATE SKIP LOCKED]. *)
Definition candidates (locked : gset string) (P : string → run → bool) (key : run → Z)
    (m : gmap string run) : list (Z * string) :=
  (λ '(id, r), (key r, id)) <$>
    map_to_list (filter (λ kv, P kv.1 kv.2 ∧ kv.1 ∉ locked) m).
Definition pick (locked : gset string) (P : string → run → bool) (key : run → Z) (n : Z)
    (m : gmap string run) : list string :=
  (take (Z.to_nat n) (merge_sort row_le (candidates locked P key m))).*2.

(** ** Lemmas on the relational operators *)

Section update_lemmas.
Context (P : string → run → bool) (f : string → run → run) (m : gmap string run).

Lemma lookup_update_where k :
  update_where P f m !! k = (λ r, if P k r then f k r else r) <$> m !! k.
Proof. unfold update_where. rewrite map_lookup_imap. by destruct (m !! k). Qed.

Lemma lookup_affected k r : affected P m !! k = Some r ↔ m !! k = Some r ∧ P k r = true.
Proof. unfold affected. rewrite map_lookup_filter_Some. cbn. by rewrite Is_true_true. Qed.

Lemma affected_empty : affected P m = ∅ ↔ ∀ k r, m !! k = Some r → P k r = false.
Proof.
  split.
  - intros He k r Hk. destruct (P k r) eqn:HP; [|done].
    assert (affected P m !! k = Some r) as Ha by by apply lookup_affected.
    rewrite He, lookup_empty in Ha. done.
  - intros H. apply map_eq. intros k. rewrite lookup_empty. apply eq_None_not_Some.
    intros [r [Hk HP]%lookup_affected]. by rewrite (H k r Hk) in HP.
Qed.

Lemma update_where_none : affected P m = ∅ → update_where P f m = m.
Proof.
  rewrite affected_empty. intros H. apply map_eq. intros k. rewrite lookup_update_where.
  destruct (m !! k) as [r|] eqn:E; [|done]. cbn. by rewrite (H k r E).
Qed.

Lemma rows_affected_0 : rows_affected P m = 0 ↔ affected P m = ∅.
Proof. unfold rows_affected. rewrite <-map_size_empty_iff. lia. Qed.

Lemma dom_update_where : dom (update_where P f m) = dom m.
Proof.
  apply set_eq. intros k. rewrite !elem_of_dom, lookup_update_where. by rewrite fmap_is_Some.
Qed.

(** When only the row [id] can satisfy [P]. *)
Lemma affected_single id :
  (∀ k r, P k r = true → k = id) →
  affected P m = match m !! id with
                 | Some r => if P id r then {[id := r]} else ∅
                 | None => ∅
                 end.
Proof.
  intros Hid. apply map_eq. intros k. apply option_eq. intros r. rewrite lookup_affected.
  split.
  - intros [Hk HP]. pose proof (Hid _ _ HP) as ->. rewrite Hk, HP. by rewrite lookup_singleton_eq.
  - destruct (m !! id) as [r'|] eqn:E; [|by rewrite lookup_empty].
    destruct (P id r') eqn:HP; [|by rewrite lookup_empty].
    intros [<- <-]%lookup_singleton_Some. done.
Qed.

Lemma rows_affected_single id :
  (∀ k r, P k r = true → k = id) →
  rows_affected P m = match m !! id with Some r => if P id r then 1 else 0 | None => 0 end.
Proof.
  intros Hid. unfold rows_affected. rewrite (affected_single id Hid).
  destruct (m !! id); [case_match|]; by rewrite ?map_size_singleton, ?map_size_empty.
Qed.
End update_lemmas.

Lemma insert_new_subseteq rows cps : cps ⊆ insert_new rows cps.
Proof. apply map_union_subseteq_l. Qed.

Lemma lookup_insert_new rows cps k :
  insert_new rows cps !! k = match cps !! k with Some v => Some v | None => rows !! k end.
Proof.
  unfold insert_new. rewrite lookup_union. by destruct (cps !! k), (rows !! k).
Qed.

Lemma lookup_checkpoints_at_cursor v m id i :
  checkpoints_at_cursor v m !! (id, i) =
    match m !! id with
    | Some r => if bool_decide (step_index r = i) then Some v else None
    | None => None
    end.
Proof.
  unfold checkpoints_at_cursor.
  set (l := (λ '(id, r), ((id, step_index r), v)) <$> map_to_list m).
  assert (NoDup l.*1) as Hnd.
  { unfold l. rewrite <-list_fmap_compose. apply NoDup_fmap_2_strong; [|apply NoDup_map_to_list].
    intros [k1 r1] [k2 r2] H1 H2 [= -> _]. apply elem_of_map_to_list in H1, H2. congruence. }
  assert (∀ k w, (k, w) ∈ l ↔ ∃ r, m !! k.1 = Some r ∧ step_index r = k.2 ∧ w = v) as Hl.
  { intros [k j] w. unfold l. rewrite list_elem_of_fmap. split.
    - intros ([k' r] & [= -> -> ->] & H%elem_of_map_to_list). by exists r.
    - cbn. intros (r & H & <- & ->). exists (k, r). split; [done|].
      by apply elem_of_map_to_list. }
  destruct (m !! id) as [r|] eqn:E.
  - case_bool_decide.
    + apply elem_of_list_to_map_1; [done|]. apply Hl. by exists r.
    + apply not_elem_of_list_to_map_1. intros ([[k j] w] & Hk & Hin)%list_elem_of_fmap.
      cbn in Hk. simplify_eq. apply Hl in Hin as (r' & ? & ? & _). cbn in *. simplify_eq.
  - apply not_elem_of_list_to_map_1. intros ([[k j] w] & Hk & Hin)%list_elem_of_fmap.
    cbn in Hk. simplify_eq. apply Hl in Hin as (r' & ? & ? & _). cbn in *. simplify_eq.
Qed.

#[global] Instance row_le_total : Total row_le.
Proof.
  intros [a i] [b j]. unfold row_le. cbn. destruct (total String.le i j); destruct (Z.lt_total a b)
    as [|[->|]]; naive_solver.
Qed.
#[global] Instance row_le_trans : Transitive row_le.
Proof.
  intros [a i] [b j] [c k]. unfold row_le. cbn.
  intros [?|[-> ?]] [?|[-> ?]]; [left; lia|left; lia|left; lia|right; split; [done|]].
  by etrans.
Qed.

Lemma elem_of_candidates lk P key m z k :
  (z, k) ∈ candidates lk P key m ↔
  ∃ r, m !! k = Some r ∧ P k r = true ∧ k ∉ lk ∧ z = key r.
Proof.
  unfold candidates. rewrite list_elem_of_fmap. split.
  - intros ([k' r] & [= -> ->] & H%elem_of_map_to_list). apply map_lookup_filter_Some in H.
    cbn in H. destruct H as (? & ?%Is_true_true & ?). by exists r.
  - intros (r & ? & ? & ? & ->). exists (k, r). split; [done|]. apply elem_of_map_to_list.
    apply map_lookup_filter_Some. cbn. by rewrite Is_true_true.
Qed.

Lemma NoDup_candidates lk P key m : NoDup (candidates lk P key m).*2.
Proof.
  unfold candidates. rewrite <-list_fmap_compose.
  rewrite (list_fmap_ext _ fst); [apply NoDup_fst_map_to_list|]. by intros ? [].
Qed.

Section pick_lemmas.
Context (lk : gset string) (P : string → run → bool) (key : run → Z) (n : Z) (m : gmap string run).

Lemma elem_of_pick k :
  k ∈ pick lk P key n m → ∃ r, m !! k = Some r ∧ P k r = true ∧ k ∉ lk.
Proof.
  unfold pick. intros ([z k'] & -> & Hin)%list_elem_of_fmap. cbn.
  apply elem_of_take in Hin as (i & Hin & _). apply list_elem_of_lookup_2 in Hin.
  rewrite merge_sort_Permutation in Hin.
  apply elem_of_candidates in Hin as (r & ? & ? & ? & _). by exists r.
Qed.

Lemma NoDup_pick : NoDup (pick lk P key n m).
Proof.
  unfold pick. rewrite fmap_take.
  eapply sublist_NoDup; [|apply sublist_take].
  rewrite merge_sort_Permutation. apply NoDup_candidates.
Qed.

(** A LIMIT takes as many rows as there are, up to the limit. *)
Lemma length_pick :
  length (pick lk P key n m) = Nat.min (Z.to_nat n) (length (candidates lk P key m)).
Proof. unfold pick. by rewrite length_fmap, length_take, merge_sort_Permutation. Qed.

(** Every picked row precedes every candidate left behind. *)
Lemma pick_first k k' r r' :
  k ∈ pick lk P key n m → m !! k = Some r →
  m !! k' = Some r' → P k' r' = true → k' ∉ lk → k' ∉ pick lk P key n m →
  row_le (key r, k) (key r', k').
Proof.
  intros Hk Hr Hr' HP Hlk Hk'. unfold pick in *.
  set (l := merge_sort row_le (candidates lk P key m)) in *.
  assert (StronglySorted row_le l) as Hs by (apply StronglySorted_merge_sort; apply _).
  assert ((key r', k') ∈ l) as Hin'.
  { unfold l. rewrite merge_sort_Permutation. apply elem_of_candidates. by exists r'. }
  rewrite <-(take_drop (Z.to_nat n) l) in Hs, Hin'.
  apply list_elem_of_fmap in Hk as ([z k0] & -> & Hin). cbn in *.
  assert (z = key r) as ->.
  { apply elem_of_take in Hin as (i & Hi & _). apply list_elem_of_lookup_2 in Hi.
    unfold l in Hi. rewrite merge_sort_Permutation in Hi.
    apply elem_of_candidates in Hi as (r0 & ? & _ & _ & ->). congruence. }
  apply elem_of_app in Hin' as [Hin'|Hin'].
  - destruct Hk'. apply list_elem_of_fmap. by exists (key r', k').
  - by eapply (StronglySorted_app_1_elem_of row_le).
Qed.

(** The rows an UPDATE over the picked ids affects are exactly the picked ones. *)
Lemma size_affected_picked :
  size (affected (λ k _, bool_decide (k ∈ pick lk P key n m)) m) = length (pick lk P key n m).
Proof.
  rewrite <-size_dom. rewrite <-(size_list_to_set (C := gset string)) by apply NoDup_pick. f_equal.
  apply set_eq. intros k. rewrite elem_of_dom, elem_of_list_to_set. split.
  - intros [r [_ Hk]%lookup_affected]. by apply bool_decide_eq_true in Hk.
  - intros Hk. apply elem_of_pick in Hk as Hk'. destruct Hk' as (r & Hr & _). exists r.
    apply lookup_affected. by rewrite bool_decide_eq_true.
Qed.
End pick_lemmas.
