(* ===== verification/ToyPg.v ===== *)
(** * A concrete server

    An instance of [Postgres] that satisfies [PostgresLaws], on which the witnesses
    are evaluated.  It accepts a document as it stands when it is one JSON value
    without surrounding white space, and prints the worker's [received] object the
    way [jsonb] does; it rejects other spellings of such an object. *)

From S2P Require Import Prelude GoText Json Types Postgres.

Definition toy_depth : nat := 100.
Definition is_value (d : nat) (s : list ascii) : bool := bool_decide (scan_value d s = Some []).

Definition received_prefix : list ascii :=
  s2b "{" ++ (dquote :: s2b "received" ++ [dquote]) ++ s2b ":".

(** [v] when [s] is [received_raw v]. *)
Definition strip_received (s : list ascii) : option (list ascii) :=
  let v := take (length s - length received_prefix - 1) (drop (length received_prefix) s) in
  if bool_decide (s = received_raw v) then Some v else None.

Definition toy_jsonb_in (s : list ascii) : option (list ascii) :=
  let plain := if is_value toy_depth s then Some s else None in
  match strip_received s with
  | Some v =>
    if is_value toy_depth v then
      if is_value (pred toy_depth) v && bool_decide (strip_received v = None)
      then Some (object1_text (s2b "received") v) else None
    else plain
  | None => plain
  end.

Definition toy_uuid_in (s : string) : option string :=
  if bool_decide (s = "") then None else Some s.

#[export] Instance ToyPg : Postgres := {|
  uuid_in := toy_uuid_in;
  jsonb_in := toy_jsonb_in;
  jsonb_depth := toy_depth;
  jsonb_build_array := λ i v, array_text [itoa_bytes i; v];
  jsonb_agg := array_text;
  jsonb_build_received := object1_text (s2b "received");
  hashtext := λ _, 0;
|}.

Lemma strip_received_raw v : strip_received (received_raw v) = Some v.
Proof.
  unfold strip_received.
  assert (take (length (received_raw v) - length received_prefix - 1)
    (drop (length received_prefix) (received_raw v)) = v) as ->.
  { unfold received_raw. change (drop (length received_prefix)
      (s2b "{" ++ (dquote :: s2b "received" ++ [dquote]) ++ s2b ":" ++ v ++ s2b "}"))
      with (v ++ s2b "}").
    rewrite !length_app. cbn [length s2b app]. rewrite take_app_le by (cbn; lia).
    apply take_ge. cbn. lia. }
  by rewrite bool_decide_eq_true_2.
Qed.

Lemma strip_received_Some s v : strip_received s = Some v → s = received_raw v.
Proof. unfold strip_received. case_bool_decide; [|done]. by intros [= <-]. Qed.

Lemma is_value_true d s : is_value d s = true ↔ json_value d s.
Proof. apply bool_decide_eq_true. Qed.

Lemma space_not_value d s : is_value d (s2b " " ++ s) = false.
Proof. apply bool_decide_eq_false. by destruct d. Qed.

Lemma toy_object v : toy_jsonb_in (object1_text (s2b "received") v) =
  if is_value toy_depth (object1_text (s2b "received") v)
  then Some (object1_text (s2b "received") v) else None.
Proof.
  unfold toy_jsonb_in. change (object1_text (s2b "received") v) with (received_raw (s2b " " ++ v)).
  by rewrite strip_received_raw, space_not_value.
Qed.

(** What the server accepts and prints. *)
Lemma toy_jsonb_in_Some s t :
  toy_jsonb_in s = Some t →
  (t = s ∧ json_value toy_depth s) ∨
  ∃ v, s = received_raw v ∧ t = object1_text (s2b "received") v ∧
    json_value (pred toy_depth) v ∧ strip_received v = None.
Proof.
  unfold toy_jsonb_in. intros H.
  assert ((if is_value toy_depth s then Some s else None) = Some t → t = s ∧ json_value toy_depth s)
    as Hplain.
  { destruct (is_value toy_depth s) eqn:E; [|done]. apply is_value_true in E. by intros [= <-]. }
  destruct (strip_received s) as [v|] eqn:Hs; [|by left; apply Hplain].
  destruct (is_value toy_depth v); [|by left; apply Hplain].
  destruct (is_value (pred toy_depth) v && _) eqn:E; [|done]. injection H as <-.
  apply andb_prop in E as [Hv%is_value_true Hn%bool_decide_eq_true]. right.
  exists v. split_and!; try done. by apply strip_received_Some.
Qed.

Lemma toy_received_value v :
  json_value (pred toy_depth) v →
  json_value toy_depth (object1_text (s2b "received") v) ∧ json_value toy_depth (received_raw v).
Proof.
  intros Hv. split.
  - rewrite object1_received. apply (json_value_received (pred toy_depth)); [done|by right].
  - apply (json_value_received (pred toy_depth) v []); [done|by left].
Qed.

Lemma toy_canonical s t : toy_jsonb_in s = Some t → toy_jsonb_in t = Some t.
Proof.
  intros H. destruct (toy_jsonb_in_Some s t H) as [[-> _]|(v & -> & -> & Hv & _)]; [done|].
  destruct (toy_received_value v Hv) as [Ho _]. rewrite toy_object. by apply is_value_true in Ho as ->.
Qed.

#[export] Instance ToyPgLaws : PostgresLaws.
Proof.
  split; cbn [uuid_in jsonb_in jsonb_build_array jsonb_agg jsonb_build_received jsonb_depth ToyPg].
  - unfold toy_uuid_in. intros s u. case_bool_decide; [done|]. intros [= <-].
    by rewrite bool_decide_eq_false_2.
  - apply toy_canonical.
  - done.
  - done.
  - done.
  - intros s t u Ht Hu. unfold toy_jsonb_in in Hu. rewrite strip_received_raw in Hu.
    assert (is_value toy_depth s = true) as Hs.
    { apply is_value_true. apply toy_jsonb_in_Some in Ht as [[_ ?]|(v & -> & _ & Hv & _)]; [done|].
      exact (proj2 (toy_received_value v Hv)). }
    rewrite Hs in Hu. destruct (is_value (pred toy_depth) s && _) eqn:E; [|done].
    injection Hu as <-. apply andb_prop in E as [_ Hn%bool_decide_eq_true].
    apply toy_jsonb_in_Some in Ht as [[-> _]|(v & -> & _)]; [done|].
    by rewrite strip_received_raw in Hn.
  - intros s t [[-> ?]|(v & -> & -> & Hv & _)]%toy_jsonb_in_Some; [done|].
    exact (proj1 (toy_received_value v Hv)).
  - unfold toy_depth, maxNestingDepth. apply (Nat.le_trans _ (100 * 2)%nat).
    + apply Nat.leb_le. reflexivity.
    + apply Nat.mul_le_mono_l. lia.
  - intros t u _. rewrite toy_object. destruct (is_value _ _); [by intros [= <-]|done].
  - by vm_compute.
Qed.
