(* ===== verification/Queries.v ===== *)
(** * queries.go: every statement as a function on the tables

    One function per statement of [queries]: its parameters in the order of the
    placeholders, the environment, and the tables; it answers the rows the
    statement returns (or an error, which leaves the tables alone) and the new
    tables.  All sub-statements of one WITH see the tables as they were when the
    statement started.  [stmt] collects the statements with the type of their
    answer and [exec] runs one. *)

From S2P Require Import Prelude GoText Json Types Postgres.
#[local] Open Scope sql_scope.

Section queries.
Context `{Postgres}.

(** ** Parameters *)

Definition db_error (msg : string) : error := Errorf msg [].

Definition bind_uuid (s : string) : outcome string :=
  from_option Ok (Err (db_error "invalid input syntax for type uuid")) (uuid_in s).
Definition bind_jsonb (s : list ascii) : outcome (list ascii) :=
  from_option Ok (Err (db_error "invalid input syntax for type json")) (jsonb_in s).
Definition bind_text (s : string) : outcome string :=
  if storable (s2b s) then Ok s
  else Err (db_error "invalid byte sequence for encoding UTF8").
Definition bind_int4 (n : Z) : outcome Z :=
  if (-(2^31) <=? n) && (n <? 2^31) then Ok n
  else Err (db_error "integer out of range").
Definition bind_opt {A} (f : A → outcome A) (o : option A) : outcome (option A) :=
  match o with Some a => Some <$> f a | None => Ok None end.

(** ** [fence] *)
Definition fence (id token : string) (e : env) (k : string) (r : run) : bool :=
  bool_decide (k = id) && bool_decide (state r = RunLeased) &&
  bool_decide (lease_token r = Some token) &&
  match lease_until r with Some u => clock_timestamp e k <? u | None => false end.

(** ** [insertRun] *)

Definition new_run (name : string) (version : Z) (q : string) (max_att : Z)
    (scheduled : option Z) (input : list ascii) (dedup : option string) (e : env) : run :=
  {| workflow_name := name; workflow_version := version; queue := q; state := RunReady;
     step_index := 0; attempt := 0; max_attempts := max_att; lease_failures := 0;
     next_run_at := default (now e) scheduled; lease_token := None; lease_until := None;
     waiting_event_key := None; waiting_deadline := None; input_json := input;
     output_json := None; dedup_key := dedup; last_error := None;
     created_at := now e; updated_at := now e |}.

(** Rows in conflict with [(name, dedup)] on the partial unique index. *)
Definition dedup_conflict (name : string) (dedup : option string) (k : string) (r : run) : bool :=
  match dedup with
  | Some key => bool_decide (workflow_name r = name) && bool_decide (dedup_key r = Some key)
  | None => false
  end.

Definition insertRun (id name : string) (version : Z) (q : string) (max_att : Z)
    (scheduled : option Z) (input : list ascii) (dedup : option string) (channel : string)
    (e : env) (d : db) : outcome (string * Z) * db :=
  match
    (id ← bind_uuid id; name ← bind_text name; version ← bind_int4 version;
     q ← bind_text q; max_att ← bind_int4 max_att; input ← bind_jsonb input;
     dedup ← bind_opt bind_text dedup; mret (id, name, version, q, max_att, input, dedup))
  with
  | Err er => (Err er, d)
  | Panic m a => (Panic m a, d)
  | Ok (id, name, version, q, max_att, input, dedup) =>
    if (version <=? 0) || (max_att <=? 0) then (Err (db_error "violates check constraint"), d)
    else
      match map_to_list (affected (dedup_conflict name dedup) (workflow_runs d)) with
      | (existing, r) :: _ =>
        let m := update_where (λ k _, bool_decide (k = existing))
                   (λ _ r, r ▷ set_updated_at (now e)) (workflow_runs d) in
        (Ok (existing, 0), set_runs m d)
      | [] =>
        match workflow_runs d !! id with
        | Some _ => (Err (db_error "duplicate key value violates unique constraint"), d)
        | None =>
          let r := new_run name version q max_att scheduled input dedup e in
          let due := next_run_at r <=? now e in
          (Ok (id, if due then 1 else 0),
           notify channel (if due then [q] else []) (set_runs (<[id := r]> (workflow_runs d)) d))
        end
      end
  end.

(** ** [emitEvent] *)

Definition waiting_on (key : string) (e : env) (k : string) (r : run) : bool :=
  bool_decide (state r = RunWaitingEvent) && bool_decide (waiting_event_key r = Some key) &&
  match waiting_deadline r with Some t => now e <? t | None => false end.

Definition emitEvent (key : string) (payload : list ascii) (ttl_ms : Z) (channel : string)
    (e : env) (d : db) : outcome (Z * Z) * db :=
  match (key ← bind_text key; payload ← bind_jsonb payload; mret (key, payload)) with
  | Err er => (Err er, d)
  | Panic m a => (Panic m a, d)
  | Ok (key, payload) =>
    let ev := {| event_key := key; payload_json := payload; ev_created_at := now e;
                 expires_at := now e + interval_ms ttl_ms |} in
    let woken := affected (waiting_on key e) (workflow_runs d) in
    let m := update_where (waiting_on key e)
      (λ _ r, r ▷ set_state RunReady ▷ set_next_run_at (now e) ▷ set_waiting_event_key None
                ▷ set_waiting_deadline None ▷ set_last_error None ▷ set_updated_at (now e))
      (workflow_runs d) in
    let queues := distinct_queues woken in
    (Ok (Z.of_nat (size woken), Z.of_nat (length queues)),
     notify channel queues
       (set_checkpoints
          (insert_new (checkpoints_at_cursor (jsonb_build_received payload) woken)
             (step_checkpoints d))
          (set_events (<[next_event_id d := ev]> (event_log d)) (next_event_id d + 1)
             (set_runs m d))))
  end.

(** ** [claimSingle] and [claimMulti] *)

Record claim_row := {
  c_id : string;
  c_workflow_name : string;
  c_workflow_version : Z;
  c_step_index : Z;
  c_attempt : Z;
  c_lease_token : string;
  c_input : list ascii;
  c_checkpoints : list ascii;
}.

Definition claimable (q : string) (pred : run → bool) (e : env) (k : string) (r : run) : bool :=
  bool_decide (queue r = q) && bool_decide (state r = RunReady) && (next_run_at r <=? now e) &&
  pred r.

(** [SELECT jsonb_agg(jsonb_build_array(step_index, value_json)) ... WHERE run_id = id]. *)
Definition checkpoints_of (id : string) (cps : gmap (string * Z) (list ascii))
    : list (Z * list ascii) :=
  (λ kv, (kv.1.2, kv.2)) <$> map_to_list (filter (λ kv, kv.1.1 = id) cps).
Definition checkpoints_json (id : string) (cps : gmap (string * Z) (list ascii)) : list ascii :=
  jsonb_agg ((λ p, jsonb_build_array p.1 p.2) <$> checkpoints_of id cps).

Definition claim (pred : run → bool) (q : string) (limit ttl_ms : Z) (e : env) (d : db)
    : outcome (list claim_row) * db :=
  let picked := pick (locked_runs e) (claimable q pred e) next_run_at limit (workflow_runs d) in
  let m := update_where (λ k _, bool_decide (k ∈ picked))
    (λ k r, r ▷ set_state RunLeased ▷ set_lease_token (Some (gen_random_uuid e k))
              ▷ set_lease_until (Some (clock_timestamp_set e k + interval_ms ttl_ms))
              ▷ set_updated_at (now e)) (workflow_runs d) in
  (Ok (omap (λ k, r ← workflow_runs d !! k;
               Some {| c_id := k; c_workflow_name := workflow_name r;
                       c_workflow_version := workflow_version r; c_step_index := step_index r;
                       c_attempt := attempt r; c_lease_token := gen_random_uuid e k;
                       c_input := input_json r;
                       c_checkpoints := checkpoints_json k (step_checkpoints d) |}) picked),
   set_runs m d).

Definition single_pred (name : string) (version : Z) (r : run) : bool :=
  bool_decide (workflow_name r = name) && (workflow_version r =? version).
Definition multi_pred (names : list string) (versions : list Z) (r : run) : bool :=
  bool_decide ((workflow_name r, workflow_version r) ∈ zip names versions).

Definition bad_limit : error := db_error "LIMIT must not be negative".

Definition claimSingle (q : string) (limit ttl_ms : Z) (name : string) (version : Z)
    (e : env) (d : db) : outcome (list claim_row) * db :=
  match (q ← bind_text q; name ← bind_text name; version ← bind_int4 version;
         _ ← guard_err (limit <? 0) bad_limit; mret (q, name, version)) with
  | Ok (q, name, version) => claim (single_pred name version) q limit ttl_ms e d
  | Err er => (Err er, d)
  | Panic m a => (Panic m a, d)
  end.

Definition claimMulti (q : string) (limit ttl_ms : Z) (names : list string) (versions : list Z)
    (e : env) (d : db) : outcome (list claim_row) * db :=
  match (q ← bind_text q; names ← mapM bind_text names; versions ← mapM bind_int4 versions;
         _ ← guard_err (limit <? 0) bad_limit; mret (q, names, versions)) with
  | Ok (q, names, versions) => claim (multi_pred names versions) q limit ttl_ms e d
  | Err er => (Err er, d)
  | Panic m a => (Panic m a, d)
  end.

(** ** [renewLeases] *)

Definition renewable (claims : list (string * string)) (e : env) (k : string) (r : run) : bool :=
  match lease_token r with
  | Some tok => bool_decide ((k, tok) ∈ claims)
  | None => false
  end && bool_decide (state r = RunLeased) &&
  match lease_until r with Some u => clock_timestamp e k <? u | None => false end.

Definition renewLeases (ids tokens : list string) (ttl_ms : Z) (e : env) (d : db)
    : outcome (list string) * db :=
  match (ids ← mapM bind_uuid ids; tokens ← mapM bind_uuid tokens; mret (zip ids tokens)) with
  | Err er => (Err er, d)
  | Panic m a => (Panic m a, d)
  | Ok claims =>
    let P := renewable claims e in
    let m := update_where P
      (λ k r, r ▷ set_lease_until (Some (clock_timestamp_set e k + interval_ms ttl_ms))
                ▷ set_updated_at (now e)) (workflow_runs d) in
    (Ok (omap (λ kv, lease_token kv.2) (map_to_list (affected P (workflow_runs d)))), set_runs m d)
  end.

(** ** Fenced writes *)

(** The two fence parameters, [$1::uuid] and [$2::uuid]. *)
Definition bind_fence (id token : string) : outcome (string * string) :=
  id ← bind_uuid id; token ← bind_uuid token; mret (id, token).

(** [commitStep]: the answer is [None] when no row is returned, and otherwise the
    value of an existing checkpoint, if there is one. *)
Definition commitStep (id token : string) (index : Z) (value : list ascii) (complete : bool)
    (e : env) (d : db) : outcome (option (option (list ascii))) * db :=
  match ('(id, token) ← bind_fence id token; index ← bind_int4 index; value ← bind_jsonb value;
         mret (id, token, index, value)) with
  | Err er => (Err er, d)
  | Panic m a => (Panic m a, d)
  | Ok (id, token, index, value) =>
    let owned := λ k r, fence id token e k r && (step_index r <=? index) in
    if bool_decide (affected owned (workflow_runs d) = ∅) then (Ok None, d)
    else
      match bind_int4 (index + 1) with
      | Err er => (Err er, d)
      | Panic m a => (Panic m a, d)
      | Ok next =>
      let existing := step_checkpoints d !! (id, index) in
      let m := update_where owned
        (λ _ r, r ▷ set_step_index next ▷ set_last_error None ▷ set_lease_failures 0
                  ▷ set_updated_at (now e)
                  ▷ set_state (if complete then RunCompleted else state r)
                  ▷ set_output_json (if complete then Some (default value existing) else None)
                  ▷ set_lease_token (if complete then None else lease_token r)
                  ▷ set_lease_until (if complete then None else lease_until r))
        (workflow_runs d) in
      (Ok (Some existing),
       set_checkpoints (insert_new {[(id, index) := value]} (step_checkpoints d)) (set_runs m d))
      end
  end.

(** A fenced UPDATE of [workflow_runs] alone: its row count. *)
Definition fenced_update (id token : string) (args : outcome ()) (f : env → string → run → run)
    (e : env) (d : db) : outcome Z * db :=
  match (_ ← args; bind_fence id token) with
  | Err er => (Err er, d)
  | Panic m a => (Panic m a, d)
  | Ok (id, token) =>
    (Ok (rows_affected (fence id token e) (workflow_runs d)),
     set_runs (update_where (fence id token e) (f e) (workflow_runs d)) d)
  end.

Definition completeRun (id token : string) (index : Z) (output : option (list ascii))
    (e : env) (d : db) : outcome Z * db :=
  match bind_opt bind_jsonb output with
  | Ok output =>
    fenced_update id token (_ ← bind_int4 index; mret ())
      (λ e _ r, r ▷ set_state RunCompleted ▷ set_step_index index ▷ set_output_json output
                  ▷ set_lease_token None ▷ set_lease_until None ▷ set_last_error None
                  ▷ set_updated_at (now e)) e d
  | Err er => (Err er, d)
  | Panic m a => (Panic m a, d)
  end.

Definition parkSleep (id token : string) (next ms : Z) : env → db → outcome Z * db :=
  fenced_update id token (_ ← bind_int4 next; mret ())
    (λ e _ r, r ▷ set_state RunReady ▷ set_step_index next
                ▷ set_next_run_at (now e + interval_ms ms)
                ▷ set_lease_token None ▷ set_lease_until None ▷ set_last_error None
                ▷ set_lease_failures 0 ▷ set_updated_at (now e)).

Definition parkWait (id token : string) (index : Z) (key : string) (ms : Z)
    : env → db → outcome Z * db :=
  fenced_update id token (_ ← bind_int4 index; _ ← bind_text key; mret ())
    (λ e _ r, r ▷ set_state RunWaitingEvent ▷ set_step_index index
                ▷ set_waiting_event_key (Some key)
                ▷ set_waiting_deadline (Some (now e + interval_ms ms))
                ▷ set_lease_token None ▷ set_lease_until None ▷ set_last_error None
                ▷ set_lease_failures 0 ▷ set_updated_at (now e)).

Definition failOrRetry (id token : string) (att ms : Z) (msg : string)
    : env → db → outcome Z * db :=
  fenced_update id token (_ ← bind_int4 att; _ ← bind_text msg; mret ())
    (λ e _ r, r ▷ set_state (if max_attempts r <=? att then RunFailed else RunReady)
                ▷ set_attempt att ▷ set_next_run_at (now e + interval_ms ms)
                ▷ set_last_error (Some msg) ▷ set_lease_token None ▷ set_lease_until None
                ▷ set_updated_at (now e)).

(** ** [latestEvent] *)

(** [ORDER BY created_at DESC, id DESC LIMIT 1] over the live events of a key. *)
Definition live_event (key : string) (e : env) (ev : event) : bool :=
  bool_decide (event_key ev = key) && (now e <? expires_at ev).
Definition newer (a b : Z * event) : bool :=
  (ev_created_at b.2 <? ev_created_at a.2) ||
  ((ev_created_at b.2 =? ev_created_at a.2) && (b.1 <? a.1)).
Definition newest (l : list (Z * event)) : option (Z * event) :=
  foldr (λ x acc, match acc with Some y => if newer y x then Some y else Some x | None => Some x end)
    None l.

Definition latestEvent (key : string) (e : env) (d : db) : outcome (option (list ascii)) * db :=
  match bind_text key with
  | Ok key =>
    let live := filter (λ kv, live_event key e kv.2) (map_to_list (event_log d)) in
    (Ok (payload_json ∘ snd <$> newest live), d)
  | Err er => (Err er, d)
  | Panic m a => (Panic m a, d)
  end.

(** ** Maintenance *)

(** [LEAST(60000, 250 * (1 << LEAST(lease_failures, 8)))]. *)
Definition recovery_backoff_ms (lf : Z) : Z := Z.min 60000 (250 * Z.shiftl 1 (Z.min lf 8)).

Definition expired (e : env) (_ : string) (r : run) : bool :=
  bool_decide (state r = RunLeased) &&
  match lease_until r with Some u => u <? statement_timestamp e | None => false end.

Definition lease_expired_text : string := "lease expired".

Definition recoverLeases (e : env) (d : db) : outcome Z * db :=
  let picked := pick (locked_runs e) (expired e) (λ r, default 0 (lease_until r))
                  maintenanceBatch (workflow_runs d) in
  let m := update_where (λ k _, bool_decide (k ∈ picked))
    (λ k r, r ▷ set_state (if max_attempts r <=? lease_failures r + 1 then RunFailed else RunReady)
              ▷ set_lease_failures (lease_failures r + 1)
              ▷ set_next_run_at
                  (clock_timestamp_set e k + interval_ms (recovery_backoff_ms (lease_failures r)))
              ▷ set_lease_token None ▷ set_lease_until None
              ▷ set_last_error (Some lease_expired_text) ▷ set_updated_at (now e))
    (workflow_runs d) in
  (Ok (Z.of_nat (length picked)), set_runs m d).

Definition timed_out (e : env) (_ : string) (r : run) : bool :=
  bool_decide (state r = RunWaitingEvent) &&
  match waiting_deadline r with Some t => t <=? statement_timestamp e | None => false end.

Definition promoteTimedOut (channel : string) (e : env) (d : db) : outcome (Z * Z) * db :=
  let picked := pick (locked_runs e) (timed_out e) (λ r, default 0 (waiting_deadline r))
                  maintenanceBatch (workflow_runs d) in
  let P := λ k (_ : run), bool_decide (k ∈ picked) in
  let promoted := affected P (workflow_runs d) in
  let m := update_where P
    (λ _ r, r ▷ set_state RunReady ▷ set_next_run_at (now e) ▷ set_waiting_event_key None
              ▷ set_waiting_deadline None ▷ set_updated_at (now e)) (workflow_runs d) in
  let queues := distinct_queues promoted in
  (Ok (Z.of_nat (size promoted), Z.of_nat (length queues)),
   notify channel queues
     (set_checkpoints
        (insert_new (checkpoints_at_cursor timed_out_text promoted) (step_checkpoints d))
        (set_runs m d))).

(** The [pruneBatch] expired events with the earliest expiry (ties by id). *)
Definition event_le (a b : Z * Z) : Prop := a.1 < b.1 ∨ (a.1 = b.1 ∧ a.2 <= b.2).
#[export] Instance event_le_dec : RelDecision event_le.
Proof. unfold RelDecision, event_le. intros a b. apply _. Defined.

Definition prunable (e : env) (d : db) : list (Z * Z) :=
  (λ '(i, ev), (expires_at ev, i)) <$>
    map_to_list (filter (λ kv, expires_at kv.2 <= statement_timestamp e ∧
                               kv.1 ∉ locked_events e) (event_log d)).
Definition pruneEvents (e : env) (d : db) : outcome Z * db :=
  let picked := (take (Z.to_nat pruneBatch) (merge_sort event_le (prunable e d))).*2 in
  (Ok (Z.of_nat (length picked)),
   set_events (filter (λ kv, kv.1 ∉ picked) (event_log d)) (next_event_id d) d).

(** ** Reads and cancellation *)

Definition runStatus (id : string) (d : db) : outcome (option (string * run)) :=
  id ← bind_uuid id; mret (pair id <$> workflow_runs d !! id).
Definition runOutput (id : string) (d : db) : outcome (option (RunState * option (list ascii))) :=
  id ← bind_uuid id; mret ((λ r, (state r, output_json r)) <$> workflow_runs d !! id).
Definition runState (id : string) (d : db) : outcome (option RunState) :=
  id ← bind_uuid id; mret (state <$> workflow_runs d !! id).

Definition cancellable (id : string) (k : string) (r : run) : bool :=
  bool_decide (k = id) &&
  (bool_decide (state r = RunReady) || bool_decide (state r = RunLeased) ||
   bool_decide (state r = RunWaitingEvent)).

Definition cancelRun (id : string) (e : env) (d : db) : outcome Z * db :=
  match bind_uuid id with
  | Ok id =>
    (Ok (rows_affected (cancellable id) (workflow_runs d)),
     set_runs (update_where (cancellable id)
       (λ _ r, r ▷ set_state RunCancelled ▷ set_lease_token None ▷ set_lease_until None
                 ▷ set_waiting_event_key None ▷ set_waiting_deadline None
                 ▷ set_updated_at (now e)) (workflow_runs d)) d)
  | Err er => (Err er, d)
  | Panic m a => (Panic m a, d)
  end.

(** ** All statements *)

Inductive stmt : Type → Type :=
  | LockEventKey (schema key : string) : stmt ()
  | InsertRun (id name : string) (version : Z) (q : string) (max_att : Z) (scheduled : option Z)
      (input : list ascii) (dedup : option string) (channel : string) : stmt (string * Z)
  | EmitEvent_ (key : string) (payload : list ascii) (ttl_ms : Z) (channel : string) : stmt (Z * Z)
  | ClaimSingle (q : string) (limit ttl_ms : Z) (name : string) (version : Z) : stmt (list claim_row)
  | ClaimMulti (q : string) (limit ttl_ms : Z) (names : list string) (versions : list Z)
      : stmt (list claim_row)
  | RenewLeases (ids tokens : list string) (ttl_ms : Z) : stmt (list string)
  | CommitStep (id token : string) (index : Z) (value : list ascii) (complete : bool)
      : stmt (option (option (list ascii)))
  | CompleteRun (id token : string) (index : Z) (output : option (list ascii)) : stmt Z
  | ParkSleep (id token : string) (next ms : Z) : stmt Z
  | LatestEvent (key : string) : stmt (option (list ascii))
  | ParkWait (id token : string) (index : Z) (key : string) (ms : Z) : stmt Z
  | FailOrRetry (id token : string) (att ms : Z) (msg : string) : stmt Z
  | RecoverLeases : stmt Z
  | PromoteTimedOut (channel : string) : stmt (Z * Z)
  | PruneEvents : stmt Z
  | RunStatus_ (id : string) : stmt (option (string * run))
  | RunOutput_ (id : string) : stmt (option (RunState * option (list ascii)))
  | CancelRun (id : string) : stmt Z
  | RunState_ (id : string) : stmt (option RunState).

(** Run a statement.  The advisory lock is taken by the transaction layer. *)
Definition exec {X} (s : stmt X) (e : env) (d : db) : outcome X * db :=
  match s with
  | LockEventKey schema key => (_ ← bind_text key; mret (), d)
  | InsertRun id name version q max_att scheduled input dedup channel =>
    insertRun id name version q max_att scheduled input dedup channel e d
  | EmitEvent_ key payload ttl_ms channel => emitEvent key payload ttl_ms channel e d
  | ClaimSingle q limit ttl_ms name version => claimSingle q limit ttl_ms name version e d
  | ClaimMulti q limit ttl_ms names versions => claimMulti q limit ttl_ms names versions e d
  | RenewLeases ids tokens ttl_ms => renewLeases ids tokens ttl_ms e d
  | CommitStep id token index value complete => commitStep id token index value complete e d
  | CompleteRun id token index output => completeRun id token index output e d
  | ParkSleep id token next ms => parkSleep id token next ms e d
  | LatestEvent key => latestEvent key e d
  | ParkWait id token index key ms => parkWait id token index key ms e d
  | FailOrRetry id token att ms msg => failOrRetry id token att ms msg e d
  | RecoverLeases => recoverLeases e d
  | PromoteTimedOut channel => promoteTimedOut channel e d
  | PruneEvents => pruneEvents e d
  | RunStatus_ id => (runStatus id d, d)
  | RunOutput_ id => (runOutput id d, d)
  | CancelRun id => cancelRun id e d
  | RunState_ id => (runState id d, d)
  end.
End queries.
