(* ===== verification/Store.v ===== *)
(** * Invariants of the tables under every statement

    [row_change] is the abstract specification of what a statement may do to one
    existing run: the transitions of the state diagram, each with its guard and
    its assignments.  [exec_row_change] shows that every statement refines it, and
    the invariants (final states, the state diagram, row well-formedness,
    write-once checkpoints, deduplication) follow by cases on it. *)

From S2P Require Import Prelude GoText Json Types Postgres Queries.
#[local] Open Scope sql_scope.

(** ** What may happen to a run *)

Inductive row_change (r : run) : run → Prop :=
  | rc_same : row_change r r
  | rc_touch t : row_change r (r ▷ set_updated_at t)
  | rc_claim tok u t :
      state r = RunReady →
      row_change r (r ▷ set_state RunLeased ▷ set_lease_token (Some tok)
                      ▷ set_lease_until (Some u) ▷ set_updated_at t)
  | rc_renew u t :
      state r = RunLeased → is_Some (lease_until r) →
      row_change r (r ▷ set_lease_until (Some u) ▷ set_updated_at t)
  | rc_commit index t :
      state r = RunLeased → step_index r <= index →
      row_change r (r ▷ set_step_index (index + 1) ▷ set_last_error None ▷ set_lease_failures 0
                      ▷ set_updated_at t ▷ set_state (state r) ▷ set_output_json None
                      ▷ set_lease_token (lease_token r) ▷ set_lease_until (lease_until r))
  | rc_commit_last index out t :
      state r = RunLeased → step_index r <= index →
      row_change r (r ▷ set_step_index (index + 1) ▷ set_last_error None ▷ set_lease_failures 0
                      ▷ set_updated_at t ▷ set_state RunCompleted ▷ set_output_json (Some out)
                      ▷ set_lease_token None ▷ set_lease_until None)
  | rc_complete index out t :
      state r = RunLeased →
      row_change r (r ▷ set_state RunCompleted ▷ set_step_index index ▷ set_output_json out
                      ▷ set_lease_token None ▷ set_lease_until None ▷ set_last_error None
                      ▷ set_updated_at t)
  | rc_sleep next due t :
      state r = RunLeased →
      row_change r (r ▷ set_state RunReady ▷ set_step_index next ▷ set_next_run_at due
                      ▷ set_lease_token None ▷ set_lease_until None ▷ set_last_error None
                      ▷ set_lease_failures 0 ▷ set_updated_at t)
  | rc_wait index key deadline t :
      state r = RunLeased →
      row_change r (r ▷ set_state RunWaitingEvent ▷ set_step_index index
                      ▷ set_waiting_event_key (Some key) ▷ set_waiting_deadline (Some deadline)
                      ▷ set_lease_token None ▷ set_lease_until None ▷ set_last_error None
                      ▷ set_lease_failures 0 ▷ set_updated_at t)
  | rc_fail att due msg t :
      state r = RunLeased →
      row_change r (r ▷ set_state (if max_attempts r <=? att then RunFailed else RunReady)
                      ▷ set_attempt att ▷ set_next_run_at due ▷ set_last_error (Some msg)
                      ▷ set_lease_token None ▷ set_lease_until None ▷ set_updated_at t)
  | rc_recover due t :
      state r = RunLeased →
      row_change r (r ▷ set_state (if max_attempts r <=? lease_failures r + 1
                                   then RunFailed else RunReady)
                      ▷ set_lease_failures (lease_failures r + 1) ▷ set_next_run_at due
                      ▷ set_lease_token None ▷ set_lease_until None
                      ▷ set_last_error (Some lease_expired_text) ▷ set_updated_at t)
  | rc_wake due t :
      state r = RunWaitingEvent →
      row_change r (r ▷ set_state RunReady ▷ set_next_run_at due ▷ set_waiting_event_key None
                      ▷ set_waiting_deadline None ▷ set_last_error None ▷ set_updated_at t)
  | rc_timeout due t :
      state r = RunWaitingEvent →
      row_change r (r ▷ set_state RunReady ▷ set_next_run_at due ▷ set_waiting_event_key None
                      ▷ set_waiting_deadline None ▷ set_updated_at t)
  | rc_cancel t :
      Terminal (state r) = false →
      row_change r (r ▷ set_state RunCancelled ▷ set_lease_token None ▷ set_lease_until None
                      ▷ set_waiting_event_key None ▷ set_waiting_deadline None
                      ▷ set_updated_at t).

(** The edges of the state diagram. *)
Inductive edge : RunState → RunState → Prop :=
  | e_claim : edge RunReady RunLeased
  | e_release : edge RunLeased RunReady
  | e_wait : edge RunLeased RunWaitingEvent
  | e_wake : edge RunWaitingEvent RunReady
  | e_complete : edge RunLeased RunCompleted
  | e_fail : edge RunLeased RunFailed
  | e_cancel s : Terminal s = false → edge s RunCancelled.

(** ** Well-formed tables *)

(** Which nullable columns are set, by state. *)
Definition row_shape (r : run) : Prop :=
  match state r with
  | RunLeased =>
    is_Some (lease_token r) ∧ is_Some (lease_until r) ∧
    waiting_event_key r = None ∧ waiting_deadline r = None ∧ output_json r = None
  | RunWaitingEvent =>
    lease_token r = None ∧ lease_until r = None ∧
    is_Some (waiting_event_key r) ∧ is_Some (waiting_deadline r) ∧ output_json r = None
  | RunCompleted =>
    lease_token r = None ∧ lease_until r = None ∧
    waiting_event_key r = None ∧ waiting_deadline r = None
  | _ =>
    lease_token r = None ∧ lease_until r = None ∧
    waiting_event_key r = None ∧ waiting_deadline r = None ∧ output_json r = None
  end.

Record row_wf (r : run) : Prop := {
  rw_shape : row_shape r;
  rw_version : 0 < workflow_version r;
  rw_max : 0 < max_attempts r;
  rw_failures : 0 <= lease_failures r <= max_attempts r;
  rw_active : lease_failures r = max_attempts r → state r = RunFailed;
}.

Record db_wf (d : db) : Prop := {
  dw_rows : map_Forall (λ _, row_wf) (workflow_runs d);
  dw_fk : ∀ id i v, step_checkpoints d !! (id, i) = Some v → is_Some (workflow_runs d !! id);
  dw_dedup : ∀ k1 k2 r1 r2 key,
    workflow_runs d !! k1 = Some r1 → workflow_runs d !! k2 = Some r2 →
    workflow_name r1 = workflow_name r2 →
    dedup_key r1 = Some key → dedup_key r2 = Some key → k1 = k2;
  dw_events : ∀ i ev, event_log d !! i = Some ev → i < next_event_id d;
}.

(** Columns no statement ever changes. *)
Definition same_identity (r r' : run) : Prop :=
  workflow_name r' = workflow_name r ∧ workflow_version r' = workflow_version r ∧
  queue r' = queue r ∧ max_attempts r' = max_attempts r ∧ input_json r' = input_json r ∧
  dedup_key r' = dedup_key r ∧ created_at r' = created_at r.

Lemma row_change_identity r r' : row_change r r' → same_identity r r'.
Proof. by destruct 1. Qed.

Lemma row_change_edge r r' :
  row_change r r' → state r' = state r ∨ edge (state r) (state r').
Proof.
  destruct 1; cbn; try (by left); right; repeat case_match; rewrite ?H; try constructor; done.
Qed.

Lemma row_change_terminal r r' :
  row_change r r' → Terminal (state r) = true → r' = (r ▷ set_updated_at (updated_at r')).
Proof.
  destruct 1; intros Ht; try (by destruct r); try congruence; by rewrite H in Ht.
Qed.

Lemma row_change_shape r r' : row_shape r → row_change r r' → row_shape r'.
Proof.
  unfold row_shape. intros Hshape Hc.
  destruct Hc as [|t|tok u t Hs|u t Hs|index t Hs|index out t Hs|index out t Hs|next due t Hs
    |index key dl t Hs|att due msg t Hs|due t Hs|due t Hs|due t Hs|t Hs]; try done; cbn;
    try (rewrite Hs in Hshape); cbn in Hshape.
  all: try (destruct_and!; split_and!; by eauto).
  - rewrite Hs. cbn. destruct_and!; split_and!; by eauto.
  - rewrite Hs. cbn. destruct_and!; split_and!; by eauto.
  - destruct_and!. destruct (max_attempts r <=? att); split_and!; by eauto.
  - destruct_and!. destruct (max_attempts r <=? lease_failures r + 1); split_and!; by eauto.
  - destruct (state r); try done; destruct_and!; split_and!; by eauto.
Qed.

Lemma row_change_wf r r' : row_wf r → row_change r r' → row_wf r'.
Proof.
  intros [Hshape Hv Hm Hf Ha] Hc. pose proof (row_change_shape _ _ Hshape Hc) as Hshape'.
  destruct (row_change_identity _ _ Hc) as (_ & Ev & _ & Em & _).
  split; [done|by rewrite Ev|by rewrite Em|rewrite Em|rewrite Em]; clear Hshape Hshape' Ev Em.
  - destruct Hc; cbn; try lia. destruct (decide (lease_failures r = max_attempts r)); [|lia].
    rewrite Ha in H by done. done.
  - destruct Hc; cbn; try done; try lia; intros He; try (apply Ha in He; congruence).
    + rewrite He, Z.leb_refl. done.
    + apply Ha in He. by rewrite He in H.
Qed.

(** ** Every statement refines [row_change] *)

Section exec.
Context `{Postgres}.

Lemma bind_int4_Ok n m : bind_int4 n = Ok m ↔ m = n ∧ -(2^31) <= n < 2^31.
Proof.
  unfold bind_int4. destruct ((-(2^31) <=? n) && (n <? 2^31)) eqn:E.
  - bool_to_prop. split; [by intros [= ->]|by intros [-> _]].
  - split; [done|]. intros [_ ?]. apply andb_false_iff in E as [E|E]; bool_to_prop; lia.
Qed.
Lemma bind_uuid_Ok s u : bind_uuid s = Ok u ↔ uuid_in s = Some u.
Proof. unfold bind_uuid. destruct (uuid_in s); naive_solver. Qed.
Lemma bind_jsonb_Ok s v : bind_jsonb s = Ok v ↔ jsonb_in s = Some v.
Proof. unfold bind_jsonb. destruct (jsonb_in s); naive_solver. Qed.
Lemma bind_text_Ok s v : bind_text s = Ok v ↔ v = s ∧ storable (s2b s) = true.
Proof. unfold bind_text. destruct (storable (s2b s)); naive_solver. Qed.

Lemma bind_opt_text_Ok o o' : bind_opt bind_text o = Ok o' → o' = o.
Proof.
  destruct o as [s|]; cbn; [|by intros [= <-]]. unfold bind_text.
  destruct (storable (s2b s)); cbn; [by intros [= <-]|done].
Qed.

Lemma bind_fence_Ok id token p :
  bind_fence id token = Ok p ↔ uuid_in id = Some p.1 ∧ uuid_in token = Some p.2.
Proof.
  unfold bind_fence, bind_uuid. destruct p as [i t].
  destruct (uuid_in id), (uuid_in token); cbn; split; try done; try (by intros [? ?]).
  - by intros [= -> ->].
  - by intros [[= ->] [= ->]].
Qed.

Lemma fence_spec id token e k r :
  fence id token e k r = true ↔
  k = id ∧ state r = RunLeased ∧ lease_token r = Some token ∧
  ∃ u, lease_until r = Some u ∧ clock_timestamp e k < u.
Proof.
  unfold fence. rewrite !andb_true_iff, !bool_decide_eq_true.
  destruct (lease_until r) as [u|].
  - rewrite Z.ltb_lt. naive_solver.
  - naive_solver.
Qed.

(** The server answers rows or an error; it does not panic. *)
Definition no_panic {A} (x : outcome A) : Prop := ∀ m l, x ≠ Panic m l.

Lemma no_panic_bind {A B} (x : outcome A) (f : A → outcome B) :
  no_panic x → (∀ a, no_panic (f a)) → no_panic (x ≫= f).
Proof. intros Hx Hf. destruct x; [apply Hf|done|]. intros m l [= -> ->]. by apply (Hx m l). Qed.
Lemma no_panic_Ok {A} (a : A) : no_panic (Ok a). Proof. done. Qed.
Lemma no_panic_Err {A} e : no_panic (Err (A := A) e). Proof. done. Qed.
Lemma no_panic_fmap {A B} (f : A → B) (x : outcome A) : no_panic x → no_panic (f <$> x).
Proof. intros Hx. destruct x; [done|done|]. intros m l [= -> ->]. by apply (Hx m l). Qed.
Lemma bind_uuid_no_panic s : no_panic (bind_uuid s).
Proof. unfold bind_uuid. by destruct (uuid_in s). Qed.
Lemma bind_jsonb_no_panic s : no_panic (bind_jsonb s).
Proof. unfold bind_jsonb. by destruct (jsonb_in s). Qed.
Lemma bind_text_no_panic s : no_panic (bind_text s).
Proof. unfold bind_text. by destruct (storable _). Qed.
Lemma bind_int4_no_panic n : no_panic (bind_int4 n).
Proof. unfold bind_int4. by destruct (_ && _). Qed.
Lemma mapM_no_panic {A B} (f : A → outcome B) l : (∀ a, no_panic (f a)) → no_panic (mapM f l).
Proof.
  intros Hf. induction l as [|a l IH]; [done|]. cbn. apply no_panic_bind; [done|]. intros b.
  by apply no_panic_bind.
Qed.
Lemma bind_opt_no_panic {A} (f : A → outcome A) x : (∀ a, no_panic (f a)) → no_panic (bind_opt f x).
Proof. intros Hf. destruct x; [by apply no_panic_fmap|done]. Qed.
Lemma guard_no_panic c e : no_panic (guard_err c e).
Proof. by destruct c. Qed.
Lemma bind_fence_no_panic id token : no_panic (bind_fence id token).
Proof.
  unfold bind_fence. apply no_panic_bind; [apply bind_uuid_no_panic|]. intros i.
  by apply no_panic_bind; [apply bind_uuid_no_panic|].
Qed.

Ltac solve_no_panic := repeat first
  [ apply no_panic_bind; [|intros ?] | apply no_panic_fmap | apply mapM_no_panic; intros ?
  | apply bind_opt_no_panic; intros ? | apply bind_uuid_no_panic | apply bind_jsonb_no_panic
  | apply bind_text_no_panic | apply bind_int4_no_panic | apply bind_fence_no_panic
  | apply guard_no_panic | apply no_panic_Ok | done ]; try (by intros ? ?).

Lemma match_no_panic {A B} (x : outcome A) (f : A → outcome B * db) d :
  no_panic x → (∀ a, no_panic (f a).1) →
  no_panic (match x with Ok a => f a | Err e => (Err e, d) | Panic m l => (Panic m l, d) end).1.
Proof. intros Hx Hf. destruct x; [apply Hf|done|]. cbn. intros m l [= -> ->]. by apply (Hx m l). Qed.

Lemma fenced_update_no_panic id token args f e d :
  no_panic args → no_panic (fenced_update id token args f e d).1.
Proof.
  intros Ha. unfold fenced_update. apply match_no_panic; [|by intros [? ?]].
  apply no_panic_bind; [done|]. intros. apply bind_fence_no_panic.
Qed.

Lemma commitStep_no_panic id token index value complete e d :
  no_panic (commitStep id token index value complete e d).1.
Proof.
  unfold commitStep. apply match_no_panic.
  - apply no_panic_bind; [apply bind_fence_no_panic|]. intros [? ?]. solve_no_panic.
  - intros [[[? ?] ?] ?]. case_bool_decide; [done|]. by apply match_no_panic; [solve_no_panic|].
Qed.

Lemma exec_no_panic {X} (s : stmt X) e d : no_panic (exec s e d).1.
Proof.
  destruct s; cbn [exec fst]; try done; try apply commitStep_no_panic;
    unfold insertRun, emitEvent, claimSingle, claimMulti, renewLeases, completeRun,
      parkSleep, parkWait, failOrRetry, latestEvent, runStatus, runOutput, runState, cancelRun, claim;
    try (apply fenced_update_no_panic; solve_no_panic);
    try (apply match_no_panic; [solve_no_panic|intros a; repeat destruct a as [a ?];
      repeat case_match; try done; try (apply fenced_update_no_panic; solve_no_panic)]);
    solve_no_panic.
Qed.

(** An UPDATE refines [row_change] when its assignments do on the rows it selects. *)
Lemma update_where_change P f m k r :
  (∀ r, m !! k = Some r → P k r = true → row_change r (f k r)) → m !! k = Some r →
  ∃ r', update_where P f m !! k = Some r' ∧ row_change r r'.
Proof.
  intros Hf Hk. rewrite lookup_update_where, Hk. cbn. eexists. split; [done|].
  destruct (P k r) eqn:HP; [by apply Hf|constructor].
Qed.

Lemma picked_row lk P key n m k r :
  k ∈ pick lk P key n m → m !! k = Some r → P k r = true.
Proof. intros (r' & Hr' & HP & _)%elem_of_pick Hr. congruence. Qed.

Lemma fenced_update_change id token args f e d k r :
  (∀ r, state r = RunLeased → row_change r (f e k r)) →
  workflow_runs d !! k = Some r →
  ∃ r', workflow_runs (fenced_update id token args f e d).2 !! k = Some r' ∧ row_change r r'.
Proof.
  intros Hf Hk. unfold fenced_update.
  destruct (_ ← args; bind_fence id token) as [[id' token']|er|msg a]; cbn;
    [|by eexists; split; [|constructor]..].
  apply update_where_change; [|done]. intros r0 _ (_ & Hs & _)%fence_spec. by apply Hf.
Qed.

Lemma waiting_on_spec key e k r :
  waiting_on key e k r = true ↔
  state r = RunWaitingEvent ∧ waiting_event_key r = Some key ∧
  ∃ t, waiting_deadline r = Some t ∧ now e < t.
Proof.
  unfold waiting_on. rewrite !andb_true_iff, !bool_decide_eq_true.
  destruct (waiting_deadline r) as [u|].
  - rewrite Z.ltb_lt. naive_solver.
  - naive_solver.
Qed.

Lemma claim_change pred q limit ttl e d k r :
  workflow_runs d !! k = Some r →
  ∃ r', workflow_runs (claim pred q limit ttl e d).2 !! k = Some r' ∧ row_change r r'.
Proof.
  intros Hk. apply update_where_change; [|done].
  intros r0 Hr0 Hp. apply bool_decide_eq_true in Hp. eapply picked_row in Hp; [|done].
  unfold claimable in Hp. bool_to_prop. by apply rc_claim.
Qed.

(** The statement's effect on the rows that exist before it. *)
Lemma exec_row_change {X} (s : stmt X) e d k r :
  workflow_runs d !! k = Some r →
  ∃ r', workflow_runs (exec s e d).2 !! k = Some r' ∧ row_change r r'.
Proof.
  intros Hk.
  assert (∃ r', workflow_runs d !! k = Some r' ∧ row_change r r') as Hsame
    by (eexists; split; [done|constructor]).
  destruct s; cbn [exec snd].
  - done.
  - unfold insertRun. case_match eqn:Hb; [|done..]. destruct a as [[[[[[? ?] ?] ?] ?] ?] ?].
    case_match; [done|]. case_match eqn:Hl; [|destruct p].
    + case_match; [done|]. cbn. rewrite lookup_insert_ne; [done|congruence].
    + cbn. apply update_where_change; [|done]. intros. apply rc_touch.
  - unfold emitEvent. case_match eqn:Hb; [|done..]. destruct a as [key' payload'].
    cbn [snd workflow_runs notify set_checkpoints set_events set_runs].
    apply update_where_change; [|done]. intros r0 _ (Hs & _)%waiting_on_spec. by apply rc_wake.
  - unfold claimSingle. case_match; [|done..]. destruct a as [[? ?] ?]. by apply claim_change.
  - unfold claimMulti. case_match; [|done..]. destruct a as [[? ?] ?]. by apply claim_change.
  - unfold renewLeases. case_match; [|done..]. cbn [snd workflow_runs set_runs].
    apply update_where_change; [|done].
    intros r0 _ Hp. unfold renewable in Hp. bool_to_prop.
    destruct (lease_until r0) eqn:?; [|done]. apply rc_renew; [done|]. by eexists.
  - unfold commitStep. case_match eqn:Hb; [|done..]. destruct a as [[[? ?] ?] ?].
    case_match; [done|]. case_match eqn:Hnext; [|done..].
    apply bind_int4_Ok in Hnext as [-> _]. cbn [snd workflow_runs set_checkpoints set_runs].
    apply update_where_change; [|done].
    intros r0 _ [(? & ? & ?)%fence_spec ?]%andb_prop. bool_to_prop. destruct complete.
    + by eapply rc_commit_last.
    + by apply rc_commit.
  - unfold completeRun. case_match; [|done..].
    apply fenced_update_change; [|done]. intros. by apply rc_complete.
  - apply fenced_update_change; [|done]. intros. by apply rc_sleep.
  - unfold latestEvent. by case_match.
  - apply fenced_update_change; [|done]. intros. by apply rc_wait.
  - apply fenced_update_change; [|done]. intros. by apply rc_fail.
  - unfold recoverLeases. cbn [snd workflow_runs set_runs].
    apply update_where_change; [|done]. intros r0 Hr0 Hp. apply bool_decide_eq_true in Hp.
    eapply picked_row in Hp; [|done]. unfold expired in Hp. bool_to_prop. by apply rc_recover.
  - unfold promoteTimedOut. cbn [snd workflow_runs notify set_checkpoints set_runs].
    apply update_where_change; [|done]. intros r0 Hr0 Hp. apply bool_decide_eq_true in Hp.
    eapply picked_row in Hp; [|done]. unfold timed_out in Hp. bool_to_prop. by apply rc_timeout.
  - done.
  - done.
  - done.
  - unfold cancelRun. case_match; [|done..]. cbn [snd workflow_runs set_runs].
    apply update_where_change; [|done].
    intros r0 Hr0 Hp. unfold cancellable in Hp. apply andb_prop in Hp as [_ Hp]. apply rc_cancel.
    by repeat (apply orb_true_iff in Hp as [Hp|Hp]); bool_to_prop; rewrite Hp.
  - done.
Qed.

(** A row that a statement creates is a fresh [ready] run without a namesake. *)
Record fresh_run (d : db) (r : run) : Prop := {
  fr_ready : state r = RunReady;
  fr_shape : row_shape r;
  fr_counters : step_index r = 0 ∧ attempt r = 0 ∧ lease_failures r = 0;
  fr_version : 0 < workflow_version r;
  fr_max : 0 < max_attempts r;
  fr_dedup : ∀ k' r' key, workflow_runs d !! k' = Some r' →
    workflow_name r' = workflow_name r → dedup_key r = Some key → dedup_key r' ≠ Some key;
}.

Lemma update_where_lookup_None P f m k :
  m !! k = None → update_where P f m !! k = None.
Proof. intros Hk. by rewrite lookup_update_where, Hk. Qed.

Lemma insertRun_new id name version q max_att scheduled input dedup channel e d k r :
  workflow_runs d !! k = None →
  workflow_runs (insertRun id name version q max_att scheduled input dedup channel e d).2 !! k
    = Some r → fresh_run d r.
Proof.
  intros Hk. unfold insertRun. case_match eqn:Hb; [|cbn; congruence..].
  destruct a as [[[[[[? ?] ?] ?] ?] ?] dd]. case_match eqn:Hg; [cbn; congruence|].
  apply orb_false_iff in Hg as [? ?]. bool_to_prop.
  case_match eqn:Hl; [case_match eqn:Hid; [cbn; congruence|]|destruct p; cbn;
    rewrite lookup_update_where, Hk; done].
  cbn. rewrite lookup_insert_Some. intros [[<- <-]|[_ ?]]; [|congruence].
  split; cbn; try done; [lia..|].
  intros k' r' key Hk' Hn -> Hd. apply map_to_list_empty_iff in Hl.
  assert (affected (dedup_conflict s0 (Some key)) (workflow_runs d) !! k' = Some r') as Ha.
  { apply lookup_affected. split; [done|]. unfold dedup_conflict.
    by rewrite !bool_decide_eq_true_2. }
  rewrite Hl in Ha. done.
Qed.

Lemma exec_new_row {X} (s : stmt X) e d k r :
  workflow_runs d !! k = None → workflow_runs (exec s e d).2 !! k = Some r → fresh_run d r.
Proof.
  intros Hk Hr.
  assert (workflow_runs (exec s e d).2 !! k = None → fresh_run d r) as Hnone by congruence.
  destruct s; cbn [exec snd] in *; try (by eapply insertRun_new); apply Hnone; clear Hnone Hr;
    try done;
    unfold completeRun, parkSleep, parkWait, failOrRetry, fenced_update, renewLeases, commitStep,
      cancelRun, emitEvent, latestEvent, claimSingle, claimMulti; repeat case_match; try done;
    by apply update_where_lookup_None.
Qed.

(** Its key is the canonical text of the id it was inserted with. *)
Definition enqueued_id {X} (s : stmt X) : option string :=
  match s with InsertRun id _ _ _ _ _ _ _ _ => Some id | _ => None end.
Lemma exec_new_row_id {X} (s : stmt X) e d k :
  workflow_runs d !! k = None → is_Some (workflow_runs (exec s e d).2 !! k) →
  ∃ id, enqueued_id s = Some id ∧ uuid_in id = Some k.
Proof.
  intros Hk Hsome.
  assert (workflow_runs (exec s e d).2 !! k = None →
    ∃ id, enqueued_id s = Some id ∧ uuid_in id = Some k) as Hnone.
  { intros Hn. rewrite Hn in Hsome. by destruct Hsome. }
  destruct s; cbn [exec snd] in *;
    try (apply Hnone; clear Hnone Hsome; try done;
      unfold completeRun, parkSleep, parkWait, failOrRetry, fenced_update, renewLeases, commitStep,
        cancelRun, emitEvent, latestEvent, claimSingle, claimMulti; repeat case_match; try done;
      by apply update_where_lookup_None).
  revert Hsome Hnone. unfold insertRun. case_match eqn:Hb; [|cbn; auto..].
  destruct a as [[[[[[i ?] ?] ?] ?] ?] ?]. case_match; [cbn; auto|].
  case_match; [case_match; [cbn; auto|]|destruct p; cbn].
  - cbn. intros Hs _. destruct (decide (i = k)) as [->|Hne].
    + invert_outcome. simplify_eq. exists id. split; [done|]. by apply bind_uuid_Ok.
    + rewrite lookup_insert_ne, Hk in Hs by done. by destruct Hs.
  - intros _ Hnone. apply Hnone. by apply update_where_lookup_None.
Qed.

(** ** Checkpoints are written once *)

(** Three statements record outcomes. *)
Lemma exec_checkpoints_same {X} (s : stmt X) e d :
  match s with
  | EmitEvent_ _ _ _ _ | CommitStep _ _ _ _ _ | PromoteTimedOut _ => True
  | _ => step_checkpoints (exec s e d).2 = step_checkpoints d
  end.
Proof.
  destruct s; cbn [exec snd]; try done;
    unfold insertRun, claimSingle, claimMulti, claim, renewLeases, completeRun, parkSleep, latestEvent,
      parkWait, failOrRetry, cancelRun, fenced_update; repeat case_match; done.
Qed.

Lemma exec_checkpoints_mono {X} (s : stmt X) e d :
  step_checkpoints d ⊆ step_checkpoints (exec s e d).2.
Proof.
  pose proof (exec_checkpoints_same s e d) as Hsame. destruct s; try (by rewrite Hsame); cbn [exec].
  - unfold emitEvent. case_match; [|done..]. destruct a. apply insert_new_subseteq.
  - unfold commitStep. case_match; [|done..]. destruct a as [[[? ?] ?] ?].
    case_match; [done|]. case_match; [|done..]. apply insert_new_subseteq.
  - apply insert_new_subseteq.
Qed.

(** A new checkpoint belongs to an existing run and lies at its old cursor, or,
    for a committed step, at the position the statement names. *)
Lemma exec_new_checkpoint {X} (s : stmt X) e d id i v :
  step_checkpoints d !! (id, i) = None → step_checkpoints (exec s e d).2 !! (id, i) = Some v →
  ∃ r, workflow_runs d !! id = Some r ∧
    ((state r = RunWaitingEvent ∧ i = step_index r) ∨
     (state r = RunLeased ∧ step_index r <= i ∧
      ∃ r', workflow_runs (exec s e d).2 !! id = Some r' ∧ step_index r' = i + 1)).
Proof.
  intros Hn. pose proof (exec_checkpoints_same s e d) as Hsame.
  destruct s; try (rewrite Hsame; congruence); clear Hsame; cbn [exec].
  - unfold emitEvent. case_match; [|cbn; congruence..]. destruct a as [key' p']. cbn [snd step_checkpoints notify set_checkpoints].
    rewrite lookup_insert_new, Hn, lookup_checkpoints_at_cursor.
    case_match eqn:Hr; [|done]. apply lookup_affected in Hr as [Hr (Hs & _)%waiting_on_spec].
    case_bool_decide; [|done]. intros _. exists r. split; [done|]. by left.
  - unfold commitStep. case_match eqn:Hb; [|cbn; congruence..]. destruct a as [[[id' tok'] i'] v'].
    case_match eqn:Ha; [cbn; congruence|].
    case_match eqn:Hnext; [|cbn; congruence..]. apply bind_int4_Ok in Hnext as [-> _].
    cbn [snd step_checkpoints workflow_runs set_checkpoints set_runs].
    rewrite lookup_insert_new, Hn. intros [[= <- <-] <-]%lookup_singleton_Some.
    bool_to_prop.
    destruct (workflow_runs d !! id') as [r|] eqn:Hr.
    + assert (fence id' tok' e id' r && (step_index r <=? i') = true) as HP.
      { destruct (fence id' tok' e id' r && _) eqn:HP; [done|]. destruct Ha.
        apply affected_empty. intros k r0 Hk. destruct (fence _ _ _ k r0 && _) eqn:HP'; [|done].
        apply andb_prop in HP' as HP''. destruct HP'' as [(-> & _)%fence_spec _]. congruence. }
      exists r. split; [done|]. right. rewrite lookup_update_where, Hr. cbn [fmap option_fmap option_map].
      rewrite HP. apply andb_prop in HP as [(_ & Hs & _)%fence_spec ?]. bool_to_prop.
      split_and!; [done..|]. by eexists.
    + exfalso. apply Ha, affected_empty. intros k r0 Hk.
      destruct (fence _ _ _ k r0 && _) eqn:HP'; [|done].
      apply andb_prop in HP' as [(-> & _)%fence_spec _]. congruence.
  - unfold promoteTimedOut.
    cbn [snd step_checkpoints notify set_checkpoints].
    rewrite lookup_insert_new, Hn, lookup_checkpoints_at_cursor.
    case_match eqn:Hr; [|done]. apply lookup_affected in Hr as [Hr Hp].
    apply bool_decide_eq_true in Hp. eapply picked_row in Hp; [|done].
    unfold timed_out in Hp. bool_to_prop.
    case_bool_decide; [|done]. intros _. exists r. split; [done|]. by left.
Qed.
(** ** Reachable tables *)

Lemma dedup_key_identity r r' : row_change r r' →
  workflow_name r' = workflow_name r ∧ dedup_key r' = dedup_key r.
Proof. by intros (? & _ & _ & _ & _ & ? & _)%row_change_identity. Qed.

(** Going back from a row after a statement to the row before it. *)
Lemma exec_row_back {X} (s : stmt X) e d k r' :
  workflow_runs (exec s e d).2 !! k = Some r' →
  (∃ r, workflow_runs d !! k = Some r ∧ row_change r r') ∨
  (workflow_runs d !! k = None ∧ fresh_run d r').
Proof.
  intros Hk. destruct (workflow_runs d !! k) as [r|] eqn:E.
  - left. destruct (exec_row_change s e d k r E) as (r0 & ? & ?). exists r. naive_solver.
  - right. split; [done|]. by eapply exec_new_row.
Qed.

(** At most one row is new. *)
Lemma exec_new_row_unique {X} (s : stmt X) e d k1 k2 :
  workflow_runs d !! k1 = None → workflow_runs d !! k2 = None →
  is_Some (workflow_runs (exec s e d).2 !! k1) → is_Some (workflow_runs (exec s e d).2 !! k2) →
  k1 = k2.
Proof.
  intros H1 H2 Hs1 Hs2.
  assert ((workflow_runs (exec s e d).2 !! k1 = None ∨ workflow_runs (exec s e d).2 !! k2 = None)
    ∨ k1 = k2) as [[?|?]| ->]; [|destruct Hs1; congruence|destruct Hs2; congruence|done].
  clear Hs1 Hs2. destruct s; cbn [exec snd]; try (by left; left);
    try (left; left; unfold completeRun, parkSleep, parkWait, failOrRetry, fenced_update,
      renewLeases, commitStep, cancelRun, emitEvent, latestEvent, claimSingle, claimMulti;
      repeat case_match; try done; by apply update_where_lookup_None).
  unfold insertRun. case_match; [|by left; left..]. destruct a as [[[[[[i ?] ?] ?] ?] ?] ?].
  case_match; [by left; left|]. case_match.
  - case_match; [by left; left|]. cbn.
    destruct (decide (i = k1)) as [->|]; [|left; left; by rewrite lookup_insert_ne].
    destruct (decide (k1 = k2)) as [->|]; [by right|left; right; by rewrite lookup_insert_ne].
  - destruct p. left; left. cbn. by apply update_where_lookup_None.
Qed.

Lemma exec_events {X} (s : stmt X) e d :
  (∀ i ev, event_log d !! i = Some ev → i < next_event_id d) →
  ∀ i ev, event_log (exec s e d).2 !! i = Some ev → i < next_event_id (exec s e d).2.
Proof.
  intros Hev. destruct s; cbn [exec snd]; try done;
    try (unfold insertRun, completeRun, parkSleep, parkWait, failOrRetry, fenced_update,
      renewLeases, commitStep, cancelRun, latestEvent, claimSingle, claimMulti;
      repeat case_match; done).
  - unfold emitEvent. case_match; [|done..]. destruct a as [key' payload']. cbn.
    intros i ev [[<- _]|[_ Hi]]%lookup_insert_Some; [lia|]. apply Hev in Hi. lia.
  - unfold pruneEvents. cbn. intros i ev [Hi _]%map_lookup_filter_Some. by eapply Hev.
Qed.

Lemma exec_wf {X} (s : stmt X) e d : db_wf d → db_wf (exec s e d).2.
Proof.
  intros [Hrows Hfk Hdd Hev]. split.
  - intros k r' Hk. apply exec_row_back in Hk as [(r & Hr & Hc)|(_ & [])].
    + eapply row_change_wf; [|done]. by apply (Hrows k).
    + destruct fr_counters0 as (_ & _ & Hf). split; [done..| |]; rewrite Hf; lia.
  - intros id i v Hv. destruct (step_checkpoints d !! (id, i)) as [w|] eqn:E.
    + destruct (Hfk _ _ _ E) as [r Hr]. destruct (exec_row_change s e d id r Hr) as (? & ? & _).
      by eexists.
    + destruct (exec_new_checkpoint s e d id i v E Hv) as (r & Hr & _).
      destruct (exec_row_change s e d id r Hr) as (? & ? & _). by eexists.
  - intros k1 k2 r1 r2 key H1 H2 Hn D1 D2.
    pose proof (exec_row_back _ _ _ _ _ H1) as B1. pose proof (exec_row_back _ _ _ _ _ H2) as B2.
    destruct B1 as [(r1' & Hr1 & Hc1)|(Hr1 & F1)], B2 as [(r2' & Hr2 & Hc2)|(Hr2 & F2)].
    + destruct (dedup_key_identity _ _ Hc1), (dedup_key_identity _ _ Hc2).
      apply (Hdd k1 k2 r1' r2' key); congruence.
    + destruct (dedup_key_identity _ _ Hc1). destruct F2.
      destruct (fr_dedup0 k1 r1' key Hr1); congruence.
    + destruct (dedup_key_identity _ _ Hc2). destruct F1.
      destruct (fr_dedup0 k2 r2' key Hr2); congruence.
    + by eapply exec_new_row_unique.
  - by apply exec_events.
Qed.

(** One statement of any kind, in any environment. *)
Definition db_step (d d' : db) : Prop := ∃ X (s : stmt X) e, d' = (exec s e d).2.

Lemma empty_db_wf : db_wf empty_db.
Proof.
  split; cbn; [apply map_Forall_empty|intros *; by rewrite lookup_empty..].
Qed.
End exec.

(** What parameters are once they are bound. *)
Ltac bound_params :=
  invert_outcome; simplify_eq;
  repeat match goal with
  | H : bind_text _ = Ok _ |- _ => apply bind_text_Ok in H as [-> _]
  | H : bind_int4 _ = Ok _ |- _ => apply bind_int4_Ok in H as [-> _]
  | H : bind_uuid _ = Ok _ |- _ => apply bind_uuid_Ok in H
  | H : bind_jsonb _ = Ok _ |- _ => apply bind_jsonb_Ok in H
  | H : bind_opt bind_text _ = Ok _ |- _ => apply bind_opt_text_Ok in H as ->
  end.

(** ** Properties *)

Section props.
Context `{Postgres}.

(** C25: whatever statements run, in whatever order and environment, starting from
    an empty schema: every row has exactly the nullable columns its state calls
    for (a token and an expiry exactly when leased, a key and a deadline exactly when
    waiting, an output only when completed), its failure counter stays within its
    limit, checkpoints belong to runs, at most one run has a given workflow name and
    deduplication key, and event ids are fresh. *)
Theorem reachable_wf d : rtc db_step empty_db d → db_wf d.
Proof.
  revert d. apply rtc_ind_r; [apply empty_db_wf|].
  intros d d' _ (X & s & e & ->) IH. by apply exec_wf.
Qed.

(** A checkpoint, once stored, keeps its value for ever: no sequence of
    statements overwrites or removes it. *)
Theorem checkpoint_write_once d d' id i v :
  rtc db_step d d' → step_checkpoints d !! (id, i) = Some v →
  step_checkpoints d' !! (id, i) = Some v.
Proof.
  intros Hr Hv. induction Hr as [|d d1 d2 (X & s & e & ->) Hr IH]; [done|].
  apply IH. eapply lookup_weaken; [done|apply exec_checkpoints_mono].
Qed.

Lemma rtc_terminal d d' id r :
  rtc db_step d d' → workflow_runs d !! id = Some r → Terminal (state r) = true →
  ∃ r', workflow_runs d' !! id = Some r' ∧ r' = set_updated_at (updated_at r') r.
Proof.
  intros Hr. revert r. induction Hr as [d|d d1 d2 (X & s & e & ->) Hr IH]; intros r Hk Ht.
  { exists r. by destruct r. }
  destruct (exec_row_change s e d id r Hk) as (r1 & Hr1 & Hc).
  pose proof (row_change_terminal _ _ Hc Ht) as E.
  destruct (IH r1 Hr1) as (r2 & Hr2 & E2); [by rewrite E|].
  exists r2. split; [done|]. rewrite E2 at 1. by rewrite E.
Qed.

(** C24: a run in a final state never leaves it and none of its columns changes
    again, [updated_at] apart (a deduplicated enqueue touches it). *)
Theorem terminal_is_final d d' id r :
  rtc db_step d d' → workflow_runs d !! id = Some r → Terminal (state r) = true →
  ∃ r', workflow_runs d' !! id = Some r' ∧ r' = set_updated_at (updated_at r') r.
Proof. apply rtc_terminal. Qed.

(** A statement moves a run along at most one edge of the state diagram, keeps
    its immutable columns, and never deletes it; a run that appears is [ready]. *)
Theorem statement_follows_diagram {X} (s : stmt X) e d id :
  match workflow_runs d !! id, workflow_runs (exec s e d).2 !! id with
  | Some r, Some r' =>
    same_identity r r' ∧ (state r' = state r ∨ edge (state r) (state r'))
  | Some _, None => False
  | None, Some r' => state r' = RunReady
  | None, None => True
  end.
Proof.
  destruct (workflow_runs d !! id) as [r|] eqn:E.
  - destruct (exec_row_change s e d id r E) as (r' & -> & Hc).
    eauto using row_change_identity, row_change_edge.
  - destruct (workflow_runs (exec s e d).2 !! id) eqn:E'; [|done].
    by destruct (exec_new_row _ _ _ _ _ E E').
Qed.
End props.
