(* ===== verification/Statements.v ===== *)
(** * Functional behaviour of the statements

    Fencing, commits, claims, events, timeouts, recovery, deduplication and
    cancellation: what each statement answers and what it leaves in the tables, on
    each of its branches. *)

From S2P Require Import Prelude GoText Json Types Postgres Queries Store.
#[local] Open Scope sql_scope.

Section statements.
Context `{Postgres}.

(** ** Fenced statements *)

(** The fence parameters of a statement that writes a claimed run. *)
Definition fence_of {X} (s : stmt X) : option (string * string) :=
  match s with
  | CommitStep id token _ _ _ | CompleteRun id token _ _ | ParkSleep id token _ _
  | ParkWait id token _ _ _ | FailOrRetry id token _ _ _ => Some (id, token)
  | _ => None
  end.

(** The answer of a fenced statement that found no row to write. *)
Definition lost_answer {X} (s : stmt X) : outcome X → Prop :=
  match s with
  | CommitStep _ _ _ _ _ => λ o, o = Ok None
  | CompleteRun _ _ _ _ => λ o, o = Ok 0
  | ParkSleep _ _ _ _ => λ o, o = Ok 0
  | ParkWait _ _ _ _ _ => λ o, o = Ok 0
  | FailOrRetry _ _ _ _ _ => λ o, o = Ok 0
  | _ => λ _, False
  end.

(** The claim [token] owns the run [id] when the statement evaluates its fence. *)
Definition owns (id token : string) (e : env) (d : db) : Prop :=
  ∃ r, workflow_runs d !! id = Some r ∧ fence id token e id r = true.

Lemma fence_id id token e k r : fence id token e k r = true → k = id.
Proof. by intros (-> & _)%fence_spec. Qed.

Lemma not_owns_affected id token e d (Q : run → bool) :
  ¬ owns id token e d →
  affected (λ k r, fence id token e k r && Q r) (workflow_runs d) = ∅.
Proof.
  intros Hno. apply affected_empty. intros k r Hk.
  destruct (fence id token e k r && Q r) eqn:E; [|done].
  apply andb_prop in E as [Hf _]. pose proof (fence_id _ _ _ _ _ Hf) as ->.
  destruct Hno. by exists r.
Qed.

Lemma affected_ext P Q m : (∀ k r, P k r = Q k r) → affected P m = affected Q m.
Proof.
  intros HPQ. apply map_eq. intros k. apply option_eq. intros r.
  rewrite !lookup_affected. by rewrite HPQ.
Qed.

Lemma set_runs_id d : set_runs (workflow_runs d) d = d.
Proof. by destruct d. Qed.

Lemma not_owns_fenced_update id token args f e d :
  uuid_in id = Some id → uuid_in token = Some token → args = Ok () →
  ¬ owns id token e d →
  fenced_update id token args f e d = (Ok 0, d).
Proof.
  intros Hid Htok -> Hno. unfold fenced_update, bind_fence, bind_uuid. cbn.
  rewrite Hid, Htok. cbn.
  assert (affected (fence id token e) (workflow_runs d) = ∅) as Ha.
  { rewrite <-(not_owns_affected id token e d (λ _, true) Hno).
    apply affected_ext. intros. by rewrite andb_true_r. }
  rewrite update_where_none by done. unfold rows_affected. rewrite Ha, map_size_empty.
  by rewrite set_runs_id.
Qed.

(** An UPDATE whose arguments are rejected leaves the tables alone. *)
Lemma fenced_update_no_row id token args f e d :
  uuid_in id = Some id → uuid_in token = Some token → ¬ owns id token e d →
  (fenced_update id token args f e d).2 = d ∧
  ((fenced_update id token args f e d).1 = Ok 0 ∨ is_ok (fenced_update id token args f e d).1 = false).
Proof.
  intros Hid Htok Hno. destruct args as [[]|er|msg a].
  - rewrite not_owns_fenced_update by done. split; [done|by left].
  - split; [done|by right].
  - split; [done|by right].
Qed.

Lemma fenced_update_frame id token args f e d k :
  uuid_in id = Some id → k ≠ id →
  workflow_runs (fenced_update id token args f e d).2 !! k = workflow_runs d !! k.
Proof.
  intros Hid Hk. unfold fenced_update. destruct args as [[]|er|msg a]; cbn; [|done..].
  unfold bind_fence, bind_uuid. rewrite Hid. cbn. destruct (uuid_in token) as [tok|]; [|done]. cbn.
  rewrite lookup_update_where. destruct (workflow_runs d !! k) as [r|]; [|done]. cbn.
  destruct (fence id tok e k r) eqn:E; [|done]. by apply fence_id in E.
Qed.

Lemma fenced_update_rest id token args f e d :
  let d' := (fenced_update id token args f e d).2 in
  step_checkpoints d' = step_checkpoints d ∧ event_log d' = event_log d ∧
  notifications d' = notifications d.
Proof. unfold fenced_update. destruct (_ ← args; _) as [[]| |]; done. Qed.

Lemma commitStep_cases id token index value complete e d :
  uuid_in id = Some id → uuid_in token = Some token →
  (¬ owns id token e d ∧ (commitStep id token index value complete e d).2 = d ∧
     ((commitStep id token index value complete e d).1 = Ok None ∨
      is_ok (commitStep id token index value complete e d).1 = false)) ∨
  owns id token e d.
Proof.
  intros Hid Htok. unfold commitStep, bind_fence, bind_uuid. rewrite Hid, Htok. cbn.
  assert (owns id token e d ∨ ¬ owns id token e d) as [Ho|Hno]; [|by right|left].
  { unfold owns. destruct (workflow_runs d !! id) as [r|]; [|right; by intros (? & ? & _)].
    destruct (fence id token e id r) eqn:E; [left; by exists r|right].
    intros (? & ? & ?). congruence. }
  split; [done|].
  destruct (bind_int4 index) as [i| |]; cbn; [|split; [done|by right]..].
  destruct (bind_jsonb value) as [v| |]; cbn; [|split; [done|by right]..].
  rewrite bool_decide_eq_true_2 by by apply not_owns_affected. split; [done|by left].
Qed.

(** C23: a worker that no longer holds the lease - its token was replaced or
    cleared, the run left [leased], or the lease ran out - cannot write: every
    fenced statement leaves all tables as they were and answers that no row was
    written (or an argument error). *)
Theorem stale_worker_cannot_write {X} (s : stmt X) id token e d :
  fence_of s = Some (id, token) → uuid_in id = Some id → uuid_in token = Some token →
  ¬ owns id token e d →
  (exec s e d).2 = d ∧ (lost_answer s (exec s e d).1 ∨ is_ok (exec s e d).1 = false).
Proof.
  intros Hs Hid Htok Hno. destruct s; cbn in Hs; simplify_eq; cbn [exec lost_answer];
    try (by apply fenced_update_no_row).
  - destruct (commitStep_cases id token index value complete e d Hid Htok) as [(_ & ? & ?)|?];
      done.
  - unfold completeRun. destruct (bind_opt bind_jsonb output) as [o| |].
    + by apply fenced_update_no_row.
    + split; [done|by right].
    + split; [done|by right].
Qed.

Lemma fenced_local {X} (s : stmt X) id token e d k i :
  fence_of s = Some (id, token) → uuid_in id = Some id → k ≠ id →
  let d' := (exec s e d).2 in
  workflow_runs d' !! k = workflow_runs d !! k ∧
  step_checkpoints d' !! (k, i) = step_checkpoints d !! (k, i) ∧
  event_log d' = event_log d ∧ notifications d' = notifications d.
Proof.
  intros Hs Hid Hk. assert (∀ token args f,
    let d' := (fenced_update id token args f e d).2 in
    workflow_runs d' !! k = workflow_runs d !! k ∧
    step_checkpoints d' !! (k, i) = step_checkpoints d !! (k, i) ∧
    event_log d' = event_log d ∧ notifications d' = notifications d) as Hupd.
  { intros token' args f. cbn. destruct (fenced_update_rest id token' args f e d) as (-> & -> & ->).
    by rewrite fenced_update_frame. }
  destruct s; cbn in Hs; simplify_eq; cbn [exec]; try apply Hupd.
  - cbn. unfold commitStep, bind_fence, bind_uuid. rewrite Hid. cbn.
    destruct (uuid_in token) as [tok|]; cbn; [|done].
    destruct (bind_int4 index) as [i'| |]; cbn; [|done..].
    destruct (bind_jsonb value) as [v| |]; cbn; [|done..].
    case_bool_decide; [done|]. destruct (bind_int4 (i' + 1)); cbn; [|done..].
    split_and!; try done.
    + rewrite lookup_update_where. destruct (workflow_runs d !! k) as [r|]; [|done]. cbn.
      destruct (fence id tok e k r) eqn:E; [|done]. by apply fence_id in E.
    + rewrite lookup_insert_new, lookup_singleton_ne by congruence. by case_match.
  - unfold completeRun. destruct (bind_opt bind_jsonb output); [apply Hupd|done..].
Qed.

(** A fenced statement touches nothing but its own run: every other row and
    every checkpoint of another run, the event log and the notifications stay. *)
Theorem fenced_write_is_local {X} (s : stmt X) id token e d k i :
  fence_of s = Some (id, token) → uuid_in id = Some id → k ≠ id →
  let d' := (exec s e d).2 in
  workflow_runs d' !! k = workflow_runs d !! k ∧
  step_checkpoints d' !! (k, i) = step_checkpoints d !! (k, i) ∧
  event_log d' = event_log d ∧ notifications d' = notifications d.
Proof. apply fenced_local. Qed.

(** ** Committing a step *)

Lemma update_where_single P f m id r :
  (∀ k r, P k r = true → k = id) → m !! id = Some r → P id r = true →
  update_where P f m = <[id := f id r]> m.
Proof.
  intros Hid Hr HP. apply map_eq. intros k. rewrite lookup_update_where.
  destruct (decide (k = id)) as [->|Hk].
  - by rewrite Hr, lookup_insert_eq; cbn; rewrite HP.
  - rewrite lookup_insert_ne by done. destruct (m !! k) as [r'|]; [|done]. cbn.
    destruct (P k r') eqn:E; [|done]. by apply Hid in E.
Qed.

Lemma owned_not_empty P m id r :
  m !! id = Some r → P id r = true → affected P m ≠ ∅.
Proof.
  intros Hr HP He. assert (affected P m !! id = Some r) as Ha by by apply lookup_affected.
  by rewrite He in Ha.
Qed.

Lemma insert_new_singleton cps (k : string * Z) v :
  insert_new {[k := v]} cps = <[k := default v (cps !! k)]> cps.
Proof.
  apply map_eq. intros k'. rewrite lookup_insert_new. destruct (decide (k' = k)) as [->|Hk].
  - rewrite lookup_insert_eq, lookup_singleton_eq. by destruct (cps !! k).
  - rewrite lookup_insert_ne, lookup_singleton_ne by done. by destruct (cps !! k').
Qed.

(** The row that [commitStep] leaves. *)
Definition committed_row (index : Z) (complete : bool) (kept : list ascii) (e : env) (r : run)
    : run :=
  r ▷ set_step_index (index + 1) ▷ set_last_error None ▷ set_lease_failures 0
    ▷ set_updated_at (now e)
    ▷ set_state (if complete then RunCompleted else state r)
    ▷ set_output_json (if complete then Some kept else None)
    ▷ set_lease_token (if complete then None else lease_token r)
    ▷ set_lease_until (if complete then None else lease_until r).

Lemma commitStep_owned id token index value v complete e d r :
  uuid_in id = Some id → uuid_in token = Some token → jsonb_in value = Some v →
  -(2^31) <= index < 2^31 - 1 →
  workflow_runs d !! id = Some r → fence id token e id r = true → step_index r <= index →
  let existing := step_checkpoints d !! (id, index) in
  let kept := default v existing in
  commitStep id token index value complete e d =
    (Ok (Some existing),
     set_checkpoints (<[(id, index) := kept]> (step_checkpoints d))
       (set_runs (<[id := committed_row index complete kept e r]> (workflow_runs d)) d)).
Proof.
  intros Hid Htok Hv Hidx Hr Hf Hle existing kept. unfold commitStep.
  assert (('(id, token) ← bind_fence id token; index ← bind_int4 index; value ← bind_jsonb value;
         mret (id, token, index, value)) = Ok (id, token, index, v)) as ->.
  { unfold bind_fence. rewrite (proj2 (bind_uuid_Ok _ _) Hid), (proj2 (bind_uuid_Ok _ _) Htok). cbn.
    rewrite (proj2 (bind_int4_Ok index index)) by (split; [done|lia]).
    by rewrite (proj2 (bind_jsonb_Ok _ _) Hv). }
  set (owned := λ k r, fence id token e k r && (step_index r <=? index)).
  assert (owned id r = true) as Hown
    by (unfold owned; rewrite Hf; cbn; apply Z.leb_le; lia).
  rewrite bool_decide_eq_false_2 by by eapply owned_not_empty.
  rewrite (proj2 (bind_int4_Ok (index + 1) (index + 1))) by (split; [done|lia]).
  rewrite insert_new_singleton. do 3 f_equal.
  rewrite (update_where_single owned _ _ id r); [done| |done..].
  intros k r' [Hk _]%andb_prop. by apply fence_id in Hk.
Qed.

(** A commit that answers a row had a valid lease and did its work. *)
Lemma commitStep_Some_inv id token index value complete e d existing d' :
  uuid_in id = Some id → uuid_in token = Some token →
  commitStep id token index value complete e d = (Ok (Some existing), d') →
  ∃ r v, workflow_runs d !! id = Some r ∧ fence id token e id r = true ∧
    step_index r <= index ∧ jsonb_in value = Some v ∧ -(2^31) <= index < 2^31 - 1 ∧
    existing = step_checkpoints d !! (id, index) ∧
    d' = set_checkpoints (<[(id, index) := default v existing]> (step_checkpoints d))
           (set_runs (<[id := committed_row index complete (default v existing) e r]>
              (workflow_runs d)) d).
Proof.
  intros Hid Htok Hc. assert (∃ r v, workflow_runs d !! id = Some r ∧
    fence id token e id r = true ∧ step_index r <= index ∧ jsonb_in value = Some v ∧
    -(2^31) <= index < 2^31 - 1) as (r & v & Hr & Hf & Hle & Hv & Hidx).
  { unfold commitStep in Hc. case_match eqn:Hb; [|done..]. destruct a as [[[i t] ix] v].
    invert_outcome. destruct x as [i' t'].
    match goal with Hf : bind_fence _ _ = _ |- _ => apply bind_fence_Ok in Hf as [Hi Ht] end.
    cbn in Hi, Ht. simplify_eq. invert_outcome. simplify_eq.
    match goal with Hx : bind_int4 index = _ |- _ => apply bind_int4_Ok in Hx as [-> Hix] end.
    match goal with Hx : bind_jsonb _ = _ |- _ => apply bind_jsonb_Ok in Hx end.
    case_bool_decide as He; [done|].
    destruct (bind_int4 (index + 1)) as [n| |] eqn:Hn; [|done..].
    apply bind_int4_Ok in Hn as [_ Hn].
    rewrite (affected_single _ _ i) in He by (intros k r [Hk _]%andb_prop; by apply fence_id in Hk).
    destruct (workflow_runs d !! i) as [r|]; [|done].
    destruct (fence i t e i r && (step_index r <=? index)) eqn:HP; [|done].
    bool_to_prop. exists r, v. split_and!; try done; lia. }
  exists r, v. rewrite (commitStep_owned id token index value v complete e d r) in Hc by done.
  injection Hc as <- <-. split_and!; try done; lia.
Qed.

(** A commit that answers no row, or fails, leaves the tables alone. *)
Lemma commitStep_effect id token index value complete e d :
  (commitStep id token index value complete e d).2 = d ∨
  ∃ existing d', commitStep id token index value complete e d = (Ok (Some existing), d').
Proof.
  unfold commitStep. case_match; [|by left..]. destruct a as [[[i t] ix] v].
  case_match; [by left|]. case_match; [right; by eexists _, _|by left..].
Qed.

(** A fenced UPDATE under a valid lease. *)
Lemma fenced_update_owned id token args f e d r :
  uuid_in id = Some id → uuid_in token = Some token → args = Ok () →
  workflow_runs d !! id = Some r → fence id token e id r = true →
  fenced_update id token args f e d = (Ok 1, set_runs (<[id := f e id r]> (workflow_runs d)) d).
Proof.
  intros Hid Htok -> Hr Hf. unfold fenced_update, bind_fence, bind_uuid. cbn. rewrite Hid, Htok. cbn.
  rewrite (rows_affected_single _ _ id) by (intros k r'; apply fence_id). rewrite Hr, Hf.
  do 2 f_equal. apply (update_where_single (fence id token e) (f e)); [|done..].
  intros k r'. apply fence_id.
Qed.

(** A fenced UPDATE does nothing, or rewrites its own row under a valid lease. *)
Lemma fenced_update_effect id token args f e d :
  uuid_in id = Some id → uuid_in token = Some token →
  (fenced_update id token args f e d).2 = d ∨
  ∃ r, workflow_runs d !! id = Some r ∧ fence id token e id r = true ∧ args = Ok () ∧
    (fenced_update id token args f e d).2 = set_runs (<[id := f e id r]> (workflow_runs d)) d.
Proof.
  intros Hid Htok. unfold fenced_update. destruct args as [[]|er|msg a]; cbn; [|by left..].
  unfold bind_fence, bind_uuid. rewrite Hid, Htok. cbn.
  destruct (workflow_runs d !! id) as [r|] eqn:Hr; [destruct (fence id token e id r) eqn:Hf|].
  - right. exists r. split_and!; [done..|]. f_equal.
    apply (update_where_single (fence id token e) (f e)); [|done..].
    intros k r'. apply fence_id.
  - left. rewrite update_where_none; [by rewrite set_runs_id|]. apply affected_empty.
    intros k r' Hk. destruct (fence id token e k r') eqn:E; [|done].
    pose proof (fence_id _ _ _ _ _ E) as ->. congruence.
  - left. rewrite update_where_none; [by rewrite set_runs_id|]. apply affected_empty.
    intros k r' Hk. destruct (fence id token e k r') eqn:E; [|done].
    pose proof (fence_id _ _ _ _ _ E) as ->. congruence.
Qed.

(** Committing a step under a valid lease stores its value unless the position
    already has one, in which case the first value stays and is the one answered;
    the cursor moves just past the position, the error and the count of lost leases
    are cleared, and with [complete] the run is completed in the same statement with
    the kept value as its output.  Nothing else changes. *)
Theorem commit_first_result_wins id token index value v complete e d r :
  uuid_in id = Some id → uuid_in token = Some token → jsonb_in value = Some v →
  -(2^31) <= index < 2^31 - 1 →
  workflow_runs d !! id = Some r → fence id token e id r = true → step_index r <= index →
  let existing := step_checkpoints d !! (id, index) in
  let kept := default v existing in
  let (answer, d') := exec (CommitStep id token index value complete) e d in
  answer = Ok (Some existing) ∧
  step_checkpoints d' = <[(id, index) := kept]> (step_checkpoints d) ∧
  (∃ r', workflow_runs d' = <[id := r']> (workflow_runs d) ∧
     step_index r' = index + 1 ∧ last_error r' = None ∧ lease_failures r' = 0 ∧
     attempt r' = attempt r ∧
     if complete
     then state r' = RunCompleted ∧ output_json r' = Some kept ∧ lease_token r' = None
     else state r' = RunLeased ∧ lease_token r' = Some token ∧ lease_until r' = lease_until r) ∧
  event_log d' = event_log d ∧ notifications d' = notifications d.
Proof.
  intros Hid Htok Hv Hidx Hr Hf Hle existing kept. cbn [exec].
  rewrite (commitStep_owned id token index value v complete e d r) by done.
  split_and!; try done. eexists. split; [done|].
  apply fence_spec in Hf as (_ & Hs & Ht & _). destruct complete; by split_and!.
Qed.
End statements.
