(* ===== verification/Claims.v ===== *)
(** * Claiming, recovering and enqueueing runs

    The statements that decide which worker gets which run: claims (whichever of the
    two statements is used), the recovery of expired leases, and the deduplicated
    insertion of new runs. *)

From S2P Require Import Prelude GoText Json Types Postgres Queries Store Statements.
#[local] Open Scope sql_scope.

(** A LIMIT that is not reached has taken every candidate. *)
Lemma pick_all lk P key n m k r :
  Z.of_nat (length (pick lk P key n m)) < n →
  m !! k = Some r → P k r = true → k ∉ lk → k ∈ pick lk P key n m.
Proof.
  intros Hlen Hr HP Hk. rewrite length_pick in Hlen. unfold pick.
  rewrite take_ge by (rewrite merge_sort_Permutation; lia).
  rewrite merge_sort_Permutation. apply list_elem_of_fmap. exists (key r, k).
  split; [done|]. apply elem_of_candidates. by exists r.
Qed.

Lemma length_pick_le lk P key n m : 0 <= n → Z.of_nat (length (pick lk P key n m)) <= n.
Proof. intros. rewrite length_pick. lia. Qed.

Section claims.
Context `{Postgres}.

(** ** Claims *)

(** The runs a claim may take. *)
Record eligible (q : string) (names : list string) (versions : list Z) (e : env) (d : db)
    (k : string) (r : run) : Prop := {
  el_row : workflow_runs d !! k = Some r;
  el_queue : queue r = q;
  el_ready : state r = RunReady;
  el_due : next_run_at r <= now e;
  el_registered : (workflow_name r, workflow_version r) ∈ zip names versions;
  el_unlocked : k ∉ locked_runs e;
}.

(** The promise of a claim that answers [rows] and leaves [d']. *)
Record claim_contract (q : string) (limit ttl_ms : Z) (names : list string) (versions : list Z)
    (e : env) (d : db) (rows : list claim_row) (d' : db) : Prop := {
  cl_nodup : NoDup (c_id <$> rows);
  cl_limit : Z.of_nat (length rows) <= limit;
  cl_all : Z.of_nat (length rows) < limit → ∀ k r,
    eligible q names versions e d k r → k ∈ c_id <$> rows;
  cl_rows : ∀ row, row ∈ rows → ∃ r r',
    eligible q names versions e d (c_id row) r ∧
    workflow_runs d' !! c_id row = Some r' ∧
    (c_workflow_name row, c_workflow_version row, c_step_index row, c_attempt row, c_input row) =
      (workflow_name r, workflow_version r, step_index r, attempt r, input_json r) ∧
    state r' = RunLeased ∧ lease_token r' = Some (c_lease_token row) ∧
    c_lease_token row = gen_random_uuid e (c_id row) ∧
    lease_until r' = Some (clock_timestamp_set e (c_id row) + interval_ms ttl_ms) ∧
    step_index r' = step_index r ∧ attempt r' = attempt r ∧
    lease_failures r' = lease_failures r;
  cl_rest : ∀ k, k ∉ c_id <$> rows → workflow_runs d' !! k = workflow_runs d !! k;
  cl_first : ∀ k k' r r', k ∈ c_id <$> rows → workflow_runs d !! k = Some r →
    eligible q names versions e d k' r' → k' ∉ c_id <$> rows →
    row_le (next_run_at r, k) (next_run_at r', k');
  cl_tables : step_checkpoints d' = step_checkpoints d ∧ event_log d' = event_log d ∧
    notifications d' = notifications d;
}.

Lemma claimable_spec q pred e k r :
  claimable q pred e k r = true ↔
  queue r = q ∧ state r = RunReady ∧ next_run_at r <= now e ∧ pred r = true.
Proof.
  unfold claimable. rewrite !andb_true_iff, !bool_decide_eq_true, Z.leb_le. naive_solver.
Qed.

Lemma eligible_claimable q names versions e d k r :
  eligible q names versions e d k r ↔
  workflow_runs d !! k = Some r ∧ claimable q (multi_pred names versions) e k r = true ∧
  k ∉ locked_runs e.
Proof.
  rewrite claimable_spec. unfold multi_pred. rewrite bool_decide_eq_true.
  split; [by intros []|]. intros (? & (? & ? & ? & ?) & ?). by split.
Qed.

(** The ids of the answered rows are the picked ids, in order. *)
Lemma omap_total {A B} (f : A → option B) (g : B → A) (l : list A) :
  (∀ a, a ∈ l → ∃ b, f a = Some b ∧ g b = a) → g <$> omap f l = l.
Proof.
  induction l as [|a l IH]; intros Hl; [done|]. cbn.
  destruct (Hl a) as (b & -> & Hg); [by left|]. cbn. rewrite Hg. f_equal.
  apply IH. intros a' Ha'. apply Hl. by right.
Qed.

Lemma claim_ids pred q limit ttl e d rows d' :
  claim pred q limit ttl e d = (Ok rows, d') →
  c_id <$> rows = pick (locked_runs e) (claimable q pred e) next_run_at limit (workflow_runs d).
Proof.
  intros [= <- _]. apply omap_total. intros k Hk.
  apply elem_of_pick in Hk as (r & Hr & _). eexists. rewrite Hr. cbn. by split.
Qed.

Lemma claim_meets_contract names versions q limit ttl e d rows d' :
  0 <= limit → claim (multi_pred names versions) q limit ttl e d = (Ok rows, d') →
  claim_contract q limit ttl names versions e d rows d'.
Proof.
  intros Hlim Hc. pose proof (claim_ids _ _ _ _ _ _ _ _ Hc) as Hids.
  injection Hc as Hrows Hd. set (picked := pick _ _ _ _ _) in *.
  assert (length rows = length picked) as Hlen by by rewrite <-Hids, length_fmap.
  split.
  - rewrite Hids. apply NoDup_pick.
  - rewrite Hlen. by apply length_pick_le.
  - rewrite Hlen, Hids. intros Hlt k r (Hr & Hcl & Hlk)%eligible_claimable.
    by eapply pick_all.
  - intros row Hrow. rewrite <-Hrows in Hrow. apply list_elem_of_omap in Hrow as (k & Hk & Hrow).
    apply elem_of_pick in Hk as Hk'. destruct Hk' as (r & Hr & Hcl & Hlk).
    rewrite Hr in Hrow. cbn in Hrow. injection Hrow as <-. cbn [c_id]. eexists r, _. split_and!.
    + by apply eligible_claimable.
    + rewrite <-Hd. cbn. rewrite lookup_update_where, Hr. cbn.
      by rewrite bool_decide_eq_true_2.
    + done.
    + done.
    + done.
    + done.
    + done.
    + done.
    + done.
    + done.
  - intros k Hk. rewrite <-Hd. cbn. rewrite lookup_update_where.
    destruct (workflow_runs d !! k); [|done]. cbn.
    by rewrite bool_decide_eq_false_2 by congruence.
  - rewrite Hids. intros k k' r r' Hk Hr (Hr' & Hcl & Hlk)%eligible_claimable Hk'.
    by eapply pick_first.
  - by rewrite <-Hd.
Qed.

Lemma mapM_bind_id {A} (f : A → outcome A) (l l' : list A) :
  (∀ a b, f a = Ok b → b = a) → mapM f l = Ok l' → l' = l.
Proof.
  intros Hf. revert l'. induction l as [|a l IH]; intros l' Hl; cbn in Hl; [by injection Hl|].
  invert_outcome. apply Hf in H0 as ->. by rewrite (IH _ H1).
Qed.

(** C28: a claim takes runs of its queue that are ready, due, of a registered
    workflow version and not locked by another transaction; it never takes one twice
    or more than [limit], it takes all of them unless the limit is reached, the
    earliest due first; every run it answers is leased under the token it answers
    until the expiry it was asked for, with cursor and counters as answered, and no
    other run or table changes. *)
Theorem claim_takes_due_runs q limit ttl names versions e d rows d' :
  exec (ClaimMulti q limit ttl names versions) e d = (Ok rows, d') →
  claim_contract q limit ttl names versions e d rows d'.
Proof.
  cbn [exec]. unfold claimMulti. case_match eqn:Hb; [|done..]. destruct a as [[q' names'] versions'].
  invert_outcome. apply bind_text_Ok in H0 as [-> _]. bool_to_prop.
  apply mapM_bind_id in H1 as ->; [|by intros ? ? [-> _]%bind_text_Ok].
  apply mapM_bind_id in H2 as ->; [|by intros ? ? [-> _]%bind_int4_Ok].
  by apply claim_meets_contract.
Qed.

Lemma single_pred_multi name version r :
  multi_pred [name] [version] r = single_pred name version r.
Proof.
  unfold multi_pred, single_pred. cbn. apply eq_true_iff_eq.
  rewrite bool_decide_eq_true, andb_true_iff, bool_decide_eq_true, Z.eqb_eq,
    list_elem_of_singleton. naive_solver.
Qed.

Lemma claim_ext pred pred' q limit ttl e d :
  (∀ r, pred r = pred' r) → claim pred q limit ttl e d = claim pred' q limit ttl e d.
Proof.
  intros Hp. unfold claim.
  assert (pick (locked_runs e) (claimable q pred e) next_run_at limit (workflow_runs d)
    = pick (locked_runs e) (claimable q pred' e) next_run_at limit (workflow_runs d)) as ->; [|done].
  unfold pick, candidates. do 5 f_equal. apply map_filter_ext.
  intros k r _. unfold claimable. cbn. by rewrite Hp.
Qed.

(** The statement used when one workflow version is registered and the general
    one answer and do the same for that version. *)
Lemma claim_statements_agree q limit ttl name version e d :
  exec (ClaimSingle q limit ttl name version) e d =
  exec (ClaimMulti q limit ttl [name] [version]) e d.
Proof.
  cbn [exec]. unfold claimSingle, claimMulti. cbn [mapM].
  destruct (bind_text q) as [q'| |]; cbn; [|done..].
  destruct (bind_text name) as [n'| |]; cbn; [|done..].
  destruct (bind_int4 version) as [v'| |]; cbn; [|done..].
  destruct (limit <? 0); cbn; [done|].
  apply claim_ext. intros r. by rewrite single_pred_multi.
Qed.

(** ** The lease excludes everyone else *)

(** Statements that another party may run while the claim [tok] holds run [id]: not
    fenced by that claim, and no cancellation of the run. *)
Definition foreign {X} (id tok : string) (s : stmt X) : Prop :=
  (∀ id0 tok0, fence_of s = Some (id0, tok0) → uuid_in id0 = Some id → uuid_in tok0 ≠ Some tok) ∧
  match s with CancelRun id0 => uuid_in id0 ≠ Some id | _ => True end.

(** [r'] is [r], still held by the same claim. *)
Definition still_held (r r' : run) : Prop :=
  state r' = state r ∧ lease_token r' = lease_token r ∧ step_index r' = step_index r ∧
  attempt r' = attempt r ∧ lease_failures r' = lease_failures r ∧
  is_Some (lease_until r') ∧ same_identity r r'.

Section exclusive.
Context (id tok : string) (r : run) (u : Z).
Context (Hs : state r = RunLeased) (Ht : lease_token r = Some tok) (Hu : lease_until r = Some u).

Lemma still_held_same : still_held r r.
Proof. split_and!; try done; by rewrite Hu. Qed.

Lemma still_held_touch t : still_held r (set_updated_at t r).
Proof. split_and!; try done; cbn; by rewrite Hu. Qed.

Lemma update_where_miss P f m :
  m !! id = Some r → P id r = false → update_where P f m !! id = Some r.
Proof. intros Hr HP. rewrite lookup_update_where, Hr. cbn. by rewrite HP. Qed.

Lemma not_picked lk P key n m :
  m !! id = Some r → P id r = false → bool_decide (id ∈ pick lk P key n m) = false.
Proof.
  intros Hr HP. apply bool_decide_eq_false. intros (r' & Hr' & HP' & _)%elem_of_pick. congruence.
Qed.

Lemma fence_miss id0 tok0 e :
  (id0 = id → tok0 ≠ tok) → fence id0 tok0 e id r = false.
Proof.
  intros Hne. destruct (fence id0 tok0 e id r) eqn:E; [|done].
  apply fence_spec in E as (<- & _ & Hl & _). rewrite Ht in Hl. injection Hl as ->. by destruct Hne.
Qed.

(** A fenced UPDATE by another claim misses the row. *)
Lemma fenced_update_miss id0 tok0 args f e d :
  (uuid_in id0 = Some id → uuid_in tok0 ≠ Some tok) → workflow_runs d !! id = Some r →
  workflow_runs (fenced_update id0 tok0 args f e d).2 !! id = Some r.
Proof.
  intros Hne Hr. unfold fenced_update. case_match eqn:Hb; [|done..]. destruct a as [id1 tok1].
  invert_outcome.
  match goal with Hf : bind_fence _ _ = _ |- _ => apply bind_fence_Ok in Hf as [Hi Hk] end.
  cbn in Hi, Hk.
  apply update_where_miss; [done|]. apply fence_miss. intros -> ->. by apply Hne.
Qed.

Lemma foreign_keeps_row {X} (s : stmt X) e d :
  workflow_runs d !! id = Some r → foreign id tok s → statement_timestamp e <= u →
  ∃ r', workflow_runs (exec s e d).2 !! id = Some r' ∧ still_held r r'.
Proof.
  intros Hr [Hfence Hcancel] Htime.
  assert (∃ r', workflow_runs d !! id = Some r' ∧ still_held r r') as Hsame
    by (eexists; split; [done|apply still_held_same]).
  assert (∀ m : gmap string run, m !! id = Some r → ∃ r', m !! id = Some r' ∧ still_held r r')
    as Hmiss by (intros m Hm; exists r; split; [done|apply still_held_same]).
  assert (∀ pred q limit ttl, workflow_runs (claim pred q limit ttl e d).2 !! id = Some r) as Hcl.
  { intros. apply update_where_miss; [done|]. apply not_picked; [done|].
    unfold claimable. rewrite Hs. by destruct (bool_decide (queue r = _)). }
  destruct s; cbn [exec snd fence_of] in *; try done.
  - unfold insertRun. case_match; [|done..]. destruct a as [[[[[[? ?] ?] ?] ?] ?] ?].
    case_match; [done|]. case_match; [case_match; [done|]|destruct p].
    + cbn. apply Hmiss. rewrite lookup_insert_ne; [done|congruence].
    + cbn. rewrite lookup_update_where, Hr. cbn. eexists. split; [done|].
      case_bool_decide; [apply still_held_touch|apply still_held_same].
  - unfold emitEvent. case_match; [|done..]. destruct a. apply Hmiss.
    apply update_where_miss; [done|]. unfold waiting_on. by rewrite Hs.
  - unfold claimSingle. case_match; [|done..]. destruct a as [[? ?] ?]. by apply Hmiss.
  - unfold claimMulti. case_match; [|done..]. destruct a as [[? ?] ?]. by apply Hmiss.
  - unfold renewLeases. case_match; [|done..]. cbn. rewrite lookup_update_where, Hr. cbn.
    eexists. split; [done|]. case_match; [|apply still_held_same]. by split_and!.
  - unfold commitStep. case_match eqn:Hb; [|done..]. destruct a as [[[? ?] ?] ?]. invert_outcome.
    destruct x as [? ?]. invert_outcome. simplify_eq.
    case_match; [done|]. case_match; [|done..]. apply Hmiss. apply update_where_miss; [done|].
    rewrite fence_miss; [done|]. intros -> ->.
    match goal with Hf : bind_fence _ _ = _ |- _ => apply bind_fence_Ok in Hf as [Hi Hk] end.
    by eapply Hfence.
  - unfold completeRun. case_match; [|done..]. apply Hmiss, fenced_update_miss; [|done]. eauto.
  - apply Hmiss, fenced_update_miss; [|done]. eauto.
  - unfold latestEvent. by case_match.
  - apply Hmiss, fenced_update_miss; [|done]. eauto.
  - apply Hmiss, fenced_update_miss; [|done]. eauto.
  - apply Hmiss, update_where_miss; [done|]. apply not_picked; [done|].
    unfold expired. rewrite Hs, Hu. cbn. by apply Z.ltb_ge.
  - apply Hmiss, update_where_miss; [done|]. apply not_picked; [done|].
    unfold timed_out. by rewrite Hs.
  - unfold cancelRun. case_match eqn:Hb; [|done..]. apply Hmiss, update_where_miss; [done|].
    apply bind_uuid_Ok in Hb. unfold cancellable. rewrite bool_decide_eq_false_2; [done|].
    intros <-. done.
Qed.
End exclusive.

Lemma foreign_keeps_checkpoints {X} (s : stmt X) e d id tok r u i :
  workflow_runs d !! id = Some r → state r = RunLeased → lease_token r = Some tok →
  lease_until r = Some u → foreign id tok s → statement_timestamp e <= u →
  step_checkpoints (exec s e d).2 !! (id, i) = step_checkpoints d !! (id, i).
Proof.
  intros Hr Hs Ht Hu Hf Htime.
  destruct (foreign_keeps_row id tok r u Hs Ht Hu s e d Hr Hf Htime) as (r1 & Hr1 & Hheld).
  destruct (step_checkpoints d !! (id, i)) as [v|] eqn:E.
  { eapply lookup_weaken; [done|apply exec_checkpoints_mono]. }
  destruct (step_checkpoints (exec s e d).2 !! (id, i)) as [v|] eqn:E'; [|done].
  destruct (exec_new_checkpoint s e d id i v E E') as (r2 & Hr2 & [[Hw _]|(_ & Hle & r3 & Hr3 & H3)]).
  - congruence.
  - destruct Hheld as (_ & _ & Hi & _). simplify_eq. lia.
Qed.

(** C22: while a lease has not expired its holder is alone: whatever any other
    worker, emitter or maintenance loop executes - claims, recoveries, promotions,
    renewals, writes under other tokens - the run stays leased under the same token
    with the same cursor and counters, and none of its checkpoints appears or
    changes.  Only a cancellation of the run, excluded here, breaks in. *)
Theorem lease_is_exclusive {X} (s : stmt X) e d id tok r u :
  workflow_runs d !! id = Some r → state r = RunLeased → lease_token r = Some tok →
  lease_until r = Some u → statement_timestamp e <= u → foreign id tok s →
  (∃ r', workflow_runs (exec s e d).2 !! id = Some r' ∧
     state r' = RunLeased ∧ lease_token r' = Some tok ∧ step_index r' = step_index r ∧
     attempt r' = attempt r ∧ lease_failures r' = lease_failures r ∧ same_identity r r') ∧
  (∀ i, step_checkpoints (exec s e d).2 !! (id, i) = step_checkpoints d !! (id, i)).
Proof.
  intros Hr Hs Ht Hu Htime Hf. split.
  - destruct (foreign_keeps_row id tok r u Hs Ht Hu s e d Hr Hf Htime)
      as (r' & Hr' & H1 & H2 & H3 & H4 & H5 & _ & H7).
    exists r'. rewrite H1, H2. by split_and!.
  - intros i. by eapply foreign_keeps_checkpoints.
Qed.

(** ** Recovery *)

(** What [recoverLeases] makes of an expired run. *)
Record recovered (e : env) (k : string) (r r' : run) : Prop := {
  rv_state : state r' = if max_attempts r <=? lease_failures r + 1 then RunFailed else RunReady;
  rv_failures : lease_failures r' = lease_failures r + 1;
  rv_due : next_run_at r' =
    clock_timestamp_set e k + interval_ms (Z.min 60000 (250 * 2 ^ Z.min (lease_failures r) 8));
  rv_token : lease_token r' = None;
  rv_until : lease_until r' = None;
  rv_error : last_error r' = Some lease_expired_text;
  rv_cursor : step_index r' = step_index r;
  rv_attempt : attempt r' = attempt r;
}.

Lemma expired_spec e k r :
  expired e k r = true ↔
  state r = RunLeased ∧ ∃ u, lease_until r = Some u ∧ u < statement_timestamp e.
Proof.
  unfold expired. rewrite andb_true_iff, bool_decide_eq_true.
  destruct (lease_until r) as [u|]; [rewrite Z.ltb_lt|]; naive_solver.
Qed.

(** C29: recovery takes at most one batch of expired leases and frees each: its run
    becomes ready after the backoff for its count of lost leases, or failed when
    that count reaches the limit; the cursor and the attempts of failed steps are
    untouched.  No other run changes - in particular none with a valid lease - and
    unless the batch is full no expired, unlocked lease is left. *)
Theorem recovery_frees_expired e d :
  map_Forall (λ _ r, 0 <= lease_failures r) (workflow_runs d) →
  ∃ ids d', exec RecoverLeases e d = (Ok (Z.of_nat (length ids)), d') ∧
    NoDup ids ∧ Z.of_nat (length ids) <= maintenanceBatch ∧
    (∀ k, k ∈ ids → ∃ r r' u, workflow_runs d !! k = Some r ∧ workflow_runs d' !! k = Some r' ∧
       state r = RunLeased ∧ lease_until r = Some u ∧ u < statement_timestamp e ∧
       recovered e k r r') ∧
    (∀ k, k ∉ ids → workflow_runs d' !! k = workflow_runs d !! k) ∧
    (Z.of_nat (length ids) < maintenanceBatch → ∀ k r u, workflow_runs d !! k = Some r →
       state r = RunLeased → lease_until r = Some u → u < statement_timestamp e →
       k ∉ locked_runs e → k ∈ ids) ∧
    step_checkpoints d' = step_checkpoints d ∧ event_log d' = event_log d.
Proof.
  intros Hlf. cbn [exec]. unfold recoverLeases. set (ids := pick _ _ _ _ _).
  eexists ids, _. split; [done|]. split_and!; try done.
  - apply NoDup_pick.
  - apply length_pick_le. done.
  - intros k Hk. apply elem_of_pick in Hk as Hk'. destruct Hk' as (r & Hr & Hx & _).
    apply expired_spec in Hx as (Hs & u & Hu & Hlt). eexists r, _, u. split_and!; try done.
    + cbn. rewrite lookup_update_where, Hr. cbn. by rewrite bool_decide_eq_true_2.
    + split; cbn; try done. unfold recovery_backoff_ms. do 3 f_equal.
      rewrite Z.shiftl_1_l. done.
  - intros k Hk. cbn. rewrite lookup_update_where. destruct (workflow_runs d !! k); [|done]. cbn.
    by rewrite bool_decide_eq_false_2.
  - intros Hlt k r u Hr Hs Hu Ht Hlk. eapply pick_all; [done..|by apply expired_spec; eauto|done].
Qed.

(** ** Enqueueing *)

(** The two ways an insertion succeeds. *)
Lemma insertRun_Ok id name version q max_att scheduled input dedup channel e d rid n d' :
  insertRun id name version q max_att scheduled input dedup channel e d = (Ok (rid, n), d') →
  (∃ r, workflow_runs d !! rid = Some r ∧ dedup_conflict name dedup rid r = true ∧ n = 0 ∧
     d' = set_runs (update_where (λ k _, bool_decide (k = rid))
            (λ _ r, set_updated_at (now e) r) (workflow_runs d)) d) ∨
  (∃ v, uuid_in id = Some rid ∧ jsonb_in input = Some v ∧ 0 < version ∧ 0 < max_att ∧
     workflow_runs d !! rid = None ∧
     (∀ k r, workflow_runs d !! k = Some r → dedup_conflict name dedup k r = false) ∧
     let r := new_run name version q max_att scheduled v dedup e in
     n = (if next_run_at r <=? now e then 1 else 0) ∧
     d' = notify channel (if next_run_at r <=? now e then [q] else [])
            (set_runs (<[rid := r]> (workflow_runs d)) d)).
Proof.
  unfold insertRun. case_match eqn:Hb; [|done..].
  destruct a as [[[[[[i nm] ver] q'] ma] inp] dd]. intros Hx. bound_params.
  destruct ((version <=? 0) || (max_att <=? 0)) eqn:Hg; [done|].
  apply orb_false_iff in Hg as [? ?]. bool_to_prop.
  destruct (map_to_list _) as [|[k r] l] eqn:Hl.
  - destruct (workflow_runs d !! i) eqn:Hi; [done|]. injection Hx as <- <- <-. right.
    eexists. split_and!; try done. intros k r Hk.
    apply map_to_list_empty_iff in Hl. by apply affected_empty with (m := workflow_runs d).
  - injection Hx as <- <- <-. left. exists r.
    assert ((k, r) ∈ map_to_list (affected (dedup_conflict name dedup) (workflow_runs d))) as Hin
      by (rewrite Hl; by left).
    apply elem_of_map_to_list, lookup_affected in Hin as [? ?]. by split_and!.
Qed.

Lemma rtc_row_identity d d' k r :
  rtc db_step d d' → workflow_runs d !! k = Some r →
  ∃ r', workflow_runs d' !! k = Some r' ∧ same_identity r r'.
Proof.
  intros Hr. revert r. induction Hr as [d|d d1 d2 (X & s & e & ->) Hr IH]; intros r Hk.
  { exists r. split; [done|]. by split_and!. }
  destruct (exec_row_change s e d k r Hk) as (r1 & Hr1 & Hc).
  destruct (IH _ Hr1) as (r2 & Hr2 & Hi). exists r2. split; [done|].
  apply row_change_identity in Hc. unfold same_identity in *. destruct_and!.
  split_and!; congruence.
Qed.

Lemma rtc_wf d d' : rtc db_step d d' → db_wf d → db_wf d'.
Proof. induction 1 as [|d d1 d2 (X & s & e & ->) Hr IH]; [done|]. intros. by apply IH, exec_wf. Qed.

Lemma dedup_conflict_spec name key k r :
  dedup_conflict name (Some key) k r = true ↔ workflow_name r = name ∧ dedup_key r = Some key.
Proof. cbn. by rewrite andb_true_iff, !bool_decide_eq_true. Qed.

(** C30: enqueueing is idempotent for a workflow name and deduplication key: once a
    call has succeeded, every later successful call - whatever ran in between, and
    whatever its version, queue, schedule or input - answers the same run, creates
    nothing, sends no notification and leaves the run's state alone. *)
Theorem enqueue_is_idempotent id1 v1 q1 m1 at1 in1 ch1 e1 n1
    id2 v2 q2 m2 at2 in2 ch2 e2 n2 name key d d1 d2 d3 rid rid2 :
  db_wf d →
  exec (InsertRun id1 name v1 q1 m1 at1 in1 (Some key) ch1) e1 d = (Ok (rid, n1), d1) →
  rtc db_step d1 d2 →
  exec (InsertRun id2 name v2 q2 m2 at2 in2 (Some key) ch2) e2 d2 = (Ok (rid2, n2), d3) →
  rid2 = rid ∧ n2 = 0 ∧ notifications d3 = notifications d2 ∧
  ∃ r, workflow_runs d2 !! rid = Some r ∧
    workflow_runs d3 = <[rid := set_updated_at (now e2) r]> (workflow_runs d2).
Proof.
  cbn [exec]. intros Hwf H1 Hr H2.
  assert (∃ r, workflow_runs d1 !! rid = Some r ∧ workflow_name r = name ∧ dedup_key r = Some key)
    as (r1 & Hr1 & Hn1 & Hk1).
  { apply insertRun_Ok in H1 as [(r & Hr1 & [? ?]%dedup_conflict_spec & _ & ->)
      |(v & _ & _ & _ & _ & _ & _ & _ & ->)].
    - cbn. rewrite lookup_update_where, Hr1. cbn. rewrite bool_decide_eq_true_2 by done.
      by eexists.
    - cbn. rewrite lookup_insert_eq. by eexists. }
  assert (db_wf d2) as Hwf2.
  { eapply rtc_wf; [done|]. change d1 with (Ok (rid, n1), d1).2. rewrite <-H1.
    by apply (exec_wf (InsertRun id1 name v1 q1 m1 at1 in1 (Some key) ch1)). }
  destruct (rtc_row_identity _ _ _ _ Hr Hr1) as (r2 & Hr2 & Hn2 & _ & _ & _ & _ & Hk2 & _).
  apply insertRun_Ok in H2 as [(r & Hr' & [? ?]%dedup_conflict_spec & -> & ->)
    |(v & _ & _ & _ & _ & _ & Hno & _)].
  - assert (rid2 = rid) as -> by (apply (dw_dedup _ Hwf2 rid2 rid r r2 key); congruence).
    split_and!; try done. exists r. split; [done|]. cbn.
    apply (update_where_single _ (λ _ r, set_updated_at (now e2) r)); [|done|].
    + intros k ? Hk. by apply bool_decide_eq_true in Hk.
    + by apply bool_decide_eq_true.
  - pose proof (Hno _ _ Hr2) as Hf.
    assert (dedup_conflict name (Some key) rid r2 = true) as Ht
      by (apply dedup_conflict_spec; split; congruence). congruence.
Qed.

(** A successful insertion either answers an existing run of the same name and
    key, or creates the run it was asked for: ready, at the start, due when
    scheduled (now by default), with its queue notified exactly when it is due. *)
Theorem enqueue_creates_ready_run id name version q max_att scheduled input dedup channel e d
    rid n d' :
  exec (InsertRun id name version q max_att scheduled input dedup channel) e d =
    (Ok (rid, n), d') →
  workflow_runs d !! rid = None →
  ∃ r, workflow_runs d' = <[rid := r]> (workflow_runs d) ∧ uuid_in id = Some rid ∧
    jsonb_in input = Some (input_json r) ∧
    state r = RunReady ∧ step_index r = 0 ∧ attempt r = 0 ∧ lease_failures r = 0 ∧
    workflow_name r = name ∧ workflow_version r = version ∧ queue r = q ∧
    max_attempts r = max_att ∧ dedup_key r = dedup ∧ next_run_at r = default (now e) scheduled ∧
    notifications d' = notifications d ++
      (if next_run_at r <=? now e then [(channel, q)] else []) ∧
    step_checkpoints d' = step_checkpoints d ∧ event_log d' = event_log d.
Proof.
  cbn [exec]. intros H1 Hnone.
  apply insertRun_Ok in H1 as [(r & Hr1 & _)|(v & Hid & Hv & Hver & Hmax & _ & _ & _ & ->)];
    [congruence|].
  eexists. split; [done|]. split_and!; try done. cbn.
  by destruct (default (now e) scheduled <=? now e).
Qed.
End claims.
