(* ===== verification/Events.v ===== *)
(** * Events: emission, lookup, timeouts, retention and cancellation

    What [emitEvent] and [promoteTimedOut] do to waiting runs, which event
    [latestEvent] finds, which events [pruneEvents] may delete, and what
    [cancelRun] does. *)

From S2P Require Import Prelude GoText Json Types Postgres Queries Store Statements Claims.
#[local] Open Scope sql_scope.

(** The outcome that is recorded for a run woken at its cursor: an existing one wins. *)
Definition delivered (v : list ascii) (d : db) (k : string) (r : run) : list ascii :=
  default v (step_checkpoints d !! (k, step_index r)).

(** A woken run: ready and due at once, no longer waiting, its cursor unmoved. *)
Record woken_row (e : env) (r r' : run) : Prop := {
  wk_ready : state r' = RunReady;
  wk_due : next_run_at r' = now e;
  wk_key : waiting_event_key r' = None;
  wk_deadline : waiting_deadline r' = None;
  wk_cursor : step_index r' = step_index r;
  wk_attempt : attempt r' = attempt r;
  wk_failures : lease_failures r' = lease_failures r;
}.

Lemma elem_of_distinct_queues q m :
  q ∈ distinct_queues m ↔ ∃ k r, m !! k = Some r ∧ queue r = q.
Proof.
  unfold distinct_queues. rewrite elem_of_elements, elem_of_list_to_set, list_elem_of_fmap. split.
  - intros (r & -> & ([k r'] & -> & H%elem_of_map_to_list)%list_elem_of_fmap). eauto.
  - intros (k & r & H & <-). exists r. split; [done|]. apply list_elem_of_fmap.
    exists (k, r). split; [done|]. by apply elem_of_map_to_list.
Qed.

(** Recording one outcome at the cursor of every row of [m]. *)
Lemma recorded_hit v (m : gmap string run) d k r :
  m !! k = Some r →
  insert_new (checkpoints_at_cursor v m) (step_checkpoints d) !! (k, step_index r) =
    Some (delivered v d k r).
Proof.
  intros Hr. rewrite lookup_insert_new, lookup_checkpoints_at_cursor, Hr, bool_decide_eq_true_2
    by done. unfold delivered. by destruct (step_checkpoints d !! (k, step_index r)).
Qed.

Lemma recorded_other v (m : gmap string run) d k i :
  match m !! k with Some r => step_index r ≠ i | None => True end →
  insert_new (checkpoints_at_cursor v m) (step_checkpoints d) !! (k, i) =
    step_checkpoints d !! (k, i).
Proof.
  intros Hm. rewrite lookup_insert_new, lookup_checkpoints_at_cursor.
  destruct (step_checkpoints d !! (k, i)); [done|]. destruct (m !! k); [|done].
  by rewrite bool_decide_eq_false_2.
Qed.

Section events.
Context `{Postgres}.

(** ** Emission *)

Lemma emitEvent_Ok key payload v ttl ch e d :
  storable (s2b key) = true → jsonb_in payload = Some v →
  let woken := affected (waiting_on key e) (workflow_runs d) in
  let d' := (emitEvent key payload ttl ch e d).2 in
  (emitEvent key payload ttl ch e d).1 =
    Ok (Z.of_nat (size woken), Z.of_nat (length (distinct_queues woken))) ∧
  (∀ k, workflow_runs d' !! k =
    (λ r, if waiting_on key e k r then
            r ▷ set_state RunReady ▷ set_next_run_at (now e) ▷ set_waiting_event_key None
              ▷ set_waiting_deadline None ▷ set_last_error None ▷ set_updated_at (now e)
          else r) <$> workflow_runs d !! k) ∧
  step_checkpoints d' =
    insert_new (checkpoints_at_cursor (jsonb_build_received v) woken) (step_checkpoints d) ∧
  event_log d' = <[next_event_id d := {| event_key := key; payload_json := v;
    ev_created_at := now e; expires_at := now e + interval_ms ttl |}]> (event_log d) ∧
  notifications d' = notifications d ++ (pair ch <$> distinct_queues woken).
Proof.
  intros Hk Hv. unfold emitEvent. rewrite (proj2 (bind_text_Ok key key)) by done. cbn.
  rewrite (proj2 (bind_jsonb_Ok _ _) Hv). cbn. split_and!; try done.
  intros k. by rewrite lookup_update_where.
Qed.

(** Emitting an event records it and wakes exactly the runs that wait for its
    key and whose deadline has not passed.  Each woken run becomes ready and due with
    the payload recorded at its cursor - the run resumes there - its queue is
    notified, and the answer counts them; every other run keeps its row and its
    checkpoints. *)
Theorem emit_wakes_waiters key payload v ttl ch e d :
  storable (s2b key) = true → jsonb_in payload = Some v →
  ∃ n q d', exec (EmitEvent_ key payload ttl ch) e d = (Ok (n, q), d') ∧
    n = Z.of_nat (size (affected (waiting_on key e) (workflow_runs d))) ∧
    event_log d' = <[next_event_id d := {| event_key := key; payload_json := v;
      ev_created_at := now e; expires_at := now e + interval_ms ttl |}]> (event_log d) ∧
    ∀ k r, workflow_runs d !! k = Some r →
      (state r = RunWaitingEvent ∧ waiting_event_key r = Some key ∧
         (∃ t, waiting_deadline r = Some t ∧ now e < t) ∧
         (∃ r', workflow_runs d' !! k = Some r' ∧ woken_row e r r' ∧ last_error r' = None) ∧
         step_checkpoints d' !! (k, step_index r) =
           Some (delivered (jsonb_build_received v) d k r) ∧
         (∀ i, i ≠ step_index r →
            step_checkpoints d' !! (k, i) = step_checkpoints d !! (k, i)) ∧
         (ch, queue r) ∈ notifications d') ∨
      (¬ (state r = RunWaitingEvent ∧ waiting_event_key r = Some key ∧
          ∃ t, waiting_deadline r = Some t ∧ now e < t) ∧
       workflow_runs d' !! k = Some r ∧
       ∀ i, step_checkpoints d' !! (k, i) = step_checkpoints d !! (k, i)).
Proof.
  intros Hk Hv. cbn [exec].
  destruct (emitEvent_Ok key payload v ttl ch e d Hk Hv) as (Ho & Hruns & Hcps & Hev & Hnot).
  destruct (emitEvent key payload ttl ch e d) as [o d'] eqn:E. cbn in *. subst o.
  eexists _, _, _. split; [done|]. split; [done|]. split; [done|].
  intros k r Hr. rewrite Hcps. specialize (Hruns k). rewrite Hr in Hruns. cbn in Hruns.
  destruct (waiting_on key e k r) eqn:Hw.
  - left. assert (affected (waiting_on key e) (workflow_runs d) !! k = Some r) as Ha
      by by apply lookup_affected.
    apply waiting_on_spec in Hw as (Hs & Hkey & Ht). split_and!; try done.
    + eexists. split; [done|]. by split.
    + by apply recorded_hit.
    + intros i Hi. apply recorded_other. by rewrite Ha.
    + rewrite Hnot, elem_of_app. right. apply list_elem_of_fmap. exists (queue r).
      split; [done|]. apply elem_of_distinct_queues. eauto.
  - right. split_and!; [|done|].
    + rewrite <-(waiting_on_spec key e k). by rewrite Hw.
    + intros i. apply recorded_other.
      destruct (affected _ _ !! k) as [r'|] eqn:Ha; [|done].
      apply lookup_affected in Ha as [? ?]. congruence.
Qed.

(** ** Timeouts *)

Lemma timed_out_spec e k r :
  timed_out e k r = true ↔
  state r = RunWaitingEvent ∧ ∃ t, waiting_deadline r = Some t ∧ t <= statement_timestamp e.
Proof.
  unfold timed_out. rewrite andb_true_iff, bool_decide_eq_true.
  destruct (waiting_deadline r) as [u|]; [rewrite Z.leb_le|]; naive_solver.
Qed.

(** Promotion takes at most one batch of waits whose deadline has passed and
    resumes each with the outcome ["timed_out"] recorded at its cursor, its queue
    notified; no wait is promoted before its deadline, unless the batch is full no
    expired, unlocked wait is left, and every other run is untouched. *)
Theorem timeout_promotes_expired_waits ch e d :
  ∃ ids q d', exec (PromoteTimedOut ch) e d = (Ok (Z.of_nat (length ids), q), d') ∧
    NoDup ids ∧ Z.of_nat (length ids) <= maintenanceBatch ∧
    (∀ k, k ∈ ids → ∃ r r' t, workflow_runs d !! k = Some r ∧ workflow_runs d' !! k = Some r' ∧
       state r = RunWaitingEvent ∧ waiting_deadline r = Some t ∧ t <= statement_timestamp e ∧
       woken_row e r r' ∧
       step_checkpoints d' !! (k, step_index r) = Some (delivered timed_out_text d k r) ∧
       (∀ i, i ≠ step_index r → step_checkpoints d' !! (k, i) = step_checkpoints d !! (k, i)) ∧
       (ch, queue r) ∈ notifications d') ∧
    (∀ k, k ∉ ids → workflow_runs d' !! k = workflow_runs d !! k ∧
       ∀ i, step_checkpoints d' !! (k, i) = step_checkpoints d !! (k, i)) ∧
    (Z.of_nat (length ids) < maintenanceBatch → ∀ k r t, workflow_runs d !! k = Some r →
       state r = RunWaitingEvent → waiting_deadline r = Some t → t <= statement_timestamp e →
       k ∉ locked_runs e → k ∈ ids) ∧
    event_log d' = event_log d.
Proof.
  cbn [exec]. unfold promoteTimedOut. set (ids := pick _ _ _ _ _).
  set (P := λ (k : string) (_ : run), bool_decide (k ∈ ids)).
  assert (∀ k r, affected P (workflow_runs d) !! k = Some r ↔
    workflow_runs d !! k = Some r ∧ k ∈ ids) as Haff.
  { intros k r. rewrite lookup_affected. unfold P. by rewrite bool_decide_eq_true. }
  assert (size (affected P (workflow_runs d)) = length ids) as Hsize by apply size_affected_picked.
  eexists ids, _, _. rewrite Hsize. split; [done|]. split_and!; try done.
  - apply NoDup_pick.
  - by apply length_pick_le.
  - intros k Hk. apply elem_of_pick in Hk as Hk'. destruct Hk' as (r & Hr & Hx & _).
    apply timed_out_spec in Hx as (Hs & t & Ht & Hle).
    assert (affected P (workflow_runs d) !! k = Some r) as Ha by by apply Haff.
    eexists r, _, t. split_and!; try done.
    + cbn. rewrite lookup_update_where, Hr. unfold P. cbn. by rewrite bool_decide_eq_true_2.
    + by split.
    + by apply recorded_hit.
    + intros i Hi. apply recorded_other. by rewrite Ha.
    + cbn. rewrite elem_of_app. right. apply list_elem_of_fmap. exists (queue r).
      split; [done|]. apply elem_of_distinct_queues. eauto.
  - intros k Hk. split.
    + cbn. rewrite lookup_update_where. destruct (workflow_runs d !! k); [|done]. unfold P. cbn.
      by rewrite bool_decide_eq_false_2.
    + intros i. apply recorded_other. destruct (affected P _ !! k) eqn:Ha; [|done].
      by apply Haff in Ha as [_ ?].
  - intros Hlt k r t Hr Hs Ht Hle Hlk.
    eapply pick_all; [done..|by apply timed_out_spec; eauto|done].
Qed.

(** ** Lookup *)

(** [(created_at, id)] in lexicographic order. *)
Definition older_or_same (a b : Z * event) : Prop :=
  ev_created_at a.2 < ev_created_at b.2 ∨
  (ev_created_at a.2 = ev_created_at b.2 ∧ a.1 <= b.1).

Lemma newer_spec a b : newer a b = false → older_or_same a b.
Proof.
  unfold newer, older_or_same. rewrite orb_false_iff. intros [H1 H2]. apply Z.ltb_ge in H1.
  destruct (ev_created_at b.2 =? ev_created_at a.2) eqn:E; bool_to_prop; cbn in H2; bool_to_prop; lia.
Qed.

Lemma newer_true a b : newer a b = true → older_or_same b a.
Proof.
  unfold newer, older_or_same. rewrite orb_true_iff, andb_true_iff.
  intros [?|[? ?]]; bool_to_prop; lia.
Qed.

Lemma newest_spec l :
  match newest l with
  | Some x => x ∈ l ∧ ∀ y, y ∈ l → older_or_same y x
  | None => l = []
  end.
Proof.
  induction l as [|x l IH]; [done|]. cbn [newest foldr]. fold (newest l).
  destruct (newest l) as [y|].
  - destruct IH as [Hy Hmax]. destruct (newer y x) eqn:E.
    + split; [by right|]. intros z [->|Hz]%elem_of_cons; [by apply newer_true|by apply Hmax].
    + apply newer_spec in E. split; [by left|]. intros z [->|Hz]%elem_of_cons.
      * right. lia.
      * apply Hmax in Hz. unfold older_or_same in *. lia.
  - subst l. split; [by left|]. intros z Hz. apply list_elem_of_singleton in Hz as ->.
    right. lia.
Qed.

(** The event that a lookup must find. *)
Definition newest_live (key : string) (e : env) (d : db) (i : Z) (ev : event) : Prop :=
  event_log d !! i = Some ev ∧ live_event key e ev = true ∧
  ∀ j ev', event_log d !! j = Some ev' → live_event key e ev' = true →
    older_or_same (j, ev') (i, ev).

Lemma newest_live_unique key e d i j ev ev' :
  newest_live key e d i ev → newest_live key e d j ev' → i = j ∧ ev = ev'.
Proof.
  intros (H1 & L1 & M1) (H2 & L2 & M2). pose proof (M1 _ _ H2 L2) as A.
  pose proof (M2 _ _ H1 L1) as B. unfold older_or_same in *. cbn in *.
  assert (i = j) as -> by lia. split; congruence.
Qed.

Lemma latestEvent_spec key e d :
  storable (s2b key) = true →
  (∃ i ev, newest_live key e d i ev ∧
     latestEvent key e d = (Ok (Some (payload_json ev)), d)) ∨
  ((∀ i ev, event_log d !! i = Some ev → live_event key e ev = false) ∧
     latestEvent key e d = (Ok None, d)).
Proof.
  intros Hk. unfold latestEvent. rewrite (proj2 (bind_text_Ok key key)) by done.
  set (live := filter _ _). pose proof (newest_spec live) as Hn.
  assert (∀ i ev, (i, ev) ∈ live ↔ event_log d !! i = Some ev ∧ live_event key e ev = true)
    as Hlive.
  { intros i ev. unfold live. rewrite list_elem_of_filter, elem_of_map_to_list. cbn.
    rewrite Is_true_true. tauto. }
  destruct (newest live) as [[i ev]|]; [left|right].
  - destruct Hn as [[Hev Hl]%Hlive Hmax]. exists i, ev. split; [|done]. split_and!; [done..|].
    intros j ev' Hj Hl'. by apply Hmax, Hlive.
  - split; [|done]. intros i ev Hi. destruct (live_event key e ev) eqn:E; [|done].
    assert ((i, ev) ∈ live) as Hin by by apply Hlive. rewrite Hn in Hin. by apply elem_of_nil in Hin.
Qed.

(** A wait's lookup finds the most recently created unexpired event of its key
    (ties by id), and finds none only when there is none. *)
Theorem latest_event_is_newest key e d :
  storable (s2b key) = true →
  (exec (LatestEvent key) e d).2 = d ∧
  match (exec (LatestEvent key) e d).1 with
  | Ok (Some p) => ∃ i ev, event_log d !! i = Some ev ∧ payload_json ev = p ∧
      event_key ev = key ∧ now e < expires_at ev ∧
      ∀ j ev', event_log d !! j = Some ev' → event_key ev' = key → now e < expires_at ev' →
        older_or_same (j, ev') (i, ev)
  | Ok None => ∀ i ev, event_log d !! i = Some ev → event_key ev = key → expires_at ev <= now e
  | _ => False
  end.
Proof.
  intros Hk. cbn [exec].
  assert (∀ ev, live_event key e ev = true ↔ event_key ev = key ∧ now e < expires_at ev) as Hl.
  { intros ev. unfold live_event. by rewrite andb_true_iff, bool_decide_eq_true, Z.ltb_lt. }
  destruct (latestEvent_spec key e d Hk) as [(i & ev & (Hi & [? ?]%Hl & Hmax) & ->)|[Hno ->]]; cbn.
  - split; [done|]. exists i, ev. split_and!; [done..|]. intros j ev' Hj ? ?. by apply Hmax, Hl.
  - split; [done|]. intros i ev Hi Hev. apply Hno in Hi. destruct (Z.le_gt_cases (expires_at ev) (now e));
      [done|]. by rewrite (proj2 (Hl ev)) in Hi.
Qed.

(** ** Retention *)

Lemma pruned_expired e d i :
  i ∈ (take (Z.to_nat pruneBatch) (merge_sort event_le (prunable e d))).*2 →
  ∃ ev, event_log d !! i = Some ev ∧ expires_at ev <= statement_timestamp e ∧
    i ∉ locked_events e.
Proof.
  intros ([z j] & -> & Hin)%list_elem_of_fmap. cbn.
  apply elem_of_take in Hin as (n & Hin & _). apply list_elem_of_lookup_2 in Hin.
  rewrite merge_sort_Permutation in Hin. unfold prunable in Hin.
  apply list_elem_of_fmap in Hin as ([j' ev] & [= -> ->] & Hin%elem_of_map_to_list).
  apply map_lookup_filter_Some in Hin as (? & ? & ?). by exists ev.
Qed.

(** Retention is invisible: deleting a batch of expired events changes neither
    runs nor checkpoints, and no later lookup, for any key, answers differently. *)
Theorem pruning_is_invisible key e e' d :
  statement_timestamp e <= now e' → storable (s2b key) = true →
  let d' := (exec PruneEvents e d).2 in
  workflow_runs d' = workflow_runs d ∧ step_checkpoints d' = step_checkpoints d ∧
  (exec (LatestEvent key) e' d').1 = (exec (LatestEvent key) e' d).1.
Proof.
  intros Htime Hk d'. split; [done|]. split; [done|]. cbn [exec].
  assert (∀ i ev, live_event key e' ev = true →
    event_log d' !! i = Some ev ↔ event_log d !! i = Some ev) as Hsame.
  { intros i ev Hl. cbn. rewrite map_lookup_filter_Some. cbn. split; [by intros [? _]|].
    intros Hi. split; [done|]. intros (ev' & ? & Hle & _)%pruned_expired. simplify_eq.
    unfold live_event in Hl. bool_to_prop. lia. }
  destruct (latestEvent_spec key e' d' Hk) as [(i & ev & (Hi & Hl & Hm) & ->)|[Hno ->]],
    (latestEvent_spec key e' d Hk) as [(j & ev' & Hn' & ->)|[Hno' ->]]; cbn; try done.
  - assert (newest_live key e' d i ev) as Hn.
    { split_and!; [by apply Hsame|done|]. intros k ev0 Hk0 Hl0. by apply Hm; [apply Hsame|]. }
    by destruct (newest_live_unique _ _ _ _ _ _ _ Hn Hn') as [_ ->].
  - apply Hsame in Hi; [|done]. apply Hno' in Hi. congruence.
  - destruct Hn' as (Hj & Hl & _). apply Hsame, Hno in Hj; [|done]. congruence.
Qed.

(** ** Cancellation *)

Lemma cancellable_spec id k r :
  cancellable id k r = true ↔ k = id ∧ Terminal (state r) = false.
Proof.
  unfold cancellable, Terminal. rewrite andb_true_iff, bool_decide_eq_true.
  destruct (state r); cbn; naive_solver.
Qed.

Lemma cancelRun_spec id e d :
  uuid_in id = Some id →
  cancelRun id e d =
    match workflow_runs d !! id with
    | Some r =>
      if Terminal (state r) then (Ok 0, d)
      else (Ok 1, set_runs (<[id := r ▷ set_state RunCancelled ▷ set_lease_token None
                     ▷ set_lease_until None ▷ set_waiting_event_key None
                     ▷ set_waiting_deadline None ▷ set_updated_at (now e)]> (workflow_runs d)) d)
    | None => (Ok 0, d)
    end.
Proof.
  intros Hid. unfold cancelRun. rewrite (proj2 (bind_uuid_Ok _ _) Hid).
  assert (∀ k r, cancellable id k r = true → k = id) as Hone by by intros k r [? _]%cancellable_spec.
  rewrite (rows_affected_single _ _ id) by done.
  destruct (workflow_runs d !! id) as [r|] eqn:Hr.
  - destruct (cancellable id id r) eqn:E.
    + apply cancellable_spec in E as E'. destruct E' as [_ ->].
      by rewrite (update_where_single _ _ _ id r).
    + destruct (Terminal (state r)) eqn:T.
      * rewrite update_where_none; [by rewrite set_runs_id|]. apply affected_empty.
        intros k r' Hk. destruct (cancellable id k r') eqn:E'; [|done].
        apply cancellable_spec in E' as [-> ?]. congruence.
      * by rewrite (proj2 (cancellable_spec id id r)) in E.
  - rewrite update_where_none; [by rewrite set_runs_id|]. apply affected_empty.
    intros k r' Hk. destruct (cancellable id k r') eqn:E'; [|done].
    apply cancellable_spec in E' as [-> ?]. congruence.
Qed.
End events.
