(* ===== verification/Inert.v ===== *)
(** * Finished runs are inert

    [beside H C d] is the tables [d] with the runs [H], which are in final states, and
    their checkpoints [C] added.  Whatever a deployment does without them it does beside
    them, with the same answers: what has finished is never claimed, recovered, woken or
    counted, however much of it there is. *)

From S2P Require Import Prelude GoText Json Types Postgres Queries Store.
#[local] Open Scope sql_scope.

Definition beside (H : gmap string run) (C : gmap (string * Z) (list ascii)) (d : db) : db :=
  set_checkpoints (C ∪ step_checkpoints d) (set_runs (H ∪ workflow_runs d) d).

Definition finished (H : gmap string run) : Prop :=
  map_Forall (λ _ r, Terminal (state r) = true) H.

(** [H] and [C] belong together and share nothing with [d]. *)
Record apart (H : gmap string run) (C : gmap (string * Z) (list ascii)) (d : db) : Prop := {
  ap_finished : finished H;
  ap_runs : H ##ₘ workflow_runs d;
  ap_own : ∀ id i v, C !! (id, i) = Some v → is_Some (H !! id);
  ap_free : ∀ id i v, step_checkpoints d !! (id, i) = Some v → H !! id = None;
}.

(** ** Unions *)

Section inert.
Context `{Postgres}.
Context (H1 : gmap string run) (C : gmap (string * Z) (list ascii)) (d : db).
Context (Hap : apart H1 C d).

Lemma beside_lookup id : is_Some (workflow_runs d !! id) → H1 !! id = None.
Proof.
  intros [r Hr]. pose proof (ap_runs _ _ _ Hap) as Hd. rewrite map_disjoint_spec in Hd.
  destruct (H1 !! id) as [r'|] eqn:E; [|done]. by destruct (Hd id r' r).
Qed.

Lemma beside_none id : H1 !! id = None → (H1 ∪ workflow_runs d) !! id = workflow_runs d !! id.
Proof. intros E. by rewrite lookup_union_r. Qed.

(** No row of [H1] satisfies [P]. *)
Definition passes (P : string → run → bool) : Prop := ∀ k r, H1 !! k = Some r → P k r = false.

Lemma passes_live P :
  (∀ k r, P k r = true → Terminal (state r) = false) → passes P.
Proof.
  intros HP k r Hk. destruct (P k r) eqn:E; [|done]. apply HP in E.
  pose proof (ap_finished _ _ _ Hap k r Hk). congruence.
Qed.

Lemma passes_own (l : list string) :
  (∀ k, k ∈ l → is_Some (workflow_runs d !! k)) → passes (λ k _, bool_decide (k ∈ l)).
Proof.
  intros Hl k r Hk. apply bool_decide_eq_false. intros Hin%Hl%beside_lookup. congruence.
Qed.

Lemma affected_beside P :
  passes P → affected P (H1 ∪ workflow_runs d) = affected P (workflow_runs d).
Proof.
  intros HP. apply map_eq. intros k. apply option_eq. intros r. rewrite !lookup_affected.
  destruct (H1 !! k) as [r'|] eqn:E.
  - rewrite (lookup_union_Some_l _ _ _ _ E).
    pose proof (beside_lookup k) as Hn. specialize (HP k r' E).
    split; [intros [[= ->] ?]; congruence|]. intros [Hr _]. rewrite Hn in E by done. done.
  - by rewrite lookup_union_r.
Qed.

Lemma update_beside P f :
  passes P → update_where P f (H1 ∪ workflow_runs d) = H1 ∪ update_where P f (workflow_runs d).
Proof.
  intros HP. apply map_eq. intros k. rewrite lookup_update_where, !lookup_union, lookup_update_where.
  destruct (H1 !! k) as [r'|] eqn:E; [|by rewrite !(left_id_L None _)].
  destruct (workflow_runs d !! k) eqn:E'; cbn; [|by rewrite (HP k r' E)].
  by rewrite beside_lookup in E.
Qed.

Lemma pick_beside lk P key n :
  passes P → pick lk P key n (H1 ∪ workflow_runs d) = pick lk P key n (workflow_runs d).
Proof.
  intros HP. unfold pick, candidates.
  enough (filter (λ kv : string * run, P kv.1 kv.2 ∧ kv.1 ∉ lk) (H1 ∪ workflow_runs d) =
          filter (λ kv : string * run, P kv.1 kv.2 ∧ kv.1 ∉ lk) (workflow_runs d)) as E by by rewrite E.
  apply map_eq. intros k. apply option_eq. intros r.
  rewrite !map_lookup_filter_Some. cbn. destruct (H1 !! k) as [r'|] eqn:E.
  - rewrite (lookup_union_Some_l _ _ _ _ E).
    split; [intros ([= ->] & HPk & _); specialize (HP k _ E); rewrite HP in HPk; done|].
    intros (Hr & _). rewrite beside_lookup in E; done.
  - by rewrite lookup_union_r.
Qed.

Lemma rows_affected_beside P :
  passes P → rows_affected P (H1 ∪ workflow_runs d) = rows_affected P (workflow_runs d).
Proof. intros HP. unfold rows_affected. by rewrite affected_beside. Qed.

Lemma insert_new_beside rows : insert_new rows (C ∪ step_checkpoints d) = C ∪ insert_new rows (step_checkpoints d).
Proof. unfold insert_new. by rewrite map_union_assoc. Qed.

Lemma picked_passes lk P key n :
  passes (λ k _, bool_decide (k ∈ pick lk P key n (workflow_runs d))).
Proof. apply passes_own. intros k (r & Hr & _)%elem_of_pick. by exists r. Qed.

Lemma checkpoints_json_beside id :
  is_Some (workflow_runs d !! id) →
  checkpoints_json id (C ∪ step_checkpoints d) = checkpoints_json id (step_checkpoints d).
Proof.
  intros Hid. unfold checkpoints_json, checkpoints_of.
  enough (filter (λ kv : string * Z * list ascii, kv.1.1 = id) (C ∪ step_checkpoints d) =
          filter (λ kv : string * Z * list ascii, kv.1.1 = id) (step_checkpoints d)) as E
    by by rewrite E.
  apply map_eq. intros [k i].
  apply option_eq. intros v. rewrite !map_lookup_filter_Some. cbn.
  enough (k = id → (C ∪ step_checkpoints d) !! (k, i) = step_checkpoints d !! (k, i)) as E
    by (split; intros [Hv ->]; rewrite E in * by done; done).
  intros ->. apply lookup_union_r. destruct (C !! (id, i)) as [w|] eqn:E; [|done].
  apply (ap_own _ _ _ Hap) in E. rewrite beside_lookup in E by done. by destruct E.
Qed.

(** ** Statements *)

(** The statement names no run of [H1], and enqueues none under its keys. *)
Definition spares {X} (s : stmt X) : Prop :=
  match s with
  | InsertRun id name _ _ _ _ _ dedup _ =>
    (∀ u, uuid_in id = Some u → H1 !! u = None) ∧ passes (dedup_conflict name dedup)
  | RunStatus_ id | RunOutput_ id | RunState_ id => ∀ u, uuid_in id = Some u → H1 !! u = None
  | _ => True
  end.

Lemma fence_passes id token e : passes (fence id token e).
Proof.
  apply (passes_live). intros k r (_ & -> & _)%fence_spec. done.
Qed.

Lemma fenced_update_beside id token args f e :
  fenced_update id token args f e (beside H1 C d) =
  ((fenced_update id token args f e d).1, beside H1 C (fenced_update id token args f e d).2).
Proof.
  unfold fenced_update. destruct (args ≫= _) as [[id' tok]| |]; [|done..]. cbn.
  pose proof (fence_passes id' tok e).
  rewrite (rows_affected_beside) by done. unfold beside, set_runs, set_checkpoints. cbn.
  by rewrite (update_beside).
Qed.

Lemma claim_beside pred q limit ttl e :
  claim pred q limit ttl e (beside H1 C d) =
  ((claim pred q limit ttl e d).1, beside H1 C (claim pred q limit ttl e d).2).
Proof.
  assert (passes (claimable q pred e)) as Hp.
  { apply (passes_live). intros k r Hk. unfold claimable in Hk. bool_to_prop.
    match goal with E : state r = _ |- _ => by rewrite E end. }
  unfold claim. cbn [workflow_runs step_checkpoints beside set_runs set_checkpoints].
  rewrite (pick_beside _ _ _ _ Hp). set (l := pick _ _ _ _ _).
  rewrite (update_beside) by apply picked_passes. cbn [fst snd]. apply f_equal2; [|done]. apply f_equal.
  apply list_omap_ext, Forall_Forall2_diag, Forall_forall. intros k Hk.
  apply elem_of_pick in Hk as (r & Hr & _).
  rewrite beside_none by (apply (beside_lookup); by exists r).
  rewrite Hr. cbn. by rewrite (checkpoints_json_beside) by by exists r.
Qed.

Lemma maintenance_passes e : passes (expired e) ∧ passes (timed_out e).
Proof.
  split; apply passes_live; intros k r Hk; unfold expired, timed_out in Hk; bool_to_prop;
    match goal with E : state r = _ |- _ => by rewrite E end.
Qed.

Lemma recover_beside e :
  recoverLeases e (beside H1 C d) = ((recoverLeases e d).1, beside H1 C (recoverLeases e d).2).
Proof.
  unfold recoverLeases. cbn [workflow_runs step_checkpoints beside set_runs set_checkpoints].
  rewrite pick_beside by apply maintenance_passes.
  by rewrite update_beside by apply picked_passes.
Qed.

Lemma promote_beside channel e :
  promoteTimedOut channel e (beside H1 C d) =
  ((promoteTimedOut channel e d).1, beside H1 C (promoteTimedOut channel e d).2).
Proof.
  unfold promoteTimedOut. cbn [workflow_runs step_checkpoints beside set_runs set_checkpoints].
  rewrite pick_beside by apply maintenance_passes.
  rewrite update_beside, affected_beside by apply picked_passes. cbn [fst snd].
  unfold beside, notify, set_checkpoints, set_runs. cbn. by rewrite insert_new_beside.
Qed.

Lemma emit_beside key payload ttl channel e :
  emitEvent key payload ttl channel e (beside H1 C d) =
  ((emitEvent key payload ttl channel e d).1, beside H1 C (emitEvent key payload ttl channel e d).2).
Proof.
  unfold emitEvent. destruct (_ ≫= _) as [[key' payload']| |]; [|done..].
  assert (passes (waiting_on key' e)).
  { apply passes_live. intros k r Hk. unfold waiting_on in Hk. bool_to_prop.
    match goal with E : state r = _ |- _ => by rewrite E end. }
  cbn [workflow_runs step_checkpoints event_log next_event_id beside set_runs set_checkpoints].
  rewrite update_beside, affected_beside by done. cbn [fst snd].
  unfold beside, notify, set_checkpoints, set_runs, set_events. cbn. by rewrite insert_new_beside.
Qed.

Lemma renew_beside ids tokens ttl e :
  renewLeases ids tokens ttl e (beside H1 C d) =
  ((renewLeases ids tokens ttl e d).1, beside H1 C (renewLeases ids tokens ttl e d).2).
Proof.
  unfold renewLeases. destruct (_ ≫= _) as [claims| |]; [|done..].
  assert (passes (renewable claims e)).
  { apply passes_live. intros k r Hk. unfold renewable in Hk. bool_to_prop.
    match goal with E : state r = _ |- _ => by rewrite E end. }
  cbn [workflow_runs beside set_runs set_checkpoints]. by rewrite update_beside, affected_beside.
Qed.

Lemma commit_beside id token index value complete e :
  commitStep id token index value complete e (beside H1 C d) =
  ((commitStep id token index value complete e d).1,
   beside H1 C (commitStep id token index value complete e d).2).
Proof.
  unfold commitStep. destruct (_ ≫= _) as [[[[id' tok] index'] value']| |]; [|done..].
  assert (passes (λ k r, fence id' tok e k r && (step_index r <=? index'))) as Hp.
  { intros k r Hk. by rewrite (fence_passes id' tok e k r Hk). }
  cbn [workflow_runs step_checkpoints beside set_runs set_checkpoints].
  rewrite affected_beside by done. case_bool_decide as Hown; [done|].
  destruct (bind_int4 (index' + 1)); [|done..].
  assert (H1 !! id' = None) as Hid.
  { apply map_choose in Hown as (k & r & (Hk & Ho)%lookup_affected).
    apply andb_prop in Ho as [(-> & _)%fence_spec _]. apply beside_lookup. by exists r. }
  assert ((C ∪ step_checkpoints d) !! (id', index') = step_checkpoints d !! (id', index')) as ->.
  { apply lookup_union_r. destruct (C !! (id', index')) eqn:E; [|done].
    apply (ap_own _ _ _ Hap) in E as [? ?]. congruence. }
  rewrite update_beside by done. cbn [fst snd]. unfold beside, set_checkpoints, set_runs. cbn.
  by rewrite insert_new_beside.
Qed.

Lemma insert_beside id name version q max_att scheduled input dedup channel e :
  spares (InsertRun id name version q max_att scheduled input dedup channel) →
  insertRun id name version q max_att scheduled input dedup channel e (beside H1 C d) =
  ((insertRun id name version q max_att scheduled input dedup channel e d).1,
   beside H1 C (insertRun id name version q max_att scheduled input dedup channel e d).2).
Proof.
  intros [Hid Hdd]. unfold insertRun.
  destruct (_ ≫= _) as [[[[[[[id' name'] version'] q'] max'] input'] dedup']| |] eqn:Hb; [|done..].
  assert (uuid_in id = Some id' ∧ name' = name ∧ dedup' = dedup) as (Hid' & -> & ->).
  { bound_params. done. }
  specialize (Hid _ Hid'). destruct (_ || _); [done|].
  cbn [workflow_runs step_checkpoints beside set_runs set_checkpoints].
  rewrite affected_beside by done.
  destruct (map_to_list _) as [|[existing r] l] eqn:Hl.
  - rewrite lookup_union_r by done. destruct (workflow_runs d !! id'); [done|].
    unfold notify, beside, set_runs, set_checkpoints. cbn. by rewrite insert_union_r.
  - rewrite (update_beside (λ k _, bool_decide (k = existing))); [done|].
    assert ((existing, r) ∈ map_to_list (affected (dedup_conflict name dedup) (workflow_runs d)))
      as [Hr _]%elem_of_map_to_list%lookup_affected by (rewrite Hl; by left).
    intros k r' Hk. apply bool_decide_eq_false. intros ->. rewrite beside_lookup in Hk; [done|by exists r].
Qed.

Lemma cancel_beside id e :
  cancelRun id e (beside H1 C d) = ((cancelRun id e d).1, beside H1 C (cancelRun id e d).2).
Proof.
  unfold cancelRun. destruct (bind_uuid id) as [id'| |]; [|done..].
  assert (passes (cancellable id')).
  { apply passes_live. intros k r Hk. unfold cancellable in Hk.
    by destruct (state r), (bool_decide (k = id')). }
  cbn [workflow_runs beside set_runs set_checkpoints]. by rewrite rows_affected_beside, update_beside.
Qed.

Lemma read_beside {A} id (f : string → option run → A) :
  (∀ u, uuid_in id = Some u → H1 !! u = None) →
  (u ← bind_uuid id; mret (f u ((H1 ∪ workflow_runs d) !! u))) =
  (u ← bind_uuid id; mret (f u (workflow_runs d !! u))).
Proof.
  intros Hid. destruct (bind_uuid id) as [u| |] eqn:E; [|done..]. cbn. apply bind_uuid_Ok in E.
  by rewrite beside_none by auto.
Qed.

Lemma exec_beside {X} (s : stmt X) e :
  spares s → exec s e (beside H1 C d) = ((exec s e d).1, beside H1 C (exec s e d).2).
Proof.
  destruct s; intros Hs; cbn [exec].
  - done.
  - by apply insert_beside.
  - apply emit_beside.
  - unfold claimSingle. destruct (_ ≫= _) as [[[]]| |]; [apply claim_beside|done..].
  - unfold claimMulti. destruct (_ ≫= _) as [[[]]| |]; [apply claim_beside|done..].
  - apply renew_beside.
  - apply commit_beside.
  - unfold completeRun. destruct (bind_opt bind_jsonb _); [apply fenced_update_beside|done..].
  - apply fenced_update_beside.
  - unfold latestEvent. by destruct (bind_text _).
  - apply fenced_update_beside.
  - apply fenced_update_beside.
  - apply recover_beside.
  - apply promote_beside.
  - done.
  - apply f_equal2; [|done]. by apply (read_beside _ (λ u r, pair u <$> r)).
  - apply f_equal2; [|done]. by apply (read_beside _ (λ _ r, (λ r, (state r, output_json r)) <$> r)).
  - apply cancel_beside.
  - apply f_equal2; [|done]. by apply (read_beside _ (λ _ r, state <$> r)).
Qed.
End inert.

Section properties.
Context `{Postgres}.

Lemma exec_apart {X} (s : stmt X) e H1 C d :
  apart H1 C d → spares H1 s → apart H1 C (exec s e d).2.
Proof.
  intros Hap Hs. pose proof Hap as [Hfin Hdisj Hown Hfree]. split; [done| |done|].
  - apply map_disjoint_spec. intros k r r' Hk Hr'.
    destruct (workflow_runs d !! k) as [r0|] eqn:Hd.
    + rewrite map_disjoint_spec in Hdisj. by apply (Hdisj k r r0).
    + destruct (exec_new_row_id s e d k Hd) as (id & Hid & Hu); [by exists r'|].
      destruct s; try done. injection Hid as ->. destruct Hs as [Hs _]. rewrite Hs in Hk; done.
  - intros id i v Hv. destruct (step_checkpoints d !! (id, i)) as [w|] eqn:Hc; [by eapply Hfree|].
    destruct (exec_new_checkpoint s e d id i v Hc Hv) as (r & Hr & _).
    apply (beside_lookup H1 C d Hap). by exists r.
Qed.

(** Any number of statements that spare [H1]. *)
Definition sparing_step (H1 : gmap string run) (d d' : db) : Prop :=
  ∃ X (s : stmt X) e, spares H1 s ∧ d' = (exec s e d).2.

(** C26: Finished runs are inert.  Add to any tables the runs of a finished history with
    their checkpoints: a statement that neither asks for one of them nor enqueues under
    an id or a deduplication key of theirs gives the same answer as without them, and
    leaves the history as it is beside what it leaves without it.  So do all statements
    after it: a deployment behaves the same however much has been finished before. *)
Theorem finished_runs_are_inert H1 C d d' :
  apart H1 C d → rtc (sparing_step H1) d d' →
  apart H1 C d' ∧ rtc (sparing_step H1) (beside H1 C d) (beside H1 C d') ∧
  ∀ X (s : stmt X) e, spares H1 s →
    exec s e (beside H1 C d') = ((exec s e d').1, beside H1 C (exec s e d').2).
Proof.
  intros Hap Hs. revert Hap. induction Hs as [d|d d1 d2 (X & s & e & Hsp & ->) _ IH]; intros Hap.
  - split_and!; [done..|]. intros X s e Hsp. by apply exec_beside.
  - destruct IH as (Hap' & Hrtc & Hex); [by apply exec_apart|]. split_and!; [done| |done].
    eapply rtc_l; [|done]. exists X, s, e. split; [done|]. by rewrite exec_beside.
Qed.
End properties.
