(* ===== verification/Timing.v ===== *)
(** * Durations, 64-bit arithmetic and the retry backoff

    Go's [time.Duration] is an [int64] of nanoseconds; [Milliseconds] truncates
    towards zero.  [backoffDuration] of worker.go is compared with the backoff that
    the [recoverLeases] statement computes in SQL. *)

From S2P Require Import Prelude GoText Json Types Postgres Queries.

(** Wrap-around of [int64]. *)
Definition int64 (z : Z) : Z := (z + 2^63) mod 2^64 - 2^63.

Definition in_int64 (z : Z) : Prop := -(2^63) <= z < 2^63.

Lemma int64_id z : in_int64 z → int64 z = z.
Proof. unfold in_int64, int64. intros. rewrite Z.mod_small; lia. Qed.

(** [time.Duration.Milliseconds]. *)
Definition Milliseconds (d : Z) : Z := Z.quot d Millisecond.

(** [fmtFrac] of package time: the last [prec] digits of [v] as a fraction without
    trailing zeros, and the rest. *)
Fixpoint fmtFrac (prec : nat) (v : Z) (printed : bool) (acc : string) : string * Z :=
  match prec with
  | O => (if printed then "." +:+ acc else acc, v)
  | S prec =>
    let printed := printed || negb (v mod 10 =? 0) in
    fmtFrac prec (v / 10) printed (if printed then itoa (v mod 10) +:+ acc else acc)
  end.

(** [time.Duration.String]. *)
Definition Duration_String (d : Z) : string :=
  let u := Z.abs d in
  let frac prec v unit :=
    let (f, v) := fmtFrac prec v false unit in itoa v +:+ f in
  let text :=
    if u =? 0 then "0s"
    else if u <? Microsecond then itoa u +:+ "ns"
    else if u <? Millisecond then frac 3%nat u "µs"
    else if u <? Second then frac 6%nat u "ms"
    else
      let (f, s) := fmtFrac 9 u false "s" in
      let seconds := itoa (s mod 60) +:+ f in
      let m := s / 60 in
      if m =? 0 then seconds
      else
        let minutes := itoa (m mod 60) +:+ "m" +:+ seconds in
        if m / 60 =? 0 then minutes else itoa (m / 60) +:+ "h" +:+ minutes in
  if d <? 0 then "-" +:+ text else text.

Definition backoffDuration (attempt : Z) : Z :=
  let attempt := if attempt <? 1 then 1 else attempt in
  let shift := int64 (attempt - 1) in
  let shift := if 8 <? shift then 8 else shift in
  let delay := int64 (int64 (250 * Millisecond) * int64 (Z.shiftl 1 shift)) in
  if Minute <? delay then Minute else delay.

(** The nine reachable shifts. *)
Lemma shift_cases s : 0 <= s <= 8 →
  s = 0 ∨ s = 1 ∨ s = 2 ∨ s = 3 ∨ s = 4 ∨ s = 5 ∨ s = 6 ∨ s = 7 ∨ s = 8.
Proof. lia. Qed.

(** The delay as a function of the capped exponent. *)
Lemma backoff_capped attempt :
  in_int64 attempt →
  backoffDuration attempt =
    Z.min Minute (250 * Millisecond * 2 ^ Z.min 8 (Z.max 1 attempt - 1)).
Proof.
  intros Ha. unfold backoffDuration, in_int64 in *.
  replace (if attempt <? 1 then 1 else attempt) with (Z.max 1 attempt)
    by (destruct (attempt <? 1) eqn:E; bool_to_prop; lia).
  rewrite (int64_id (Z.max 1 attempt - 1)) by (unfold in_int64; lia).
  replace (if 8 <? Z.max 1 attempt - 1 then 8 else Z.max 1 attempt - 1)
    with (Z.min 8 (Z.max 1 attempt - 1))
    by (destruct (8 <? Z.max 1 attempt - 1) eqn:E; bool_to_prop; lia).
  destruct (shift_cases (Z.min 8 (Z.max 1 attempt - 1))) as [E|[E|[E|[E|[E|[E|[E|[E|E]]]]]]]];
    [lia|rewrite E; reflexivity..].
Qed.

Lemma backoff_ms_cap s : 8 <= s → Minute <= 250 * Millisecond * 2 ^ s.
Proof.
  intros Hs. assert (2 ^ 8 <= 2 ^ s) as H by (apply Z.pow_le_mono_r; lia).
  change (2 ^ 8) with 256 in H. change Minute with (60000 * Millisecond).
  assert (0 < Millisecond) by done. nia.
Qed.

(** The delay before retry [attempt] is 250 ms doubled per earlier failure and
    capped at one minute, for every [int] the caller can pass: capping the shift
    at 8 changes nothing and the product never wraps. *)
Theorem backoff_doubles attempt :
  in_int64 attempt →
  backoffDuration attempt = Z.min Minute (250 * Millisecond * 2 ^ (Z.max 1 attempt - 1)).
Proof.
  intros Ha. rewrite backoff_capped by done. set (s := Z.max 1 attempt - 1).
  destruct (Z.le_gt_cases s 8); [by rewrite (Z.min_r 8) by lia|].
  rewrite (Z.min_l 8) by lia. pose proof (backoff_ms_cap s ltac:(lia)).
  pose proof (backoff_ms_cap 8 ltac:(lia)). by rewrite !Z.min_l.
Qed.

(** The backoff that SQL computes when it recovers an expired lease is the one
    the worker computes for a failed attempt: both statements are passed the same
    number of milliseconds for the same number of earlier failures. *)
Theorem backoff_matches_recovery failures :
  0 <= failures < 2^31 →
  Milliseconds (backoffDuration (failures + 1)) = recovery_backoff_ms failures.
Proof.
  intros Hf. rewrite backoff_capped by (unfold in_int64; lia).
  replace (Z.max 1 (failures + 1) - 1) with failures by lia.
  unfold recovery_backoff_ms. rewrite (Z.min_comm failures 8).
  destruct (shift_cases (Z.min 8 failures)) as [E|[E|[E|[E|[E|[E|[E|[E|E]]]]]]]];
    [lia|rewrite E; reflexivity..].
Qed.

Lemma Milliseconds_range d : 0 <= d → 0 <= Milliseconds d ∧ Milliseconds d * Millisecond <= d.
Proof.
  intros Hd. unfold Milliseconds. assert (0 < Millisecond) by done.
  rewrite Z.quot_div_nonneg by lia. split; [by apply Z.div_pos|].
  rewrite Z.mul_comm. by apply Z.mul_div_le.
Qed.
