(* ===== verification/Leases.v ===== *)
(** * leases.go: the table of a worker's claims

    The table maps lease tokens to entries.  An entry's context is the cancellation
    of the entry itself or of the worker's context, its parent: [parent] says whether
    the latter is already done.  Go iterates over a map in any order; the model
    iterates in the order of [map_to_list] and the theorems do not depend on it. *)

From S2P Require Import Prelude.

(** Deadlines are nanoseconds. *)
Record leaseEntry := {
  le_runID : string;
  le_deadline : Z;
  le_cancelled : bool;
}.

Notation leaseTable := (gmap string leaseEntry).

Definition newLeaseTable : leaseTable := ∅.

Definition cancel (en : leaseEntry) : leaseEntry :=
  {| le_runID := le_runID en; le_deadline := le_deadline en; le_cancelled := true |}.
Definition set_deadline (deadline : Z) (en : leaseEntry) : leaseEntry :=
  {| le_runID := le_runID en; le_deadline := deadline; le_cancelled := le_cancelled en |}.

(** [entry.ctx.Err() != nil]. *)
Definition ctx_done (parent : bool) (en : leaseEntry) : bool := parent || le_cancelled en.

Definition insert_lease (runID token : string) (deadline : Z) (t : leaseTable) : leaseTable :=
  <[token := {| le_runID := runID; le_deadline := deadline; le_cancelled := false |}]> t.

(** The function that [insert] returns: cancel, then forget the token. *)
Definition release (token : string) (t : leaseTable) : leaseTable := delete token t.

Definition live_entries (parent : bool) (t : leaseTable) : list (string * leaseEntry) :=
  filter (λ kv, ctx_done parent kv.2 = false) (map_to_list t).

Definition snapshot (parent : bool) (t : leaseTable) : list string * list string :=
  (le_runID <$> (live_entries parent t).*2, (live_entries parent t).*1).

(** One iteration of [for _, token := range sent]. *)
Definition apply_one (renewed : gset string) (deadline : Z) (t : leaseTable) (token : string)
    : leaseTable :=
  match t !! token with
  | None => t
  | Some en =>
    <[token := if decide (token ∈ renewed) then set_deadline deadline en else cancel en]> t
  end.
Definition applyRenewal (sent : list string) (renewed : gset string) (deadline : Z)
    (t : leaseTable) : leaseTable :=
  foldl (apply_one renewed deadline) t sent.

(** One iteration of [for _, entry := range t.byToken]; the accumulator holds the
    table and [(earliest, ok)]. *)
Definition expire_one (parent : bool) (now : Z) (acc : leaseTable * option Z)
    (kv : string * leaseEntry) : leaseTable * option Z :=
  let (t, earliest) := acc in
  let (token, en) := kv in
  if ctx_done parent en then (t, earliest)
  else if le_deadline en <=? now then (<[token := cancel en]> t, earliest)
  else
    match earliest with
    | Some x => if le_deadline en <? x then (t, Some (le_deadline en)) else (t, earliest)
    | None => (t, Some (le_deadline en))
    end.
Definition expire (parent : bool) (now : Z) (t : leaseTable) : leaseTable * option Z :=
  foldl (expire_one parent now) (t, None) (map_to_list t).

(** What the goroutines of the claims do to the table. *)
Inductive lease_op :=
  | Inserted (runID token : string) (deadline : Z)
  | Released (token : string).
Definition run_op (t : leaseTable) (x : lease_op) : leaseTable :=
  match x with
  | Inserted runID token deadline => insert_lease runID token deadline t
  | Released token => release token t
  end.
Definition run_ops (xs : list lease_op) (t : leaseTable) : leaseTable := foldl run_op t xs.

(** ** Lookups after each operation *)

Lemma lookup_apply_one renewed deadline t token k :
  apply_one renewed deadline t token !! k =
    if decide (k = token) then
      (λ en, if decide (k ∈ renewed) then set_deadline deadline en else cancel en) <$> t !! k
    else t !! k.
Proof.
  unfold apply_one. destruct (decide (k = token)) as [->|Hk].
  - destruct (t !! token) as [en|] eqn:E; [|done]. by rewrite lookup_insert_eq.
  - destruct (t !! token); [|done]. by rewrite lookup_insert_ne.
Qed.

Lemma lookup_applyRenewal sent renewed deadline t k :
  applyRenewal sent renewed deadline t !! k =
    if decide (k ∈ sent) then
      (λ en, if decide (k ∈ renewed) then set_deadline deadline en else cancel en) <$> t !! k
    else t !! k.
Proof.
  unfold applyRenewal. revert t. induction sent as [|s sent IH]; intros t; [done|]. cbn [foldl].
  rewrite IH, lookup_apply_one.
  destruct (decide (k = s)) as [->|Hks].
  - rewrite (decide_True (P := s ∈ s :: sent)) by set_solver.
    destruct (decide (s ∈ sent)); [|done]. destruct (t !! s) as [en|]; [|done]. cbn.
    by destruct (decide (s ∈ renewed)).
  - destruct (decide (k ∈ sent)), (decide (k ∈ s :: sent)); set_solver.
Qed.

(** What [expire] leaves of an entry. *)
Definition expired_entry (parent : bool) (now : Z) (en : leaseEntry) : leaseEntry :=
  if ctx_done parent en then en else if le_deadline en <=? now then cancel en else en.

(** The minimum of the deadlines still confirmed. *)
Definition is_earliest (parent : bool) (now : Z) (l : list (string * leaseEntry)) (o : option Z)
    : Prop :=
  match o with
  | Some x => now < x ∧
      (∃ k en, (k, en) ∈ l ∧ ctx_done parent en = false ∧ le_deadline en = x) ∧
      ∀ k en, (k, en) ∈ l → ctx_done parent en = false → now < le_deadline en → x <= le_deadline en
  | None => ∀ k en, (k, en) ∈ l → ctx_done parent en = false → le_deadline en <= now
  end.

(** The minimum after one more entry. *)
Definition sooner (parent : bool) (now : Z) (en : leaseEntry) (o : option Z) : option Z :=
  if ctx_done parent en then o
  else if le_deadline en <=? now then o
  else match o with
       | Some x => if le_deadline en <? x then Some (le_deadline en) else o
       | None => Some (le_deadline en)
       end.

Lemma expire_one_eq parent now t o k en :
  t !! k = Some en →
  expire_one parent now (t, o) (k, en) =
    (<[k := expired_entry parent now en]> t, sooner parent now en o).
Proof.
  intros Hk. unfold expire_one, expired_entry, sooner.
  destruct (ctx_done parent en); [by rewrite insert_id|].
  destruct (le_deadline en <=? now); [done|]. rewrite insert_id by done.
  destruct o; [by case_match|done].
Qed.

Lemma elem_of_snoc {A} (l : list A) x y : y ∈ l ++ [x] ↔ y ∈ l ∨ y = x.
Proof. by rewrite elem_of_app, list_elem_of_singleton. Qed.

Lemma is_earliest_snoc parent now l k en o :
  is_earliest parent now l o → is_earliest parent now (l ++ [(k, en)]) (sooner parent now en o).
Proof.
  unfold sooner. destruct (ctx_done parent en) eqn:Hd; [|destruct (le_deadline en <=? now) eqn:Hle];
    bool_to_prop; destruct o as [x|]; cbn; try setoid_rewrite elem_of_snoc.
  - intros (? & (k1 & en1 & ? & ? & ?) & Hmin). split_and!; [done|eauto 6|].
    intros k2 en2 [Hin|[= -> ->]] ? ?; [by apply (Hmin k2)|congruence].
  - intros He k2 en2 [Hin|[= -> ->]] ?; [by apply (He k2)|congruence].
  - intros (? & (k1 & en1 & ? & ? & ?) & Hmin). split_and!; [done|eauto 6|].
    intros k2 en2 [Hin|[= -> ->]] ? ?; [by apply (Hmin k2)|lia].
  - intros He k2 en2 [Hin|[= -> ->]] ?; [by apply (He k2)|done].
  - intros (? & (k1 & en1 & ? & ? & ?) & Hmin).
    destruct (le_deadline en <? x) eqn:Hlt; bool_to_prop; cbn; setoid_rewrite elem_of_snoc;
      (split_and!; [done|eauto 6|]); intros k2 en2 [Hin|[= -> ->]] Hd2 Hn2; try lia;
      pose proof (Hmin k2 en2 Hin Hd2 Hn2); lia.
  - intros He. split_and!; [done|eauto 6|].
    intros k2 en2 [Hin|[= -> ->]] Hd2 Hn2; [|lia]. pose proof (He k2 en2 Hin Hd2). lia.
Qed.

Lemma expire_fold parent now l t :
  NoDup l.*1 → (∀ k en, (k, en) ∈ l → t !! k = Some en) →
  let r := foldl (expire_one parent now) (t, None) l in
  (∀ k, r.1 !! k = if decide (k ∈ l.*1) then expired_entry parent now <$> t !! k else t !! k) ∧
  is_earliest parent now l r.2.
Proof.
  induction l as [|[k en] l IH] using rev_ind; intros Hnd Hin.
  { split; [done|]. by intros ? ? ?%elem_of_nil. }
  rewrite fmap_app in Hnd. apply NoDup_app in Hnd as (Hnd & Hfresh & _).
  destruct IH as [Hl He]; [done|intros; apply Hin, elem_of_snoc; by left|].
  rewrite foldl_snoc. set (acc := foldl _ _ l) in *. destruct acc as [t' o]. cbn [fst snd] in *.
  assert (t !! k = Some en) as Hk by (apply Hin, elem_of_snoc; by right).
  assert (k ∉ l.*1) as Hkl by (intros Hx; apply (Hfresh k Hx); by left).
  assert (t' !! k = Some en) as Hk' by (rewrite Hl, decide_False; done).
  rewrite expire_one_eq by done. cbn [fst snd]. split; [|by apply is_earliest_snoc].
  intros k0. rewrite fmap_app. cbn. destruct (decide (k0 = k)) as [->|Hne].
  - rewrite lookup_insert_eq, decide_True, Hk; [done|]. apply elem_of_snoc. by right.
  - rewrite lookup_insert_ne, Hl by done.
    destruct (decide (k0 ∈ l.*1)), (decide (k0 ∈ l.*1 ++ [k])) as [Hm|Hm]; try done;
      rewrite elem_of_snoc in Hm; [destruct Hm; by left|by destruct Hm].
Qed.

Lemma expire_spec parent now t :
  (∀ k, (expire parent now t).1 !! k = expired_entry parent now <$> t !! k) ∧
  is_earliest parent now (map_to_list t) (expire parent now t).2.
Proof.
  destruct (expire_fold parent now (map_to_list t) t) as [Hl He].
  - apply NoDup_fst_map_to_list.
  - intros k en. apply elem_of_map_to_list.
  - split; [|done]. intros k. unfold expire. rewrite Hl.
    destruct (decide (k ∈ (map_to_list t).*1)) as [|Hk]; [done|].
    destruct (t !! k) as [en|] eqn:E; [|done]. exfalso. apply Hk.
    apply list_elem_of_fmap. exists (k, en). split; [done|]. by apply elem_of_map_to_list.
Qed.

(** ** Properties *)

(** After an expiry check no claim keeps running past its confirmed deadline: the
    overdue ones are cancelled, the others keep their deadline, and the time answered
    is exactly the earliest deadline still confirmed - there is none when no claim
    runs - so a heartbeat that sleeps until it misses no expiry. *)
Theorem expire_stops_overdue_claims parent now t :
  let (t', earliest) := expire parent now t in
  (∀ k en', t' !! k = Some en' → ∃ en, t !! k = Some en ∧
     le_runID en' = le_runID en ∧ le_deadline en' = le_deadline en ∧
     (ctx_done parent en' = false ↔ ctx_done parent en = false ∧ now < le_deadline en)) ∧
  dom t' = dom t ∧
  match earliest with
  | Some x =>
    (∃ k en, t' !! k = Some en ∧ ctx_done parent en = false ∧ le_deadline en = x) ∧
    ∀ k en, t' !! k = Some en → ctx_done parent en = false → x <= le_deadline en
  | None => ∀ k en, t' !! k = Some en → ctx_done parent en = true
  end.
Proof.
  pose proof (expire_spec parent now t) as [Hl He].
  destruct (expire parent now t) as [t' o]. cbn [fst snd] in *.
  assert (∀ en, ctx_done parent (expired_entry parent now en) = false ↔
    ctx_done parent en = false ∧ now < le_deadline en) as Hlive.
  { intros en. unfold expired_entry. destruct (ctx_done parent en) eqn:Hd; [split; [congruence|by intros [? _]]|].
    destruct (le_deadline en <=? now) eqn:Hle; bool_to_prop; unfold ctx_done in *; cbn.
    - rewrite orb_true_r. split; [done|lia].
    - rewrite Hd. split; [lia|done]. }
  assert (∀ en, le_runID (expired_entry parent now en) = le_runID en ∧
    le_deadline (expired_entry parent now en) = le_deadline en) as Hfix.
  { intros en. unfold expired_entry. by repeat case_match. }
  split_and!.
  - intros k en' Hk. rewrite Hl in Hk. destruct (t !! k) as [en|]; [|done]. injection Hk as <-.
    exists en. destruct (Hfix en). by split_and!.
  - apply set_eq. intros k. rewrite !elem_of_dom, Hl. by rewrite fmap_is_Some.
  - destruct o as [x|]; cbn in He.
    + destruct He as (Hx & (k & en & Hin%elem_of_map_to_list & Hd & <-) & Hmin). split.
      * exists k, (expired_entry parent now en). rewrite Hl, Hin. split; [done|].
        destruct (Hfix en). split; [|done]. by apply Hlive.
      * intros k' en' Hk' Hd'. rewrite Hl in Hk'. destruct (t !! k') as [en0|] eqn:E; [|done].
        injection Hk' as <-. apply Hlive in Hd' as [? ?]. destruct (Hfix en0) as [_ ->].
        by apply (Hmin k'); [apply elem_of_map_to_list|..].
    + intros k en' Hk. rewrite Hl in Hk. destruct (t !! k) as [en|] eqn:E; [|done].
      injection Hk as <-. destruct (ctx_done _ (expired_entry _ _ _)) eqn:Hd; [done|].
      apply Hlive in Hd as [Hd Hlt]. apply elem_of_map_to_list in E.
      pose proof (He k en E Hd). lia.
Qed.

(** Applying a renewal stops exactly the claims that were sent but not renewed and
    extends exactly those that were; claims inserted since the snapshot, whose tokens
    were not sent, are left alone, and a claim that has been released stays absent. *)
Theorem renewal_stops_lost_claims parent sent renewed deadline t k :
  let t' := applyRenewal sent renewed deadline t in
  (t' !! k = None ↔ t !! k = None) ∧
  ∀ en, t !! k = Some en → ∃ en', t' !! k = Some en' ∧ le_runID en' = le_runID en ∧
    (k ∉ sent → en' = en) ∧
    (k ∈ sent → k ∈ renewed →
       le_deadline en' = deadline ∧ ctx_done parent en' = ctx_done parent en) ∧
    (k ∈ sent → k ∉ renewed → ctx_done parent en' = true).
Proof.
  cbn. rewrite lookup_applyRenewal. split.
  - destruct (decide (k ∈ sent)); [|done]. by rewrite fmap_None.
  - intros en ->. destruct (decide (k ∈ sent)) as [Hs|Hs]; cbn.
    + eexists. split; [done|].
      destruct (decide (k ∈ renewed)); split_and!; try done.
      intros _ _. unfold ctx_done. cbn. apply orb_true_r.
    + exists en. split_and!; done.
Qed.

(** The snapshot lists the running claims, run ids and tokens in step. *)
Lemma snapshot_spec parent t i id token :
  (snapshot parent t).1 !! i = Some id ∧ (snapshot parent t).2 !! i = Some token →
  ∃ en, t !! token = Some en ∧ le_runID en = id ∧ ctx_done parent en = false.
Proof.
  unfold snapshot. cbn. rewrite !list_lookup_fmap.
  destruct (live_entries parent t !! i) as [[k en]|] eqn:E; cbn; [|by intros [? _]].
  intros [[= <-] [= <-]].
  apply list_elem_of_lookup_2 in E. unfold live_entries in E.
  apply list_elem_of_filter in E as [Hd Hin%elem_of_map_to_list]. by exists en.
Qed.

Lemma snapshot_complete parent t token en :
  t !! token = Some en → ctx_done parent en = false → token ∈ (snapshot parent t).2.
Proof.
  intros Ht Hd. unfold snapshot, live_entries. cbn. apply list_elem_of_fmap.
  exists (token, en). split; [done|]. apply list_elem_of_filter. split; [done|].
  by apply elem_of_map_to_list.
Qed.
