(* ===== verification/Uuid.v ===== *)
(** * engine.go: [newUUID]

    A UUIDv7 from 16 random bytes and the Unix time in milliseconds. *)

From S2P Require Import Prelude GoText.

(** [byte(x)] and the bytes at [b[i:j]]. *)
Definition byte (x : Z) : Z := x mod 256.
Definition slice {A} (i j : nat) (b : list A) : list A := take (j - i) (drop i b).

(** [ms] is a [uint64]; [rand.Read] yields 16 bytes or fails. *)
Definition uuid_bytes (r : list Z) (ms : Z) : list Z :=
  [byte (Z.shiftr ms 40); byte (Z.shiftr ms 32); byte (Z.shiftr ms 24);
   byte (Z.shiftr ms 16); byte (Z.shiftr ms 8); byte ms;
   Z.lor (Z.land (default 0 (r !! 6%nat)) 15) 112; default 0 (r !! 7%nat);
   Z.lor (Z.land (default 0 (r !! 8%nat)) 63) 128] ++ drop 9 r.

Definition uuid_text (b : list Z) : list ascii :=
  hex_Encode (slice 0 4 b) ++ s2b "-" ++ hex_Encode (slice 4 6 b) ++ s2b "-" ++
  hex_Encode (slice 6 8 b) ++ s2b "-" ++ hex_Encode (slice 8 10 b) ++ s2b "-" ++
  hex_Encode (slice 10 16 b).

Definition newUUID (rand_Read : error + list Z) (ms : Z) : outcome string :=
  match rand_Read with
  | inl _ => Panic "durablepg: read random bytes: %v" []
  | inr r => Ok (b2s (uuid_text (uuid_bytes r ms)))
  end.

(** ** Order of the text *)

(** Byte-wise comparison, as [ORDER BY] compares UUIDs and their texts. *)
Fixpoint compare_bytes (s t : list ascii) : comparison :=
  match s, t with
  | [], [] => Eq
  | [], _ => Lt
  | _, [] => Gt
  | a :: s, b :: t =>
    match bval a ?= bval b with Eq => compare_bytes s t | c => c end
  end.

Lemma compare_bytes_app p s t : compare_bytes (p ++ s) (p ++ t) = compare_bytes s t.
Proof. induction p as [|a p IH]; [done|]. cbn. by rewrite Z.compare_refl. Qed.

Lemma hex_digit_val n : 0 <= n < 16 → bval (hex_digit n) = if n <? 10 then 48 + n else 87 + n.
Proof.
  intros Hn. unfold hex_digit. rewrite bval_byte_of.
  destruct (n <? 10) eqn:E; bool_to_prop; apply Z.mod_small; lia.
Qed.

Lemma hex_digit_lt n m : 0 <= n < m → m < 16 → bval (hex_digit n) < bval (hex_digit m).
Proof.
  intros Hn Hm. rewrite !hex_digit_val by lia.
  destruct (n <? 10) eqn:E, (m <? 10) eqn:E'; bool_to_prop; lia.
Qed.

Lemma hex_Encode_cons b bs :
  hex_Encode (b :: bs) = hex_digit (b / 16) :: hex_digit (b mod 16) :: hex_Encode bs.
Proof. done. Qed.

(** A smaller byte makes the text smaller, whatever follows. *)
Lemma compare_hex_lt x y bs bs' s t :
  0 <= x < y → y < 256 →
  compare_bytes (hex_Encode (x :: bs) ++ s) (hex_Encode (y :: bs') ++ t) = Lt.
Proof.
  intros Hx Hy. rewrite !hex_Encode_cons. cbn [app compare_bytes].
  pose proof (Z.div_mod x 16 ltac:(lia)). pose proof (Z.div_mod y 16 ltac:(lia)).
  pose proof (Z.mod_pos_bound x 16 ltac:(lia)). pose proof (Z.mod_pos_bound y 16 ltac:(lia)).
  assert (x / 16 <= y / 16) as Hle by (apply Z.div_le_mono; lia).
  destruct (Z.eq_dec (x / 16) (y / 16)) as [E|E].
  - rewrite E, Z.compare_refl.
    rewrite (proj2 (Z.compare_lt_iff _ _)); [done|]. apply hex_digit_lt; lia.
  - rewrite (proj2 (Z.compare_lt_iff _ _)); [done|].
    apply hex_digit_lt; [split; [apply Z.div_pos; lia|lia]|apply Z.div_lt_upper_bound; lia].
Qed.

Lemma compare_hex_eq x bs bs' s t :
  compare_bytes (hex_Encode (x :: bs) ++ s) (hex_Encode (x :: bs') ++ t) =
  compare_bytes (hex_Encode bs ++ s) (hex_Encode bs' ++ t).
Proof. rewrite !hex_Encode_cons. cbn. by rewrite !Z.compare_refl. Qed.

Lemma compare_hex_nil c s t : compare_bytes (hex_Encode [] ++ c :: s) (hex_Encode [] ++ c :: t) =
  compare_bytes s t.
Proof. cbn. by rewrite Z.compare_refl. Qed.

Lemma byte_range x : 0 <= byte x < 256.
Proof. apply Z.mod_pos_bound. lia. Qed.

(** The six time bytes, most significant first, decide the order. *)
Lemma time_bytes_lt x5 x4 x3 x2 x1 x0 y5 y4 y3 y2 y1 y0 s t :
  Forall (λ x, 0 <= x < 256) [x5; x4; x3; x2; x1; x0; y5; y4; y3; y2; y1; y0] →
  ((((x5 * 256 + x4) * 256 + x3) * 256 + x2) * 256 + x1) * 256 + x0 <
  ((((y5 * 256 + y4) * 256 + y3) * 256 + y2) * 256 + y1) * 256 + y0 →
  compare_bytes (hex_Encode [x5; x4; x3; x2] ++ s2b "-" ++ hex_Encode [x1; x0] ++ s)
                (hex_Encode [y5; y4; y3; y2] ++ s2b "-" ++ hex_Encode [y1; y0] ++ t) = Lt.
Proof.
  intros Hr Hlt. rewrite !Forall_cons in Hr. destruct_and!.
  destruct (Z.lt_trichotomy x5 y5) as [|[<-|]]; [by apply compare_hex_lt| |lia].
  rewrite compare_hex_eq.
  destruct (Z.lt_trichotomy x4 y4) as [|[<-|]]; [by apply compare_hex_lt| |lia].
  rewrite compare_hex_eq.
  destruct (Z.lt_trichotomy x3 y3) as [|[<-|]]; [by apply compare_hex_lt| |lia].
  rewrite compare_hex_eq.
  destruct (Z.lt_trichotomy x2 y2) as [|[<-|]]; [by apply compare_hex_lt| |lia].
  rewrite compare_hex_eq. cbn [s2b app]. rewrite compare_hex_nil.
  destruct (Z.lt_trichotomy x1 y1) as [|[<-|]]; [by apply compare_hex_lt| |lia].
  rewrite compare_hex_eq.
  destruct (Z.lt_trichotomy x0 y0) as [|[<-|]]; [by apply compare_hex_lt|lia..].
Qed.

(** A 48-bit number is its six bytes. *)
Lemma time_value ms :
  0 <= ms < 2^48 →
  ((((byte (Z.shiftr ms 40) * 256 + byte (Z.shiftr ms 32)) * 256 + byte (Z.shiftr ms 24)) * 256 +
    byte (Z.shiftr ms 16)) * 256 + byte (Z.shiftr ms 8)) * 256 + byte ms = ms.
Proof.
  intros Hms. unfold byte.
  assert (∀ k, 0 <= k → Z.shiftr ms (k + 8) = Z.shiftr ms k / 256) as Hs.
  { intros k Hk. rewrite !Z.shiftr_div_pow2, Z.pow_add_r by lia.
    by rewrite Z.div_div by lia. }
  assert (H40 : Z.shiftr ms 40 = Z.shiftr ms 32 / 256) by (apply (Hs 32); lia).
  assert (H32 : Z.shiftr ms 32 = Z.shiftr ms 24 / 256) by (apply (Hs 24); lia).
  assert (H24 : Z.shiftr ms 24 = Z.shiftr ms 16 / 256) by (apply (Hs 16); lia).
  assert (H16 : Z.shiftr ms 16 = Z.shiftr ms 8 / 256) by (apply (Hs 8); lia).
  assert (H8 : Z.shiftr ms 8 = ms / 256) by (rewrite <-(Z.shiftr_0_r ms) at 2; apply (Hs 0); lia).
  assert (Z.shiftr ms 40 / 256 = 0) as Hz.
  { rewrite Z.shiftr_div_pow2, Z.div_div by lia. apply Z.div_small. lia. }
  rewrite H40, H32, H24, H16, H8. rewrite H40, H32, H24, H16, H8 in Hz. clear H40 H32 H24 H16 H8 Hs.
  set (q1 := ms / 256) in *. set (q2 := q1 / 256) in *. set (q3 := q2 / 256) in *.
  set (q4 := q3 / 256) in *. set (q5 := q4 / 256) in *.
  pose proof (Z.div_mod ms 256 ltac:(lia)). pose proof (Z.div_mod q1 256 ltac:(lia)).
  pose proof (Z.div_mod q2 256 ltac:(lia)). pose proof (Z.div_mod q3 256 ltac:(lia)).
  pose proof (Z.div_mod q4 256 ltac:(lia)). pose proof (Z.div_mod q5 256 ltac:(lia)). lia.
Qed.

(** ** Properties *)

Lemma length_hex bs : length (hex_Encode bs) = (2 * length bs)%nat.
Proof. induction bs as [|b bs IH]; [done|]. rewrite hex_Encode_cons. cbn in *. lia. Qed.

(** Run ids are ordered by time: of two ids made in different milliseconds, the
    earlier one has the smaller text, whatever the random bytes. *)
Theorem newUUID_time_ordered r1 r2 ms1 ms2 u1 u2 :
  0 <= ms1 < ms2 → ms2 < 2^48 →
  newUUID (inr r1) ms1 = Ok u1 → newUUID (inr r2) ms2 = Ok u2 →
  compare_bytes (s2b u1) (s2b u2) = Lt.
Proof.
  intros Hlt Hms Hu1 Hu2. assert (∀ a b : string, Ok a = Ok b → b = a) as Hok by (by intros a b [=]).
  apply Hok in Hu1 as ->, Hu2 as ->. rewrite !s2b_b2s. unfold uuid_text, uuid_bytes.
  cbn [slice drop take app Nat.sub]. apply time_bytes_lt.
  - repeat constructor; apply byte_range.
  - rewrite !time_value by lia. lia.
Qed.

Definition hex_alphabet : list ascii := s2b "0123456789abcdef".

Lemma hex_digit_alphabet n : 0 <= n < 16 → hex_digit n ∈ hex_alphabet.
Proof.
  intros Hn. assert (Forall (λ n, hex_digit n ∈ hex_alphabet) (seqZ 0 16)) as Hall.
  { apply (bool_decide_unpack _). by vm_compute. }
  rewrite Forall_forall in Hall. apply Hall. apply elem_of_seqZ. lia.
Qed.

Lemma hex_Encode_alphabet bs :
  Forall (λ x, 0 <= x < 256) bs → Forall (.∈ hex_alphabet) (hex_Encode bs).
Proof.
  induction 1 as [|b bs Hb Hbs IH]; [constructor|]. rewrite hex_Encode_cons.
  constructor; [|constructor; [|done]]; apply hex_digit_alphabet.
  - split; [apply Z.div_pos; lia|apply Z.div_lt_upper_bound; lia].
  - apply Z.mod_pos_bound. lia.
Qed.

(** The version and variant bytes. *)
Lemma version_byte x : 0 <= x < 256 → hex_digit (Z.lor (Z.land x 15) 112 / 16) = byte_of 55.
Proof.
  intros Hx. assert (Forall (λ x, hex_digit (Z.lor (Z.land x 15) 112 / 16) = byte_of 55)
    (seqZ 0 256)) as Hall by (apply (bool_decide_unpack _); by vm_compute).
  rewrite Forall_forall in Hall. apply Hall, elem_of_seqZ. lia.
Qed.
Lemma variant_byte x : 0 <= x < 256 →
  hex_digit (Z.lor (Z.land x 63) 128 / 16) ∈ s2b "89ab".
Proof.
  intros Hx. assert (Forall (λ x, hex_digit (Z.lor (Z.land x 63) 128 / 16) ∈ s2b "89ab")
    (seqZ 0 256)) as Hall by (apply (bool_decide_unpack _); by vm_compute).
  rewrite Forall_forall in Hall. apply Hall, elem_of_seqZ. lia.
Qed.

Lemma lor_byte a b : 0 <= a < 256 → 0 <= b < 256 → 0 <= Z.lor a b < 256.
Proof.
  intros Ha Hb. split; [apply Z.lor_nonneg; lia|].
  destruct (Z.eq_dec (Z.lor a b) 0) as [->|Hne]; [lia|].
  change 256 with (2^8). apply Z.log2_lt_pow2; [|].
  - pose proof (proj2 (Z.lor_nonneg a b) ltac:(lia)). lia.
  - rewrite Z.log2_lor by lia. apply Z.max_lub_lt.
    + destruct (Z.eq_dec a 0) as [->|]; [done|]. apply Z.log2_lt_pow2; lia.
    + destruct (Z.eq_dec b 0) as [->|]; [done|]. apply Z.log2_lt_pow2; lia.
Qed.

Lemma land_byte a b : 0 <= a < 256 → 0 <= b < 256 → 0 <= Z.land a b < 256.
Proof.
  intros Ha Hb. split; [apply Z.land_nonneg; lia|].
  destruct (Z.eq_dec (Z.land a b) 0) as [->|Hne]; [lia|].
  pose proof (proj2 (Z.land_nonneg a b) ltac:(lia)).
  change 256 with (2^8). apply Z.log2_lt_pow2; [lia|].
  eapply Z.le_lt_trans; [apply Z.log2_land; lia|]. apply Z.min_lt_iff. left.
  destruct (Z.eq_dec a 0) as [->|]; [done|]. apply Z.log2_lt_pow2; lia.
Qed.

Lemma uuid_bytes_range r ms :
  length r = 16%nat → Forall (λ x, 0 <= x < 256) r →
  length (uuid_bytes r ms) = 16%nat ∧ Forall (λ x, 0 <= x < 256) (uuid_bytes r ms).
Proof.
  intros Hlen Hr. assert (∀ i, 0 <= default 0 (r !! i) < 256) as Hd.
  { intros i. destruct (r !! i) as [x|] eqn:E; cbn; [|lia].
    rewrite Forall_forall in Hr. apply Hr. by eapply list_elem_of_lookup_2. }
  unfold uuid_bytes. split; [rewrite length_app, length_drop, Hlen; done|].
  apply Forall_app_2; [|by apply Forall_drop].
  repeat (apply Forall_cons_2; [first [apply byte_range|apply Hd|
    apply lor_byte; [apply land_byte; [apply Hd|lia]|lia]]|]). constructor.
Qed.

(** [n] hexadecimal digits. *)
Definition hex_group (n : nat) (g : list ascii) : Prop :=
  length g = n ∧ Forall (.∈ hex_alphabet) g.

Lemma hex_group_slice b i j :
  length b = 16%nat → Forall (λ x, 0 <= x < 256) b → (i ≤ j ≤ 16)%nat →
  hex_group (2 * (j - i)) (hex_Encode (slice i j b)).
Proof.
  intros Hlen Hb Hij. split.
  - rewrite length_hex. unfold slice. rewrite length_take, length_drop. lia.
  - apply hex_Encode_alphabet. unfold slice. by apply Forall_take, Forall_drop.
Qed.

(** An id has the 8-4-4-4-12 layout of hexadecimal digits, with version 7 and the
    RFC 9562 variant, from any 16 random bytes; only a failure of the random source
    stops it, with a panic. *)
Theorem newUUID_is_version_7 r ms :
  length r = 16%nat → Forall (λ x, 0 <= x < 256) r →
  ∃ a b c d e, newUUID (inr r) ms =
      Ok (b2s (a ++ s2b "-" ++ b ++ s2b "-" ++ c ++ s2b "-" ++ d ++ s2b "-" ++ e)) ∧
    hex_group 8 a ∧ hex_group 4 b ∧ hex_group 4 c ∧ hex_group 4 d ∧ hex_group 12 e ∧
    head c = Some (byte_of 55) ∧ ∃ v, head d = Some v ∧ v ∈ s2b "89ab".
Proof.
  intros Hlen Hr. destruct (uuid_bytes_range r ms Hlen Hr) as [Hl Hb].
  eexists _, _, _, _, _. split; [done|].
  pose proof (λ i j, hex_group_slice _ i j Hl Hb) as Hg.
  split_and!; [apply (Hg 0 4)%nat; lia|apply (Hg 4 6)%nat; lia|apply (Hg 6 8)%nat; lia
    |apply (Hg 8 10)%nat; lia|apply (Hg 10 16)%nat; lia|..].
  - do 16 (destruct r as [|? r]; [done|]). unfold uuid_bytes. cbn [slice drop take Nat.sub app].
    rewrite hex_Encode_cons. cbn [head]. f_equal. apply version_byte.
    rewrite Forall_forall in Hr. apply Hr. by apply list_elem_of_lookup_2 with 6%nat.
  - do 16 (destruct r as [|? r]; [done|]). unfold uuid_bytes. cbn [slice drop take Nat.sub app].
    rewrite hex_Encode_cons. eexists. split; [done|]. apply variant_byte.
    rewrite Forall_forall in Hr. apply Hr. by apply list_elem_of_lookup_2 with 8%nat.
Qed.
