(* ===== verification/Effects.v ===== *)
(** * The effects of the engine: database calls, transactions, contexts, user code

    The Go functions that touch the outside are written in the monad [io], state
    passing over a [world].  Everything the outside decides - clock readings and
    faults of the database, what other workers commit in between, what user
    functions return, when a context is cancelled - comes from an oracle that gives a
    [moment] for each effect, so a theorem about all oracles is a theorem about every
    interleaving at the granularity of transactions.  The world keeps a log of the
    statements that have taken effect, of this program and of the others, in their order.
    With a concrete oracle the programs run by [vm_compute]. *)

From S2P Require Import Prelude GoText Json Types Builder Postgres Queries Store Statements.

#[global] Instance run_eq_dec : EqDecision run.
Proof. solve_decision. Defined.

(** ** What the outside does *)

(** A call of a step function, up to the encoding of its result, which can panic too:
    [Panic] has the value and, as its arguments, the stack. *)
Inductive fn_result :=
  | FnPanicked (v stack : string)
  | FnError (e : error)
  | FnOut (marshalled : outcome (list ascii)).

(** The three ways a database call ends: it runs, it fails before it took effect, or
    it takes effect and the answer is lost. *)
Inductive fault := NoFault | FailBefore (e : error) | FailAfter (e : error).

Section effects.
Context `{Postgres}.

Inductive other := Other (X : Type) (s : stmt X) (e : env).

Definition run_other (d : db) (x : other) : db := match x with Other _ s e => (exec s e d).2 end.

(** [m_others]: the transactions of others that commit before the effect; a statement
    outside a transaction is one of its own. *)
Record moment := {
  m_others : list (list other);
  m_env : env;
  m_fault : fault;
  m_ctx : option error;
  m_fn : fn_result;
  m_key : key_result;
  m_now : Z;
}.

(** A call of user code that the worker made, with the context it handed over. *)
Inductive call :=
  | StepCalled (index : nat) (fn : StepFunc) (sc : StepContext)
  | KeyFnCalled (index : nat) (fn : KeyFunc) (sc : StepContext).

Definition call_index (c : call) : nat :=
  match c with StepCalled i _ _ | KeyFnCalled i _ _ => i end.
Definition call_sc (c : call) : StepContext :=
  match c with StepCalled _ _ sc | KeyFnCalled _ _ sc => sc end.

(** Who executed a statement: this program, or another party. *)
Inductive party := Mine | Theirs.

(** [w_tx] is the open transaction: the statements it has executed, not committed.
    [w_log] has the statements that have taken effect on the tables. *)
Record world := {
  w_db : db;
  w_tx : option (list other);
  w_tick : nat;
  w_calls : list call;
  w_log : list (party * other);
}.

Definition io (A : Type) : Type := world → outcome A * world.

#[global] Instance io_ret : MRet io := λ A a w, (Ok a, w).
#[global] Instance io_bind : MBind io := λ A B f m w,
  match m w with
  | (Ok a, w') => f a w'
  | (Err e, w') => (Err e, w')
  | (Panic msg a, w') => (Panic msg a, w')
  end.

(** Pure fallible code, and [return err]. *)
Definition lift {A} (x : outcome A) : io A := λ w, (x, w).
Definition throw {A} (e : error) : io A := lift (Err e).

(** [x, err := m()]: the error becomes a value; a panic goes on. *)
Definition catching {A} (m : io A) : io (error + A) := λ w,
  match m w with
  | (Ok a, w') => (Ok (inr a), w')
  | (Err e, w') => (Ok (inl e), w')
  | (Panic msg a, w') => (Panic msg a, w')
  end.

(** [if err != nil { return fmt.Errorf(format, args..., err) }]. *)
Definition wrapping {A} (format : string) (args : list string) (m : io A) : io A := λ w,
  match m w with
  | (Err e, w') => (Err (Wrapf format args e), w')
  | r => r
  end.

(** [defer cleanup()]. *)
Definition deferring {A} (cleanup : world → world) (m : io A) : io A := λ w,
  let (a, w') := m w in (a, cleanup w').

Definition set_tx (t : option (list other)) (w : world) : world :=
  {| w_db := w_db w; w_tx := t; w_tick := w_tick w; w_calls := w_calls w; w_log := w_log w |}.
Definition log_call (c : call) (w : world) : world :=
  {| w_db := w_db w; w_tx := w_tx w; w_tick := w_tick w; w_calls := w_calls w ++ [c];
     w_log := w_log w |}.
(** The statements [t] of this program take effect and leave the tables [d]. *)
Definition set_db (d : db) (t : list other) (w : world) : world :=
  {| w_db := d; w_tx := w_tx w; w_tick := w_tick w; w_calls := w_calls w;
     w_log := w_log w ++ (pair Mine <$> t) |}.

(** ** Transactions

    A transaction's writes are seen by its own statements at once and by others when
    it commits (READ COMMITTED: each statement reads what is committed when it
    starts).  The rows it has written stay locked, and so do the advisory locks it has
    taken with [pg_advisory_xact_lock]: a transaction of another party that would change
    such a row or take such a lock waits, so it has no effect until the lock is gone.
    The model compares the arguments of the lock, the server their hashes, which can only
    make more transactions wait. *)

Definition pending (w : world) : list other := default [] (w_tx w).
Definition view (w : world) : db := foldl run_other (w_db w) (pending w).

Definition run_checkpoints (id : string) (d : db) : gmap (string * Z) (list ascii) :=
  filter (λ kv, kv.1.1 = id) (step_checkpoints d).

(** [d'] agrees with [d] on the row [id] and its checkpoints. *)
Definition agree_on (id : string) (d d' : db) : Prop :=
  workflow_runs d' !! id = workflow_runs d !! id ∧ run_checkpoints id d' = run_checkpoints id d.
#[global] Instance agree_on_dec id d d' : Decision (agree_on id d d').
Proof. unfold agree_on. apply _. Defined.

(** The rows that the open transaction holds. *)
Definition held_rows (w : world) : list string :=
  filter (λ id, workflow_runs (view w) !! id ≠ workflow_runs (w_db w) !! id)
    (elements (dom (workflow_runs (view w)))).

(** The advisory locks that a transaction takes. *)
Definition lock_of (x : other) : option (string * string) :=
  match x with
  | Other _ s _ => match s with LockEventKey schema key => Some (schema, key) | _ => None end
  end.
Definition advisory_locks (t : list other) : list (string * string) := omap lock_of t.

(** What the others have done: tables and log. *)
Definition interfere_one (w : world) (acc : db * list (party * other)) (t : list other)
    : db * list (party * other) :=
  let d' := foldl run_other acc.1 t in
  if decide (Forall (λ id, agree_on id acc.1 d') (held_rows w) ∧
             Forall (λ k, k ∉ advisory_locks (pending w)) (advisory_locks t))
  then (d', acc.2 ++ (pair Theirs <$> t)) else acc.

Definition interfere (w : world) (m : moment) : world :=
  let acc := foldl (interfere_one w) (w_db w, w_log w) (m_others m) in
  {| w_db := acc.1; w_tx := w_tx w; w_tick := S (w_tick w); w_calls := w_calls w; w_log := acc.2 |}.

Section oracle.
Context (o : nat → moment).

(** Let the others run, then act at this moment. *)
Definition effect {A} (act : moment → world → outcome A * world) : io A := λ w,
  let m := o (w_tick w) in act m (interfere w m).

(** [e.db] or a transaction. *)
Inductive querier := Pool | Tx.

Definition query {X} (q : querier) (s : stmt X) : io X := effect (λ m w,
  match q with
  | Pool =>
    let (a, d') := exec s (m_env m) (w_db w) in
    match m_fault m with
    | NoFault => (a, set_db d' [Other X s (m_env m)] w)
    | FailBefore e => (Err e, w)
    | FailAfter e => (Err e, set_db d' [Other X s (m_env m)] w)
    end
  | Tx =>
    let a := (exec s (m_env m) (view w)).1 in
    match m_fault m with
    | NoFault =>
      (a, if is_ok a then set_tx (Some (pending w ++ [Other X s (m_env m)])) w else w)
    | FailBefore e | FailAfter e => (Err e, w)
    end
  end).

(** [QueryRow(...).Scan(...)]: no row is [pgx.ErrNoRows]. *)
Definition query_row {X} (q : querier) (s : stmt (option X)) : io X :=
  r ← query q s;
  match r with Some x => mret x | None => throw (Sentinel pgx_ErrNoRows) end.

Definition begin_tx : io () := effect (λ m w,
  match m_fault m with
  | NoFault => (Ok (), set_tx (Some []) w)
  | FailBefore e | FailAfter e => (Err e, w)
  end).

Definition commit_tx : io () := effect (λ m w,
  let committed := set_tx None (set_db (view w) (pending w) w) in
  match m_fault m with
  | NoFault => (Ok (), committed)
  | FailBefore e => (Err e, set_tx None w)
  | FailAfter e => (Err e, committed)
  end).

Definition rollback : world → world := set_tx None.

(** [ctx.Err()]. *)
Definition ctx_Err : io (option error) := effect (λ m w, (Ok (m_ctx m), w)).

(** [time.Now()]. *)
Definition time_Now : io Z := effect (λ m w, (Ok (m_now m), w)).

Definition call_step (index : nat) (fn : StepFunc) (sc : StepContext) : io fn_result :=
  effect (λ m w, (Ok (m_fn m), log_call (StepCalled index fn sc) w)).
Definition call_keyFn (index : nat) (fn : KeyFunc) (sc : StepContext) : io key_result :=
  effect (λ m w, (Ok (m_key m), log_call (KeyFnCalled index fn sc) w)).
End oracle.
End effects.

(** ** What the others can do *)

Section interference.
Context `{Postgres}.

Lemma io_bind_eq {A B} (m : io A) (f : A → io B) w :
  (m ≫= f) w = match m w with
               | (Ok a, w') => f a w'
               | (Err e, w') => (Err e, w')
               | (Panic msg a, w') => (Panic msg a, w')
               end.
Proof. done. Qed.
Lemma io_bind_Ok {A B} (m : io A) (k : A → io B) w b w' :
  (m ≫= k) w = (Ok b, w') → ∃ a w1, m w = (Ok a, w1) ∧ k a w1 = (Ok b, w').
Proof. rewrite io_bind_eq. destruct (m w) as [[a|e|msg x] w1]; [|done..]. by exists a, w1. Qed.

Lemma run_other_step d x : db_step d (run_other d x).
Proof. destruct x as [X s e]. by exists X, s, e. Qed.

(** Tables and log, of which the log explains the tables. *)
Definition st (w : world) : db * list (party * other) := (w_db w, w_log w).

(** A statement of another party takes effect, which the oracle has told of. *)
Definition acted (o : nat → moment) (x : other) : Prop := ∃ n t, t ∈ m_others (o n) ∧ x ∈ t.
Definition theirs (o : nat → moment) (x y : db * list (party * other)) : Prop :=
  ∃ t, acted o t ∧ y = (run_other x.1 t, x.2 ++ [(Theirs, t)]).

Lemma theirs_all o d l t :
  Forall (acted o) t → rtc (theirs o) (d, l) (foldl run_other d t, l ++ (pair Theirs <$> t)).
Proof.
  intros Ht. revert d l. induction Ht as [|x t Hx _ IH]; intros d l; cbn; [by rewrite app_nil_r|].
  eapply rtc_l; [by exists x|]. cbn. specialize (IH (run_other d x) (l ++ [(Theirs, x)])).
  by rewrite <-app_assoc in IH.
Qed.

Lemma theirs_db o x y : rtc (theirs o) x y → rtc db_step x.1 y.1.
Proof.
  induction 1 as [|x y z (t & _ & ->) _ IH]; [done|]. eapply rtc_l; [apply run_other_step|exact IH].
Qed.

Lemma interfere_theirs o w n : rtc (theirs o) (st w) (st (interfere w (o n))).
Proof.
  assert (∀ l acc, l ⊆ m_others (o n) → rtc (theirs o) acc (foldl (interfere_one w) acc l)) as Hall.
  { induction l as [|t l IH]; intros acc Hl; [done|]. cbn. etrans; [|apply IH; set_solver].
    unfold interfere_one. case_decide; [|done]. destruct acc as [d0 l1]. apply theirs_all.
    apply Forall_forall. intros x Hx. exists n, t. split; [set_solver|done]. }
  specialize (Hall (m_others (o n)) (st w)). unfold st in *. cbn. destruct (foldl _ _ _). by apply Hall.
Qed.

Lemma interfere_steps w m : rtc db_step (w_db w) (w_db (interfere w m)).
Proof. exact (theirs_db _ _ _ (interfere_theirs (λ _, m) w 0)). Qed.

(** A property of tables that every transaction that is not kept waiting preserves. *)
Lemma interfere_preserves (P : db → Prop) w m :
  (∀ d t, t ∈ m_others m →
     Forall (λ k, k ∉ advisory_locks (pending w)) (advisory_locks t) →
     Forall (λ id, agree_on id d (foldl run_other d t)) (held_rows w) → P d → P (foldl run_other d t)) →
  P (w_db w) → P (w_db (interfere w m)).
Proof.
  cbn. change (w_db w) with (w_db w, w_log w).1 at 1. generalize (w_db w, w_log w).
  induction (m_others m) as [|t l IH]; intros acc Ht HP; [done|]. cbn. apply IH.
  - intros d t' Hin. apply Ht. by right.
  - unfold interfere_one. case_decide as Hd; [|done]. cbn. destruct Hd. apply Ht; [by left|done..].
Qed.

Lemma interfere_held w m id :
  id ∈ held_rows w → agree_on id (w_db w) (w_db (interfere w m)).
Proof.
  intros Hid. apply (interfere_preserves (agree_on id (w_db w))); [|done].
  intros d t _ _ Hall [E1 E2]. rewrite Forall_forall in Hall. destruct (Hall id Hid).
  split; congruence.
Qed.
End interference.
