(* ===== verification/Engine.v ===== *)
(** * engine.go: construction, registration and the client calls

    [New] validates a [Config]; [Register] and the lookups maintain the table of
    immutable workflow versions; [Enqueue], [EmitEvent], [RunStatus], [RunOutput] and
    [Cancel] are programs over the effects.  Strings are stored whole, so quoting
    only matters for [quoteIdentifier] itself. *)

From S2P Require Import Prelude GoText Json Types Builder Postgres Queries Store Timing.
From S2P Require Import Effects.

(** ** Engines *)

Notation workflowKey := (string * Z)%type (only parsing).

Record Engine := {
  schema : string;
  qSchema : string;
  e_queue : string;
  channel : string;
  maxConcurrency : Z;
  pollInterval : Z;
  leaseTTL : Z;
  heartbeatEvery : Z;
  eventTTL : Z;
  workerID : string;
  workflows : gmap workflowKey compiledWorkflow;
}.

(** [cfg_DB] says whether [cfg.DB] is set; the logger plays no part. *)
Record Config := {
  cfg_DB : bool;
  cfg_Schema : string;
  cfg_Queue : string;
  cfg_MaxConcurrency : Z;
  cfg_PollInterval : Z;
  cfg_LeaseTTL : Z;
  cfg_HeartbeatInterval : Z;
}.

Definition ident_start (c : ascii) : bool :=
  in_range 65 90 c || in_range 97 122 c || ch 95 c.
Definition ident_char (c : ascii) : bool := ident_start c || in_range 48 57 c.

(** [^[A-Za-z_][A-Za-z0-9_]*$]. *)
Definition identPattern (s : string) : bool :=
  match s2b s with
  | [] => false
  | c :: cs => ident_start c && forallb ident_char cs
  end.

(** A quote is doubled, and the whole is put between quotes. *)
Definition double_quotes (s : list ascii) : list ascii :=
  s ≫= λ c, if is_dq c then [c; c] else [c].
Definition quoteIdentifier (v : string) : string :=
  b2s ([dquote] ++ double_quotes (s2b v) ++ [dquote]).

(** [e.table(name)]. *)
Definition table (e : Engine) (name : string) : string :=
  qSchema e +:+ "." +:+ quoteIdentifier name.

Definition invalid_schema (s : string) : error := Errorf "durablepg: invalid schema %q" [s].
Definition bad_heartbeat (heartbeat leaseTTL : Z) : error :=
  Errorf "durablepg: HeartbeatInterval %v must be shorter than LeaseTTL %v"
    [Duration_String heartbeat; Duration_String leaseTTL].

(** [gomaxprocs] is [runtime.GOMAXPROCS(0)], [uuid] the result of [newUUID()]. *)
Definition New (cfg : Config) (gomaxprocs : Z) (uuid : outcome string) : outcome Engine :=
  _ ← guard_err (negb (cfg_DB cfg)) (Errorf "durablepg: cfg.DB is required" []);
  let schema := if bool_decide (cfg_Schema cfg = "") then defaultSchema else cfg_Schema cfg in
  _ ← guard_err (negb (identPattern schema) || (maxSchemaLength <? length (s2b schema))%nat)
        (invalid_schema schema);
  let queue := TrimSpace (cfg_Queue cfg) in
  let queue := if bool_decide (queue = "") then defaultQueue else queue in
  let maxConcurrency :=
    if cfg_MaxConcurrency cfg <=? 0 then (if gomaxprocs <=? 0 then 1 else gomaxprocs)
    else cfg_MaxConcurrency cfg in
  let pollInterval :=
    if cfg_PollInterval cfg <=? 0 then defaultPollInterval else cfg_PollInterval cfg in
  let leaseTTL := if cfg_LeaseTTL cfg <=? 0 then defaultLeaseTTL else cfg_LeaseTTL cfg in
  let heartbeat :=
    if cfg_HeartbeatInterval cfg <=? 0 then defaultHeartbeatInterval
    else cfg_HeartbeatInterval cfg in
  _ ← guard_err (leaseTTL <=? heartbeat) (bad_heartbeat heartbeat leaseTTL);
  uuid ← uuid;
  mret {| schema := schema; qSchema := quoteIdentifier schema; e_queue := queue;
          channel := "durablepg_" +:+ schema; maxConcurrency := maxConcurrency;
          pollInterval := pollInterval; leaseTTL := leaseTTL; heartbeatEvery := heartbeat;
          eventTTL := defaultEventTTL; workerID := uuid; workflows := ∅ |}.

(** ** The table of workflows *)

Definition set_workflows (m : gmap workflowKey compiledWorkflow) (e : Engine) : Engine :=
  {| schema := schema e; qSchema := qSchema e; e_queue := e_queue e; channel := channel e;
     maxConcurrency := maxConcurrency e; pollInterval := pollInterval e;
     leaseTTL := leaseTTL e; heartbeatEvery := heartbeatEvery e; eventTTL := eventTTL e;
     workerID := workerID e; workflows := m |}.

(** A compilation error is a panic with that error. *)
Definition Register (e : Engine) (wf : option workflowDefinition) : outcome Engine :=
  match compileWorkflow wf with
  | Ok compiled =>
    let key := (cw_name compiled, cw_version compiled) in
    _ ← guard_panic (bool_decide (is_Some (workflows e !! key)))
          "durablepg: workflow %q version %d already registered" [cw_name compiled; itoa (cw_version compiled)];
    mret (set_workflows (<[key := compiled]> (workflows e)) e)
  | Err (Errorf f a) => Panic f a
  | Err _ => Panic "error" []
  | Panic m a => Panic m a
  end.

Definition RegisterWorkflow (e : Engine) (name : string) (build : list builder_call)
    : outcome Engine := Register e (Some (DefineWorkflow name build)).
Definition RegisterWorkflowVersion (e : Engine) (name : string) (version : Z)
    (build : list builder_call) : outcome Engine :=
  Register e (Some (DefineWorkflowVersion name version build)).

Definition workflow (e : Engine) (name : string) (version : Z) : option compiledWorkflow :=
  workflows e !! (name, version).

(** One iteration of the loop over [e.workflows]. *)
Definition later_version (name : string) (latest : option compiledWorkflow)
    (kw : workflowKey * compiledWorkflow) : option compiledWorkflow :=
  if bool_decide (kw.1.1 = name) &&
     match latest with None => true | Some l => cw_version l <? kw.1.2 end
  then Some kw.2 else latest.

(** The loop over the entries of the map in the order [l]. *)
Definition latest_in (name : string) (l : list (workflowKey * compiledWorkflow))
    : option compiledWorkflow := foldl (later_version name) None l.
Definition latestWorkflow (e : Engine) (name : string) : option compiledWorkflow :=
  latest_in name (map_to_list (workflows e)).

Definition supportedWorkflows (e : Engine) : list string * list Z :=
  ((map_to_list (workflows e)).*1.*1, (map_to_list (workflows e)).*1.*2).

(** ** Client calls *)

Section client.
Context `{Postgres} (o : nat → moment).

Definition defaultOptions (e : Engine) : enqueueOptions :=
  {| o_runID := ""; o_workflowVersion := 0; o_queue := e_queue e;
     o_maxAttempts := defaultMaxAttempts; o_idempotencyKey := ""; o_scheduledAt := None |}.

Definition not_registered (name : string) (version : Z) : error :=
  Errorf "durablepg: workflow %q version %d is not registered" [name; itoa version].

(** [rawInput] is what [json.Marshal(input)] does, [uuid] what [newUUID()] does. *)
Definition Enqueue (e : Engine) (name : string) (rawInput : outcome (list ascii))
    (opts : list (option EnqueueOption)) (uuid : outcome string) : io string :=
  rawInput ← wrapping "durablepg: marshal input: %w" [] (lift rawInput);
  let op := apply_options opts (defaultOptions e) in
  _ ← lift (guard_err (o_workflowVersion op <? 0)
        (Errorf "durablepg: workflow version must be positive" []));
  let wf := if o_workflowVersion op =? 0 then latestWorkflow e name
            else workflow e name (o_workflowVersion op) in
  wf ← lift (from_option Ok (Err (not_registered name (o_workflowVersion op))) wf);
  let queue := TrimSpace (o_queue op) in
  _ ← lift (guard_err (bool_decide (queue = "")) (Errorf "durablepg: queue cannot be empty" []));
  _ ← lift (guard_err (o_maxAttempts op <=? 0)
        (Errorf "durablepg: max attempts must be positive, got %d" [itoa (o_maxAttempts op)]));
  runID ← lift (if bool_decide (o_runID op = "") then uuid else Ok (o_runID op));
  let dedupKey :=
    if bool_decide (o_idempotencyKey op = "") then None else Some (o_idempotencyKey op) in
  r ← wrapping "durablepg: enqueue: %w" []
        (query o Pool (InsertRun runID (cw_name wf) (cw_version wf) queue (o_maxAttempts op)
                 (o_scheduledAt op) rawInput dedupKey (channel e)));
  mret r.1.

Definition Run := Enqueue.
Definition RunWorkflow := Run.

Definition EmitEvent (e : Engine) (key : string) (payload : outcome (list ascii)) : io Z :=
  let key := TrimSpace key in
  _ ← lift (guard_err (bool_decide (key = "")) (Errorf "durablepg: event key is required" []));
  raw ← wrapping "durablepg: marshal event payload: %w" [] (lift payload);
  _ ← wrapping "durablepg: begin emit tx: %w" [] (begin_tx o);
  deferring rollback (
    _ ← wrapping "durablepg: lock event key: %w" [] (query o Tx (LockEventKey (schema e) key));
    r ← wrapping "durablepg: emit event: %w" []
          (query o Tx (EmitEvent_ key raw (Milliseconds (eventTTL e)) (channel e)));
    _ ← wrapping "durablepg: commit emit tx: %w" [] (commit_tx o);
    mret r.1).

Definition isNoRows (e : error) : bool := errors_Is e pgx_ErrNoRows.

(** [Scan] of the columns of [runStatus]. *)
Definition scan_status (id : string) (r : run) : Types.RunStatus :=
  {| rs_ID := id; rs_WorkflowName := workflow_name r; rs_WorkflowVersion := workflow_version r;
     rs_Queue := queue r; rs_State := state r; rs_StepIndex := step_index r; rs_Attempt := attempt r;
     rs_MaxAttempts := max_attempts r; rs_LeaseFailures := lease_failures r;
     rs_NextRunAt := next_run_at r; rs_WaitingEventKey := waiting_event_key r;
     rs_WaitingDeadline := waiting_deadline r; rs_LastError := last_error r;
     rs_CreatedAt := created_at r; rs_UpdatedAt := updated_at r |}.

(** A query whose missing row is [ErrRunNotFound]. *)
Definition RunStatus (id : string) : io Types.RunStatus :=
  r ← catching (query_row o Pool (RunStatus_ id));
  match r with
  | inr (runID, row) => mret (scan_status runID row)
  | inl err =>
    if isNoRows err then throw (Sentinel ErrRunNotFound)
    else throw (Wrapf "durablepg: run status: %w" [] err)
  end.

(** [dst] is what [json.Unmarshal(output, dst)] makes of the bytes: the answer is the
    boolean, the error and the decoded value. *)
Definition RunOutput {T} (id : string) (dst : list ascii → error + T) : io (decoded T) :=
  r ← catching (query_row o Pool (RunOutput_ id));
  match r with
  | inl err =>
    if isNoRows err then throw (Sentinel ErrRunNotFound)
    else throw (Wrapf "durablepg: run output: %w" [] err)
  | inr (st, output) =>
    if negb (bool_decide (st = RunCompleted)) then
      mret {| dec_ok := false; dec_err := None; dec_dst := None |}
    else
      match dst (default (s2b "null") output) with
      | inl err => mret {| dec_ok := true;
          dec_err := Some (Wrapf "durablepg: decode run output: %w" [] err); dec_dst := None |}
      | inr v => mret {| dec_ok := true; dec_err := None; dec_dst := Some v |}
      end
  end.

Record CancelOutcome := { Cancelled : bool; State : RunState }.

Definition Cancel (id : string) : io CancelOutcome :=
  rows ← wrapping "durablepg: cancel run: %w" [] (query o Pool (CancelRun id));
  if 0 <? rows then mret {| Cancelled := true; State := RunCancelled |}
  else
    r ← catching (query_row o Pool (RunState_ id));
    match r with
    | inr st => mret {| Cancelled := false; State := st |}
    | inl err =>
      if isNoRows err then throw (Sentinel ErrRunNotFound)
      else throw (Wrapf "durablepg: read cancelled run: %w" [] err)
    end.
End client.
