(* ===== verification/SqlText.v ===== *)
(** * queries.go: the text of the statements

    [newQueries] renders every statement once per schema.  [lex] splits a text to tokens
    by the lexical rules of SQL, and the theorems say what the server reads: the schema
    name is one quoted identifier wherever it stands, whatever its characters, every
    parameter that a call passes has its placeholder, and every table is the schema's. *)

From S2P Require Import Prelude GoText Json Types Builder Postgres Queries Engine.

(** ** [fmt.Sprintf] and [strings.Contains] *)

(** [%[k]s] and [%[k]d] name the argument [k]; [%s] takes the next one. *)
Inductive piece := Lit (c : ascii) | Verb (k : nat).

(** The verb that a text starts with: its argument, and how many bytes it takes. *)
Definition verb (next : nat) (fmt : list ascii) : option (nat * nat) :=
  let is_verb c := ch 115 c || ch 100 c in
  match fmt with
  | p :: v :: r =>
    if negb (ch 37 p) then None
    else if is_verb v then Some (next, 2%nat)
    else
      match r with
      | d :: c :: v' :: _ =>
        if ch 91 v && is_digit d && ch 93 c && is_verb v'
        then Some (Z.to_nat (bval d - 49), 5%nat) else None
      | _ => None
      end
  | _ => None
  end.
Fixpoint fmt_pieces (skip next : nat) (fmt : list ascii) : list piece :=
  match fmt with
  | [] => []
  | c :: r =>
    match skip with
    | S k => fmt_pieces k next r
    | O =>
      match verb next (c :: r) with
      | Some (k, len) => Verb k :: fmt_pieces (len - 1) (S k) r
      | None => Lit c :: fmt_pieces 0 next r
      end
    end
  end.

Definition expand (args : list string) (p : piece) : list ascii :=
  match p with Lit c => [c] | Verb k => s2b (default "%!s(BADINDEX)" (args !! k)) end.
Definition Sprintf (fmt : string) (args : list string) : string :=
  b2s (fmt_pieces 0 0 (s2b fmt) ≫= expand args).

Fixpoint starts_with {A} `{EqDecision A} (sub s : list A) : bool :=
  match sub, s with
  | [], _ => true
  | a :: sub', b :: s' => bool_decide (a = b) && starts_with sub' s'
  | _ :: _, [] => false
  end.
Fixpoint Contains {A} `{EqDecision A} (s sub : list A) : bool :=
  starts_with sub s || match s with [] => false | _ :: s' => Contains s' sub end.

(** ** The statements *)

(** The constant [fence]. *)
Definition fence_text : string :=
  "id = $1 AND state = 'leased' AND lease_token = $2 AND lease_until > clock_timestamp()".

Record queries := {
  sql_lockEventKey : string;
  sql_insertRun : string;
  sql_emitEvent : string;
  sql_claimSingle : string;
  sql_claimMulti : string;
  sql_renewLeases : string;
  sql_commitStep : string;
  sql_completeRun : string;
  sql_parkSleep : string;
  sql_latestEvent : string;
  sql_parkWait : string;
  sql_failOrRetry : string;
  sql_recoverLeases : string;
  sql_promoteTimedOut : string;
  sql_pruneEvents : string;
  sql_runStatus : string;
  sql_runOutput : string;
  sql_cancelRun : string;
  sql_runState : string;
}.

Definition dq : string := String dquote EmptyString.

(** The local function [claim]. *)
Definition claim_query (runs checkpoints predicate : string) : string := Sprintf "
WITH picked AS (
	SELECT id FROM %[1]s
	WHERE queue = $1 AND state = 'ready' AND next_run_at <= now() AND %[3]s
	ORDER BY next_run_at, id
	LIMIT $2
	FOR UPDATE SKIP LOCKED
)
UPDATE %[1]s wr
SET state = 'leased',
	lease_token = gen_random_uuid(),
	lease_until = clock_timestamp() + $3::bigint * INTERVAL '1 millisecond',
	updated_at = now()
FROM picked
WHERE wr.id = picked.id
RETURNING wr.id::text, wr.workflow_name, wr.workflow_version, wr.step_index, wr.attempt,
	wr.lease_token::text, wr.input_json,
	(SELECT COALESCE(jsonb_agg(jsonb_build_array(c.step_index, c.value_json)), '[]'::jsonb)
	 FROM %[2]s c WHERE c.run_id = wr.id) AS checkpoints"
  [runs; checkpoints; predicate].

Definition newQueries (qSchema : string) : queries :=
  let runs := qSchema +:+ ".workflow_runs" in
  let checkpoints := qSchema +:+ ".step_checkpoints" in
  let events := qSchema +:+ ".event_log" in
  let claim := claim_query runs checkpoints in
  {| sql_lockEventKey := "SELECT pg_advisory_xact_lock(hashtext($1), hashtext($2))";
     sql_insertRun := Sprintf ("
WITH ins AS (
	INSERT INTO %[1]s (id, workflow_name, workflow_version, queue, state, max_attempts,
		next_run_at, input_json, dedup_key)
	VALUES ($1, $2, $3, $4, 'ready', $5, COALESCE($6, now()), $7, $8)
	ON CONFLICT (workflow_name, dedup_key) WHERE dedup_key IS NOT NULL
	DO UPDATE SET updated_at = now()
	RETURNING id, queue, next_run_at, (xmax = 0) AS inserted
), notified AS (
	SELECT pg_notify($9, queue) FROM ins WHERE inserted AND next_run_at <= now()
)
SELECT id::text, (SELECT count(*) FROM notified) FROM ins") [runs];
     sql_emitEvent := Sprintf ("
WITH event AS (
	INSERT INTO %[3]s (event_key, payload_json, expires_at)
	VALUES ($1, $2, now() + $3::bigint * INTERVAL '1 millisecond')
), woken AS (
	UPDATE %[1]s
	SET state = 'ready', next_run_at = now(), waiting_event_key = NULL,
		waiting_deadline = NULL, last_error = NULL, updated_at = now()
	WHERE state = 'waiting_event' AND waiting_event_key = $1 AND waiting_deadline > now()
	RETURNING id, step_index, queue
), recorded AS (
	INSERT INTO %[2]s (run_id, step_index, value_json)
	SELECT id, step_index, jsonb_build_object('received', $2::jsonb) FROM woken
	ON CONFLICT (run_id, step_index) DO NOTHING
), notified AS (
	SELECT pg_notify($4, queue) FROM (SELECT DISTINCT queue FROM woken) q
)
SELECT (SELECT count(*) FROM woken), (SELECT count(*) FROM notified)") [runs; checkpoints; events];
     sql_claimSingle := claim "workflow_name = $4 AND workflow_version = $5";
     sql_claimMulti := claim
       "(workflow_name, workflow_version) IN (SELECT * FROM unnest($4::text[], $5::integer[]))";
     sql_renewLeases := Sprintf ("
UPDATE %[1]s wr
SET lease_until = clock_timestamp() + $3::bigint * INTERVAL '1 millisecond', updated_at = now()
FROM unnest($1::uuid[], $2::uuid[]) AS claim(id, token)
WHERE wr.id = claim.id AND wr.lease_token = claim.token
  AND wr.state = 'leased' AND wr.lease_until > clock_timestamp()
RETURNING wr.lease_token::text") [runs];
     sql_commitStep := Sprintf ("
WITH owned AS MATERIALIZED (
	SELECT id FROM %[1]s WHERE %[3]s AND step_index <= $3 FOR UPDATE
), inserted AS (
	INSERT INTO %[2]s (run_id, step_index, value_json)
	SELECT id, $3, $4 FROM owned
	ON CONFLICT (run_id, step_index) DO NOTHING
	RETURNING 1
), existing AS (
	SELECT value_json FROM %[2]s
	WHERE run_id = $1 AND step_index = $3 AND NOT EXISTS (SELECT 1 FROM inserted)
), advanced AS (
	UPDATE %[1]s wr
	SET step_index = $3 + 1, last_error = NULL, lease_failures = 0, updated_at = now(),
		state = CASE WHEN $5 THEN 'completed' ELSE wr.state END,
		output_json = CASE WHEN $5 THEN COALESCE((SELECT value_json FROM existing), $4) END,
		lease_token = CASE WHEN $5 THEN NULL ELSE wr.lease_token END,
		lease_until = CASE WHEN $5 THEN NULL ELSE wr.lease_until END
	FROM owned
	WHERE wr.id = owned.id
	  AND (EXISTS (SELECT 1 FROM inserted) OR EXISTS (SELECT 1 FROM existing))
	RETURNING wr.id
)
SELECT (SELECT value_json FROM existing) FROM advanced") [runs; checkpoints; fence_text];
     sql_completeRun := Sprintf ("
UPDATE %[1]s
SET state = 'completed', step_index = $3, output_json = $4, lease_token = NULL,
	lease_until = NULL, last_error = NULL, updated_at = now()
WHERE %[2]s") [runs; fence_text];
     sql_parkSleep := Sprintf ("
UPDATE %[1]s
SET state = 'ready', step_index = $3,
	next_run_at = now() + $4::bigint * INTERVAL '1 millisecond',
	lease_token = NULL, lease_until = NULL, last_error = NULL, lease_failures = 0,
	updated_at = now()
WHERE %[2]s") [runs; fence_text];
     sql_latestEvent := Sprintf ("
SELECT payload_json FROM %[1]s
WHERE event_key = $1 AND expires_at > now()
ORDER BY created_at DESC, id DESC
LIMIT 1") [events];
     sql_parkWait := Sprintf ("
UPDATE %[1]s
SET state = 'waiting_event', step_index = $3, waiting_event_key = $4,
	waiting_deadline = now() + $5::bigint * INTERVAL '1 millisecond',
	lease_token = NULL, lease_until = NULL, last_error = NULL, lease_failures = 0,
	updated_at = now()
WHERE %[2]s") [runs; fence_text];
     sql_failOrRetry := Sprintf ("
UPDATE %[1]s
SET state = CASE WHEN $3 >= max_attempts THEN 'failed' ELSE 'ready' END,
	attempt = $3,
	next_run_at = now() + $4::bigint * INTERVAL '1 millisecond',
	last_error = $5, lease_token = NULL, lease_until = NULL, updated_at = now()
WHERE %[2]s") [runs; fence_text];
     sql_recoverLeases := Sprintf ("
WITH picked AS (
	SELECT id FROM %[1]s
	WHERE state = 'leased' AND lease_until < statement_timestamp()
	ORDER BY lease_until, id
	LIMIT %[2]d
	FOR UPDATE SKIP LOCKED
)
UPDATE %[1]s wr
SET state = CASE WHEN wr.lease_failures + 1 >= wr.max_attempts THEN 'failed' ELSE 'ready' END,
	lease_failures = wr.lease_failures + 1,
	next_run_at = clock_timestamp()
		+ LEAST(60000, 250 * (1 << LEAST(wr.lease_failures, 8))) * INTERVAL '1 millisecond',
	lease_token = NULL, lease_until = NULL, last_error = 'lease expired', updated_at = now()
FROM picked
WHERE wr.id = picked.id") [runs; itoa maintenanceBatch];
     sql_promoteTimedOut := Sprintf ("
WITH picked AS (
	SELECT id FROM %[1]s
	WHERE state = 'waiting_event' AND waiting_deadline <= statement_timestamp()
	ORDER BY waiting_deadline, id
	LIMIT %[3]d
	FOR UPDATE SKIP LOCKED
), promoted AS (
	UPDATE %[1]s wr
	SET state = 'ready', next_run_at = now(), waiting_event_key = NULL,
		waiting_deadline = NULL, updated_at = now()
	FROM picked
	WHERE wr.id = picked.id
	RETURNING wr.id, wr.step_index, wr.queue
), recorded AS (
	INSERT INTO %[2]s (run_id, step_index, value_json)
	SELECT id, step_index, '" +:+ dq +:+ "timed_out" +:+ dq +:+ "'::jsonb FROM promoted
	ON CONFLICT (run_id, step_index) DO NOTHING
), notified AS (
	SELECT pg_notify($1, queue) FROM (SELECT DISTINCT queue FROM promoted) q
)
SELECT (SELECT count(*) FROM promoted), (SELECT count(*) FROM notified)") [runs; checkpoints; itoa maintenanceBatch];
     sql_pruneEvents := Sprintf ("
DELETE FROM %[1]s
WHERE id IN (
	SELECT id FROM %[1]s
	WHERE expires_at <= statement_timestamp()
	ORDER BY expires_at
	LIMIT %[2]d
	FOR UPDATE SKIP LOCKED
)") [events; itoa pruneBatch];
     sql_runStatus := Sprintf ("
SELECT id::text, workflow_name, workflow_version, queue, state, step_index, attempt, max_attempts,
	lease_failures, next_run_at, waiting_event_key, waiting_deadline, last_error,
	created_at, updated_at
FROM %[1]s WHERE id = $1") [runs];
     sql_runOutput := Sprintf ("SELECT state, output_json FROM %s WHERE id = $1") [runs];
     sql_cancelRun := Sprintf ("
UPDATE %[1]s
SET state = 'cancelled', lease_token = NULL, lease_until = NULL,
	waiting_event_key = NULL, waiting_deadline = NULL, updated_at = now()
WHERE id = $1 AND state IN ('ready', 'leased', 'waiting_event')") [runs];
     sql_runState := Sprintf ("SELECT state FROM %s WHERE id = $1") [runs] |}.

(** ** The calls *)

(** What the Go code passes for the placeholders [$1], [$2], ..., in their order. *)
Inductive arg :=
  | AText (s : string) | AInt (n : Z) | ABool (b : bool) | ABytes (b : list ascii)
  | ATexts (l : list string) | AInts (l : list Z) | ANull.

Definition opt_arg {A} (f : A → arg) (x : option A) : arg := from_option f ANull x.

Definition stmt_args {X} (s : stmt X) : list arg :=
  match s with
  | LockEventKey schema key => [AText schema; AText key]
  | InsertRun id name version q max_att scheduled input dedup channel =>
    [AText id; AText name; AInt version; AText q; AInt max_att; opt_arg AInt scheduled;
     ABytes input; opt_arg AText dedup; AText channel]
  | EmitEvent_ key payload ttl_ms channel => [AText key; ABytes payload; AInt ttl_ms; AText channel]
  | ClaimSingle q limit ttl_ms name version =>
    [AText q; AInt limit; AInt ttl_ms; AText name; AInt version]
  | ClaimMulti q limit ttl_ms names versions =>
    [AText q; AInt limit; AInt ttl_ms; ATexts names; AInts versions]
  | RenewLeases ids tokens ttl_ms => [ATexts ids; ATexts tokens; AInt ttl_ms]
  | CommitStep id token index value complete =>
    [AText id; AText token; AInt index; ABytes value; ABool complete]
  | CompleteRun id token index output => [AText id; AText token; AInt index; opt_arg ABytes output]
  | ParkSleep id token next ms => [AText id; AText token; AInt next; AInt ms]
  | LatestEvent key => [AText key]
  | ParkWait id token index key ms => [AText id; AText token; AInt index; AText key; AInt ms]
  | FailOrRetry id token att ms msg => [AText id; AText token; AInt att; AInt ms; AText msg]
  | RecoverLeases => []
  | PromoteTimedOut channel => [AText channel]
  | PruneEvents => []
  | RunStatus_ id => [AText id]
  | RunOutput_ id => [AText id]
  | CancelRun id => [AText id]
  | RunState_ id => [AText id]
  end.

Definition stmt_text (q : queries) {X} (s : stmt X) : string :=
  match s with
  | LockEventKey _ _ => sql_lockEventKey q
  | InsertRun _ _ _ _ _ _ _ _ _ => sql_insertRun q
  | EmitEvent_ _ _ _ _ => sql_emitEvent q
  | ClaimSingle _ _ _ _ _ => sql_claimSingle q
  | ClaimMulti _ _ _ _ _ => sql_claimMulti q
  | RenewLeases _ _ _ => sql_renewLeases q
  | CommitStep _ _ _ _ _ => sql_commitStep q
  | CompleteRun _ _ _ _ => sql_completeRun q
  | ParkSleep _ _ _ _ => sql_parkSleep q
  | LatestEvent _ => sql_latestEvent q
  | ParkWait _ _ _ _ _ => sql_parkWait q
  | FailOrRetry _ _ _ _ _ => sql_failOrRetry q
  | RecoverLeases => sql_recoverLeases q
  | PromoteTimedOut _ => sql_promoteTimedOut q
  | PruneEvents => sql_pruneEvents q
  | RunStatus_ _ => sql_runStatus q
  | RunOutput_ _ => sql_runOutput q
  | CancelRun _ => sql_cancelRun q
  | RunState_ _ => sql_runState q
  end.

(** ** What the server reads *)

Inductive token :=
  | TWord (w : list ascii) | TQuoted (w : list ascii) | TString (w : list ascii)
  | TParam (n : list ascii) | TSym (c : ascii).

#[global] Instance token_eq_dec : EqDecision token.
Proof. solve_decision. Defined.

(** Inside of what the lexer is; [LQuotedEnd] and [LStringEnd] have just read a quote,
    which ends the token unless a second one follows. *)
Inductive lex_mode :=
  | LNone | LWord (w : list ascii) | LParam (w : list ascii)
  | LQuoted (w : list ascii) | LQuotedEnd (w : list ascii)
  | LString (w : list ascii) | LStringEnd (w : list ascii).

(** The mode and the tokens so far, newest first. *)
Definition lex_state : Type := lex_mode * list token.

Definition is_sq := ch 39.
Definition lex_fresh (c : ascii) (out : list token) : lex_state :=
  if is_ws c then (LNone, out)
  else if is_dq c then (LQuoted [], out)
  else if is_sq c then (LString [], out)
  else if ch 36 c then (LParam [], out)
  else if ident_char c then (LWord [c], out)
  else (LNone, TSym c :: out).

Definition lex_step (st : lex_state) (c : ascii) : lex_state :=
  let (m, out) := st in
  match m with
  | LNone => lex_fresh c out
  | LWord w => if ident_char c then (LWord (w ++ [c]), out) else lex_fresh c (TWord w :: out)
  | LParam w => if is_digit c then (LParam (w ++ [c]), out) else lex_fresh c (TParam w :: out)
  | LQuoted w => if is_dq c then (LQuotedEnd w, out) else (LQuoted (w ++ [c]), out)
  | LQuotedEnd w => if is_dq c then (LQuoted (w ++ [c]), out) else lex_fresh c (TQuoted w :: out)
  | LString w => if is_sq c then (LStringEnd w, out) else (LString (w ++ [c]), out)
  | LStringEnd w => if is_sq c then (LString (w ++ [c]), out) else lex_fresh c (TString w :: out)
  end.

Definition lex_finish (st : lex_state) : option (list token) :=
  let (m, out) := st in
  match m with
  | LNone => Some (reverse out)
  | LWord w => Some (reverse (TWord w :: out))
  | LParam w => Some (reverse (TParam w :: out))
  | LQuotedEnd w => Some (reverse (TQuoted w :: out))
  | LStringEnd w => Some (reverse (TString w :: out))
  | LQuoted _ | LString _ => None
  end.

Definition lex_from (st : lex_state) (s : string) : lex_state := foldl lex_step st (s2b s).
Definition lex (s : string) : option (list token) := lex_finish (lex_from (LNone, []) s).

(** The tokens of a statement in the default schema, and those of another schema. *)
Definition stmt_tokens {X} (s : stmt X) : list token :=
  default [] (lex (stmt_text (newQueries (quoteIdentifier defaultSchema)) s)).
Definition in_schema (schema : list ascii) (t : token) : token :=
  if decide (t = TQuoted (s2b defaultSchema)) then TQuoted schema else t.

Definition is_table (w : list ascii) : Prop :=
  w ∈ s2b <$> ["workflow_runs"; "step_checkpoints"; "event_log"].
#[global] Instance is_table_dec w : Decision (is_table w).
Proof. unfold is_table. apply _. Defined.

(** Every table follows [schema .]; [p2] and [p1] are the two tokens before. *)
Definition table_token (t : token) : bool :=
  match t with TWord w => bool_decide (is_table w) | _ => false end.
Fixpoint qualified_from (schema : list ascii) (p2 p1 : option token) (toks : list token) : bool :=
  match toks with
  | [] => true
  | t :: toks' =>
    (negb (table_token t) ||
     (bool_decide (p2 = Some (TQuoted schema)) && bool_decide (p1 = Some (TSym ".")))) &&
    qualified_from schema p1 (Some t) toks'
  end.
Definition qualified (schema : list ascii) : list token → bool := qualified_from schema None None.

(** The parameters that a text declares. *)
Definition placeholders (toks : list token) : list (list ascii) :=
  omap (λ t, match t with TParam w => Some w | _ => None end) toks.

(** ** Lexing a rendered text *)

Lemma lex_from_app st a b : lex_from st (a +:+ b) = lex_from (lex_from st a) b.
Proof. unfold lex_from. by rewrite s2b_app, foldl_app. Qed.

(** What an argument of [Sprintf] does to the lexer. *)
Definition reads (arg : string) (act : lex_state → lex_state) : Prop :=
  ∀ st, lex_from st arg = act st.

Definition lex_piece (acts : list (lex_state → lex_state)) (st : lex_state) (p : piece) : lex_state :=
  match p with
  | Lit c => lex_step st c
  | Verb k => match acts !! k with Some act => act st | None => lex_from st "%!s(BADINDEX)" end
  end.

Lemma lex_Sprintf fmt args acts st :
  Forall2 reads args acts →
  lex_from st (Sprintf fmt args) = foldl (lex_piece acts) st (fmt_pieces 0 0 (s2b fmt)).
Proof.
  intros Hargs. unfold lex_from, Sprintf. rewrite s2b_b2s.
  generalize (fmt_pieces 0 0 (s2b fmt)) as ps. intros ps. revert st.
  induction ps as [|p ps IH]; intros st; [done|]. cbn. rewrite foldl_app, IH. f_equal.
  destruct p as [c|k]; [done|]. cbn.
  destruct (args !! k) as [a|] eqn:Ha.
  - destruct (Forall2_lookup_l _ _ _ _ _ Hargs Ha) as (act & Hact & Hr). cbn. rewrite Hact.
    apply Hr.
  - pose proof Ha as Hn%lookup_ge_None. rewrite (Forall2_length _ _ _ Hargs) in Hn.
    by rewrite (proj2 (lookup_ge_None _ _) Hn).
Qed.

(** Between blanks, a quoted identifier is one token, whatever its bytes are. *)
Definition lex_ident (v : string) (st : lex_state) : lex_state :=
  match st with
  | (LNone, out) => (LQuotedEnd (s2b v), out)
  | _ => lex_from st (quoteIdentifier v)
  end.

Lemma lex_double_quotes w v out :
  foldl lex_step (LQuoted w, out) (double_quotes v) = (LQuoted (w ++ v), out).
Proof.
  revert w. induction v as [|c v IH]; intros w; [by rewrite app_nil_r|].
  unfold double_quotes in *. rewrite bind_cons, foldl_app.
  replace (foldl lex_step (LQuoted w, out) (if is_dq c then [c; c] else [c]))
    with (LQuoted (w ++ [c]), out) by (destruct (is_dq c) eqn:E; cbn; by rewrite ?E; cbn; rewrite ?E).
  by rewrite IH, <-app_assoc.
Qed.

Lemma reads_ident v : reads (quoteIdentifier v) (lex_ident v).
Proof.
  intros [m out]. destruct m; try done. unfold lex_from, quoteIdentifier, lex_ident.
  rewrite s2b_b2s, foldl_app. cbn [foldl]. change (lex_step (LNone, out) dquote) with (LQuoted [], out).
  by rewrite foldl_app, lex_double_quotes.
Qed.

Lemma reads_app a b f g : reads a f → reads b g → reads (a +:+ b) (λ st, g (f st)).
Proof. intros Ha Hb st. by rewrite lex_from_app, Ha, Hb. Qed.
Lemma reads_text a : reads a (λ st, lex_from st a).
Proof. done. Qed.
Lemma reads_table v t : reads (quoteIdentifier v +:+ t) (λ st, lex_from (lex_ident v st) t).
Proof. apply (reads_app _ _ _ _ (reads_ident v) (reads_text t)). Qed.

Create HintDb sqltext.
#[export] Hint Resolve reads_table | 0 : sqltext.
#[export] Hint Resolve reads_text | 5 : sqltext.
#[export] Hint Constructors Forall2 : sqltext.

(** Lexing a rendered statement, with the schema name left open. *)
Ltac lex_statement :=
  unfold lex; try (erewrite lex_Sprintf; [|solve [eauto 6 with sqltext]]); unfold lex_ident;
  repeat match goal with |- context [s2b ?v] => is_var v; generalize (s2b v); intros ? end;
  vm_compute; reflexivity.

Lemma stmt_lex {X} (s : stmt X) schema :
  lex (stmt_text (newQueries (quoteIdentifier schema)) s) =
  Some (in_schema (s2b schema) <$> stmt_tokens s).
Proof.
  unfold newQueries, claim_query.
  destruct s; cbn [stmt_text sql_lockEventKey sql_insertRun sql_emitEvent sql_claimSingle
    sql_claimMulti sql_renewLeases sql_commitStep sql_completeRun sql_parkSleep sql_latestEvent
    sql_parkWait sql_failOrRetry sql_recoverLeases sql_promoteTimedOut sql_pruneEvents
    sql_runStatus sql_runOutput sql_cancelRun sql_runState]; lex_statement.
Qed.

(** ** What the texts say *)

Lemma in_schema_placeholders schema toks :
  placeholders (in_schema schema <$> toks) = placeholders toks.
Proof.
  unfold placeholders. induction toks as [|t toks IH]; [done|]. cbn. rewrite IH.
  unfold in_schema. case_decide as E; [by subst|done].
Qed.

Lemma in_schema_table schema t : table_token (in_schema schema t) = table_token t.
Proof. unfold in_schema. case_decide as E; [by subst|done]. Qed.

Lemma in_schema_qualified schema toks :
  qualified (s2b defaultSchema) toks = true → qualified schema (in_schema schema <$> toks) = true.
Proof.
  unfold qualified.
  enough (∀ p2 p1, qualified_from (s2b defaultSchema) p2 p1 toks = true →
    qualified_from schema (in_schema schema <$> p2) (in_schema schema <$> p1)
      (in_schema schema <$> toks) = true) as H by (apply (H None None)).
  induction toks as [|t toks IH]; intros p2 p1; [done|]. cbn.
  intros [H Hrest]%andb_prop. apply andb_true_intro. split; [|by apply (IH p1 (Some t))].
  rewrite in_schema_table. apply orb_true_iff in H as [->|H]; [done|].
  apply orb_true_iff. right. apply andb_prop in H as [H2 H1]. bool_to_prop. subst.
  apply andb_true_intro. unfold in_schema. cbn. rewrite decide_True by done.
  by rewrite !bool_decide_eq_true.
Qed.

Lemma qualified_from_before schema pre hist w post :
  qualified_from schema (hist !! 1%nat) (hist !! 0%nat) (pre ++ TWord w :: post) = true →
  is_table w → ∃ pre', reverse pre ++ hist = TSym "." :: TQuoted schema :: pre'.
Proof.
  revert hist. induction pre as [|t pre IH]; intros hist [H Hrest]%andb_prop Hw.
  - cbn in H. rewrite bool_decide_eq_true_2 in H by done. cbn in H. apply andb_prop in H as [H2 H1].
    bool_to_prop. destruct hist as [|a [|b hist]]; try done. cbn in *. simplify_eq. by eexists.
  - destruct (IH (t :: hist)) as [pre' Hpre]; [by destruct hist|done|]. exists pre'.
    by rewrite reverse_cons, <-app_assoc.
Qed.

Lemma qualified_before schema toks pre w post :
  qualified schema toks = true → toks = pre ++ TWord w :: post → is_table w →
  ∃ pre', pre = pre' ++ [TQuoted schema; TSym "."].
Proof.
  intros Hq -> Hw. destruct (qualified_from_before schema pre [] w post Hq Hw) as [pre' Hpre].
  rewrite app_nil_r in Hpre. exists (reverse pre'). apply (inj reverse). rewrite Hpre.
  by rewrite reverse_app, reverse_involutive.
Qed.

Lemma starts_with_spec {A} `{EqDecision A} (sub s : list A) :
  starts_with sub s = true ↔ ∃ post, s = sub ++ post.
Proof.
  revert s. induction sub as [|a sub IH]; intros s; cbn; [split; [by eexists|done]|].
  destruct s as [|b s]; [split; [done|by intros [? ?]]|].
  rewrite andb_true_iff, bool_decide_eq_true, IH. naive_solver.
Qed.
Lemma Contains_spec {A} `{EqDecision A} (s sub : list A) :
  Contains s sub = true ↔ ∃ pre post, s = pre ++ sub ++ post.
Proof.
  induction s as [|a s IH]; cbn; rewrite orb_true_iff, starts_with_spec.
  - split; [intros [[post ->]|[=]]; by exists [], post|].
    intros (pre & post & H). left. exists post. by destruct pre.
  - rewrite IH. split.
    + intros [[post ->]|(pre & post & ->)]; [by exists [], post|by exists (a :: pre), post].
    + intros ([|b pre] & post & H); [left; by exists post|].
      injection H as -> H. right. by exists pre, post.
Qed.

(** The statements that a worker runs for the run it has claimed. *)
Definition fenced_stmt {X} (s : stmt X) : bool :=
  match s with
  | CommitStep _ _ _ _ _ | CompleteRun _ _ _ _ | ParkSleep _ _ _ _ | ParkWait _ _ _ _ _
  | FailOrRetry _ _ _ _ _ => true
  | _ => false
  end.

(** The placeholders of [n] arguments. *)
Definition parameters (n : nat) : list (list ascii) := (λ k, itoa_bytes (Z.of_nat k)) <$> seq 1 n.

(** What the server reads of a statement, in the default schema. *)
Definition stmt_wf {X} (s : stmt X) : bool :=
  let toks := stmt_tokens s in
  let params := parameters (length (stmt_args s)) in
  forallb (λ w, bool_decide (w ∈ params)) (placeholders toks) &&
  forallb (λ w, bool_decide (w ∈ placeholders toks)) params &&
  qualified (s2b defaultSchema) toks &&
  (negb (fenced_stmt s) || Contains toks (default [] (lex fence_text))).

Lemma stmt_wf_all {X} (s : stmt X) : stmt_wf s = true.
Proof. by destruct s; vm_compute. Qed.

(** C27: Whatever the schema is called, the server reads the same statement of
    queries.go: the text of every statement is complete, and its tokens are those of the
    text for the default schema with the schema's name, as one identifier, in the place
    of the default's.  Its placeholders are [$1] to [$n] for the [n] arguments which the
    call passes, every table in it is the schema's, and those which a worker runs for its
    claim have the conditions of the fence. *)
Theorem statements_read_as_written {X} (s : stmt X) schema :
  ∃ toks,
    lex (stmt_text (newQueries (quoteIdentifier schema)) s) = Some toks ∧
    toks = in_schema (s2b schema) <$> stmt_tokens s ∧
    (∀ w, w ∈ placeholders toks ↔ w ∈ parameters (length (stmt_args s))) ∧
    (∀ pre w post, toks = pre ++ TWord w :: post → is_table w →
       ∃ pre', pre = pre' ++ [TQuoted (s2b schema); TSym "."]) ∧
    (fenced_stmt s = true →
       ∃ pre fence post, lex fence_text = Some fence ∧ toks = pre ++ fence ++ post).
Proof.
  exists (in_schema (s2b schema) <$> stmt_tokens s). pose proof (stmt_wf_all s) as Hwf.
  unfold stmt_wf in Hwf. apply andb_prop in Hwf as [[[Hdecl Hused]%andb_prop Hq]%andb_prop Hf].
  rewrite forallb_forall in Hdecl, Hused. split_and!.
  - apply stmt_lex.
  - done.
  - intros w. rewrite in_schema_placeholders. split; intros Hw.
    + by eapply bool_decide_eq_true, Hdecl, list_elem_of_In.
    + by eapply bool_decide_eq_true, Hused, list_elem_of_In.
  - intros pre w post. by apply qualified_before, in_schema_qualified.
  - intros Hs. rewrite Hs in Hf. apply Contains_spec in Hf as (pre & post & ->).
    exists (in_schema (s2b schema) <$> pre), (default [] (lex fence_text)),
      (in_schema (s2b schema) <$> post).
    split; [by vm_compute|]. rewrite !fmap_app. do 2 f_equal.
Qed.
