(* ===== verification/Registry.v ===== *)
(** * Construction and registration

    What [New] guarantees of an engine, the table of immutable workflow versions,
    the choice of the latest version, and the quoting of identifiers. *)

From S2P Require Import Prelude GoText Json Types Builder Postgres Queries Store Timing.
From S2P Require Import Effects Engine.

(** ** Engines *)

(** What the rest of the package relies on. *)
Record engine_ok (e : Engine) : Prop := {
  eo_schema : identPattern (schema e) = true;
  eo_schema_length : (length (s2b (schema e)) ≤ maxSchemaLength)%nat;
  eo_channel : channel e = "durablepg_" +:+ schema e;
  eo_channel_length : (length (s2b (channel e)) < 63)%nat;
  eo_queue : name_ok (e_queue e);
  eo_concurrency : 1 <= maxConcurrency e;
  eo_poll : 0 < pollInterval e;
  eo_heartbeat : 0 < heartbeatEvery e < leaseTTL e;
  eo_event_ttl : 0 < eventTTL e;
}.

(** An engine that [New] returns is usable: its schema is a plain identifier short
    enough for the notification channel, its queue is a nonempty trimmed name, it
    has room for at least one run, its intervals are positive and its heartbeat is
    shorter than its lease; settings given in the configuration are kept. *)
Theorem New_returns_usable_engine cfg gomaxprocs uuid e :
  New cfg gomaxprocs uuid = Ok e →
  engine_ok e ∧ workflows e = ∅ ∧
  (cfg_Schema cfg ≠ "" → schema e = cfg_Schema cfg) ∧
  (TrimSpace (cfg_Queue cfg) ≠ "" → e_queue e = TrimSpace (cfg_Queue cfg)) ∧
  (0 < cfg_MaxConcurrency cfg → maxConcurrency e = cfg_MaxConcurrency cfg) ∧
  (0 < cfg_LeaseTTL cfg → leaseTTL e = cfg_LeaseTTL cfg) ∧
  (0 < cfg_HeartbeatInterval cfg → heartbeatEvery e = cfg_HeartbeatInterval cfg).
Proof.
  unfold New. intros Hn. invert_outcome. cbn.
  match goal with Hs : _ || _ = false |- _ => apply orb_false_iff in Hs as [Hid Hlen] end.
  apply negb_false_iff in Hid. apply Nat.ltb_ge in Hlen. bool_to_prop.
  split_and!; try done.
  - split; cbn; try done.
    + rewrite s2b_app, length_app. unfold maxSchemaLength in Hlen. cbn [length s2b]. lia.
    + destruct (bool_decide (TrimSpace (cfg_Queue cfg) = "")) eqn:E; bool_to_prop;
        [|by apply TrimSpace_name_ok]. split; [done|]. split; by vm_compute.
    + destruct (cfg_MaxConcurrency cfg <=? 0) eqn:E, (gomaxprocs <=? 0) eqn:E'; bool_to_prop; lia.
    + destruct (cfg_PollInterval cfg <=? 0) eqn:E; bool_to_prop; [done|lia].
    + split; [|done]. destruct (cfg_HeartbeatInterval cfg <=? 0) eqn:E; bool_to_prop; [done|lia].
  - intros Hs. by rewrite bool_decide_eq_false_2.
  - intros Hs. by rewrite bool_decide_eq_false_2.
  - intros Hs. by rewrite (proj2 (Z.leb_gt _ _)).
  - intros Hs. by rewrite (proj2 (Z.leb_gt _ _)).
  - intros Hs. by rewrite (proj2 (Z.leb_gt (cfg_HeartbeatInterval cfg) 0)).
Qed.

(** ** Registration *)

(** Every entry is filed under its own name and version, and compiled. *)
Definition registry_wf (m : gmap (string * Z) compiledWorkflow) : Prop :=
  ∀ k cw, m !! k = Some cw → k = (cw_name cw, cw_version cw) ∧ compiled_wf cw.

Lemma compile_Ok_Some wf cw : compileWorkflow wf = Ok cw → ∃ d, wf = Some d.
Proof. destruct wf as [d|]; [by exists d|done]. Qed.

Lemma Register_adds e wf e' :
  registry_wf (workflows e) → Register e wf = Ok e' →
  registry_wf (workflows e') ∧
  ∃ cw, compileWorkflow wf = Ok cw ∧ workflows e !! (cw_name cw, cw_version cw) = None ∧
    e' = set_workflows (<[(cw_name cw, cw_version cw) := cw]> (workflows e)) e.
Proof.
  intros Hreg Hr. unfold Register in Hr.
  destruct (compileWorkflow wf) as [cw|er|m a] eqn:Hc; [|by destruct er|done].
  invert_outcome. bool_to_prop.
  assert (workflows e !! (cw_name cw, cw_version cw) = None) as Hnone by by apply eq_None_not_Some.
  split; [|by exists cw]. cbn. intros k cw' [[<- <-]|[_ Hk]]%lookup_insert_Some; [|by apply Hreg].
  destruct (compile_Ok_Some _ _ Hc) as [d ->]. split; [done|by eapply compiled_is_wf].
Qed.

Lemma registry_wf_empty : registry_wf ∅.
Proof. intros n cw Hx. by rewrite lookup_empty in Hx. Qed.

(** Registering adds exactly one version, which was not there, keeps every version
    registered before, and keeps the table well-formed; nothing else of the engine
    changes. *)
Theorem Register_adds_one_version e wf e' :
  registry_wf (workflows e) → Register e wf = Ok e' →
  registry_wf (workflows e') ∧
  ∃ cw, compileWorkflow wf = Ok cw ∧ workflows e !! (cw_name cw, cw_version cw) = None ∧
    e' = set_workflows (<[(cw_name cw, cw_version cw) := cw]> (workflows e)) e.
Proof. apply Register_adds. Qed.

(** ** The latest version *)

Lemma later_version_wf name l acc :
  (∀ k cw, (k, cw) ∈ l → k = (cw_name cw, cw_version cw)) →
  match foldl (later_version name) acc l with
  | Some cw => (acc = Some cw ∨ ((cw_name cw, cw_version cw), cw) ∈ l ∧ cw_name cw = name) ∧
      (∀ cw', acc = Some cw' → cw_version cw' <= cw_version cw) ∧
      ∀ k cw', (k, cw') ∈ l → k.1 = name → cw_version cw' <= cw_version cw
  | None => acc = None ∧ ∀ k cw', (k, cw') ∈ l → k.1 ≠ name
  end.
Proof.
  revert acc. induction l as [|[k cw] l IH]; intros acc Hl; cbn [foldl].
  { destruct acc as [cw|]; [|split; [done|by intros ? ? ?%elem_of_nil]].
    split_and!; [by left|by intros ? [= ->]|by intros ? ? ?%elem_of_nil]. }
  assert (k = (cw_name cw, cw_version cw)) as -> by (apply Hl; by left).
  specialize (IH (later_version name acc (cw_name cw, cw_version cw, cw))).
  destruct (foldl (later_version name) _ l) as [cw0|].
  - destruct IH as (Hin & Hacc & Hmax); [intros; apply Hl; by right|].
    unfold later_version in Hin, Hacc. cbn in Hin, Hacc.
    destruct (bool_decide (cw_name cw = name)) eqn:Hn; bool_to_prop; cbn in Hin, Hacc.
    + destruct acc as [ca|]; cbn in Hin, Hacc.
      * destruct (cw_version ca <? cw_version cw) eqn:Hlt; bool_to_prop;
          pose proof (Hacc _ eq_refl) as Hle; split_and!.
        { right. destruct Hin as [[= ->]|[? ?]]; [split; [by left|done]|split; [by right|done]]. }
        { intros ? [= ->]. lia. }
        { intros k cw' [[= -> ->]|?]%elem_of_cons Hk; [done|by eapply Hmax]. }
        { destruct Hin as [?|[? ?]]; [by left|right; split; [by right|done]]. }
        { by intros ? [= ->]. }
        { intros k cw' [[= -> ->]|?]%elem_of_cons Hk; [lia|by eapply Hmax]. }
      * pose proof (Hacc _ eq_refl) as Hle. split_and!; [|done|].
        { right. destruct Hin as [[= ->]|[? ?]]; [split; [by left|done]|split; [by right|done]]. }
        { intros k cw' [[= -> ->]|?]%elem_of_cons Hk; [done|by eapply Hmax]. }
    + split_and!; [|done|].
      { destruct Hin as [?|[? ?]]; [by left|right; split; [by right|done]]. }
      { intros k cw' [[= -> ->]|?]%elem_of_cons Hk; [done|by eapply Hmax]. }
  - destruct IH as [Hacc Hno]; [intros; apply Hl; by right|]. unfold later_version in Hacc.
    cbn in Hacc. destruct (bool_decide (cw_name cw = name)) eqn:Hn; bool_to_prop; cbn in Hacc.
    + destruct acc as [ca|]; [by destruct (cw_version ca <? cw_version cw)|done].
    + split; [done|]. intros k cw' [[= -> ->]|?]%elem_of_cons; [done|by eapply Hno].
Qed.

(** The choice among the entries of the table, in any order. *)
Lemma latest_in_spec e name l :
  registry_wf (workflows e) → l ≡ₚ map_to_list (workflows e) →
  match latest_in name l with
  | Some cw => workflow e name (cw_version cw) = Some cw ∧
      ∀ v cw', workflow e name v = Some cw' → v <= cw_version cw
  | None => ∀ v, workflow e name v = None
  end.
Proof.
  intros Hreg Hl. assert (∀ k cw, (k, cw) ∈ l ↔ workflows e !! k = Some cw) as Hin
    by (intros; by rewrite Hl, elem_of_map_to_list).
  pose proof (later_version_wf name l None) as Hf. unfold latest_in.
  destruct (foldl _ None l) as [cw|].
  - destruct Hf as ([?|[Hcw <-]] & _ & Hmax); [intros k cw' ?%Hin; by apply Hreg|done|].
    split; [by apply Hin|]. intros v cw' Hv.
    destruct (Hreg _ _ Hv) as [[= _ ->] _].
    by apply (Hmax (cw_name cw, cw_version cw')), eq_refl; apply Hin.
  - destruct Hf as [_ Hno]; [intros k cw' ?%Hin; by apply Hreg|]. intros v.
    destruct (workflow e name v) as [cw'|] eqn:Hv; [|done].
    by destruct (Hno (name, v) cw'); [apply Hin|].
Qed.

Lemma latest_spec e name :
  registry_wf (workflows e) → ∀ cw, latestWorkflow e name = Some cw →
  workflow e name (cw_version cw) = Some cw ∧
  ∀ v cw', workflow e name v = Some cw' → v <= cw_version cw.
Proof.
  intros Hreg cw Hl. pose proof (latest_in_spec e name (map_to_list (workflows e)) Hreg ltac:(done)) as Hs.
  fold (latestWorkflow e name) in Hs. by rewrite Hl in Hs.
Qed.

(** Whatever order the loop visits the table in, it finds the highest registered
    version of the name, and finds none exactly when the name is not registered. *)
Theorem latest_version_is_highest e name l :
  registry_wf (workflows e) → l ≡ₚ map_to_list (workflows e) →
  match latest_in name l with
  | Some cw => workflow e name (cw_version cw) = Some cw ∧
      ∀ v cw', workflow e name v = Some cw' → v <= cw_version cw
  | None => ∀ v, workflow e name v = None
  end ∧ latest_in name l = latestWorkflow e name.
Proof.
  intros Hreg Hl.
  pose proof (latest_in_spec e name l Hreg Hl) as H1. split; [done|].
  pose proof (latest_in_spec e name (map_to_list (workflows e)) Hreg ltac:(done)) as H2.
  fold (latestWorkflow e name) in H2.
  destruct (latest_in name l) as [c1|], (latestWorkflow e name) as [c2|].
  - destruct H1 as [W1 M1], H2 as [W2 M2]. pose proof (M1 _ _ W2). pose proof (M2 _ _ W1).
    assert (cw_version c1 = cw_version c2) as E by lia. rewrite E in W1. congruence.
  - destruct H1 as [W1 _]. by rewrite H2 in W1.
  - destruct H2 as [W2 _]. by rewrite H1 in W2.
  - done.
Qed.

(** ** Quoted identifiers *)

(** Reading a quoted identifier the way SQL does: up to a quote that is not doubled;
    the text and what follows it. *)
Fixpoint read_quoted (s : list ascii) : option (list ascii * list ascii) :=
  match s with
  | [] => None
  | c :: s' =>
    if is_dq c then
      match s' with
      | c' :: s'' =>
        if is_dq c' then '(v, r) ← read_quoted s''; Some (dquote :: v, r) else Some ([], s')
      | [] => Some ([], [])
      end
    else '(v, r) ← read_quoted s'; Some (c :: v, r)
  end.

Lemma is_dq_spec c : is_dq c = true ↔ c = dquote.
Proof.
  unfold is_dq, ch. rewrite Z.eqb_eq. split; [|by intros ->].
  intros Hc. change 34 with (bval dquote) in Hc. unfold bval in Hc.
  apply N2Z.inj in Hc. apply (f_equal ascii_of_N) in Hc. by rewrite !ascii_N_embedding in Hc.
Qed.

(** A quoted identifier reads back as the identifier, whatever it contains, and
    ends exactly at its closing quote: no name can break out of its quotes. *)
Lemma quoteIdentifier_round_trip v rest :
  head rest ≠ Some dquote →
  ∃ s, s2b (quoteIdentifier v) = dquote :: s ∧ read_quoted (s ++ rest) = Some (s2b v, rest).
Proof.
  intros Hrest. unfold quoteIdentifier. rewrite s2b_b2s. eexists. split; [done|].
  generalize (s2b v) as l. clear v. induction l as [|c l IH].
  - cbn. change (is_dq dquote) with true. cbv iota. destruct rest as [|c rest]; [done|].
    destruct (is_dq c) eqn:E; [|done]. apply is_dq_spec in E as ->. done.
  - unfold double_quotes in *. cbn [mbind list_bind]. destruct (is_dq c) eqn:E.
    + apply is_dq_spec in E as ->. cbn [app read_quoted]. change (is_dq dquote) with true.
      cbv iota. rewrite IH. done.
    + cbn [app read_quoted]. rewrite E. rewrite IH. done.
Qed.
