(* ===== verification/Worker.v ===== *)
(** * worker.go: claiming, executing and recording runs

    [claimReadyRuns] decodes what the claim statement returns; [executeClaim] drives a
    claimed run through its operations - replaying checkpoints, calling step
    functions, committing results, parking sleeps and waits - and records failures.
    A [json.RawMessage] is [Some] of its bytes; [None] is nil. *)

From S2P Require Import Prelude GoText Json Types Builder Postgres Queries Store Timing.
From S2P Require Import Leases Effects Engine.

Record claimedRun := {
  ID : string;
  WorkflowName : string;
  Version : Z;
  StepIndex : Z;
  Input : list ascii;
  Attempt : Z;
  Token : string;
  checkpoints : gmap Z (option (list ascii));
  deadline : Z;
}.

(** [fenced(rowsAffected)]. *)
Definition fenced (rowsAffected : Z) : outcome () :=
  guard_err (rowsAffected =? 0) (Sentinel errLostLease).

(** [values[:index]] and [values[index] = raw]. *)
Notation values := (list (option (list ascii))).

(** [fmt.Sprintf("%d:%s", index, name)]. *)
Definition step_key (index : nat) (name : string) : string :=
  itoa (Z.of_nat index) +:+ ":" +:+ name.

Definition stepContext (run : claimedRun) (wf : compiledWorkflow) (vs : values) (index : nat)
    (name : string) : StepContext :=
  {| sc_RunID := ID run; sc_Workflow := WorkflowName run; sc_Input := Some (Input run);
     sc_StepKey := step_key index name; sc_values := take index vs; sc_names := cw_names wf |}.

Definition step_panicked : string := "durablepg: step %q panicked: %v" +:+ String "010" "%s".

(** [executeStepSafely], given what the call of [fn] does. *)
Definition executeStepSafely (name : string) (called : fn_result) : outcome (list ascii) :=
  match called with
  | FnPanicked v stack => Err (Errorf step_panicked [name; v; stack])
  | FnError e => Err e
  | FnOut (Ok raw) => Ok raw
  | FnOut (Err e) => Err (Wrapf "durablepg: marshal step %q output: %w" [name] e)
  | FnOut (Panic v stack) => Err (Errorf step_panicked [name; v; String.concat "" stack])
  end.

(** The checkpoints of a claim, by position; a negative or too large index is ignored. *)
Definition load_value (vs : values) (kv : Z * option (list ascii)) : values :=
  if (0 <=? kv.1) && (kv.1 <? Z.of_nat (length vs))
  then <[Z.to_nat kv.1 := kv.2]> vs else vs.
Definition load_values (n : nat) (cps : gmap Z (option (list ascii))) : values :=
  foldl load_value (replicate n None) (map_to_list cps).

(** ** Decoding claims *)

(** [for _, pair := range raw { ... run.checkpoints[index] = pair[1] }]. *)
Definition decode_pair (acc : gmap Z (option (list ascii)))
    (p : option (list ascii) * option (list ascii)) : outcome (gmap Z (option (list ascii))) :=
  index ← match unmarshal_int (default [] p.1) with
          | Err e => Err (Wrapf "durablepg: decode checkpoint index: %w" [] e)
          | r => r
          end;
  mret (<[index := p.2]> acc).
Definition decode_checkpoints (text : list ascii) : outcome (gmap Z (option (list ascii))) :=
  match unmarshal_pairs text with
  | Ok raw => foldl (λ acc p, acc ← acc; decode_pair acc p) (Ok ∅) raw
  | Err e => Err (Wrapf "durablepg: decode checkpoints: %w" [] e)
  | Panic m a => Panic m a
  end.

Section worker.
Context `{Postgres} (o : nat → moment).
(** [err.Error()]: the rendering of templates is [fmt]'s. *)
Context (Error : error → string).
Context (eng : Engine).

Definition claim_of_row (deadline : Z) (row : claim_row) : outcome claimedRun :=
  cps ← decode_checkpoints (c_checkpoints row);
  mret {| ID := c_id row; WorkflowName := c_workflow_name row; Version := c_workflow_version row;
          StepIndex := c_step_index row; Input := c_input row; Attempt := c_attempt row;
          Token := c_lease_token row; checkpoints := cps; deadline := deadline |}.

(** The statement that [claimReadyRuns] sends: equality predicates when one version is
    registered. *)
Definition claim_stmt (limit : Z) (names : list string) (versions : list Z) : stmt (list claim_row) :=
  match names, versions with
  | [name], [version] => ClaimSingle (e_queue eng) limit (Milliseconds (leaseTTL eng)) name version
  | _, _ => ClaimMulti (e_queue eng) limit (Milliseconds (leaseTTL eng)) names versions
  end.

Definition claimReadyRuns (limit : Z) : io (list claimedRun) :=
  if limit <=? 0 then mret []
  else
    let (names, versions) := supportedWorkflows eng in
    if bool_decide (names = []) then mret []
    else
      started ← time_Now o;
      rows ← wrapping "durablepg: claim runs: %w" [] (query o Pool (claim_stmt limit names versions));
      lift (mapM (claim_of_row (started + leaseTTL eng)) rows).

(** ** Recording *)

(** [commitStep] returns the stored value: an existing checkpoint at [index] wins. *)
Definition commitStep (q : querier) (run : claimedRun) (index : nat) (value : list ascii)
    (complete : bool) : io (list ascii) :=
  r ← catching (query_row o q (CommitStep (ID run) (Token run) (Z.of_nat index) value complete));
  match r with
  | inl err =>
    if isNoRows err then throw (Sentinel errLostLease)
    else throw (Wrapf "durablepg: commit step: %w" [] err)
  | inr (Some existing) => mret existing
  | inr None => mret value
  end.

Definition parkForSleep (run : claimedRun) (next : nat) (d : Z) : io () :=
  n ← wrapping "durablepg: park for sleep: %w" []
        (query o Pool (ParkSleep (ID run) (Token run) (Z.of_nat next) (Milliseconds d)));
  lift (fenced n).

(** [waitForEvent] returns the stored outcome when delivered, nil when parked. *)
Definition waitForEvent (run : claimedRun) (index : nat) (key : string) (timeout : Z)
    (complete : bool) : io (option (list ascii)) :=
  _ ← wrapping "durablepg: begin wait tx: %w" [] (begin_tx o);
  deferring rollback (
    _ ← wrapping "durablepg: lock event key: %w" [] (query o Tx (LockEventKey (schema eng) key));
    r ← catching (query_row o Tx (LatestEvent key));
    match r with
    | inr payload =>
      stored ← commitStep Tx run index (received_raw payload) complete;
      _ ← wrapping "durablepg: commit event delivery: %w" [] (commit_tx o);
      mret (Some stored)
    | inl err =>
      if negb (isNoRows err) then throw (Wrapf "durablepg: look up event: %w" [] err)
      else
        n ← wrapping "durablepg: park for event: %w" []
              (query o Tx (ParkWait (ID run) (Token run) (Z.of_nat index) key (Milliseconds timeout)));
        _ ← lift (fenced n);
        _ ← wrapping "durablepg: commit wait: %w" [] (commit_tx o);
        mret None
    end).

Definition failOrRetry (run : claimedRun) (cause : error) : io () :=
  let msg := sanitizeError (Error cause) in
  let attempt := int64 (Attempt run + 1) in
  _ ← wrapping "durablepg: record failure: %w" []
        (query o Pool (FailOrRetry (ID run) (Token run) attempt
                         (Milliseconds (backoffDuration attempt)) msg));
  mret ().

(** ** Driving a claim *)

Definition runStep (wf : compiledWorkflow) (run : claimedRun) (vs : values) (index : nat)
    (step : stepOp) : io (list ascii) :=
  called ← call_step o index (st_fn step) (stepContext run wf vs index (st_name step));
  lift (executeStepSafely (st_name step) called).

(** [op.wait.resolve(e.stepContext(...))]. *)
Definition resolve (wf : compiledWorkflow) (run : claimedRun) (vs : values) (index : nat)
    (op : waitEventOp) : io string :=
  match w_keyFn op with
  | None => lift (resolve_key op (KeyReturned "" None))
  | Some fn =>
    called ← call_keyFn o index fn (stepContext run wf vs index (w_name op));
    lift (resolve_key op called)
  end.

(** What follows the loop: the run completes with the last recorded value. *)
Definition completeRun (wf : compiledWorkflow) (run : claimedRun) (vs : values) : io () :=
  let output :=
    if 0 <=? cw_outputIndex wf then mjoin (vs !! Z.to_nat (cw_outputIndex wf)) else None in
  n ← wrapping "durablepg: complete run: %w" []
        (query o Pool (CompleteRun (ID run) (Token run) (Z.of_nat (length (cw_ops wf))) output));
  lift (fenced n).

(** The loop from position [index]; [rest] are the operations from there on. *)
Fixpoint drive_from (wf : compiledWorkflow) (run : claimedRun) (rest : list operation)
    (index : nat) (vs : values) : io () :=
  match rest with
  | [] => completeRun wf run vs
  | op :: rest =>
    err ← ctx_Err o;
    match err with
    | Some err => throw err
    | None =>
      if bool_decide (is_Some (mjoin (vs !! index))) then drive_from wf run rest (S index) vs
      else
        let complete := bool_decide (index = pred (length (cw_ops wf))) in
        match op with
        | opStep step =>
          raw ← runStep wf run vs index step;
          stored ← commitStep Pool run index raw complete;
          if complete then mret ()
          else drive_from wf run rest (S index) (<[index := Some stored]> vs)
        | opSleep d => parkForSleep run (S index) d
        | opWaitEvent wait =>
          key ← resolve wf run vs index wait;
          raw ← waitForEvent run index key (w_timeout wait) complete;
          match raw with
          | None => mret ()
          | Some raw =>
            if complete then mret ()
            else drive_from wf run rest (S index) (<[index := Some raw]> vs)
          end
        end
    end
  end.

Definition drive (run : claimedRun) : io () :=
  match workflow eng (WorkflowName run) (Version run) with
  | None => throw (Sentinel errLostLease)
  | Some wf =>
    let vs := load_values (length (cw_ops wf)) (checkpoints run) in
    if StepIndex run <? 0 then
      (* values[index] with a negative index *)
      err ← ctx_Err o;
      match err with Some err => throw err | None => lift (Panic "index out of range" []) end
    else
      drive_from wf run (drop (Z.to_nat (StepIndex run)) (cw_ops wf)) (Z.to_nat (StepIndex run)) vs
  end.

Definition executeClaim (run : claimedRun) : io () :=
  r ← catching (drive run);
  match r with
  | inr _ => mret ()
  | inl err =>
    if errors_Is err errLostLease then mret ()
    else
      done ← ctx_Err o;
      match done with
      | Some _ => mret ()
      | None => failOrRetry run err
      end
  end.
End worker.
