(* ===== verification/Fairness.v ===== *)
(** * No due run is starved

    Claims take the earliest due runs of a queue first and ties by id, so a due run has a
    place in its queue: the number of ready runs ahead of it.  Whatever statements other
    parties execute, nobody gets ahead of it once it is overdue, and each claim that could
    take it either does or takes as many runs from ahead of it as it asked for. *)

From S2P Require Import Prelude GoText Json Types Postgres Queries Store Statements Claims.
From S2P Require Import Effects.
#[local] Open Scope sql_scope.

Section fairness.
Context `{Postgres}.

(** ** The place in the queue *)

(** Ready runs of the queue [q] that a claim prefers to a run [id] due at [due]. *)
Definition is_ahead (q : string) (due : Z) (id k : string) (r : run) : bool :=
  bool_decide (queue r = q) && bool_decide (state r = RunReady) &&
  bool_decide (k ≠ id ∧ row_le (next_run_at r, k) (due, id)).
Definition ahead (q : string) (due : Z) (id : string) (d : db) : gset string :=
  dom (affected (is_ahead q due id) (workflow_runs d)).
Definition place (q : string) (due : Z) (id : string) (d : db) : Z :=
  Z.of_nat (size (ahead q due id d)).

(** The runs that a claim answers. *)
Definition claimed_ids {X} (s : stmt X) : X → list string :=
  match s with
  | ClaimSingle _ _ _ _ _ | ClaimMulti _ _ _ _ _ => fmap c_id
  | _ => λ _, []
  end.
Definition takes (id : string) (x : other) (d : db) : Prop :=
  match x with Other _ s e => ∃ a, (exec s e d).1 = Ok a ∧ id ∈ claimed_ids s a end.

(** How many runs a claim asks for, if it could take the run [id]. *)
Definition asks {X} (s : stmt X) (id : string) (r : run) (e : env) : Z :=
  match s with
  | ClaimSingle q limit _ name version =>
    if bool_decide (queue r = q) && single_pred name version r && bool_decide (id ∉ locked_runs e)
    then limit else 0
  | ClaimMulti q limit _ names versions =>
    if bool_decide (queue r = q) && multi_pred names versions r && bool_decide (id ∉ locked_runs e)
    then limit else 0
  | _ => 0
  end.
Definition offer (id : string) (r : run) (d : db) (x : other) : Z :=
  match x with Other _ s e => if is_ok (exec s e d).1 then asks s id r e else 0 end.

(** What the claims of a sequence of statements offer altogether. *)
Fixpoint offered (id : string) (r : run) (d : db) (xs : list other) : Z :=
  match xs with
  | [] => 0
  | x :: xs => offer id r d x + offered id r (run_other d x) xs
  end.

(** A statement that runs after [due], enqueues nothing for an earlier time, parks and
    retries with durations that are not negative, and does not cancel the run. *)
Definition orderly (id : string) (due : Z) (x : other) : Prop :=
  match x with
  | Other _ s e =>
    due < now e ∧ (∀ k, due < clock_timestamp_set e k) ∧
    match s with
    | InsertRun _ _ _ _ _ (Some t) _ _ _ => due < t
    | ParkSleep _ _ _ ms | FailOrRetry _ _ _ ms _ => 0 <= ms
    | CancelRun i => uuid_in i ≠ Some id
    | _ => True
    end
  end.

(** ** Nobody gets ahead *)

(** Every ready row of [m'] was ready at the same place in [m], or is due later. *)
Definition behind (due : Z) (m m' : gmap string run) : Prop :=
  ∀ k r', m' !! k = Some r' → state r' = RunReady →
    (∃ r, m !! k = Some r ∧ state r = RunReady ∧ queue r = queue r' ∧ next_run_at r = next_run_at r') ∨
    due < next_run_at r'.

Lemma behind_refl due m : behind due m m.
Proof. intros k r Hk Hs. left. by exists r. Qed.

Lemma behind_update due P f m :
  (∀ k r, m !! k = Some r → P k r = true → state (f k r) = RunReady →
     (state r = RunReady ∧ queue r = queue (f k r) ∧ next_run_at r = next_run_at (f k r)) ∨
     due < next_run_at (f k r)) →
  behind due m (update_where P f m).
Proof.
  intros Hf k r'. rewrite lookup_update_where. intros (r & Hr & ->)%fmap_Some Hs.
  destruct (P k r) eqn:HP; [|left; by exists r].
  destruct (Hf k r Hr HP Hs) as [(? & ? & ?)|?]; [left|by right]. by exists r.
Qed.

Lemma behind_fenced due id token args f e d :
  (∀ k r, state (f e k r) = RunReady → due < next_run_at (f e k r)) →
  behind due (workflow_runs d) (workflow_runs (fenced_update id token args f e d).2).
Proof.
  intros Hf. unfold fenced_update. case_match; [|apply behind_refl..]. destruct a.
  apply behind_update. intros k r _ _ Hs. right. by apply Hf.
Qed.

Lemma claim_answer pred q limit ttl e d :
  ∃ rows, (claim pred q limit ttl e d).1 = Ok rows ∧
    c_id <$> rows = pick (locked_runs e) (claimable q pred e) next_run_at limit (workflow_runs d).
Proof.
  destruct (claim pred q limit ttl e d) as [a d'] eqn:E. assert (∃ rows, a = Ok rows) as [rows ->]
    by (unfold claim in E; simplify_eq; eauto). exists rows. split; [done|]. by eapply claim_ids.
Qed.

Lemma behind_claim due pred q limit ttl e d :
  behind due (workflow_runs d) (workflow_runs (claim pred q limit ttl e d).2).
Proof. by apply behind_update. Qed.

Lemma backoff_nonneg lf : 0 <= interval_ms (recovery_backoff_ms lf).
Proof.
  unfold interval_ms, recovery_backoff_ms.
  assert (0 <= Z.shiftl 1 (Z.min lf 8)) by by apply Z.shiftl_nonneg. lia.
Qed.

Lemma exec_behind id due {X} (s : stmt X) e d :
  orderly id due (Other X s e) → behind due (workflow_runs d) (workflow_runs (exec s e d).2).
Proof.
  intros (Hnow & Hclock & Hs). destruct s; cbn [exec snd]; try apply behind_refl.
  - assert (due < default (now e) scheduled) as Hdue by by destruct scheduled. clear Hs.
    unfold insertRun. case_match; [|apply behind_refl..]. destruct a as [[[[[[? ?] ?] ?] ?] ?] ?].
    case_match; [apply behind_refl|]. case_match; [case_match; [apply behind_refl|]|destruct p].
    + intros k r'. cbn. intros [[<- <-]|[_ Hk]]%lookup_insert_Some Hst.
      * by right.
      * left. by exists r'.
    + cbn. apply behind_update. intros ? ? _ _ ?. by left.
  - unfold emitEvent. case_match; [|apply behind_refl..]. destruct a. apply behind_update.
    intros k r _ _ _. by right.
  - unfold claimSingle. case_match; [|apply behind_refl..]. destruct a as [[? ?] ?]. apply behind_claim.
  - unfold claimMulti. case_match; [|apply behind_refl..]. destruct a as [[? ?] ?]. apply behind_claim.
  - unfold renewLeases. case_match; [|apply behind_refl..]. apply behind_update. intros; by left.
  - unfold commitStep. case_match; [|apply behind_refl..]. destruct a as [[[? ?] ?] ?].
    case_match; [apply behind_refl|]. case_match; [|apply behind_refl..].
    apply behind_update. intros k r _ [(_ & Hl & _)%fence_spec _]%andb_prop Hst. cbn in Hst.
    destruct complete; congruence.
  - unfold completeRun. case_match; [|apply behind_refl..]. by apply behind_fenced.
  - apply behind_fenced. cbn. intros _ _ _. unfold interval_ms. lia.
  - unfold latestEvent. case_match; apply behind_refl.
  - by apply behind_fenced.
  - apply behind_fenced. cbn. intros _ _ _. unfold interval_ms. lia.
  - apply behind_update. cbn. intros k r _ _ _. right.
    pose proof (backoff_nonneg (lease_failures r)). specialize (Hclock k). lia.
  - apply behind_update. intros k r _ _ _. by right.
  - unfold cancelRun. case_match; [|apply behind_refl..]. by apply behind_update.
Qed.

Lemma elem_of_ahead q due id d k :
  k ∈ ahead q due id d ↔ ∃ r, workflow_runs d !! k = Some r ∧ queue r = q ∧ state r = RunReady ∧
    k ≠ id ∧ row_le (next_run_at r, k) (due, id).
Proof.
  unfold ahead. rewrite elem_of_dom. split.
  - intros [r [Hr Ha]%lookup_affected]. exists r. unfold is_ahead in Ha.
    rewrite !andb_true_iff, !bool_decide_eq_true in Ha. naive_solver.
  - intros (r & Hr & Ha). exists r. apply lookup_affected. split; [done|]. unfold is_ahead.
    rewrite !andb_true_iff, !bool_decide_eq_true. naive_solver.
Qed.

Lemma behind_ahead q due id d d' :
  behind due (workflow_runs d) (workflow_runs d') → ahead q due id d' ⊆ ahead q due id d.
Proof.
  intros Hb k (r' & Hr' & Hq & Hs & Hne & Hle)%elem_of_ahead. apply elem_of_ahead.
  destruct (Hb k r' Hr' Hs) as [(r & Hr & Hs0 & Hq0 & Hn0)|Hlt].
  - exists r. by rewrite Hq0, Hn0.
  - unfold row_le in Hle. cbn in Hle. lia.
Qed.

(** ** A claim takes the run, or as many from ahead of it *)

Section claim.
Context (id : string) (r : run) (d : db).
Context (Hr : workflow_runs d !! id = Some r) (Hs : state r = RunReady).

Lemma claim_takes_or_advances pred limit ttl e :
  pred r = true → id ∉ locked_runs e → next_run_at r < now e → 0 <= limit →
  let picked := pick (locked_runs e) (claimable (queue r) pred e) next_run_at limit (workflow_runs d) in
  id ∈ picked ∨
  place (queue r) (next_run_at r) id (claim pred (queue r) limit ttl e d).2 + limit <=
    place (queue r) (next_run_at r) id d.
Proof.
  intros Hp Hlk Hdue Hlim picked. destruct (decide (id ∈ picked)) as [|Hnot]; [by left|right].
  assert (claimable (queue r) pred e id r = true) as Hcl.
  { apply claimable_spec. split_and!; [done..|lia|done]. }
  assert (Z.of_nat (length picked) = limit) as Hlen.
  { assert (Z.of_nat (length picked) <= limit) by by apply length_pick_le.
    destruct (decide (Z.of_nat (length picked) < limit)) as [Hlt|]; [|lia].
    destruct Hnot. by eapply pick_all. }
  assert (NoDup picked) as Hnd by apply NoDup_pick.
  set (d' := (claim _ _ _ _ _ _).2).
  assert (list_to_set picked ⊆ ahead (queue r) (next_run_at r) id d) as Hsub.
  { intros k Hk%elem_of_list_to_set. apply elem_of_pick in Hk as Hk'.
    destruct Hk' as (rk & Hrk & (Hq & Hst & _)%claimable_spec & _).
    apply elem_of_ahead. exists rk. split_and!; [done..|congruence|]. by eapply pick_first. }
  assert (ahead (queue r) (next_run_at r) id d' ⊆
          ahead (queue r) (next_run_at r) id d ∖ list_to_set picked) as Hrest.
  { apply subseteq_difference_r; [|apply behind_ahead, behind_claim].
    intros k (rk & Hrk & _ & Hst & _)%elem_of_ahead Hk%elem_of_list_to_set.
    unfold d', claim in Hrk. cbn in Hrk. rewrite lookup_update_where in Hrk.
    apply fmap_Some in Hrk as (r0 & _ & ->). rewrite bool_decide_eq_true_2 in Hst by done. done. }
  unfold place. apply subseteq_size in Hrest.
  rewrite size_difference in Hrest by done. apply subseteq_size in Hsub.
  rewrite size_list_to_set in Hrest, Hsub by done. lia.
Qed.

(** A statement leaves a ready run as it is, up to [updated_at], unless it claims it or
    cancels it. *)
Definition untouched (r' : run) : Prop := ∃ t, r' = set_updated_at t r.

Lemma untouched_refl : untouched r.
Proof. exists (updated_at r). by destruct r. Qed.

Lemma ready_missed P f : P id r = false →
  ∃ r', update_where P f (workflow_runs d) !! id = Some r' ∧ untouched r'.
Proof.
  intros HP. exists r. split; [|apply untouched_refl]. rewrite lookup_update_where, Hr. cbn.
  by rewrite HP.
Qed.

Lemma ready_unfenced i tok e : fence i tok e id r = false.
Proof.
  destruct (fence i tok e id r) eqn:E; [|done]. apply fence_spec in E as (_ & ? & _). congruence.
Qed.

Lemma ready_fenced i tok args f e :
  ∃ r', workflow_runs (fenced_update i tok args f e d).2 !! id = Some r' ∧ untouched r'.
Proof.
  unfold fenced_update. case_match; [destruct a; apply ready_missed, ready_unfenced|..];
    (exists r; split; [done|apply untouched_refl]).
Qed.

Lemma ready_claim pred q limit ttl e :
  id ∉ pick (locked_runs e) (claimable q pred e) next_run_at limit (workflow_runs d) →
  ∃ r', workflow_runs (claim pred q limit ttl e d).2 !! id = Some r' ∧ untouched r'.
Proof. intros Hn. apply ready_missed. by apply bool_decide_eq_false_2. Qed.

Lemma not_ready_picked P key n lk :
  (∀ k r, P k r = true → state r ≠ RunReady) →
  bool_decide (id ∈ pick lk P key n (workflow_runs d)) = false.
Proof.
  intros HP. apply bool_decide_eq_false. intros (r0 & Hr0 & Hp & _)%elem_of_pick.
  simplify_eq. by eapply HP.
Qed.

Lemma ready_run_waits due {X} (s : stmt X) e :
  orderly id due (Other X s e) → ¬ takes id (Other X s e) d →
  ∃ r', workflow_runs (exec s e d).2 !! id = Some r' ∧ untouched r'.
Proof.
  intros (_ & _ & Ho) Hn. cbn [takes] in Hn.
  assert (∃ r', workflow_runs d !! id = Some r' ∧ untouched r') as Hsame
    by (exists r; split; [done|apply untouched_refl]).
  destruct s; cbn [exec snd] in *; try exact Hsame.
  - clear Ho. unfold insertRun. case_match; [|exact Hsame..]. destruct a as [[[[[[i ?] ?] ?] ?] ?] ?].
    case_match; [exact Hsame|]. case_match; [case_match; [exact Hsame|]|destruct p].
    + cbn. rewrite lookup_insert_ne; [exact Hsame|congruence].
    + cbn. rewrite lookup_update_where, Hr. cbn. eexists. split; [done|].
      case_bool_decide; [by eexists|apply untouched_refl].
  - unfold emitEvent. case_match; [|exact Hsame..]. destruct a. apply ready_missed.
    destruct (waiting_on s e id r) eqn:E; [|done]. apply waiting_on_spec in E as [? _]. congruence.
  - revert Hn. unfold claimSingle. case_match; [|by intros; exact Hsame..]. destruct a as [[? ?] ?].
    intros Hn. apply ready_claim. intros Hin. apply Hn.
    edestruct claim_answer as (rows & -> & E). exists rows. cbn. by rewrite E.
  - revert Hn. unfold claimMulti. case_match; [|by intros; exact Hsame..]. destruct a as [[? ?] ?].
    intros Hn. apply ready_claim. intros Hin. apply Hn.
    edestruct claim_answer as (rows & -> & E). exists rows. cbn. by rewrite E.
  - unfold renewLeases. case_match; [|exact Hsame..]. apply ready_missed. unfold renewable.
    rewrite Hs. by rewrite andb_false_r.
  - unfold commitStep. case_match; [|exact Hsame..]. destruct a as [[[? ?] ?] ?].
    case_match; [exact Hsame|]. case_match; [|exact Hsame..]. apply ready_missed.
    by rewrite ready_unfenced.
  - unfold completeRun. case_match; [apply ready_fenced|exact Hsame..].
  - apply ready_fenced.
  - unfold latestEvent. case_match; exact Hsame.
  - apply ready_fenced.
  - apply ready_fenced.
  - apply ready_missed, not_ready_picked. intros k r0 (Hl & _)%expired_spec. congruence.
  - apply ready_missed, not_ready_picked. intros k r0. unfold timed_out.
    intros [Hl _]%andb_prop. bool_to_prop. congruence.
  - unfold cancelRun. case_match eqn:Hb; [|exact Hsame..]. apply bind_uuid_Ok in Hb.
    apply ready_missed. unfold cancellable. rewrite bool_decide_eq_false_2; [done|]. congruence.
Qed.

Lemma claim_advances due {X} (s : stmt X) e :
  due = next_run_at r → orderly id due (Other X s e) → ¬ takes id (Other X s e) d →
  place (queue r) due id (exec s e d).2 + offer id r d (Other X s e) <= place (queue r) due id d.
Proof.
  intros -> Ho Hn.
  assert (place (queue r) (next_run_at r) id (exec s e d).2 <= place (queue r) (next_run_at r) id d)
    as Hle.
  { apply inj_le, subseteq_size, behind_ahead. by eapply exec_behind. }
  destruct Ho as (Hnow & _). unfold offer. case_match eqn:Hok; [|lia].
  destruct s; cbn [asks]; try lia; cbn [exec takes claimed_ids] in *.
  - destruct (_ && _) eqn:E; [|lia]. bool_to_prop. subst q.
    revert Hn Hok Hle. unfold claimSingle. case_match eqn:Hb; [|done..]. destruct a as [[q' name'] version'].
    bound_params. bool_to_prop. intros Hn _ _.
    edestruct (claim_takes_or_advances (single_pred name version) limit) as [Hin|Hgo];
      [done..| |done].
    destruct Hn. edestruct claim_answer as (rows & -> & E). exists rows. cbn. by rewrite E.
  - destruct (_ && _) eqn:E; [|lia]. bool_to_prop. subst q.
    revert Hn Hok Hle. unfold claimMulti. case_match eqn:Hb; [|done..]. destruct a as [[q' names'] versions'].
    bound_params. bool_to_prop.
    match goal with Hm : mapM bind_text _ = _ |- _ =>
      apply mapM_bind_id in Hm as ->; [|by intros ? ? [-> _]%bind_text_Ok] end.
    match goal with Hm : mapM bind_int4 _ = _ |- _ =>
      apply mapM_bind_id in Hm as ->; [|by intros ? ? [-> _]%bind_int4_Ok] end.
    intros Hn _ _.
    edestruct (claim_takes_or_advances (multi_pred names versions) limit) as [Hin|Hgo];
      [done..| |done].
    destruct Hn. edestruct claim_answer as (rows & -> & E). exists rows. cbn. by rewrite E.
Qed.
End claim.

Lemma asks_updated {X} (s : stmt X) id r e t : asks s id (set_updated_at t r) e = asks s id r e.
Proof. by destruct s. Qed.
Lemma offered_updated id r t d xs : offered id (set_updated_at t r) d xs = offered id r d xs.
Proof.
  revert d. induction xs as [|[X s e] xs IH]; intros d; [done|]. cbn. by rewrite IH, asks_updated.
Qed.

Lemma takes_dec_run id x d : takes id x d ∨ ¬ takes id x d.
Proof.
  destruct x as [X s e]. cbn. destruct (exec s e d).1 as [a| |]; [|by right; intros (? & ? & _)..].
  destruct (decide (id ∈ claimed_ids s a)); [left; by exists a|right]. by intros (? & [= <-] & ?).
Qed.

(** C5: a due run is not starved.  Take a run that is ready, and any sequence of statements
    executed after it has become due, by any engines, clients and maintenance loops of
    the schema, none of which enqueues a run for an earlier time or cancels this one.  If
    the claims among them that could take the run - of its queue, for its workflow
    version, not finding it locked - ask together for more runs than were ahead of it at
    the start, then one of them has taken it. *)
Theorem due_run_is_claimed id r d xs :
  workflow_runs d !! id = Some r → state r = RunReady →
  Forall (orderly id (next_run_at r)) xs →
  place (queue r) (next_run_at r) id d < offered id r d xs →
  ∃ pre x post, xs = pre ++ x :: post ∧ takes id x (foldl run_other d pre).
Proof.
  revert d r. induction xs as [|x xs IH]; intros d r Hr Hs Ho Hlt; cbn in Hlt; [unfold place in Hlt; lia|].
  apply Forall_cons in Ho as [Hx Ho].
  destruct (takes_dec_run id x d) as [Ht|Hn]; [by exists [], x, xs|]. destruct x as [X s e].
  pose proof (claim_advances id r d Hr Hs _ s e eq_refl Hx Hn) as Hadv. cbn [run_other] in *.
  destruct (ready_run_waits id r d Hr Hs _ s e Hx Hn) as (r' & Hr' & t & ->).
  destruct (IH _ _ Hr' Hs Ho) as (pre & x & post & -> & Ht).
  - cbn. rewrite offered_updated. lia.
  - exists (Other X s e :: pre), x, post. by split.
Qed.
End fairness.
