(* ===== verification/Replay.v ===== *)
(** * What executing a claim can do

    The theorems of this file hold for every oracle: whatever other parties execute
    between any two effects of the worker, and whichever database call fails, before
    or after taking effect.  [did] says that a program let the others run and then
    executed at most one statement of its own that writes, which is how every recording
    function behaves; [own_stmt] is what a claim writes, and when: [drive] keeps to it
    whatever the others do, entry by entry of the log. *)

From S2P Require Import Prelude GoText Json Types Builder Postgres Queries Store Statements.
From S2P Require Import Events Timing Effects Engine Worker.

(** The values of a claim at its positions. *)
Lemma load_values_spec n cps :
  length (load_values n cps) = n ∧
  ∀ i v, load_values n cps !! i = Some (Some v) ↔
    (i < n)%nat ∧ cps !! Z.of_nat i = Some (Some v).
Proof.
  unfold load_values.
  assert (∀ l vs0, length vs0 = n → NoDup l.*1 →
    length (foldl load_value vs0 l) = n ∧
    ∀ i v, foldl load_value vs0 l !! i = Some (Some v) ↔
      (i < n)%nat ∧ ((Z.of_nat i, Some v) ∈ l ∨ (Z.of_nat i ∉ l.*1 ∧ vs0 !! i = Some (Some v))))
    as Hfold.
  { induction l as [|[z x] l IH]; intros vs0 Hlen Hnd.
    - split; [done|]. intros i v. cbn. split.
      + intros Hv. split; [rewrite <-Hlen; by eapply lookup_lt_Some|]. right.
        split; [apply not_elem_of_nil|done].
      + intros (_ & [?%elem_of_nil|[_ ?]]); done.
    - cbn [foldl]. rewrite fmap_cons in Hnd. apply NoDup_cons in Hnd as [Hz Hnd]. cbn in Hz.
      destruct (IH (load_value vs0 (z, x))) as [IHlen IHl]; [|done|].
      { unfold load_value. case_match; [by rewrite length_insert|done]. }
      split; [done|]. intros i v. rewrite IHl. rewrite fmap_cons, !elem_of_cons. cbn [fst snd].
      destruct (decide (Z.of_nat i = z)) as [<-|Hne].
      + split.
        * intros (Hi & [Hin|[_ Hv]]).
          { destruct Hz. apply list_elem_of_fmap. by exists (Z.of_nat i, Some v). }
          split; [done|]. left. left. unfold load_value in Hv. cbn in Hv.
          rewrite (proj2 (Z.leb_le 0 _)), (proj2 (Z.ltb_lt _ _)), Nat2Z.id in Hv by lia. cbn in Hv.
          rewrite list_lookup_insert_eq in Hv by lia. congruence.
        * intros (Hi & [[[= ->]|Hin]|[Hno _]]).
          { split; [done|]. right. split; [done|]. unfold load_value. cbn.
            rewrite (proj2 (Z.leb_le 0 _)), (proj2 (Z.ltb_lt _ _)), Nat2Z.id by lia. cbn.
            apply list_lookup_insert_eq. lia. }
          { destruct Hz. apply list_elem_of_fmap. by exists (Z.of_nat i, Some v). }
          { destruct Hno. by left. }
      + assert (load_value vs0 (z, x) !! i = vs0 !! i) as ->.
        { unfold load_value. cbn. destruct ((0 <=? z) && (z <? Z.of_nat (length vs0))) eqn:E; [|done].
          bool_to_prop. apply list_lookup_insert_ne. lia. }
        naive_solver. }
  destruct (Hfold (map_to_list cps) (replicate n None)) as [Hlen Hl];
    [apply length_replicate|apply NoDup_fst_map_to_list|].
  split; [done|]. intros i v. rewrite Hl, elem_of_map_to_list. split; [|naive_solver].
  intros (? & [?|[_ [? ?]%lookup_replicate]]); done.
Qed.

Section programs.
Context `{Postgres} (o : nat → moment).

(** A statement without a fence that changes nothing. *)
Definition unfenced (x : other) : Prop := match x with Other _ s _ => fence_of s = None end.
Definition read (x : other) : Prop := unfenced x ∧ ∀ d, run_other d x = d.

Lemma reads_same d rs : Forall read rs → foldl run_other d rs = d.
Proof. induction 1 as [|x rs [_ Hx] _ IH]; [done|]. cbn. by rewrite Hx. Qed.

(** ** The effects *)

(** The world after the others have run. *)
Record after (w w' : world) : Prop := {
  af_st : rtc (theirs o) (st w) (st w');
  af_tx : w_tx w' = w_tx w;
  af_calls : w_calls w' = w_calls w;
  af_held : ∀ id, id ∈ held_rows w → agree_on id (w_db w) (w_db w');
}.

Lemma af_db w w' : after w w' → rtc db_step (w_db w) (w_db w').
Proof. intros [Hst _ _ _]. exact (theirs_db _ _ _ Hst). Qed.

Lemma interfere_after w : after w (interfere w (o (w_tick w))).
Proof. split; [apply interfere_theirs|done|done|]. intros id. apply interfere_held. Qed.

(** At most one statement that writes, after some that read. *)
Definition did {X} (s : stmt X) (w w' : world) : Prop :=
  w_tx w' = w_tx w ∧ w_calls w' = w_calls w ∧
  ∃ x, rtc (theirs o) (st w) x ∧
    (st w' = x ∨ ∃ rs e, Forall read rs ∧
       st w' = ((exec s e x.1).2, x.2 ++ (pair Mine <$> rs ++ [Other X s e]))).

Lemma did_db {X} (s : stmt X) w w' :
  did s w w' → ∃ d1, rtc db_step (w_db w) d1 ∧ (w_db w' = d1 ∨ ∃ e, w_db w' = (exec s e d1).2).
Proof.
  intros (_ & _ & x & Hr & Hd). exists x.1. split; [exact (theirs_db _ _ _ Hr)|].
  destruct Hd as [Hd|(rs & e & _ & Hd)]; apply (f_equal fst) in Hd; [by left|right; by exists e].
Qed.

Lemma query_pool {X} (s : stmt X) w a w' :
  query o Pool s w = (a, w') →
  did s w w' ∧
  match a with
  | Err _ => True
  | _ => ∃ d1 e, rtc db_step (w_db w) d1 ∧ exec s e d1 = (a, w_db w') ∧ e = m_env (o (w_tick w))
  end.
Proof.
  unfold query, effect. set (m := o (w_tick w)).
  pose proof (interfere_after w) as Ha. fold m in Ha. pose proof (af_db _ _ Ha) as Hdb.
  destruct Ha as [Hst Htx Hcalls _].
  set (wi := interfere w m) in *. clearbody wi. destruct (exec s (m_env m) (w_db wi)) as [a0 d'] eqn:E.
  assert (did s w (set_db d' [Other X s (m_env m)] wi)) as Hdid.
  { split_and!; [done..|]. exists (st wi). split; [done|]. right. exists [], (m_env m).
    split; [constructor|]. cbn. by rewrite E. }
  destruct (m_fault m); intros [= <- <-].
  - split; [exact Hdid|]. destruct a0; [|done|]; by exists (w_db wi), (m_env m).
  - split; [|done]. split_and!; [done..|]. exists (st wi). by split; [|left].
  - by split.
Qed.

Lemma query_tx {X} (s : stmt X) w a w' :
  query o Tx s w = (a, w') →
  ∃ wi, after w wi ∧
    match a with
    | Ok _ => ∃ e, (exec s e (view wi)).1 = a ∧ w' = set_tx (Some (pending wi ++ [Other X s e])) wi
    | _ => w' = wi
    end.
Proof.
  unfold query, effect. set (m := o (w_tick w)).
  pose proof (interfere_after w) as Ha. fold m in Ha. set (wi := interfere w m) in *.
  intros Hq. exists wi. split; [done|].
  destruct (m_fault m); [|by injection Hq as <- <-..].
  injection Hq as <- <-. destruct ((exec s (m_env m) (view wi)).1) eqn:E; cbn; [|done..].
  by exists (m_env m).
Qed.

Lemma begin_tx_spec w a w' :
  begin_tx o w = (a, w') →
  ∃ wi, after w wi ∧
    match a with Ok _ => w' = set_tx (Some []) wi | Err _ => w' = wi | _ => False end.
Proof.
  unfold begin_tx, effect. pose proof (interfere_after w) as Ha.
  set (wi := interfere _ _) in *. intros Hq. exists wi. split; [done|].
  destruct (m_fault _); by injection Hq as <- <-.
Qed.

Lemma commit_tx_spec w a w' :
  commit_tx o w = (a, w') →
  ∃ wi, after w wi ∧
    match a with
    | Ok _ => w' = set_tx None (set_db (view wi) (pending wi) wi)
    | Err _ => w' = set_tx None wi ∨ w' = set_tx None (set_db (view wi) (pending wi) wi)
    | _ => False
    end.
Proof.
  unfold commit_tx, effect. pose proof (interfere_after w) as Ha.
  set (wi := interfere _ _) in *. intros Hq. exists wi. split; [done|].
  destruct (m_fault _); injection Hq as <- <-; by auto.
Qed.

Lemma time_Now_spec w a w' :
  time_Now o w = (a, w') → (∃ t, a = Ok t) ∧ after w w'.
Proof.
  unfold time_Now, effect. intros [= <- <-]. split; [by eexists|apply interfere_after].
Qed.

Lemma ctx_Err_spec w a w' :
  ctx_Err o w = (a, w') → (∃ c, a = Ok c) ∧ after w w'.
Proof.
  unfold ctx_Err, effect. intros [= <- <-]. split; [by eexists|apply interfere_after].
Qed.

(** ** Combinators *)

Lemma catching_eq {A} (m : io A) w :
  catching m w = match m w with
                | (Ok a, w') => (Ok (inr a), w')
                | (Err e, w') => (Ok (inl e), w')
                | (Panic msg a, w') => (Panic msg a, w')
                end.
Proof. done. Qed.

Lemma wrapping_spec {A} f l (m : io A) w a w' :
  wrapping f l m w = (a, w') →
  ∃ a0, m w = (a0, w') ∧
    match a with Err e => ∃ e0, a0 = Err e0 ∧ e = Wrapf f l e0 | _ => a0 = a end.
Proof.
  unfold wrapping. destruct (m w) as [[x|e|msg x] w1]; intros [= <- <-]; eauto.
Qed.

Lemma query_row_pool {X} (s : stmt (option X)) w a w' :
  query_row o Pool s w = (a, w') →
  did s w w' ∧
  match a with
  | Ok x => ∃ d1 e, rtc db_step (w_db w) d1 ∧ exec s e d1 = (Ok (Some x), w_db w')
  | _ => True
  end.
Proof.
  unfold query_row. rewrite io_bind_eq. destruct (query o Pool s w) as [b w1] eqn:E.
  apply query_pool in E as [Hdid Hans].
  destruct b as [[x|]|e|msg l]; intros [= <- <-]; (split; [done|]); try done.
  destruct Hans as (d1 & e & ? & ? & _). by exists d1, e.
Qed.

Lemma query_row_tx {X} (s : stmt (option X)) w a w' :
  query_row o Tx s w = (a, w') →
  ∃ wi, after w wi ∧
    match a with
    | Ok x => ∃ e, (exec s e (view wi)).1 = Ok (Some x) ∧
        w' = set_tx (Some (pending wi ++ [Other _ s e])) wi
    | Err er => w' = wi ∨ (er = Sentinel pgx_ErrNoRows ∧
        ∃ e, (exec s e (view wi)).1 = Ok None ∧ w' = set_tx (Some (pending wi ++ [Other _ s e])) wi)
    | _ => w' = wi
    end.
Proof.
  unfold query_row. rewrite io_bind_eq. destruct (query o Tx s w) as [b w1] eqn:E.
  apply query_tx in E as (wi & Ha & Hb). intros Hq. exists wi. split; [done|].
  destruct b as [[x|]|e|msg l]; injection Hq as <- <-; [done| |by left|done].
  right. split; [done|]. destruct Hb as (e & ? & ?). by exists e.
Qed.

(** ** The recording functions *)

(** A value in memory and the text the table holds: the same, or its normal form. *)
Definition matches (v t : list ascii) : Prop := v = t ∨ jsonb_in v = Some t.

Section claim.
Context (eng : Engine) (run : claimedRun).
Context (Hid : uuid_in (ID run) = Some (ID run)) (Htok : uuid_in (Token run) = Some (Token run)).

Definition stored_at (index : nat) (v : list ascii) (d : db) : Prop :=
  ∃ t, step_checkpoints d !! (ID run, Z.of_nat index) = Some t ∧ matches v t.

Notation commit_stmt index raw complete :=
  (CommitStep (ID run) (Token run) (Z.of_nat index) raw complete).

Lemma commit_stored index raw complete e d existing d' :
  exec (commit_stmt index raw complete) e d = (Ok (Some existing), d') →
  stored_at index (default raw existing) d'.
Proof.
  cbn [exec]. intros Hc. apply commitStep_Some_inv in Hc as (r & v & _ & _ & _ & Hv & _ & -> & ->);
    [|done..].
  unfold stored_at. cbn. rewrite lookup_insert_eq. eexists. split; [done|].
  destruct (step_checkpoints d !! _) as [t|]; cbn; [by left|by right].
Qed.

Lemma commitStep_pool index raw complete w a w' :
  commitStep o Pool run index raw complete w = (a, w') →
  did (commit_stmt index raw complete) w w' ∧ (∀ v, a = Ok v → stored_at index v (w_db w')).
Proof.
  unfold commitStep. rewrite io_bind_eq, catching_eq.
  destruct (query_row o Pool _ w) as [b w1] eqn:E. apply query_row_pool in E as [Hdid Hb].
  destruct b as [ex|er|msg l].
  - destruct Hb as (d1 & e & _ & Hex). apply commit_stored in Hex.
    destruct ex as [t|]; intros [= <- <-]; (split; [done|]); by intros v [= <-].
  - destruct (isNoRows er); intros [= <- <-]; by split.
  - intros [= <- <-]. by split.
Qed.

Lemma commitStep_tx index raw complete w a w' :
  commitStep o Tx run index raw complete w = (a, w') →
  ∃ wi, after w wi ∧
    match a with
    | Ok v => ∃ e ex, (exec (commit_stmt index raw complete) e (view wi)).1 = Ok (Some ex) ∧
        v = default raw ex ∧ w' = set_tx (Some (pending wi ++ [Other _ (commit_stmt index raw complete) e])) wi
    | _ => w' = set_tx (w_tx w') wi
    end.
Proof.
  unfold commitStep. rewrite io_bind_eq, catching_eq.
  destruct (query_row o Tx _ w) as [b w1] eqn:E. apply query_row_tx in E as (wi & Ha & Hb).
  intros Hq. exists wi. split; [done|]. destruct b as [ex|er|msg l].
  - destruct Hb as (e & Hex & ->). destruct ex as [t|]; injection Hq as <- <-; by eexists _, _.
  - assert (w1 = set_tx (w_tx w1) wi) as E.
    { destruct Hb as [->|(_ & e & _ & ->)]; by destruct wi. }
    destruct (isNoRows er); by injection Hq as <- <-.
  - injection Hq as <- <-. subst w1. by destruct wi.
Qed.

(** Reads leave the view of a transaction alone. *)
Definition reads_only (w : world) : Prop := Forall read (pending w).

Lemma reads_only_view w : reads_only w → view w = w_db w.
Proof. apply reads_same. Qed.

Lemma reads_only_after w w' : after w w' → reads_only w → reads_only w'.
Proof. intros [_ Htx _ _] Hr. unfold reads_only, pending in *. by rewrite Htx. Qed.

Lemma reads_only_snoc w X (s : stmt X) e :
  fence_of s = None → (∀ d, (exec s e d).2 = d) → reads_only w →
  reads_only (set_tx (Some (pending w ++ [Other X s e])) w).
Proof. intros Hf Hs Hr. apply Forall_app_2; [exact Hr|]. by repeat constructor. Qed.

Lemma latestEvent_reads key e d : (exec (LatestEvent key) e d).2 = d.
Proof. cbn. unfold latestEvent. by case_match. Qed.

(** A row that the transaction's last statement changes is held until it commits. *)
Lemma held_row w X (s : stmt X) e id r :
  reads_only w → workflow_runs (exec s e (w_db w)).2 !! id = Some r →
  workflow_runs (w_db w) !! id ≠ Some r →
  id ∈ held_rows (set_tx (Some (pending w ++ [Other X s e])) w).
Proof.
  intros Hr Hnew Hold. unfold held_rows, view. cbn. rewrite foldl_app, (reads_same _ _ Hr). cbn.
  apply list_elem_of_filter. rewrite Hnew. split; [congruence|].
  apply elem_of_elements, elem_of_dom. by exists r.
Qed.

Lemma run_checkpoints_lookup id d d' i :
  run_checkpoints id d' = run_checkpoints id d →
  step_checkpoints d' !! (id, i) = step_checkpoints d !! (id, i).
Proof.
  intros Heq. assert (∀ d0, run_checkpoints id d0 !! (id, i) = step_checkpoints d0 !! (id, i)) as Hl.
  { intros d0. unfold run_checkpoints. destruct (step_checkpoints d0 !! (id, i)) eqn:E.
    - by apply map_lookup_filter_Some.
    - apply map_lookup_filter_None. by left. }
  by rewrite <-(Hl d'), <-(Hl d), Heq.
Qed.

(** A commit's answer and effect on its run depend on that run alone. *)
Lemma commit_local index raw complete e d d1 ex :
  agree_on (ID run) d d1 →
  (exec (commit_stmt index raw complete) e d).1 = Ok (Some ex) →
  (exec (commit_stmt index raw complete) e d1).1 = Ok (Some ex).
Proof.
  intros [Hrow Hcps] Hans.
  destruct (exec (commit_stmt index raw complete) e d) as [a d'] eqn:E. cbn in Hans. subst a.
  cbn [exec] in *.
  apply commitStep_Some_inv in E as (r & v & Hr & Hf & Hle & Hv & Hi & -> & _); [|done..].
  rewrite <-(run_checkpoints_lookup _ _ _ _ Hcps).
  by rewrite (commitStep_owned _ _ _ _ v _ _ _ r) by congruence.
Qed.

(** Committing the transaction takes effect on what is then committed. *)
Lemma commit_wait_tx w X (s : stmt X) e a w' :
  reads_only w →
  commit_tx o (set_tx (Some (pending w ++ [Other X s e])) w) = (a, w') →
  ∃ wi, after (set_tx (Some (pending w ++ [Other X s e])) w) wi ∧ w_tx w' = None ∧
    w_calls w' = w_calls w ∧
    let done := ((exec s e (w_db wi)).2, w_log wi ++ (pair Mine <$> pending w ++ [Other X s e])) in
    match a with
    | Ok _ => st w' = done
    | Err _ => st w' = st wi ∨ st w' = done
    | _ => False
    end.
Proof.
  intros Hr Hc. apply commit_tx_spec in Hc as (wi & Ha & Hb). exists wi. split; [done|].
  assert (pending wi = pending w ++ [Other X s e]) as Hp
    by (destruct Ha as [_ Htx _ _]; unfold pending; by rewrite Htx).
  assert (view wi = (exec s e (w_db wi)).2) as Hview.
  { unfold view. rewrite Hp, foldl_app, (reads_same _ _ Hr). done. }
  pose proof (af_calls _ _ Ha) as Hcalls. cbn in Hcalls.
  destruct a; [|destruct Hb as [->| ->]|done].
  - subst w'. unfold st. cbn. by rewrite Hview, Hp.
  - cbn. by eauto.
  - unfold st. cbn. rewrite Hview, Hp. by eauto.
Qed.

(** *** Waiting *)

(** A transaction that has only read so far. *)
Record reading (w w' : world) : Prop := {
  rd_st : rtc (theirs o) (st w) (st w');
  rd_calls : w_calls w' = w_calls w;
  rd_reads : reads_only w';
}.

Lemma reading_after w w1 w2 : reading w w1 → after w1 w2 → reading w w2.
Proof.
  intros [Hst Hc Hr] Ha. pose proof Ha as [Hst' _ Hc' _].
  split; [by etrans|congruence|by eapply reads_only_after].
Qed.

Lemma reading_begin w a w' :
  w_tx w = None → begin_tx o w = (a, w') → reading w w' ∧ (∀ m l, a ≠ Panic m l).
Proof.
  intros Hn (wi & Ha & Hb)%begin_tx_spec. pose proof Ha as [Hst Htx Hc _].
  destruct a; [| |done]; subst w'; (split; [|done]); split; try done.
  - by constructor.
  - unfold reads_only, pending. rewrite Htx, Hn. by constructor.
Qed.

Lemma reading_snoc w w1 X (s : stmt X) e :
  fence_of s = None → (∀ d, (exec s e d).2 = d) → reading w w1 →
  reading w (set_tx (Some (pending w1 ++ [Other X s e])) w1).
Proof. intros Hf Hs [Hst Hc Hr]. split; [done|done|by apply reads_only_snoc]. Qed.

Lemma reading_query w w1 X (s : stmt X) a w' :
  fence_of s = None → (∀ e d, (exec s e d).2 = d) → reading w w1 → query o Tx s w1 = (a, w') →
  reading w w'.
Proof.
  intros Hf Hs Hw (wi & Ha & Hb)%query_tx. apply (reading_after _ _ _ Hw) in Ha.
  destruct a; [destruct Hb as (e & _ & ->)|by subst..]. apply reading_snoc; [done|apply Hs|done].
Qed.

Lemma reading_query_row w w1 X (s : stmt (option X)) a w' :
  fence_of s = None → (∀ e d, (exec s e d).2 = d) → reading w w1 → query_row o Tx s w1 = (a, w') →
  reading w w'.
Proof.
  intros Hf Hs Hw (wi & Ha & Hb)%query_row_tx. apply (reading_after _ _ _ Hw) in Ha.
  destruct a as [x|er|]; [destruct Hb as (e & _ & ->)|destruct Hb as [->|(_ & e & _ & ->)]|by subst];
    try done; (apply reading_snoc; [done|apply Hs|done]).
Qed.

Lemma did_nothing {X} (s : stmt X) w w1 :
  w_tx w = None → reading w w1 → did s w (rollback w1).
Proof. intros Hn [Hst Hc _]. split_and!; [done|done|]. exists (st w1). by split; [|left]. Qed.

Lemma rollback_set_tx t w : rollback (set_tx t w) = rollback w.
Proof. done. Qed.

Notation wait_stmt index key timeout :=
  (ParkWait (ID run) (Token run) (Z.of_nat index) key (Milliseconds timeout)).

(** The transaction's one write, then its commit. *)
Lemma did_commit {X} (s : stmt X) e w w1 a w' :
  w_tx w = None → reading w w1 →
  commit_tx o (set_tx (Some (pending w1 ++ [Other X s e])) w1) = (a, w') →
  did s w (rollback w').
Proof.
  intros Hn [Hst Hcalls Hr] Hc.
  apply commit_wait_tx in Hc as (wi & Ha & Htx & Hc & Hb); [|done].
  split; [by rewrite Hn|]. split; [cbn; congruence|]. exists (st wi).
  split; [etrans; [exact Hst|exact (af_st _ _ Ha)]|].
  destruct a; [right|destruct Hb; [by left|right]|done]; by exists (pending w1), e.
Qed.

(** A commit that found its run holds the run's row. *)
Lemma commit_holds w index raw complete e ex :
  reads_only w → (exec (commit_stmt index raw complete) e (w_db w)).1 = Ok (Some ex) →
  ID run ∈ held_rows (set_tx (Some (pending w ++ [Other _ (commit_stmt index raw complete) e])) w).
Proof.
  intros Hr Hans. destruct (exec (commit_stmt index raw complete) e (w_db w)) as [a' d'] eqn:E.
  cbn in Hans. subst a'. pose proof E as E'. cbn [exec] in E'.
  apply commitStep_Some_inv in E' as (r & v & Hrow & _ & Hle & _ & _ & _ & Hd'); [|done..].
  apply (held_row w _ _ e (ID run)
    (committed_row (Z.of_nat index) complete (default v ex) e r)); [done| |].
  - rewrite E, Hd'. cbn. by rewrite lookup_insert_eq.
  - rewrite Hrow. intros [= Heq]. apply (f_equal step_index) in Heq. cbn in Heq. lia.
Qed.

Lemma delivery_spec index p complete w w1 a w' :
  w_tx w = None → reading w w1 →
  (stored ← Worker.commitStep o Tx run index (received_raw p) complete;
   _ ← wrapping "durablepg: commit event delivery: %w" [] (commit_tx o);
   mret (Some stored)) w1 = (a, w') →
  did (commit_stmt index (received_raw p) complete) w (rollback w') ∧
  (∀ v, a = Ok (Some v) → stored_at index v (w_db w')).
Proof.
  intros Hn Hw. rewrite io_bind_eq.
  destruct (Worker.commitStep _ _ _ _ _ _ w1) as [b w2] eqn:E.
  apply commitStep_tx in E as (wi & Ha & Hb). apply (reading_after _ _ _ Hw) in Ha as Hwi.
  destruct b as [v|er|msg l].
  2, 3: intros [= <- <-]; (split; [|done]); rewrite Hb, rollback_set_tx; by apply did_nothing.
  destruct Hb as (e & ex & Hans & -> & ->). rewrite io_bind_eq.
  destruct (wrapping _ _ _ _) as [c w3] eqn:E. apply wrapping_spec in E as (c0 & Hc & Hcc).
  intros Hq. assert (w' = w3) as -> by by destruct c; injection Hq as <- <-.
  split; [by eapply did_commit|]. intros v ->. destruct c as [u| |]; [|done..].
  injection Hq as <-. subst c0.
  rewrite reads_only_view in Hans by apply (rd_reads _ _ Hwi).
  apply commit_wait_tx in Hc as (w4 & Ha4 & _ & _ & Hdb%(f_equal fst)); [|apply (rd_reads _ _ Hwi)].
  change (w_db w3 = (exec (commit_stmt index (received_raw p) complete) e (w_db w4)).2) in Hdb.
  rewrite Hdb. assert (ID run ∈ held_rows (set_tx (Some (pending wi ++
    [Other _ (commit_stmt index (received_raw p) complete) e])) wi)) as Hheld.
  { eapply (commit_holds wi); [apply (rd_reads _ _ Hwi)|done]. }
  pose proof (af_held _ _ Ha4 _ Hheld) as Hagree. cbn in Hagree.
  pose proof (commit_local _ _ _ _ _ _ _ Hagree Hans) as Hans'.
  destruct (exec _ e (w_db w4)) as [a4 d4] eqn:E4. cbn in Hans'. subst a4.
  by apply commit_stored in E4.
Qed.

Lemma parking_spec index key timeout w w1 a w' :
  w_tx w = None → reading w w1 →
  (n ← wrapping "durablepg: park for event: %w" [] (query o Tx (wait_stmt index key timeout));
   _ ← lift (fenced n);
   _ ← wrapping "durablepg: commit wait: %w" [] (commit_tx o);
   mret None) w1 = (a, w') →
  did (wait_stmt index key timeout) w (rollback w') ∧ (∀ v : list ascii, a ≠ Ok (Some v)).
Proof.
  intros Hn Hw. rewrite io_bind_eq. destruct (wrapping _ _ _ w1) as [b w2] eqn:E.
  apply wrapping_spec in E as (b0 & Hq & Hb). apply query_tx in Hq as (wi & Ha & Hwi).
  apply (reading_after _ _ _ Hw) in Ha as Hr.
  destruct b as [n|er|msg l]; [subst b0| |subst b0].
  2, 3: intros [= <- <-]; try (destruct Hb as (? & -> & _)); subst w2;
    (split; [by apply did_nothing|done]).
  destruct Hwi as (e & _ & ->). rewrite io_bind_eq. unfold lift.
  destruct (fenced n) as [[]|er|msg l].
  2, 3: intros [= <- <-]; (split; [rewrite rollback_set_tx; by apply did_nothing|done]).
  rewrite io_bind_eq. destruct (wrapping _ _ _ _) as [c w3] eqn:E.
  apply wrapping_spec in E as (c0 & Hc & _). intros Hq.
  assert (w' = w3) as -> by by destruct c; injection Hq as <- <-.
  split; [by eapply did_commit|]. intros v ->. by destruct c.
Qed.

(** Waiting lets others run, then commits an event's delivery or parks the run. *)
Lemma waitForEvent_spec index key timeout complete w a w' :
  w_tx w = None → waitForEvent o eng run index key timeout complete w = (a, w') →
  ((∃ p, did (commit_stmt index (received_raw p) complete) w w') ∨
   did (wait_stmt index key timeout) w w') ∧
  (∀ v, a = Ok (Some v) → stored_at index v (w_db w')).
Proof.
  intros Hn. unfold waitForEvent. rewrite io_bind_eq.
  destruct (wrapping _ _ (begin_tx o) w) as [b w1] eqn:E.
  apply wrapping_spec in E as (b0 & Hb & Hbb). pose proof Hb as Htx.
  apply reading_begin in Hb as [Hr _]; [|done].
  assert (∀ X (s : stmt X), b0 ≠ Ok () → did s w w1) as Hfail.
  { intros X s Hne. apply begin_tx_spec in Htx as (wi & Ha & Hwi).
    destruct b0 as [[]| |]; [done| |done]. subst w1. destruct Ha as [Hst Ht Hc _].
    split_and!; [done|done|]. exists (st wi). by split; [|left]. }
  destruct b as [[]|er|msg l].
  2, 3: intros [= <- <-]; (split; [right; apply Hfail; intros ->; naive_solver|done]).
  unfold deferring at 1.
  destruct ((_ ← wrapping _ _ (query o Tx (LockEventKey _ _)); _) w1) as [a2 w2] eqn:E.
  intros [= -> <-]. rewrite io_bind_eq in E.
  destruct (wrapping _ _ _ w1) as [b1 w3] eqn:E1. apply wrapping_spec in E1 as (b2 & Hq & _).
  apply (reading_query w) in Hq; [|done..].
  destruct b1 as [u|er|msg l].
  2, 3: injection E as <- <-; (split; [right; by apply did_nothing|done]).
  rewrite io_bind_eq, catching_eq in E. destruct (query_row o Tx _ w3) as [b3 w4] eqn:E1.
  apply (reading_query_row w) in E1; [|done|apply latestEvent_reads|done].
  destruct b3 as [p|er|msg l].
  - apply (delivery_spec _ _ _ w) in E as [Hdid Hst]; [|done..].
    split; [left; by exists p|]. exact Hst.
  - destruct (negb (isNoRows er)).
    + injection E as <- <-. split; [right; by apply did_nothing|done].
    + apply (parking_spec _ _ _ w) in E as [Hdid Hne]; [|done..].
      split; [by right|]. intros v ->. by destruct (Hne v).
  - injection E as <- <-. split; [right; by apply did_nothing|done].
Qed.

(** ** The protocol of a claim *)

Section protocol.
Context (wf : compiledWorkflow).
Context (Hwf : compiled_wf wf).

(** Results are known from position [start] on: the claimed cursor, or the beginning
    when the claim is known to have loaded all of them. *)
Context (start : nat).

Notation named op := (op_name op ≠ None).

(** Every value-producing operation from [start] up to [index] has its checkpoint. *)
Definition recorded (index : nat) (d : db) : Prop :=
  ∀ j op, (start ≤ j)%nat → (j < index)%nat → cw_ops wf !! j = Some op → named op →
    is_Some (step_checkpoints d !! (ID run, Z.of_nat j)).

(** What the claim writes, and when: results in order, sleeps and waits at their
    place, completion at the end with the stored last result, or a failure. *)
Inductive own_stmt (d : db) : other → Prop :=
  | own_commit index op raw e :
      cw_ops wf !! index = Some op → named op → recorded index d →
      (start ≤ index)%nat →
      own_stmt d (Other _ (commit_stmt index raw
        (bool_decide (index = pred (length (cw_ops wf))))) e)
  | own_sleep index dur e :
      cw_ops wf !! index = Some (opSleep dur) → recorded index d →
      (start ≤ index)%nat →
      own_stmt d (Other _ (ParkSleep (ID run) (Token run) (Z.of_nat (S index)) (Milliseconds dur)) e)
  | own_wait index wait key e :
      cw_ops wf !! index = Some (opWaitEvent wait) → recorded index d →
      (start ≤ index)%nat →
      own_stmt d (Other _ (wait_stmt index key (w_timeout wait)) e)
  | own_complete output e :
      recorded (length (cw_ops wf)) d →
      (∀ v, output = Some v → stored_at (Z.to_nat (cw_outputIndex wf)) v d ∧
         0 <= cw_outputIndex wf) →
      (output = None → cw_outputIndex wf < Z.of_nat start) →
      own_stmt d (Other _ (CompleteRun (ID run) (Token run) (Z.of_nat (length (cw_ops wf))) output) e)
  | own_fail attempt ms msg e :
      own_stmt d (Other _ (FailOrRetry (ID run) (Token run) attempt ms msg) e).

(** A statement of the claim takes effect. *)
Definition mine (x y : db * list (party * other)) : Prop :=
  ∃ t, (own_stmt x.1 t ∨ read t) ∧ y = (run_other x.1 t, x.2 ++ [(Mine, t)]).
Definition moves (x y : db * list (party * other)) : Prop := theirs o x y ∨ mine x y.

Lemma moves_db x y : rtc moves x y → rtc db_step x.1 y.1.
Proof.
  induction 1 as [|x y z Hm _ IH]; [done|]. eapply rtc_l; [|exact IH].
  destruct Hm as [(t & _ & ->)|(t & _ & ->)]; apply run_other_step.
Qed.

Lemma theirs_moves x y : rtc (theirs o) x y → rtc moves x y.
Proof. apply rtc_subrel. intros ? ? ?. by left. Qed.

Lemma reads_moves d l rs : Forall read rs → rtc moves (d, l) (d, l ++ (pair Mine <$> rs)).
Proof.
  intros Hrs. revert l. induction Hrs as [|x rs Hx _ IH]; intros l; cbn; [by rewrite app_nil_r|].
  eapply rtc_l; [right; exists x; by split; [right|]|]. cbn. rewrite (proj2 Hx).
  specialize (IH (l ++ [(Mine, x)])). by rewrite <-app_assoc in IH.
Qed.

Lemma rtc_checkpoints d d' k v :
  rtc db_step d d' → step_checkpoints d !! k = Some v → step_checkpoints d' !! k = Some v.
Proof.
  induction 1 as [|d d1 d2 (X & s & e & ->) Hr IH]; [done|]. intros Hv.
  apply IH. eapply lookup_weaken; [done|apply exec_checkpoints_mono].
Qed.

Lemma recorded_mono index d d' : rtc db_step d d' → recorded index d → recorded index d'.
Proof.
  intros Hr Hrec j op H1 H2 H3 H4. destruct (Hrec j op H1 H2 H3 H4) as [v Hv].
  exists v. by eapply rtc_checkpoints.
Qed.

Lemma stored_mono index v d d' : rtc db_step d d' → stored_at index v d → stored_at index v d'.
Proof. intros Hr (t & Ht & Hm). exists t. split; [by eapply rtc_checkpoints|done]. Qed.

Lemma did_moves {X} (s : stmt X) w w' :
  did s w w' → (∀ d1 e, rtc db_step (w_db w) d1 → own_stmt d1 (Other X s e)) →
  rtc moves (st w) (st w').
Proof.
  intros (_ & _ & x & Hr & Hd) Hown. pose proof (theirs_db _ _ _ Hr) as Hdb.
  etrans; [by apply theirs_moves|]. destruct x as [d1 l1]. cbn in *.
  destruct Hd as [->|(rs & e & Hrs & ->)]; [done|].
  rewrite fmap_app, app_assoc. etrans; [by apply reads_moves|]. apply rtc_once. right.
  exists (Other X s e). split; [|done]. left. by apply Hown.
Qed.

Lemma after_moves w w' : after w w' → rtc moves (st w) (st w').
Proof. intros [Hst _ _ _]. by apply theirs_moves. Qed.

(** ** The values a claim works with *)

(** [vs] holds every result from [start] up to [index], as the table has them. *)
Record loaded (index : nat) (vs : values) (d : db) : Prop := {
  ld_length : length vs = length (cw_ops wf);
  ld_stored : ∀ i v, vs !! i = Some (Some v) → stored_at i v d;
  ld_full : ∀ j op, (start ≤ j)%nat → (j < index)%nat → cw_ops wf !! j = Some op →
    named op → ∃ v, vs !! j = Some (Some v);
}.

Lemma loaded_recorded index vs d : loaded index vs d → recorded index d.
Proof.
  intros [_ Hst Hfull] j op H1 H2 H3 H4. destruct (Hfull j op H1 H2 H3 H4) as [v Hv].
  destruct (Hst _ _ Hv) as (t & Ht & _). by exists t.
Qed.

Lemma loaded_mono index vs d d' : rtc db_step d d' → loaded index vs d → loaded index vs d'.
Proof. intros Hr [H1 H2 H3]. split; [done| |done]. intros. by eapply stored_mono; [|apply H2]. Qed.

Lemma loaded_skip index vs d v :
  loaded index vs d → vs !! index = Some (Some v) → loaded (S index) vs d.
Proof.
  intros [H1 H2 H3] Hv. split; [done..|]. intros j op Hj1 Hj2 Hj3 Hj4.
  destruct (decide (j = index)) as [->|]; [by exists v|]. apply (H3 j op); [done|lia|done..].
Qed.

Lemma loaded_insert index vs d v :
  loaded index vs d → stored_at index v d → loaded (S index) (<[index := Some v]> vs) d.
Proof.
  intros [H1 H2 H3] Hv. split; [by rewrite length_insert| |].
  - intros i u. destruct (decide (i = index)) as [->|].
    + intros Hu. destruct (decide (index < length vs)%nat).
      * rewrite list_lookup_insert_eq in Hu by done. by simplify_eq.
      * rewrite list_insert_ge in Hu by lia. by apply H2.
    + rewrite list_lookup_insert_ne by done. apply H2.
  - intros j op Hj1 Hj2 Hj3 Hj4. destruct (decide (j = index)) as [->|].
    + exists v. apply list_lookup_insert_eq. rewrite H1. by eapply lookup_lt_Some.
    + rewrite list_lookup_insert_ne by done. apply (H3 j op); [done|lia|done..].
Qed.

(** A call of user code that the claim makes. *)
Record call_ok (index : nat) (vs : values) (d : db) (c : call) : Prop := {
  co_from : (index ≤ call_index c)%nat;
  co_op : match c with
          | StepCalled i fn _ => ∃ st, cw_ops wf !! i = Some (opStep st) ∧ st_fn st = fn
          | KeyFnCalled i fn _ => ∃ wt, cw_ops wf !! i = Some (opWaitEvent wt) ∧ w_keyFn wt = Some fn
          end;
  co_new : mjoin (vs !! call_index c) = None;
  co_ctx : ∃ vsc op name, cw_ops wf !! call_index c = Some op ∧ op_name op = Some name ∧
    call_sc c = stepContext run wf vsc (call_index c) name;
  co_true : ∀ i v, sc_values (call_sc c) !! i = Some (Some v) → stored_at i v d;
  co_all : ∀ j op, (start ≤ j)%nat → (j < call_index c)%nat →
    cw_ops wf !! j = Some op → named op → ∃ v, sc_values (call_sc c) !! j = Some (Some v);
}.

(** The calls from position [index] on: in order, each operation at most once. *)
Definition calls_ok (index : nat) (vs : values) (w w' : world) : Prop :=
  ∃ new, w_calls w' = w_calls w ++ new ∧
    StronglySorted lt (call_index <$> new) ∧ Forall (call_ok index vs (w_db w')) new.

Lemma calls_ok_nil index vs w w' : w_calls w' = w_calls w → calls_ok index vs w w'.
Proof. intros Hc. exists []. rewrite app_nil_r. split_and!; [done|constructor|constructor]. Qed.

Lemma call_ok_mono index vs d d' c :
  rtc db_step d d' → call_ok index vs d c → call_ok index vs d' c.
Proof. intros Hr [H1 H2 H3 H4 H5 H6]. split; try done. intros. by eapply stored_mono; [|apply H5]. Qed.

(** Going on from a later position with more values. *)
Lemma calls_ok_change index index' vs vs' w1 w2 w' :
  (index ≤ index')%nat → (∀ j, (index' ≤ j)%nat → vs' !! j = vs !! j) →
  w_calls w2 = w_calls w1 → calls_ok index' vs' w2 w' → calls_ok index vs w1 w'.
Proof.
  intros Hle Hvs Hc (new & Hnew & Hs & Hall). exists new. rewrite <-Hc. split_and!; [done..|].
  eapply Forall_impl; [exact Hall|]. intros c [H1 H2 H3 H4 H5 H6].
  split; try done; [lia|]. by rewrite <-Hvs.
Qed.

Lemma calls_ok_cons index vs w w1 w' c :
  w_calls w1 = w_calls w ++ [c] → call_index c = index → call_ok index vs (w_db w') c →
  calls_ok (S index) vs w1 w' → calls_ok index vs w w'.
Proof.
  intros Hc Hi Hok (new & Hnew & Hs & Hall). exists (c :: new).
  rewrite Hnew, Hc, <-app_assoc. split_and!; [done| |].
  - rewrite fmap_cons. constructor; [done|]. apply Forall_fmap. eapply Forall_impl; [exact Hall|].
    intros c' [H1 _ _ _ _ _]. cbn. lia.
  - constructor; [done|]. eapply Forall_impl; [exact Hall|]. intros c' [H1 H2 H3 H4 H5 H6].
    split; try done. lia.
Qed.

(** ** Calls of user code *)

Lemma runStep_spec vs index step w a w' :
  runStep o wf run vs index step w = (a, w') →
  ∃ wi, after w wi ∧
    w' = log_call (StepCalled index (st_fn step) (stepContext run wf vs index (st_name step))) wi.
Proof.
  unfold runStep, call_step, effect. rewrite io_bind_eq. intros [= <- <-].
  exists (interfere w (o (w_tick w))). split; [apply interfere_after|done].
Qed.

Lemma resolve_spec vs index wait w a w' :
  resolve o wf run vs index wait w = (a, w') →
  w' = w ∨ ∃ fn wi, w_keyFn wait = Some fn ∧ after w wi ∧
    w' = log_call (KeyFnCalled index fn (stepContext run wf vs index (w_name wait))) wi.
Proof.
  unfold resolve. destruct (w_keyFn wait) as [fn|]; [|intros [= <- <-]; by left].
  unfold call_keyFn, effect. rewrite io_bind_eq. intros [= <- <-]. right.
  exists fn, (interfere w (o (w_tick w))). split_and!; [done|apply interfere_after|done].
Qed.

Lemma call_ok_here index vs d c op name :
  loaded index vs d → mjoin (vs !! index) = None → call_index c = index →
  cw_ops wf !! index = Some op → op_name op = Some name →
  call_sc c = stepContext run wf vs index name →
  match c with
  | StepCalled i fn _ => ∃ st, op = opStep st ∧ st_fn st = fn
  | KeyFnCalled i fn _ => ∃ wt, op = opWaitEvent wt ∧ w_keyFn wt = Some fn
  end → call_ok index vs d c.
Proof.
  intros [H1 H2 H3] Hnew Hi Hop Hname Hsc Hkind. split.
  - by rewrite Hi.
  - destruct c; cbn in Hi; subst; destruct Hkind as (x & -> & ?); eauto.
  - by rewrite Hi.
  - rewrite Hi. by exists vs, op, name.
  - rewrite Hsc. cbn. intros i v Hv. apply H2.
    destruct (decide (i < index)%nat).
    + by rewrite lookup_take_lt in Hv.
    + by rewrite lookup_take_ge in Hv by lia.
  - rewrite Hi, Hsc. cbn. intros j op' Hj1 Hj2 Hj3 Hj4. rewrite lookup_take_lt by done. eauto.
Qed.

(** ** The loop *)

(** What a part of the loop leaves behind. *)
Definition driven (index : nat) (vs : values) (w w' : world) : Prop :=
  w_tx w' = None ∧ rtc moves (st w) (st w') ∧ calls_ok index vs w w'.

Lemma driven_quiet index vs w w' :
  w_tx w' = None → w_calls w' = w_calls w → rtc moves (st w) (st w') → driven index vs w w'.
Proof. intros. split_and!; [done..|]. by apply calls_ok_nil. Qed.

Lemma driven_after index vs w wi w' :
  after w wi → driven index vs wi w' → driven index vs w w'.
Proof.
  intros Ha (Htx & Hm & Hc). split_and!; [done| |].
  - etrans; [by apply after_moves|done].
  - eapply (calls_ok_change index index vs vs w wi); [done|done|apply (af_calls _ _ Ha)|done].
Qed.

Lemma loaded_after index vs w wi : after w wi → loaded index vs (w_db w) → loaded index vs (w_db wi).
Proof. intros Ha. apply loaded_mono. by apply af_db. Qed.

Lemma loaded_moves index vs w w' :
  rtc moves (st w) (st w') → loaded index vs (w_db w) → loaded index vs (w_db w').
Proof. intros Hm. apply loaded_mono. exact (moves_db _ _ Hm). Qed.

Lemma recorded_here index vs w d1 :
  loaded index vs (w_db w) → rtc db_step (w_db w) d1 → recorded index d1.
Proof. intros Hl Hr. eapply recorded_mono; [exact Hr|by eapply loaded_recorded]. Qed.

(** A user call at [index] followed by [driven] code. *)
Lemma driven_call index vs w wi w1 w' c :
  after w wi → w1 = log_call c wi → call_index c = index →
  call_ok index vs (w_db w1) c → rtc moves (st w1) (st w') → w_tx w' = None →
  calls_ok (S index) vs w1 w' → driven index vs w w'.
Proof.
  intros Ha -> Hi Hok Hm Htx Hc. eapply driven_after; [done|]. split_and!; [done|done|].
  apply (calls_ok_cons index vs wi (log_call c wi) w' c); [done|done| |done].
  eapply call_ok_mono; [|done]. exact (moves_db _ _ Hm).
Qed.

Lemma completeRun_driven index vs w a w' :
  w_tx w = None → loaded (length (cw_ops wf)) vs (w_db w) →
  Worker.completeRun o wf run vs w = (a, w') → driven index vs w w'.
Proof.
  intros Hn Hl. unfold Worker.completeRun. rewrite io_bind_eq.
  destruct (wrapping _ _ _ w) as [b w1] eqn:E. apply wrapping_spec in E as (b0 & Hq & _).
  apply query_pool in Hq as [Hdid _]. intros Hx.
  assert (w' = w1) as -> by (by destruct b; injection Hx as <- <-).
  pose proof Hdid as (Htx & Hc & _). apply driven_quiet; [congruence|done|].
  eapply did_moves; [exact Hdid|]. intros d1 e Hr. apply own_complete.
  - by eapply recorded_here.
  - intros v. destruct (0 <=? cw_outputIndex wf) eqn:Ho; [|done]. bool_to_prop. intros Hv.
    split; [|done]. eapply stored_mono; [exact Hr|]. apply (ld_stored _ _ _ Hl).
    by destruct (vs !! _) as [[u|]|]; cbn in Hv; simplify_eq.
  - destruct (0 <=? cw_outputIndex wf) eqn:Ho; bool_to_prop; [|lia]. intros Hnone.
    destruct (cwf_output _ Hwf) as [[Hneg _]|(i & op & n & Hi & Hop & Hname & _)]; [lia|].
    rewrite Hi in *. rewrite Nat2Z.id in Hnone. destruct (decide (start ≤ i)%nat); [|lia].
    destruct (ld_full _ _ _ Hl i op) as [v Hv]; [done|by eapply lookup_lt_Some|done|congruence|].
    by rewrite Hv in Hnone.
Qed.

(** One iteration, by kind of operation. *)
Section iteration.
Context (rest : list operation) (index : nat) (vs : values) (op : operation).
Context (Hstart : (start ≤ index)%nat) (Hop : cw_ops wf !! index = Some op).
Context (Hnew : mjoin (vs !! index) = None).
Context (Hrec : ∀ vs w a w', w_tx w = None → loaded (S index) vs (w_db w) →
  drive_from o eng wf run rest (S index) vs w = (a, w') → driven (S index) vs w w').

Notation complete := (bool_decide (index = pred (length (cw_ops wf)))).

(** A value stored at [index], then the rest. *)
Lemma stored_driven v w a w' :
  w_tx w = None → loaded index vs (w_db w) → stored_at index v (w_db w) →
  (if complete then mret () else drive_from o eng wf run rest (S index) (<[index := Some v]> vs)) w
    = (a, w') →
  w_tx w' = None ∧ rtc moves (st w) (st w') ∧ calls_ok (S index) vs w w'.
Proof.
  intros Hn Hl Hst. destruct complete.
  - intros [= <- <-]. split_and!; [done|done|by apply calls_ok_nil].
  - intros Hd. apply Hrec in Hd as (H1 & H2 & H3); [|done|by apply loaded_insert].
    split_and!; [done..|].
    eapply (calls_ok_change (S index) (S index) vs (<[index := Some v]> vs) w w); [done| |done..].
    intros j Hj. by rewrite list_lookup_insert_ne by lia.
Qed.

Lemma step_driven step w a w' :
  op = opStep step → w_tx w = None → loaded index vs (w_db w) →
  (raw ← runStep o wf run vs index step;
   stored ← Worker.commitStep o Pool run index raw complete;
   if complete then mret ()
   else drive_from o eng wf run rest (S index) (<[index := Some stored]> vs)) w = (a, w') →
  driven index vs w w'.
Proof.
  intros -> Hn Hl. rewrite io_bind_eq. destruct (runStep _ _ _ _ _ _ w) as [b w1] eqn:E.
  apply runStep_spec in E as (wi & Ha & Hw1). set (c := StepCalled _ _ _) in Hw1.
  pose proof (loaded_after _ _ _ _ Ha Hl) as Hli.
  assert (w_tx w1 = None) as Hn1 by (subst w1; cbn; rewrite (af_tx _ _ Ha); done).
  assert (call_ok index vs (w_db w1) c) as Hok.
  { subst w1. eapply call_ok_here; [exact Hli|done|done|exact Hop|done|done|]. by exists step. }
  assert (loaded index vs (w_db w1)) as Hl1 by by subst w1.
  destruct b as [raw|er|msg l].
  2, 3: intros [= <- <-]; eapply driven_call; [done..|by apply calls_ok_nil].
  rewrite io_bind_eq. destruct (Worker.commitStep _ _ _ _ _ _ w1) as [b w2] eqn:E.
  apply commitStep_pool in E as [Hdid Hst].
  assert (rtc moves (st w1) (st w2)) as Hm12.
  { eapply did_moves; [exact Hdid|]. intros d1 e Hr. eapply own_commit; [done|done| |done].
    by eapply recorded_here. }
  destruct Hdid as (Htx2 & Hc2 & _). rewrite Hn1 in Htx2.
  destruct b as [v|er|msg l].
  2, 3: intros [= <- <-]; eapply driven_call; [done..|by apply calls_ok_nil].
  intros Hd. apply stored_driven in Hd as (H1 & H2 & H3);
    [|done|by eapply loaded_moves|by apply Hst].
  eapply driven_call; [done..|by etrans|done|].
  by eapply (calls_ok_change (S index) (S index) vs vs w1 w2).
Qed.

Lemma sleep_driven d w a w' :
  op = opSleep d → w_tx w = None → loaded index vs (w_db w) →
  parkForSleep o run (S index) d w = (a, w') → driven index vs w w'.
Proof.
  intros -> Hn Hl. unfold parkForSleep. rewrite io_bind_eq.
  destruct (wrapping _ _ _ w) as [b w1] eqn:E. apply wrapping_spec in E as (b0 & Hq & _).
  apply query_pool in Hq as [Hdid _]. intros Hx.
  assert (w' = w1) as -> by (by destruct b; injection Hx as <- <-).
  pose proof Hdid as (Htx & Hc & _). apply driven_quiet; [congruence|done|].
  eapply did_moves; [exact Hdid|]. intros d1 e Hr. apply own_sleep; [done| |done].
  by eapply recorded_here.
Qed.

Lemma wait_driven wait w a w' :
  op = opWaitEvent wait → w_tx w = None → loaded index vs (w_db w) →
  (key ← resolve o wf run vs index wait;
   raw ← waitForEvent o eng run index key (w_timeout wait) complete;
   match raw with
   | None => mret ()
   | Some raw =>
     if complete then mret ()
     else drive_from o eng wf run rest (S index) (<[index := Some raw]> vs)
   end) w = (a, w') →
  driven index vs w w'.
Proof.
  intros -> Hn Hl. rewrite io_bind_eq. destruct (resolve _ _ _ _ _ _ w) as [b w1] eqn:E.
  assert (∀ w1, w_tx w1 = None → loaded index vs (w_db w1) →
    ∀ b key a w', (raw ← waitForEvent o eng run index key (w_timeout wait) complete;
      match raw with
      | None => mret ()
      | Some raw =>
        if complete then mret ()
        else drive_from o eng wf run rest (S index) (<[index := Some raw]> vs)
      end) w1 = (a, w') → b = Ok key →
    w_tx w' = None ∧ rtc moves (st w1) (st w') ∧ calls_ok (S index) vs w1 w') as Hmain.
  { clear - Hn Hl Hrec Hop Hstart Hid Htok. intros w1 Hn1 Hl1 b key a w' Hd _.
    rewrite io_bind_eq in Hd. destruct (waitForEvent _ _ _ _ _ _ _ w1) as [c w2] eqn:E.
    apply waitForEvent_spec in E as [Hwait Hst]; [|done].
    assert (w_tx w2 = None ∧ w_calls w2 = w_calls w1 ∧ rtc moves (st w1) (st w2))
      as (Hn2 & Hc2 & Hm).
    { destruct Hwait as [[p Hdid]|Hdid]; pose proof Hdid as (Htx & Hc & _);
        (split_and!; [congruence|done|]); eapply did_moves; try exact Hdid; intros d1 e Hr.
      - eapply own_commit; [done|done| |done]. by eapply recorded_here.
      - apply own_wait; [done| |done]. by eapply recorded_here. }
    destruct c as [[v|]|er|msg l].
    2, 3, 4: injection Hd as <- <-; (split_and!; [done..|by apply calls_ok_nil]).
    apply stored_driven in Hd as (H1 & H2 & H3); [|done|by eapply loaded_moves|by apply Hst].
    split_and!; [done|by etrans|]. by eapply (calls_ok_change (S index) (S index) vs vs w1 w2). }
  apply resolve_spec in E as [->|(fn & wi & Hfn & Ha & Hw1)].
  - destruct b as [key|er|msg l].
    2, 3: intros [= <- <-]; by apply driven_quiet.
    intros Hd. eapply (Hmain w Hn Hl (Ok key)) in Hd as (H1 & H2 & H3); [|done].
    split_and!; [done..|]. by eapply (calls_ok_change index (S index) vs vs w w); [lia|..].
  - set (c := KeyFnCalled _ _ _) in Hw1.
    pose proof (loaded_after _ _ _ _ Ha Hl) as Hli.
    assert (w_tx w1 = None) as Hn1 by (subst w1; cbn; rewrite (af_tx _ _ Ha); done).
    assert (call_ok index vs (w_db w1) c) as Hok.
    { subst w1. eapply call_ok_here; [exact Hli|done|done|exact Hop|done|done|]. by exists wait. }
    assert (loaded index vs (w_db w1)) as Hl1 by by subst w1.
    destruct b as [key|er|msg l].
    2, 3: intros [= <- <-]; eapply driven_call; [done..|by apply calls_ok_nil].
    intros Hd. eapply (Hmain w1 Hn1 Hl1 (Ok key)) in Hd as (H1 & H2 & H3); [|done].
    by eapply driven_call.
Qed.
End iteration.

(** The loop keeps the protocol from any position and any state of the tables. *)
Lemma drive_from_driven rest : ∀ index vs w a w',
  rest = drop index (cw_ops wf) → (start ≤ index)%nat → w_tx w = None →
  loaded index vs (w_db w) →
  drive_from o eng wf run rest index vs w = (a, w') → driven index vs w w'.
Proof.
  induction rest as [|op rest IH]; intros index vs w a w' Hrest Hstart Hn Hl.
  { cbn [drive_from]. intros Hd. eapply completeRun_driven; [done| |done].
    destruct Hl as [H1 H2 H3]. split; [done..|]. intros j op Hj1 Hj2. apply H3; [done|].
    assert (length (drop index (cw_ops wf)) = 0)%nat as Hlen by by rewrite <-Hrest.
    rewrite length_drop in Hlen. lia. }
  assert (cw_ops wf !! index = Some op) as Hop.
  { rewrite <-(Nat.add_0_r index), <-lookup_drop, <-Hrest. done. }
  assert (rest = drop (S index) (cw_ops wf)) as Hrest'.
  { rewrite <-(drop_drop _ 1 index) || rewrite <-Nat.add_1_r, <-drop_drop. by rewrite <-Hrest. }
  cbn [drive_from]. rewrite io_bind_eq. destruct (ctx_Err o w) as [b w1] eqn:E.
  apply ctx_Err_spec in E as [[c ->] Ha]. pose proof (loaded_after _ _ _ _ Ha Hl) as Hl1.
  assert (w_tx w1 = None) as Hn1 by (rewrite (af_tx _ _ Ha); done).
  intros Hd. apply (driven_after _ _ _ _ _ Ha). clear Ha Hl Hn w.
  destruct c as [er|].
  { injection Hd as <- <-. by apply driven_quiet. }
  case_bool_decide as Hcp.
  { destruct Hcp as [v Hv]. assert (vs !! index = Some (Some v)) as Hv'
      by by destruct (vs !! index) as [[u|]|]; cbn in Hv; simplify_eq.
    apply IH in Hd as (H1 & H2 & H3); [|done|lia|done|by eapply loaded_skip].
    split_and!; [done..|]. by eapply (calls_ok_change index (S index) vs vs w1 w1); [lia|..]. }
  assert (mjoin (vs !! index) = None) as Hnew by (by destruct (mjoin (vs !! index)); [destruct Hcp|]).
  assert (∀ vs w a w', w_tx w = None → loaded (S index) vs (w_db w) →
    drive_from o eng wf run rest (S index) vs w = (a, w') → driven (S index) vs w w') as Hrec
    by (intros; eapply IH; [done|lia|done..]).
  destruct op as [step|d|wait].
  - by eapply step_driven.
  - by eapply sleep_driven.
  - by eapply wait_driven.
Qed.
(** ** A whole claim *)

(** The claim's checkpoints are those of the table, and from [start] up to its cursor
    none is missing. *)
Record claim_loaded (d : db) : Prop := {
  cl_stored : ∀ i v, checkpoints run !! Z.of_nat i = Some (Some v) → stored_at i v d;
  cl_full : ∀ j op, (start ≤ j)%nat → Z.of_nat j < StepIndex run → cw_ops wf !! j = Some op →
    named op → ∃ v, checkpoints run !! Z.of_nat j = Some (Some v);
}.

Lemma claim_loaded_values w :
  claim_loaded (w_db w) → 0 <= StepIndex run →
  loaded (Z.to_nat (StepIndex run)) (load_values (length (cw_ops wf)) (checkpoints run)) (w_db w).
Proof.
  intros [Hst Hfull] Hpos. destruct (load_values_spec (length (cw_ops wf)) (checkpoints run))
    as [Hlen Hl]. split; [done| |].
  - intros i v [_ Hv]%Hl. by apply Hst.
  - intros j op Hj1 Hj2 Hj3 Hj4. destruct (Hfull j op) as [v Hv]; [done|lia|done..|].
    exists v. apply Hl. split; [by eapply lookup_lt_Some|done].
Qed.

Lemma drive_driven w a w' :
  workflow eng (WorkflowName run) (Version run) = Some wf →
  (Z.of_nat start <= Z.max 0 (StepIndex run)) → w_tx w = None → claim_loaded (w_db w) →
  drive o eng run w = (a, w') →
  driven (Z.to_nat (StepIndex run)) (load_values (length (cw_ops wf)) (checkpoints run)) w w'.
Proof.
  intros Hwfl Hstart Hn Hl. unfold drive. rewrite Hwfl. destruct (StepIndex run <? 0) eqn:E; bool_to_prop.
  - rewrite io_bind_eq. destruct (ctx_Err o w) as [b w1] eqn:Ec.
    apply ctx_Err_spec in Ec as [[c ->] Ha]. intros Hx.
    assert (w' = w1) as -> by by destruct c; injection Hx as <- <-.
    apply driven_quiet; [rewrite (af_tx _ _ Ha); done|apply (af_calls _ _ Ha)|by apply after_moves].
  - intros Hd. eapply drive_from_driven; [done|lia|done| |exact Hd]. by apply claim_loaded_values.
Qed.

Lemma executeClaim_driven Error w a w' :
  workflow eng (WorkflowName run) (Version run) = Some wf →
  (Z.of_nat start <= Z.max 0 (StepIndex run)) → w_tx w = None → claim_loaded (w_db w) →
  executeClaim o Error eng run w = (a, w') →
  driven (Z.to_nat (StepIndex run)) (load_values (length (cw_ops wf)) (checkpoints run)) w w'.
Proof.
  intros Hwfl Hstart Hn Hl. unfold executeClaim. rewrite io_bind_eq, catching_eq.
  destruct (drive o eng run w) as [b w1] eqn:E. apply drive_driven in E; [|done..].
  assert (∀ w2, w_tx w2 = None → w_calls w2 = w_calls w1 → rtc moves (st w1) (st w2) →
    driven (Z.to_nat (StepIndex run)) (load_values (length (cw_ops wf)) (checkpoints run)) w w2)
    as Hthen.
  { intros w2 Hn2 Hc2 Hm2. destruct E as (H1 & H2 & (new & Hnew & Hs & Hall)).
    split_and!; [done|by etrans|]. exists new. split_and!; [congruence|done|].
    eapply Forall_impl; [exact Hall|]. intros c. apply call_ok_mono. exact (moves_db _ _ Hm2). }
  destruct b as [u|er|msg l].
  - intros [= <- <-]. done.
  - destruct (errors_Is er errLostLease); [by intros [= <- <-]|].
    rewrite io_bind_eq. destruct (ctx_Err o w1) as [b w2] eqn:E2.
    apply ctx_Err_spec in E2 as [[c ->] Ha]. destruct c as [er'|].
    + intros [= <- <-]. apply Hthen; [rewrite (af_tx _ _ Ha); apply E|apply (af_calls _ _ Ha)
        |by apply after_moves].
    + unfold Worker.failOrRetry. rewrite io_bind_eq. destruct (wrapping _ _ _ w2) as [b w3] eqn:E3.
      apply wrapping_spec in E3 as (b0 & Hq & _). apply query_pool in Hq as [Hdid _].
      intros Hx. assert (w' = w3) as -> by by destruct b; injection Hx as <- <-.
      pose proof Hdid as (Htx & Hc & _). apply Hthen.
      * rewrite Htx, (af_tx _ _ Ha). apply E.
      * rewrite Hc. apply (af_calls _ _ Ha).
      * etrans; [by apply after_moves|]. eapply did_moves; [exact Hdid|]. intros. apply own_fail.
  - by intros [= <- <-].
Qed.
End protocol.
End claim.
End programs.

(** ** Properties *)

Section replay_props.
Context `{Postgres}.

(** What every claim hands over: its run and the texts the table holds. *)
Definition claim_of (d : db) (run : claimedRun) : Prop :=
  uuid_in (ID run) = Some (ID run) ∧ uuid_in (Token run) = Some (Token run) ∧
  0 <= StepIndex run ∧
  ∀ i v, checkpoints run !! Z.of_nat i = Some (Some v) → stored_at run i v d.

(** C6: a claim calls user code in workflow order, each operation at most once, never
    before the claimed cursor and never for an operation that already has a checkpoint:
    a committed step is not executed again, whatever other workers do meanwhile and
    whichever database calls fail. *)
Theorem replay_skips_committed_steps o Error eng run wf w a w' :
  workflow eng (WorkflowName run) (Version run) = Some wf → compiled_wf wf →
  w_tx w = None → claim_of (w_db w) run →
  executeClaim o Error eng run w = (a, w') →
  ∃ new, w_calls w' = w_calls w ++ new ∧ StronglySorted lt (call_index <$> new) ∧
    ∀ c, c ∈ new →
      StepIndex run <= Z.of_nat (call_index c) ∧
      (∀ v, checkpoints run !! Z.of_nat (call_index c) ≠ Some (Some v)) ∧
      match c with
      | StepCalled i fn _ => ∃ st, cw_ops wf !! i = Some (opStep st) ∧ st_fn st = fn
      | KeyFnCalled i fn _ =>
        ∃ wt, cw_ops wf !! i = Some (opWaitEvent wt) ∧ w_keyFn wt = Some fn
      end.
Proof.
  intros Hwfl Hwf Hn (Hid & Htok & Hpos & Hst) Hx.
  eapply (executeClaim_driven o eng run Hid Htok wf Hwf
    (Z.to_nat (StepIndex run))) in Hx as (_ & _ & new & Hnew & Hs & Hall);
    [|done|lia|done|split; [done|lia]].
  exists new. split_and!; [done..|]. intros c Hc. rewrite Forall_forall in Hall.
  destruct (Hall c Hc) as [H1 H2 H3 _ _ _]. split_and!; [lia| |done].
  intros v Hv. destruct (load_values_spec (length (cw_ops wf)) (checkpoints run)) as [_ Hl].
  assert (call_index c < length (cw_ops wf))%nat as Hlt.
  { destruct c; cbn; [destruct H2 as (? & ? & _)|destruct H2 as (? & ? & _)];
      by eapply lookup_lt_Some. }
  rewrite (proj2 (Hl (call_index c) v)) in H3 by done. done.
Qed.

(** C7: the context handed to user code is truthful and complete: it names the run,
    carries its input and the operation's own key, every earlier result it shows is
    committed in the table, and - when the claim was loaded with every result before
    its cursor - the result of every earlier step and wait is there. *)
Theorem step_contexts_show_committed_results o Error eng run wf w a w' :
  workflow eng (WorkflowName run) (Version run) = Some wf → compiled_wf wf →
  w_tx w = None → claim_of (w_db w) run →
  (∀ j op, Z.of_nat j < StepIndex run → cw_ops wf !! j = Some op → op_name op ≠ None →
     ∃ v, checkpoints run !! Z.of_nat j = Some (Some v)) →
  executeClaim o Error eng run w = (a, w') →
  ∃ new, w_calls w' = w_calls w ++ new ∧
    ∀ c, c ∈ new →
      (∃ op name, cw_ops wf !! call_index c = Some op ∧ op_name op = Some name ∧
         sc_RunID (call_sc c) = ID run ∧ sc_Input (call_sc c) = Some (Input run) ∧
         sc_StepKey (call_sc c) = step_key (call_index c) name ∧
         sc_names (call_sc c) = cw_names wf) ∧
      (∀ i v, sc_values (call_sc c) !! i = Some (Some v) →
         ∃ t, step_checkpoints (w_db w') !! (ID run, Z.of_nat i) = Some t ∧ matches v t) ∧
      (∀ j op, (j < call_index c)%nat → cw_ops wf !! j = Some op → op_name op ≠ None →
         ∃ v, sc_values (call_sc c) !! j = Some (Some v)).
Proof.
  intros Hwfl Hwf Hn (Hid & Htok & Hpos & Hst) Hfull Hx.
  eapply (executeClaim_driven o eng run Hid Htok wf Hwf 0%nat)
    in Hx as (_ & _ & new & Hnew & _ & Hall); [|done|lia|done|split; [done|intros; by eapply Hfull]].
  exists new. split; [done|]. intros c Hc. rewrite Forall_forall in Hall.
  destruct (Hall c Hc) as [_ _ _ (vsc & op & name & Hop & Hname & Hsc) H5 H6]. split_and!.
  - exists op, name. rewrite Hsc. by split_and!.
  - apply H5.
  - intros j op' Hj. apply H6; [lia|done].
Qed.
End replay_props.
