(* ===== verification/Invariant.v ===== *)
(** * The invariant of a deployment

    Several engines share the tables.  [wfs] is what they have registered: versions
    are immutable, so all agree.  [sys_inv] relates every run to its workflow - its
    cursor stands behind recorded results, a waiting run stands at a wait, a completed
    run's output is its last recorded result - and is preserved by [sys_step]: a
    statement without a fence, or a statement of a claim when it is due ([own_stmt]).
    That the statements of a deployment are such steps is proved in [Deployment], from
    what [executeClaim] does. *)

From S2P Require Import Prelude GoText Json Types Builder Postgres Queries Store Statements.
From S2P Require Import Claims Events Timing Effects Engine Worker Replay.
#[local] Open Scope sql_scope.

(** ** Statements without a fence *)

Section open.
Context `{Postgres}.

(** What they may do to a run: never move its cursor, complete it or make it wait. *)
Definition open_change (r r' : run) : Prop :=
  same_identity r r' ∧ step_index r' = step_index r ∧ output_json r' = output_json r ∧
  (state r' = RunWaitingEvent → state r = RunWaitingEvent) ∧
  (state r' = RunCompleted ↔ state r = RunCompleted).

Lemma open_same r : open_change r r.
Proof. by split_and!. Qed.

Lemma update_where_open P f m k r :
  (∀ r, m !! k = Some r → P k r = true → open_change r (f k r)) → m !! k = Some r →
  ∃ r', update_where P f m !! k = Some r' ∧ open_change r r'.
Proof.
  intros Hf Hk. rewrite lookup_update_where, Hk. cbn. eexists. split; [done|].
  destruct (P k r) eqn:HP; [by apply Hf|apply open_same].
Qed.

Lemma claim_open pred q limit ttl e d k r :
  workflow_runs d !! k = Some r →
  ∃ r', workflow_runs (claim pred q limit ttl e d).2 !! k = Some r' ∧ open_change r r'.
Proof.
  intros Hk. apply update_where_open; [|done]. intros r0 Hr0 Hp.
  apply bool_decide_eq_true in Hp. eapply picked_row in Hp; [|done].
  apply claimable_spec in Hp as (_ & Hs & _). split_and!; try done; cbn; rewrite ?Hs; done.
Qed.

Lemma exec_open_change {X} (s : stmt X) e d k r :
  fence_of s = None → workflow_runs d !! k = Some r →
  ∃ r', workflow_runs (exec s e d).2 !! k = Some r' ∧ open_change r r'.
Proof.
  intros Hf Hk.
  assert (∃ r', workflow_runs d !! k = Some r' ∧ open_change r r') as Hsame
    by (eexists; split; [done|apply open_same]).
  destruct s; try discriminate Hf; cbn [exec snd]; try done.
  - unfold insertRun. case_match eqn:Hb; [|done..]. destruct a as [[[[[[? ?] ?] ?] ?] ?] ?].
    case_match; [done|]. case_match eqn:Hl; [|destruct p].
    + case_match; [done|]. cbn. rewrite lookup_insert_ne; [done|congruence].
    + cbn. apply update_where_open; [|done]. intros. by split_and!.
  - unfold emitEvent. case_match eqn:Hb; [|done..]. destruct a as [key' payload'].
    cbn [snd workflow_runs notify set_checkpoints set_events set_runs].
    apply update_where_open; [|done]. intros r0 _ (Hs & _)%waiting_on_spec.
    split_and!; try done; cbn; rewrite ?Hs; done.
  - unfold claimSingle. case_match; [|done..]. destruct a as [[? ?] ?]. by apply claim_open.
  - unfold claimMulti. case_match; [|done..]. destruct a as [[? ?] ?]. by apply claim_open.
  - unfold renewLeases. case_match; [|done..]. cbn [snd workflow_runs set_runs].
    apply update_where_open; [|done]. intros. by split_and!.
  - unfold latestEvent. by case_match.
  - unfold recoverLeases. cbn [snd workflow_runs set_runs].
    apply update_where_open; [|done]. intros r0 Hr0 Hp. apply bool_decide_eq_true in Hp.
    eapply picked_row in Hp; [|done]. apply expired_spec in Hp as (Hs & _).
    split_and!; try done; cbn; rewrite ?Hs; by case_match.
  - unfold promoteTimedOut. cbn [snd workflow_runs notify set_checkpoints set_runs].
    apply update_where_open; [|done]. intros r0 Hr0 Hp. apply bool_decide_eq_true in Hp.
    eapply picked_row in Hp; [|done]. apply timed_out_spec in Hp as (Hs & _).
    split_and!; try done; cbn; rewrite ?Hs; done.
  - unfold cancelRun. case_match; [|done..]. cbn [snd workflow_runs set_runs].
    apply update_where_open; [|done]. intros r0 Hr0 [_ Ht]%cancellable_spec.
    split_and!; try done; cbn. split; [done|]. intros Hc. by rewrite Hc in Ht.
Qed.

(** Such a statement records an outcome only at the cursor of a waiting run. *)
Lemma exec_open_checkpoint {X} (s : stmt X) e d id i v :
  fence_of s = None → step_checkpoints d !! (id, i) = None →
  step_checkpoints (exec s e d).2 !! (id, i) = Some v →
  ∃ r, workflow_runs d !! id = Some r ∧ state r = RunWaitingEvent ∧ i = step_index r.
Proof.
  intros Hf Hn Hv. destruct (exec_new_checkpoint s e d id i v Hn Hv)
    as (r & Hr & [[Hs Hi]|(_ & Hle & r' & Hr' & Hi)]); [by exists r|].
  destruct (exec_open_change s e d id r Hf Hr) as (r1 & Hr1 & (_ & Hsame & _)).
  simplify_eq. lia.
Qed.
End open.

(** ** Stored texts *)

Section invariant.
Context `{Postgres} `{!PostgresLaws}.

(** A text that the server printed for a document it accepted, or the outcome object
    it built around one. *)
Definition stored_text (t : list ascii) : Prop :=
  (∃ s, jsonb_in s = Some t) ∨
  (∃ s p, jsonb_in s = Some p ∧ t = jsonb_build_received p).

Definition values_ok (d : db) : Prop :=
  (∀ k t, step_checkpoints d !! k = Some t → stored_text t) ∧
  (∀ i ev, event_log d !! i = Some ev → ∃ s, jsonb_in s = Some (payload_json ev)).

Lemma stored_text_canonical t u : stored_text t → jsonb_in t = Some u → u = t.
Proof.
  intros [[s Hs]|(s & p & Hp & ->)] Hu.
  - rewrite (jsonb_in_canonical s t Hs) in Hu. congruence.
  - eapply jsonb_build_received_canonical; [|done]. intros x Hx.
    rewrite (jsonb_in_canonical s p Hp) in Hx. congruence.
Qed.

Lemma insert_new_ok rows d :
  (∀ k t, step_checkpoints d !! k = Some t → stored_text t) →
  (∀ k t, rows !! k = Some t → stored_text t) →
  ∀ k t, insert_new rows (step_checkpoints d) !! k = Some t → stored_text t.
Proof. intros H1 H2 k t. rewrite lookup_insert_new. destruct (_ !! k) eqn:E; naive_solver. Qed.

Lemma at_cursor_ok v m k t :
  stored_text v → checkpoints_at_cursor v m !! k = Some t → stored_text t.
Proof.
  destruct k as [id i]. rewrite lookup_checkpoints_at_cursor. repeat case_match; naive_solver.
Qed.

Lemma exec_values_ok {X} (s : stmt X) e d : values_ok d → values_ok (exec s e d).2.
Proof.
  intros [Hc He].
  assert (values_ok d) as Hd by done.
  destruct s; cbn [exec snd]; try done.
  - unfold insertRun. case_match; [|done..]. destruct a as [[[[[[? ?] ?] ?] ?] ?] ?].
    repeat case_match; done.
  - unfold emitEvent. case_match eqn:Hb; [|done..]. destruct a as [key' p]. invert_outcome.
    simplify_eq. match goal with Hx : bind_jsonb _ = _ |- _ => apply bind_jsonb_Ok in Hx as Hp end.
    split; cbn.
    + apply insert_new_ok; [done|]. intros k t. apply at_cursor_ok. right. by eexists _, _.
    + intros i ev [[_ <-]|[_ ?]]%lookup_insert_Some; [cbn; by eexists|by eapply He].
  - unfold claimSingle. by repeat case_match.
  - unfold claimMulti. by repeat case_match.
  - unfold renewLeases. by case_match.
  - destruct (commitStep_effect id token index value complete e d) as [->|(ex & d' & Hc')];
      [done|]. revert Hc'. unfold Queries.commitStep. case_match eqn:Hb; [|done..].
    destruct a as [[[i t] ix] v]. case_match; [done|]. case_match; [|done..]. intros _. cbn.
    split; [|done]. apply insert_new_ok; [done|]. intros k u [_ <-]%lookup_singleton_Some.
    invert_outcome. destruct x. invert_outcome. simplify_eq.
    match goal with Hx : bind_jsonb _ = _ |- _ => apply bind_jsonb_Ok in Hx end. left. by eexists.
  - unfold Queries.completeRun, fenced_update. case_match; [|done..]. case_match; [|done..]. by destruct a0.
  - unfold parkSleep, fenced_update. case_match; [|done..]. by destruct a.
  - unfold latestEvent. by case_match.
  - unfold parkWait, fenced_update. case_match; [|done..]. by destruct a.
  - unfold Queries.failOrRetry, fenced_update. case_match; [|done..]. by destruct a.
  - split; [|done]. cbn. apply insert_new_ok; [done|]. intros k t. apply at_cursor_ok. left.
    eexists. apply jsonb_in_timed_out.
  - split; [done|]. cbn. intros i ev [? _]%map_lookup_filter_Some. by eapply He.
  - unfold cancelRun. by case_match.
Qed.

(** Run ids are canonical. *)
Definition ids_ok (d : db) : Prop :=
  ∀ id, is_Some (workflow_runs d !! id) → uuid_in id = Some id.

Lemma exec_ids_ok {X} (s : stmt X) e d : ids_ok d → ids_ok (exec s e d).2.
Proof.
  intros Hd id Hs. destruct (workflow_runs d !! id) eqn:E.
  - apply Hd. by rewrite E.
  - destruct (exec_new_row_id s e d id E Hs) as (u & _ & Hu). by eapply uuid_in_canonical.
Qed.

(** ** The invariant *)

Context (wfs : gmap (string * Z) compiledWorkflow).
Context (Hwfs : ∀ k wf, wfs !! k = Some wf → compiled_wf wf).

Notation named op := (op_name op ≠ None).
Notation has_checkpoint d id i := (is_Some (step_checkpoints d !! (id, i))).

(** A run and its workflow. *)
Record run_inv (d : db) (id : string) (r : run) (wf : compiledWorkflow) : Prop := {
  ri_cursor : 0 <= step_index r <= Z.of_nat (length (cw_ops wf));
  ri_recorded : ∀ j op, Z.of_nat j < step_index r → cw_ops wf !! j = Some op → named op →
    has_checkpoint d id (Z.of_nat j);
  ri_keys : ∀ i, has_checkpoint d id i →
    ∃ j op, i = Z.of_nat j ∧ cw_ops wf !! j = Some op ∧ named op;
  ri_waiting : state r = RunWaitingEvent →
    ∃ wait, cw_ops wf !! Z.to_nat (step_index r) = Some (opWaitEvent wait);
  ri_completed : state r = RunCompleted →
    step_index r = Z.of_nat (length (cw_ops wf)) ∧
    output_json r =
      if 0 <=? cw_outputIndex wf then step_checkpoints d !! (id, cw_outputIndex wf) else None;
}.

Record sys_inv (d : db) : Prop := {
  si_wf : db_wf d;
  si_values : values_ok d;
  si_ids : ids_ok d;
  si_runs : ∀ id r wf, workflow_runs d !! id = Some r →
    wfs !! (workflow_name r, workflow_version r) = Some wf → run_inv d id r wf;
}.

(** The run that a claim works on is of the claimed workflow version. *)
Definition owner (run : claimedRun) (d : db) : Prop :=
  ∃ r, workflow_runs d !! ID run = Some r ∧ workflow_name r = WorkflowName run ∧
    workflow_version r = Version run.

Inductive sys_step (d : db) : db → Prop :=
  | sys_open X (s : stmt X) e : fence_of s = None → sys_step d (exec s e d).2
  | sys_worker run wf x :
      uuid_in (ID run) = Some (ID run) → uuid_in (Token run) = Some (Token run) →
      wfs !! (WorkflowName run, Version run) = Some wf → owner run d →
      own_stmt run wf 0 d x → sys_step d (run_other d x).

Lemma sys_step_db d d' : sys_step d d' → db_step d d'.
Proof. destruct 1 as [X s e _|run wf x _ _ _ _ _]; [by eexists _, _, _|apply run_other_step]. Qed.

Lemma sys_inv_empty : sys_inv empty_db.
Proof.
  split; [apply empty_db_wf|split; cbn; intros * Hx; by rewrite lookup_empty in Hx|..].
  - intros id Hx. cbn in Hx. rewrite lookup_empty in Hx. by destruct Hx.
  - cbn. intros * Hx. by rewrite lookup_empty in Hx.
Qed.

(** ** Preservation *)

Lemma run_inv_frame d d' id r wf :
  (∀ i, step_checkpoints d' !! (id, i) = step_checkpoints d !! (id, i)) →
  run_inv d id r wf → run_inv d' id r wf.
Proof.
  intros Hc [H1 H2 H3 H4 H5]. split; try done.
  - intros j op. rewrite Hc. apply H2.
  - intros i. rewrite Hc. apply H3.
  - intros Hs. rewrite Hc. by apply H5.
Qed.

(** A workflow's last position, when it is named, is its output. *)
Lemma last_named_output wf index op :
  compiled_wf wf → cw_ops wf !! index = Some op → named op →
  index = pred (length (cw_ops wf)) → cw_outputIndex wf = Z.of_nat index.
Proof.
  intros Hwf Hop Hn Hlast. destruct (cwf_output _ Hwf) as [[_ Hall]|(i & o & n & -> & Ho & Hon & Hlater)].
  - rewrite Forall_forall in Hall. destruct Hn. apply Hall. by eapply list_elem_of_lookup_2.
  - pose proof (lookup_lt_Some _ _ _ Ho). destruct (decide (i < index)%nat) as [Hlt|]; [|lia].
    destruct Hn. by eapply Hlater.
Qed.

Lemma run_inv_open {X} (s : stmt X) e d id r r' wf :
  db_wf d → fence_of s = None → workflow_runs d !! id = Some r →
  workflow_runs (exec s e d).2 !! id = Some r' → open_change r r' → compiled_wf wf →
  run_inv d id r wf → run_inv (exec s e d).2 id r' wf.
Proof.
  intros Hdb Hf Hr Hr' (_ & Hi & Ho & Hw & Hc) Hwf [H1 H2 H3 H4 H5].
  pose proof (exec_checkpoints_mono s e d) as Hmono.
  assert (∀ i, has_checkpoint d id i → has_checkpoint (exec s e d).2 id i) as Hkeep.
  { intros i [v Hv]. exists v. by eapply lookup_weaken. }
  split; try (by rewrite Hi); rewrite ?Hi.
  - intros j op Hj ? ?. apply Hkeep. by eapply H2.
  - intros i [v Hv]. destruct (step_checkpoints d !! (id, i)) as [u|] eqn:E.
    { apply H3. by exists u. }
    destruct (exec_open_checkpoint s e d id i v Hf E Hv) as (r0 & Hr0 & Hs & ->).
    simplify_eq. destruct (H4 Hs) as [wait Hwait].
    exists (Z.to_nat (step_index r)), (opWaitEvent wait). split_and!; [lia|done|done].
  - intros Hs. by apply H4, Hw.
  - intros Hs%Hc. destruct (H5 Hs) as [Hlen Hout]. split; [done|]. rewrite Ho, Hout.
    destruct (0 <=? cw_outputIndex wf) eqn:E; [|done]. bool_to_prop.
    destruct (cwf_output _ Hwf) as [[? _]|(i & op & n & Hi' & Hop & Hon & _)]; [lia|].
    rewrite Hi' in *. destruct (H2 i op) as [v Hv]; [|done|congruence|].
    + rewrite Hlen. apply lookup_lt_Some in Hop. lia.
    + rewrite Hv. symmetry. by eapply lookup_weaken.
Qed.

Lemma sys_inv_open {X} (s : stmt X) e d :
  fence_of s = None → sys_inv d → sys_inv (exec s e d).2.
Proof.
  intros Hf [Hdb Hval Hids Hruns]. split; [by apply exec_wf|by apply exec_values_ok|by apply exec_ids_ok|].
  intros id r' wf Hr' Hwf. destruct (exec_row_back s e d id r' Hr') as [(r & Hr & _)|(Hnone & Hfresh)].
  - destruct (exec_open_change s e d id r Hf Hr) as (r1 & Hr1 & Hopen). simplify_eq.
    destruct Hopen as ((Hn & Hv & Hid) & Hrest). rewrite Hn, Hv in Hwf.
    by eapply (run_inv_open s e d id r); [..|by eapply Hwfs|by apply Hruns].
  - destruct Hfresh as [Hs _ (Hi & _) _ _ _].
    assert (∀ i, ¬ has_checkpoint (exec s e d).2 id i) as Hno.
    { intros i [v Hv]. destruct (step_checkpoints d !! (id, i)) eqn:E.
      - destruct (dw_fk _ Hdb _ _ _ E). congruence.
      - destruct (exec_open_checkpoint s e d id i v Hf E Hv) as (? & ? & _). congruence. }
    split; rewrite ?Hi, ?Hs; try done.
    + lia.
    + intros j op Hj. lia.
    + intros i Hx. by apply Hno in Hx.
Qed.

(** *** A worker's statements *)

Section own.
Context (run : claimedRun) (wf : compiledWorkflow) (Hwf : compiled_wf wf).
Context (Hid : uuid_in (ID run) = Some (ID run)) (Htok : uuid_in (Token run) = Some (Token run)).
Context (Hreg : wfs !! (WorkflowName run, Version run) = Some wf).

(** A fenced statement keeps the invariant if it does so for its own run. *)
Lemma sys_inv_fenced {X} (s : stmt X) e d :
  fence_of s = Some (ID run, Token run) → sys_inv d → owner run d →
  (∀ r r', workflow_runs d !! ID run = Some r → workflow_runs (exec s e d).2 !! ID run = Some r' →
     run_inv d (ID run) r wf → run_inv (exec s e d).2 (ID run) r' wf) →
  sys_inv (exec s e d).2.
Proof.
  intros Hf [Hdb Hval Hids Hruns] (r0 & Hr0 & Hn0 & Hv0) Hown.
  split; [by apply exec_wf|by apply exec_values_ok|by apply exec_ids_ok|].
  intros id r' wf' Hr' Hwf'. destruct (decide (id = ID run)) as [->|Hne].
  - destruct (exec_row_change s e d _ r0 Hr0) as (r1 & Hr1 & Hc). simplify_eq.
    destruct (row_change_identity _ _ Hc) as (Hn & Hv & _). rewrite Hn, Hv, Hn0, Hv0 in Hwf'.
    simplify_eq. eapply Hown; [done..|]. apply Hruns; [done|]. by rewrite Hn0, Hv0.
  - destruct (fenced_local s (ID run) (Token run) e d id 0 Hf Hid Hne) as (Hsame & _).
    rewrite Hsame in Hr'. apply (run_inv_frame d); [|by apply Hruns].
    intros i. by destruct (fenced_local s (ID run) (Token run) e d id i Hf Hid Hne) as (_ & ? & _).
Qed.

Lemma inv_commit index op raw e d :
  cw_ops wf !! index = Some op → named op → recorded run wf 0 index d → sys_inv d → owner run d →
  sys_inv (exec (CommitStep (ID run) (Token run) (Z.of_nat index) raw
    (bool_decide (index = pred (length (cw_ops wf))))) e d).2.
Proof.
  intros Hop Hnm Hrec Hinv Hown. eapply sys_inv_fenced; [done..|].
  intros r r' Hr Hr' [H1 H2 H3 H4 H5]. cbn [exec] in *.
  set (complete := bool_decide _) in *.
  destruct (commitStep_effect (ID run) (Token run) (Z.of_nat index) raw complete e d)
    as [E|(ex & d' & E)]; [rewrite E in *; by simplify_eq|].
  rewrite E in *. cbn [snd] in *.
  apply commitStep_Some_inv in E as (r0 & v & Hr0 & Hf & Hle & _ & _ & _ & ->); [|done..].
  cbn in Hr'. rewrite lookup_insert_eq in Hr'. simplify_eq.
  apply fence_spec in Hf as (_ & Hs & _). pose proof (lookup_lt_Some _ _ _ Hop) as Hlt.
  assert (∀ i, has_checkpoint d (ID run) i → is_Some (<[(ID run, Z.of_nat index) := default v ex]>
    (step_checkpoints d) !! (ID run, i))) as Hkeep.
  { intros i [u Hu]. destruct (decide (i = Z.of_nat index)) as [->|].
    - rewrite lookup_insert_eq. by eexists.
    - rewrite lookup_insert_ne by congruence. by exists u. }
  split; cbn.
  - lia.
  - intros j op' Hj Hop' Hnm'. destruct (decide (j = index)) as [->|].
    + rewrite lookup_insert_eq. by eexists.
    + apply Hkeep. apply (Hrec j op'); [lia|lia|done..].
  - intros i Hi. destruct (decide (i = Z.of_nat index)) as [->|].
    + by exists index, op.
    + apply H3. by rewrite lookup_insert_ne in Hi by congruence.
  - destruct complete; [done|congruence].
  - destruct complete eqn:Ec; [|congruence]. intros _. unfold complete in Ec. bool_to_prop.
    split; [lia|]. rewrite (last_named_output wf index op Hwf Hop Hnm Ec).
    rewrite (proj2 (Z.leb_le 0 _)) by lia. by rewrite lookup_insert_eq.
Qed.

(** An UPDATE of the run alone. *)
Lemma inv_update {X} (s : stmt X) id token args f e d :
  fence_of s = Some (ID run, Token run) →
  (exec s e d).2 = (fenced_update id token args f e d).2 → id = ID run → token = Token run →
  sys_inv d → owner run d →
  (∀ r, workflow_runs d !! ID run = Some r → run_inv d (ID run) r wf →
     run_inv d (ID run) (f e (ID run) r) wf) →
  sys_inv (exec s e d).2.
Proof.
  intros Hf Hexec -> -> Hinv Hown Hrow. eapply sys_inv_fenced; [done..|].
  rewrite Hexec. intros r r' Hr Hr' Hri.
  destruct (fenced_update_effect (ID run) (Token run) args f e d Hid Htok)
    as [E|(r0 & Hr0 & _ & _ & E)]; rewrite E in *; [by simplify_eq|].
  cbn in Hr'. rewrite lookup_insert_eq in Hr'. simplify_eq.
  apply (run_inv_frame d); [done|]. by apply Hrow.
Qed.

Lemma inv_sleep index dur e d :
  cw_ops wf !! index = Some (opSleep dur) → recorded run wf 0 index d → sys_inv d → owner run d →
  sys_inv (exec (ParkSleep (ID run) (Token run) (Z.of_nat (S index)) (Milliseconds dur)) e d).2.
Proof.
  intros Hop Hrec Hinv Hown. eapply inv_update; [done..|]. intros r Hr [H1 H2 H3 H4 H5].
  pose proof (lookup_lt_Some _ _ _ Hop). split; cbn; [lia| |done|done|done].
  intros j op' Hj Hop' Hnm'. destruct (decide (j = index)) as [->|].
  - rewrite Hop in Hop'. by simplify_eq.
  - apply (Hrec j op'); [lia|lia|done..].
Qed.

Lemma inv_wait index wait key e d :
  cw_ops wf !! index = Some (opWaitEvent wait) → recorded run wf 0 index d → sys_inv d →
  owner run d →
  sys_inv (exec (ParkWait (ID run) (Token run) (Z.of_nat index) key
    (Milliseconds (w_timeout wait))) e d).2.
Proof.
  intros Hop Hrec Hinv Hown. eapply inv_update; [done..|]. intros r Hr [H1 H2 H3 H4 H5].
  pose proof (lookup_lt_Some _ _ _ Hop). split; cbn; [lia| |done| |done].
  - intros j op' Hj Hop' Hnm'. apply (Hrec j op'); [lia|lia|done..].
  - intros _. rewrite Nat2Z.id. by exists wait.
Qed.

Lemma inv_fail attempt ms msg e d :
  sys_inv d → owner run d →
  sys_inv (exec (FailOrRetry (ID run) (Token run) attempt ms msg) e d).2.
Proof.
  intros Hinv Hown. eapply inv_update; [done..|]. intros r Hr [H1 H2 H3 H4 H5].
  split; cbn; try done; by destruct (max_attempts r <=? attempt).
Qed.

Lemma inv_complete output e d :
  recorded run wf 0 (length (cw_ops wf)) d →
  (∀ v, output = Some v → stored_at run (Z.to_nat (cw_outputIndex wf)) v d ∧
     0 <= cw_outputIndex wf) →
  (output = None → cw_outputIndex wf < 0) → sys_inv d → owner run d →
  sys_inv (exec (CompleteRun (ID run) (Token run) (Z.of_nat (length (cw_ops wf))) output) e d).2.
Proof.
  intros Hrec Hsome Hnone Hinv Hown. pose proof (si_values _ Hinv) as [Hval _].
  cbn [exec] in *. destruct (bind_opt bind_jsonb output) as [out|er|m a] eqn:Hb.
  2, 3: unfold Queries.completeRun; by rewrite Hb.
  eapply (inv_update (CompleteRun (ID run) (Token run) (Z.of_nat (length (cw_ops wf))) output));
    [done|cbn [exec]; unfold Queries.completeRun; rewrite Hb; reflexivity|done..|].
  intros r Hr [H1 H2 H3 H4 H5]. split; cbn; [lia| |done|done|].
  - intros j op' Hj Hop' Hnm'. apply (Hrec j op'); [lia|lia|done..].
  - intros _. split; [done|]. destruct output as [v|]; cbn in Hb.
    + destruct (Hsome v eq_refl) as ((t & Ht & Hm) & Hpos).
      rewrite (proj2 (Z.leb_le 0 _)) by done. rewrite Z2Nat.id in Ht by done. rewrite Ht.
      destruct (bind_jsonb v) as [u| |] eqn:Hu; [|done..]. cbn in Hb. injection Hb as <-.
      apply bind_jsonb_Ok in Hu. f_equal. destruct Hm as [->|Hm]; [|congruence].
      eapply stored_text_canonical; [by eapply Hval|done].
    + injection Hb as <-. destruct (0 <=? cw_outputIndex wf) eqn:E; [|done]. bool_to_prop.
      specialize (Hnone eq_refl). lia.
Qed.

Lemma sys_inv_own d x : own_stmt run wf 0 d x → sys_inv d → owner run d → sys_inv (run_other d x).
Proof.
  destruct 1; intros; cbn [run_other]; [by eapply inv_commit|by apply inv_sleep|by apply inv_wait| |by apply inv_fail].
  by apply inv_complete.
Qed.
End own.

Lemma sys_inv_step d d' : sys_step d d' → sys_inv d → sys_inv d'.
Proof.
  destruct 1 as [X s e Hf|run wf x Hid Htok Hreg Hown Ho]; intros Hinv.
  - by apply sys_inv_open.
  - eapply sys_inv_own; [by eapply Hwfs|done..].
Qed.

Lemma owner_mono run d d' : db_step d d' → owner run d → owner run d'.
Proof.
  intros (X & s & e & ->) (r & Hr & Hn & Hv). destruct (exec_row_change s e d _ r Hr) as (r' & Hr' & Hc).
  destruct (row_change_identity _ _ Hc) as (Hn' & Hv' & _). exists r'. split_and!; congruence.
Qed.

Lemma rtc_sys_inv d d' : rtc sys_step d d' → sys_inv d → sys_inv d'.
Proof. induction 1; [done|]. intros. apply IHrtc. by eapply sys_inv_step. Qed.
End invariant.
