(* ===== verification/Journal.v ===== *)
(** * A deployment keeps journals

    What the package promises, without tables, leases or statements: a run is a status
    and a journal, the outcomes of its steps and waits in the order of the workflow.
    [journal_step] is all that may happen to it: the status moves along the state
    diagram, and one outcome at a time is appended, by the worker that holds the run or
    by the event or timeout a waiting run is woken with.  The steps of [Invariant] refine
    it; those of a deployment are such steps, see [Deployment]. *)

From S2P Require Import Prelude GoText Json Types Builder Postgres Queries Store Statements.
From S2P Require Import Claims Events Timing Effects Engine Worker Replay Invariant.
#[local] Open Scope sql_scope.

(** ** The specification *)

Record journal := {
  j_status : RunState;
  j_outcomes : list (list ascii);
}.

(** [n] is the number of steps and waits of the workflow. *)
Inductive journal_step (n : nat) : journal → journal → Prop :=
  | js_stay j : journal_step n j j
  | js_move st st' l :
      edge st st' → (st' = RunCompleted → length l = n) →
      journal_step n {| j_status := st; j_outcomes := l |} {| j_status := st'; j_outcomes := l |}
  | js_record l v :
      (length l < n)%nat →
      journal_step n {| j_status := RunLeased; j_outcomes := l |}
                     {| j_status := RunLeased; j_outcomes := l ++ [v] |}
  | js_record_last l v :
      S (length l) = n →
      journal_step n {| j_status := RunLeased; j_outcomes := l |}
                     {| j_status := RunCompleted; j_outcomes := l ++ [v] |}
  | js_deliver l v :
      (length l < n)%nat →
      journal_step n {| j_status := RunWaitingEvent; j_outcomes := l |}
                     {| j_status := RunReady; j_outcomes := l ++ [v] |}.

(** ** The abstraction *)

(** The positions that have an outcome. *)
Definition named_at (wf : compiledWorkflow) (j : nat) : bool :=
  bool_decide (is_Some (cw_ops wf !! j ≫= op_name)).
Definition positions (wf : compiledWorkflow) : list nat :=
  filter (λ j, named_at wf j) (seq 0 (length (cw_ops wf))).

Definition outcomes (wf : compiledWorkflow) (id : string) (d : db) : list (list ascii) :=
  omap (λ j, step_checkpoints d !! (id, Z.of_nat j)) (positions wf).
Definition journal_of (wf : compiledWorkflow) (id : string) (r : run) (d : db) : journal :=
  {| j_status := state r; j_outcomes := outcomes wf id d |}.

(** ** Lemmas on positions *)

Section positions.
Context (wf : compiledWorkflow).

Lemma named_at_spec j : named_at wf j ↔ ∃ op, cw_ops wf !! j = Some op ∧ op_name op ≠ None.
Proof.
  unfold named_at. rewrite bool_decide_spec. split.
  - intros [x (op & Hop & Hx)%bind_Some]. exists op. split; [done|congruence].
  - intros (op & -> & Hn). cbn. by apply not_eq_None_Some.
Qed.

Lemma elem_of_positions j : j ∈ positions wf ↔ ∃ op, cw_ops wf !! j = Some op ∧ op_name op ≠ None.
Proof.
  unfold positions. rewrite list_elem_of_filter, named_at_spec, elem_of_seq. split; [by intros [? _]|].
  intros (op & Hop & Hn). split; [eauto|]. apply lookup_lt_Some in Hop. lia.
Qed.

(** Around one of them. *)
Definition before (p : nat) : list nat := filter (λ j, named_at wf j) (seq 0 p).
Definition behind (p : nat) : list nat :=
  filter (λ j, named_at wf j) (seq (S p) (length (cw_ops wf) - S p)).

Lemma positions_split p : p ∈ positions wf → positions wf = before p ++ p :: behind p.
Proof.
  intros Hp. pose proof Hp as (op & Hop & Hn)%elem_of_positions. apply lookup_lt_Some in Hop as Hlt.
  unfold positions. replace (length (cw_ops wf)) with (p + S (length (cw_ops wf) - S p))%nat at 1 by lia.
  rewrite seq_app, filter_app. f_equal. cbn [seq]. rewrite filter_cons_True; [done|].
  apply named_at_spec. eauto.
Qed.

Lemma elem_of_before p j : j ∈ before p ↔ (j < p)%nat ∧ named_at wf j.
Proof. unfold before. rewrite list_elem_of_filter, elem_of_seq. naive_solver lia. Qed.
Lemma elem_of_behind p j : j ∈ behind p → (p < j)%nat.
Proof. unfold behind. rewrite list_elem_of_filter, elem_of_seq. lia. Qed.
End positions.

(** ** Outcomes after a step *)

Section outcomes.
Context `{Postgres} (wf : compiledWorkflow) (id : string).

Notation recorded_at d j := (is_Some (step_checkpoints d !! (id, Z.of_nat j))).

Lemma outcomes_same d d' :
  (∀ i, step_checkpoints d' !! (id, i) = step_checkpoints d !! (id, i)) →
  outcomes wf id d' = outcomes wf id d.
Proof. intros Hs. unfold outcomes. apply list_omap_ext, Forall_Forall2_diag, Forall_forall. intros j _. apply Hs. Qed.

Lemma length_all_recorded (l : list nat) d :
  (∀ j, j ∈ l → recorded_at d j) →
  length (omap (λ j, step_checkpoints d !! (id, Z.of_nat j)) l) = length l.
Proof.
  induction l as [|j l IH]; intros Hl; [done|]. cbn. destruct (Hl j) as [v ->]; [by left|]. cbn.
  rewrite IH; [done|]. intros j' Hj'. apply Hl. by right.
Qed.

Lemma length_outcomes d :
  (∀ j, j ∈ positions wf → recorded_at d j) → length (outcomes wf id d) = length (positions wf).
Proof. apply length_all_recorded. Qed.

Lemma omap_none (l : list nat) d :
  (∀ j, j ∈ l → step_checkpoints d !! (id, Z.of_nat j) = None) →
  omap (λ j, step_checkpoints d !! (id, Z.of_nat j)) l = [].
Proof.
  induction l as [|j l IH]; intros Hl; [done|]. cbn. rewrite (Hl j) by by left. cbn.
  apply IH. intros j' Hj'. apply Hl. by right.
Qed.

(** The outcome of [p] is new: everything before it is there, nothing behind it. *)
Record next_outcome (d d' : db) (p : nat) (v : list ascii) : Prop := {
  no_named : p ∈ positions wf;
  no_new : step_checkpoints d !! (id, Z.of_nat p) = None;
  no_value : step_checkpoints d' !! (id, Z.of_nat p) = Some v;
  no_rest : ∀ i, i ≠ Z.of_nat p → step_checkpoints d' !! (id, i) = step_checkpoints d !! (id, i);
  no_before : ∀ j, (j < p)%nat → named_at wf j → recorded_at d j;
}.

Definition gapless_run (d : db) : Prop :=
  ∀ i j, (i < j)%nat → named_at wf i → recorded_at d j → recorded_at d i.

Lemma outcomes_next d d' p v :
  gapless_run d → next_outcome d d' p v →
  outcomes wf id d' = outcomes wf id d ++ [v] ∧ (length (outcomes wf id d) < length (positions wf))%nat.
Proof.
  intros Hg [Hp Hnew Hv Hrest Hbefore]. unfold outcomes.
  pose proof (positions_split wf p Hp) as Hsplit. rewrite Hsplit.
  assert (∀ j, j ∈ behind wf p → step_checkpoints d !! (id, Z.of_nat j) = None) as Hbehind.
  { intros j Hj%elem_of_behind. destruct (step_checkpoints d !! (id, Z.of_nat j)) eqn:E; [|done].
    destruct (Hg p j Hj) as [u Hu]; [|by rewrite E|congruence].
    apply named_at_spec. by apply elem_of_positions. }
  rewrite !omap_app. cbn. rewrite Hnew, Hv. cbn.
  rewrite (omap_none (behind wf p) d Hbehind).
  rewrite (omap_none (behind wf p) d').
  2:{ intros j Hj. rewrite Hrest; [by apply Hbehind|]. apply elem_of_behind in Hj. lia. }
  rewrite app_nil_r. split.
  - f_equal. apply list_omap_ext, Forall_Forall2_diag, Forall_forall. intros j [Hj _]%elem_of_before.
    apply Hrest. lia.
  - rewrite (length_all_recorded (before wf p)).
    + rewrite length_app. cbn. lia.
    + intros j [Hj Hn]%elem_of_before. by apply Hbefore.
Qed.

Lemma gapless_next d d' p v : gapless_run d → next_outcome d d' p v → gapless_run d'.
Proof.
  intros Hg [Hp Hnew Hv Hrest Hbefore] i j Hij Hn Hj.
  destruct (decide (i = p)) as [->|Hi]; [by rewrite Hv|]. rewrite Hrest by lia.
  destruct (decide (j = p)) as [->|Hjp]; [by apply Hbefore|]. rewrite Hrest in Hj by lia. by eapply Hg.
Qed.

Lemma gapless_same d d' :
  (∀ i, step_checkpoints d' !! (id, i) = step_checkpoints d !! (id, i)) → gapless_run d → gapless_run d'.
Proof. intros Hs Hg i j Hij Hn. rewrite !Hs. by apply Hg. Qed.
End outcomes.

(** ** Steps of the deployment *)

Section refinement.
Context `{Postgres} `{!PostgresLaws}.
Context (wfs : gmap (string * Z) compiledWorkflow).
Context (Hwfs : ∀ k wf, wfs !! k = Some wf → compiled_wf wf).

(** An outcome that no claim records is a delivery: the run is woken with it. *)
Lemma woken_row P f m v k i w :
  checkpoints_at_cursor w (affected P m) !! (k, i) = Some v →
  (∀ r, state (f k r) = RunReady) →
  ∃ r', update_where P f m !! k = Some r' ∧ state r' = RunReady.
Proof.
  rewrite lookup_checkpoints_at_cursor. case_match eqn:Ha; [|done]. intros _ Hf.
  apply lookup_affected in Ha as [Hr HP]. rewrite lookup_update_where, Hr. cbn. rewrite HP.
  eexists. split; [done|]. apply Hf.
Qed.

Lemma open_delivery {X} (s : stmt X) e d id i v :
  fence_of s = None → step_checkpoints d !! (id, i) = None →
  step_checkpoints (exec s e d).2 !! (id, i) = Some v →
  ∃ r', workflow_runs (exec s e d).2 !! id = Some r' ∧ state r' = RunReady.
Proof.
  intros Hf Hn. pose proof (exec_checkpoints_same s e d) as Hsame.
  destruct s; try discriminate Hf; try (rewrite Hsame; congruence); clear Hsame; cbn [exec].
  - unfold emitEvent. case_match; [|cbn; congruence..]. destruct a as [key' p'].
    cbn [snd step_checkpoints workflow_runs notify set_checkpoints set_events set_runs].
    rewrite lookup_insert_new, Hn. intros Hv. by eapply woken_row.
  - unfold promoteTimedOut. cbn [snd step_checkpoints workflow_runs notify set_checkpoints set_runs].
    rewrite lookup_insert_new, Hn. intros Hv. by eapply woken_row.
Qed.

(** What a step does to the outcomes of a run. *)
Definition outcome_step (wf : compiledWorkflow) (id : string) (r r' : run) (d d' : db) : Prop :=
  (∀ i, step_checkpoints d' !! (id, i) = step_checkpoints d !! (id, i)) ∨
  ∃ p v, next_outcome wf id d d' p v ∧
    (state r = RunLeased ∧ (state r' = RunLeased ∨ state r' = RunCompleted) ∨
     state r = RunWaitingEvent ∧ state r' = RunReady).

Lemma open_outcome {X} (s : stmt X) e d id r r' wf :
  fence_of s = None → sys_inv wfs d → workflow_runs d !! id = Some r →
  wfs !! (workflow_name r, workflow_version r) = Some wf →
  workflow_runs (exec s e d).2 !! id = Some r' →
  outcome_step wf id r r' d (exec s e d).2.
Proof.
  intros Hf [_ _ _ Hruns] Hr Hwf Hr'. destruct (Hruns id r wf Hr Hwf) as [H1 H2 H3 H4 _].
  pose proof (exec_checkpoints_mono s e d) as Hmono.
  assert (∀ i, step_checkpoints (exec s e d).2 !! (id, i) = step_checkpoints d !! (id, i) ∨
    step_checkpoints d !! (id, i) = None ∧ i = step_index r ∧ state r = RunWaitingEvent ∧
    is_Some (step_checkpoints (exec s e d).2 !! (id, i))) as Hcase.
  { intros i. destruct (step_checkpoints d !! (id, i)) as [u|] eqn:E.
    { left. by eapply lookup_weaken. }
    destruct (step_checkpoints (exec s e d).2 !! (id, i)) as [v|] eqn:E'; [|by left]. right.
    destruct (exec_open_checkpoint s e d id i v Hf E E') as (r0 & ? & ? & ->). simplify_eq. by split_and!. }
  destruct (Hcase (step_index r)) as [Hsame|(Hnone & _ & Hs & v & Hv)].
  { left. intros i. destruct (Hcase i) as [?|(Hn & -> & _ & [v Hv])]; [done|congruence]. }
  right. destruct (H4 Hs) as [wait Hwait]. exists (Z.to_nat (step_index r)), v.
  assert (Z.of_nat (Z.to_nat (step_index r)) = step_index r) as Hz by lia. split.
  - split; rewrite ?Hz; try done.
    + apply elem_of_positions. by exists (opWaitEvent wait).
    + intros i Hi. by destruct (Hcase i) as [?|(_ & ? & _)].
    + intros j Hj (op & Hop & Hn)%named_at_spec. apply (H2 j op); [lia|done..].
  - right. split; [done|]. destruct (open_delivery s e d id _ v Hf Hnone Hv) as (r1 & ? & ?). congruence.
Qed.

(** A worker's write to its own run. *)
Lemma own_outcome run wf d x r r' :
  uuid_in (ID run) = Some (ID run) → uuid_in (Token run) = Some (Token run) →
  own_stmt run wf 0 d x → workflow_runs d !! ID run = Some r →
  workflow_runs (run_other d x) !! ID run = Some r' → outcome_step wf (ID run) r r' d (run_other d x).
Proof.
  intros Hid Htok Ho Hr Hr'. destruct Ho as [index op raw e Hop Hnm Hrec _|index dur e _ _ _
    |index wait key e _ _ _|output e _ _ _|attempt ms msg e]; cbn [run_other exec] in *.
  - destruct (commitStep_effect (ID run) (Token run) (Z.of_nat index) raw
      (bool_decide (index = pred (length (cw_ops wf)))) e d) as [E|(ex & d1 & E)].
    { rewrite E. by left. }
    rewrite E in *. cbn [snd] in *.
    apply commitStep_Some_inv in E as (r0 & v & Hr0 & Hf & _ & _ & _ & -> & ->); [|done..].
    apply fence_spec in Hf as (_ & Hs & _). simplify_eq. cbn in Hr'.
    rewrite lookup_insert_eq in Hr'. injection Hr' as <-.
    destruct (step_checkpoints d !! (ID run, Z.of_nat index)) as [u|] eqn:Eu.
    + left. intros i. cbn. destruct (decide (i = Z.of_nat index)) as [->|]; [by rewrite lookup_insert_eq|].
      rewrite lookup_insert_ne; [done|congruence].
    + right. exists index, v. cbn. split; [split; try done; cbn|].
      * apply elem_of_positions. eauto.
      * by rewrite lookup_insert_eq.
      * intros i Hi. rewrite lookup_insert_ne; [done|congruence].
      * intros j Hj (op' & Hop' & Hn')%named_at_spec. apply (Hrec j op'); [lia|lia|done..].
      * left. split; [done|]. destruct (bool_decide _); cbn; [by right|by left].
  - left. intros i. unfold parkSleep. by rewrite (proj1 (fenced_update_rest _ _ _ _ _ _)).
  - left. intros i. unfold parkWait. by rewrite (proj1 (fenced_update_rest _ _ _ _ _ _)).
  - left. intros i. unfold Queries.completeRun. case_match; [|done..].
    by rewrite (proj1 (fenced_update_rest _ _ _ _ _ _)).
  - left. intros i. unfold Queries.failOrRetry. by rewrite (proj1 (fenced_update_rest _ _ _ _ _ _)).
Qed.

Lemma sys_outcome d d' id r r' wf :
  sys_step wfs d d' → sys_inv wfs d → workflow_runs d !! id = Some r →
  wfs !! (workflow_name r, workflow_version r) = Some wf → workflow_runs d' !! id = Some r' →
  outcome_step wf id r r' d d'.
Proof.
  intros Hstep Hinv Hr Hwf Hr'.
  destruct Hstep as [X s e Hf|run wf' x Hid Htok Hreg (r0 & Hr0 & Hn0 & Hv0) Ho]; [by eapply open_outcome|].
  destruct (decide (id = ID run)) as [->|Hne].
  - simplify_eq. rewrite Hn0, Hv0 in Hwf. simplify_eq. by eapply own_outcome.
  - left. intros i. destruct Ho as [index op raw e _ _ _ _|index dur e _ _ _|index wait key e _ _ _
      |output e _ _ _|attempt ms msg e]; cbn [run_other];
      match goal with |- context [exec ?s e d] =>
        by destruct (fenced_local s (ID run) (Token run) e d id i eq_refl Hid Hne) as (_ & ? & _) end.
Qed.

(** The outcomes of a run have no gaps. *)
Definition gapless (d : db) : Prop :=
  ∀ id r wf, workflow_runs d !! id = Some r →
    wfs !! (workflow_name r, workflow_version r) = Some wf → gapless_run wf id d.

Lemma sys_row_back d d' id r' :
  sys_step wfs d d' → db_wf d → db_wf d' → workflow_runs d' !! id = Some r' →
  (∃ r, workflow_runs d !! id = Some r ∧ row_change r r') ∨
  ∀ i, step_checkpoints d' !! (id, i) = None.
Proof.
  intros Hstep Hd Hd' Hr'. destruct (sys_step_db _ _ _ Hstep) as (X & s & e & ->).
  destruct (exec_row_back s e d id r' Hr') as [?|[Hnone _]]; [by left|right]. intros i.
  destruct (step_checkpoints d !! (id, i)) as [u|] eqn:E.
  { destruct (dw_fk _ Hd _ _ _ E). congruence. }
  destruct (step_checkpoints (exec s e d).2 !! (id, i)) as [v|] eqn:E'; [|done].
  destruct (exec_new_checkpoint s e d id i v E E') as (r & ? & _). congruence.
Qed.

Lemma gapless_step d d' : sys_step wfs d d' → sys_inv wfs d → gapless d → gapless d'.
Proof.
  intros Hstep Hinv Hg id r' wf Hr' Hwf.
  pose proof (sys_inv_step wfs Hwfs _ _ Hstep Hinv) as Hinv'.
  destruct (sys_row_back d d' id r' Hstep (si_wf _ _ Hinv) (si_wf _ _ Hinv') Hr')
    as [(r & Hr & Hc)|Hnone]; [|intros i j _ _ [v Hv]; by rewrite Hnone in Hv].
  destruct (row_change_identity _ _ Hc) as (Hn & Hv & _). rewrite Hn, Hv in Hwf.
  destruct (sys_outcome d d' id r r' wf Hstep Hinv Hr Hwf Hr') as [Hs|(p & v & Hnext & _)].
  - eapply gapless_same; [done|]. by apply (Hg id r).
  - eapply gapless_next; [|done]. by apply (Hg id r).
Qed.

(** A completed run has all its outcomes, and the last is its output. *)
Lemma completed_outcomes d id r wf :
  sys_inv wfs d → workflow_runs d !! id = Some r →
  wfs !! (workflow_name r, workflow_version r) = Some wf → state r = RunCompleted →
  length (outcomes wf id d) = length (positions wf).
Proof.
  intros Hinv Hr Hwf Hs. destruct (si_runs _ _ Hinv id r wf Hr Hwf) as [_ H2 _ _ H5].
  destruct (H5 Hs) as [Hlen _]. apply length_outcomes. intros j (op & Hop & Hn)%elem_of_positions.
  apply (H2 j op); [|done..]. apply lookup_lt_Some in Hop. lia.
Qed.

Lemma last_outcome d id wf :
  compiled_wf wf → (∀ j, j ∈ positions wf → is_Some (step_checkpoints d !! (id, Z.of_nat j))) →
  last (outcomes wf id d) =
    if 0 <=? cw_outputIndex wf then step_checkpoints d !! (id, cw_outputIndex wf) else None.
Proof.
  intros Hwf Hall. destruct (cwf_output _ Hwf) as [[-> Hnone]|(i & op & n & -> & Hop & Hn & Hlater)].
  - unfold outcomes. destruct (positions wf) as [|j l] eqn:E; [done|]. exfalso.
    assert (j ∈ positions wf) as (op & Hop & Hn)%elem_of_positions by (rewrite E; by left).
    rewrite Forall_forall in Hnone. apply Hn, Hnone. by eapply list_elem_of_lookup_2.
  - assert (i ∈ positions wf) as Hi by (apply elem_of_positions; exists op; split; [done|congruence]).
    destruct (Hall i Hi) as [v Hv]. rewrite (proj2 (Z.leb_le 0 _)), Hv by lia. unfold outcomes.
    rewrite (positions_split wf i Hi), omap_app. cbn. rewrite Hv. cbn.
    assert (behind wf i = []) as ->.
    { destruct (behind wf i) as [|j l] eqn:E; [done|]. exfalso.
      assert (j ∈ behind wf i) as Hj by (rewrite E; by left).
      pose proof (elem_of_behind _ _ _ Hj). unfold behind in Hj.
      apply list_elem_of_filter in Hj as [(op' & Hop' & Hn')%named_at_spec _].
      apply Hn'. by eapply Hlater. }
    cbn. by rewrite last_snoc.
Qed.

(** One step of the deployment is one of the journal, or none. *)
Lemma journal_sim d d' id r wf :
  sys_step wfs d d' → sys_inv wfs d → gapless d → workflow_runs d !! id = Some r →
  wfs !! (workflow_name r, workflow_version r) = Some wf →
  ∃ r', workflow_runs d' !! id = Some r' ∧
    wfs !! (workflow_name r', workflow_version r') = Some wf ∧
    journal_step (length (positions wf)) (journal_of wf id r d) (journal_of wf id r' d').
Proof.
  intros Hstep Hinv Hg Hr Hwf. pose proof (sys_inv_step wfs Hwfs _ _ Hstep Hinv) as Hinv'.
  destruct (sys_step_db _ _ _ Hstep) as (X & s & e & Hex).
  destruct (exec_row_change s e d id r Hr) as (r' & Hr' & Hc). rewrite <-Hex in Hr'.
  destruct (row_change_identity _ _ Hc) as (Hn & Hv & _). exists r'. rewrite Hn, Hv.
  split_and!; [done..|].
  assert (state r' = RunCompleted → length (outcomes wf id d') = length (positions wf)) as Hdone.
  { apply completed_outcomes; [done..|]. by rewrite Hn, Hv. }
  unfold journal_of. destruct (sys_outcome d d' id r r' wf Hstep Hinv Hr Hwf Hr') as [Hs|(p & v & Hnext & Hst)].
  - rewrite (outcomes_same _ _ _ _ Hs) in *. destruct (row_change_edge _ _ Hc) as [->|He]; [apply js_stay|].
    by apply js_move.
  - destruct (outcomes_next wf id d d' p v) as [E Hlt]; [by eapply Hg|done|]. rewrite E in *.
    destruct Hst as [[-> [->|Hc']]|[-> ->]]; [by apply js_record| |by apply js_deliver].
    rewrite Hc'. apply js_record_last. specialize (Hdone Hc'). rewrite length_app in Hdone. cbn in Hdone. lia.
Qed.

Lemma reachable_sys d : rtc (sys_step wfs) empty_db d → sys_inv wfs d ∧ gapless d.
Proof.
  revert d. apply rtc_ind_r.
  - split; [apply sys_inv_empty|]. intros id r wf Hr. cbn in Hr. by rewrite lookup_empty in Hr.
  - intros d d' _ Hstep [Hinv Hg]. split; [by eapply sys_inv_step|by eapply gapless_step].
Qed.

Lemma journal_sims d d' id r wf :
  rtc (sys_step wfs) d d' → sys_inv wfs d → gapless d → workflow_runs d !! id = Some r →
  wfs !! (workflow_name r, workflow_version r) = Some wf →
  ∃ r', workflow_runs d' !! id = Some r' ∧
    wfs !! (workflow_name r', workflow_version r') = Some wf ∧
    rtc (journal_step (length (positions wf))) (journal_of wf id r d) (journal_of wf id r' d').
Proof.
  intros Hrtc. revert r. induction Hrtc as [d|d d1 d2 Hstep _ IH]; intros r Hinv Hg Hr Hwf.
  { by exists r. }
  destruct (journal_sim d d1 id r wf Hstep Hinv Hg Hr Hwf) as (r1 & Hr1 & Hwf1 & Hj1).
  destruct (IH r1) as (r2 & Hr2 & Hwf2 & Hj2); [by eapply sys_inv_step|by eapply gapless_step|done..|].
  exists r2. split_and!; [done..|]. by eapply rtc_l.
Qed.

(** Every run has come to its journal from the empty one. *)
Lemma journal_from_empty d :
  rtc (sys_step wfs) empty_db d → ∀ id r wf, workflow_runs d !! id = Some r →
  wfs !! (workflow_name r, workflow_version r) = Some wf →
  rtc (journal_step (length (positions wf))) {| j_status := RunReady; j_outcomes := [] |}
    (journal_of wf id r d).
Proof.
  revert d. refine (rtc_ind_r (λ d, ∀ id r wf, _) empty_db _ _).
  { intros id r wf Hr. cbn in Hr. by rewrite lookup_empty in Hr. }
  intros d d' Hrtc Hstep IH id r' wf Hr' Hwf. destruct (reachable_sys d Hrtc) as [Hinv Hg].
  pose proof (sys_inv_step wfs Hwfs _ _ Hstep Hinv) as Hinv'.
  destruct (sys_step_db _ _ _ Hstep) as (X & s & e & Hex).
  destruct (workflow_runs d !! id) as [r|] eqn:Hr.
  - destruct (exec_row_change s e d id r Hr) as (r1 & Hr1 & Hc). rewrite <-Hex, Hr' in Hr1. simplify_eq.
    destruct (row_change_identity _ _ Hc) as (Hn & Hv & _). rewrite Hn, Hv in Hwf.
    destruct (journal_sim _ _ id r wf Hstep Hinv Hg Hr Hwf) as (r2 & Hr2 & _ & Hj). simplify_eq.
    eapply rtc_r; [by eapply IH|done].
  - rewrite Hex in Hr'. pose proof (exec_new_row s e d id r' Hr Hr') as [Hs _ _ _ _ _].
    rewrite <-Hex in Hr'.
    destruct (sys_row_back d d' id r' Hstep (si_wf _ _ Hinv) (si_wf _ _ Hinv') Hr')
      as [(r0 & Hr0 & _)|Hnone]; [congruence|].
    unfold journal_of, outcomes. rewrite Hs, omap_none; [done|]. intros j _. apply Hnone.
Qed.

Lemma journal_steps_extend n j j' : rtc (journal_step n) j j' → j_outcomes j `prefix_of` j_outcomes j'.
Proof.
  induction 1 as [|j1 j2 j3 Hs _ IH]; [done|]. etrans; [|exact IH].
  destruct Hs; cbn; try done; by apply prefix_app_r.
Qed.

(** A completed run's output is its last outcome. *)
Lemma completed_output d id r wf :
  sys_inv wfs d → workflow_runs d !! id = Some r →
  wfs !! (workflow_name r, workflow_version r) = Some wf → state r = RunCompleted →
  output_json r = last (outcomes wf id d).
Proof.
  intros Hinv Hr Hwf Hs. destruct (si_runs _ _ Hinv id r wf Hr Hwf) as [_ H2 _ _ H5].
  destruct (H5 Hs) as [Hlen ->]. rewrite last_outcome; [done|by eapply Hwfs|].
  intros j (op & Hop & Hn)%elem_of_positions.
  apply (H2 j op); [|done..]. apply lookup_lt_Some in Hop. lia.
Qed.
End refinement.
