(* ===== verification/Loading.v ===== *)
(** * What a claim loads

    The claim statement returns a run's checkpoints as one JSON array of
    [[index, value]] pairs.  Decoding it yields exactly the checkpoints of the table,
    whatever they contain, so that every claimed run starts from all of its results, and
    what [executeClaim] then sends is due. *)

From S2P Require Import Prelude GoText Json Types Builder Postgres Queries Store Statements.
From S2P Require Import Claims Events Timing Effects Engine Worker Replay Invariant.
#[local] Open Scope sql_scope.

Section loading.
Context `{Postgres} `{!PostgresLaws}.

(** ** Decoding *)

Lemma stored_text_value t : stored_text t → json_value (S jsonb_depth) t.
Proof.
  intros [[s Hs]|(s & p & Hp & ->)].
  - eapply json_value_mono; [by eapply jsonb_in_value|lia].
  - rewrite jsonb_build_received_text, object1_received.
    apply json_value_received; [by eapply jsonb_in_value|by right].
Qed.

Definition pair_raw (p : Z * list ascii) : option (list ascii) * option (list ascii) :=
  (Some (itoa_bytes p.1), Some p.2).

Lemma decode_pairs l m0 :
  Forall (λ p, 0 <= p.1 < 2^63) l →
  foldl (λ acc p, acc ← acc; decode_pair acc p) (Ok m0) (pair_raw <$> l) =
    Ok (foldl (λ m p, <[p.1 := Some p.2]> m) m0 l).
Proof.
  intros Hl. revert m0. induction Hl as [|p l Hp Hl IH]; intros m0; [done|]. cbn.
  unfold decode_pair at 2. cbn. rewrite unmarshal_int_itoa by done. cbn. apply IH.
Qed.

Lemma foldl_insert_union (l : list (Z * list ascii)) (m0 : gmap Z (option (list ascii))) :
  NoDup l.*1 →
  foldl (λ m p, <[p.1 := Some p.2]> m) m0 l =
    (Some <$> (list_to_map l : gmap Z (list ascii))) ∪ m0.
Proof.
  revert m0. induction l as [|[i v] l IH]; intros m0 Hnd; cbn [foldl].
  - cbn. by rewrite fmap_empty, map_empty_union.
  - rewrite fmap_cons in Hnd. apply NoDup_cons in Hnd as [Hi Hnd]. rewrite IH by done. cbn.
    rewrite fmap_insert, <-insert_union_l. symmetry. apply insert_union_r.
    rewrite lookup_fmap. by rewrite not_elem_of_list_to_map_1.
Qed.

Lemma checkpoints_of_spec id cps :
  NoDup (checkpoints_of id cps).*1 ∧
  ∀ i v, (i, v) ∈ checkpoints_of id cps ↔ cps !! (id, i) = Some v.
Proof.
  unfold checkpoints_of. split.
  - rewrite <-list_fmap_compose. apply NoDup_fmap_2_strong; [|apply NoDup_map_to_list].
    intros [[k1 i1] v1] [[k2 i2] v2] H1 H2 [= ->].
    apply elem_of_map_to_list, map_lookup_filter_Some in H1 as [? Hk1], H2 as [? Hk2].
    cbn in *. subst. congruence.
  - intros i v. rewrite list_elem_of_fmap. split.
    + intros ([[k j] u] & [= -> ->] & Hin%elem_of_map_to_list).
      apply map_lookup_filter_Some in Hin as [? Hk]. cbn in Hk. by subst.
    + intros Hv. exists (id, i, v). split; [done|]. apply elem_of_map_to_list.
      by apply map_lookup_filter_Some.
Qed.

Lemma decode_checkpoints_json id cps :
  (∀ i v, cps !! (id, i) = Some v → 0 <= i < 2^63 ∧ stored_text v) →
  ∃ m, decode_checkpoints (checkpoints_json id cps) = Ok m ∧
    ∀ i, m !! i = Some <$> cps !! (id, i).
Proof.
  intros Hok. destruct (checkpoints_of_spec id cps) as [Hnd Hin].
  assert (Forall (λ p, 0 <= p.1 < 2^63 ∧ stored_text p.2) (checkpoints_of id cps)) as Hall.
  { apply Forall_forall. intros [i v] Hv. by apply Hok, Hin. }
  unfold decode_checkpoints, checkpoints_json. rewrite jsonb_agg_text.
  rewrite (list_fmap_ext _ pair_text)
    by (intros _ [i v] _; unfold pair_text; apply jsonb_build_array_text).
  rewrite (unmarshal_pairs_text (S jsonb_depth)); [|eapply Forall_impl; [exact Hall|]|].
  - rewrite decode_pairs by (eapply Forall_impl; [exact Hall|]; by intros ? [? _]).
    eexists. split; [done|]. intros i. rewrite foldl_insert_union, map_union_empty by done.
    rewrite lookup_fmap. f_equal. apply option_eq. intros v.
    rewrite <-elem_of_list_to_map by done. apply Hin.
  - intros p [? ?]. split; [lia|by apply stored_text_value].
  - pose proof jsonb_depth_bound. lia.
Qed.

(** ** Claims *)

(** The row of a run that is claimed under [token]. *)
Definition leased_row (token : string) (ttl : Z) (e : env) (id : string) (r : run) : run :=
  r ▷ set_state RunLeased ▷ set_lease_token (Some token)
    ▷ set_lease_until (Some (clock_timestamp_set e id + interval_ms ttl)) ▷ set_updated_at (now e).

(** A claim has what the tables hold of its run, which it has leased. *)
Record mirrors (d : db) (run : claimedRun) : Prop := {
  mi_row : ∃ r, workflow_runs d !! ID run = Some r ∧ state r = RunLeased ∧
    lease_token r = Some (Token run) ∧ workflow_name r = WorkflowName run ∧
    workflow_version r = Version run ∧ step_index r = StepIndex run ∧
    attempt r = Attempt run ∧ input_json r = Input run;
  mi_checkpoints : ∀ i, checkpoints run !! i = Some <$> step_checkpoints d !! (ID run, i);
}.

Lemma claim_rows pred q limit ttl e d rows d' row :
  claim pred q limit ttl e d = (Ok rows, d') → row ∈ rows →
  ∃ r, workflow_runs d !! c_id row = Some r ∧ pred r = true ∧
    workflow_runs d' !! c_id row = Some (leased_row (gen_random_uuid e (c_id row)) ttl e (c_id row) r) ∧
    row = {| c_id := c_id row; c_workflow_name := workflow_name r;
             c_workflow_version := workflow_version r; c_step_index := step_index r;
             c_attempt := attempt r; c_lease_token := gen_random_uuid e (c_id row);
             c_input := input_json r;
             c_checkpoints := checkpoints_json (c_id row) (step_checkpoints d) |}.
Proof.
  intros [= <- <-] Hrow. apply list_elem_of_omap in Hrow as (k & Hk & Hrow). pose proof Hk as Hp.
  apply elem_of_pick in Hk as (r & Hr & Hcl & _). apply claimable_spec in Hcl as (_ & _ & _ & Hpred).
  rewrite Hr in Hrow. cbn in Hrow. injection Hrow as <-. exists r. split_and!; [done..| |done].
  cbn [workflow_runs set_runs c_id]. rewrite lookup_update_where, Hr. cbn. by rewrite bool_decide_eq_true_2.
Qed.

Context (wfs : gmap (string * Z) compiledWorkflow).
Context (Hwfs : ∀ k wf, wfs !! k = Some wf → compiled_wf wf).
(** A workflow has fewer operations than an [integer] column can count. *)
Context (Hsmall : ∀ k wf, wfs !! k = Some wf → Z.of_nat (length (cw_ops wf)) < 2^31).

(** A claim that starts from every result its run has recorded. *)
Record good_claim (d : db) (run : claimedRun) : Prop := {
  gc_claim : claim_of d run;
  gc_owner : owner run d;
  gc_full : ∀ wf j op, wfs !! (WorkflowName run, Version run) = Some wf →
    Z.of_nat j < StepIndex run → cw_ops wf !! j = Some op → op_name op ≠ None →
    ∃ v, checkpoints run !! Z.of_nat j = Some (Some v);
}.

Lemma good_claim_mono run d d' : rtc db_step d d' → good_claim d run → good_claim d' run.
Proof.
  intros Hr [(Hid & Htok & Hpos & Hst) Hown Hfull]. split; [|by clear -Hown Hr; induction Hr;
    [|apply IHHr; eapply owner_mono]|done].
  split_and!; [done..|]. intros i v Hv. by eapply stored_mono; [|apply Hst].
Qed.

Lemma claim_of_row_good d deadline row r e :
  sys_inv wfs d → workflow_runs d !! c_id row = Some r →
  is_Some (wfs !! (workflow_name r, workflow_version r)) →
  uuid_in (gen_random_uuid e (c_id row)) = Some (gen_random_uuid e (c_id row)) →
  row = {| c_id := c_id row; c_workflow_name := workflow_name r;
           c_workflow_version := workflow_version r; c_step_index := step_index r;
           c_attempt := attempt r; c_lease_token := gen_random_uuid e (c_id row);
           c_input := input_json r;
           c_checkpoints := checkpoints_json (c_id row) (step_checkpoints d) |} →
  ∃ run, claim_of_row deadline row = Ok run ∧ good_claim d run ∧ ID run = c_id row ∧
    Token run = c_lease_token row ∧ WorkflowName run = workflow_name r ∧
    Version run = workflow_version r ∧ StepIndex run = step_index r ∧ Attempt run = attempt r ∧
    Input run = input_json r ∧
    ∀ i, checkpoints run !! i = Some <$> step_checkpoints d !! (c_id row, i).
Proof.
  intros [Hdb [Hval _] Hids Hruns] Hr [wf Hwf] Hu ->. cbn [c_id] in *.
  destruct (Hruns _ _ _ Hr Hwf) as [Hcur Hrec Hkeys _ _].
  destruct (decode_checkpoints_json (c_id row) (step_checkpoints d)) as (m & Hm & Hl).
  { intros i v Hv. split; [|by eapply Hval]. destruct (Hkeys i ltac:(by eexists)) as (j & op & -> & Hop & _).
    apply lookup_lt_Some in Hop. pose proof (Hsmall _ _ Hwf). lia. }
  eexists. unfold claim_of_row. cbn [c_checkpoints]. rewrite Hm. cbn. split; [done|].
  split_and!; try done. split.
  - split_and!; cbn; [apply Hids; by eexists|done|lia|].
    intros i v Hv. rewrite Hl in Hv. destruct (step_checkpoints d !! _) as [t|] eqn:E; [|done].
    cbn in Hv. simplify_eq. exists v. split; [done|by left].
  - by exists r.
  - cbn. intros wf' j op Hwf' Hj Hop Hnm. rewrite Hwf in Hwf'. simplify_eq.
    destruct (Hrec j op Hj Hop Hnm) as [t Ht]. exists t. by rewrite Hl, Ht.
Qed.

Lemma claim_rows_good pred q limit ttl e d rows d' deadline :
  sys_inv wfs d → (∀ r, pred r = true → is_Some (wfs !! (workflow_name r, workflow_version r))) →
  (∀ k, uuid_in (gen_random_uuid e k) = Some (gen_random_uuid e k)) →
  claim pred q limit ttl e d = (Ok rows, d') →
  ∃ runs, mapM (claim_of_row deadline) rows = Ok runs ∧
    ∀ run, run ∈ runs → good_claim d run ∧ mirrors d' run ∧
      ∃ r, pred r = true ∧ WorkflowName run = workflow_name r ∧ Version run = workflow_version r.
Proof.
  intros Hinv Hpred Hu Hc.
  assert (∀ row, row ∈ rows → _) as Hrows by (intros row Hrow; exact (claim_rows _ _ _ _ _ _ _ _ row Hc Hrow)).
  assert (step_checkpoints d' = step_checkpoints d) as Hcps by by injection Hc as _ <-.
  clear Hc. induction rows as [|row rows IH]; [by exists []; split; [|intros ? ?%elem_of_nil]|].
  destruct IH as (runs & Hruns & Hall); [intros; apply Hrows; by right|].
  destruct (Hrows row ltac:(by left)) as (r & Hr & Hp & Hr' & Hrow).
  destruct (claim_of_row_good d deadline row r e Hinv Hr (Hpred _ Hp) (Hu _) Hrow)
    as (run & Hrun & Hgood & Hidr & Ht & Hn & Hv & Hs & Ha & Hi & Hl).
  exists (run :: runs). cbn. rewrite Hrun. cbn. rewrite Hruns. split; [done|].
  intros run' [->|Hin]%elem_of_cons; [|by apply Hall]. split_and!; [done| |].
  - split; [|by rewrite Hcps, Hidr]. eexists. rewrite Hidr. split; [exact Hr'|].
    rewrite Ht, Hrow. by split_and!.
  - by exists r.
Qed.

(** The statement that [claimReadyRuns] chooses claims registered versions only. *)
Lemma claim_stmt_pred eng limit names versions e d rows d' :
  supportedWorkflows eng = (names, versions) →
  exec (claim_stmt eng limit names versions) e d = (Ok rows, d') →
  ∃ pred, claim pred (e_queue eng) limit (Milliseconds (leaseTTL eng)) e d = (Ok rows, d') ∧
    ∀ r, pred r = true → is_Some (workflows eng !! (workflow_name r, workflow_version r)).
Proof.
  intros Hsup Hx. unfold claim_stmt in Hx.
  assert (∀ n v, (n, v) ∈ zip names versions → is_Some (workflows eng !! (n, v))) as Hin.
  { unfold supportedWorkflows in Hsup. injection Hsup as <- <-. intros n v Hnv.
    assert ((n, v) ∈ (map_to_list (workflows eng)).*1) as Hin.
    { revert Hnv. generalize (map_to_list (workflows eng)).*1 as l.
      induction l as [|[a b] l IH]; [done|]. cbn. rewrite !elem_of_cons. naive_solver. }
    apply list_elem_of_fmap in Hin as ([[? ?] wf] & [= -> ->] & Hin%elem_of_map_to_list).
    by exists wf. }
  set (ttl := Milliseconds (leaseTTL eng)) in *.
  assert (exec (ClaimMulti (e_queue eng) limit ttl names versions) e d = (Ok rows, d') →
    ∃ pred, claim pred (e_queue eng) limit ttl e d = (Ok rows, d') ∧
    ∀ r, pred r = true → is_Some (workflows eng !! (workflow_name r, workflow_version r))) as Hmulti.
  { clear Hx. cbn [exec]. unfold claimMulti. case_match eqn:Hb; [|done..]. destruct a as [[q' names'] versions'].
    invert_outcome. intros Hc.
    match goal with Hq : bind_text _ = Ok _ |- _ => apply bind_text_Ok in Hq as [-> _] end.
    match goal with Hq : mapM bind_text _ = Ok _ |- _ =>
      apply mapM_bind_id in Hq as ->; [|by intros ? ? [-> _]%bind_text_Ok] end.
    match goal with Hq : mapM bind_int4 _ = Ok _ |- _ =>
      apply mapM_bind_id in Hq as ->; [|by intros ? ? [-> _]%bind_int4_Ok] end.
    exists (multi_pred names versions). split; [done|].
    intros r Hp. unfold multi_pred in Hp. bool_to_prop. by apply Hin. }
  destruct names as [|n [|]]; [by apply Hmulti| |by apply Hmulti].
  destruct versions as [|v [|]]; [by apply Hmulti| |by apply Hmulti].
  cbn [exec] in Hx. unfold claimSingle in Hx. case_match eqn:Hb; [|done..].
  destruct a as [[q' n'] v']. invert_outcome.
  repeat match goal with
  | Hq : bind_text _ = Ok _ |- _ => apply bind_text_Ok in Hq as [-> _]
  | Hq : bind_int4 _ = Ok _ |- _ => apply bind_int4_Ok in Hq as [-> _]
  end.
  exists (single_pred n v). split; [done|]. intros r Hp. unfold single_pred in Hp. bool_to_prop.
  subst. apply Hin. by left.
Qed.

(** The statements of [executeClaim] on a good claim, each of them due. *)
Lemma executeClaim_moves o Error eng run wf w a w' :
  workflows eng ⊆ wfs → workflow eng (WorkflowName run) (Version run) = Some wf →
  w_tx w = None → good_claim (w_db w) run → executeClaim o Error eng run w = (a, w') →
  rtc (moves o run wf 0) (st w) (st w').
Proof.
  intros Hsub Hwf Hn [(Hid & Htok & Hpos & Hst) Hown Hfull] Hx.
  assert (wfs !! (WorkflowName run, Version run) = Some wf) as Hreg by by eapply lookup_weaken.
  by eapply (executeClaim_driven o eng run Hid Htok wf (Hwfs _ _ Hreg) 0%nat)
    in Hx as (_ & Hm & _); [|done|lia|done|split; [done|intros; by eapply Hfull]].
Qed.

(** A statement of a good claim that is due is a step of the system. *)
Lemma due_step d run wf x :
  good_claim d run → wfs !! (WorkflowName run, Version run) = Some wf →
  own_stmt run wf 0 d x ∨ read x → sys_step wfs d (run_other d x).
Proof.
  intros [(Hid & Htok & _) Hown _] Hreg [Ho|[Hu _]]; [by eapply sys_worker|].
  destruct x as [X s e]. by apply sys_open.
Qed.

(** When the others only take steps of the system, wherever they act. *)
Lemma executeClaim_steps o Error eng run w a w' :
  workflows eng ⊆ wfs → is_Some (workflow eng (WorkflowName run) (Version run)) →
  (∀ x d, acted o x → sys_step wfs d (run_other d x)) →
  w_tx w = None → sys_inv wfs (w_db w) → good_claim (w_db w) run →
  executeClaim o Error eng run w = (a, w') →
  rtc (sys_step wfs) (w_db w) (w_db w') ∧ sys_inv wfs (w_db w').
Proof.
  intros Hsub [wf Hwf] HR Hn Hinv Hgood Hx.
  assert (wfs !! (WorkflowName run, Version run) = Some wf) as Hreg by by eapply lookup_weaken.
  assert (∀ x y, rtc (moves o run wf 0) x y → good_claim x.1 run → rtc (sys_step wfs) x.1 y.1) as Hsys.
  { induction 1 as [|x y z Hm _ IH]; intros Hg; [done|].
    assert (sys_step wfs x.1 y.1) as Hs
      by (destruct Hm as [(t & Ht & ->)|(t & Ht & ->)]; [by apply HR|by eapply due_step]).
    eapply rtc_l; [exact Hs|]. apply IH. eapply good_claim_mono; [|done].
    apply rtc_once. by eapply sys_step_db. }
  eapply executeClaim_moves in Hx; [|done..]. apply Hsys in Hx; [|done]. split; [exact Hx|].
  by eapply rtc_sys_inv.
Qed.
End loading.
