(* ===== verification/Deployment.v ===== *)
(** * A deployment, as the history of its statements

    The statements of all parties, in the order in which they take effect, make the
    tables.  Clients, maintenance loops and operators may send any statement without a
    fence.  A fenced one comes out of the worker: some engine has claimed a run with
    [claimReadyRuns] and sent the statement while executing [executeClaim] on it, where
    either has seen the same history.  Nothing is assumed of these statements beyond
    that: that they keep the invariant of [Invariant] and the journals of [Journal] is
    proved from the worker's code. *)

From S2P Require Import Prelude GoText Json Types Builder Postgres Queries Store Statements.
From S2P Require Import Claims Events Timing Effects Engine Worker Replay Invariant Journal.
From S2P Require Import Loading.
#[local] Open Scope sql_scope.

Section histories.
Context `{Postgres}.

(** The tables that a history leaves. *)
Definition tables_after (h : list other) : db := foldl run_other empty_db h.

(** The statements that took effect during an execution, whoever sent them. *)
Definition logged (w : world) : list other := (w_log w).*2.

(** An execution that begins when [h] has taken effect. *)
Definition begins (h : list other) (w : world) : Prop :=
  w_db w = tables_after h ∧ w_tx w = None ∧ w_log w = [].

Context (wfs : gmap (string * Z) compiledWorkflow).

(** In the course of [h], [claimReadyRuns] of the engine has claimed [run]. *)
Inductive claimed_in (h : list other) (eng : Engine) (run : claimedRun) : Prop :=
  | claimed_by limit o k w runs w' :
      workflows eng ⊆ wfs → begins (take k h) w →
      claimReadyRuns o eng limit w = (Ok runs, w') → run ∈ runs →
      logged w' `prefix_of` drop k h → claimed_in h eng run.

(** The statement at position [i] was sent by the execution of a claim that began when
    [take k h] had taken effect and has seen the history up to [i].  What happens beside
    an execution - other claims, of this engine or another, clients, loops - is in its
    oracle. *)
Inductive sent_by_claim (h : list other) (i : nat) (x : other) : Prop :=
  | sent_by eng run o Error k w a w' n :
      claimed_in (take k h) eng run → begins (take k h) w →
      executeClaim o Error eng run w = (a, w') →
      w_log w' !! n = Some (Mine, x) → take n (logged w') = take n (drop k h) →
      i = (k + n)%nat → sent_by_claim h i x.

(** [gen_random_uuid] prints canonical UUIDs. *)
Definition server_uuids (x : other) : Prop :=
  match x with
  | Other _ s e => ∀ id, uuid_in (gen_random_uuid e id) = Some (gen_random_uuid e id)
  end.

Record deployed (h : list other) : Prop := {
  dp_uuids : Forall server_uuids h;
  dp_sent i x : h !! i = Some x → unfenced x ∨ sent_by_claim h i x;
}.

(** ** Histories *)

Lemma tables_snoc h i x : h !! i = Some x → tables_after (take (S i) h) = run_other (tables_after (take i h)) x.
Proof. intros Hx. unfold tables_after. by rewrite (take_S_r _ _ _ Hx), foldl_app. Qed.

Lemma tables_app h h' : tables_after (h ++ h') = foldl run_other (tables_after h) h'.
Proof. apply foldl_app. Qed.

Lemma tables_steps h h' : rtc db_step (tables_after h) (tables_after (h ++ h')).
Proof.
  rewrite tables_app. generalize (tables_after h). induction h' as [|x h' IH]; intros d; [done|]. cbn.
  eapply rtc_l; [apply run_other_step|apply IH].
Qed.

Lemma tables_mono h j k : (j ≤ k)%nat → rtc db_step (tables_after (take j h)) (tables_after (take k h)).
Proof.
  intros Hle. replace (take k h) with (take j h ++ take (k - j) (drop j h)); [apply tables_steps|].
  rewrite take_take_drop. f_equal. lia.
Qed.
End histories.

(** ** What an execution logs *)

Section logs.
Context `{Postgres} `{!PostgresLaws}.

(** The log explains the tables. *)
Lemma theirs_log o x y : rtc (theirs o) x y →
  ∃ l, y.2 = x.2 ++ (pair Theirs <$> l) ∧ y.1 = foldl run_other x.1 l.
Proof.
  induction 1 as [|x y z (t & _ & ->) _ (l & E1 & E2)].
  { exists []. by rewrite app_nil_r. }
  exists (t :: l). cbn in *. by rewrite E1, <-app_assoc.
Qed.

Lemma moves_log o run wf start x y : rtc (moves o run wf start) x y →
  ∃ l, y.2 = x.2 ++ l ∧ y.1 = foldl run_other x.1 l.*2 ∧
    ∀ n t, l !! n = Some (Mine, t) →
      own_stmt run wf start (foldl run_other x.1 (take n l.*2)) t ∨ read t.
Proof.
  induction 1 as [|x y z Hm _ (l & E1 & E2 & Hl)].
  { exists []. by rewrite app_nil_r. }
  assert (∃ p t, y = (run_other x.1 t, x.2 ++ [(p, t)]) ∧
    (p = Mine → own_stmt run wf start x.1 t ∨ read t)) as (p & t & -> & Hp).
  { destruct Hm as [(t & _ & ->)|(t & Ht & ->)]; [by exists Theirs, t|by exists Mine, t]. }
  exists ((p, t) :: l). cbn in *. rewrite E1, <-app_assoc. split_and!; [done..|].
  intros [|n] u; [intros [= -> ->]; by apply Hp|]. cbn. apply Hl.
Qed.

(** A claim's statement is the last that takes effect while [claimReadyRuns] runs. *)
Lemma claimReadyRuns_cases o eng limit w a w' :
  claimReadyRuns o eng limit w = (a, w') →
  a = Ok [] ∨ (∃ cause, a = Err (Wrapf "durablepg: claim runs: %w" [] cause)) ∨
  ∃ l names versions e started rows,
    supportedWorkflows eng = (names, versions) ∧
    let s := claim_stmt eng limit names versions in
    logged w' = logged w ++ l ++ [Other _ s e] ∧
    exec s e (foldl run_other (w_db w) l) = (Ok rows, w_db w') ∧
    mapM (claim_of_row (started + leaseTTL eng)) rows = a.
Proof.
  intros Hx. unfold claimReadyRuns in Hx. destruct (limit <=? 0); [injection Hx as <- _; by left|].
  destruct (supportedWorkflows eng) as [names versions].
  case_bool_decide; [injection Hx as <- _; by left|]. right.
  rewrite io_bind_eq in Hx. destruct (time_Now o w) as [started w1] eqn:Et.
  apply time_Now_spec in Et as [[t ->] Ha]. rewrite io_bind_eq in Hx.
  destruct (wrapping _ _ _ w1) as [b w2] eqn:Eq. apply wrapping_spec in Eq as (a0 & Hq & Hb).
  destruct b as [rows|er|msg args].
  - right. subst a0. injection Hx as Hm <-. unfold query, effect in Hq. set (m := o (w_tick w1)) in *.
    pose proof (interfere_theirs o w1 (w_tick w1)) as Hi. fold m in Hi.
    assert (rtc (theirs o) (st w) (st (interfere w1 m))) as (l & El & Ed)%theirs_log
      by (etrans; [exact (af_st _ _ _ Ha)|exact Hi]).
    set (wi := interfere w1 m) in *. clearbody wi.
    destruct (exec _ (m_env m) (w_db wi)) as [a0 d'] eqn:E. destruct (m_fault m); [|done..].
    injection Hq as -> <-. cbn in El, Ed.
    exists l, names, versions, (m_env m), t, rows. split; [done|]. cbn zeta. rewrite <-Ed.
    split_and!; [|exact E|exact Hm].
    unfold logged. cbn. rewrite El, !fmap_app, <-app_assoc, <-list_fmap_compose. cbn.
    by rewrite list_fmap_id.
  - left. injection Hx as <- _. destruct Hb as (e0 & _ & ->). by exists e0.
  - exfalso. subst a0. apply query_pool in Hq as [_ (d1 & e & _ & Hex & _)].
    pose proof (exec_no_panic (claim_stmt eng limit names versions) e d1) as Hp.
    rewrite Hex in Hp. by apply (Hp msg args).
Qed.
End logs.

(** ** Deployed histories *)

Section deployment.
Context `{Postgres} `{!PostgresLaws}.
Context (wfs : gmap (string * Z) compiledWorkflow).
Context (Hwfs : ∀ k wf, wfs !! k = Some wf → compiled_wf wf).
Context (Hsmall : ∀ k wf, wfs !! k = Some wf → Z.of_nat (length (cw_ops wf)) < 2^31).

(** The claims of a claim statement on tables that keep the invariant. *)
Lemma claim_stmt_good eng limit names versions e d rows d' deadline :
  workflows eng ⊆ wfs → supportedWorkflows eng = (names, versions) → sys_inv wfs d →
  (∀ k, uuid_in (gen_random_uuid e k) = Some (gen_random_uuid e k)) →
  exec (claim_stmt eng limit names versions) e d = (Ok rows, d') →
  ∃ runs, mapM (claim_of_row deadline) rows = Ok runs ∧
    ∀ run, run ∈ runs → good_claim wfs d run ∧ mirrors d' run ∧
      is_Some (workflow eng (WorkflowName run) (Version run)).
Proof.
  intros Hsub Hsup Hinv Hu Hx.
  destruct (claim_stmt_pred eng limit names versions e d rows d' Hsup Hx) as (pred & Hc & Hp).
  destruct (claim_rows_good wfs Hsmall pred (e_queue eng) limit (Milliseconds (leaseTTL eng)) e d rows d'
    deadline Hinv) as (runs & Hm & Hall); [|done|done|].
  { intros r Hr. destruct (Hp r Hr) as [wf Hwf]. exists wf. by eapply lookup_weaken. }
  exists runs. split; [done|]. intros run Hrun.
  destruct (Hall run Hrun) as (Hg & Hm' & r & Hr & Hn & Hv). split_and!; [done..|].
  rewrite Hn, Hv. by apply Hp.
Qed.

Section history.
Context (h : list other) (Huuids : Forall server_uuids h).

(** A claim made in the history is a good one ever after. *)
Lemma claimed_good k eng run m :
  (∀ j, (j < k)%nat → sys_inv wfs (tables_after (take j h))) → claimed_in wfs (take k h) eng run →
  (k ≤ m)%nat →
  good_claim wfs (tables_after (take m h)) run ∧ workflows eng ⊆ wfs ∧
  is_Some (workflow eng (WorkflowName run) (Version run)).
Proof.
  intros Hinv [limit o kc w runs w' Hsub (Ew & _ & El) Hclaim Hrun Hpre] Hkm.
  apply claimReadyRuns_cases in Hclaim as [[= ->]|[[? ?]|Hc]]; [by apply not_elem_of_nil in Hrun|done|].
  destruct Hc as (l & names & versions & e & started & rows & Hsup & Hlog & Hex & Hm).
  unfold logged in Hlog at 2. rewrite El in Hlog. cbn in Hlog. rewrite Ew in Hex.
  destruct Hpre as [rest Hpre]. rewrite Hlog in Hpre.
  assert (drop kc (take k h) !! length l = Some (Other _ (claim_stmt eng limit names versions) e)) as Hj.
  { rewrite Hpre, <-app_assoc. by apply list_lookup_middle. }
  rewrite lookup_drop in Hj. set (j := (kc + length l)%nat) in *.
  assert (j < k)%nat as Hjk.
  { apply lookup_lt_Some in Hj. rewrite length_take in Hj. lia. }
  rewrite lookup_take_lt in Hj by done. rewrite take_take, Nat.min_l in Hex by lia.
  assert (foldl run_other (tables_after (take kc h)) l = tables_after (take j h)) as Ej.
  { rewrite <-tables_app. f_equal. unfold j. rewrite <-(take_take_drop h kc (length l)). f_equal.
    assert (take (length l) (drop kc (take k h)) = l) as El' by (rewrite Hpre, <-app_assoc; by rewrite take_app_length).
    rewrite <-El' at 1. rewrite skipn_firstn_comm, take_take. f_equal. lia. }
  rewrite Ej in Hex.
  destruct (claim_stmt_good eng limit names versions e (tables_after (take j h)) rows (w_db w')
    (started + leaseTTL eng) Hsub Hsup) as (runs' & Hm' & Hall); [by apply Hinv| |done|].
  { rewrite Forall_lookup in Huuids. exact (Huuids j _ Hj). }
  rewrite Hm in Hm'. injection Hm' as <-. destruct (Hall run Hrun) as (Hgood & _ & Hreg).
  split_and!; [|done..]. eapply good_claim_mono; [|exact Hgood]. apply tables_mono. lia.
Qed.

(** What an execution of a claim has sent is due where it takes effect, if the invariant
    holds up to there. *)
Lemma sent_step i x :
  (∀ j, (j ≤ i)%nat → sys_inv wfs (tables_after (take j h))) → sent_by_claim wfs h i x →
  sys_step wfs (tables_after (take i h)) (run_other (tables_after (take i h)) x).
Proof.
  intros Hinv [eng run o Error k w a w' n Hclaim (Ew & Htx & El) Hx Hn Hseen ->].
  assert (∀ m, (k ≤ m)%nat → _) as Hat
    by (intros m Hm; refine (claimed_good k eng run m _ Hclaim Hm); intros; apply Hinv; lia).
  destruct (Hat k (le_n k)) as (Hgood & Hsub & wf & Hwf).
  eapply (executeClaim_moves wfs Hwfs) in Hx; [|done..|by rewrite Ew].
  apply moves_log in Hx as (l & E1 & _ & Hown). unfold st in E1, Hown. cbn in E1, Hown.
  rewrite El in E1. cbn in E1. rewrite E1 in Hn. unfold logged in Hseen. rewrite E1 in Hseen.
  apply Hown in Hn. rewrite Ew, Hseen, <-tables_app, take_take_drop in Hn.
  eapply due_step; [apply Hat; lia| |exact Hn]. by eapply lookup_weaken.
Qed.
End history.

Section deployed.
Context (h : list other) (Hd : deployed wfs h).

Lemma deployed_step i x : h !! i = Some x →
  sys_inv wfs (tables_after (take i h)) ∧ sys_step wfs (tables_after (take i h)) (tables_after (take (S i) h)).
Proof.
  revert x. induction i as [i IH] using lt_wf_ind. intros x Hx.
  assert (∀ j, (j ≤ i)%nat → sys_inv wfs (tables_after (take j h))) as Hinv.
  { intros [|j] Hj; [apply sys_inv_empty|]. destruct (lookup_lt_is_Some_2 h j) as [y Hy].
    { apply lookup_lt_Some in Hx. lia. }
    destruct (IH j ltac:(lia) y Hy) as [Hi Hs]. by eapply sys_inv_step. }
  split; [by apply Hinv|]. rewrite (tables_snoc _ _ _ Hx). destruct Hd as [Hu Hs].
  destruct (Hs i x Hx) as [Hf|Hsent]; [|by apply sent_step].
  destruct x as [X s e]. by apply sys_open.
Qed.

Lemma deployed_steps j : rtc (sys_step wfs) (tables_after (take j h)) (tables_after h).
Proof.
  remember (length h - j)%nat as n eqn:En. revert j En. induction n as [|n IH]; intros j En.
  - by rewrite take_ge by lia.
  - destruct (lookup_lt_is_Some_2 h j) as [x Hx]; [lia|].
    eapply rtc_l; [by eapply deployed_step|]. apply IH. lia.
Qed.

Lemma deployed_reachable : rtc (sys_step wfs) empty_db (tables_after h).
Proof. exact (deployed_steps 0). Qed.

Lemma deployed_inv j : sys_inv wfs (tables_after (take j h)).
Proof.
  destruct (h !! j) as [x|] eqn:Hx; [by eapply deployed_step|]. apply lookup_ge_None in Hx.
  rewrite take_ge by done. eapply rtc_sys_inv; [done|apply deployed_reachable|apply sys_inv_empty].
Qed.
End deployed.

(** ** What is sent stays sent *)

Lemma claimed_in_app h h' eng run : claimed_in wfs h eng run → claimed_in wfs (h ++ h') eng run.
Proof.
  intros [limit o k w runs w' Hsub Hw Hclaim Hrun Hpre].
  destruct (decide (k ≤ length h)%nat) as [Hk|Hk].
  - eapply claimed_by; [done| |done..|].
    + by rewrite take_app_le.
    + rewrite drop_app_le by done. by apply prefix_app_r.
  - exfalso. rewrite drop_ge in Hpre by lia. apply prefix_nil_inv in Hpre.
    apply claimReadyRuns_cases in Hclaim as [[= ->]|[[? ?]|Hc]]; [by apply not_elem_of_nil in Hrun|done|].
    destruct Hc as (l & names & versions & e & started & rows & _ & Hlog & _). rewrite Hpre in Hlog.
    symmetry in Hlog. by apply app_nil in Hlog as [_ [_ ?]%app_nil].
Qed.

Lemma sent_app h h' i x :
  (i < length h)%nat → sent_by_claim wfs h i x → sent_by_claim wfs (h ++ h') i x.
Proof.
  intros Hi [eng run o Error k w a w' n Hclaim Hw Hx Hn Hseen ->].
  eapply sent_by; [..|exact Hx|exact Hn| |done]; rewrite ?take_app_le by lia; [done..|].
  rewrite Hseen, drop_app_le by lia. rewrite take_app_le; [done|]. rewrite length_drop. lia.
Qed.

(** ** The theorems *)

(** C9: executing a claim keeps the invariant, with other engines at work.  A run claimed in
    the course of a deployed history is executed after it, with any faults of the database and
    any results of user code; between its statements others commit what they like without
    a fence, and other workers what they send while executing claims of their own.  Then the
    history goes on as a deployed one, its statements explain the tables, and at its end
    every run still stands at its cursor behind recorded results, waits at a wait, or has
    completed with its last result as output. *)
Theorem executing_a_claim_keeps_the_invariant h eng run o Error w a w' :
  deployed wfs h → claimed_in wfs h eng run → begins h w →
  executeClaim o Error eng run w = (a, w') → Forall server_uuids (logged w') →
  (∀ n x, w_log w' !! n = Some (Theirs, x) →
     unfenced x ∨ sent_by_claim wfs (h ++ logged w') (length h + n) x) →
  deployed wfs (h ++ logged w') ∧ w_db w' = tables_after (h ++ logged w') ∧ sys_inv wfs (w_db w').
Proof.
  intros Hd Hclaim (Ew & Htx & El) Hx Hu Htheirs.
  assert (deployed wfs (h ++ logged w')) as Hd'.
  { split; [apply Forall_app_2; [exact (dp_uuids _ _ Hd)|done]|]. intros i x Hi.
    destruct (decide (i < length h)%nat) as [Hlt|Hge].
    - rewrite lookup_app_l in Hi by done. destruct (dp_sent _ _ Hd i x Hi) as [?|?]; [by left|right].
      by apply sent_app.
    - rewrite lookup_app_r in Hi by lia. unfold logged in Hi. apply list_lookup_fmap_Some in Hi as ([p y] & -> & Hi).
      assert (i = length h + (i - length h))%nat as Ei by lia. destruct p.
      + right. eapply (sent_by _ _ _ _ eng run o Error (length h) w a w' (i - length h)); [..|exact Ei];
          rewrite ?take_app_length, ?drop_app_length; [done|by split_and!|done..].
      + rewrite Ei. by apply Htheirs. }
  assert (w_db w' = tables_after (h ++ logged w')) as Edb.
  { destruct (claimed_good h (dp_uuids _ _ Hd) (length h) eng run (length h)) as (Hgood & Hsub & wf & Hwf);
      [intros; by apply deployed_inv|by rewrite take_ge|done|]. rewrite take_ge in Hgood by done.
    eapply (executeClaim_moves wfs Hwfs) in Hx; [|done..|by rewrite Ew].
    apply moves_log in Hx as (l & E1 & E2 & _). unfold st in E1, E2. cbn in E1, E2.
    rewrite El in E1. cbn in E1. rewrite tables_app, <-Ew, E2. unfold logged. by rewrite E1. }
  split_and!; [done..|]. rewrite Edb, <-(take_ge (h ++ logged w') _ (le_n _)). by apply deployed_inv.
Qed.

(** C8: a claimed run is what the tables hold of it.  After any deployed history, and with
    the statements of others between the effects of [claimReadyRuns], commits of other workers
    included: the call fails only if the claim statement does; every run it
    answers is leased under the run's token and has the row's workflow version, cursor,
    attempts and input and exactly the checkpoints of the table, the outcome delivered at
    the cursor among them; its version is registered, and every operation before the cursor
    that has a result has it in the claim. *)
Theorem claimed_runs_are_complete h eng limit o w a w' :
  workflows eng ⊆ wfs → begins h w → claimReadyRuns o eng limit w = (a, w') →
  deployed wfs (h ++ logged w') →
  match a with
  | Ok runs => ∀ run, run ∈ runs → mirrors (w_db w') run ∧
      ∃ wf, workflow eng (WorkflowName run) (Version run) = Some wf ∧
        ∀ j op, Z.of_nat j < StepIndex run → cw_ops wf !! j = Some op → op_name op ≠ None →
          ∃ v, checkpoints run !! Z.of_nat j = Some (Some v)
  | Err e => ∃ cause, e = Wrapf "durablepg: claim runs: %w" [] cause
  | Panic _ _ => False
  end.
Proof.
  intros Hsub (Ew & _ & El) Hx Hd.
  apply claimReadyRuns_cases in Hx as [->|[[cause ->]|Hc]]; [by intros run ?%elem_of_nil|by exists cause|].
  destruct Hc as (l & names & versions & e & started & rows & Hsup & Hlog & Hex & Hm).
  unfold logged in Hlog at 2. rewrite El in Hlog. cbn in Hlog. rewrite Ew, <-tables_app in Hex.
  rewrite Hlog in Hd. destruct (claim_stmt_good eng limit names versions e (tables_after (h ++ l)) rows (w_db w')
    (started + leaseTTL eng) Hsub Hsup) as (runs' & Hm' & Hall); [| |done|].
  - pose proof (deployed_inv _ Hd (length (h ++ l))) as Hi. by rewrite app_assoc, take_app_length in Hi.
  - apply dp_uuids in Hd. rewrite app_assoc in Hd. apply Forall_app in Hd as [_ Hu].
    rewrite Forall_singleton in Hu. exact Hu.
  - rewrite Hm' in Hm. subst a. intros run Hrun. destruct (Hall run Hrun) as ([_ _ Hfull] & Hmi & wf & Hwf).
    split; [done|]. exists wf. split; [done|]. intros j op. apply Hfull. by eapply lookup_weaken.
Qed.

(** C1: a deployment keeps journals.  Engines, clients and maintenance loops act on the
    tables in any interleaving, faults included; of the fenced statements nothing is
    assumed but that the worker's code sent them while executing a claim.  They do to each
    run only what [journal_step] allows: from an empty journal its outcomes are recorded
    one by one, in the order of the workflow, each once and none skipped, changed or taken
    back; only the worker that holds the run, or a delivery to the waiting run, appends; and
    a run completes only with all its outcomes recorded, the last of them as its output. *)
Theorem deployment_keeps_journals h id r wf :
  deployed wfs h → workflow_runs (tables_after h) !! id = Some r →
  wfs !! (workflow_name r, workflow_version r) = Some wf →
  let n := length (positions wf) in
  rtc (journal_step n) {| j_status := RunReady; j_outcomes := [] |} (journal_of wf id r (tables_after h)) ∧
  (state r = RunCompleted →
     length (outcomes wf id (tables_after h)) = n ∧ output_json r = last (outcomes wf id (tables_after h))) ∧
  ∀ h', deployed wfs (h ++ h') → ∃ r', workflow_runs (tables_after (h ++ h')) !! id = Some r' ∧
    rtc (journal_step n) (journal_of wf id r (tables_after h)) (journal_of wf id r' (tables_after (h ++ h'))) ∧
    outcomes wf id (tables_after h) `prefix_of` outcomes wf id (tables_after (h ++ h')).
Proof.
  intros Hd Hr Hwf n. pose proof (deployed_reachable _ Hd) as Hrtc.
  destruct (reachable_sys wfs Hwfs _ Hrtc) as [Hinv Hg]. split_and!.
  - by eapply journal_from_empty.
  - intros Hs. split; [by eapply completed_outcomes|by eapply completed_output].
  - intros h' Hd'. pose proof (deployed_steps _ Hd' (length h)) as Hs. rewrite take_app_length in Hs.
    destruct (journal_sims wfs Hwfs _ _ id r wf Hs Hinv Hg Hr Hwf) as (r' & Hr' & _ & Hj).
    exists r'. split_and!; [done..|]. exact (journal_steps_extend _ _ _ Hj).
Qed.
End deployment.
