(* ===== verification/Client.v ===== *)
(** * The client calls

    What [Enqueue], [EmitEvent] and [Cancel] promise their caller, with other parties
    at work between their effects and with database calls that may fail. *)

From S2P Require Import Prelude GoText Json Types Builder Postgres Queries Store Statements.
From S2P Require Import Claims Events Timing Effects Engine Registry Worker Replay.
#[local] Open Scope sql_scope.

Section client.
Context `{Postgres} (o : nat → moment).

Lemma lift_Ok {A B} (x : outcome A) (f : A → io B) w b w' :
  (lift x ≫= f) w = (Ok b, w') → ∃ a, x = Ok a ∧ f a w = (Ok b, w').
Proof. rewrite io_bind_eq. unfold lift. destruct x as [a|e|m l]; [by exists a|done|done]. Qed.

Lemma wrapping_bind_Ok {A B} f l (m : io A) (k : A → io B) w b w' :
  (wrapping f l m ≫= k) w = (Ok b, w') → ∃ a w1, m w = (Ok a, w1) ∧ k a w1 = (Ok b, w').
Proof.
  rewrite io_bind_eq. unfold wrapping. destruct (m w) as [[a|e|msg x] w1]; [|done..]. by exists a, w1.
Qed.

(** What an insertion that succeeds leaves, from the tables [d]. *)
Lemma insertRun_leaves id name version q max_att scheduled input key channel e d rid n d' :
  exec (InsertRun id name version q max_att scheduled input key channel) e d = (Ok (rid, n), d') →
  match workflow_runs d !! rid with
  | Some r => workflow_name r = name ∧ dedup_key r = key ∧ key ≠ None ∧
      d' = set_runs (<[rid := set_updated_at (now e) r]> (workflow_runs d)) d
  | None => uuid_in id = Some rid ∧
      (∀ k r, workflow_runs d !! k = Some r → key = None ∨ workflow_name r ≠ name ∨ dedup_key r ≠ key) ∧
      ∃ r, workflow_runs d' = <[rid := r]> (workflow_runs d) ∧
        step_checkpoints d' = step_checkpoints d ∧ event_log d' = event_log d ∧
        workflow_name r = name ∧ workflow_version r = version ∧ queue r = q ∧
        state r = RunReady ∧ step_index r = 0 ∧ attempt r = 0 ∧ lease_failures r = 0 ∧
        max_attempts r = max_att ∧ next_run_at r = default (now e) scheduled ∧
        jsonb_in input = Some (input_json r) ∧ dedup_key r = key ∧
        notifications d' = notifications d ++ (if next_run_at r <=? now e then [(channel, q)] else [])
  end.
Proof.
  cbn [exec]. intros Hx.
  apply insertRun_Ok in Hx as [(r & Hr & Hc & _ & ->)|(v & Hid & Hv & _ & _ & Hr & Hno & _ & ->)]; rewrite Hr.
  - destruct key as [key|]; [|done]. apply dedup_conflict_spec in Hc as [? ?]. split_and!; [done..|].
    f_equal. apply (update_where_single _ (λ _ r, set_updated_at (now e) r)); [|done|].
    + intros k ? Hk. by apply bool_decide_eq_true in Hk.
    + by apply bool_decide_eq_true.
  - split_and!; [done| |].
    + intros k r Hk. destruct key as [key|]; [right|by left]. specialize (Hno k r Hk).
      destruct (decide (workflow_name r = name)); [right|by left]. intros Heq.
      assert (dedup_conflict name (Some key) k r = true) as Ht by by apply dedup_conflict_spec. congruence.
    + eexists. split; [done|]. split_and!; try done. cbn. by destruct (default (now e) scheduled <=? now e).
Qed.

(** C31: an enqueue that succeeds has validated its request and left exactly one run for
    it.  Either the deduplication key is that of a run of this workflow, which the call
    answers and does not change but for its time stamp.  Or no run has the key and the
    answered id is new: the row has the requested version, or the highest registered one, the
    trimmed queue, the attempt limit and input as asked, is ready at its first operation
    and due when scheduled - at once by default, and then its queue is notified. *)
Theorem enqueue_creates_requested_run eng name raw opts uuid w rid w' :
  registry_wf (workflows eng) → w_tx w = None →
  Enqueue o eng name raw opts uuid w = (Ok rid, w') →
  let op := apply_options opts (defaultOptions eng) in
  let key := if bool_decide (o_idempotencyKey op = "") then None else Some (o_idempotencyKey op) in
  let time := now (m_env (o (w_tick w))) in
  0 <= o_workflowVersion op ∧ 0 < o_maxAttempts op ∧ TrimSpace (o_queue op) ≠ "" ∧
  ∃ input wf runID d1,
    raw = Ok input ∧ workflow eng name (cw_version wf) = Some wf ∧
    (o_workflowVersion op ≠ 0 → cw_version wf = o_workflowVersion op) ∧
    (o_workflowVersion op = 0 → ∀ v wf', workflow eng name v = Some wf' → v <= cw_version wf) ∧
    (if bool_decide (o_runID op = "") then uuid = Ok runID else runID = o_runID op) ∧
    rtc db_step (w_db w) d1 ∧
    let d' := w_db w' in
    match workflow_runs d1 !! rid with
    | Some r => workflow_name r = name ∧ dedup_key r = key ∧ key ≠ None ∧
        d' = set_runs (<[rid := set_updated_at time r]> (workflow_runs d1)) d1
    | None => uuid_in runID = Some rid ∧
        (∀ k r, workflow_runs d1 !! k = Some r → key = None ∨ workflow_name r ≠ name ∨ dedup_key r ≠ key) ∧
        ∃ r, workflow_runs d' = <[rid := r]> (workflow_runs d1) ∧
          step_checkpoints d' = step_checkpoints d1 ∧ event_log d' = event_log d1 ∧
          workflow_name r = name ∧ workflow_version r = cw_version wf ∧
          queue r = TrimSpace (o_queue op) ∧
          state r = RunReady ∧ step_index r = 0 ∧ attempt r = 0 ∧ lease_failures r = 0 ∧
          max_attempts r = o_maxAttempts op ∧ next_run_at r = default time (o_scheduledAt op) ∧
          jsonb_in input = Some (input_json r) ∧ dedup_key r = key ∧
          notifications d' = notifications d1 ++
            (if next_run_at r <=? time then [(channel eng, queue r)] else [])
    end.
Proof.
  intros Hreg Hn Hx op key time. revert Hx. unfold Enqueue.
  intros (input & w1 & Hraw & Hx)%wrapping_bind_Ok. unfold lift in Hraw.
  injection Hraw as Hraw <-. fold op in Hx.
  apply lift_Ok in Hx as (u1 & Hver & Hx). apply guard_err_Ok in Hver.
  apply lift_Ok in Hx as (wf & Hwf & Hx).
  apply lift_Ok in Hx as (u2 & Hq & Hx). apply guard_err_Ok in Hq.
  apply lift_Ok in Hx as (u3 & Hmax & Hx). apply guard_err_Ok in Hmax.
  apply lift_Ok in Hx as (runID & Hid & Hx). bool_to_prop.
  apply wrapping_bind_Ok in Hx as ([r n] & w2 & Hquery & Hx). injection Hx as <- <-.
  apply (query_pool o) in Hquery as [_ (d1 & e & Hr & Hex & He)].
  assert (workflow eng name (cw_version wf) = Some wf ∧ cw_name wf = name ∧
    (o_workflowVersion op ≠ 0 → cw_version wf = o_workflowVersion op) ∧
    (o_workflowVersion op = 0 → ∀ v wf', workflow eng name v = Some wf' → v <= cw_version wf))
    as (Hwf1 & Hwf2 & Hwf3 & Hwf4).
  { destruct (o_workflowVersion op =? 0) eqn:E; bool_to_prop.
    - destruct (latestWorkflow eng name) as [wf0|] eqn:Hl; [|done]. injection Hwf as ->.
      destruct (latest_spec eng name Hreg wf Hl) as [Hw Hall].
      destruct (Hreg _ _ Hw) as [[= Hnm] _]. by split_and!.
    - destruct (workflow eng name _) as [wf0|] eqn:Hw; [|done]. injection Hwf as ->.
      destruct (Hreg _ _ Hw) as [[= -> Hv] _]. rewrite <-Hv. by split_and!. }
  split_and!; [done..|]. exists input, wf, runID, d1. rewrite Hwf2 in Hex.
  split_and!; try done; [destruct (bool_decide (o_runID op = "")); [done|by injection Hid]|].
  fold key in Hex. apply insertRun_leaves in Hex. rewrite He in Hex. fold time in Hex. cbn zeta.
  destruct (workflow_runs d1 !! r); [done|]. destruct Hex as (Hu & Hno & row & Hrow).
  split_and!; [done..|]. exists row. destruct_and!. split_and!; try done.
  by match goal with Hqr : queue row = _ |- _ => rewrite Hqr end.
Qed.

(** C32: a cancellation's answer is final: when the run exists and no call fails, either
    the call cancelled it, or it answers the final state in which it found it; from
    then on, whatever the others do, the run keeps that state. *)
Theorem cancel_answer_is_final id w out w' d' :
  uuid_in id = Some id → w_tx w = None → is_Some (workflow_runs (w_db w) !! id) →
  Cancel o id w = (Ok out, w') → rtc db_step (w_db w') d' →
  Terminal (State out) = true ∧
  (Cancelled out = true → State out = RunCancelled) ∧
  ∃ r, workflow_runs d' !! id = Some r ∧ state r = State out.
Proof.
  intros Hid Hn [r0 Hr0] Hc Hr'. unfold Cancel in Hc.
  apply wrapping_bind_Ok in Hc as (n & w1 & Hq & Hc).
  apply (query_pool o) in Hq as [Hdid (d1 & e & Hr1 & Hex & _)].
  destruct (rtc_row_identity _ _ _ _ Hr1 Hr0) as (r1 & Hrow1 & _).
  cbn [exec] in Hex. rewrite (cancelRun_spec id e d1 Hid), Hrow1 in Hex.
  assert (∀ d r, workflow_runs d !! id = Some r → Terminal (state r) = true → ∀ d',
    rtc db_step d d' → ∃ r', workflow_runs d' !! id = Some r' ∧ state r' = state r) as Hfinal.
  { intros d r Hrow Ht d2 Hr2. destruct (rtc_terminal d d2 id r Hr2 Hrow Ht) as (r' & Hrow' & E).
    exists r'. split; [done|]. by rewrite E. }
  destruct (Terminal (state r1)) eqn:Ht.
  - injection Hex as <- Hd1. cbn in Hc. rewrite io_bind_eq, catching_eq in Hc.
    destruct (query_row o Pool (RunState_ id) w1) as [b w2] eqn:E.
    apply (query_row_pool o) in E as [_ Hb].
    destruct b as [st|er|msg l]; [|by destruct (isNoRows er)|done].
    injection Hc as <- <-. destruct Hb as (d2 & e2 & Hr2 & Hex2).
    rewrite <-Hd1 in Hr2. destruct (Hfinal _ _ Hrow1 Ht d2 Hr2) as (r2 & Hrow2 & Hst2).
    cbn [exec] in Hex2. unfold runState in Hex2.
    rewrite (proj2 (bind_uuid_Ok id id) Hid) in Hex2. cbn in Hex2. rewrite Hrow2 in Hex2.
    cbn in Hex2. injection Hex2 as Hst Hd2. cbn [State Cancelled]. rewrite <-Hst, Hst2, Ht.
    split_and!; [done|done|]. rewrite <-Hd2 in Hr'.
    destruct (Hfinal d2 r2 Hrow2 ltac:(by rewrite Hst2) d' Hr') as (r3 & ? & ?).
    exists r3. split; congruence.
  - injection Hex as <- Hd1. cbn in Hc. injection Hc as <- <-. cbn [State Cancelled].
    split_and!; [done|done|]. edestruct (Hfinal (w_db w1)) as (r3 & Hrow3 & Hst3);
      [rewrite <-Hd1; cbn; by rewrite lookup_insert_eq|done|exact Hr'|].
    exists r3. split; [done|]. by rewrite Hst3.
Qed.

(** A row that a read found is the row as the tables have it then. *)
Lemma read_row {X} (s : stmt (option X)) (f : string → run → X) id w x w' :
  (∀ e d, exec s e d = (u ← bind_uuid id; mret (f u <$> workflow_runs d !! u), d)) →
  uuid_in id = Some id → query_row o Pool s w = (Ok x, w') →
  ∃ r, workflow_runs (w_db w') !! id = Some r ∧ x = f id r.
Proof.
  intros Hs Hid E. apply (query_row_pool o) in E as [_ (d & e & _ & Hex)].
  rewrite Hs, (proj2 (bind_uuid_Ok id id) Hid) in Hex. cbn in Hex. injection Hex as Hx Hd.
  rewrite <-Hd. destruct (workflow_runs d !! id) as [r|]; [|done]. cbn in Hx. injection Hx as <-.
  by exists r.
Qed.

(** [RunStatus] answers a snapshot of the run's row. *)
Lemma run_status_is_snapshot id w st w' :
  uuid_in id = Some id → RunStatus o id w = (Ok st, w') →
  ∃ r, workflow_runs (w_db w') !! id = Some r ∧ st = scan_status id r.
Proof.
  intros Hid Hc. unfold RunStatus in Hc. rewrite io_bind_eq, catching_eq in Hc.
  destruct (query_row o Pool (RunStatus_ id) w) as [[[runID row]|er|msg l] w1] eqn:E;
    [|by destruct (isNoRows er)|done].
  injection Hc as <- <-.
  destruct (read_row (RunStatus_ id) pair id w (runID, row) w1 (λ _ _, eq_refl) Hid E) as (r & Hr & [= -> ->]).
  by exists r.
Qed.

(** C33: the output that a caller gets is final: when [RunOutput] answers at all, the run
    exists, and the answer is true exactly if it has completed.  Then the value is what
    the stored output decodes to, or the decoding error is answered, and whatever
    happens afterwards the run stays completed with that output. *)
Theorem run_output_is_final {T} (dst : list ascii → error + T) id w a w' :
  uuid_in id = Some id → RunOutput o id dst w = (Ok a, w') →
  ∃ r, workflow_runs (w_db w') !! id = Some r ∧ (dec_ok a = true ↔ state r = RunCompleted) ∧
    (dec_ok a = true →
       match dst (default (s2b "null") (output_json r)) with
       | inl er => dec_err a = Some (Wrapf "durablepg: decode run output: %w" [] er) ∧ dec_dst a = None
       | inr v => dec_err a = None ∧ dec_dst a = Some v
       end ∧
       ∀ d', rtc db_step (w_db w') d' → ∃ r', workflow_runs d' !! id = Some r' ∧
         state r' = RunCompleted ∧ output_json r' = output_json r).
Proof.
  intros Hid Hc. unfold RunOutput in Hc. rewrite io_bind_eq, catching_eq in Hc.
  destruct (query_row o Pool (RunOutput_ id) w) as [[[st out]|er|msg l] w1] eqn:E;
    [|by destruct (isNoRows er)|done].
  destruct (read_row (RunOutput_ id) (λ _ r, (state r, output_json r)) id w (st, out) w1 (λ _ _, eq_refl) Hid E)
    as (r & Hr & [= -> ->]).
  case_bool_decide as Hst; cbn [negb] in Hc.
  - assert (∀ d', rtc db_step (w_db w1) d' → ∃ r', workflow_runs d' !! id = Some r' ∧
      state r' = RunCompleted ∧ output_json r' = output_json r) as Hfinal.
    { intros d' Hd. destruct (rtc_terminal _ d' id r Hd Hr) as (r' & Hr' & Er); [by rewrite Hst|].
      exists r'. split; [done|]. rewrite Er. by split. }
    destruct (dst _) as [er|v] eqn:Hdst; injection Hc as <- <-; exists r; rewrite Hdst;
      cbn [dec_ok dec_err dec_dst]; (split; [done|]); (split; [by split|]); intros _; (split; [by split|exact Hfinal]).
  - injection Hc as <- <-. exists r. cbn [dec_ok]. split_and!; [done|by split|done].
Qed.
End client.
