(* ===== verification/Progress.v ===== *)
(** * Progress of a claim

    What [executeClaim] achieves when nothing gets in its way: no other party acts, no
    database call fails, the context is not cancelled and the lease lasts.  Steps run
    to completion, each called once and its result stored; a failing step records its
    failure, with the error it gives and the backoff. *)

From S2P Require Import Prelude GoText Json Types Builder Postgres Queries Store Statements.
From S2P Require Import Events Timing Effects Engine Worker Replay.
#[local] Open Scope sql_scope.

Section progress.
Context `{Postgres} (o : nat → moment) (Error : error → string) (eng : Engine).

(** Nothing happens around the worker. *)
Definition quiet : Prop :=
  ∀ n, m_others (o n) = [] ∧ m_fault (o n) = NoFault ∧ m_ctx (o n) = None.

(** The next moment. *)
Definition next (w : world) : world :=
  {| w_db := w_db w; w_tx := w_tx w; w_tick := S (w_tick w); w_calls := w_calls w; w_log := w_log w |}.
Definition env_at (w : world) : env := m_env (o (w_tick w)).

Context (Hq : quiet).

Lemma interfere_quiet w : interfere w (o (w_tick w)) = next w.
Proof. unfold interfere, next. by rewrite (proj1 (Hq _)). Qed.

Lemma query_quiet {X} (s : stmt X) w :
  query o Pool s w =
    ((exec s (env_at w) (w_db w)).1,
     set_db (exec s (env_at w) (w_db w)).2 [Other X s (env_at w)] (next w)).
Proof.
  unfold query, effect, env_at. rewrite interfere_quiet. destruct (Hq (w_tick w)) as (_ & -> & _).
  cbn. by destruct (exec s _ _).
Qed.

Lemma ctx_quiet w : ctx_Err o w = (Ok None, next w).
Proof. unfold ctx_Err, effect. rewrite interfere_quiet. by destruct (Hq (w_tick w)) as (_ & _ & ->). Qed.

Lemma runStep_quiet wf run vs index st w :
  runStep o wf run vs index st w =
    (executeStepSafely (st_name st) (m_fn (o (w_tick w))),
     log_call (StepCalled index (st_fn st) (stepContext run wf vs index (st_name st))) (next w)).
Proof. unfold runStep, call_step, effect. rewrite io_bind_eq, interfere_quiet. done. Qed.

(** ** Steps that succeed *)

Section success.
Context (run : claimedRun) (wf : compiledWorkflow) (u : Z).
Context (Hid : uuid_in (ID run) = Some (ID run)) (Htok : uuid_in (Token run) = Some (Token run)).
Context (Hlen : Z.of_nat (length (cw_ops wf)) < 2^31 - 1).
Context (Hlease : ∀ n, clock_timestamp (m_env (o n)) (ID run) < u).

(** The worker holds the run at position [index] or before. *)
Definition held (index : nat) (d : db) : Prop :=
  ∃ r, workflow_runs d !! ID run = Some r ∧ state r = RunLeased ∧
    lease_token r = Some (Token run) ∧ lease_until r = Some u ∧ step_index r <= Z.of_nat index.

Lemma held_fence index d n :
  held index d → ∃ r, workflow_runs d !! ID run = Some r ∧
    fence (ID run) (Token run) (m_env (o n)) (ID run) r = true ∧ step_index r <= Z.of_nat index ∧
    state r = RunLeased ∧ lease_token r = Some (Token run) ∧ lease_until r = Some u.
Proof.
  intros (r & Hr & Hs & Ht & Hu & Hi). exists r. split_and!; try done.
  apply fence_spec. split_and!; try done. exists u. by split.
Qed.

Lemma commitStep_quiet index raw v complete w :
  (index < length (cw_ops wf))%nat → jsonb_in raw = Some v → held index (w_db w) →
  ∃ stored w', commitStep o Pool run index raw complete w = (Ok stored, w') ∧
    w_tick w' = S (w_tick w) ∧ w_calls w' = w_calls w ∧
    (let key := (ID run, Z.of_nat index) in
     step_checkpoints (w_db w') =
       <[key := default v (step_checkpoints (w_db w) !! key)]> (step_checkpoints (w_db w))) ∧
    if complete then
      ∃ r', workflow_runs (w_db w') !! ID run = Some r' ∧ state r' = RunCompleted ∧
        step_index r' = Z.of_nat index + 1 ∧
        output_json r' = step_checkpoints (w_db w') !! (ID run, Z.of_nat index)
    else held (S index) (w_db w').
Proof.
  intros Hi Hv Hheld. destruct (held_fence index (w_db w) (w_tick w) Hheld)
    as (r & Hr & Hf & Hle & Hs & Ht & Hu).
  unfold commitStep. rewrite io_bind_eq, catching_eq. unfold query_row. rewrite io_bind_eq, query_quiet.
  cbn [exec]. unfold env_at.
  rewrite (commitStep_owned (ID run) (Token run) (Z.of_nat index) raw v complete _ (w_db w) r)
    by (done || lia).
  set (ex := step_checkpoints (w_db w) !! (ID run, Z.of_nat index)). cbn.
  destruct ex as [t|]; cbn; (eexists _, _; split; [done|]); cbn; (split_and!; try done);
    (destruct complete; [rewrite !lookup_insert_eq; by eexists|]);
    (eexists; cbn; rewrite lookup_insert_eq; split_and!; try done; cbn; lia).
Qed.

(** What the [k]-th call of an undisturbed sequence of steps returns: a step reads the
    context, calls its function and commits. *)
Definition result_of (w : world) (k : nat) : fn_result := m_fn (o (S (w_tick w + 3 * k))).

(** What [n] steps from position [index] on leave: the calls and the stored results. *)
Record stepped (index n : nat) (w w' : world) : Prop := {
  sd_calls : ∃ calls, w_calls w' = w_calls w ++ calls ∧ length calls = n ∧
    ∀ k c, calls !! k = Some c → ∃ st vs, cw_ops wf !! (index + k)%nat = Some (opStep st) ∧
      c = StepCalled (index + k) (st_fn st) (stepContext run wf vs (index + k) (st_name st));
  sd_results k : (k < n)%nat → ∃ raw v, result_of w k = FnOut (Ok raw) ∧ jsonb_in raw = Some v ∧
    let key := (ID run, Z.of_nat (index + k)) in
    step_checkpoints (w_db w') !! key = Some (default v (step_checkpoints (w_db w) !! key));
  sd_frame key : (∀ k, (k < n)%nat → key ≠ (ID run, Z.of_nat (index + k))) →
    step_checkpoints (w_db w') !! key = step_checkpoints (w_db w) !! key;
}.

Lemma stepped_nil index w : stepped index 0 w w.
Proof.
  split; [|lia|done]. exists []. rewrite app_nil_r. split_and!; [done..|].
  intros k c Hc. by rewrite lookup_nil in Hc.
Qed.

Lemma stepped_cons index n w w1 w' st vs raw v :
  cw_ops wf !! index = Some (opStep st) → result_of w 0 = FnOut (Ok raw) → jsonb_in raw = Some v →
  w_tick w1 = (3 + w_tick w)%nat →
  w_calls w1 = w_calls w ++ [StepCalled index (st_fn st) (stepContext run wf vs index (st_name st))] →
  (let key := (ID run, Z.of_nat index) in
   step_checkpoints (w_db w1) =
     <[key := default v (step_checkpoints (w_db w) !! key)]> (step_checkpoints (w_db w))) →
  stepped (S index) n w1 w' → stepped index (S n) w w'.
Proof.
  intros Hop Hraw Hv Htick Hcalls Hcp [(calls & Hc & Hl & Hall) Hres Hfr]. split.
  - eexists (_ :: calls). rewrite Hc, Hcalls, <-app_assoc. split_and!; [done|by rewrite <-Hl|].
    intros [|k] c; cbn.
    + intros [= <-]. exists st, vs. by rewrite Nat.add_0_r.
    + intros Hk. rewrite Nat.add_succ_r. exact (Hall k c Hk).
  - intros [|k] Hk.
    + exists raw, v. rewrite Nat.add_0_r. cbn zeta. split_and!; [done..|].
      rewrite Hfr; [by rewrite Hcp, lookup_insert_eq|]. intros k _ [= ?]. lia.
    + destruct (Hres k) as (raw' & v' & Hr' & Hv' & Hst); [lia|]. exists raw', v'. split_and!; [|done|].
      * rewrite <-Hr'. unfold result_of. do 2 f_equal. lia.
      * cbn zeta in *. rewrite Nat.add_succ_r. etrans; [exact Hst|]. do 2 f_equal. rewrite Hcp.
        apply lookup_insert_ne. intros [= ?]. lia.
  - intros key Hkey. rewrite Hfr.
    + rewrite Hcp. apply lookup_insert_ne. specialize (Hkey 0%nat ltac:(lia)).
      rewrite Nat.add_0_r in Hkey. congruence.
    + intros k Hk. specialize (Hkey (S k) ltac:(lia)). by rewrite Nat.add_succ_r in Hkey.
Qed.

Lemma steps_complete rest : ∀ index vs w,
  rest = drop index (cw_ops wf) → rest ≠ [] →
  (∀ i op, (index ≤ i)%nat → cw_ops wf !! i = Some op → ∃ st, op = opStep st) →
  (∀ i, (index ≤ i)%nat → mjoin (vs !! i) = None) →
  (∀ n, ∃ raw v, m_fn (o n) = FnOut (Ok raw) ∧ jsonb_in raw = Some v) →
  held index (w_db w) →
  ∃ w', drive_from o eng wf run rest index vs w = (Ok (), w') ∧
    stepped index (length rest) w w' ∧
    ∃ r', workflow_runs (w_db w') !! ID run = Some r' ∧ state r' = RunCompleted ∧
      step_index r' = Z.of_nat (length (cw_ops wf)) ∧
      output_json r' = step_checkpoints (w_db w') !!
        (ID run, Z.of_nat (pred (length (cw_ops wf)))).
Proof.
  induction rest as [|op rest IH]; intros index vs w Hrest Hne Hsteps Hnew Hfn Hheld; [done|].
  assert (cw_ops wf !! index = Some op) as Hop.
  { rewrite <-(Nat.add_0_r index), <-lookup_drop, <-Hrest. done. }
  pose proof (lookup_lt_Some _ _ _ Hop) as Hlt.
  assert (rest = drop (S index) (cw_ops wf)) as Hrest'.
  { rewrite <-Nat.add_1_r, <-drop_drop. by rewrite <-Hrest. }
  assert (length rest = length (cw_ops wf) - S index)%nat as Hlr by (rewrite Hrest', length_drop; done).
  destruct (Hsteps index op) as [st ->]; [done|done|].
  cbn [drive_from]. rewrite io_bind_eq, ctx_quiet.
  rewrite bool_decide_eq_false_2 by (rewrite Hnew by done; by intros [? ?]).
  rewrite io_bind_eq, runStep_quiet. cbn [next w_tick].
  destruct (Hfn (S (w_tick w))) as (raw & v & Hraw & Hv). rewrite Hraw. cbn [executeStepSafely].
  set (w1 := log_call _ _). rewrite io_bind_eq.
  destruct (commitStep_quiet index raw v (bool_decide (index = pred (length (cw_ops wf)))) w1)
    as (stored & w2 & -> & Htick & Hcalls & Hcp & Hres); [done|done|done|].
  assert (∀ n w', stepped (S index) n w2 w' → stepped index (S n) w w') as Hcons.
  { intros n w'. eapply stepped_cons; [done| |exact Hv|by rewrite Htick|by rewrite Hcalls|exact Hcp].
    unfold result_of. by rewrite Nat.add_0_r. }
  case_bool_decide as Hlast.
  - exists w2. split_and!; [done| |].
    + destruct rest; [|cbn in Hlr; lia]. apply Hcons, stepped_nil.
    + destruct Hres as (r' & Hr' & Hs & Hidx & Hout). exists r'. rewrite <-Hlast.
      split_and!; [done|done|lia|done].
  - destruct (IH (S index) (<[index := Some stored]> vs) w2) as (w3 & Hd & Hst & Hr3).
    + done.
    + intros ->. cbn in Hlr. lia.
    + intros i op' Hi. apply Hsteps. lia.
    + intros i Hi. rewrite list_lookup_insert_ne by lia. apply Hnew. lia.
    + done.
    + done.
    + exists w3. by split_and!; [|apply Hcons|].
Qed.
End success.

(** ** Properties *)

(** C10: a claim whose remaining operations are all steps, undisturbed and with steps
    that succeed, runs to completion: the functions of the remaining steps are called in
    their order, each once, with the context of its position; the result of each call -
    unless the table has one for the position, which wins - and nothing else is stored; and
    the run is completed with the last result as its output. *)
Theorem steps_run_to_completion run wf w r u :
  workflow eng (WorkflowName run) (Version run) = Some wf →
  uuid_in (ID run) = Some (ID run) → uuid_in (Token run) = Some (Token run) →
  0 <= StepIndex run < Z.of_nat (length (cw_ops wf)) →
  Z.of_nat (length (cw_ops wf)) < 2^31 - 1 →
  (∀ n, clock_timestamp (m_env (o n)) (ID run) < u) →
  (∀ n, ∃ raw v, m_fn (o n) = FnOut (Ok raw) ∧ jsonb_in raw = Some v) →
  (∀ i op, StepIndex run <= Z.of_nat i → cw_ops wf !! i = Some op → ∃ st, op = opStep st) →
  (∀ i, StepIndex run <= i → checkpoints run !! i = None) →
  workflow_runs (w_db w) !! ID run = Some r → state r = RunLeased →
  lease_token r = Some (Token run) → lease_until r = Some u → step_index r = StepIndex run →
  let index := Z.to_nat (StepIndex run) in
  ∃ w', executeClaim o Error eng run w = (Ok (), w') ∧
    stepped run wf index (length (cw_ops wf) - index) w w' ∧
    ∃ r', workflow_runs (w_db w') !! ID run = Some r' ∧ state r' = RunCompleted ∧
      step_index r' = Z.of_nat (length (cw_ops wf)) ∧
      output_json r' = step_checkpoints (w_db w') !!
        (ID run, Z.of_nat (pred (length (cw_ops wf)))).
Proof.
  intros Hwf Hid Htok Hidx Hlen Hlease Hfn Hsteps Hcps Hr Hs Ht Hu Hsi index.
  destruct (steps_complete run wf u Hid Htok Hlen Hlease (drop index (cw_ops wf)) index
    (load_values (length (cw_ops wf)) (checkpoints run)) w) as (w' & Hd & Hst & Hrow).
  - done.
  - intros Hnil%(f_equal length). rewrite length_drop in Hnil. cbn in Hnil. unfold index in *. lia.
  - intros i op Hi. apply Hsteps. unfold index in *. lia.
  - intros i Hi. destruct (load_values_spec (length (cw_ops wf)) (checkpoints run)) as [_ Hl].
    destruct (load_values _ _ !! i) as [[v|]|] eqn:E; [|done..].
    apply Hl in E as [_ E]. rewrite Hcps in E by (unfold index in *; lia). done.
  - done.
  - exists r. split_and!; try done. unfold index. lia.
  - rewrite length_drop in Hst. exists w'. split_and!; [|done..].
    unfold executeClaim. rewrite io_bind_eq, catching_eq. unfold drive. rewrite Hwf.
    rewrite (proj2 (Z.ltb_ge _ 0)) by lia. fold index. by rewrite Hd.
Qed.

(** A failing step, exactly: see [failed_step_is_recorded]. *)
Lemma failed_step_stored run wf w r u st er :
  workflow eng (WorkflowName run) (Version run) = Some wf →
  uuid_in (ID run) = Some (ID run) → uuid_in (Token run) = Some (Token run) →
  0 <= StepIndex run → cw_ops wf !! Z.to_nat (StepIndex run) = Some (opStep st) →
  checkpoints run !! StepIndex run = None → 0 <= Attempt run < 2^31 - 1 →
  executeStepSafely (st_name st) (m_fn (o (S (w_tick w)))) = Err er →
  errors_Is er errLostLease = false →
  workflow_runs (w_db w) !! ID run = Some r → state r = RunLeased →
  lease_token r = Some (Token run) → lease_until r = Some u →
  (∀ n, clock_timestamp (m_env (o n)) (ID run) < u) →
  ∃ w' r', executeClaim o Error eng run w = (Ok (), w') ∧
    workflow_runs (w_db w') = <[ID run := r']> (workflow_runs (w_db w)) ∧
    step_checkpoints (w_db w') = step_checkpoints (w_db w) ∧
    state r' = (if max_attempts r <=? Attempt run + 1 then RunFailed else RunReady) ∧
    attempt r' = Attempt run + 1 ∧ step_index r' = step_index r ∧
    lease_token r' = None ∧ lease_failures r' = lease_failures r ∧
    last_error r' = Some (sanitizeError (Error er)) ∧
    next_run_at r' = now (m_env (o (3 + w_tick w))) +
      interval_ms (Milliseconds (backoffDuration (Attempt run + 1))).
Proof.
  intros Hwf Hid Htok Hpos Hop Hcp Hatt Hfn Hnl Hr Hs Ht Hu Hlease.
  assert (int64 (Attempt run + 1) = Attempt run + 1) as Hi64
    by (apply int64_id; unfold in_int64; lia).
  unfold executeClaim. rewrite io_bind_eq, catching_eq. unfold drive. rewrite Hwf.
  rewrite (proj2 (Z.ltb_ge _ 0)) by lia.
  rewrite (drop_S _ _ _ Hop). cbn [drive_from]. rewrite io_bind_eq, ctx_quiet.
  rewrite bool_decide_eq_false_2.
  2: { destruct (load_values_spec (length (cw_ops wf)) (checkpoints run)) as [_ Hl].
    destruct (load_values _ _ !! _) as [[v|]|] eqn:E; [|by intros [? ?]..].
    apply Hl in E as [_ E]. rewrite Z2Nat.id, Hcp in E by done. done. }
  rewrite io_bind_eq, runStep_quiet. cbn [next w_tick]. rewrite Hfn, Hnl.
  rewrite io_bind_eq, ctx_quiet. unfold failOrRetry. rewrite io_bind_eq. unfold wrapping.
  rewrite query_quiet, Hi64. cbn [w_db next log_call]. unfold env_at. cbn [w_tick next log_call].
  cbn [exec]. unfold Queries.failOrRetry.
  set (e := m_env (o _)). set (msg := sanitizeError (Error er)).
  assert (fence (ID run) (Token run) e (ID run) r = true) as Hf.
  { apply fence_spec. split_and!; try done. exists u. split; [done|apply Hlease]. }
  assert ((_ ← bind_int4 (Attempt run + 1); _ ← bind_text msg; mret ()) = Ok ()) as Hargs.
  { rewrite (proj2 (bind_int4_Ok _ (Attempt run + 1))) by (split; [done|lia]). cbn.
    by rewrite (proj2 (bind_text_Ok msg msg)) by (split; [done|apply sanitize_storable]). }
  rewrite (fenced_update_owned _ _ _ _ _ _ r) by done.
  eexists _, _. split; [done|]. cbn. by split_and!.
Qed.

(** The ways in which a step fails, with the error it gives. *)
Inductive step_fails (name : string) : fn_result → error → Prop :=
  | fails_error e : step_fails name (FnError e) e
  | fails_panic v stack :
      step_fails name (FnPanicked v stack)
        (Errorf ("durablepg: step %q panicked: %v" +:+ String "010" "%s") [name; v; stack])
  | fails_encoding e :
      step_fails name (FnOut (Err e)) (Wrapf "durablepg: marshal step %q output: %w" [name] e)
  | fails_encoding_panic v stack :
      step_fails name (FnOut (Panic v stack))
        (Errorf ("durablepg: step %q panicked: %v" +:+ String "010" "%s")
           [name; v; String.concat "" stack]).

End progress.
