(* ===== verification/Delivery.v ===== *)
(** * No lost wakeups

    [waitForEvent] and [EmitEvent] meet under the advisory lock of the event key.  A
    wait that parks has seen every event emitted before it, and every later emission
    wakes it; a wait that finds an event records it.  Faults, other runs, other keys
    and maintenance are unrestricted; emitters of the same key call [EmitEvent], and that
    the two exclude each other is proved from the locks that both transactions take. *)

From S2P Require Import Prelude GoText Json Types Builder Postgres Queries Store Statements.
From S2P Require Import Events Timing Effects Engine Worker Replay Client.
#[local] Open Scope sql_scope.

Section delivery.
Context `{Postgres}.

(** ** Events of a key *)

(** The statement adds an event with this key. *)
Definition emits (key : string) (x : other) : Prop :=
  match x with
  | Other _ s _ => match s with EmitEvent_ key' _ _ _ => key' = key | _ => False end
  end.
#[global] Instance emits_dec key x : Decision (emits key x).
Proof. destruct x as [X s e]. destruct s; cbn; apply _. Defined.

(** Every event of [key] in [d'] is in [d] already. *)
Definition no_new_events (key : string) (d d' : db) : Prop :=
  ∀ i ev, event_log d' !! i = Some ev → event_key ev = key → event_log d !! i = Some ev.

#[global] Instance no_new_events_preorder key : PreOrder (no_new_events key).
Proof. split; [by intros d i ev|]. intros d1 d2 d3 H1 H2 i ev Hi Hk. apply H1; [by apply H2|done]. Qed.

Lemma exec_no_new_events key x d : ¬ emits key x → no_new_events key d (run_other d x).
Proof.
  destruct x as [X s e]. intros Hx i ev. destruct s; cbn [run_other exec snd] in *; try done;
    try (unfold insertRun, Queries.completeRun, parkSleep, parkWait, Queries.failOrRetry, fenced_update,
      renewLeases, Queries.commitStep, cancelRun, latestEvent, claimSingle, claimMulti;
      repeat case_match; done).
  - unfold emitEvent. case_match eqn:Hb; [|done..]. destruct a as [key' payload']. cbn in *.
    invert_outcome. apply bind_text_Ok in H0 as [-> _].
    intros [[_ <-]|[_ Hi]]%lookup_insert_Some; [done|done].
  - unfold pruneEvents. cbn. by intros [Hi _]%map_lookup_filter_Some.
Qed.

Lemma tx_no_new_events key t d :
  Forall (λ x, ¬ emits key x) t → no_new_events key d (foldl run_other d t).
Proof.
  intros Ht. revert d. induction Ht as [|x t Hx _ IH]; intros d; [done|]. cbn.
  etrans; [by apply exec_no_new_events|apply IH].
Qed.

(** Who emits the key takes the lock [k], which the open transaction holds. *)
Lemma interfere_no_new_events key k w m :
  k ∈ advisory_locks (pending w) →
  (∀ t, t ∈ m_others m → Exists (emits key) t → k ∈ advisory_locks t) →
  no_new_events key (w_db w) (w_db (interfere w m)).
Proof.
  intros Hk Ht. apply (interfere_preserves (no_new_events key (w_db w))); [|done].
  intros d t Hin Hlocks _ Hd. etrans; [exact Hd|]. apply tx_no_new_events.
  destruct (decide (Exists (emits key) t)) as [He|Hn].
  - rewrite Forall_forall in Hlocks. by destruct (Hlocks k (Ht t Hin He)).
  - by apply not_Exists_Forall; [apply _|].
Qed.

(** ** Effects that succeed, exactly *)

Lemma latestEvent_rows key e d er :
  isNoRows er = true → (exec (LatestEvent key) e d).1 ≠ Err er.
Proof.
  cbn [exec]. unfold latestEvent, bind_text. destruct (storable _); cbn; [done|].
  intros Hn [= <-]. done.
Qed.

Section waiter.
Context (o : nat → moment) (eng : Engine) (run : claimedRun).

(** The world in which the next effect acts. *)
Notation here w := (interfere w (o (w_tick w))).
Notation env_here w := (m_env (o (w_tick w))).

Lemma query_tx_Ok {X} (s : stmt X) w a w' :
  query o Tx s w = (Ok a, w') →
  (exec s (env_here w) (view (here w))).1 = Ok a ∧
  w' = set_tx (Some (pending (here w) ++ [Other X s (env_here w)])) (here w).
Proof.
  unfold query, effect. destruct (m_fault _); [|done..]. intros [= E <-]. by rewrite E.
Qed.

Lemma begin_tx_Ok w w' : begin_tx o w = (Ok (), w') → w' = set_tx (Some []) (here w).
Proof. unfold begin_tx, effect. destruct (m_fault _); [|done..]. by intros [= <-]. Qed.

Lemma commit_tx_Ok w w' :
  commit_tx o w = (Ok (), w') → w' = set_tx None (set_db (view (here w)) (pending (here w)) (here w)).
Proof. unfold commit_tx, effect. destruct (m_fault _); [|done..]. by intros [= <-]. Qed.

(** A lookup without a row, when no fault passes for one. *)
Lemma query_row_tx_none {X} (s : stmt (option X)) w er w' :
  (∀ n e, m_fault (o n) = FailBefore e ∨ m_fault (o n) = FailAfter e → isNoRows e = false) →
  (exec s (env_here w) (view (here w))).1 ≠ Err er ∨ isNoRows er = false →
  query_row o Tx s w = (Err er, w') → isNoRows er = true →
  (exec s (env_here w) (view (here w))).1 = Ok None ∧
  w' = set_tx (Some (pending (here w) ++ [Other _ s (env_here w)])) (here w).
Proof.
  intros Hf Hne. unfold query_row. rewrite io_bind_eq. unfold query, effect.
  destruct (m_fault _) eqn:Em.
  - destruct ((exec s (env_here w) (view (here w))).1) as [[x|]|e|msg l]; cbn; [done|..|done].
    + by intros [= <- <-].
    + intros [= <- <-] Hn. destruct Hne as [?|?]; [done|congruence].
  - intros [= <- <-] Hn. rewrite (Hf _ _ (or_introl Em)) in Hn. done.
  - intros [= <- <-] Hn. rewrite (Hf _ _ (or_intror Em)) in Hn. done.
Qed.

(** ** The waiter's transaction *)

(** No driver or network error is [pgx.ErrNoRows], which only an empty result is. *)
Definition honest_faults : Prop :=
  ∀ n e, m_fault (o n) = FailBefore e ∨ m_fault (o n) = FailAfter e → isNoRows e = false.

(** The statements of a program that have taken effect. *)
Definition executed (w : world) : list other :=
  omap (λ p, match p with (Mine, x) => Some x | _ => None end) (w_log w).

(** The transaction of a call of [EmitEvent], by any engine of the schema. *)
Definition emission (t : list other) : Prop :=
  ∃ o' eng' key payload w a w', schema eng' = schema eng ∧ w_tx w = None ∧ w_log w = [] ∧
    EmitEvent o' eng' key payload w = (a, w') ∧ t = executed w'.

(** Whoever emits [key] calls [EmitEvent]. *)
Definition emitters (key : string) : Prop :=
  ∀ n t, t ∈ m_others (o n) → Exists (emits key) t → emission t.

Lemma executed_st w w' : st w' = st w → executed w' = executed w.
Proof. intros E. unfold executed. by rewrite (f_equal snd E : w_log w' = w_log w). Qed.
Lemma executed_after o' w w' : after o' w w' → executed w' = executed w.
Proof.
  intros [Hst _ _ _]. unfold executed. change (w_log w') with (st w').2. change (w_log w) with (st w).2.
  induction Hst as [|x y z (t & _ & ->) _ IH]; [done|]. rewrite IH. cbn. by rewrite omap_app, app_nil_r.
Qed.
Lemma executed_set_db d t w : executed (set_db d t w) = executed w ++ t.
Proof.
  unfold executed. cbn. rewrite omap_app. f_equal. induction t as [|x t IH]; [done|]. cbn. by rewrite IH.
Qed.

(** A transaction with the statements [l], when [log] had been executed. *)
Definition in_tx (log l : list other) (w : world) : Prop := executed w = log ∧ w_tx w = Some l.

Lemma begin_in_tx o' f args w b w' :
  wrapping f args (begin_tx o') w = (b, w') →
  executed w' = executed w ∧ (is_ok b = true → in_tx (executed w) [] w').
Proof.
  intros (b0 & (wi & Ha & Hb)%begin_tx_spec & Hbb)%wrapping_spec. apply executed_after in Ha.
  destruct b as [[]|er|msg l]; [subst b0 w'|destruct Hbb as (e & -> & _); subst w'|by subst b0]; done.
Qed.

Lemma query_in_tx {X} o' f args (s : stmt X) log l w b w' :
  in_tx log l w → wrapping f args (query o' Tx s) w = (b, w') →
  executed w' = log ∧ (is_ok b = true → ∃ e, in_tx log (l ++ [Other X s e]) w').
Proof.
  intros [Hl Htx] (b0 & (wi & Ha & Hb)%query_tx & Hbb)%wrapping_spec.
  pose proof (af_tx _ _ _ Ha) as Htxi. apply executed_after in Ha. rewrite Hl in Ha.
  destruct b as [x|er|msg m]; [subst b0|destruct Hbb as (e & -> & _); subst w'|subst b0 w']; [|done..].
  destruct Hb as (e & _ & ->). split; [done|]. intros _. exists e. split; [done|].
  cbn. unfold pending. by rewrite Htxi, Htx.
Qed.

Lemma emission_committed o' f args log l w b w' :
  in_tx log l w → wrapping f args (commit_tx o') w = (b, w') → executed w' = log ∨ executed w' = log ++ l.
Proof.
  intros [Hl Htx] (b0 & (wi & Ha & Hb)%commit_tx_spec & _)%wrapping_spec.
  pose proof (af_tx _ _ _ Ha) as Htxi. apply executed_after in Ha. rewrite Hl in Ha.
  assert (executed (set_tx None (set_db (view wi) (pending wi) wi)) = log ++ l) as Hdone.
  { change (executed (set_db (view wi) (pending wi) wi) = log ++ l).
    rewrite executed_set_db, Ha. unfold pending. by rewrite Htxi, Htx. }
  destruct b0; [subst w'|destruct Hb as [->| ->]|done]; auto.
Qed.

(** It takes the lock of its key before it emits, or emits nothing. *)
Lemma EmitEvent_executed o' eng' key payload w a w' :
  executed w = [] → EmitEvent o' eng' key payload w = (a, w') →
  executed w' = [] ∨ ∃ e1 e2 raw, executed w' = [Other _ (LockEventKey (schema eng') (TrimSpace key)) e1;
    Other _ (EmitEvent_ (TrimSpace key) raw (Milliseconds (eventTTL eng')) (channel eng')) e2].
Proof.
  intros H0 Hx. unfold EmitEvent in Hx. set (k := TrimSpace key) in *.
  rewrite io_bind_eq in Hx. unfold lift in Hx.
  destruct (guard_err _ _) as [[]|er|msg l]; [|by injection Hx as <- <-; left..].
  rewrite io_bind_eq in Hx. destruct (wrapping _ _ _ w) as [b w1] eqn:E.
  assert (w1 = w) as -> by (unfold wrapping in E; by destruct payload; injection E as <- <-).
  destruct b as [raw|er|msg l]; [|by injection Hx as <- <-; left..]. clear E.
  rewrite io_bind_eq in Hx. destruct (wrapping _ _ _ w) as [b w1] eqn:E.
  apply begin_in_tx in E as [E Htx]. rewrite H0 in *.
  destruct b as [[]|er|msg l]; [|by injection Hx as <- <-; left..]. specialize (Htx eq_refl).
  unfold deferring in Hx. destruct ((_ ← wrapping _ _ _; _) _) as [c w3] eqn:E3.
  injection Hx as -> <-. change (executed (rollback w3)) with (executed w3).
  rewrite io_bind_eq in E3. destruct (wrapping _ _ _ _) as [b w4] eqn:E4.
  apply (query_in_tx _ _ _ _ _ _ _ _ _ Htx) in E4 as [E4 Htx4].
  destruct b as [u|er|msg l]; [|by injection E3 as <- <-; left..]. destruct (Htx4 eq_refl) as (e1 & Htx5).
  rewrite io_bind_eq in E3. destruct (wrapping _ _ _ _) as [b w5] eqn:E5.
  apply (query_in_tx _ _ _ _ _ _ _ _ _ Htx5) in E5 as [E5 Htx6].
  destruct b as [u'|er|msg l]; [|by injection E3 as <- <-; left..]. destruct (Htx6 eq_refl) as (e2 & Htx7).
  rewrite io_bind_eq in E3. destruct (wrapping _ _ _ _) as [b w6] eqn:E6.
  apply (emission_committed _ _ _ _ _ _ _ _ Htx7) in E6.
  assert (w3 = w6) as -> by (by destruct b; injection E3 as <- <-).
  destruct E6 as [->| ->]; [by left|right; by eexists _, _, _].
Qed.

Lemma emission_locks key t : emission t → Exists (emits key) t → (schema eng, key) ∈ advisory_locks t.
Proof.
  intros (o' & eng' & key' & payload & w & a & w' & <- & Hn & Hlog & Hx & ->).
  apply EmitEvent_executed in Hx as [->|(e1 & e2 & raw & ->)];
    [by intros ?%Exists_nil| |by unfold executed; rewrite Hlog].
  intros [?|[Hk|?%Exists_nil]%Exists_cons]%Exists_cons; [done| |done]. cbn in Hk. subst. by left.
Qed.

Context (Hid : uuid_in (ID run) = Some (ID run)) (Htok : uuid_in (Token run) = Some (Token run)).

(** What a transaction that parked did: the tables its lookup read, and the tables its
    commit found. *)
Lemma waitForEvent_parked index key timeout complete w w' :
  w_tx w = None → honest_faults →
  waitForEvent o eng run index key timeout complete w = (Ok None, w') →
  let e n := m_env (o (n + w_tick w)) in
  ∃ wl wp wc, exec (LatestEvent key) (e 2%nat) (w_db wl) = (Ok None, w_db wl) ∧
    (emitters key → no_new_events key (w_db wl) (w_db wc)) ∧
    (∃ n, n ≠ 0 ∧ (exec (ParkWait (ID run) (Token run) (Z.of_nat index) key (Milliseconds timeout))
        (e 3%nat) (w_db wp)).1 = Ok n) ∧
    (∀ r, workflow_runs (exec (ParkWait (ID run) (Token run) (Z.of_nat index) key
        (Milliseconds timeout)) (e 3%nat) (w_db wp)).2 !! ID run = Some r →
      workflow_runs (w_db wp) !! ID run ≠ Some r → agree_on (ID run) (w_db wp) (w_db wc)) ∧
    w_db w' = (exec (ParkWait (ID run) (Token run) (Z.of_nat index) key (Milliseconds timeout))
      (e 3%nat) (w_db wc)).2.
Proof.
  intros Hn Hf Hw e. unfold waitForEvent in Hw.
  apply wrapping_bind_Ok in Hw as ([] & w1 & ->%begin_tx_Ok & Hw).
  unfold deferring in Hw. destruct ((_ ← wrapping _ _ _; _) _) as [a w2] eqn:E.
  injection Hw as -> <-. rename E into Hw.
  apply wrapping_bind_Ok in Hw as ([] & w3 & [_ ->]%query_tx_Ok & Hw).
  rewrite io_bind_eq, catching_eq in Hw. set (w3 := set_tx (Some (_ ++ _)) _) in Hw.
  assert (reads_only w3) as Hr3 by (constructor; [by split|constructor]).
  assert (w_tick w3 = 2 + w_tick w)%nat as Ht3 by done.
  assert ((schema eng, key) ∈ advisory_locks (pending w3)) as Hlk3 by (by left).
  clearbody w3. destruct (query_row o Tx _ w3) as [b w4] eqn:Eq.
  destruct b as [p|er|msg l]; [|destruct (negb (isNoRows er)) eqn:Hnr|done]; [|done|].
  { apply io_bind_Ok in Hw as (x & w5 & _ & Hw). apply wrapping_bind_Ok in Hw as (? & ? & _ & Hw). done. }
  apply negb_false_iff in Hnr.
  apply query_row_tx_none in Eq as [Hl ->]; [|done|by left; apply latestEvent_rows|done].
  set (wl := here w3) in *.
  assert (reads_only wl) as Hrl by exact Hr3.
  rewrite reads_only_view in Hl by done.
  apply wrapping_bind_Ok in Hw as (n & w5 & [Hp ->]%query_tx_Ok & Hw).
  set (w4 := set_tx _ wl) in *. assert (reads_only w4) as Hr4
    by (apply reads_only_snoc; [done|apply latestEvent_reads|done]).
  assert ((schema eng, key) ∈ advisory_locks (pending w4)) as Hlk4.
  { unfold pending at 1. cbn. unfold advisory_locks. rewrite omap_app. apply elem_of_app. by left. }
  assert (w_tick w4 = 3 + w_tick w)%nat as Ht4 by (cbn; by rewrite Ht3).
  assert (w_db w4 = w_db wl) as Hd4 by done. clearbody w4.
  set (wp := here w4) in *. assert (reads_only wp) as Hrp by exact Hr4.
  rewrite reads_only_view in Hp by done.
  apply lift_Ok in Hw as ([] & Hfen & Hw).
  apply wrapping_bind_Ok in Hw as ([] & w6 & ->%commit_tx_Ok & Hw). injection Hw as <-.
  rewrite Ht4 in Hp |- *. exists wl, wp. set (w5 := set_tx _ wp). exists (here w5).
  assert (w_tick w5 = 4 + w_tick w)%nat as Ht5 by (cbn; by rewrite Ht4).
  split_and!.
  - rewrite <-(latestEvent_reads key (e 2%nat) (w_db wl)) at 2. unfold e. rewrite <-Ht3, <-Hl.
    apply surjective_pairing.
  - intros Hem. assert (∀ m t, t ∈ m_others (o m) → Exists (emits key) t →
      (schema eng, key) ∈ advisory_locks t) as Hlocks by (intros; eapply emission_locks; eauto).
    etrans.
    + rewrite <-Hd4. apply (interfere_no_new_events key (schema eng, key) w4 (o (w_tick w4))); [done|].
      apply Hlocks.
    + apply (interfere_no_new_events key (schema eng, key) w5 (o (w_tick w5))); [|apply Hlocks].
      unfold pending. cbn. unfold advisory_locks. rewrite omap_app. apply elem_of_app. by left.
  - exists n. split; [|done]. intros ->. done.
  - intros r Hr Hne. apply (interfere_held w5). by eapply held_row.
  - change (S (3 + w_tick w)) with (4 + w_tick w)%nat. rewrite <-Ht5. generalize (o (w_tick w5)).
    intros m. unfold rollback, view. cbn [w_db set_tx set_db w_tx interfere].
    unfold pending, id, default. cbn [w5 w_tx set_tx interfere].
    by rewrite foldl_app, (reads_same _ _ Hrp).
Qed.

(** A fenced statement that found its row found it under the lease. *)
Lemma fenced_update_found id token args f e d n :
  uuid_in id = Some id → uuid_in token = Some token →
  (fenced_update id token args f e d).1 = Ok n → n ≠ 0 →
  args = Ok () ∧ ∃ r, workflow_runs d !! id = Some r ∧ fence id token e id r = true.
Proof.
  intros Hi Ht Hans Hn. assert (args = Ok ()) as ->.
  { unfold fenced_update in Hans. by destruct args as [[]| |]. }
  split; [done|]. destruct (workflow_runs d !! id) as [r|] eqn:Hr.
  - destruct (fence id token e id r) eqn:Hfe; [by exists r|].
    rewrite not_owns_fenced_update in Hans; [by injection Hans|done..|].
    intros (r' & Hr' & Hf'). congruence.
  - rewrite not_owns_fenced_update in Hans; [by injection Hans|done..|].
    intros (r' & Hr' & _). congruence.
Qed.

(** The row that parking writes. *)
Definition parked_row (index : nat) (key : string) (deadline : Z) (r : Postgres.run) : Prop :=
  state r = RunWaitingEvent ∧ waiting_event_key r = Some key ∧ waiting_deadline r = Some deadline ∧
  step_index r = Z.of_nat index ∧ lease_token r = None.

Lemma parking_writes index key timeout e dp dc n :
  (exec (ParkWait (ID run) (Token run) (Z.of_nat index) key (Milliseconds timeout)) e dp).1 = Ok n →
  n ≠ 0 →
  (∀ r, workflow_runs (exec (ParkWait (ID run) (Token run) (Z.of_nat index) key
      (Milliseconds timeout)) e dp).2 !! ID run = Some r →
    workflow_runs dp !! ID run ≠ Some r → agree_on (ID run) dp dc) →
  ∃ r, workflow_runs (exec (ParkWait (ID run) (Token run) (Z.of_nat index) key
      (Milliseconds timeout)) e dc).2 !! ID run = Some r ∧
    parked_row index key (now e + interval_ms (Milliseconds timeout)) r.
Proof.
  cbn [exec]. unfold parkWait. intros Hans Hn Hheld.
  destruct (fenced_update_found _ _ _ _ _ _ _ Hid Htok Hans Hn) as (Hargs & r & Hr & Hfe).
  assert (workflow_runs dc !! ID run = Some r) as Hrc.
  { rewrite (fenced_update_owned _ _ _ _ _ _ r) in Hheld by done. cbn in Hheld.
    rewrite lookup_insert_eq in Hheld. destruct (Hheld _ eq_refl) as [-> _]; [|done].
    rewrite Hr. intros [= E]. apply (f_equal state) in E. cbn in E.
    apply fence_spec in Hfe as (_ & Hs & _). congruence. }
  rewrite (fenced_update_owned _ _ _ _ _ _ r) by done. cbn. rewrite lookup_insert_eq.
  eexists. split; [done|]. by split_and!.
Qed.

(** ** Properties *)

(** C12: a wait that parks misses no event.  When the transaction commits, no unexpired
    event of its key is in the log - every one emitted before would have been found -
    and the run waits for the key with its lease given up; and any emission of the key
    before the deadline, however the outcome of other runs, wakes it: the run becomes
    ready and due with an outcome recorded at the wait, its queue notified.  Statements of
    any party and faults may interleave anywhere, calls of [EmitEvent] with the same key
    by engines of the schema included: the advisory lock that both transactions take
    makes them wait. *)
Theorem parked_wait_misses_no_event index key timeout complete w w' :
  w_tx w = None → honest_faults → storable (s2b key) = true →
  emitters key →
  waitForEvent o eng run index key timeout complete w = (Ok None, w') →
  (∀ i ev, event_log (w_db w') !! i = Some ev → event_key ev = key →
     expires_at ev <= now (m_env (o (2 + w_tick w)))) ∧
  ∃ r deadline, workflow_runs (w_db w') !! ID run = Some r ∧ state r = RunWaitingEvent ∧
    waiting_event_key r = Some key ∧ waiting_deadline r = Some deadline ∧
    deadline = now (m_env (o (3 + w_tick w))) + interval_ms (Milliseconds timeout) ∧
    step_index r = Z.of_nat index ∧ lease_token r = None ∧
    ∀ payload v ttl ch e, jsonb_in payload = Some v → now e < deadline →
      let d' := (exec (EmitEvent_ key payload ttl ch) e (w_db w')).2 in
      (∃ r', workflow_runs d' !! ID run = Some r' ∧ state r' = RunReady ∧
         next_run_at r' = now e ∧ step_index r' = Z.of_nat index) ∧
      step_checkpoints d' !! (ID run, Z.of_nat index) =
        Some (default (jsonb_build_received v)
                (step_checkpoints (w_db w') !! (ID run, Z.of_nat index))) ∧
      (ch, queue r) ∈ notifications d'.
Proof.
  intros Hn Hf Hk Hlock Hw.
  apply waitForEvent_parked in Hw as (wl & wp & wc & Hl & Hev & (n & Hn0 & Hp) & Hheld & Hdb); [|done..].
  split.
  - intros i ev Hi Hkey. rewrite Hdb in Hi. cbn [exec] in Hi. unfold parkWait in Hi.
    rewrite (proj1 (proj2 (fenced_update_rest _ _ _ _ _ _))) in Hi.
    apply (Hev Hlock i ev) in Hi; [|exact Hkey].
    cbn [exec] in Hl. destruct (latestEvent_spec key (m_env (o (2 + w_tick w))) (w_db wl) Hk)
      as [(j & ev' & _ & E)|[Hnone _]]; [by rewrite E in Hl|].
    apply Hnone in Hi. unfold live_event in Hi. rewrite bool_decide_eq_true_2 in Hi by done.
    cbn in Hi. by bool_to_prop.
  - destruct (parking_writes _ _ _ _ _ _ _ Hp Hn0 Hheld) as (r & Hr & Hs & Hkey & Hdl & Hi & Ht).
    rewrite <-Hdb in Hr. eexists r, _. split_and!; [done..|].
    intros payload v ttl ch e Hv Hlate. cbn [exec].
    destruct (emitEvent_Ok key payload v ttl ch e (w_db w') Hk Hv) as (_ & Hruns & Hcps & _ & Hnot).
    assert (waiting_on key e (ID run) r = true) as Hon by (apply waiting_on_spec; eauto).
    assert (affected (waiting_on key e) (workflow_runs (w_db w')) !! ID run = Some r) as Ha
      by by apply lookup_affected.
    split_and!.
    + rewrite Hruns, Hr. cbn. rewrite Hon. eexists. by split_and!.
    + rewrite Hcps, <-Hi. by apply recorded_hit.
    + rewrite Hnot, elem_of_app. right. apply list_elem_of_fmap. exists (queue r).
      split; [done|]. apply elem_of_distinct_queues. eauto.
Qed.

(** The worlds of a delivery: what the lookup read, and what the commit found. *)
Lemma waitForEvent_delivered index key timeout complete w v w' :
  w_tx w = None → waitForEvent o eng run index key timeout complete w = (Ok (Some v), w') →
  ∃ wl p ex e dc, rtc db_step (w_db w) (w_db wl) ∧ rtc db_step (w_db wl) dc ∧
    exec (LatestEvent key) (m_env (o (2 + w_tick w))) (w_db wl) = (Ok (Some p), w_db wl) ∧
    v = default (received_raw p) ex ∧
    exec (CommitStep (ID run) (Token run) (Z.of_nat index) (received_raw p) complete) e dc =
      (Ok (Some ex), w_db w').
Proof.
  intros Hn Hw. unfold waitForEvent in Hw.
  apply wrapping_bind_Ok in Hw as ([] & w1 & ->%begin_tx_Ok & Hw).
  unfold deferring in Hw. destruct ((_ ← wrapping _ _ _; _) _) as [a w2] eqn:E.
  injection Hw as -> <-. rename E into Hw.
  apply wrapping_bind_Ok in Hw as ([] & w3 & [_ ->]%query_tx_Ok & Hw).
  rewrite io_bind_eq, catching_eq in Hw. set (w3 := set_tx (Some (_ ++ _)) _) in Hw.
  assert (reads_only w3) as Hr3 by (constructor; [by split|constructor]).
  assert (w_tick w3 = 2 + w_tick w)%nat as Ht3 by done.
  assert (rtc db_step (w_db w) (w_db w3)) as Hd3.
  { cbn. etrans; [apply (interfere_steps w (o (w_tick w)))|].
    apply (interfere_steps (set_tx (Some []) (here w))). }
  clearbody w3. destruct (query_row o Tx _ w3) as [b w4] eqn:Eq.
  destruct b as [p|er|msg l]; [|destruct (negb (isNoRows er)); [done|]|done].
  2: { apply wrapping_bind_Ok in Hw as (? & ? & _ & Hw). apply lift_Ok in Hw as (? & _ & Hw).
    apply wrapping_bind_Ok in Hw as (? & ? & _ & Hw). done. }
  unfold query_row in Eq. apply io_bind_Ok in Eq as (x & w5 & [Hl ->]%query_tx_Ok & Eq).
  destruct x as [x|]; [|done]. injection Eq as -> <-.
  set (wl := here w3) in *. assert (reads_only wl) as Hrl by exact Hr3.
  rewrite reads_only_view in Hl by done. set (w4 := set_tx _ wl) in *.
  assert (reads_only w4) as Hr4 by (apply reads_only_snoc; [done|apply latestEvent_reads|done]).
  assert (w_db w4 = w_db wl) as Hd4 by done. clearbody w4.
  apply io_bind_Ok in Hw as (v' & w5 & Hc & Hw).
  apply (commitStep_tx o) in Hc as (wi & Ha & e & ex & Hans & -> & ->).
  assert (reads_only wi) as Hri by by eapply reads_only_after.
  rewrite reads_only_view in Hans by done.
  apply wrapping_bind_Ok in Hw as ([] & w6 & Hc & [= <- <-]).
  apply (commit_wait_tx o) in Hc as (wc & Hac & _ & _ & Hdb%(f_equal fst)); [|done].
  change (w_db w6 = (exec (CommitStep (ID run) (Token run) (Z.of_nat index) (received_raw p) complete)
    e (w_db wc)).2) in Hdb.
  exists wl, p, ex, e, (w_db wc). split_and!.
  - etrans; [exact Hd3|]. apply (interfere_steps w3).
  - rewrite <-Hd4. etrans; [exact (af_db _ _ _ Ha)|]. exact (af_db _ _ _ Hac).
  - rewrite <-(latestEvent_reads key (m_env (o (2 + w_tick w))) (w_db wl)) at 2.
    rewrite <-Ht3, <-Hl. apply surjective_pairing.
  - done.
  - pose proof (commit_holds run Hid Htok wi index _ complete e ex Hri Hans) as Hheld.
    pose proof (af_held _ _ _ Hac _ Hheld) as Hagree. cbn in Hagree.
    pose proof (commit_local run Hid Htok _ _ _ _ _ _ _ Hagree Hans) as Hans'.
    cbn [w_db rollback set_tx]. rewrite Hdb, <-Hans'. apply surjective_pairing.
Qed.

(** C13: a wait that is delivered takes the most recent unexpired event of its key that
    is in the log at the lookup, and records it in the same transaction, under the
    lease: the checkpoint holds the payload, the cursor moves past the wait, and a
    last operation completes the run with it.  When the position has an outcome
    already, that one is kept and answered. *)
Theorem delivered_wait_records_newest_event index key timeout complete w v w' :
  w_tx w = None → storable (s2b key) = true →
  waitForEvent o eng run index key timeout complete w = (Ok (Some v), w') →
  ∃ d i ev dc t r, rtc db_step (w_db w) d ∧ rtc db_step d dc ∧
    newest_live key (m_env (o (2 + w_tick w))) d i ev ∧
    (v = received_raw (payload_json ev) ∧ jsonb_in v = Some t ∧
       step_checkpoints dc !! (ID run, Z.of_nat index) = None ∨
     v = t ∧ step_checkpoints dc !! (ID run, Z.of_nat index) = Some t) ∧
    step_checkpoints (w_db w') = <[(ID run, Z.of_nat index) := t]> (step_checkpoints dc) ∧
    workflow_runs (w_db w') !! ID run = Some r ∧ step_index r = Z.of_nat index + 1 ∧
    (if complete then state r = RunCompleted ∧ output_json r = Some t
     else state r = RunLeased ∧ lease_token r = Some (Token run)).
Proof.
  intros Hn Hk Hw.
  apply waitForEvent_delivered in Hw as (wl & p & ex & e & dc & Hd & Hdc & Hl & -> & Hex); [|done].
  cbn [exec] in Hl, Hex.
  destruct (latestEvent_spec key (m_env (o (2 + w_tick w))) (w_db wl) Hk) as [(i & ev & Hnew & E)|[_ E]];
    rewrite Hl in E; [injection E as ->|done].
  apply commitStep_Some_inv in Hex as (r & t & Hr & Hf & _ & Hv & _ & -> & Hw'); [|done..].
  apply fence_spec in Hf as (_ & Hs & Ht & _).
  exists (w_db wl), i, ev, dc, (default t (step_checkpoints dc !! (ID run, Z.of_nat index))).
  eexists. split_and!; [done..| | | | |].
  - destruct (step_checkpoints dc !! _) as [u|] eqn:Eu; [by right|by left].
  - by rewrite Hw'.
  - rewrite Hw'. cbn. by rewrite lookup_insert_eq.
  - done.
  - by destruct complete.
Qed.
End waiter.
End delivery.
