(* ===== verification/Contexts.v ===== *)
(** * What a step sees

    The outcome of a wait, from the statement or the transaction that records it to what
    [Event] answers in the steps behind it, of the same claim and of later ones; and the
    idempotency keys of steps. *)

From S2P Require Import Prelude GoText Json Types Builder Postgres Queries Store Statements.
From S2P Require Import Events Timing Effects Engine Worker Replay Invariant Loading Delivery.

Section contexts.
Context `{Postgres} `{!PostgresLaws}.

(** [Event] answers a payload, decoded by the caller, or that there was none in time. *)
Definition answers (sc : StepContext) (wait : string) (x : option (list ascii)) : Prop :=
  ∀ T (unmarshal : list ascii → error + T),
  Event (Some sc) wait (Some unmarshal) =
    match x with
    | Some payload =>
      match unmarshal payload with
      | inr v => {| dec_ok := true; dec_err := None; dec_dst := Some v |}
      | inl e => {| dec_ok := true; dec_err := Some (Wrapf "decode event payload %q: %w" [wait] e);
                    dec_dst := None |}
      end
    | None => {| dec_ok := false; dec_err := None; dec_dst := None |}
    end.

Lemma dq_not_brace v w : s2b "{" ++ v ≠ dquote :: w.
Proof. by intros [=]. Qed.

Lemma answers_payload sc wait payload sp :
  json_value jsonb_depth payload → sp = [] ∨ sp = s2b " " →
  sc_raw sc wait = Some (s2b "{" ++ received_text sp payload) → answers sc wait (Some payload).
Proof.
  intros Hv Hsp Hr T unmarshal. pose proof jsonb_depth_bound as Hd.
  unfold Event. rewrite Hr, bool_decide_eq_false_2 by apply dq_not_brace.
  rewrite (unmarshal_received_text jsonb_depth) by (done || lia). done.
Qed.

(** The three texts an outcome has in memory or in the table. *)
Lemma answers_raw sc wait s payload :
  jsonb_in s = Some payload → sc_raw sc wait = Some (received_raw payload) →
  answers sc wait (Some payload).
Proof.
  intros Hp Hr. eapply (answers_payload _ _ _ []); [by eapply jsonb_in_value|by left|exact Hr].
Qed.
Lemma answers_built sc wait s payload :
  jsonb_in s = Some payload → sc_raw sc wait = Some (jsonb_build_received payload) →
  answers sc wait (Some payload).
Proof.
  intros Hp Hr. eapply (answers_payload _ _ _ (s2b " ")); [by eapply jsonb_in_value|by right|].
  by rewrite Hr, jsonb_build_received_text.
Qed.
Lemma answers_timed_out sc wait : sc_raw sc wait = Some timed_out_text → answers sc wait None.
Proof. intros Hr T unmarshal. unfold Event. by rewrite Hr. Qed.

(** A wait without an outcome - not reached, or not a wait of this workflow - is the error
    [ErrStepResultNotFound]. *)
Lemma event_absence {T} sc wait (dst : option (list ascii → error + T)) :
  sc_raw sc wait = None → ∃ e,
    Event (Some sc) wait dst = {| dec_ok := false; dec_err := Some e; dec_dst := None |} ∧
    errors_Is e ErrStepResultNotFound = true.
Proof. intros Hr. unfold Event. rewrite Hr. by eexists. Qed.

(** ** The wait at a position *)

Section wait.
Context (wf : compiledWorkflow) (Hwf : compiled_wf wf).
Context (wait : string) (index : nat) (Hname : cw_names wf !! wait = Some index).

Lemma wait_in_range : (index < length (cw_ops wf))%nat.
Proof. apply (cwf_names _ Hwf) in Hname as (op & Hop & _). by eapply lookup_lt_Some. Qed.

(** What a step behind the wait has of it. *)
Lemma sc_raw_at run vs i name raw :
  (index < i)%nat → vs !! index = Some (Some raw) →
  sc_raw (stepContext run wf vs i name) wait = Some raw.
Proof.
  intros Hi Hv. unfold sc_raw. cbn. rewrite Hname, length_take.
  pose proof (lookup_lt_Some _ _ _ Hv). rewrite (proj2 (Nat.leb_gt _ _)) by lia.
  by rewrite lookup_take_lt, Hv.
Qed.

(** Every claim that later loads the run [id] shows [x] to the steps behind the wait. *)
Definition later_claims_answer (id : string) (d : db) (x : option (list ascii)) : Prop :=
  ∀ d' run i name, rtc db_step d d' → mirrors d' run → ID run = id → (index < i)%nat →
    answers (stepContext run wf (load_values (length (cw_ops wf)) (checkpoints run)) i name) wait x.

Lemma later_claims id d t x :
  step_checkpoints d !! (id, Z.of_nat index) = Some t →
  (∀ sc, sc_raw sc wait = Some t → answers sc wait x) → later_claims_answer id d x.
Proof.
  intros Ht Hx d' run i name Hr Hm <- Hi. apply Hx, sc_raw_at; [done|].
  apply load_values_spec. split; [apply wait_in_range|].
  rewrite (mi_checkpoints _ _ Hm), (rtc_checkpoints _ _ _ _ Hr Ht). done.
Qed.

Lemma rtc_values_ok d d' : rtc db_step d d' → values_ok d → values_ok d'.
Proof. induction 1 as [|d d1 d2 (X & s & e & ->) _ IH]; [done|]. intros. by apply IH, exec_values_ok. Qed.

(** Who can record an outcome, and what is then read. *)
Lemma recorded_outcome {X} (s : stmt X) e d id t :
  step_checkpoints d !! (id, Z.of_nat index) = None →
  step_checkpoints (exec s e d).2 !! (id, Z.of_nat index) = Some t →
  match s with
  | EmitEvent_ _ emitted _ _ => ∃ payload, jsonb_in emitted = Some payload ∧ t = jsonb_build_received payload
  | PromoteTimedOut _ => t = timed_out_text
  | CommitStep _ _ _ value _ => jsonb_in value = Some t
  | _ => False
  end.
Proof.
  intros Hn. pose proof (exec_checkpoints_same s e d) as Hsame.
  destruct s; try (rewrite Hsame; congruence); clear Hsame; cbn [exec].
  - unfold emitEvent. case_match eqn:Hb; [|cbn; congruence..]. destruct a as [key' p'].
    invert_outcome. simplify_eq. match goal with Hx : bind_jsonb _ = _ |- _ => apply bind_jsonb_Ok in Hx as Hp end.
    cbn [snd step_checkpoints notify set_checkpoints].
    rewrite lookup_insert_new, Hn, lookup_checkpoints_at_cursor. intros Ht. eexists. split; [done|].
    repeat case_match; congruence.
  - intros Ht. destruct (commitStep_effect id0 token index0 value complete e d) as [E|(ex & d' & E)].
    { rewrite E in Ht. congruence. }
    revert Ht E. unfold Queries.commitStep. case_match eqn:Hb; [|done..]. destruct a as [[[id' tok'] i'] v'].
    case_match; [done|]. case_match; [|done..].
    cbn [snd step_checkpoints set_checkpoints set_runs]. rewrite lookup_insert_new, Hn.
    intros [_ <-]%lookup_singleton_Some _. invert_outcome. destruct x. invert_outcome. simplify_eq.
    by match goal with Hx : bind_jsonb _ = _ |- _ => apply bind_jsonb_Ok in Hx end.
  - unfold promoteTimedOut. cbn [snd step_checkpoints notify set_checkpoints].
    rewrite lookup_insert_new, Hn, lookup_checkpoints_at_cursor. repeat case_match; congruence.
Qed.

(** C34: a step reads of a wait what woke it.  When a statement records the outcome of the
    wait, the steps behind it get, in every claim that later loads the run, exactly the
    payload that was emitted - as PostgreSQL prints it - if the statement is an emission,
    and false without an error if it is a timeout; otherwise it is a worker's commit, of the
    value it has sent.
    When the worker itself delivers the wait, the steps behind it, of its own claim and of
    later ones, get the payload of the newest live event at the lookup, unless the position
    had an outcome already. *)
Theorem event_payload_round_trip :
  (∀ X (s : stmt X) e d id t,
     step_checkpoints d !! (id, Z.of_nat index) = None →
     step_checkpoints (exec s e d).2 !! (id, Z.of_nat index) = Some t →
     match s with
     | EmitEvent_ _ emitted _ _ =>
       ∃ payload, jsonb_in emitted = Some payload ∧ later_claims_answer id (exec s e d).2 (Some payload)
     | PromoteTimedOut _ => later_claims_answer id (exec s e d).2 None
     | CommitStep _ _ _ value _ => jsonb_in value = Some t
     | _ => False
     end) ∧
  ∀ (o : nat → moment) eng run key timeout complete w raw w' (vs : values) i name,
    uuid_in (ID run) = Some (ID run) → uuid_in (Token run) = Some (Token run) →
    storable (s2b key) = true → w_tx w = None → rtc db_step empty_db (w_db w) →
    waitForEvent o eng run index key timeout complete w = (Ok (Some raw), w') →
    length vs = length (cw_ops wf) → (index < i)%nat →
    (∃ d, rtc db_step (w_db w) d ∧ step_checkpoints d !! (ID run, Z.of_nat index) = Some raw) ∨
    ∃ d n ev, rtc db_step (w_db w) d ∧ newest_live key (m_env (o (2 + w_tick w)%nat)) d n ev ∧
      answers (stepContext run wf (<[index := Some raw]> vs) i name) wait (Some (payload_json ev)) ∧
      later_claims_answer (ID run) (w_db w') (Some (payload_json ev)).
Proof.
  split.
  - intros X s e d id t Hn Ht. pose proof (recorded_outcome s e d id t Hn Ht) as Hs.
    destruct s; try done.
    + destruct Hs as (p & Hp & ->). exists p. split; [done|]. eapply later_claims; [exact Ht|].
      intros sc. by eapply answers_built.
    + subst t. eapply later_claims; [exact Ht|intros sc; apply answers_timed_out].
  - intros o eng run key timeout complete w raw w' vs i name Hid Htok Hk Hn Hreach Hw Hlen Hi.
    apply (waitForEvent_delivered o eng run Hid Htok) in Hw as (wl & p & ex & e & dc & Hd & Hdc & Hl & -> & Hex);
      [|done].
    cbn [exec] in Hl, Hex.
    destruct (latestEvent_spec key (m_env (o (2 + w_tick w)%nat)) (w_db wl) Hk) as [(n & ev & Hnew & E)|[_ E]];
      rewrite Hl in E; [injection E as ->|done].
    apply commitStep_Some_inv in Hex as (r & t & _ & _ & _ & Hv & _ & -> & Hw'); [|done..].
    destruct (step_checkpoints dc !! (ID run, Z.of_nat index)) as [u|] eqn:Eu; cbn.
    { left. exists dc. split; [by etrans|done]. }
    right. exists (w_db wl), n, ev. destruct (rtc_values_ok empty_db (w_db wl)) as [_ Hev];
      [by etrans|exact (si_values ∅ _ (sys_inv_empty ∅))|]. destruct Hnew as (Hin & Hnew).
    destruct (Hev _ _ Hin) as [s Hs]. split_and!; [done|done| |].
    + eapply answers_raw; [exact Hs|]. apply sc_raw_at; [done|]. apply list_lookup_insert_eq.
      rewrite Hlen. apply wait_in_range.
    + apply (later_claims _ _ (jsonb_build_received (payload_json ev))).
      * rewrite Hw'. cbn. rewrite lookup_insert_eq. f_equal.
        eapply jsonb_in_received; [by eapply jsonb_in_canonical|exact Hv].
      * intros sc. by eapply answers_built.
Qed.
End wait.
End contexts.

(** ** Idempotency keys *)

Definition colon : ascii := ":".

Lemma split_first (c : ascii) x y x' y' :
  c ∉ x → c ∉ x' → x ++ c :: y = x' ++ c :: y' → x = x' ∧ y = y'.
Proof.
  revert x'. induction x as [|a x IH]; intros [|a' x'] Hx Hx' Heq; cbn in Heq; simplify_eq; try done.
  - set_solver.
  - set_solver.
  - destruct (IH x') as [-> ->]; [set_solver|set_solver|done|done].
Qed.

Lemma colon_not_itoa n : 0 <= n < 10 ^ 20 → colon ∉ itoa_bytes n.
Proof.
  intros (c & ds & -> & Hc & Hds & _)%itoa_bytes_nonneg Hin.
  assert (is_digit colon = true); [|by vm_compute in H].
  apply elem_of_cons in Hin as [<-|Hin]; [done|]. rewrite Forall_forall in Hds. by apply Hds.
Qed.

(** A run id that is a UUID has no colon. *)
Definition colon_free (s : string) : Prop := s ≠ "" ∧ colon ∉ s2b s.

(** The idempotency key of a step identifies it among all steps of all runs: two
    contexts have the same key exactly when they are of the same run, position and
    step name - so the key is the same on every retry and replay, and never shared. *)
Theorem idempotency_key_identifies_step run1 wf1 vs1 i1 n1 run2 wf2 vs2 i2 n2 :
  colon_free (ID run1) → colon_free (ID run2) →
  Z.of_nat i1 < 10 ^ 20 → Z.of_nat i2 < 10 ^ 20 →
  IdempotencyKey (Some (stepContext run1 wf1 vs1 i1 n1)) =
    IdempotencyKey (Some (stepContext run2 wf2 vs2 i2 n2)) ↔
  ID run1 = ID run2 ∧ i1 = i2 ∧ n1 = n2.
Proof.
  intros [Hne1 Hc1] [Hne2 Hc2] Hi1 Hi2.
  assert (∀ run wf vs i n, ID run ≠ "" →
    IdempotencyKey (Some (stepContext run wf vs i n)) = ID run +:+ ":" +:+ step_key i n) as Hkey.
  { intros run wf vs i n Hne. unfold IdempotencyKey. cbn.
    rewrite !bool_decide_eq_false_2; [done| |done].
    intros Hk%(f_equal (λ s, length (s2b s))). unfold step_key in Hk.
    rewrite !s2b_app, !length_app in Hk. cbn in Hk. lia. }
  rewrite !Hkey by done. split; [|by intros (-> & -> & ->)].
  intros Heq%(f_equal s2b). unfold step_key, itoa in Heq. rewrite !s2b_app, !s2b_b2s in Heq.
  change (s2b ":") with [colon] in Heq. cbn [app] in Heq.
  apply split_first in Heq as [HID Heq]; [|done..].
  apply split_first in Heq as [Hi Hn]; [|apply colon_not_itoa; lia..].
  split_and!.
  - by rewrite <-(b2s_s2b (ID run1)), HID, b2s_s2b.
  - apply itoa_inj in Hi; lia.
  - by rewrite <-(b2s_s2b n1), Hn, b2s_s2b.
Qed.
