(* ===== verification/Loops.v ===== *)
(** * The maintenance loops of a worker

    [batches] repeats a bounded statement until its backlog is gone, a second has
    passed or the batch limit is reached; [recoverExpiredLeases],
    [promoteTimedOutWaiters] and [pruneExpiredEvents] are its three uses.  The
    unbounded loops run a given number of ticks of their ticker and then see their
    context done; the errors they log are dropped. *)

From S2P Require Import Prelude GoText Json Types Builder Postgres Queries Store Statements.
From S2P Require Import Claims Events Timing Effects Engine Worker Replay Progress.
#[local] Open Scope sql_scope.

Section loops.
Context `{Postgres} (o : nat → moment) (eng : Engine).

Fixpoint batches (started : Z) (maxBatches : nat) (size : Z) (batch : io Z) : io () :=
  match maxBatches with
  | O => mret ()
  | S rest =>
    n ← batch;
    if n <? size then mret ()
    else
      t ← time_Now o;
      if Second <=? t - started then mret () else batches started rest size batch
  end.

Definition recoverExpiredLeases : io () :=
  started ← time_Now o;
  batches started 8 maintenanceBatch (query o Pool RecoverLeases).

Definition promoteTimedOutWaiters : io () :=
  started ← time_Now o;
  batches started 8 maintenanceBatch (r ← query o Pool (PromoteTimedOut (channel eng)); mret r.1).

Definition pruneExpiredEvents : io () :=
  started ← time_Now o;
  batches started 64 pruneBatch (query o Pool PruneEvents).

(** The closure [maintain] of [maintenanceLoop]. *)
Definition maintain : io () :=
  _ ← catching recoverExpiredLeases;
  _ ← catching promoteTimedOutWaiters;
  mret ().

Fixpoint repeat_io (ticks : nat) (body : io ()) : io () :=
  match ticks with
  | O => mret ()
  | S rest => _ ← body; repeat_io rest body
  end.

Definition maintenanceLoop (ticks : nat) : io () := _ ← maintain; repeat_io ticks maintain.

Definition retentionLoop (ticks : nat) : io () :=
  repeat_io ticks (_ ← catching pruneExpiredEvents; mret ()).

(** ** What one batch leaves *)

(** The rows that a maintenance statement may still take. *)
Definition backlog (lk : gset string) (P : string → run → bool) (d : db) : gmap string run :=
  affected (λ k r, P k r && bool_decide (k ∉ lk)) (workflow_runs d).

Lemma lookup_backlog lk P d k r :
  backlog lk P d !! k = Some r ↔ workflow_runs d !! k = Some r ∧ P k r = true ∧ k ∉ lk.
Proof. unfold backlog. by rewrite lookup_affected, andb_true_iff, bool_decide_eq_true. Qed.

Lemma length_candidates lk P key d :
  length (candidates lk P key (workflow_runs d)) = size (backlog lk P d).
Proof.
  unfold candidates, backlog, affected. rewrite length_fmap, length_map_to_list. f_equal.
  apply map_filter_ext. intros k r _. cbn. by rewrite !Is_true_true, andb_true_iff, bool_decide_eq_true.
Qed.

(** Taking a batch away. *)
Lemma batch_drains lk P key n f d :
  let picked := pick lk P key n (workflow_runs d) in
  (∀ k r, k ∈ picked → workflow_runs d !! k = Some r → P k (f k r) = false) →
  size (backlog lk P (set_runs (update_where (λ k _, bool_decide (k ∈ picked)) f (workflow_runs d)) d))
    = (size (backlog lk P d) - length picked)%nat.
Proof.
  intros picked Hf. rewrite <-!size_dom.
  assert (length picked = size (list_to_set (C := gset string) picked)) as ->.
  { rewrite size_list_to_set; [done|apply NoDup_pick]. }
  rewrite <-size_difference.
  - f_equal. apply set_eq. intros k. rewrite elem_of_difference, !elem_of_dom, elem_of_list_to_set.
    split.
    + intros [r (Hr & HP & Hlk)%lookup_backlog]. cbn in Hr. rewrite lookup_update_where in Hr.
      destruct (workflow_runs d !! k) as [r0|] eqn:E; [|done]. cbn in Hr.
      case_bool_decide as Hin; simplify_eq.
      * by rewrite (Hf k r0 Hin E) in HP.
      * split; [|done]. exists r. by apply lookup_backlog.
    + intros [[r (Hr & HP & Hlk)%lookup_backlog] Hin]. exists r. apply lookup_backlog. cbn.
      rewrite lookup_update_where, Hr. cbn. by rewrite bool_decide_eq_false_2.
  - intros k. rewrite elem_of_list_to_set, elem_of_dom. intros Hk.
    apply elem_of_pick in Hk as (r & ? & ? & ?). exists r. by apply lookup_backlog.
Qed.

(** An update that does not concern the backlog. *)
Lemma backlog_size_same lk P Q f d :
  (∀ k r, workflow_runs d !! k = Some r → Q k r = true → P k (f k r) = P k r) →
  size (backlog lk P (set_runs (update_where Q f (workflow_runs d)) d)) = size (backlog lk P d).
Proof.
  intros Hf. rewrite <-!size_dom. f_equal. apply set_eq. intros k. rewrite !elem_of_dom. split.
  - intros [r (Hr & HP & Hlk)%lookup_backlog]. cbn in Hr. rewrite lookup_update_where in Hr.
    destruct (workflow_runs d !! k) as [r0|] eqn:E; [|done]. cbn in Hr.
    exists r0. apply lookup_backlog. split_and!; [done| |done].
    destruct (Q k r0) eqn:HQ; simplify_eq; [by rewrite <-(Hf k r0)|done].
  - intros [r (Hr & HP & Hlk)%lookup_backlog].
    exists (if Q k r then f k r else r). apply lookup_backlog. cbn.
    rewrite lookup_update_where, Hr. split_and!; [done| |done].
    destruct (Q k r) eqn:HQ; [by rewrite Hf|done].
Qed.

Lemma length_batch lk P key n d :
  0 <= n → length (pick lk P key n (workflow_runs d)) = Nat.min (Z.to_nat n) (size (backlog lk P d)).
Proof. intros _. by rewrite length_pick, length_candidates. Qed.

(** ** Draining *)

Section drain.
Context (Hq : quiet o) (lk : gset string) (ts : Z).
Context (Henv : ∀ n, locked_runs (m_env (o n)) = lk ∧ statement_timestamp (m_env (o n)) = ts).

Lemma batches_drain (measure : db → nat) (J : db → Prop) size batch started :
  0 < size → (∀ n, m_now (o n) - started < Second) →
  (∀ w, J (w_db w) →
     ∃ w', batch w = (Ok (Z.of_nat (Nat.min (Z.to_nat size) (measure (w_db w)))), w') ∧
       measure (w_db w') = (measure (w_db w) - Z.to_nat size)%nat ∧ J (w_db w')) →
  ∀ k w, (measure (w_db w) ≤ k * Z.to_nat size)%nat → J (w_db w) →
  ∃ w', batches started k size batch w = (Ok (), w') ∧ measure (w_db w') = 0%nat ∧ J (w_db w').
Proof.
  intros Hs Ht Hb. induction k as [|k IH]; intros w Hm HJ; [exists w; split_and!; [done|lia|done]|].
  cbn [batches]. rewrite io_bind_eq. destruct (Hb w HJ) as (w1 & -> & Hm1 & HJ1).
  case_match eqn:E; bool_to_prop.
  - exists w1. split_and!; [done|lia|done].
  - rewrite io_bind_eq. unfold time_Now at 1, effect. rewrite interfere_quiet by done.
    specialize (Ht (w_tick w1)). rewrite (proj2 (Z.leb_gt _ _)) by done.
    apply IH; [cbn [next w_db]; lia|done].
Qed.

(** The leases that have expired at [ts], and the waits whose deadline has passed. *)
Definition expired_at (_ : string) (r : run) : bool :=
  bool_decide (state r = RunLeased) &&
  match lease_until r with Some u => u <? ts | None => false end.
Definition overdue_at (_ : string) (r : run) : bool :=
  bool_decide (state r = RunWaitingEvent) &&
  match waiting_deadline r with Some t => t <=? ts | None => false end.

Lemma batch_size (P : string → run → bool) key d :
  length (pick lk P key maintenanceBatch (workflow_runs d)) =
    Nat.min (Z.to_nat maintenanceBatch) (size (backlog lk P d)).
Proof. by apply length_batch. Qed.

Notation expired_count d := (size (backlog lk expired_at d)).
Notation overdue_count d := (size (backlog lk overdue_at d)).

Lemma recover_batch w :
  ∃ w', query o Pool RecoverLeases w =
      (Ok (Z.of_nat (Nat.min (Z.to_nat maintenanceBatch) (expired_count (w_db w)))), w') ∧
    expired_count (w_db w') = (expired_count (w_db w) - Z.to_nat maintenanceBatch)%nat ∧
    overdue_count (w_db w') = overdue_count (w_db w).
Proof.
  rewrite query_quiet by done. destruct (Henv (w_tick w)) as [Hlk Hts]. unfold env_at.
  assert (expired (m_env (o (w_tick w))) = expired_at) as Hex
    by (unfold expired, expired_at; by rewrite Hts).
  eexists. split.
  { cbn [exec recoverLeases fst]. rewrite Hlk, Hex. by rewrite batch_size. }
  cbn [exec snd w_db set_db]. unfold recoverLeases. cbn [snd]. rewrite Hlk, Hex. cbn [w_db next].
  split.
  - rewrite batch_drains; [rewrite batch_size; lia|].
    intros k r _ _. unfold expired_at. cbn. by case_match.
  - apply backlog_size_same. intros k r Hr Hp%bool_decide_eq_true.
    apply elem_of_pick in Hp as (r' & Hr' & Hp & _). simplify_eq. unfold expired_at in Hp.
    apply andb_prop in Hp as [Hs%bool_decide_eq_true _]. unfold overdue_at. cbn. rewrite Hs.
    by case_match.
Qed.


Lemma promote_batch w :
  ∃ w', (r ← query o Pool (PromoteTimedOut (channel eng)); mret r.1) w =
      (Ok (Z.of_nat (Nat.min (Z.to_nat maintenanceBatch) (overdue_count (w_db w)))), w') ∧
    overdue_count (w_db w') = (overdue_count (w_db w) - Z.to_nat maintenanceBatch)%nat ∧
    expired_count (w_db w') = expired_count (w_db w).
Proof.
  rewrite io_bind_eq, query_quiet by done. destruct (Henv (w_tick w)) as [Hlk Hts]. unfold env_at.
  assert (timed_out (m_env (o (w_tick w))) = overdue_at) as Hex
    by (unfold timed_out, overdue_at; by rewrite Hts).
  eexists. cbn [exec]. unfold promoteTimedOut. rewrite Hlk, Hex. cbn [w_db next fst snd]. split.
  { unfold mret, io_ret. by rewrite size_affected_picked, batch_size. }
  cbn [w_db set_db set_runs set_checkpoints notify].
  split; [etrans; [apply (batch_drains lk overdue_at)|rewrite batch_size; lia]|
          apply (backlog_size_same lk expired_at)].
  - intros k r _ _. unfold overdue_at. done.
  - intros k r Hr Hp%bool_decide_eq_true. apply elem_of_pick in Hp as (r' & Hr' & Hp & _).
    simplify_eq. unfold overdue_at in Hp. apply andb_prop in Hp as [Hs%bool_decide_eq_true _].
    unfold expired_at. cbn. rewrite Hs. by case_match.
Qed.

(** C20: one maintenance round drains its backlog.  Undisturbed and fast enough, with at
    most 8 batches of 1024 of each kind to do, it ends without an error and leaves no
    unlocked run whose lease has expired and none whose wait is overdue. *)
Theorem maintenance_drains_backlog w :
  (∀ i j, m_now (o i) - m_now (o j) < Second) →
  (expired_count (w_db w) ≤ 8 * Z.to_nat maintenanceBatch)%nat →
  (overdue_count (w_db w) ≤ 8 * Z.to_nat maintenanceBatch)%nat →
  ∃ w', maintain w = (Ok (), w') ∧
    ∀ k r, workflow_runs (w_db w') !! k = Some r → k ∉ lk →
      (∀ u, state r = RunLeased → lease_until r = Some u → ts <= u) ∧
      (∀ t, state r = RunWaitingEvent → waiting_deadline r = Some t → ts < t).
Proof.
  intros Ht He Ho. unfold maintain. rewrite io_bind_eq, catching_eq.
  unfold recoverExpiredLeases. rewrite io_bind_eq. unfold time_Now at 1, effect.
  rewrite interfere_quiet by done.
  destruct (batches_drain (λ d, expired_count d)
    (λ d, (overdue_count d ≤ 8 * Z.to_nat maintenanceBatch)%nat) maintenanceBatch
    (query o Pool RecoverLeases) (m_now (o (w_tick w))) ltac:(done) ltac:(done)
    ltac:(intros w0 HJ; destruct (recover_batch w0) as (w1 & E & Hm & Heq); exists w1;
      split_and!; [exact E|exact Hm|by rewrite Heq]) 8 (next w) He Ho) as (w1 & -> & He1 & Ho1).
  rewrite io_bind_eq, catching_eq. unfold promoteTimedOutWaiters. rewrite io_bind_eq.
  unfold time_Now at 1, effect. rewrite interfere_quiet by done.
  destruct (batches_drain (λ d, overdue_count d) (λ d, expired_count d = 0%nat) maintenanceBatch
    (r ← query o Pool (PromoteTimedOut (channel eng)); mret r.1) (m_now (o (w_tick w1)))
    ltac:(done) ltac:(done)
    ltac:(intros w0 HJ; destruct (promote_batch w0) as (w2 & E & Hm & Heq); exists w2;
      split_and!; [exact E|exact Hm|by rewrite Heq]) 8 (next w1) Ho1 He1) as (w2 & -> & Ho2 & He2).
  exists w2. split; [done|].
  apply map_size_empty_inv in Ho2, He2. intros k r Hr Hk. split; [intros u Hs Hu|intros t Hs Hd].
  - apply Z.nlt_ge. intros Hlt. assert (backlog lk expired_at (w_db w2) !! k = Some r) as Hb.
    { apply lookup_backlog. split_and!; [done| |done]. unfold expired_at.
      rewrite Hs, Hu. cbn. by apply Z.ltb_lt. }
    by rewrite He2, lookup_empty in Hb.
  - apply Z.nle_gt. intros Hle. assert (backlog lk overdue_at (w_db w2) !! k = Some r) as Hb.
    { apply lookup_backlog. split_and!; [done| |done]. unfold overdue_at.
      rewrite Hs, Hd. cbn. by apply Z.leb_le. }
    by rewrite Ho2, lookup_empty in Hb.
Qed.
End drain.
End loops.
