(* ===== verification/Heartbeat.v ===== *)
(** * The heartbeat

    [heartbeatLoop] of worker.go in its phases - planning a wake-up, waking, sending a
    renewal, applying its answer - and as a loop over its turns, over the lease table that
    the claims change between any two of its accesses.  [heartbeat_watches_every_lease] is
    about one turn, [heartbeat_keeps_healthy_claims] about all of them. *)

From S2P Require Import Prelude GoText Json Types Builder Postgres Queries Store Statements.
From S2P Require Import Claims Timing Leases Effects Engine Worker Replay.
#[local] Open Scope sql_scope.

Section heartbeat.
Context `{Postgres} (eng : Engine).

(** ** The loop body *)

(** [wakeAt], after [leases.expire(time.Now())]. *)
Definition hb_plan (parent : bool) (now nextRenewal : Z) (t : leaseTable) : leaseTable * Z :=
  let (t', earliest) := expire parent now t in
  (t', match earliest with
       | Some x => if x <? nextRenewal then x else nextRenewal
       | None => nextRenewal
       end).

(** What a wake-up at [now] does, up to [leases.expire(now)]: the table, the next renewal
    and, if this is a renewal, the earliest confirmed deadline. *)
Definition hb_wake (parent : bool) (now nextRenewal : Z) (t : leaseTable)
    : leaseTable * Z * option (option Z) :=
  if now <? nextRenewal then (t, nextRenewal, None)
  else
    let (t', earliest) := expire parent now t in
    (t', now + heartbeatEvery eng, Some earliest).

(** The renewal to send, from the [snapshot] on: run ids, tokens and the deadline of its
    context. *)
Definition hb_send (parent : bool) (now : Z) (earliest : option Z) (t : leaseTable)
    : option (list string * list string * Z) :=
  let (runIDs, tokens) := snapshot parent t in
  if bool_decide (tokens = []) then None
  else Some (runIDs, tokens, default (now + leaseTTL eng) earliest).

(** A renewal answered: [leases.applyRenewal(tokens, renewed, now.Add(e.leaseTTL))]. *)
Definition hb_renewed (now : Z) (tokens : list string) (renewed : gset string) (t : leaseTable)
    : leaseTable := applyRenewal tokens renewed (now + leaseTTL eng) t.

Definition renewLeases (o : nat → moment) (runIDs tokens : list string) : io (gset string) :=
  rows ← query o Pool (RenewLeases runIDs tokens (Milliseconds (leaseTTL eng)));
  mret (list_to_set rows).

(** ** The loop *)

(** One turn, with the clock's readings and what the claims do to the table meanwhile:
    before [expire], asleep, before [snapshot], during the renewal.  [hb_done]: the
    worker's context ends the sleep; [hb_cancelled]: it is why the renewal failed. *)
Record turn := {
  hb_before : list lease_op;
  hb_planned : Z;
  hb_asleep : list lease_op;
  hb_done : bool;
  hb_woken : Z;
  hb_between : list lease_op;
  hb_renewing : list lease_op;
  hb_answer : error + gset string;
  hb_cancelled : bool;
}.

(** The table when the turn sleeps, and when it wakes. *)
Definition turn_sleeps (tn : turn) (nextRenewal : Z) (t : leaseTable) : leaseTable * Z :=
  hb_plan false (hb_planned tn) nextRenewal (run_ops (hb_before tn) t).
Definition turn_wakes (tn : turn) (nextRenewal : Z) (t : leaseTable)
    : leaseTable * Z * option (option Z) :=
  hb_wake false (hb_woken tn) nextRenewal (run_ops (hb_asleep tn) (turn_sleeps tn nextRenewal t).1).

Definition turn_tokens (tn : turn) (earliest : option Z) (t : leaseTable) : list string :=
  match hb_send false (hb_woken tn) earliest (run_ops (hb_between tn) t) with
  | Some (_, tokens, _) => tokens
  | None => []
  end.

(** The rest of a turn, from [snapshot] on; without a next renewal the loop returns. *)
Definition turn_renews (tn : turn) (next : Z) (earliest : option Z) (t : leaseTable)
    : leaseTable * option Z :=
  let t := run_ops (hb_between tn) t in
  match hb_send false (hb_woken tn) earliest t with
  | None => (t, Some next)
  | Some (_, tokens, _) =>
    let t := run_ops (hb_renewing tn) t in
    match hb_answer tn with
    | inl _ => (t, if hb_cancelled tn then None else Some next)
    | inr renewed => (hb_renewed (hb_woken tn) tokens renewed t, Some next)
    end
  end.

(** A turn while the worker's context lasts; it ends the loop when it finds it done. *)
Definition heartbeat_turn (tn : turn) (nextRenewal : Z) (t : leaseTable) : leaseTable * option Z :=
  if hb_done tn then (run_ops (hb_asleep tn) (turn_sleeps tn nextRenewal t).1, None)
  else
    match turn_wakes tn nextRenewal t with
    | (t, next, None) => (t, Some next)
    | (t, next, Some earliest) => turn_renews tn next earliest t
    end.

(** The loop over its turns, started at [now]. *)
Fixpoint heartbeat_turns (turns : list turn) (nextRenewal : Z) (t : leaseTable) : leaseTable :=
  match turns with
  | [] => t
  | tn :: rest =>
    match heartbeat_turn tn nextRenewal t with
    | (t, Some next) => heartbeat_turns rest next t
    | (t, None) => t
    end
  end.
Definition heartbeatLoop (now : Z) (turns : list turn) (t : leaseTable) : leaseTable :=
  heartbeat_turns turns (now + heartbeatEvery eng) t.

(** ** Wake-ups *)

Lemma expire_live parent now t k en :
  (expire parent now t).1 !! k = Some en → ctx_done parent en = false →
  now < le_deadline en ∧ ∃ x, (expire parent now t).2 = Some x ∧ x <= le_deadline en.
Proof.
  destruct (expire_spec parent now t) as [Hl He]. rewrite Hl. intros Hk Hd.
  destruct (t !! k) as [en0|] eqn:E; [|done]. injection Hk as <-.
  assert (ctx_done parent en0 = false ∧ now < le_deadline en0 ∧
    expired_entry parent now en0 = en0) as (Hd0 & Hlt & Heq).
  { unfold expired_entry in *. destruct (ctx_done parent en0) eqn:Hd0; [congruence|].
    destruct (le_deadline en0 <=? now) eqn:Hle; bool_to_prop; [|done].
    unfold ctx_done in Hd. cbn in Hd. by rewrite orb_true_r in Hd. }
  rewrite Heq. split; [done|]. apply elem_of_map_to_list in E.
  destruct ((expire parent now t).2) as [x|]; cbn in He.
  - destruct He as (_ & _ & Hmin). exists x. split; [done|]. by apply (Hmin k).
  - pose proof (He k en0 E Hd0). lia.
Qed.

(** What is sent. *)
Lemma hb_send_spec parent now earliest t :
  match hb_send parent now earliest t with
  | Some (runIDs, tokens, bound) =>
    tokens ≠ [] ∧ length runIDs = length tokens ∧
    (∀ k, k ∈ tokens ↔ ∃ en, t !! k = Some en ∧ ctx_done parent en = false) ∧
    (∀ i id k, runIDs !! i = Some id → tokens !! i = Some k →
       ∃ en, t !! k = Some en ∧ le_runID en = id) ∧
    bound = default (now + leaseTTL eng) earliest
  | None => ∀ k en, t !! k = Some en → ctx_done parent en = true
  end.
Proof.
  unfold hb_send.
  assert (∀ k en, t !! k = Some en → ctx_done parent en = false → k ∈ (snapshot parent t).2)
    as Hcomplete by (intros; by eapply snapshot_complete).
  assert (∀ i id k, (snapshot parent t).1 !! i = Some id → (snapshot parent t).2 !! i = Some k →
    ∃ en, t !! k = Some en ∧ le_runID en = id ∧ ctx_done parent en = false) as Hsound
    by (intros; by eapply snapshot_spec).
  assert (length (snapshot parent t).1 = length (snapshot parent t).2) as Hlen
    by (cbn; by rewrite !length_fmap).
  destruct (snapshot parent t) as [ids tokens]. cbn [fst snd] in *. case_bool_decide as Hnil.
  - intros k en Hk. destruct (ctx_done parent en) eqn:Hd; [done|].
    pose proof (Hcomplete k en Hk Hd) as Hin. rewrite Hnil in Hin. by apply elem_of_nil in Hin.
  - split_and!; try done.
    + intros k. split; [|intros (en & ? & ?); eauto].
      intros [i Hi]%list_elem_of_lookup. destruct (ids !! i) as [id|] eqn:E.
      * destruct (Hsound i id k E Hi) as (en & ? & _ & ?). eauto.
      * apply lookup_ge_None in E. apply lookup_lt_Some in Hi. lia.
    + intros i id k Hi Hk. destruct (Hsound i id k Hi Hk) as (en & ? & ? & _). eauto.
Qed.

(** A claim that is inserted between [expire] and [snapshot] is renewed with the others,
    but the renewal may wait past its deadline. *)
Lemma late_claim_outlives_bound now id k deadline :
  deadline < now + leaseTTL eng →
  match hb_wake false now now newLeaseTable with
  | (t, _, Some earliest) =>
    hb_send false now earliest (run_ops [Inserted id k deadline] t) =
      Some ([id], [k], now + leaseTTL eng)
  | _ => False
  end.
Proof.
  unfold hb_wake, expire, newLeaseTable. rewrite Z.ltb_irrefl, map_to_list_empty. cbn.
  unfold hb_send, snapshot, live_entries, insert_lease. by rewrite insert_empty, map_to_list_singleton.
Qed.

(** C18: the heartbeat watches every lease.  A planned sleep ends no later than the next
    renewal and no later than any deadline still confirmed.  A wake-up before the next
    renewal does nothing; one at or after it schedules the next within the heartbeat
    interval and, whatever claims come and go before it looks, sends the run ids and
    tokens of exactly the claims running then.  The renewal is bounded by the deadlines of
    those that were there when it woke, so none of them waits for an answer past its
    deadline; nothing is sent only when no claim runs. *)
Theorem heartbeat_watches_every_lease parent now nextRenewal t :
  (let (t', wakeAt) := hb_plan parent now nextRenewal t in
   wakeAt <= nextRenewal ∧
   ∀ k en, t' !! k = Some en → ctx_done parent en = false →
     now < le_deadline en ∧ wakeAt <= le_deadline en) ∧
  match hb_wake parent now nextRenewal t with
  | (t', next, None) => now < nextRenewal ∧ t' = t ∧ next = nextRenewal
  | (t', next, Some earliest) =>
    nextRenewal <= now ∧ next = now + heartbeatEvery eng ∧
    ∀ ops, let t2 := run_ops ops t' in
    match hb_send parent now earliest t2 with
    | Some (runIDs, tokens, bound) =>
      tokens ≠ [] ∧ length runIDs = length tokens ∧
      (∀ k, k ∈ tokens ↔ ∃ en, t2 !! k = Some en ∧ ctx_done parent en = false) ∧
      (∀ i id k, runIDs !! i = Some id → tokens !! i = Some k →
         ∃ en, t2 !! k = Some en ∧ le_runID en = id) ∧
      ∀ k en, t' !! k = Some en → ctx_done parent en = false →
        now < le_deadline en ∧ bound <= le_deadline en
    | None => ∀ k en, t2 !! k = Some en → ctx_done parent en = true
    end
  end.
Proof.
  pose proof (expire_live parent now t) as Hlive. split.
  - unfold hb_plan. destruct (expire parent now t) as [t' o]. cbn [fst snd] in Hlive. split.
    + destruct o as [x|]; repeat case_match; bool_to_prop; lia.
    + intros k en Hk Hd. destruct (Hlive k en Hk Hd) as [? (x & -> & ?)]. split; [done|].
      case_match; bool_to_prop; lia.
  - unfold hb_wake. destruct (now <? nextRenewal) eqn:Hn; bool_to_prop; [done|].
    destruct (expire parent now t) as [t' o]. cbn [fst snd] in Hlive. split_and!; [done..|].
    intros ops. cbn zeta. generalize (run_ops ops t') as t2. intros t2.
    pose proof (hb_send_spec parent now o t2) as Hsend.
    destruct (hb_send parent now o t2) as [[[ids tokens] bound]|]; [|done].
    destruct Hsend as (? & ? & ? & ? & ->). split_and!; [done..|].
    intros k en Hk Hd. destruct (Hlive k en Hk Hd) as [? (x & -> & ?)]. by split.
Qed.

(** ** A healthy worker keeps its claims *)

Section healthy.
Context (k : string) (lag : Z) (m : nat).

(** The claim of [k] is inserted with a deadline counted from at most [lag] before
    [from]: the claim statement took no longer. *)
Definition claimed_since (from : Z) (xs : list lease_op) : Prop :=
  ∀ id D, Inserted id k D ∈ xs → from + leaseTTL eng - lag <= D.

(** The loop is not held up for more than [lag]: from the last wake-up to the next plan -
    a renewal's answer included - and from the time it sleeps until to the wake-up. *)
Definition prompt (from nextRenewal : Z) (tn : turn) : Prop :=
  from <= hb_planned tn <= from + lag ∧
  hb_planned tn <= hb_woken tn <= Z.max (hb_planned tn) nextRenewal + lag.

(** Since the last wake-up [from], and with [f] failed renewals before this turn in a row:
    each turn is prompt, and a renewal that sends [k] is answered with [k], except that up
    to [m] in a row may fail. *)
Fixpoint healthy (f : nat) (from nextRenewal : Z) (turns : list turn) (t : leaseTable) : Prop :=
  match turns with
  | [] => True
  | tn :: rest =>
    prompt from nextRenewal tn ∧
    claimed_since from (hb_before tn ++ hb_asleep tn ++ hb_between tn) ∧
    claimed_since (hb_woken tn) (hb_renewing tn) ∧
    match heartbeat_turn tn nextRenewal t, turn_wakes tn nextRenewal t with
    | (_, None), _ => True
    | (t', Some next), (_, _, None) => healthy f (hb_woken tn) next rest t'
    | (t', Some next), (t1, _, Some earliest) =>
      match hb_answer tn with
      | inr renewed => (k ∈ turn_tokens tn earliest t1 → k ∈ renewed) ∧ healthy 0 (hb_woken tn) next rest t'
      | inl _ => (f < m)%nat ∧ healthy (S f) (hb_woken tn) next rest t'
      end
    end
  end.

(** The claim of [k] runs, and its deadline is [D] or later. *)
Definition held (D : Z) (t : leaseTable) : Prop :=
  ∀ en, t !! k = Some en → le_cancelled en = false ∧ D <= le_deadline en.

Lemma held_weaken D D' t : D' <= D → held D t → held D' t.
Proof. intros HD Ht en Hen. destruct (Ht en Hen). split; [done|lia]. Qed.

Lemma held_ops from D xs t :
  claimed_since from xs → D <= from + leaseTTL eng - lag → held D t → held D (run_ops xs t).
Proof.
  intros Hc HD. revert t. induction xs as [|x xs IH]; intros t Ht; [done|]. cbn. apply IH.
  { intros id D' Hin. apply (Hc id). by right. }
  intros en. destruct x as [id k' D'|k']; cbn.
  - unfold insert_lease. intros [[-> <-]|[_ ?]]%lookup_insert_Some; [|by apply Ht]. cbn. split; [done|].
    etrans; [exact HD|]. apply (Hc id). by left.
  - unfold release. intros [_ ?]%lookup_delete_Some. by apply Ht.
Qed.

Lemma held_expire now D t : now < D → held D t → held D (expire false now t).1.
Proof.
  intros HD Ht en. rewrite (proj1 (expire_spec _ _ _)). intros (en0 & Hen0 & ->)%fmap_Some.
  destruct (Ht en0 Hen0) as [Hc Hd]. unfold expired_entry, ctx_done. rewrite Hc. cbn.
  destruct (le_deadline en0 <=? now) eqn:E; bool_to_prop; [lia|done].
Qed.

(** What the table holds before a renewal is awaited, and after it. *)
Lemma held_sent now from earliest D xs ys t :
  claimed_since from xs → claimed_since now ys → from <= now → D <= from + leaseTTL eng - lag →
  held D t →
  let t1 := run_ops xs t in
  held D (run_ops ys t1) ∧
  match hb_send false now earliest t1 with
  | Some (_, tokens, _) => ∀ renewed, (k ∈ tokens → k ∈ renewed) → 0 <= lag →
      held (now + leaseTTL eng - lag) (hb_renewed now tokens renewed (run_ops ys t1))
  | None => held (now + leaseTTL eng - lag) t1
  end.
Proof.
  intros Hxs Hys Hle HD Ht. cbn zeta. pose proof (held_ops from D xs t Hxs HD Ht) as H1.
  revert H1. generalize (run_ops xs t) as t1. intros t1 H1.
  pose proof (hb_send_spec false now earliest t1) as Hsend.
  split; [eapply held_ops; [exact Hys|lia|done]|].
  destruct (hb_send false now earliest t1) as [[[ids tokens] bound]|].
  - destruct Hsend as (_ & _ & Hin & _ & _). intros renewed Hr Hlag en. unfold hb_renewed.
    rewrite lookup_applyRenewal. destruct (decide (k ∈ tokens)) as [Hk|Hk].
    + intros (en0 & Hen0 & ->)%fmap_Some. rewrite decide_True by auto. cbn. split; [|lia].
      by destruct (held_ops now D ys t1 Hys ltac:(lia) H1 en0 Hen0).
    + intros Hen. apply (held_ops now (now + leaseTTL eng - lag) ys t1 Hys ltac:(lia)); [|done].
      intros en0 Hen0. destruct (H1 en0 Hen0) as [Hc _]. destruct Hk. apply Hin. by exists en0.
  - intros en Hen. specialize (Hsend k en Hen). destruct (H1 en Hen) as [Hc _].
    unfold ctx_done in Hsend. rewrite Hc in Hsend. done.
Qed.

Context (Hlag : 0 <= lag) (Hevery : 0 <= heartbeatEvery eng).
#[local] Abbreviation slack := (heartbeatEvery eng + 2 * lag) (only parsing).
Context (Hroom : (Z.of_nat m + 1) * slack + lag < leaseTTL eng).

(** The deadline that is certain before a turn, [f] renewals having failed. *)
Definition certain (f : nat) (nextRenewal : Z) : Z :=
  nextRenewal - heartbeatEvery eng + leaseTTL eng - lag - Z.of_nat f * slack.

(** A turn up to its wake-up cancels nothing. *)
Lemma held_wakes f from next tn t :
  (f ≤ m)%nat → next - heartbeatEvery eng <= from <= next → prompt from next tn →
  claimed_since from (hb_before tn ++ hb_asleep tn ++ hb_between tn) →
  held (certain f next) t →
  held (certain f next) (run_ops (hb_asleep tn) (turn_sleeps tn next t).1) ∧
  held (certain f next) (turn_wakes tn next t).1.1.
Proof.
  intros Hf Hfrom [Hp Hw] Hc Ht.
  assert (next + 2 * lag < certain f next) as HD by (unfold certain; nia).
  assert (certain f next <= from + leaseTTL eng - lag) as HD' by (unfold certain; nia).
  assert (∀ xs, (∀ x, x ∈ xs → x ∈ hb_before tn ++ hb_asleep tn ++ hb_between tn) →
    ∀ t, held (certain f next) t → held (certain f next) (run_ops xs t)) as Hops.
  { intros xs Hxs t0 Ht0. eapply held_ops; [|exact HD'|done]. intros id D Hin. by apply (Hc id), Hxs. }
  assert (held (certain f next) (run_ops (hb_asleep tn) (turn_sleeps tn next t).1)) as H1.
  { apply Hops; [set_solver|]. unfold turn_sleeps, hb_plan.
    rewrite (surjective_pairing (expire _ _ _)). apply held_expire; [lia|]. apply Hops; [set_solver|done]. }
  split; [done|]. unfold turn_wakes, hb_wake. destruct (hb_woken tn <? next); [done|].
  rewrite (surjective_pairing (expire _ _ _)). apply held_expire; [lia|done].
Qed.

Lemma heartbeat_turns_hold f from next turns t :
  (f ≤ m)%nat → next - heartbeatEvery eng <= from <= next →
  healthy f from next turns t → held (certain f next) t →
  ∀ en, heartbeat_turns turns next t !! k = Some en → le_cancelled en = false.
Proof.
  revert f from next t. induction turns as [|tn rest IH]; intros f from next t Hf Hfrom Hh Ht en; cbn in *.
  { intros Hen. by destruct (Ht en Hen). }
  destruct Hh as (Hprompt & Hc1 & Hc2 & Hh).
  destruct (held_wakes f from next tn t Hf Hfrom Hprompt Hc1 Ht) as [Ha Hw].
  destruct Hprompt as [Hp1 Hp2]. revert Hh. unfold heartbeat_turn. destruct (hb_done tn).
  { intros _ Hen. by destruct (Ha en Hen). }
  assert (turn_wakes tn next t = ((turn_wakes tn next t).1.1, next, None) ∧ hb_woken tn < next ∨
    ∃ earliest, turn_wakes tn next t =
      ((turn_wakes tn next t).1.1, hb_woken tn + heartbeatEvery eng, Some earliest) ∧ next <= hb_woken tn)
    as [[E Hlt]|(earliest & E & Hge)].
  { unfold turn_wakes, hb_wake. destruct (hb_woken tn <? next) eqn:Hlt; bool_to_prop; [by left|right].
    rewrite (surjective_pairing (expire _ _ _)). cbn. by eexists. }
  - rewrite E. intros Hh. by apply (IH f (hb_woken tn)); [|lia|..].
  - rewrite E. cbv zeta iota beta. unfold turn_renews, turn_tokens.
    assert (claimed_since from (hb_between tn)) as Hc3 by (intros id D Hin; apply (Hc1 id); set_solver).
    assert (certain f next <= from + leaseTTL eng - lag) as HD by (unfold certain; nia).
    assert (from <= hb_woken tn) as Hle by lia.
    destruct (held_sent (hb_woken tn) from earliest _ _ _ _ Hc3 Hc2 Hle HD Hw) as [Hs1 Hs2].
    set (t1 := (turn_wakes tn next t).1.1) in *. clearbody t1.
    assert (∀ g t', (g ≤ m)%nat → held (certain f next) t' → (f < g)%nat →
      healthy g (hb_woken tn) (hb_woken tn + heartbeatEvery eng) rest t' →
      heartbeat_turns rest (hb_woken tn + heartbeatEvery eng) t' !! k = Some en →
      le_cancelled en = false) as Hfail.
    { intros g t' Hg Ht' Hlt Hh. apply (IH g (hb_woken tn)); [done|lia|done|].
      eapply held_weaken; [|exact Ht']. unfold certain. nia. }
    assert (∀ t', held (hb_woken tn + leaseTTL eng - lag) t' →
      healthy 0 (hb_woken tn) (hb_woken tn + heartbeatEvery eng) rest t' →
      heartbeat_turns rest (hb_woken tn + heartbeatEvery eng) t' !! k = Some en →
      le_cancelled en = false) as Hok.
    { intros t' Ht' Hh. apply (IH 0%nat (hb_woken tn)); [lia|lia|done|].
      eapply held_weaken; [|exact Ht']. unfold certain. lia. }
    destruct (hb_send _ _ _ _) as [[[ids tokens] bound]|].
    + destruct (hb_answer tn) as [er|renewed].
      * destruct (hb_cancelled tn); [intros _ Hen; by destruct (Hs1 en Hen)|].
        intros [Hlt Hh]. eapply (Hfail (S f)); [lia|done|lia|done].
      * intros [Hr Hh]. by apply Hok; [apply Hs2|].
    + destruct (hb_answer tn) as [er|renewed]; intros [Hr Hh].
      * eapply (Hfail (S f)); [lia| |lia|done]. eapply held_weaken; [|exact Hs2]. unfold certain. nia.
      * by apply Hok.
Qed.

(** C19: a healthy worker keeps its claims.  Take a heartbeat that is never held up for more
    than [lag], claims that were answered as fast, and a server that renews the claim of
    [k] whenever it answers.  If up to [m] renewals in a row may fail, and the lease
    outlasts [m + 1] heartbeat intervals with what can hold them up, then the loop never
    cancels the claim, at whatever turn one looks. *)
Theorem heartbeat_keeps_healthy_claims now turns :
  healthy 0 now (now + heartbeatEvery eng) turns newLeaseTable →
  ∀ en, heartbeatLoop now turns newLeaseTable !! k = Some en → le_cancelled en = false.
Proof.
  intros Hh. eapply (heartbeat_turns_hold 0); [lia| |exact Hh|by intros ? ?]. lia.
Qed.
End healthy.
End heartbeat.
