(* ===== verification/Deadlines.v ===== *)
(** * Why a worker may trust its deadlines

    The lease table counts in the worker's clock, the rows in the server's.  Here the
    two are put together: a transition system of one worker's claims, its lease table
    and its heartbeat over the tables, in which time passes, statements of anybody
    take effect and answers are late or lost.  Its invariant is that a row which
    carries a token the worker knows is leased at least until the deadline the worker
    holds, or may still come to hold, for that token.

    Assumed of the outside: both clocks run at the same rate ([skew] is constant), a
    statement takes effect at one instant, which [clock_timestamp()] reads, and the
    server draws fresh UUIDs. *)

From S2P Require Import Prelude GoText Json Types Builder Postgres Queries Store Statements.
From S2P Require Import Claims Timing Leases Effects Engine Worker Heartbeat.
#[local] Open Scope sql_scope.

(** ** What statements do to tokens and expiries *)

Section lease_columns.
Context `{Postgres}.

(** Every leased row of [d'] had its token and expiry in [d]. *)
Definition leases_kept (d d' : db) : Prop :=
  ∀ id r', workflow_runs d' !! id = Some r' → lease_token r' = None ∨
    ∃ r, workflow_runs d !! id = Some r ∧ lease_token r' = lease_token r ∧
      lease_until r' = lease_until r.

Lemma leases_kept_refl d : leases_kept d d.
Proof. intros id r Hr. right. eauto. Qed.

Lemma leases_kept_update P f d d' :
  workflow_runs d' = update_where P f (workflow_runs d) →
  (∀ id r, P id r = true → lease_token (f id r) = None ∨
     lease_token (f id r) = lease_token r ∧ lease_until (f id r) = lease_until r) →
  leases_kept d d'.
Proof.
  intros E Hf id r'. rewrite E, lookup_update_where.
  destruct (workflow_runs d !! id) as [r|] eqn:Hr; [|done]. cbn. intros [= <-].
  destruct (P id r) eqn:HP; [|right; eauto]. destruct (Hf id r HP) as [?|[? ?]]; eauto.
Qed.

Lemma leases_kept_fenced id token args f e d :
  (∀ k r, lease_token (f e k r) = None) → leases_kept d (fenced_update id token args f e d).2.
Proof.
  intros Hf. unfold fenced_update. case_match; [|apply leases_kept_refl..]. destruct a.
  eapply leases_kept_update; [done|]. intros k r _. left. apply Hf.
Qed.

(** The statements that give out or extend leases. *)
Definition leasing {X} (s : stmt X) : Prop :=
  match s with ClaimSingle _ _ _ _ _ | ClaimMulti _ _ _ _ _ | RenewLeases _ _ _ => True | _ => False end.

Lemma exec_leases_kept {X} (s : stmt X) e d : ¬ leasing s → leases_kept d (exec s e d).2.
Proof.
  intros Hs. destruct s; cbn [exec snd leasing] in *;
    try (by destruct Hs); try (apply leases_kept_refl).
  - unfold insertRun. case_match; [|apply leases_kept_refl..].
    destruct a as [[[[[[i ?] ?] ?] ?] ?] ?]. case_match; [apply leases_kept_refl|].
    case_match; [case_match; [apply leases_kept_refl|]|destruct p].
    + intros k r'. cbn. intros [[<- <-]|[_ Hk]]%lookup_insert_Some; [by left|right; eauto].
    + eapply leases_kept_update; [done|]. intros k0 r0 _. by right.
  - unfold emitEvent. case_match; [|apply leases_kept_refl..]. destruct a.
    eapply leases_kept_update; [done|]. intros k r _. by right.
  - unfold Queries.commitStep. case_match; [|apply leases_kept_refl..]. destruct a as [[[i t] n] v].
    case_match; [apply leases_kept_refl|]. case_match; [|apply leases_kept_refl..].
    eapply leases_kept_update; [done|]. intros k r _. destruct complete; cbn; auto.
  - unfold Queries.completeRun. case_match; [|apply leases_kept_refl..]. by apply leases_kept_fenced.
  - by apply leases_kept_fenced.
  - unfold latestEvent. case_match; apply leases_kept_refl.
  - by apply leases_kept_fenced.
  - by apply leases_kept_fenced.
  - eapply leases_kept_update; [done|]. intros k r _. by left.
  - eapply leases_kept_update; [done|]. intros k r _. by right.
  - intros id r Hr. right. eauto.
  - unfold cancelRun. case_match; [|apply leases_kept_refl..].
    eapply leases_kept_update; [done|]. intros k r _. by left.
Qed.

(** A row after a claim, and after a renewal. *)
Lemma claim_leases pred q limit ttl e d id r' :
  workflow_runs (claim pred q limit ttl e d).2 !! id = Some r' →
  workflow_runs d !! id = Some r' ∨
  lease_token r' = Some (gen_random_uuid e id) ∧
    lease_until r' = Some (clock_timestamp_set e id + interval_ms ttl).
Proof.
  unfold claim. cbn. rewrite lookup_update_where.
  destruct (workflow_runs d !! id) as [r|]; [|done]. cbn. intros [= <-].
  case_bool_decide; [by right|by left].
Qed.

Definition claim_ttl {X} (s : stmt X) : option Z :=
  match s with ClaimSingle _ _ ms _ _ | ClaimMulti _ _ ms _ _ => Some ms | _ => None end.

Lemma exec_claim_leases {X} (s : stmt X) ttl e d id r' :
  claim_ttl s = Some ttl → workflow_runs (exec s e d).2 !! id = Some r' →
  workflow_runs d !! id = Some r' ∨
  lease_token r' = Some (gen_random_uuid e id) ∧
    lease_until r' = Some (clock_timestamp_set e id + interval_ms ttl).
Proof.
  intros Hs. destruct s; try done; injection Hs as <-; cbn [exec].
  - unfold claimSingle. case_match; [|by left..]. destruct a as [[? ?] ?]. apply claim_leases.
  - unfold claimMulti. case_match; [|by left..]. destruct a as [[? ?] ?]. apply claim_leases.
Qed.

Definition renew_args {X} (s : stmt X) : option (list string * Z) :=
  match s with RenewLeases _ tokens ms => Some (tokens, ms) | _ => None end.

Lemma renewal_leases ids tokens ms e d id r' :
  workflow_runs (exec (RenewLeases ids tokens ms) e d).2 !! id = Some r' →
  ∃ r, workflow_runs d !! id = Some r ∧ lease_token r' = lease_token r ∧
    (lease_until r' = lease_until r ∨
     lease_until r' = Some (clock_timestamp_set e id + interval_ms ms) ∧
       ∃ k, lease_token r = Some k ∧ Some k ∈ uuid_in <$> tokens).
Proof.
  cbn [exec]. unfold Queries.renewLeases. case_match eqn:Hb; [|intros; eauto..]. cbn.
  rewrite lookup_update_where. destruct (workflow_runs d !! id) as [r|]; [|done]. cbn. intros [= <-].
  exists r. split; [done|]. destruct (renewable a e id r) eqn:HP; [|by auto]. cbn. split; [done|]. right.
  split; [done|]. unfold renewable in HP. destruct (lease_token r) as [k|]; [|done]. bool_to_prop.
  exists k. split; [done|]. invert_outcome.
  match goal with Hin : _ ∈ zip _ _ |- _ => apply elem_of_zip_r in Hin as Hk end.
  match goal with Hm : mapM bind_uuid tokens = Ok _ |- _ => revert Hk Hm end. clear.
  intros Hk Hm. revert x0 Hk Hm. induction tokens as [|t l IH]; intros ks Hk; cbn.
  { intros [= <-]. by apply elem_of_nil in Hk. }
  intros Hm. invert_outcome. apply bind_uuid_Ok in H0. rewrite H0.
  apply elem_of_cons in Hk as [->|Hk]; [by left|right; by eapply IH].
Qed.

(** Where the token and the expiry of a row come from. *)
Lemma exec_token {X} (s : stmt X) e d id r' k :
  workflow_runs (exec s e d).2 !! id = Some r' → lease_token r' = Some k →
  (∃ r, workflow_runs d !! id = Some r ∧ lease_token r = Some k ∧ lease_until r' = lease_until r) ∨
  (∃ ttl, claim_ttl s = Some ttl ∧ k = gen_random_uuid e id ∧
     lease_until r' = Some (clock_timestamp_set e id + interval_ms ttl)) ∨
  (∃ tokens ms r, renew_args s = Some (tokens, ms) ∧ Some k ∈ uuid_in <$> tokens ∧
     workflow_runs d !! id = Some r ∧ lease_token r = Some k ∧
     lease_until r' = Some (clock_timestamp_set e id + interval_ms ms)).
Proof.
  intros Hr Hk. destruct (claim_ttl s) as [ttl|] eqn:Hc.
  { destruct (exec_claim_leases s ttl e d id r' Hc Hr) as [|[Ht Hu]]; [left; eauto|].
    right. left. exists ttl. split_and!; [done|congruence|done]. }
  destruct (renew_args s) as [[tokens ms]|] eqn:Hre.
  { destruct s; try done. injection Hre as -> ->.
    destruct (renewal_leases _ _ _ _ _ _ _ Hr) as (r & Hr0 & Ht & [Hu|(Hu & k' & Hk' & Hin)]).
    - left. exists r. split_and!; congruence.
    - right. right. exists tokens, ms, r. split_and!; [done|congruence|done|congruence|done]. }
  assert (¬ leasing s) as Hl by (clear Hr; intros Hl; destruct s; try done; discriminate).
  left. destruct (exec_leases_kept s e d Hl id r' Hr) as [?|(r & ? & ? & ?)]; [congruence|].
  exists r. split_and!; congruence.
Qed.
End lease_columns.

Section deadlines.
Context `{Postgres} (eng : Engine).

(** ** Clocks *)

(** The server's clock, in microseconds, at local time [t], in nanoseconds. *)
Definition server (skew t : Z) : Z := (t + skew) / 1000.

(** The server has the lease at least until here, when the worker trusts it until [D]:
    [Milliseconds] drops the part of the TTL below a millisecond. *)
Definition horizon (skew D : Z) : Z := server skew (D - leaseTTL eng mod Millisecond).

(** A statement that takes effect at local time [t]. *)
Definition timed (skew t : Z) (e : env) : Prop :=
  now e <= server skew t ∧ statement_timestamp e <= server skew t ∧
  (∀ k, clock_timestamp e k = server skew t) ∧ ∀ k, clock_timestamp_set e k = server skew t.

(** ** The system *)

(** A renewal that has been sent, and one whose answer has come: when it was started,
    its tokens and what was renewed. *)
Inductive renewal :=
  | Sent (started : Z) (runIDs tokens : list string)
  | Answered (started : Z) (tokens : list string) (renewed : gset string).

(** The claim statement under way was started at [n_claiming]; [n_claimed] are the
    answered runs that [dispatch] has not yet inserted. *)
Record node := {
  n_now : Z;
  n_db : db;
  n_claiming : option Z;
  n_claimed : list claimedRun;
  n_leases : leaseTable;
  n_renewal : option renewal;
}.

Definition started_at (now : Z) (d : db) : node :=
  {| n_now := now; n_db := d; n_claiming := None; n_claimed := []; n_leases := newLeaseTable;
     n_renewal := None |}.

Definition set_now (t : Z) (st : node) : node :=
  {| n_now := t; n_db := n_db st; n_claiming := n_claiming st; n_claimed := n_claimed st;
     n_leases := n_leases st; n_renewal := n_renewal st |}.
Definition set_tables (d : db) (st : node) : node :=
  {| n_now := n_now st; n_db := d; n_claiming := n_claiming st; n_claimed := n_claimed st;
     n_leases := n_leases st; n_renewal := n_renewal st |}.
Definition set_claiming (c : option Z) (l : list claimedRun) (st : node) : node :=
  {| n_now := n_now st; n_db := n_db st; n_claiming := c; n_claimed := l;
     n_leases := n_leases st; n_renewal := n_renewal st |}.
Definition set_table (t : leaseTable) (st : node) : node :=
  {| n_now := n_now st; n_db := n_db st; n_claiming := n_claiming st; n_claimed := n_claimed st;
     n_leases := t; n_renewal := n_renewal st |}.
Definition set_renewal (r : option renewal) (st : node) : node :=
  {| n_now := n_now st; n_db := n_db st; n_claiming := n_claiming st; n_claimed := n_claimed st;
     n_leases := n_leases st; n_renewal := r |}.

(** The worker holds, or may come to hold, the deadline [D] for the token [k]. *)
Inductive known (st : node) (k : string) (D : Z) : Prop :=
  | known_entry en : n_leases st !! k = Some en → le_deadline en = D → known st k D
  | known_claim run : run ∈ n_claimed st → Token run = k → deadline run = D → known st k D
  | known_renewed started tokens renewed :
      n_renewal st = Some (Answered started tokens renewed) → k ∈ renewed →
      D = started + leaseTTL eng → known st k D.

(** The UUIDs drawn in [e] are new. *)
Definition draws_fresh (st : node) (e : env) : Prop :=
  (∀ i j, gen_random_uuid e i = gen_random_uuid e j → i = j) ∧
  (∀ i D, ¬ known st (gen_random_uuid e i) D) ∧
  ∀ i j r, workflow_runs (n_db st) !! j = Some r → lease_token r ≠ Some (gen_random_uuid e i).

(** A statement of anybody, this worker's own writes and late renewals included; nobody
    else knows this worker's tokens. *)
Definition lawful {X} (st : node) (s : stmt X) (e : env) : Prop :=
  match s with
  | ClaimSingle _ _ _ _ _ | ClaimMulti _ _ _ _ _ => draws_fresh st e
  | RenewLeases _ tokens ms =>
    ms = Milliseconds (leaseTTL eng) ∨ ∀ k D, known st k D → Some k ∉ uuid_in <$> tokens
  | _ => True
  end.

Context (skew : Z).

Inductive node_step : node → node → Prop :=
  | ns_tick st t : n_now st <= t → node_step st (set_now t st)
  | ns_anybody st X (s : stmt X) e :
      timed skew (n_now st) e → lawful st s e → node_step st (set_tables (exec s e (n_db st)).2 st)
  | ns_claim_start st :
      n_claiming st = None → node_step st (set_claiming (Some (n_now st)) (n_claimed st) st)
  | ns_claimed st started limit names versions e rows d' runs :
      n_claiming st = Some started → timed skew (n_now st) e → draws_fresh st e →
      exec (claim_stmt eng limit names versions) e (n_db st) = (Ok rows, d') →
      mapM (claim_of_row (started + leaseTTL eng)) rows = Ok runs →
      node_step st (set_claiming None (n_claimed st ++ runs) (set_tables d' st))
  | ns_claim_lost st : node_step st (set_claiming None (n_claimed st) st)
  | ns_insert st run rest :
      n_claimed st = run :: rest →
      node_step st (set_table (insert_lease (ID run) (Token run) (deadline run) (n_leases st))
                      (set_claiming (n_claiming st) rest st))
  | ns_release st token : node_step st (set_table (release token (n_leases st)) st)
  | ns_expire st parent :
      node_step st (set_table (expire parent (n_now st) (n_leases st)).1 st)
  | ns_renew_start st parent started earliest runIDs tokens bound :
      n_renewal st = None → started <= n_now st →
      hb_send eng parent started earliest (n_leases st) = Some (runIDs, tokens, bound) →
      node_step st (set_renewal (Some (Sent started runIDs tokens)) st)
  | ns_renewed st started runIDs tokens e rows d' :
      n_renewal st = Some (Sent started runIDs tokens) → timed skew (n_now st) e →
      exec (RenewLeases runIDs tokens (Milliseconds (leaseTTL eng))) e (n_db st) = (Ok rows, d') →
      node_step st (set_renewal (Some (Answered started tokens (list_to_set rows))) (set_tables d' st))
  | ns_renew_applied st started tokens renewed :
      n_renewal st = Some (Answered started tokens renewed) →
      node_step st (set_renewal None
        (set_table (hb_renewed eng started tokens renewed (n_leases st)) st))
  | ns_renew_lost st : node_step st (set_renewal None st).

(** ** The invariant *)

Context (Httl : 0 <= leaseTTL eng).

(** Every row that carries [k] is leased until [T]. *)
Definition covered (d : db) (k : string) (T : Z) : Prop :=
  ∀ id r, workflow_runs d !! id = Some r → lease_token r = Some k →
    ∃ u, lease_until r = Some u ∧ T <= u.

Definition token_unique (d : db) : Prop :=
  ∀ i j ri rj k, workflow_runs d !! i = Some ri → workflow_runs d !! j = Some rj →
    lease_token ri = Some k → lease_token rj = Some k → i = j.

Record node_inv (st : node) : Prop := {
  ni_unique : token_unique (n_db st);
  ni_known : ∀ k D, known st k D →
    covered (n_db st) k (horizon skew D) ∧ D <= n_now st + leaseTTL eng;
  ni_claiming : ∀ t, n_claiming st = Some t → t <= n_now st;
  ni_renewal : ∀ t ids tokens, n_renewal st = Some (Sent t ids tokens) → t <= n_now st;
}.

Lemma server_mono t t' : t <= t' → server skew t <= server skew t'.
Proof. intros. unfold server. apply Z.div_le_mono; lia. Qed.

(** A lease given at [t] lasts until the horizon of every deadline set at [t] or before. *)
Lemma horizon_le t D :
  D <= t + leaseTTL eng →
  horizon skew D <= server skew t + interval_ms (Milliseconds (leaseTTL eng)).
Proof.
  intros HD. unfold horizon.
  assert (leaseTTL eng = Millisecond * Milliseconds (leaseTTL eng) + leaseTTL eng mod Millisecond) as Ht.
  { unfold Milliseconds. rewrite Z.quot_div_nonneg by done. apply Z.div_mod. done. }
  trans (server skew (t + Millisecond * Milliseconds (leaseTTL eng))); [apply server_mono; lia|].
  unfold server, interval_ms. change Millisecond with (1000 * 1000).
  replace (t + 1000 * 1000 * Milliseconds (leaseTTL eng) + skew)
    with (t + skew + Milliseconds (leaseTTL eng) * 1000 * 1000) by lia.
  by rewrite Z.div_add.
Qed.

Lemma lawful_claim {X} st (s : stmt X) e ttl :
  lawful st s e → claim_ttl s = Some ttl → draws_fresh st e.
Proof. by destruct s. Qed.
Lemma lawful_renew {X} st (s : stmt X) e tokens ms :
  lawful st s e → renew_args s = Some (tokens, ms) →
  ms = Milliseconds (leaseTTL eng) ∨ ∀ k D, known st k D → Some k ∉ uuid_in <$> tokens.
Proof. destruct s; try done. by intros ? [= -> ->]. Qed.

(** Tokens stay unique. *)
Lemma unique_step {X} st (s : stmt X) e :
  (claim_ttl s ≠ None → draws_fresh st e) → token_unique (n_db st) →
  token_unique (exec s e (n_db st)).2.
Proof.
  intros Hfresh Hu i j ri rj k Hi Hj Hki Hkj.
  destruct (exec_token s e _ i ri k Hi Hki) as [(r & Hr & Hk & _)|[(ttl & Hc & -> & _)|
    (ts & ms & r & _ & _ & Hr & Hk & _)]];
  destruct (exec_token s e _ j rj _ Hj Hkj) as [(r' & Hr' & Hk' & _)|[(ttl' & Hc' & E & _)|
    (ts' & ms' & r' & _ & _ & Hr' & Hk' & _)]];
  try (by eapply Hu); try (subst k).
  all: destruct Hfresh as (Hinj & _ & Hnew); [congruence|].
  all: try (by destruct (Hnew _ _ _ Hr Hk)); try (by destruct (Hnew _ _ _ Hr' Hk')).
  by apply Hinj.
Qed.

(** A known deadline survives every statement. *)
Lemma covered_step {X} st (s : stmt X) e k D :
  timed skew (n_now st) e → lawful st s e → known st k D → D <= n_now st + leaseTTL eng →
  covered (n_db st) k (horizon skew D) → covered (exec s e (n_db st)).2 k (horizon skew D).
Proof.
  intros (_ & _ & _ & Hset) Hs Hkn HD Hc id r' Hr Hk.
  destruct (exec_token s e _ id r' k Hr Hk) as [(r & Hr0 & Hk0 & ->)|[(ttl & Hcl & -> & _)|
    (ts & ms & r & Hre & Hin & Hr0 & Hk0 & ->)]].
  - by eapply Hc.
  - destruct (lawful_claim _ _ _ _ Hs Hcl) as (_ & Hnew & _). by destruct (Hnew id D).
  - destruct (lawful_renew _ _ _ _ _ Hs Hre) as [->|Hno]; [|by destruct (Hno k D)].
    eexists. split; [done|]. rewrite Hset. by apply horizon_le.
Qed.

(** ** The answers the worker gets *)

Lemma outcome_mapM_elem {A B} (f : A → outcome B) l k y :
  mapM f l = Ok k → y ∈ k → ∃ x, x ∈ l ∧ f x = Ok y.
Proof.
  revert k. induction l as [|x l IH]; intros k; cbn.
  { intros [= <-] []%elem_of_nil. }
  intros Hk Hy. invert_outcome. apply elem_of_cons in Hy as [->|Hy].
  - exists x. split; [by left|done].
  - destruct (IH _ ltac:(done) Hy) as (x' & ? & ?). exists x'. split; [by right|done].
Qed.

Lemma claim_stmt_ttl limit names versions :
  claim_ttl (claim_stmt eng limit names versions) = Some (Milliseconds (leaseTTL eng)) ∧
  renew_args (claim_stmt eng limit names versions) = None.
Proof. by destruct names as [|? [|]], versions as [|? [|]]. Qed.

Lemma claim_stmt_lawful st limit names versions e :
  draws_fresh st e → lawful st (claim_stmt eng limit names versions) e.
Proof. by destruct names as [|? [|]], versions as [|? [|]]. Qed.

Lemma claim_stmt_tokens limit names versions e d rows d' row :
  exec (claim_stmt eng limit names versions) e d = (Ok rows, d') → row ∈ rows →
  c_lease_token row = gen_random_uuid e (c_id row).
Proof.
  assert (∀ pred q, claim pred q limit (Milliseconds (leaseTTL eng)) e d = (Ok rows, d') →
    row ∈ rows → c_lease_token row = gen_random_uuid e (c_id row)) as Hcl.
  { intros pred q [= <- _] (k & _ & Hk)%list_elem_of_omap.
    destruct (workflow_runs d !! k); [|done]. by injection Hk as <-. }
  assert (∀ ns vs, exec (ClaimMulti (e_queue eng) limit (Milliseconds (leaseTTL eng)) ns vs) e d =
    (Ok rows, d') → row ∈ rows → c_lease_token row = gen_random_uuid e (c_id row)) as Hm.
  { intros ns vs. cbn [exec]. unfold claimMulti. case_match; [|done..]. destruct a as [[? ?] ?]. apply Hcl. }
  unfold claim_stmt. destruct names as [|n [|]]; [apply Hm| |apply Hm].
  destruct versions as [|v [|]]; [apply Hm| |apply Hm]. cbn [exec]. unfold claimSingle.
  case_match; [|done..]. destruct a as [[? ?] ?]. apply Hcl.
Qed.

Lemma claim_of_row_fields dl row run :
  claim_of_row dl row = Ok run → Token run = c_lease_token row ∧ deadline run = dl.
Proof. unfold claim_of_row. destruct (decode_checkpoints _); [|done..]. by intros [= <-]. Qed.

(** A claim's run, its token and its deadline. *)
Lemma claimed_run started limit names versions e d rows d' runs run :
  exec (claim_stmt eng limit names versions) e d = (Ok rows, d') →
  mapM (claim_of_row (started + leaseTTL eng)) rows = Ok runs → run ∈ runs →
  (∃ i, Token run = gen_random_uuid e i) ∧ deadline run = started + leaseTTL eng.
Proof.
  intros Hex Hm Hrun. destruct (outcome_mapM_elem _ _ _ _ Hm Hrun) as (row & Hrow & Hdec).
  pose proof (claim_stmt_tokens _ _ _ _ _ _ _ _ Hex Hrow) as Ht.
  destruct (claim_of_row_fields _ _ _ Hdec) as [-> ->]. rewrite Ht. split; [by eexists|done].
Qed.

Lemma renewed_until ids tokens ms e d rows d' k id r' :
  exec (RenewLeases ids tokens ms) e d = (Ok rows, d') → k ∈ rows → token_unique d →
  workflow_runs d' !! id = Some r' → lease_token r' = Some k →
  lease_until r' = Some (clock_timestamp_set e id + interval_ms ms).
Proof.
  intros Hex Hk Hu Hr Ht.
  pose proof (renewal_leases ids tokens ms e d id r') as Hb. rewrite Hex in Hb.
  destruct (Hb Hr) as (r & Hr0 & Ht0 & _). clear Hb. rewrite Ht in Ht0.
  cbn [exec] in Hex. unfold Queries.renewLeases in Hex. case_match; [|done..]. injection Hex as <- <-.
  apply list_elem_of_omap in Hk as ([id0 r0] & Hin%elem_of_map_to_list & Hk).
  apply lookup_affected in Hin as [Hr1 HP]. cbn in Hk, Hr.
  assert (id0 = id) as -> by (by eapply Hu).
  rewrite lookup_update_where, Hr1 in Hr. cbn in Hr. rewrite HP in Hr. by injection Hr as <-.
Qed.

(** ** Preservation *)

(** The tables stay, time does not run back, and no deadline becomes known. *)
Lemma inv_frame st st' :
  node_inv st → n_db st' = n_db st → n_now st <= n_now st' →
  (∀ k D, known st' k D → known st k D) →
  (∀ t, n_claiming st' = Some t → n_claiming st = Some t ∨ t = n_now st) →
  (∀ t ids tokens, n_renewal st' = Some (Sent t ids tokens) →
     n_renewal st = Some (Sent t ids tokens) ∨ t <= n_now st) →
  node_inv st'.
Proof.
  intros [Hu Hk Hc Hr] Edb Hnow Hkn Hcl Hre. split.
  - by rewrite Edb.
  - intros k D HkD. rewrite Edb. destruct (Hk k D (Hkn k D HkD)). split; [done|lia].
  - intros t Ht. destruct (Hcl t Ht) as [Ht'|]; [apply Hc in Ht'|]; lia.
  - intros t ids tokens Ht. destruct (Hre t ids tokens Ht) as [Ht'|]; [apply Hr in Ht'|]; lia.
Qed.

(** A statement of anybody changes the tables. *)
Lemma inv_statement {X} st (s : stmt X) e :
  timed skew (n_now st) e → lawful st s e → node_inv st →
  node_inv (set_tables (exec s e (n_db st)).2 st).
Proof.
  intros Ht Hs [Hu Hk Hc Hr]. split; cbn; [|..|done|done].
  - apply unique_step; [|done]. intros Hcl. destruct (claim_ttl s) as [ttl|] eqn:E; [|done].
    by eapply lawful_claim.
  - intros k D [en H1 H2|run H1 H2 H3|t ts rn H1 H2 H3]; cbn in *.
    + destruct (Hk k D) as [? ?]; [by eapply known_entry|]. split; [|done].
      eapply covered_step; try done. by eapply known_entry.
    + destruct (Hk k D) as [? ?]; [by eapply known_claim|]. split; [|done].
      eapply covered_step; try done. by eapply known_claim.
    + destruct (Hk k D) as [? ?]; [by eapply known_renewed|]. split; [|done].
      eapply covered_step; try done. by eapply known_renewed.
Qed.

Lemma inv_claimed st started limit names versions e rows d' runs :
  n_claiming st = Some started → timed skew (n_now st) e → draws_fresh st e →
  exec (claim_stmt eng limit names versions) e (n_db st) = (Ok rows, d') →
  mapM (claim_of_row (started + leaseTTL eng)) rows = Ok runs →
  node_inv st → node_inv (set_claiming None (n_claimed st ++ runs) (set_tables d' st)).
Proof.
  intros Hst Ht Hfresh Hex Hm Hinv.
  pose proof (inv_statement st _ e Ht (claim_stmt_lawful st limit names versions e Hfresh) Hinv) as Hinv'.
  rewrite Hex in Hinv'. cbn [snd] in Hinv'. destruct Hinv' as [Hu Hk _ Hr]. split; cbn; [done| |done|done].
  intros k D [en H1 H2|run H1 H2 H3|t ts rn H1 H2 H3]; cbn in *.
  - apply Hk. by eapply known_entry.
  - apply elem_of_app in H1 as [H1|H1]; [apply Hk; by eapply known_claim|].
    destruct (claimed_run _ _ _ _ _ _ _ _ _ _ Hex Hm H1) as [[i Hi] Hd].
    pose proof (ni_claiming _ Hinv _ Hst) as Hle. split; [|lia].
    intros id r' Hr' Hk'. destruct Ht as (_ & _ & _ & Hset). destruct Hfresh as (_ & _ & Hnew).
    destruct (claim_stmt_ttl limit names versions) as [Hcl Hre].
    pose proof (exec_token (claim_stmt eng limit names versions) e (n_db st) id r' k) as Htok.
    rewrite Hex in Htok. destruct (Htok Hr' Hk') as [(r & Hr0 & Hk0 & _)|[(ttl & Hc & _ & ->)|
      (ts & ms & r & Hc & _)]]; [|rewrite Hcl in Hc; injection Hc as <-|congruence].
    + exfalso. apply (Hnew i id r Hr0). congruence.
    + eexists. split; [done|]. rewrite Hset. apply horizon_le. lia.
  - apply Hk. by eapply known_renewed.
Qed.

Lemma inv_renewed st started ids tokens e rows d' :
  n_renewal st = Some (Sent started ids tokens) → timed skew (n_now st) e →
  exec (RenewLeases ids tokens (Milliseconds (leaseTTL eng))) e (n_db st) = (Ok rows, d') →
  node_inv st →
  node_inv (set_renewal (Some (Answered started tokens (list_to_set rows))) (set_tables d' st)).
Proof.
  intros Hst Ht Hex Hinv.
  pose proof (inv_statement st (RenewLeases ids tokens (Milliseconds (leaseTTL eng))) e Ht
    (or_introl eq_refl) Hinv) as Hinv'.
  rewrite Hex in Hinv'. cbn [snd] in Hinv'. destruct Hinv' as [Hu Hk Hc _]. split; cbn; [done| |done|done].
  intros k D [en H1 H2|run H1 H2 H3|t ts rn H1 H2 H3]; cbn in *.
  - apply Hk. by eapply known_entry.
  - apply Hk. by eapply known_claim.
  - injection H1 as <- <- <-. apply elem_of_list_to_set in H2.
    pose proof (ni_renewal _ Hinv _ _ _ Hst). split; [|lia]. intros id r' Hr' Hk'.
    rewrite (renewed_until _ _ _ _ _ _ _ _ _ _ Hex H2 (ni_unique _ Hinv) Hr' Hk').
    eexists. split; [done|]. destruct Ht as (_ & _ & _ & ->). apply horizon_le. lia.
Qed.

(** Known deadlines that come from the same field. *)
Ltac known_here := solve [ eapply known_entry; eassumption | eapply known_claim; eassumption
  | eapply known_renewed; eassumption | congruence ].

Lemma known_expired parent st st' k D :
  n_claimed st' = n_claimed st → n_renewal st' = n_renewal st ∨ n_renewal st = None ∧
    (∃ t ids ts, n_renewal st' = Some (Sent t ids ts)) →
  n_leases st' = (expire parent (n_now st) (n_leases st)).1 → known st' k D → known st k D.
Proof.
  intros Ec Er El [en H1 H2|run H1 H2 H3|t ts rn H1 H2 H3].
  - rewrite El, (proj1 (expire_spec _ _ _)) in H1. apply fmap_Some in H1 as (en0 & H1 & ->).
    eapply known_entry; [done|]. rewrite <-H2. unfold expired_entry. by repeat case_match.
  - rewrite Ec in H1. known_here.
  - destruct Er as [Er|[_ (? & ? & ? & Er)]]; [rewrite Er in H1; known_here|congruence].
Qed.

Lemma node_step_keeps st st' : node_step st st' → node_inv st → node_inv st'.
Proof.
  intros Hstep Hinv.
  destruct Hstep as [st t Ht|st X s e Ht Hs|st Hc|st started limit names versions e rows d' runs Hc Ht Hf Hex Hm
    |st|st run rest Hc|st token|st parent|st parent started earliest ids ts bound Hr Hle Hw
    |st started ids ts e rows d' Hr Ht Hex|st started ts renewed Hr|st].
  - apply (inv_frame st); cbn; auto. intros k D []; cbn in *; known_here.
  - by apply inv_statement.
  - apply (inv_frame st); cbn; auto with lia; [|by intros t [= ->]; right].
    intros k D []; cbn in *; known_here.
  - by eapply inv_claimed.
  - apply (inv_frame st); cbn; auto with lia; [|done]. intros k D []; cbn in *; known_here.
  - apply (inv_frame st); cbn; auto with lia.
    intros k D [en H1 ?|run' H1 ? ?|? ? ? ? ? ?]; cbn in *; [| |known_here].
    + unfold insert_lease in H1. apply lookup_insert_Some in H1 as [[<- <-]|[_ H1]]; [|known_here].
      eapply known_claim; [|done|done]. rewrite Hc. by left.
    + eapply known_claim; [|done|done]. rewrite Hc. by right.
  - apply (inv_frame st); cbn; auto with lia.
    intros k D [en H1 ?|run ? ? ?|? ? ? ? ? ?]; cbn in *; [|known_here..].
    unfold release in H1. apply lookup_delete_Some in H1 as [_ H1]. known_here.
  - apply (inv_frame st); cbn; auto with lia. intros k D. by apply (known_expired parent); auto.
  - apply (inv_frame st); cbn; auto with lia; [|by intros t ids' ts' [= <- _ _]; right].
    intros k D []; cbn in *; known_here.
  - by eapply inv_renewed.
  - apply (inv_frame st); cbn; auto with lia; [|done].
    intros k D [en H1 H2|run ? ? ?|? ? ? ? ? ?]; cbn in *; [|known_here..].
    unfold hb_renewed in H1. rewrite lookup_applyRenewal in H1. case_decide; [|known_here].
    apply fmap_Some in H1 as (en0 & H1 & ->). case_decide as Hin.
    + eapply known_renewed; [done|done|]. by rewrite <-H2.
    + eapply known_entry; [done|]. by rewrite <-H2.
  - apply (inv_frame st); cbn; auto with lia; [|done]. intros k D []; cbn in *; known_here.
Qed.

Lemma reachable_node_inv now d st :
  token_unique d → rtc node_step (started_at now d) st → node_inv st.
Proof.
  intros Hu Hrtc. assert (node_inv (started_at now d)) as H0.
  { split; cbn; [done| |done|done]. intros k D [en H1 _|run H1 _ _|? ? ? H1 _ _]; cbn in H1.
    - unfold newLeaseTable in H1. by rewrite lookup_empty in H1.
    - by apply elem_of_nil in H1.
    - done. }
  revert H0. induction Hrtc as [|x y z Hxy _ IH]; [done|]. intros Hx. by apply IH, (node_step_keeps x).
Qed.

(** C21: a confirmed deadline protects its claim.  However claims, renewals, releases and
    expiries of a worker interleave with anybody's statements, and however late answers
    come, with clocks that differ by a constant: as long as the worker's clock has not
    passed the deadline in the lease table (less what the lease loses to whole
    milliseconds), no recovery, no other claim and no write of a worker with another token
    touches the row that carries the claim's token, its cursor or its checkpoints - only
    the claim's own statements and a client that cancels this very run can.  And the
    claim's own writes pass their fence until a microsecond, the server's clock unit, before
    that.  So a claim that stops at its deadline never runs beside a successor. *)
Theorem confirmed_deadline_protects_claim now d st k en r {X} (s : stmt X) e :
  token_unique d → rtc node_step (started_at now d) st →
  n_leases st !! k = Some en →
  workflow_runs (n_db st) !! le_runID en = Some r → state r = RunLeased → lease_token r = Some k →
  timed skew (n_now st) e → n_now st <= le_deadline en - leaseTTL eng mod Millisecond →
  (foreign (le_runID en) k s →
     ∃ r', workflow_runs (exec s e (n_db st)).2 !! le_runID en = Some r' ∧ state r' = RunLeased ∧
       lease_token r' = Some k ∧ step_index r' = step_index r ∧ attempt r' = attempt r ∧
       ∀ i, step_checkpoints (exec s e (n_db st)).2 !! (le_runID en, i) =
              step_checkpoints (n_db st) !! (le_runID en, i)) ∧
  (n_now st + Microsecond <= le_deadline en - leaseTTL eng mod Millisecond →
     fence (le_runID en) k e (le_runID en) r = true).
Proof.
  intros Hu Hrtc Hen Hr Hs Hk (_ & Hst & Hct & _) Hnow.
  destruct (reachable_node_inv now d st Hu Hrtc) as [_ Hkn _ _].
  destruct (Hkn k (le_deadline en)) as [Hcov _]; [by eapply known_entry|].
  destruct (Hcov _ r Hr Hk) as (u & Huu & Hle).
  split.
  - intros Hf. assert (statement_timestamp e <= u) as Htime.
    { pose proof (server_mono _ _ Hnow). unfold horizon in Hle. lia. }
    destruct (foreign_keeps_row _ k r u Hs Hk Huu s e (n_db st) Hr Hf Htime)
      as (r' & Hr' & H1 & H2 & H3 & H4 & _).
    exists r'. rewrite H1, H2. split_and!; [done..|]. intros i. by eapply foreign_keeps_checkpoints.
  - intros Hlt. apply fence_spec. split_and!; [done..|]. exists u. split; [done|]. rewrite Hct.
    pose proof (server_mono _ _ Hlt) as Hm. unfold horizon in Hle.
    assert (server skew (n_now st + Microsecond) = server skew (n_now st) + 1) as Es.
    { unfold server. change Microsecond with (1 * 1000).
      replace (n_now st + 1 * 1000 + skew) with (n_now st + skew + 1 * 1000) by lia. by rewrite Z.div_add. }
    lia.
Qed.
End deadlines.
