(* ===== verification/Dispatcher.v ===== *)
(** * The dispatcher: how many claims run at once, and when the next are asked for

    [StartWorker] and [dispatchLoop] of worker.go and the worker's life cycle of
    engine.go as a transition system.  The loop is one goroutine, so between its steps
    the goroutines of running claims, the notification listener and the heartbeat take
    theirs; a goroutine's cleanup is four steps, because the loop reads [inFlight]
    and [wake] between them.  A claim statement is [claimReadyRuns] against whatever
    tables it finds. *)

From S2P Require Import Prelude GoText Json Types Builder Postgres Queries Store Statements.
From S2P Require Import Claims Timing Leases Effects Engine Worker Replay Loading.

(** Where a claim's goroutine is: running [executeClaim], or in its deferred function
    after [release()], [inFlight.Add(-1)], the send to [wake], [activeClaims.Done()]. *)
Inductive phase := Executing | Released | Uncounted | Signalled | Gone.
#[global] Instance phase_eq_dec : EqDecision phase.
Proof. solve_decision. Defined.

(** The state of one dispatch loop.  [asking] is the limit of the claim statement under
    way, [todo] what is left of the loop over its answer; [stopping] is
    [ctx.Err() != nil] and [returned] that the loop has returned, which cancels the
    work context.  [saturated] is an observer's note, which the code does not keep:
    the last dispatch found no free slot or filled all of them. *)
Record dispatcher := {
  inFlight : Z;
  wake : bool;
  leases : leaseTable;
  goroutines : list (claimedRun * phase);
  asking : option Z;
  todo : list claimedRun;
  stopping : bool;
  returned : bool;
  saturated : bool;
}.

(** The engine's counter [activeClaims], which outlives a worker, and the loop. *)
Notation dstate := (Z * dispatcher)%type.

Section dispatcher.
Context `{Postgres} (eng : Engine).

(** [select { case wake <- struct{}{}: default: }]. *)
Definition signal (d : dispatcher) : dispatcher :=
  {| inFlight := inFlight d; wake := true; leases := leases d; goroutines := goroutines d;
     asking := asking d; todo := todo d; stopping := stopping d; returned := returned d;
     saturated := saturated d |}.
(** [case <-wake]. *)
Definition consume (d : dispatcher) : dispatcher :=
  {| inFlight := inFlight d; wake := false; leases := leases d; goroutines := goroutines d;
     asking := asking d; todo := todo d; stopping := stopping d; returned := returned d;
     saturated := saturated d |}.
Definition ask (n : option Z) (full : bool) (d : dispatcher) : dispatcher :=
  {| inFlight := inFlight d; wake := wake d; leases := leases d; goroutines := goroutines d;
     asking := n; todo := todo d; stopping := stopping d; returned := returned d;
     saturated := full |}.
Definition set_todo (runs : list claimedRun) (d : dispatcher) : dispatcher :=
  {| inFlight := inFlight d; wake := wake d; leases := leases d; goroutines := goroutines d;
     asking := asking d; todo := runs; stopping := stopping d; returned := returned d;
     saturated := saturated d |}.
Definition stop (d : dispatcher) : dispatcher :=
  {| inFlight := inFlight d; wake := wake d; leases := leases d; goroutines := goroutines d;
     asking := asking d; todo := todo d; stopping := true; returned := returned d;
     saturated := saturated d |}.
Definition return_ (d : dispatcher) : dispatcher :=
  {| inFlight := inFlight d; wake := wake d; leases := leases d; goroutines := goroutines d;
     asking := asking d; todo := todo d; stopping := stopping d; returned := true;
     saturated := saturated d |}.
Definition set_leases (t : leaseTable) (d : dispatcher) : dispatcher :=
  {| inFlight := inFlight d; wake := wake d; leases := t; goroutines := goroutines d;
     asking := asking d; todo := todo d; stopping := stopping d; returned := returned d;
     saturated := saturated d |}.
Definition set_goroutines (n : Z) (gs : list (claimedRun * phase)) (d : dispatcher) : dispatcher :=
  {| inFlight := n; wake := wake d; leases := leases d; goroutines := gs; asking := asking d;
     todo := todo d; stopping := stopping d; returned := returned d; saturated := saturated d |}.

(** [dispatch] up to its claim statement. *)
Definition dispatch (d : dispatcher) : dispatcher :=
  if stopping d then d
  else
    let available := maxConcurrency eng - inFlight d in
    if available <=? 0 then ask None true d else ask (Some available) false d.

(** [dispatch] when its claim statement, asked for [available] runs, has answered. *)
Definition dispatch_answer (available : Z) (answer : outcome (list claimedRun)) (d : dispatcher)
    : dispatcher :=
  match answer with
  | Ok runs => set_todo runs (ask None (bool_decide (Z.of_nat (length runs) = available)) d)
  | _ => ask None false d
  end.

(** The body of [for i := range runs]. *)
Definition spawn (run : claimedRun) (s : dstate) : dstate :=
  let (active, d) := s in
  (active + 1,
   set_leases (insert_lease (ID run) (Token run) (deadline run) (leases d))
     (set_goroutines (inFlight d + 1) (goroutines d ++ [(run, Executing)]) d)).

(** The deferred function of the goroutine, one call at a time. *)
Definition cleanup (i : nat) (s : dstate) : dstate :=
  let (active, d) := s in
  match goroutines d !! i with
  | Some (run, Executing) =>
    (active, set_leases (release (Token run) (leases d))
               (set_goroutines (inFlight d) (<[i := (run, Released)]> (goroutines d)) d))
  | Some (run, Released) =>
    (active, set_goroutines (inFlight d - 1) (<[i := (run, Uncounted)]> (goroutines d)) d)
  | Some (run, Uncounted) =>
    (active, signal (set_goroutines (inFlight d) (<[i := (run, Signalled)]> (goroutines d)) d))
  | Some (run, Signalled) =>
    (active - 1, set_goroutines (inFlight d) (<[i := (run, Gone)]> (goroutines d)) d)
  | _ => s
  end.

(** A new loop: [wake] is filled by [StartWorker], and [dispatch()] runs first. *)
Definition new_dispatcher : dispatcher :=
  dispatch {| inFlight := 0; wake := true; leases := newLeaseTable; goroutines := [];
              asking := None; todo := []; stopping := false; returned := false;
              saturated := false |}.

(** The loop waits in its [select]. *)
Definition idle (d : dispatcher) : bool :=
  negb (returned d) && bool_decide (asking d = None) && bool_decide (todo d = []).

(** The server draws tokens that no claim of this worker has. *)
Definition fresh_tokens (runs : list claimedRun) (d : dispatcher) : Prop :=
  NoDup (Token <$> runs) ∧ ∀ run, run ∈ runs → Token run ∉ Token <$> (goroutines d).*1.

Inductive dispatch_step : dstate → dstate → Prop :=
  | step_tick active d : idle d → dispatch_step (active, d) (active, dispatch d)
  | step_woken active d : idle d → wake d → dispatch_step (active, d) (active, dispatch (consume d))
  | step_notified active d : dispatch_step (active, d) (active, signal d)
  | step_stop active d : dispatch_step (active, d) (active, stop d)
  | step_answer active d available o w answer w' :
    asking d = Some available → claimReadyRuns o eng available w = (answer, w') →
    (∀ runs, answer = Ok runs → fresh_tokens runs d) →
    dispatch_step (active, d) (active, dispatch_answer available answer d)
  | step_spawn active d run rest :
    todo d = run :: rest → dispatch_step (active, d) (spawn run (active, set_todo rest d))
  | step_cleanup s i : dispatch_step s (cleanup i s)
  | step_expire active d now :
    dispatch_step (active, d) (active, set_leases (expire (returned d) now (leases d)).1 d)
  | step_renewed active d sent renewed deadline :
    dispatch_step (active, d) (active, set_leases (applyRenewal sent renewed deadline (leases d)) d)
  | step_drained active d :
    idle d → stopping d → Forall (λ g, g.2 = Gone) (goroutines d) →
    dispatch_step (active, d) (active, return_ d)
  | step_drain_timeout active d :
    idle d → stopping d → dispatch_step (active, d) (active, return_ d).

(** ** Counting goroutines *)

Fixpoint tally (p : phase → bool) (gs : list (claimedRun * phase)) : Z :=
  match gs with [] => 0 | g :: gs => Z.b2z (p g.2) + tally p gs end.

Lemma tally_app p gs gs' : tally p (gs ++ gs') = tally p gs + tally p gs'.
Proof. induction gs as [|g gs IH]; cbn; [done|]. rewrite IH. lia. Qed.

Lemma tally_insert p gs i run q q' :
  gs !! i = Some (run, q) →
  tally p (<[i := (run, q')]> gs) = tally p gs - Z.b2z (p q) + Z.b2z (p q').
Proof.
  revert i. induction gs as [|g gs IH]; intros [|i]; cbn; [done..| |].
  - intros [= ->]. cbn. lia.
  - intros Hi. trans (Z.b2z (p g.2) + tally p (<[i := (run, q')]> gs)); [done|].
    rewrite (IH i Hi). lia.
Qed.

Lemma tally_le (p p' : phase → bool) gs : (∀ q, p q → p' q) → 0 <= tally p gs <= tally p' gs.
Proof.
  intros Hp. induction gs as [|[run q] gs IH]; cbn; [done|]. specialize (Hp q).
  destruct (p q), (p' q); cbn in *; lia || by destruct Hp.
Qed.

Lemma tally_zero p gs : (∀ g, g ∈ gs → p g.2 = false) → tally p gs = 0.
Proof.
  induction gs as [|g gs IH]; intros Hg; cbn; [done|]. rewrite (Hg g) by by left.
  rewrite IH; [done|]. intros g' Hg'. apply Hg. by right.
Qed.

Lemma tally_pos p gs : 0 < tally p gs → ∃ i run q, gs !! i = Some (run, q) ∧ p q = true.
Proof.
  induction gs as [|[run q] gs IH]; cbn; [lia|]. destruct (p q) eqn:E; intros Hp.
  - by exists 0%nat, run, q.
  - destruct IH as (i & run' & q' & ? & ?); [cbn in Hp; lia|]. by exists (S i), run', q'.
Qed.

(** What the code runs in, and what [inFlight] and [activeClaims] count. *)
Definition executing (q : phase) : bool := match q with Executing => true | _ => false end.
Definition occupies (q : phase) : bool :=
  match q with Executing | Released => true | _ => false end.
Definition unfinished (q : phase) : bool := match q with Gone => false | _ => true end.

(** ** A claim's answer is within its limit *)

Lemma outcome_mapM_length {A B} (f : A → outcome B) l k : mapM f l = Ok k → length k = length l.
Proof.
  revert k. induction l as [|x l IH]; intros k; cbn; [by intros [= <-]|]. intros Hk. invert_outcome.
  cbn. by rewrite (IH x1).
Qed.

Lemma claim_length pred q limit ttl e d rows d' :
  0 <= limit → claim pred q limit ttl e d = (Ok rows, d') → Z.of_nat (length rows) <= limit.
Proof.
  intros Hl Hc. apply claim_ids in Hc. rewrite <-(length_fmap c_id rows), Hc. by apply length_pick_le.
Qed.

Lemma claimReadyRuns_limit o limit w runs w' :
  0 < limit → claimReadyRuns o eng limit w = (Ok runs, w') → Z.of_nat (length runs) <= limit.
Proof.
  intros Hl. unfold claimReadyRuns. rewrite (proj2 (Z.leb_gt _ _)) by done.
  destruct (supportedWorkflows eng) as [names versions] eqn:Hsup. case_bool_decide.
  { intros [= <- <-]. cbn. lia. }
  rewrite io_bind_eq. destruct (time_Now o w) as [b w1] eqn:E.
  apply (time_Now_spec o) in E as [[t ->] _]. rewrite io_bind_eq.
  destruct (wrapping _ _ _ w1) as [b w2] eqn:E. apply wrapping_spec in E as (b0 & Hq & Hb).
  apply (query_pool o) in Hq as [_ Hans].
  destruct b as [rows|er|msg l]; unfold lift; intros [= Ha _]; [|done..].
  subst b0. destruct Hans as (d1 & e & _ & Hex & _).
  destruct (claim_stmt_pred _ _ _ _ _ _ _ _ Hsup Hex) as (pred & Hc & _).
  rewrite (outcome_mapM_length _ _ _ Ha). eapply claim_length; [|exact Hc]. lia.
Qed.

(** ** Invariants of the loop *)

Context (Hmax : 1 <= maxConcurrency eng).

(** A signal waits in [wake], or a goroutine that has left [inFlight] is about to send
    one. *)
Definition wake_coming (d : dispatcher) : Prop :=
  wake d = true ∨ ∃ i run, goroutines d !! i = Some (run, Uncounted).

Definition slots_accounted (d : dispatcher) : Prop :=
  match asking d with
  | Some n => n + inFlight d = maxConcurrency eng
  | None => saturated d = true → inFlight d + Z.of_nat (length (todo d)) = maxConcurrency eng
  end.

Definition slots_inv (d : dispatcher) : Prop :=
  stopping d = false → slots_accounted d ∨ wake_coming d.

(** [base] is what the other loops have in [activeClaims]. *)
Record dispatch_inv (base : Z) (s : dstate) : Prop := {
  di_inFlight : inFlight s.2 = tally occupies (goroutines s.2);
  di_active : s.1 = base + tally unfinished (goroutines s.2);
  di_room : inFlight s.2 + default 0 (asking s.2) + Z.of_nat (length (todo s.2)) <= maxConcurrency eng;
  di_asking : ∀ n, asking s.2 = Some n → 0 < n ∧ todo s.2 = [];
  di_tokens : NoDup (Token <$> (goroutines s.2).*1 ++ todo s.2);
  di_leases : ∀ k id, le_runID <$> leases s.2 !! k = Some id ↔
    ∃ i run, goroutines s.2 !! i = Some (run, Executing) ∧ Token run = k ∧ ID run = id;
  di_returned : returned s.2 = true → asking s.2 = None ∧ todo s.2 = [];
}.

Lemma insert_runs (gs : list (claimedRun * phase)) i run q q' :
  gs !! i = Some (run, q) → (<[i := (run, q')]> gs).*1 = gs.*1.
Proof.
  intros Hi. rewrite list_fmap_insert. apply list_insert_id. by rewrite list_lookup_fmap, Hi.
Qed.

Lemma same_token (gs : list (claimedRun * phase)) rest i j run run' q q' :
  NoDup (Token <$> gs.*1 ++ rest) → gs !! i = Some (run, q) → gs !! j = Some (run', q') →
  Token run = Token run' → i = j.
Proof.
  intros Hnd Hi Hj Ht. rewrite fmap_app, NoDup_app in Hnd. destruct Hnd as [Hnd _].
  eapply (proj1 (NoDup_alt _) Hnd); rewrite !list_lookup_fmap, ?Hi, ?Hj; [done|]. cbn. by rewrite Ht.
Qed.

Lemma idle_spec d : idle d ↔ returned d = false ∧ asking d = None ∧ todo d = [].
Proof. unfold idle. rewrite !andb_True, !bool_decide_spec. destruct (returned d); naive_solver. Qed.

Lemma dispatch_keeps base active d :
  dispatch_inv base (active, d) → idle d →
  dispatch_inv base (active, dispatch d) ∧ slots_inv (dispatch d).
Proof.
  intros [Hf Ha Hr Hq Ht Hl Hret] (Hnr & Hask & Htodo)%idle_spec. cbn [fst snd] in *.
  rewrite Hask, Htodo in Hr. cbn in Hr. unfold dispatch. destruct (stopping d) eqn:Hstop.
  { split; [|intros ?; congruence]. split; cbn; rewrite ?Hask, ?Htodo in *; done. }
  destruct (maxConcurrency eng - inFlight d <=? 0) eqn:Hav; bool_to_prop;
    (split; [split|]); cbn; rewrite ?Htodo in *; try done; try (cbn; lia).
  - intros _. left. unfold slots_accounted. cbn. rewrite Htodo. cbn. lia.
  - intros n [= <-]. split; [lia|done].
  - congruence.
  - intros _. left. unfold slots_accounted. cbn. lia.
Qed.

(** Changes of fields that the invariant leaves open. *)
Lemma same_inv base active d d' :
  inFlight d' = inFlight d → goroutines d' = goroutines d → asking d' = asking d →
  todo d' = todo d → (∀ k, le_runID <$> leases d' !! k = le_runID <$> leases d !! k) →
  (returned d' = true → asking d = None ∧ todo d = []) →
  dispatch_inv base (active, d) → dispatch_inv base (active, d').
Proof.
  intros Ef Eg Ea Et El Er [Hf Ha Hr Hq Ht Hl Hret].
  split; cbn [fst snd] in *; rewrite ?Ef, ?Eg, ?Ea, ?Et; try done. intros k id. by rewrite El.
Qed.

Lemma answer_keeps base active d n answer :
  dispatch_inv base (active, d) → asking d = Some n →
  (∀ runs, answer = Ok runs → Z.of_nat (length runs) <= n ∧ fresh_tokens runs d) →
  dispatch_inv base (active, dispatch_answer n answer d) ∧
  (slots_inv d → slots_inv (dispatch_answer n answer d)).
Proof.
  intros [Hf Ha Hr Hq Ht Hl Hret] Hn Hans. cbn [fst snd] in *. rewrite Hn in Hr. cbn in Hr.
  destruct (Hq n Hn) as [Hpos Htodo]. rewrite Htodo in *. cbn in Hr.
  assert (returned d ≠ true) as Hnr by (intros E; destruct (Hret E); congruence).
  assert (dispatch_inv base (active, ask None false d)) as Hask.
  { split; cbn; rewrite ?Htodo; try done; cbn; lia. }
  destruct answer as [runs|er|m a]; cbn [dispatch_answer].
  - destruct (Hans runs eq_refl) as (Hlen & Hnd & Hfresh). split.
    + split; cbn; try done; [lia|].
      rewrite app_nil_r in Ht. rewrite fmap_app, NoDup_app. split_and!; [done| |done].
      intros k Hk (run & -> & Hrun)%list_elem_of_fmap. by apply (Hfresh run Hrun).
    + intros Hs Hstop. destruct (Hs Hstop) as [Hacc|Hw]; [left|by right].
      unfold slots_accounted in *. rewrite Hn in Hacc. cbn. intros E%bool_decide_eq_true. lia.
  - split; [done|]. intros Hs Hstop. destruct (Hs Hstop) as [Hacc|Hw]; [by left|by right].
  - split; [done|]. intros Hs Hstop. destruct (Hs Hstop) as [Hacc|Hw]; [by left|by right].
Qed.

Lemma spawn_keeps base active d run rest :
  dispatch_inv base (active, d) → todo d = run :: rest →
  dispatch_inv base (spawn run (active, set_todo rest d)) ∧
  (slots_inv d → slots_inv (spawn run (active, set_todo rest d)).2).
Proof.
  intros [Hf Ha Hr Hq Ht Hl Hret] Htodo. cbn [fst snd] in *. rewrite Htodo in *.
  assert (asking d = None) as Hask.
  { destruct (asking d) as [n|] eqn:E; [|done]. by destruct (Hq n eq_refl) as [_ ?]. }
  assert (returned d ≠ true) as Hnr by (intros E; by destruct (Hret E) as [_ ?]).
  rewrite Hask in Hr. cbn in Hr. split.
  - split; cbn; rewrite ?tally_app; cbn; try lia.
    + rewrite Hask. cbn. lia.
    + intros n E. congruence.
    + rewrite (fmap_app fst). cbn. by rewrite <-app_assoc.
    + intros k id. unfold insert_lease.
      assert (Token run ∉ Token <$> (goroutines d).*1) as Hnew.
      { intros Hin. rewrite fmap_app, NoDup_app in Ht. apply (proj1 (proj2 Ht) _ Hin). by left. }
      split.
      * destruct (decide (k = Token run)) as [->|Hk].
        -- rewrite lookup_insert_eq. intros [= <-]. exists (length (goroutines d)), run.
           by rewrite list_lookup_middle.
        -- rewrite lookup_insert_ne by done. intros (i & run' & Hi & ? & ?)%Hl.
           exists i, run'. split; [|done]. by apply lookup_app_l_Some.
      * intros (i & run' & Hi & <- & <-). apply lookup_app_Some in Hi as [Hi|[_ Hi]].
        -- rewrite lookup_insert_ne; [apply Hl; eauto|]. intros E. apply Hnew. rewrite E.
           apply list_elem_of_fmap. exists run'. split; [done|]. apply list_elem_of_fmap.
           exists (run', Executing). split; [done|]. by eapply list_elem_of_lookup_2.
        -- apply list_lookup_singleton_Some in Hi as [_ [= ->]]. by rewrite lookup_insert_eq.
    + congruence.
  - intros Hs Hstop. destruct (Hs Hstop) as [Hacc|Hw].
    + left. unfold slots_accounted in *. cbn. rewrite Hask, Htodo in *. intros E.
      specialize (Hacc E). cbn in Hacc. lia.
    + right. destruct Hw as [Hw|(i & run' & Hi)]; [by left|right]. cbn.
      exists i, run'. by apply lookup_app_l_Some.
Qed.

(** A goroutine that moves from phase [q] to phase [q']. *)
Lemma advance_keeps base active active' d d' i run q q' :
  dispatch_inv base (active, d) → goroutines d !! i = Some (run, q) →
  goroutines d' = <[i := (run, q')]> (goroutines d) →
  inFlight d' = inFlight d - Z.b2z (occupies q) + Z.b2z (occupies q') →
  active' = active - Z.b2z (unfinished q) + Z.b2z (unfinished q') →
  inFlight d' <= inFlight d → asking d' = asking d → todo d' = todo d → returned d' = returned d →
  leases d' = (if executing q then release (Token run) (leases d) else leases d) →
  q' ≠ Executing → dispatch_inv base (active', d').
Proof.
  intros [Hf Ha Hr Hq Ht Hl Hret] Hi Eg Ef Ea Hle Eq Et Er El Hq'. cbn [fst snd] in *.
  split; cbn [fst snd]; rewrite ?Eg, ?Eq, ?Et, ?Er, ?(insert_runs _ _ _ _ q' Hi); try done.
  - rewrite Ef, (tally_insert _ _ _ _ _ _ Hi). lia.
  - rewrite Ea, (tally_insert _ _ _ _ _ _ Hi). lia.
  - lia.
  - intros k id. rewrite El. unfold release. destruct (executing q) eqn:Hex.
    + destruct q; try done. rewrite fmap_Some. setoid_rewrite lookup_delete_Some. split.
      * intros (en & [Hne Hk] & ->).
        destruct (proj1 (Hl k (le_runID en))) as (j & run' & Hj & <- & <-); [by rewrite Hk|].
        exists j, run'. split; [|done].
        rewrite list_lookup_insert_ne; [done|]. intros <-. congruence.
      * intros (j & run' & Hj & <- & <-).
        apply list_lookup_insert_Some in Hj as [(_ & [= _ E] & _)|[Hne Hj]]; [done|].
        pose proof (proj2 (Hl (Token run') (ID run')) ltac:(eauto)) as (en & Hen & Hid)%fmap_Some.
        exists en. split; [split|]; [|done..]. intros E. by apply Hne, (same_token _ _ _ _ _ _ _ _ Ht Hi Hj).
    + rewrite Hl. split; intros (j & run' & Hj & ? & ?); exists j, run'; (split; [|done]).
      * rewrite list_lookup_insert_ne; [done|]. intros <-. simplify_eq.
      * by apply list_lookup_insert_Some in Hj as [(_ & [= _ E] & _)|[_ ?]].
Qed.

Lemma wake_coming_advance d d' i run q q' :
  goroutines d !! i = Some (run, q) → goroutines d' = <[i := (run, q')]> (goroutines d) →
  wake d' = wake d → q ≠ Uncounted → wake_coming d → wake_coming d'.
Proof.
  intros Hi Eg Ew Hq [Hw|(j & run' & Hj)]; [left; congruence|right]. exists j, run'. rewrite Eg.
  rewrite list_lookup_insert_ne; [done|]. intros <-. congruence.
Qed.

Lemma cleanup_keeps base s i :
  dispatch_inv base s →
  dispatch_inv base (cleanup i s) ∧ (slots_inv s.2 → slots_inv (cleanup i s).2).
Proof.
  destruct s as [active d]. intros Hinv. unfold cleanup.
  destruct (goroutines d !! i) as [[run q]|] eqn:Hi; [|done].
  destruct q; [..|done];
    (split; [eapply (advance_keeps _ _ _ _ _ _ _ _ _ Hinv Hi); cbn; try reflexivity; cbn; done || lia|]);
    cbn; intros Hs Hstop.
  - destruct (Hs Hstop) as [?|Hw]; [by left|right]. by eapply wake_coming_advance.
  - right. right. cbn. exists i, run. by eapply list_lookup_insert_eq, lookup_lt_Some.
  - right. by left.
  - destruct (Hs Hstop) as [?|Hw]; [by left|right]. by eapply wake_coming_advance.
Qed.

Lemma expired_runID parent now (en : leaseEntry) : le_runID (expired_entry parent now en) = le_runID en.
Proof. unfold expired_entry. by repeat case_match. Qed.

Lemma slots_frame d d' :
  inFlight d' = inFlight d → goroutines d' = goroutines d → asking d' = asking d →
  todo d' = todo d → saturated d' = saturated d → (wake d = true → wake d' = true) →
  (stopping d' = false → stopping d = false) → slots_inv d → slots_inv d'.
Proof.
  intros Ef Eg Ea Et Es Ew Ep Hs Hstop. destruct (Hs (Ep Hstop)) as [Hacc|[Hw|Hg]].
  - left. unfold slots_accounted in *. by rewrite Ea, Ef, Et, Es.
  - right. left. by apply Ew.
  - right. right. by rewrite Eg.
Qed.

Lemma dispatch_step_keeps base s s' :
  dispatch_step s s' → dispatch_inv base s → slots_inv s.2 →
  dispatch_inv base s' ∧ slots_inv s'.2.
Proof.
  intros Hstep Hinv Hs. destruct Hstep; cbn [snd] in *.
  - by apply dispatch_keeps.
  - apply dispatch_keeps; [|done]. by apply (same_inv _ _ d); try apply Hinv.
  - split; [by apply (same_inv _ _ d); try apply Hinv|]. by apply (slots_frame d).
  - split; [by apply (same_inv _ _ d); try apply Hinv|]. by apply (slots_frame d).
  - destruct (answer_keeps _ _ _ available answer Hinv) as [? Hs']; [done| |by auto].
    intros runs ->. split; [|by auto]. eapply claimReadyRuns_limit; [|done].
    by eapply (di_asking _ _ Hinv).
  - destruct (spawn_keeps _ _ _ run rest Hinv) as [? Hs']; [done|by auto].
  - destruct (cleanup_keeps _ _ i Hinv) as [? Hs']. by auto.
  - split; [|by apply (slots_frame d)]. apply (same_inv _ _ d); try apply Hinv; try done. intros k.
    cbn. rewrite (proj1 (expire_spec _ _ _)). destruct (leases d !! k); [|done]. cbn.
    by rewrite expired_runID.
  - split; [|by apply (slots_frame d)]. apply (same_inv _ _ d); try apply Hinv; try done. intros k.
    cbn. rewrite lookup_applyRenewal. case_decide; [|done]. destruct (leases d !! k); [|done]. cbn.
    by case_decide.
  - split; [|by apply (slots_frame d)]. apply idle_spec in H0 as (_ & ? & ?).
    by apply (same_inv _ _ d); try apply Hinv.
  - split; [|by apply (slots_frame d)]. apply idle_spec in H0 as (_ & ? & ?).
    by apply (same_inv _ _ d); try apply Hinv.
Qed.

Lemma new_dispatcher_inv : dispatch_inv 0 (0, new_dispatcher) ∧ slots_inv new_dispatcher.
Proof.
  apply dispatch_keeps; [|done]. split; cbn; try done; [lia|constructor|].
  intros k id. unfold newLeaseTable. rewrite lookup_empty. split; [done|by intros (i & run & Hi & _)].
Qed.

(** ** The workers of an engine *)

(** [workerRunning] and [activeClaims] of the engine, and the dispatch loop of each
    [StartWorker] so far; claims of a loop that has returned may still run. *)
Record lifecycle := {
  workerRunning : bool;
  activeClaims : Z;
  workers : list dispatcher;
}.

Definition new_engine : lifecycle :=
  {| workerRunning := false; activeClaims := 0; workers := [] |}.

Definition already_running : error := Errorf "durablepg: worker is already running on this engine" [].
Definition still_running : error := Errorf "durablepg: stop the worker before waiting for idle" [].

Definition beginWorker (l : lifecycle) : outcome lifecycle :=
  if workerRunning l then Err already_running
  else Ok {| workerRunning := true; activeClaims := activeClaims l; workers := workers l |}.

Definition endWorker (l : lifecycle) : lifecycle :=
  {| workerRunning := false; activeClaims := activeClaims l; workers := workers l |}.

(** [StartWorker] up to its loops. *)
Definition StartWorker (l : lifecycle) : outcome lifecycle :=
  l ← beginWorker l;
  mret {| workerRunning := workerRunning l; activeClaims := activeClaims l;
          workers := workers l ++ [new_dispatcher] |}.

(** What [WaitForIdle] may return now; nothing when it still waits.  When the claims are
    done and the context is too, [select] takes either case. *)
Definition WaitForIdle (ctx : option error) (l : lifecycle) : list (outcome ()) :=
  if workerRunning l then [Err still_running]
  else
    (if activeClaims l =? 0 then [Ok ()] else []) ++
    match ctx with Some err => [Err err] | None => [] end.

Inductive engine_step : lifecycle → lifecycle → Prop :=
  | engine_start l l' : StartWorker l = Ok l' → engine_step l l'
  | engine_worker l i d active d' :
    workers l !! i = Some d → dispatch_step (activeClaims l, d) (active, d') →
    engine_step l {| workerRunning := workerRunning l; activeClaims := active;
                     workers := <[i := d']> (workers l) |}
  | engine_end l d :
    workerRunning l → last (workers l) = Some d → returned d → engine_step l (endWorker l).

(** [activeClaims] counts the claims of all loops. *)
Fixpoint all_unfinished (ds : list dispatcher) : Z :=
  match ds with [] => 0 | d :: ds => tally unfinished (goroutines d) + all_unfinished ds end.

Lemma all_unfinished_app ds ds' :
  all_unfinished (ds ++ ds') = all_unfinished ds + all_unfinished ds'.
Proof. induction ds as [|d ds IH]; cbn; [done|]. rewrite IH. lia. Qed.

Lemma all_unfinished_insert ds i d d' :
  ds !! i = Some d →
  all_unfinished (<[i := d']> ds) =
    all_unfinished ds - tally unfinished (goroutines d) + tally unfinished (goroutines d').
Proof.
  revert i. induction ds as [|d0 ds IH]; intros [|i]; cbn; [done..| |].
  - intros [= ->]. lia.
  - intros Hi. trans (tally unfinished (goroutines d0) + all_unfinished (<[i := d']> ds)); [done|].
    rewrite (IH i Hi). lia.
Qed.

Lemma tally_nonneg p gs : 0 <= tally p gs.
Proof. by apply (tally_le p p). Qed.

Lemma all_unfinished_le ds i d :
  ds !! i = Some d → 0 <= tally unfinished (goroutines d) <= all_unfinished ds.
Proof.
  intros Hi. apply take_drop_middle in Hi. rewrite <-Hi, all_unfinished_app. cbn.
  assert (∀ l, 0 <= all_unfinished l) as Hpos.
  { induction l as [|d0 l IH]; cbn; [done|]. pose proof (tally_nonneg unfinished (goroutines d0)). lia. }
  pose proof (Hpos (take i ds)). pose proof (Hpos (drop (S i) ds)).
  pose proof (tally_nonneg unfinished (goroutines d)). lia.
Qed.

Definition loop_inv (d : dispatcher) : Prop :=
  (∃ base active, dispatch_inv base (active, d)) ∧ slots_inv d.

Record engine_inv (l : lifecycle) : Prop := {
  ei_loops : ∀ i d, workers l !! i = Some d → loop_inv d;
  ei_active : activeClaims l = all_unfinished (workers l);
  ei_one_loop : ∀ i d, workers l !! i = Some d → returned d = false →
    workerRunning l = true ∧ i = pred (length (workers l));
}.

(** A loop's own share of [activeClaims]. *)
Lemma loop_inv_at active d :
  loop_inv d → dispatch_inv (active - tally unfinished (goroutines d)) (active, d).
Proof. intros [(base & a & [? ? ? ? ? ? ?]) _]. split; try done. cbn. lia. Qed.

Lemma returned_stays s s' : dispatch_step s s' → returned s.2 = true → returned s'.2 = true.
Proof.
  intros Hstep Hr. destruct Hstep; cbn [snd] in *; try done.
  - apply idle_spec in H0 as [? _]. congruence.
  - apply idle_spec in H0 as [? _]. congruence.
  - unfold dispatch_answer. by destruct answer.
  - unfold cleanup. destruct s as [a d]. by repeat case_match.
Qed.

Lemma engine_step_inv l l' : engine_step l l' → engine_inv l → engine_inv l'.
Proof.
  intros Hstep [Hl Ha H1]. destruct Hstep as [l l' Hstart|l i d active d' Hi Hd|l d Hrun Hlast Hret].
  - unfold StartWorker, beginWorker in Hstart. destruct (workerRunning l) eqn:Hr; [done|].
    injection Hstart as <-. destruct new_dispatcher_inv as [Hnew Hslots]. split; cbn.
    + intros i d [Hi|[_ Hi]]%lookup_app_Some; [by eapply Hl|].
      apply list_lookup_singleton_Some in Hi as [_ <-]. split; [by eexists _, _|done].
    + rewrite all_unfinished_app. cbn.
      pose proof (di_active _ _ Hnew) as Hz. cbn in Hz. lia.
    + intros i d [Hi|[Hge Hi]]%lookup_app_Some Hret; [destruct (H1 i d Hi Hret); congruence|].
      split; [done|]. apply list_lookup_singleton_Some in Hi as [Hz _]. rewrite length_app. cbn. lia.
  - pose proof (loop_inv_at (activeClaims l) d (Hl i d Hi)) as Hinv.
    apply (dispatch_step_keeps _ _ _ Hd) in Hinv as [Hinv' Hs]; [|by apply (Hl i)].
    cbn [fst snd] in *. pose proof (di_active _ _ Hinv') as Hact. cbn in Hact. split; cbn.
    + intros j dj Hj. apply list_lookup_insert_Some in Hj as [(_ & <- & _)|[_ Hj]]; [|by eapply Hl].
      split; [by eexists _, _|done].
    + rewrite (all_unfinished_insert _ _ _ _ Hi). lia.
    + intros j dj Hj Hret. rewrite length_insert. apply list_lookup_insert_Some in Hj as [(<- & <- & _)|[_ Hj]].
      * apply (H1 i d Hi). destruct (returned d) eqn:E; [|done].
        pose proof (returned_stays _ _ Hd E). cbn in *. congruence.
      * by apply (H1 j dj).
  - split; cbn; [done..|]. intros i di Hi Hnr. destruct (H1 i di Hi Hnr) as [_ ->].
    rewrite last_lookup, Hi in Hlast. injection Hlast as <-. by rewrite Hnr in Hret.
Qed.

Lemma reachable_engine_inv l : rtc engine_step new_engine l → engine_inv l.
Proof.
  assert (engine_inv new_engine) as H0.
  { split; cbn; [|done|]; by intros i d. }
  intros Hrtc. revert H0. induction Hrtc as [|l1 l2 l3 Hstep _ IH]; [done|].
  intros H1. by apply IH, (engine_step_inv l1).
Qed.

(** ** Properties *)

(** C14: an engine never has two dispatch loops, a loop never executes more claims at
    once than [maxConcurrency] - a claim statement asks for no more than the free slots,
    whatever finishes, is renewed or is signalled meanwhile - and its lease table
    holds exactly the claims being executed, so the heartbeat renews those and no
    others. *)
Theorem concurrency_is_bounded l :
  rtc engine_step new_engine l →
  (∀ i j d d', workers l !! i = Some d → workers l !! j = Some d' →
     returned d = false → returned d' = false → i = j) ∧
  ∀ i d, workers l !! i = Some d →
    0 <= tally executing (goroutines d) <= inFlight d ∧
    inFlight d + Z.of_nat (length (todo d)) <= maxConcurrency eng ∧
    (∀ n, asking d = Some n → 0 < n <= maxConcurrency eng - inFlight d) ∧
    ∀ k id, le_runID <$> leases d !! k = Some id ↔
      ∃ j run, goroutines d !! j = Some (run, Executing) ∧ Token run = k ∧ ID run = id.
Proof.
  intros [Hl _ H1]%reachable_engine_inv. split.
  { intros i j d d' Hi Hj Hr Hr'. destruct (H1 i d Hi Hr), (H1 j d' Hj Hr'). congruence. }
  intros i d Hi. destruct (Hl i d Hi) as [(base & a & [Hf _ Hroom Hask _ Hle _]) _]. cbn [fst snd] in *.
  assert (0 <= default 0 (asking d)) as Hpos.
  { destruct (asking d) as [n|]; [|done]. destruct (Hask n eq_refl). cbn. lia. }
  split_and!; [..|done].
  - by apply tally_nonneg.
  - rewrite Hf. apply tally_le. by intros [].
  - lia.
  - intros n E. destruct (Hask n E) as [? Htodo]. rewrite E, Htodo in Hroom. cbn in Hroom. lia.
Qed.

(** C15: no free slot is overlooked.  When a loop sleeps after a dispatch that found every
    slot taken or filled the last one, and a slot has become free since, then a signal
    waits in [wake] or the goroutine that freed the slot is about to send one; and the
    dispatch it wakes asks for all the free slots.  So a queue with due runs left does
    not have to wait for the poll. *)
Theorem no_free_slot_is_overlooked l i d :
  rtc engine_step new_engine l → workers l !! i = Some d →
  idle d → stopping d = false → saturated d = true → inFlight d < maxConcurrency eng →
  wake_coming d ∧
  asking (dispatch (consume d)) = Some (maxConcurrency eng - inFlight d).
Proof.
  intros [Hl _ _]%reachable_engine_inv Hi (_ & Hask & Htodo)%idle_spec Hstop Hsat Hfree. split.
  - destruct (Hl i d Hi) as [_ Hs]. destruct (Hs Hstop) as [Hacc|]; [|done].
    unfold slots_accounted in Hacc. rewrite Hask, Htodo in Hacc. specialize (Hacc Hsat). cbn in Hacc. lia.
  - unfold dispatch. cbn. rewrite Hstop. by rewrite (proj2 (Z.leb_gt _ _)) by lia.
Qed.

(** C17: an engine is idle exactly when nothing of it runs.  [WaitForIdle] can report
    success if and only if no worker runs and no claim of any worker, past ones that
    outlived their drain included, has anything left to do; then no loop is asking for
    runs or about to start one, so the pool may be closed. *)
Theorem idle_means_no_claims l ctx :
  rtc engine_step new_engine l →
  (Ok () ∈ WaitForIdle ctx l ↔ workerRunning l = false ∧
     ∀ i d, workers l !! i = Some d → ∀ j run q, goroutines d !! j = Some (run, q) → q = Gone) ∧
  (Ok () ∈ WaitForIdle ctx l → ∀ i d, workers l !! i = Some d →
     returned d = true ∧ asking d = None ∧ todo d = [] ∧ leases d = ∅).
Proof.
  intros [Hl Ha H1]%reachable_engine_inv.
  assert (Ok () ∈ WaitForIdle ctx l ↔ workerRunning l = false ∧ activeClaims l = 0) as Hok.
  { unfold WaitForIdle. destruct (workerRunning l).
    - rewrite list_elem_of_singleton. split; [done|by intros [? _]].
    - rewrite elem_of_app. destruct (activeClaims l =? 0) eqn:E; bool_to_prop.
      + split; [done|]. intros _. left. by left.
      + split; [|by intros [_ ?]]. intros [[]%elem_of_nil|Hin].
        destruct ctx; [apply list_elem_of_singleton in Hin|apply elem_of_nil in Hin]; done. }
  assert (activeClaims l = 0 ↔ ∀ i d, workers l !! i = Some d →
    ∀ j run q, goroutines d !! j = Some (run, q) → q = Gone) as Hgone.
  { rewrite Ha. split.
    - intros Hz i d Hi j run q Hj. pose proof (all_unfinished_le _ _ _ Hi).
      destruct (decide (q = Gone)) as [|Hq]; [done|].
      pose proof (tally_insert unfinished _ _ _ _ Gone Hj) as Ht. cbn in Ht.
      pose proof (tally_nonneg unfinished (<[j := (run, Gone)]> (goroutines d))).
      destruct q; cbn in Ht; done || lia.
    - clear Hok Ha Hl H1. induction (workers l) as [|d ds IH]; intros Hall; cbn; [done|].
      rewrite IH by (intros i d' Hi; by apply (Hall (S i))). rewrite tally_zero; [done|].
      intros [run q] [j Hj]%list_elem_of_lookup. by rewrite (Hall 0%nat d eq_refl j run q Hj). }
  rewrite Hok, Hgone. split; [done|]. intros [Hr Hall] i d Hi.
  assert (returned d = true) as Hret.
  { destruct (returned d) eqn:E; [done|]. destruct (H1 i d Hi E). congruence. }
  destruct (Hl i d Hi) as [(base & a & [_ _ _ _ _ Hle Hrt]) _]. cbn [fst snd] in *.
  destruct (Hrt Hret) as [-> ->]. split_and!; try done. apply map_eq. intros k. rewrite lookup_empty.
  destruct (leases d !! k) as [en|] eqn:E; [|done]. exfalso.
  destruct (proj1 (Hle k (le_runID en))) as (j & run & Hj & _); [by rewrite E|].
  by pose proof (Hall i d Hi j run Executing Hj).
Qed.
End dispatcher.
