(* ===== verification/Listener.v ===== *)
(** * The notification listener: how a worker hears of new work

    [listenLoop] and [listen] of worker.go beside the dispatch loop and the tables.
    PostgreSQL sends a session the notifications of its channel that commit after its
    [LISTEN], in their order; what was sent before, or while the connection was down,
    the listener makes up for by a signal of its own. *)

From S2P Require Import Prelude GoText Json Types Builder Postgres Queries Store Statements.
From S2P Require Import Claims Events Timing Leases Effects Engine Worker Replay Dispatcher.

(** Where the goroutine is: in [pgx.ConnectConfig], in [LISTEN], at the [signal()] that
    follows, in [WaitForNotification], at the comparison of a payload, at the [signal()]
    after an error, back in [listenLoop] with an error, in its pause, or returned.  [pos]
    counts the notifications of the log that the session is past. *)
Inductive listener :=
  | Connecting
  | Subscribing
  | Announcing (pos : nat)
  | Waiting (pos : nat)
  | Comparing (pos : nat) (payload : string)
  | Dropped
  | Failed
  | Pausing
  | Quit.

Section listener.
Context `{Postgres} (eng : Engine).

(** The next notification for a session that is past [pos]. *)
Definition next_note (log : list (string * string)) (pos : nat) : option (nat * string) :=
  '(i, note) ← list_find (λ n, n.1 = channel eng) (drop pos log);
  Some (pos + S i, note.2)%nat.

(** One step of [listen]: [ok] is whether the call succeeds; the answer says whether it
    signals. *)
Definition listen (log : list (string * string)) (ok : bool) (l : listener) : listener * bool :=
  match l with
  | Connecting => (if ok then Subscribing else Failed, false)
  | Subscribing => (if ok then Announcing (length log) else Failed, false)
  | Announcing pos => (Waiting pos, true)
  | Waiting pos =>
    if ok then
      match next_note log pos with
      | Some (pos', payload) => (Comparing pos' payload, false)
      | None => (Waiting pos, false)
      end
    else (Dropped, false)
  | Comparing pos payload => (Waiting pos, bool_decide (payload = e_queue eng))
  | Dropped => (Failed, true)
  | _ => (l, false)
  end.

(** One step of [listenLoop]; [stopping] is [ctx.Err() != nil].  When the pause is over
    and the context done, [select] takes either case. *)
Definition listenLoop (log : list (string * string)) (stopping ok : bool) (l : listener)
    : listener * bool :=
  match l with
  | Failed => (if stopping then Quit else Pausing, false)
  | Pausing => (if stopping && ok then Quit else Connecting, false)
  | _ => listen log ok l
  end.

(** ** A worker on its tables *)

(** [asked] is an observer's note: how many notifications had been sent when the last
    dispatch began. *)
Record site := {
  tables : db;
  ear : listener;
  loop : dstate;
  asked : nat;
}.

Notation sent st := (length (notifications (tables st))).

Definition on_tables (d : db) (st : site) : site :=
  {| tables := d; ear := ear st; loop := loop st; asked := asked st |}.
Definition on_loop (s : dstate) (st : site) : site :=
  {| tables := tables st; ear := ear st; loop := s; asked := asked st |}.
Definition heard (l : listener) (signals : bool) (st : site) : site :=
  {| tables := tables st; ear := l;
     loop := ((loop st).1, if signals then signal (loop st).2 else (loop st).2);
     asked := asked st |}.
Definition begin_dispatch (d : dispatcher) (st : site) : site :=
  {| tables := tables st; ear := ear st; loop := ((loop st).1, dispatch eng d); asked := sent st |}.

Definition new_site (active : Z) (d : db) : site :=
  {| tables := d; ear := Connecting; loop := (active, new_dispatcher eng);
     asked := length (notifications d) |}.

(** Anybody runs statements, this worker's claims and commits included; the listener and
    the loop take their steps. *)
Inductive site_step : site → site → Prop :=
  | site_statement {X} (s : stmt X) e st : site_step st (on_tables (exec s e (tables st)).2 st)
  | site_listener ok st l signals :
      listenLoop (notifications (tables st)) (stopping (loop st).2) ok (ear st) = (l, signals) →
      site_step st (heard l signals st)
  | site_tick st : idle (loop st).2 → site_step st (begin_dispatch (loop st).2 st)
  | site_woken st :
      idle (loop st).2 → wake (loop st).2 →
      site_step st (begin_dispatch (consume (loop st).2) st)
  | site_loop st s' :
      dispatch_step eng (loop st) s' → (wake (loop st).2 = true → wake s'.2 = true) →
      site_step st (on_loop s' st).

(** ** Every notification is heard *)

Lemma next_note_None log pos i n :
  next_note log pos = None → (pos ≤ i)%nat → log !! i = Some n → n.1 ≠ channel eng.
Proof.
  unfold next_note. destruct (list_find _ _) as [[j n']|] eqn:E; [done|]. intros _ Hi Hn.
  apply list_find_None in E. rewrite Forall_lookup in E. apply (E (i - pos)%nat).
  rewrite lookup_drop. by replace (pos + (i - pos))%nat with i by lia.
Qed.

Lemma next_note_Some log pos pos' payload :
  next_note log pos = Some (pos', payload) →
  (pos < pos' ≤ length log)%nat ∧ log !! pred pos' = Some (channel eng, payload) ∧
  ∀ i n, (pos ≤ i < pred pos')%nat → log !! i = Some n → n.1 ≠ channel eng.
Proof.
  unfold next_note. destruct (list_find _ _) as [[j [c p]]|] eqn:E; [|done]. cbn. intros [= <- <-].
  apply list_find_Some in E as (Hj & Hc & Hmin). cbn in Hc. subst c. rewrite lookup_drop in Hj.
  assert (pred (pos + S j) = (pos + j)%nat) as -> by lia. split_and!; [lia| |done|].
  { apply lookup_lt_Some in Hj. lia. }
  intros i n Hi Hn. apply (Hmin (i - pos)%nat n); [|lia].
  rewrite lookup_drop. by replace (pos + (i - pos))%nat with i by lia.
Qed.

(** The listener will still signal for notification [i] of this queue. *)
Definition hears (l : listener) (i : nat) : Prop :=
  match l with
  | Waiting pos => (pos ≤ i)%nat
  | Comparing pos payload => (pos ≤ i)%nat ∨ payload = e_queue eng
  | Quit => False
  | _ => True
  end.

Definition past (l : listener) : nat :=
  match l with Announcing pos | Waiting pos | Comparing pos _ => pos | _ => 0 end.

Record site_inv (st : site) : Prop := {
  si_past : (past (ear st) ≤ sent st)%nat;
  si_asked : (asked st ≤ sent st)%nat;
  si_quit : ear st = Quit → stopping (loop st).2 = true;
  si_heard : stopping (loop st).2 = false → ∀ i,
    notifications (tables st) !! i = Some (channel eng, e_queue eng) →
    (i < asked st)%nat ∨ wake (loop st).2 = true ∨ hears (ear st) i;
}.

Lemma exec_notifications {X} (s : stmt X) e d :
  notifications d `prefix_of` notifications (exec s e d).2.
Proof.
  destruct s; cbn [exec snd]; try done;
    try (unfold Queries.completeRun, parkSleep, parkWait, Queries.failOrRetry, fenced_update,
      renewLeases, cancelRun, latestEvent, claimSingle, claimMulti; repeat case_match; done).
  - unfold insertRun. repeat case_match; cbn; try done; by apply prefix_app_r.
  - unfold emitEvent. repeat case_match; cbn; try done; by apply prefix_app_r.
  - unfold Queries.commitStep. repeat case_match; done.
  - unfold promoteTimedOut. cbn. by apply prefix_app_r.
Qed.

Lemma stopping_stays s s' : dispatch_step eng s s' → stopping s.2 = true → stopping s'.2 = true.
Proof.
  intros Hs. destruct Hs; cbn; try done.
  - unfold dispatch. intros E. by rewrite E.
  - unfold dispatch. cbn. intros E. by rewrite E.
  - unfold dispatch_answer. by destruct answer.
  - unfold cleanup. destruct s as [a d]. by repeat case_match.
Qed.

Lemma dispatch_stopping d : stopping (dispatch eng d) = stopping d.
Proof. unfold dispatch. by repeat case_match. Qed.
Lemma dispatch_wake d : wake (dispatch eng d) = wake d.
Proof. unfold dispatch. by repeat case_match. Qed.

Lemma listen_past log stop ok l l' signals :
  listenLoop log stop ok l = (l', signals) → (past l ≤ length log)%nat →
  (past l' ≤ length log)%nat ∧ (l' = Quit → l = Quit ∨ stop = true).
Proof.
  intros Hl Hp. destruct l; cbn in *;
    try (simplify_eq; destruct ok; cbn; (split; [lia|by auto])).
  - destruct ok; [|simplify_eq; cbn; split; [lia|done]].
    destruct (next_note log pos) as [[pos' payload]|] eqn:E; simplify_eq; [|done].
    apply next_note_Some in E as ([_ Hle] & _). by split.
  - simplify_eq. destruct stop; cbn; (split; [lia|by auto]).
  - simplify_eq. destruct stop, ok; cbn; (split; [lia|by auto]).
Qed.

(** A step of the listener keeps hold of what it has not signalled for. *)
Lemma listen_hears log stop ok l l' signals i :
  listenLoop log stop ok l = (l', signals) → log !! i = Some (channel eng, e_queue eng) →
  hears l i → stop = true ∨ signals = true ∨ hears l' i.
Proof.
  intros Hl Hi. apply lookup_lt_Some in Hi as Hlt.
  destruct l; cbn in *; try (simplify_eq; destruct ok; cbn; by auto with lia).
  - destruct ok; [|simplify_eq; cbn; by auto].
    destruct (next_note log pos) as [[pos' payload]|] eqn:E; simplify_eq; [|auto].
    apply next_note_Some in E as (Hpos & Hat & Hskip). cbn. intros Hh. right. right.
    destruct (decide (i < pred pos')%nat) as [Hb|Hb].
    + by destruct (Hskip i (channel eng, e_queue eng)).
    + destruct (decide (i = pred pos')) as [->|]; [right; congruence|left; lia].
  - simplify_eq. cbn. rewrite bool_decide_eq_true. tauto.
  - simplify_eq. destruct stop; cbn; auto.
  - simplify_eq. destruct stop, ok; cbn; auto.
Qed.

Lemma site_step_inv st st' : site_step st st' → site_inv st → site_inv st'.
Proof.
  intros Hstep [Hp Ha Hq Hh]. destruct Hstep as [X s e st|ok st l signals Hl|st Hidle|st Hidle Hw|st s' Hd Hw].
  - destruct (exec_notifications s e (tables st)) as [new Hn].
    split; cbn; rewrite ?Hn, ?length_app; [lia..|done|].
    intros Hstop i [Hi|[Hi _]]%lookup_app_Some; [by auto|]. right. right.
    destruct (ear st); cbn in *; try done; try lia. by rewrite Hq in Hstop.
  - destruct (listen_past _ _ _ _ _ _ Hl Hp) as [Hp' Hq'].
    assert (stopping (if signals then signal (loop st).2 else (loop st).2) = stopping (loop st).2) as Es
      by by destruct signals.
    split; cbn; rewrite ?Es; [done|done| |].
    + intros E. destruct (Hq' E); auto.
    + intros Hstop i Hi. destruct (Hh Hstop i Hi) as [?|[Hw|Hears]]; [by left|right; left; by destruct signals|].
      right. destruct (listen_hears _ _ _ _ _ _ i Hl Hi Hears) as [?|[->|?]]; [congruence|by left|by right].
  - split; cbn; rewrite ?dispatch_stopping; [done|done|done|].
    intros _ i Hi. left. by apply lookup_lt_Some in Hi.
  - split; cbn; rewrite ?dispatch_stopping; [done|done|done|].
    intros _ i Hi. left. by apply lookup_lt_Some in Hi.
  - split; cbn; [done|done| |].
    + intros E. by eapply stopping_stays, Hq.
    + intros Hstop i Hi.
      assert (stopping (loop st).2 = false) as Hstop0.
      { destruct (stopping (loop st).2) eqn:E; [|done]. by rewrite (stopping_stays _ _ Hd E) in Hstop. }
      destruct (Hh Hstop0 i Hi) as [?|[?|?]]; auto.
Qed.

Lemma site_steps_inv st st' : rtc site_step st st' → site_inv st → site_inv st'.
Proof. induction 1; eauto using site_step_inv. Qed.

Lemma new_site_inv active d : site_inv (new_site active d).
Proof.
  split; cbn; [lia|done|done|]. intros _ i Hi. left. by apply lookup_lt_Some in Hi.
Qed.

Lemma site_steps_tables st st' :
  rtc site_step st st' → notifications (tables st) `prefix_of` notifications (tables st').
Proof.
  induction 1 as [|st1 st2 st3 Hs _ IH]; [done|]. etrans; [|exact IH].
  destruct Hs; cbn; try done. apply exec_notifications.
Qed.

(** ** Work that is announced *)

(** The engines of a schema send on its channel. *)
Definition on_channel {X} (s : stmt X) : Prop :=
  match s with
  | InsertRun _ _ _ _ _ _ _ _ ch | EmitEvent_ _ _ _ ch | PromoteTimedOut ch => ch = channel eng
  | _ => True
  end.

(** A run that appears or leaves its wait, ready and due, as [s] runs. *)
Definition made_due {X} (s : stmt X) (e : env) (d : db) (k : string) (r' : run) : Prop :=
  workflow_runs (exec s e d).2 !! k = Some r' ∧ state r' = RunReady ∧ next_run_at r' <= now e ∧
  match workflow_runs d !! k with Some r => state r = RunWaitingEvent | None => True end.

Definition latent (d : db) (k : string) : Prop :=
  match workflow_runs d !! k with Some r => state r = RunWaitingEvent | None => True end.

(** Only an update that takes a waiting row and makes it ready publishes one. *)
Lemma update_not_due P f d k r' :
  latent d k → update_where P f (workflow_runs d) !! k = Some r' → state r' = RunReady →
  ∃ r, workflow_runs d !! k = Some r ∧ r' = f k r ∧ P k r = true.
Proof.
  unfold latent. rewrite lookup_update_where. destruct (workflow_runs d !! k) as [r|]; [|done].
  cbn. intros Hw [= <-] Hs. exists r. destruct (P k r); [done|]. by rewrite Hw in Hs.
Qed.

Lemma woken_notified P f d k r' :
  latent d k → update_where P f (workflow_runs d) !! k = Some r' → state r' = RunReady →
  (∀ r, queue (f k r) = queue r) → queue r' ∈ distinct_queues (affected P (workflow_runs d)).
Proof.
  intros Hl Hr Hs Hq. destruct (update_not_due P f d k r' Hl Hr Hs) as (r & Hr0 & -> & HP).
  apply elem_of_distinct_queues. exists k, r. by rewrite lookup_affected, Hq.
Qed.

Lemma fenced_not_due id token args f e d k r' :
  latent d k → workflow_runs (fenced_update id token args f e d).2 !! k = Some r' →
  state r' ≠ RunReady.
Proof.
  unfold fenced_update. intros Hl Hr Hs.
  assert (workflow_runs d !! k ≠ Some r') as Hd by (intros E; unfold latent in Hl; rewrite E in Hl; congruence).
  case_match; [|done..]. destruct a as [id' tok']. cbn in Hr.
  destruct (update_not_due _ _ _ _ _ Hl Hr Hs) as (r & Hr0 & _ & HP).
  apply fence_spec in HP as (_ & Hst & _). unfold latent in Hl. rewrite Hr0 in Hl. congruence.
Qed.

Lemma claim_not_due pred q limit ttl e d k r' :
  latent d k → workflow_runs (claim pred q limit ttl e d).2 !! k = Some r' → state r' ≠ RunReady.
Proof.
  unfold claim. cbn. intros Hl Hr Hs.
  by destruct (update_not_due _ _ _ _ _ Hl Hr Hs) as (r & _ & -> & _).
Qed.

(** The statements that do not publish runs. *)
Definition publishes {X} (s : stmt X) : Prop :=
  match s with InsertRun _ _ _ _ _ _ _ _ _ | EmitEvent_ _ _ _ _ | PromoteTimedOut _ => True | _ => False end.

Lemma silent_not_due {X} (s : stmt X) e d k r' :
  ¬ publishes s → latent d k → workflow_runs (exec s e d).2 !! k = Some r' → state r' ≠ RunReady.
Proof.
  intros Hp Hl.
  assert (workflow_runs d !! k = Some r' → state r' ≠ RunReady) as Hsame.
  { intros E. unfold latent in Hl. rewrite E in Hl. congruence. }
  destruct s; cbn [exec snd]; try done; try by apply fenced_not_due.
  - unfold claimSingle. case_match; [|done..]. destruct a as [[? ?] ?]. by apply claim_not_due.
  - unfold claimMulti. case_match; [|done..]. destruct a as [[? ?] ?]. by apply claim_not_due.
  - unfold renewLeases. case_match; [|done..]. cbn. intros Hr Hs.
    destruct (update_not_due _ _ _ _ _ Hl Hr Hs) as (r & Hr0 & -> & _).
    unfold latent in Hl. rewrite Hr0 in Hl. cbn in Hs. congruence.
  - unfold Queries.commitStep. case_match; [|done..]. destruct a as [[[? ?] ?] ?].
    case_match; [done|]. case_match; [|done..]. cbn. intros Hr Hs.
    destruct (update_not_due _ _ _ _ _ Hl Hr Hs) as (r & Hr0 & _ & [HP _]%andb_prop).
    apply fence_spec in HP as (_ & Hst & _). unfold latent in Hl. rewrite Hr0 in Hl. congruence.
  - unfold Queries.completeRun. case_match; [|done..]. by apply fenced_not_due.
  - unfold latestEvent. by case_match.
  - unfold recoverLeases. cbn. intros Hr Hs.
    destruct (update_not_due _ _ _ _ _ Hl Hr Hs) as (r & Hr0 & _ & HP%bool_decide_eq_true).
    eapply picked_row in HP; [|done]. unfold expired in HP. bool_to_prop.
    unfold latent in Hl. rewrite Hr0 in Hl. congruence.
  - unfold cancelRun. case_match; [|done..]. cbn. intros Hr Hs.
    by destruct (update_not_due _ _ _ _ _ Hl Hr Hs) as (r & _ & -> & _).
Qed.

(** The queue of a run that is made due is notified. *)
Lemma made_due_notified {X} (s : stmt X) e d k r' :
  on_channel s → made_due s e d k r' →
  ∃ new, notifications (exec s e d).2 = notifications d ++ new ∧ (channel eng, queue r') ∈ new.
Proof.
  intros Hch (Hr & Hs & Hdue & Hl). change (latent d k) in Hl.
  assert (workflow_runs d !! k = Some r' → False) as Hsame.
  { intros E. unfold latent in Hl. rewrite E in Hl. congruence. }
  assert (¬ publishes s → False) as Hpub by (intros Hp; by apply (silent_not_due s e d k r')).
  destruct s; cbn [publishes] in Hpub; try (destruct Hpub; tauto);
    cbn [on_channel exec] in *; subst.
  - revert Hr. unfold insertRun. case_match; [|done..]. destruct a as [[[[[[i ?] ?] q'] ?] ?] dd].
    case_match; [done|]. case_match.
    + case_match; [done|]. cbn [snd workflow_runs notify set_runs].
      rewrite lookup_insert_Some. intros [[<- <-]|[_ ?]]; [|done].
      exists [(channel eng, q')]. cbn in Hdue |- *. rewrite (proj2 (Z.leb_le _ _)) by done.
      split; [done|by left].
    + destruct p as [existing row]. cbn. intros Hr.
      destruct (update_not_due _ _ _ _ _ Hl Hr Hs) as (r & Hr0 & -> & _).
      unfold latent in Hl. rewrite Hr0 in Hl. cbn in Hs. congruence.
  - revert Hr. unfold emitEvent. case_match; [|done..]. destruct a as [key' payload'].
    cbn [snd workflow_runs notifications notify set_checkpoints set_events set_runs]. intros Hr.
    eexists. split; [done|]. apply list_elem_of_fmap. eexists. split; [done|]. by eapply woken_notified.
  - revert Hr. unfold promoteTimedOut.
    cbn [snd workflow_runs notifications notify set_checkpoints set_runs]. intros Hr.
    eexists. split; [done|]. apply list_elem_of_fmap. eexists. split; [done|]. by eapply woken_notified.
Qed.

(** The listener has heard all that was sent, and no signal waits. *)
Definition caught_up (st : site) : Prop :=
  (∃ pos, ear st = Waiting pos ∧ (sent st ≤ pos)%nat) ∧ wake (loop st).2 = false.

(** C16: new work is asked for without a poll.  When a statement of any engine of the
    schema makes a run of the worker's queue ready and due - by enqueueing it, by
    emitting its event or by timing its wait out - the worker begins a dispatch after
    it: once the listener has caught up and the loop has taken its signal, the last
    dispatch began later than that statement.  Connections may drop and notifications
    get lost with them at any point, since the listener signals after every error and
    every [LISTEN]. *)
Theorem published_work_is_asked_for active d0 st {X} (s : stmt X) e k r st' :
  rtc site_step (new_site active d0) st →
  on_channel s → made_due s e (tables st) k r → queue r = e_queue eng →
  rtc site_step (on_tables (exec s e (tables st)).2 st) st' →
  stopping (loop st').2 = false → caught_up st' →
  (sent st < asked st')%nat.
Proof.
  intros Hst Hch Hdue Hq Hst' Hstop [(pos & Hear & Hpos) Hwake].
  destruct (made_due_notified s e _ _ _ Hch Hdue) as (new & Hn & [i Hi]%list_elem_of_lookup).
  assert (site_inv st') as [_ _ _ Hh].
  { eapply site_steps_inv; [|apply new_site_inv]. etrans; [exact Hst|].
    eapply rtc_l; [|exact Hst']. constructor. }
  assert (notifications (tables st') !! (sent st + i)%nat = Some (channel eng, e_queue eng)) as Hat.
  { destruct (site_steps_tables _ _ Hst') as [more Hm]. cbn in Hm. rewrite Hm, Hn.
    apply lookup_app_l_Some. rewrite lookup_app_r by lia.
    replace (sent st + i - sent st)%nat with i by lia. by rewrite <-Hq. }
  apply lookup_lt_Some in Hat as Hlt.
  destruct (Hh Hstop _ Hat) as [?|[?|Hears]]; [lia|congruence|]. rewrite Hear in Hears. cbn in Hears. lia.
Qed.
End listener.
