(* ===== verification/Migrate.v ===== *)
(** * migrate.go: installing and upgrading the schema

    [ApplySchema] is one transaction under an advisory lock: two of them on the same
    schema run one after the other, so each is a function from the catalog it finds to
    the catalog it leaves.  What a DDL text does to the objects of a schema is
    PostgreSQL's: [ddl], over some type of objects, is a parameter. *)

From S2P Require Import Prelude GoText Json Types Builder Postgres Queries Store Timing.
From S2P Require Import Effects Engine.

(** ** The DDL *)

(** [fmt.Sprintf(template, arg)] for a template whose only verb is [%[1]s]. *)
Fixpoint Sprintf1 (template : string) (arg : string) : string :=
  match template with
  | EmptyString => EmptyString
  | String c rest =>
    match template with
    | String "%" (String "[" (String "1" (String "]" (String "s" rest')))) =>
      arg +:+ Sprintf1 rest' arg
    | _ => String c (Sprintf1 rest arg)
    end
  end.

Definition install_template : string := "
CREATE TABLE %[1]s.workflow_runs (
	id UUID PRIMARY KEY,
	workflow_name TEXT NOT NULL,
	workflow_version INTEGER NOT NULL CHECK (workflow_version > 0),
	queue TEXT NOT NULL,
	state TEXT NOT NULL CHECK (state IN ('ready', 'leased', 'waiting_event', 'completed', 'failed', 'cancelled')),
	step_index INTEGER NOT NULL DEFAULT 0,
	attempt INTEGER NOT NULL DEFAULT 0,
	max_attempts INTEGER NOT NULL CHECK (max_attempts > 0),
	lease_failures INTEGER NOT NULL DEFAULT 0,
	next_run_at TIMESTAMPTZ NOT NULL DEFAULT now(),
	lease_token UUID,
	lease_until TIMESTAMPTZ,
	waiting_event_key TEXT,
	waiting_deadline TIMESTAMPTZ,
	input_json JSONB NOT NULL,
	output_json JSONB,
	dedup_key TEXT,
	last_error TEXT,
	created_at TIMESTAMPTZ NOT NULL DEFAULT now(),
	updated_at TIMESTAMPTZ NOT NULL DEFAULT now()
);

-- Multi-definition workers scan by queue and due time.
CREATE INDEX workflow_runs_ready_idx
	ON %[1]s.workflow_runs (queue, next_run_at, id)
	WHERE state = 'ready';

-- Single-definition workers use equality predicates on this index.
CREATE INDEX workflow_runs_selective_ready_idx
	ON %[1]s.workflow_runs (queue, workflow_name, workflow_version, next_run_at, id)
	WHERE state = 'ready';

CREATE INDEX workflow_runs_leased_idx
	ON %[1]s.workflow_runs (lease_until)
	WHERE state = 'leased';

CREATE INDEX workflow_runs_waiting_key_idx
	ON %[1]s.workflow_runs (waiting_event_key)
	WHERE state = 'waiting_event';

CREATE INDEX workflow_runs_waiting_deadline_idx
	ON %[1]s.workflow_runs (waiting_deadline)
	WHERE state = 'waiting_event';

CREATE UNIQUE INDEX workflow_runs_dedup_uidx
	ON %[1]s.workflow_runs (workflow_name, dedup_key)
	WHERE dedup_key IS NOT NULL;

CREATE TABLE %[1]s.step_checkpoints (
	run_id UUID NOT NULL REFERENCES %[1]s.workflow_runs (id) ON DELETE CASCADE,
	step_index INTEGER NOT NULL,
	value_json JSONB NOT NULL,
	completed_at TIMESTAMPTZ NOT NULL DEFAULT now(),
	PRIMARY KEY (run_id, step_index)
);

CREATE TABLE %[1]s.event_log (
	id BIGINT GENERATED ALWAYS AS IDENTITY PRIMARY KEY,
	event_key TEXT NOT NULL,
	payload_json JSONB NOT NULL,
	created_at TIMESTAMPTZ NOT NULL DEFAULT now(),
	expires_at TIMESTAMPTZ NOT NULL
);

CREATE INDEX event_log_key_idx ON %[1]s.event_log (event_key, created_at DESC, id DESC);
CREATE INDEX event_log_expires_idx ON %[1]s.event_log (expires_at);
".

(** Index i is version i + 1. *)
Definition migrations (e : Engine) : list string := [Sprintf1 install_template (qSchema e)].

Definition newline : string := String (ascii_of_nat 10) EmptyString.
Definition SchemaSQL (e : Engine) : string :=
  "CREATE SCHEMA IF NOT EXISTS " +:+ qSchema e +:+ ";" +:+ newline +:+ String.concat "" (migrations e).

(** ** The catalog and the migration *)

Section migrate.
Context {T : Type} (ddl : string → T → outcome T).

(** Whether the schema exists, the rows of its [schema_migrations] if there is one, and
    its other objects. *)
Record catalog := {
  cat_schema : bool;
  cat_history : option (gset Z);
  cat_objects : T;
}.

Definition create_schema (c : catalog) : outcome () * catalog :=
  (Ok (), {| cat_schema := true; cat_history := cat_history c; cat_objects := cat_objects c |}).
Definition create_history (c : catalog) : outcome () * catalog :=
  (Ok (), {| cat_schema := cat_schema c; cat_history := Some (default ∅ (cat_history c));
             cat_objects := cat_objects c |}).

(** [COALESCE(max(version), 0)]. *)
Definition max_version (h : gset Z) : Z :=
  match elements h with [] => 0 | v :: vs => foldr Z.max v vs end.
Definition missing_history : error := Errorf "relation schema_migrations does not exist" [].
Definition read_version (c : catalog) : outcome Z * catalog :=
  (match cat_history c with Some h => Ok (max_version h) | None => Err missing_history end, c).

Definition run_ddl (sql : string) (c : catalog) : outcome () * catalog :=
  match ddl sql (cat_objects c) with
  | Ok t => (Ok (), {| cat_schema := cat_schema c; cat_history := cat_history c; cat_objects := t |})
  | Err er => (Err er, c)
  | Panic m a => (Panic m a, c)
  end.

Definition duplicate_version : error := Errorf "duplicate key value violates unique constraint" [].
Definition record_version (v : Z) (c : catalog) : outcome () * catalog :=
  match cat_history c with
  | None => (Err missing_history, c)
  | Some h =>
    if decide (v ∈ h) then (Err duplicate_version, c)
    else (Ok (), {| cat_schema := cat_schema c; cat_history := Some ({[v]} ∪ h);
                    cat_objects := cat_objects c |})
  end.

(** A transaction body: statement [n] of the call meets the fault [f n]. *)
Context (f : nat → fault).

Definition tx (A : Type) : Type := nat * catalog → outcome A * (nat * catalog).
#[local] Instance tx_ret : MRet tx := λ A a s, (Ok a, s).
#[local] Instance tx_bind : MBind tx := λ A B k m s,
  match m s with
  | (Ok a, s') => k a s'
  | (Err er, s') => (Err er, s')
  | (Panic m a, s') => (Panic m a, s')
  end.

Definition tx_lift {A} (x : outcome A) : tx A := λ s, (x, s).

(** [if err = tx.Exec(...); err != nil { return fmt.Errorf(format, args..., err) }]. *)
Definition statement {A} (format : string) (args : list string)
    (act : catalog → outcome A * catalog) : tx A := λ '(n, c),
  match f n with
  | FailBefore er | FailAfter er => (Err (Wrapf format args er), (S n, c))
  | NoFault =>
    match act c with
    | (Err er, c') => (Err (Wrapf format args er), (S n, c'))
    | (r, c') => (r, (S n, c'))
    end
  end.

Definition unsupported (e : Engine) (version : Z) (len : nat) : error :=
  Wrapf "%w: schema %q is at migration %d; this version supports up to %d"
    [schema e; itoa version; itoa (Z.of_nat len)] (Sentinel ErrUnsupportedSchema).

(** [for version < len(migrationSQL)], with the migrations from [version] on. *)
Fixpoint apply_from (rest : list string) (version : Z) : tx () :=
  match rest with
  | [] => mret ()
  | sql :: rest =>
    let v := itoa (version + 1) in
    _ ← statement "durablepg: apply schema migration %d: %w" [v] (run_ddl sql);
    _ ← statement "durablepg: record schema migration %d: %w" [v] (record_version (version + 1));
    apply_from rest (version + 1)
  end.

Definition schema_lock_key (e : Engine) : string := "durablepg:schema:" +:+ schema e.

(** The statements between [Begin] and [Commit]. *)
Definition migration_body (e : Engine) : tx () :=
  _ ← statement "durablepg: lock schema migration: %w" [] (λ c, (Ok (schema_lock_key e), c));
  _ ← statement "durablepg: create schema: %w" [] create_schema;
  _ ← statement "durablepg: create migration history: %w" [] create_history;
  let migrationSQL := migrations e in
  version ← statement "durablepg: read migration history: %w" [] read_version;
  if Z.of_nat (length migrationSQL) <? version then
    tx_lift (Err (unsupported e version (length migrationSQL)))
  else if version <? 0 then tx_lift (Panic "index out of range" [])
  else apply_from (drop (Z.to_nat version) migrationSQL) version.

Definition ApplySchema (e : Engine) (c : catalog) : outcome () * catalog :=
  match f 0%nat with
  | FailBefore er | FailAfter er => (Err (Wrapf "durablepg: begin schema migration: %w" [] er), c)
  | NoFault =>
    match migration_body e (1%nat, c) with
    | (Ok _, (n, c')) =>
      match f n with
      | NoFault => (Ok (), c')
      | FailBefore er => (Err (Wrapf "durablepg: commit schema migration: %w" [] er), c)
      | FailAfter er => (Err (Wrapf "durablepg: commit schema migration: %w" [] er), c')
      end
    | (r, _) => (r, c)
    end
  end.
Definition Migrate := ApplySchema.
End migrate.
Arguments catalog : clear implicits.
Arguments cat_schema {T} _.
Arguments cat_history {T} _.
Arguments cat_objects {T} _.

(** ** The greatest version *)

Lemma foldr_max_spec (v : Z) vs :
  foldr Z.max v vs ∈ v :: vs ∧ ∀ x, x ∈ v :: vs → x <= foldr Z.max v vs.
Proof.
  induction vs as [|w vs [Hin Hle]]; cbn.
  { split; [by left|]. intros x Hx%list_elem_of_singleton. lia. }
  split.
  - destruct (Z.max_spec w (foldr Z.max v vs)) as [[_ ->]|[_ ->]]; [|right; by left].
    apply elem_of_cons in Hin as [->|Hin]; [by left|by do 2 right].
  - intros x [->|[->|Hx]%elem_of_cons]%elem_of_cons; [|lia|].
    + pose proof (Hle v ltac:(by left)). lia.
    + pose proof (Hle x ltac:(by right)). lia.
Qed.

Lemma max_version_le h x : x ∈ h → x <= max_version h.
Proof.
  rewrite <-elem_of_elements. unfold max_version. destruct (elements h) as [|v vs].
  - by intros ?%elem_of_nil.
  - apply foldr_max_spec.
Qed.

Lemma max_version_in h : h = ∅ ∨ max_version h ∈ h.
Proof.
  destruct (decide (h = ∅)) as [|Hne]; [by left|right]. rewrite <-elem_of_elements.
  unfold max_version. destruct (elements h) as [|v vs] eqn:E; [by apply elements_empty_inv, leibniz_equiv in E|].
  apply foldr_max_spec.
Qed.

Lemma max_version_empty : max_version ∅ = 0.
Proof. done. Qed.

(** The history after [n] more versions. *)
Definition extend_history (v : Z) (n : nat) (h : gset Z) : gset Z :=
  list_to_set (seqZ (v + 1) (Z.of_nat n)) ∪ h.

Lemma extend_history_0 v h : extend_history v 0 h = h.
Proof. unfold extend_history. rewrite seqZ_nil by lia. cbn. by rewrite (left_id_L ∅ (∪)). Qed.

Lemma extend_history_S v n h :
  extend_history (v + 1) n ({[v + 1]} ∪ h) = extend_history v (S n) h.
Proof.
  unfold extend_history. apply set_eq. intros x.
  rewrite !elem_of_union, !elem_of_list_to_set, !elem_of_seqZ, elem_of_singleton. naive_solver lia.
Qed.

Lemma max_version_extend n h :
  max_version (extend_history (max_version h) n h) = max_version h + Z.of_nat n.
Proof.
  set (v := max_version h). destruct n as [|n].
  { rewrite extend_history_0. fold v. lia. }
  assert (∀ x, x ∈ extend_history v (S n) h → x <= v + Z.of_nat (S n)) as Hle.
  { intros x. unfold extend_history. rewrite elem_of_union, elem_of_list_to_set, elem_of_seqZ.
    intros [?|Hx%max_version_le]; unfold v; lia. }
  assert (v + Z.of_nat (S n) ∈ extend_history v (S n) h) as Hin.
  { unfold extend_history. rewrite elem_of_union, elem_of_list_to_set, elem_of_seqZ. left. lia. }
  apply Z.le_antisymm; [|by apply max_version_le].
  destruct (max_version_in (extend_history v (S n) h)) as [E|Hm]; [|by apply Hle].
  rewrite E in Hin. by apply elem_of_empty in Hin.
Qed.

Section migrations.
Context {T : Type} (ddl : string → T → outcome T).

Definition version_of (c : catalog T) : Z := max_version (default ∅ (cat_history c)).

(** ** What a migration that commits has done *)

(** The texts [sqls], one after the other. *)
Fixpoint run_all (sqls : list string) (t : T) : outcome T :=
  match sqls with [] => Ok t | sql :: rest => t ← ddl sql t; run_all rest t end.

Record upgraded (e : Engine) (c c' : catalog T) : Prop := {
  up_version : 0 <= version_of c <= Z.of_nat (length (migrations e));
  up_objects : run_all (drop (Z.to_nat (version_of c)) (migrations e)) (cat_objects c) =
    Ok (cat_objects c');
  up_schema : cat_schema c' = true;
  up_history : cat_history c' = Some (extend_history (version_of c)
    (length (migrations e) - Z.to_nat (version_of c)) (default ∅ (cat_history c)));
}.

Lemma upgraded_version e c c' :
  upgraded e c c' → version_of c' = Z.of_nat (length (migrations e)).
Proof.
  intros [Hv _ _ Hh]. unfold version_of at 1. rewrite Hh. cbn [from_option id]. unfold version_of in *.
  rewrite max_version_extend. lia.
Qed.

Section call.
Context (f : nat → fault).

Lemma statement_Ok {A} format args (act : catalog T → outcome A * catalog T) n c a n' c' :
  statement f format args act (n, c) = (Ok a, (n', c')) →
  f n = NoFault ∧ n' = S n ∧ act c = (Ok a, c').
Proof. unfold statement. destruct (f n); [|done..]. destruct (act c) as [[] ?]; naive_solver. Qed.

Lemma statement_quiet {A} format args (act : catalog T → outcome A * catalog T) n c a c' :
  f n = NoFault → act c = (Ok a, c') → statement f format args act (n, c) = (Ok a, (S n, c')).
Proof. unfold statement. intros -> ->. done. Qed.

Lemma apply_from_Ok rest v n c h u n' c' :
  cat_history c = Some h → apply_from ddl f rest v (n, c) = (Ok u, (n', c')) →
  run_all rest (cat_objects c) = Ok (cat_objects c') ∧ cat_schema c' = cat_schema c ∧
  cat_history c' = Some (extend_history v (length rest) h).
Proof.
  revert v n c h. induction rest as [|sql rest IH]; intros v n c h Hh; cbn.
  { intros [= _ _ <-]. split_and!; [done..|]. by rewrite extend_history_0. }
  unfold mbind, tx_bind.
  destruct (statement f _ _ (run_ddl ddl sql) _) as [[?|?|? ?] [n1 c1]] eqn:E1; [|done..].
  apply statement_Ok in E1 as (_ & _ & E1). unfold run_ddl in E1.
  destruct (ddl sql (cat_objects c)) as [t|?|? ?] eqn:Hd; [|done..]. injection E1 as _ <-.
  destruct (statement f _ _ (record_version _) _) as [[?|?|? ?] [n2 c2]] eqn:E2; [|done..].
  apply statement_Ok in E2 as (_ & _ & E2). unfold record_version in E2. cbn in E2. rewrite Hh in E2.
  case_decide; [done|]. injection E2 as _ <-. intros Hrest.
  eapply IH in Hrest as (Hr & Hs & Hh'); [|done]. cbn in *.
  split_and!; [done|done|]. by rewrite Hh', extend_history_S.
Qed.

(** The catalog with its bookkeeping in place. *)
Definition prepared (c : catalog T) : catalog T :=
  {| cat_schema := true; cat_history := Some (default ∅ (cat_history c)); cat_objects := cat_objects c |}.

Lemma migration_body_Ok e n c u n' c' :
  migration_body ddl f e (n, c) = (Ok u, (n', c')) → upgraded e c c'.
Proof.
  unfold migration_body. unfold mbind, tx_bind.
  destruct (statement f _ _ _ (n, c)) as [[?|?|? ?] [n1 c1]] eqn:E; [|done..].
  apply statement_Ok in E as (_ & _ & [= _ <-]).
  destruct (statement f _ _ _ (n1, c)) as [[?|?|? ?] [n2 c2]] eqn:E; [|done..].
  apply statement_Ok in E as (_ & _ & [= _ <-]).
  destruct (statement f _ _ create_history _) as [[?|?|? ?] [n3 c3]] eqn:E; [|done..].
  apply statement_Ok in E as (_ & _ & [= _ <-]). cbn [cat_schema cat_history cat_objects].
  fold (prepared c).
  destruct (statement f _ _ read_version _) as [[v|?|? ?] [n4 c4]] eqn:E; [|done..].
  apply statement_Ok in E as (_ & _ & [= <- <-]). fold (version_of c).
  unfold tx_lift. destruct (_ <? version_of c) eqn:E1; [done|].
  destruct (version_of c <? 0) eqn:E2; [done|]. bool_to_prop. intros Hrest.
  eapply apply_from_Ok in Hrest as (Hr & Hs & Hh); [|done].
  rewrite length_drop in Hh. split; [lia|done..].
Qed.

(** Nothing fails when the server does not. *)
Lemma apply_from_quiet rest v n c h t :
  (∀ n, f n = NoFault) → cat_history c = Some h → (∀ x, x ∈ h → x <= v) →
  run_all rest (cat_objects c) = Ok t →
  ∃ s', apply_from ddl f rest v (n, c) = (Ok (), s').
Proof.
  intros Hf. revert v n c h. induction rest as [|sql rest IH]; intros v n c h Hh Hv; [by eexists|].
  cbn. destruct (ddl sql (cat_objects c)) as [t1|?|? ?] eqn:Hd; [|done..]. cbn. intros Hr.
  unfold mbind, tx_bind. erewrite statement_quiet; [|done|unfold run_ddl; by rewrite Hd].
  erewrite statement_quiet; [|done|].
  2:{ unfold record_version. cbn. rewrite Hh, decide_False; [done|]. intros Hin%Hv. lia. }
  eapply IH; [done| |done]. intros x [->%elem_of_singleton|Hx%Hv]%elem_of_union; lia.
Qed.

Lemma migration_body_quiet e n c :
  (∀ n, f n = NoFault) →
  ∃ s', migration_body ddl f e (n, c) =
    if Z.of_nat (length (migrations e)) <? version_of c
    then (Err (unsupported e (version_of c) (length (migrations e))), s')
    else if version_of c <? 0 then (Panic "index out of range" [], s')
    else apply_from ddl f (drop (Z.to_nat (version_of c)) (migrations e)) (version_of c)
           (S (S (S (S n))), prepared c).
Proof.
  intros Hf. unfold migration_body. unfold mbind, tx_bind.
  erewrite !statement_quiet by done. unfold tx_lift.
  change (max_version _) with (version_of c).
  repeat case_match; by eexists.
Qed.
End call.

(** ** Properties *)

Definition commit_failed (er0 : error) : error := Wrapf "durablepg: commit schema migration: %w" [] er0.

Lemma ApplySchema_cases f e c :
  match ApplySchema ddl f e c with
  | (Ok _, c') => upgraded e c c'
  | (Err er, c') => c' = c ∨ upgraded e c c' ∧ ∃ er0, er = commit_failed er0
  | (Panic _ _, c') => c' = c
  end.
Proof.
  unfold ApplySchema. destruct (f 0%nat); [|by left..].
  destruct (migration_body ddl f e (1%nat, c)) as [[u|er|m a] [n c']] eqn:E; [|by left|done].
  apply migration_body_Ok in E. destruct (f n); [done|by left|]. right. split; [done|by eexists].
Qed.

Lemma upgraded_settled e c c' c'' : upgraded e c c' → upgraded e c' c'' → c'' = c'.
Proof.
  intros Hc [Hv Ho Hs Hh]. pose proof (upgraded_version _ _ _ Hc) as Hlen.
  destruct Hc as [_ _ Hs' Hh']. rewrite Hlen, Nat2Z.id, drop_all in Ho. cbn in Ho.
  rewrite Hlen, Nat2Z.id, Nat.sub_diag, extend_history_0, Hh' in Hh.
  destruct c', c''. cbn in *. congruence.
Qed.

(** Once the newest version is installed, nothing changes any more. *)
Lemma upgraded_fixpoint f e c c' :
  upgraded e c c' →
  (ApplySchema ddl f e c').2 = c' ∧
  ((∀ n, f n = NoFault) → ApplySchema ddl f e c' = (Ok (), c')).
Proof.
  intros Hc. assert ((ApplySchema ddl f e c').2 = c') as Hsame.
  { pose proof (ApplySchema_cases f e c') as Hr.
    destruct (ApplySchema ddl f e c') as [[u|er|m a] c'']; cbn.
    - by eapply upgraded_settled.
    - destruct Hr as [->|[? _]]; [done|]. by eapply upgraded_settled.
    - done. }
  split; [done|]. intros Hf. rewrite (surjective_pairing (ApplySchema ddl f e c')), Hsame. f_equal.
  clear Hsame. unfold ApplySchema. rewrite Hf.
  destruct (migration_body_quiet f e 1 c' Hf) as [s' ->].
  rewrite (upgraded_version _ _ _ Hc), Z.ltb_irrefl, Nat2Z.id, drop_all.
  rewrite (proj2 (Z.ltb_ge _ _)) by lia. cbn. by rewrite Hf.
Qed.

(** C37: a migration is all or nothing.  A success leaves the schema at the newest version,
    with exactly the missing migrations applied, in order and on top of what was there,
    and each recorded; a failure, a server's or a migration's, leaves everything as it
    was, except that the answer of the commit can be lost.  A schema that a newer
    version of the library has migrated is never changed; the error is then
    [ErrUnsupportedSchema]. *)
Theorem apply_schema_all_or_nothing f e c :
  let (r, c') := ApplySchema ddl f e c in
  match r with
  | Ok _ => upgraded e c c' ∧ version_of c' = Z.of_nat (length (migrations e))
  | Err er => c' = c ∨ upgraded e c c' ∧ ∃ er0, er = commit_failed er0
  | Panic _ _ => c' = c
  end ∧
  (Z.of_nat (length (migrations e)) < version_of c →
     c' = c ∧ is_ok r = false ∧
     ((∀ n, f n = NoFault) → ∃ er, r = Err er ∧ errors_Is er ErrUnsupportedSchema = true)).
Proof.
  pose proof (ApplySchema_cases f e c) as Hr.
  destruct (ApplySchema ddl f e c) as [r c'] eqn:E. split.
  { destruct r; [|done..]. split; [done|]. by eapply upgraded_version. }
  intros Hnew. assert (¬ upgraded e c c') as Hno by (intros [Hv _ _ _]; lia).
  split_and!.
  - destruct r; [done| |done]. by destruct Hr as [?|[? _]].
  - by destruct r.
  - intros Hf. unfold ApplySchema in E. rewrite Hf in E.
    destruct (migration_body_quiet f e 1 c Hf) as [s' E']. rewrite E' in E.
    rewrite (proj2 (Z.ltb_lt _ _) Hnew) in E. injection E as <- _. by eexists.
Qed.

(** The first [ApplySchema] on a schema without a history runs the DDL of
    [SchemaSQL], once, and records version 1; every later call, of any engine of this
    version on that schema and whatever fails in it, leaves the catalog as it is, and
    succeeds when the server does not fail. *)
Theorem apply_schema_installs_once f e c sql t :
  (∀ n, f n = NoFault) → cat_history c = None →
  SchemaSQL e = "CREATE SCHEMA IF NOT EXISTS " +:+ qSchema e +:+ ";" +:+ newline +:+ sql →
  ddl sql (cat_objects c) = Ok t →
  let c' := {| cat_schema := true; cat_history := Some {[1]}; cat_objects := t |} in
  ApplySchema ddl f e c = (Ok (), c') ∧
  ∀ f', (ApplySchema ddl f' e c').2 = c' ∧
    ((∀ n, f' n = NoFault) → ApplySchema ddl f' e c' = (Ok (), c')).
Proof.
  intros Hf Hh Hsql Hd c'.
  assert (migrations e = [sql]) as Hm.
  { unfold SchemaSQL in Hsql. repeat apply (inj (String.append _)) in Hsql. unfold migrations in *.
    cbn [String.concat] in Hsql. by rewrite Hsql. }
  assert (version_of c = 0) as Hv by (unfold version_of; by rewrite Hh).
  assert (ApplySchema ddl f e c = (Ok (), c')) as Happ.
  { unfold ApplySchema. rewrite Hf. destruct (migration_body_quiet f e 1 c Hf) as [s' ->].
    rewrite Hv, Hm. change (Z.of_nat (length [sql]) <? 0) with false. change (0 <? 0) with false.
    change (drop (Z.to_nat 0) [sql]) with [sql]. cbn [apply_from].
    unfold mbind, tx_bind. erewrite statement_quiet; [|done|].
    2:{ unfold run_ddl. cbn [prepared cat_objects]. by rewrite Hd. }
    erewrite statement_quiet; [|done|]. 2:{ unfold record_version. cbn. rewrite Hh. done. }
    cbn. rewrite Hf. unfold c'. by rewrite (right_id_L ∅ (∪)). }
  split; [done|]. intros f'. eapply (upgraded_fixpoint f' e c).
  pose proof (ApplySchema_cases f e c) as Hup. by rewrite Happ in Hup.
Qed.
End migrations.
