(* ===== verification/Explain.v ===== *)
(** * cmd/growthbench/main.go: reading a query plan

    The answer of [EXPLAIN (ANALYZE, BUFFERS, FORMAT JSON)] as encoding/json decodes it
    into [[]plan]: member names are matched exactly or else in folded case, unknown
    members are skipped, a later duplicate wins, [null] leaves a field alone.  A [float64]
    is a [spec_float] of 53 bits, the one nearest to the decimal. *)

From Stdlib Require Import Floats.SpecFloat.
From S2P Require Import Prelude GoText Json.

(** ** [float64] *)

Definition float64 : Type := spec_float.

(** The nearest [float64] to [m * 10 ^ e], or to its opposite; ties go to the even one. *)
Definition round64 (neg : bool) (m : Z) (e : Z) : float64 :=
  match m with
  | Z0 => S754_zero neg
  | Zpos m =>
    if 0 <=? e then binary_round 53 1024 neg (m * Z.to_pos (10 ^ e)) 0
    else SFdiv 53 1024 (S754_finite neg m 0) (S754_finite false (Z.to_pos (10 ^ (- e))) 0)
  | Zneg _ => S754_nan
  end.

(** The exponent of a literal: its digits count as long as it is below 10000. *)
Definition exponent_val (ds : list ascii) : Z :=
  foldl (λ e c, if e <? 10000 then e * 10 + (bval c - 48) else e) 0 ds.

(** [strconv.ParseFloat(s, 64)] for a JSON number: out of range is an error. *)
Definition ParseFloat (s : list ascii) : option float64 :=
  let neg := bool_decide (head s = Some (byte_of 45)) in
  let s := if neg then tail s else s in
  let r := skip_digits s in
  let whole := before s r in
  let '(frac, r) :=
    match r with
    | c :: r' => if ch 46 c then (before r' (skip_digits r'), skip_digits r') else ([], r)
    | [] => ([], r)
    end in
  let exp :=
    match r with
    | c :: r' =>
      if ch 101 c || ch 69 c then
        match r' with
        | g :: ds =>
          if ch 45 g then - exponent_val ds else if ch 43 g then exponent_val ds else exponent_val r'
        | [] => 0
        end
      else 0
    | [] => 0
    end in
  match round64 neg (digits_val (whole ++ frac)) (exp - Z.of_nat (length frac)) with
  | S754_infinity _ | S754_nan => None
  | x => Some x
  end.

(** ** Member names *)

(** The runes of a member name.  An escape is its code; of the runes outside of ASCII two
    fold to a letter, the others are only kept apart from it. *)
Definition other_rune (z : Z) : Z := 1114112 + z.
Fixpoint key_runes (s : list ascii) : list Z :=
  match s with
  | [] => []
  | c :: r =>
    if ch 92 c then
      match r with
      | e :: r' =>
        if ch 117 e then
          match r' with
          | h1 :: h2 :: h3 :: h4 :: r'' =>
            hex_val h1 * 4096 + hex_val h2 * 256 + hex_val h3 * 16 + hex_val h4 :: key_runes r''
          | _ => []
          end
        else (if ch 98 e then 8 else if ch 102 e then 12 else if ch 110 e then 10
              else if ch 114 e then 13 else if ch 116 e then 9 else bval e) :: key_runes r'
      | [] => []
      end
    else if ch 197 c then
      match r with
      | d :: r' => if ch 191 d then 383 :: key_runes r' else other_rune (bval c) :: key_runes r
      | [] => [other_rune (bval c)]
      end
    else if ch 226 c then
      match r with
      | d :: d' :: r' =>
        if ch 132 d && ch 170 d' then 8490 :: key_runes r' else other_rune (bval c) :: key_runes r
      | _ => other_rune (bval c) :: key_runes r
      end
    else (if bval c <? 128 then bval c else other_rune (bval c)) :: key_runes r
  end.

(** U+017F folds to [s] and U+212A to [k]. *)
Definition fold_rune (z : Z) : Z := if z =? 383 then 115 else if z =? 8490 then 107 else fold_case z.
Definition is_key (name : string) (k : list ascii) : bool :=
  bool_decide (fold_rune <$> key_runes k = fold_rune ∘ bval <$> s2b name).

(** ** Decoding *)

Definition is_null (v : list ascii) : bool := bool_decide (v = s2b "null").

(** An [int64] and a [float64] field, from a value without white space around it. *)
Definition decode_int64 (v : list ascii) (old : Z) : outcome Z :=
  if is_null v then Ok old else unmarshal_int v.
Definition is_number (v : list ascii) : bool := bool_decide (scan_number v = Some []).
Definition decode_float64 (v : list ascii) (old : float64) : outcome float64 :=
  if is_null v then Ok old
  else if is_number v then from_option Ok (Err (type_error "float64")) (ParseFloat v)
  else Err (type_error "float64").

(** A struct: [field k v] decodes the member [k] into the struct, or skips it. *)
Definition decode_struct {S} (depth : nat) (field : list ascii → list ascii → S → outcome S)
    (v : list ascii) (old : S) : outcome S :=
  match v with
  | c :: r =>
    if ch 123 c then
      match scan_object (scan_value depth) r with
      | Some (ms, _) => foldl (λ acc '(k, v), s ← acc; field k v s) (Ok old) ms
      | None => Err syntax_error
      end
    else if is_null v then Ok old else Err (type_error "struct")
  | [] => Err syntax_error
  end.

(** The struct [plan] with its inner struct. *)
Record plan := { SharedHit : Z; SharedRead : Z; ExecutionMS : float64 }.
Definition zero_plan : plan := {| SharedHit := 0; SharedRead := 0; ExecutionMS := S754_zero false |}.

Definition set_SharedHit (x : Z) (p : plan) : plan :=
  {| SharedHit := x; SharedRead := SharedRead p; ExecutionMS := ExecutionMS p |}.
Definition set_SharedRead (x : Z) (p : plan) : plan :=
  {| SharedHit := SharedHit p; SharedRead := x; ExecutionMS := ExecutionMS p |}.
Definition set_ExecutionMS (x : float64) (p : plan) : plan :=
  {| SharedHit := SharedHit p; SharedRead := SharedRead p; ExecutionMS := x |}.

Definition plan_member (k v : list ascii) (p : plan) : outcome plan :=
  if is_key "Shared Hit Blocks" k then x ← decode_int64 v (SharedHit p); mret (set_SharedHit x p)
  else if is_key "Shared Read Blocks" k then
    x ← decode_int64 v (SharedRead p); mret (set_SharedRead x p)
  else mret p.
Definition top_member (k v : list ascii) (p : plan) : outcome plan :=
  if is_key "Plan" k then decode_struct (maxNestingDepth - 3) plan_member v p
  else if is_key "Execution Time" k then
    x ← decode_float64 v (ExecutionMS p); mret (set_ExecutionMS x p)
  else mret p.

(** [json.Unmarshal(raw, &plans)]. *)
Definition unmarshal_plans (data : list ascii) : outcome (list plan) :=
  if check_valid data then
    match skip_ws data with
    | c :: r =>
      if ch 91 c then
        match scan_array (scan_value (pred maxNestingDepth)) r with
        | Some (es, _) =>
          mapM (λ e, decode_struct (maxNestingDepth - 2) top_member e zero_plan) es
        | None => Err syntax_error
        end
      else if ch 110 c then Ok []
      else Err (type_error "[]main.plan")
    | [] => Err syntax_error
    end
  else Err syntax_error.

(** [explain], after its query has answered [raw]. *)
Definition read_plan (raw : list ascii) : outcome plan :=
  plans ← unmarshal_plans raw;
  match plans with
  | [p] => Ok p
  | _ => Err (Errorf "expected one EXPLAIN plan, got %d" [itoa (Z.of_nat (length plans))])
  end.

(** ** Examples *)

Example float_tenth : ParseFloat (s2b "0.1") = Some (S754_finite false 7205759403792794 (-56)).
Proof. by vm_compute. Qed.
Example float_exact : ParseFloat (s2b "-12.5e1") = Some (S754_finite true 8796093022208000 (-46)).
Proof. by vm_compute. Qed.
Example float_large : ParseFloat (s2b "1e309") = None.
Proof. by vm_compute. Qed.

Definition sample_plan : list ascii := s2b "[
  {
    'Plan': {
      'Node Type': 'Limit',
      'Shared Hit Blocks': 12,
      'Shared Read Blocks': 3,
      'Plans': [{'Node Type': 'Sort', 'Shared Hit Blocks': 9}]
    },
    'Planning': {'Shared Hit Blocks': 77},
    'Triggers': [
    ],
    'Execution Time': 0.5
  }
]".
Example sample_read :
  read_plan ((λ c, if ch 39 c then dquote else c) <$> sample_plan) =
    Ok {| SharedHit := 12; SharedRead := 3; ExecutionMS := S754_finite false 4503599627370496 (-53) |}.
Proof. by vm_compute. Qed.
