(* ===== verification/Growthbench.v ===== *)
(** * cmd/growthbench/main.go: the growth benchmark

    A program beside the package: it fills the tables with finished runs in stages while
    workers serve a load, and measures claims.  Here are its parts: [parseHistory] reads
    the milestones, [claimTrace] collects the durations of claims, and the statements
    that it executes itself.  [Benchmark] has the program. *)

From S2P Require Import Prelude GoText Json Types Builder Postgres Queries Store.
From S2P Require Import Timing Engine SqlText.

(** [schema]. *)
Definition bench_schema : string := "growthbench".

(** ** [parseHistory] *)

(** [strings.Split] at a byte. *)
Fixpoint Split (sep : Z) (s : list ascii) : list (list ascii) :=
  match s with
  | [] => [[]]
  | c :: r =>
    if ch sep c then [] :: Split sep r
    else match Split sep r with part :: parts => (c :: part) :: parts | [] => [[c]] end
  end.

(** [strconv.Atoi]: decimal digits after an optional sign, in the range of [int]. *)
Definition Atoi (s : list ascii) : option Z :=
  let (neg, ds) :=
    match s with
    | c :: r => if ch 45 c then (true, r) else if ch 43 c then (false, r) else (false, s)
    | [] => (false, [])
    end in
  let n := if neg then - digits_val ds else digits_val ds in
  if negb (bool_decide (ds = [])) && forallb is_digit ds && (-(2^63) <=? n) && (n <? 2^63)
  then Some n else None.

Definition bad_targets (s : string) : error :=
  Errorf "history targets must be strictly increasing nonnegative integers: %q" [s].

Fixpoint parse_parts (s : string) (parts : list (list ascii)) (targets : list Z)
    : outcome (list Z) :=
  match parts with
  | [] => Ok targets
  | part :: rest =>
    match Atoi (trim_bytes part) with
    | None => Err (bad_targets s)
    | Some n =>
      if (n <? 0) || match last targets with Some t => n <=? t | None => false end
      then Err (bad_targets s)
      else parse_parts s rest (targets ++ [n])
    end
  end.

Definition parseHistory (s : string) : outcome (list Z) :=
  targets ← parse_parts s (Split 44 (s2b s)) [];
  _ ← guard_err ((length targets <? 2)%nat || negb (bool_decide (head targets = Some 0)))
        (Errorf "history targets must start at zero and contain at least two milestones" []);
  mret targets.

(** The flags, and what [run] refuses before it touches the database. *)
Record flags := {
  f_url : string;
  f_profile : string;
  f_history : string;
  f_stage : Z;
  f_rate : Z;
  f_active : Z;
}.

Definition checkFlags (f : flags) : outcome (list Z) :=
  _ ← guard_err
        (bool_decide (f_url f = "") ||
         (negb (bool_decide (f_profile f = "default")) && negb (bool_decide (f_profile f = "tuned"))) ||
         (f_stage f <? 30 * Second) || (f_rate f <? 1) || (10000 <? f_rate f) ||
         (f_active f <? 1) || (1000 <? f_active f))
        (Errorf "provide a disposable -url, -profile=default|tuned, -stage>=30s, -rate=1..10000, and -active=1..1000" []);
  parseHistory (f_history f).

(** The server must be PostgreSQL 18, and the schema must not exist. *)
Definition checkServer (version : Z) : outcome () :=
  guard_err (version <? 180000)
    (Errorf "requires PostgreSQL 18 for vacuum timing metrics, got %d" [itoa version]).
Definition checkFresh (existing : option string) : outcome () :=
  guard_err (bool_decide (is_Some existing))
    (Errorf "schema %s already exists; use a new disposable database" [bench_schema]).

(** ** [claimTrace] *)

Record queryStart := { qs_at : Z; qs_stage : Z }.

Record claimTrace := { ct_stage : Z; byStage : gmap Z (list Z) }.

Definition set_stage (stage : Z) (t : claimTrace) : claimTrace :=
  {| ct_stage := stage; byStage := byStage t |}.

(** The value that the context carries to [TraceQueryEnd], if any. *)
Definition TraceQueryStart (t : claimTrace) (now : Z) (sql : string) (args : list arg)
    : option queryStart :=
  if negb (Contains (s2b sql) (s2b "WITH picked AS")) ||
     negb (Contains (s2b sql) (s2b "RETURNING wr.id")) ||
     (length args =? 0)%nat ||
     negb (match args with AText q :: _ => bool_decide (q = "short") | _ => false end)
  then None
  else Some {| qs_at := now; qs_stage := ct_stage t |}.

Definition TraceQueryEnd (t : claimTrace) (now : Z) (start : option queryStart) (failed : bool)
    (rows : Z) : claimTrace :=
  match start with
  | None => t
  | Some start =>
    if (qs_stage start <? 0) || failed || (rows =? 0) then t
    else
      {| ct_stage := ct_stage t;
         byStage := <[qs_stage start :=
                        default [] (byStage t !! qs_stage start) ++ [now - qs_at start]]> (byStage t) |}
  end.

(** [durations[i]]. *)
Definition index_at (l : list Z) (i : Z) : outcome Z :=
  if (0 <=? i) && (i <? Z.of_nat (length l)) then Ok (nth (Z.to_nat i) l 0)
  else Panic "index out of range" [].

Definition percentiles (t : claimTrace) (stage : Z) : outcome (Z * Z * Z * Z) :=
  let durations := merge_sort Z.le (default [] (byStage t !! stage)) in
  let n := Z.of_nat (length durations) in
  if n =? 0 then Ok (0, 0, 0, 0)
  else
    p50 ← index_at durations (n / 2);
    p95 ← index_at durations ((95 * n + 99) / 100 - 1);
    p99 ← index_at durations ((99 * n + 99) / 100 - 1);
    mret (n, p50, p95, p99).

(** ** The tables *)

Section bench.
Context `{Postgres}.

(** [md5(text)::uuid]. *)
Context (md5_uuid : string → string).

(** [generate_series(first, last)]. *)
Definition generate_series (first last : Z) : list Z := seqZ first (last - first + 1).

Definition history_id (g : Z) : string := md5_uuid ("history-" +:+ itoa g).
Definition history_dedup (g : Z) : string := "dedup-" +:+ itoa g.

Definition history_run (g : Z) (e : env) : run :=
  {| workflow_name := "history"; workflow_version := 1; queue := "short"; state := RunCompleted;
     step_index := 1; attempt := 0; max_attempts := 25; lease_failures := 0;
     next_run_at := now e; lease_token := None; lease_until := None;
     waiting_event_key := None; waiting_deadline := None; input_json := s2b "{}";
     output_json := Some (s2b "true"); dedup_key := Some (history_dedup g); last_error := None;
     created_at := now e; updated_at := now e |}.

Definition probe_run (e : env) : run :=
  {| workflow_name := "probe"; workflow_version := 1; queue := "probe"; state := RunReady;
     step_index := 0; attempt := 0; max_attempts := 25; lease_failures := 0;
     next_run_at := now e - interval_ms 60000; lease_token := None; lease_until := None;
     waiting_event_key := None; waiting_deadline := None; input_json := s2b "{}";
     output_json := None; dedup_key := None; last_error := None;
     created_at := now e; updated_at := now e |}.

(** [INSERT INTO workflow_runs] of these rows: all of them, unless one has a primary key
    or a deduplication key that is there already. *)
Definition insertable (rows : list (string * run)) (d : db) : Prop :=
  NoDup rows.*1 ∧
  Forall (λ kr, workflow_runs d !! kr.1 = None) rows ∧
  NoDup (omap (λ kr, pair (workflow_name kr.2) <$> dedup_key kr.2) rows) ∧
  Forall (λ kr, affected (dedup_conflict (workflow_name kr.2) (dedup_key kr.2)) (workflow_runs d) = ∅)
    rows.
#[global] Instance insertable_dec rows d : Decision (insertable rows d).
Proof. unfold insertable. apply _. Defined.

Definition insert_rows (rows : list (string * run)) (d : db) : outcome Z * db :=
  if decide (insertable rows d)
  then (Ok (Z.of_nat (length rows)), set_runs (list_to_map rows ∪ workflow_runs d) d)
  else (Err (db_error "duplicate key value violates unique constraint"), d).

Definition bind_range (first last : Z) : outcome (Z * Z) :=
  first ← bind_int4 first; last ← bind_int4 last; mret (first, last).

(** The two statements of [seedHistory]. *)
Definition insert_history (first last : Z) (e : env) (d : db) : outcome Z * db :=
  match bind_range first last with
  | Ok (first, last) =>
    insert_rows ((λ g, (history_id g, history_run g e)) <$> generate_series first last) d
  | Err er => (Err er, d)
  | Panic m a => (Panic m a, d)
  end.

Definition insert_history_checkpoints (first last : Z) (e : env) (d : db) : outcome Z * db :=
  match bind_range first last with
  | Ok (first, last) =>
    let rows := (λ g, ((history_id g, 0), s2b "true")) <$> generate_series first last in
    if negb (bool_decide (NoDup rows.*1)) ||
       negb (bool_decide (Forall (λ kv, step_checkpoints d !! kv.1 = None) rows)) then
      (Err (db_error "duplicate key value violates unique constraint"), d)
    else if negb (bool_decide (Forall (λ kv, is_Some (workflow_runs d !! kv.1.1)) rows)) then
      (Err (db_error "violates foreign key constraint"), d)
    else
      (Ok (Z.of_nat (length rows)), set_checkpoints (list_to_map rows ∪ step_checkpoints d) d)
  | Err er => (Err er, d)
  | Panic m a => (Panic m a, d)
  end.

Definition insert_probes (e : env) (d : db) : outcome Z * db :=
  insert_rows ((λ g, (md5_uuid ("probe-" +:+ itoa g), probe_run e)) <$> generate_series 1 16) d.

(** [claimProbe] and [recoveryProbe], which [explain] runs under [EXPLAIN ANALYZE]. *)
Definition claimProbe (e : env) (d : db) : list string :=
  pick (locked_runs e)
    (λ _ r, bool_decide (queue r = "probe") && bool_decide (workflow_name r = "probe") &&
            (workflow_version r =? 1) && bool_decide (state r = RunReady) &&
            (next_run_at r <=? now e))
    next_run_at 16 (workflow_runs d).
Definition recoveryProbe (e : env) (d : db) : list string :=
  pick (locked_runs e) (expired e) (λ r, default 0 (lease_until r)) 1024 (workflow_runs d).

(** [count( * ) FILTER (WHERE workflow_name = name AND state = s)]. *)
Definition count_runs (name : string) (s : RunState) (d : db) : Z :=
  Z.of_nat (size (affected (λ _ r, bool_decide (workflow_name r = name) && bool_decide (state r = s))
                    (workflow_runs d))).

End bench.

(** ** Milestones *)

Lemma parse_parts_spec s parts ts0 ts :
  StronglySorted Z.lt ts0 → Forall (Z.le 0) ts0 →
  parse_parts s parts ts0 = Ok ts ↔
  ∃ ns, ts = ts0 ++ ns ∧ mapM (λ part, Atoi (trim_bytes part)) parts = Some ns ∧
        StronglySorted Z.lt ts ∧ Forall (Z.le 0) ts.
Proof.
  revert ts0. induction parts as [|part parts IH]; intros ts0 Hs Hn; cbn.
  { split; [intros [= ->]; exists []; by rewrite app_nil_r|].
    intros (ns & -> & [= <-] & _). by rewrite app_nil_r. }
  destruct (Atoi (trim_bytes part)) as [n|]; cbn; [|naive_solver].
  destruct ((n <? 0) || _) eqn:Hbad.
  - split; [done|]. intros (ns & -> & Hm & Hs' & Hn').
    apply bind_Some in Hm as (ns' & _ & [= <-]). apply orb_true_iff in Hbad as [Hneg|Hle].
    + rewrite Forall_app, Forall_cons in Hn'. bool_to_prop. lia.
    + destruct (last ts0) as [t|] eqn:Ht; [|done].
      apply last_Some in Ht as [ts1 ->]. bool_to_prop.
      enough (t < n) by lia. eapply (StronglySorted_app_1_elem_of Z.lt); [done|set_solver..].
  - apply orb_false_iff in Hbad as [Hneg Hlt]. rewrite IH.
    + split.
      * intros (ns & -> & Hm & H1 & H2). exists (n :: ns). rewrite Hm.
        by rewrite <-app_assoc in *.
      * intros (ns & -> & Hm & H1 & H2). apply bind_Some in Hm as (ns' & Hm & [= <-]).
        exists ns'. by rewrite <-app_assoc.
    + apply StronglySorted_app_2; [|done|repeat constructor].
      intros t n' Ht ->%list_elem_of_singleton. destruct (last ts0) as [u|] eqn:Hu.
      * apply last_Some in Hu as [ts1 ->]. bool_to_prop.
        apply elem_of_app in Ht as [Ht| ->%list_elem_of_singleton]; [|lia].
        enough (t < u) by lia. eapply (StronglySorted_app_1_elem_of Z.lt); [done|set_solver..].
      * apply last_None in Hu as ->. by apply not_elem_of_nil in Ht.
    + apply Forall_app. bool_to_prop. auto.
Qed.

(** The milestones are accepted exactly if the text between the commas is, apart from
    white space, a list of decimal integers in the range of [int] that starts at zero,
    increases strictly and has two elements or more; they are then the integers read. *)
Theorem parseHistory_accepts s targets :
  parseHistory s = Ok targets ↔
  mapM (λ part, Atoi (trim_bytes part)) (Split 44 (s2b s)) = Some targets ∧
  StronglySorted Z.lt targets ∧ head targets = Some 0 ∧ (2 ≤ length targets)%nat.
Proof.
  unfold parseHistory. rewrite outcome_bind_Ok. split.
  - intros (ts & (ns & -> & Hm & Hs & _)%parse_parts_spec & H); [|by constructor..].
    cbn [app] in H. apply outcome_bind_Ok in H as (u & Hg & [= ->]).
    apply guard_err_Ok, orb_false_iff in Hg as [Hlen Hhead].
    apply negb_false_iff in Hhead. bool_to_prop. apply Nat.ltb_ge in Hlen. done.
  - intros (Hm & Hs & Hh & Hlen). exists targets. split.
    + apply parse_parts_spec; [by constructor..|]. exists targets. split_and!; try done.
      destruct targets as [|t ts]; [done|]. injection Hh as ->.
      apply StronglySorted_inv in Hs as [_ Hs]. constructor; [done|].
      eapply Forall_impl; [done|]. cbn. lia.
    + rewrite (proj2 (Nat.ltb_ge _ _)) by done. by rewrite bool_decide_eq_true_2.
Qed.

Lemma Atoi_range s n : Atoi s = Some n → in_int64 n.
Proof.
  unfold Atoi, in_int64. destruct s as [|c r]; [done|].
  repeat case_match; intros [= <-]; bool_to_prop; lia.
Qed.

Lemma parseHistory_targets s targets :
  parseHistory s = Ok targets →
  Forall in_int64 targets ∧ StronglySorted Z.lt targets ∧ Forall (Z.le 0) targets.
Proof.
  unfold parseHistory. intros (ts & Hp & (u & _ & [= ->])%outcome_bind_Ok)%outcome_bind_Ok.
  apply parse_parts_spec in Hp as (ns & -> & Hm & Hs & Hn); [|by constructor..].
  split_and!; [|done..]. apply Forall_forall. intros n Hin. apply mapM_Some in Hm.
  apply list_elem_of_lookup in Hin as [i Hi].
  destruct (Forall2_lookup_r _ _ _ _ _ Hm Hi) as (part & _ & Ha). by eapply Atoi_range.
Qed.

(** ** What is timed *)

(** The queue of a claim; and the channel of a promotion of timed out waits, the one other
    statement whose text the tracer takes for a claim. *)
Definition claim_queue {X} (s : stmt X) : option string :=
  match s with ClaimSingle q _ _ _ _ | ClaimMulti q _ _ _ _ => Some q | _ => None end.
Definition promote_channel {X} (s : stmt X) : option string :=
  match s with PromoteTimedOut channel => Some channel | _ => None end.

Lemma trace_start_spec {X} (s : stmt X) t now :
  TraceQueryStart t now (stmt_text (newQueries (quoteIdentifier bench_schema)) s) (stmt_args s) =
  if bool_decide (claim_queue s = Some "short" ∨ promote_channel s = Some "short")
  then Some {| qs_at := now; qs_stage := ct_stage t |} else None.
Proof.
  unfold TraceQueryStart. destruct s; cbn [stmt_text stmt_args claim_queue promote_channel length Nat.eqb orb];
    try (rewrite bool_decide_eq_false_2 by naive_solver);
    match goal with |- context [negb (Contains ?a ?b)] =>
      let c := eval vm_compute in (Contains a b) in
      replace (Contains a b) with c by (by vm_compute) end; try done;
    match goal with |- context [negb (Contains ?a ?b)] =>
      let c := eval vm_compute in (Contains a b) in
      replace (Contains a b) with c by (by vm_compute) end; try done; cbn.
  all: match goal with |- context [bool_decide (?q = "short")] =>
    destruct (decide (q = "short")) as [->|Hne];
      [rewrite !bool_decide_eq_true_2 by auto; done
      |rewrite !bool_decide_eq_false_2 by naive_solver; done] end.
Qed.

(** The tracer times exactly the claims of the queue "short": of all the statements
    that the engines send (a channel is never called "short"), one adds a sample - its
    duration, to those of the stage at its start - if it is such a claim, the start was
    in a stage, and it returned a run and no error; every other statement leaves the
    samples as they are. *)
Theorem tracer_times_claims {X} (s : stmt X) t t' start now failed rows :
  promote_channel s ≠ Some "short" →
  TraceQueryEnd t' now
    (TraceQueryStart t start (stmt_text (newQueries (quoteIdentifier bench_schema)) s) (stmt_args s))
    failed rows =
  if bool_decide (claim_queue s = Some "short") && (0 <=? ct_stage t) && negb failed &&
     negb (rows =? 0)
  then {| ct_stage := ct_stage t';
          byStage := <[ct_stage t := default [] (byStage t' !! ct_stage t) ++ [now - start]]>
                       (byStage t') |}
  else t'.
Proof.
  intros Hc. rewrite trace_start_spec.
  rewrite (bool_decide_ext (_ ∨ _) (claim_queue s = Some "short")) by naive_solver.
  case_bool_decide as Hq; [|done]. unfold TraceQueryEnd. cbn.
  rewrite <-(negb_involutive (ct_stage t <? 0)), <-Z.leb_antisym.
  by destruct (0 <=? ct_stage t), failed, (rows =? 0).
Qed.

(** ** Percentiles *)

(** How many samples are at most [v]. *)
Definition at_most (v : Z) (samples : list Z) : Z :=
  Z.of_nat (length (filter (λ d, d <= v) samples)).

(** The smallest sample that at least [p] percent of the samples do not exceed. *)
Definition nearest_rank (p : Z) (samples : list Z) (v : Z) : Prop :=
  v ∈ samples ∧ p * Z.of_nat (length samples) <= 100 * at_most v samples ∧
  ∀ w, w < v → 100 * at_most w samples < p * Z.of_nat (length samples).

Lemma sorted_rank l k v :
  StronglySorted Z.le l → l !! k = Some v →
  Z.of_nat k < at_most v l ∧ ∀ w, w < v → at_most w l <= Z.of_nat k.
Proof.
  intros Hs Hk. unfold at_most. rewrite <-(take_drop_middle _ _ _ Hk) in Hs |- *.
  assert (length (take k l) = k) as Hlen by (apply lookup_lt_Some in Hk; rewrite length_take; lia).
  split.
  - rewrite filter_app, filter_cons_True, length_app by done. cbn.
    rewrite filter_all, Hlen; [lia|]. apply Forall_forall. intros x Hx.
    eapply (StronglySorted_app_1_elem_of Z.le); [done..|set_solver].
  - intros w Hw. rewrite filter_app, filter_cons_False, length_app by lia.
    rewrite (filter_none _ (drop (S k) l)); cbn.
    + pose proof (length_filter (λ d, d <= w) (take k l)). lia.
    + apply StronglySorted_app_1_r, StronglySorted_inv in Hs as [_ Hall].
      eapply Forall_impl; [done|]. cbn. lia.
Qed.

Lemma sorted_lookup_le l i j a b :
  StronglySorted Z.le l → l !! i = Some a → l !! j = Some b → (i ≤ j)%nat → a <= b.
Proof.
  intros Hs Ha Hb Hij. destruct (decide (i = j)) as [->|]; [naive_solver lia|].
  rewrite <-(take_drop_middle _ _ _ Ha) in Hs.
  apply StronglySorted_app_1_r, StronglySorted_inv in Hs as [_ Hall].
  rewrite Forall_forall in Hall. apply Hall, (list_elem_of_lookup_2 _ (j - S i)).
  rewrite lookup_drop. by replace (S i + (j - S i))%nat with j by lia.
Qed.

Lemma at_most_sorted samples v : at_most v (merge_sort Z.le samples) = at_most v samples.
Proof. unfold at_most. by rewrite merge_sort_Permutation. Qed.

Lemma index_at_Ok l i : 0 <= i < Z.of_nat (length l) →
  ∃ v, index_at l i = Ok v ∧ l !! Z.to_nat i = Some v.
Proof.
  intros Hi. unfold index_at. destruct (lookup_lt_is_Some_2 l (Z.to_nat i)) as [v Hv]; [lia|].
  exists v. split; [|done]. rewrite (proj2 (Z.leb_le _ _)), (proj2 (Z.ltb_lt _ _)) by lia. cbn.
  f_equal. by apply nth_lookup_Some.
Qed.

(** The rank that the code takes for [p] percent. *)
Lemma rank_nearest p samples v :
  0 < p <= 100 → samples ≠ [] →
  let n := Z.of_nat (length samples) in
  merge_sort Z.le samples !! Z.to_nat ((p * n + 99) / 100 - 1) = Some v →
  nearest_rank p samples v.
Proof.
  intros Hp Hne n Hv. unfold nearest_rank. fold n.
  assert (0 < n) by (destruct samples; [done|unfold n; cbn; lia]).
  assert (StronglySorted Z.le (merge_sort Z.le samples)) as Hs
    by (apply StronglySorted_merge_sort; apply _).
  destruct (sorted_rank _ _ _ Hs Hv) as [Hge Hlt].
  set (k := (p * n + 99) / 100 - 1) in *.
  assert (p * n <= 100 * (k + 1) ∧ 100 * k < p * n ∧ 0 <= k) as (Hk1 & Hk2 & Hk3).
  { unfold k. pose proof (Z.div_mod (p * n + 99) 100). pose proof (Z.mod_pos_bound (p * n + 99) 100).
    nia. }
  rewrite Z2Nat.id in * by done. rewrite at_most_sorted in Hge. split_and!.
  - rewrite <-(merge_sort_Permutation Z.le samples). by eapply list_elem_of_lookup_2.
  - lia.
  - intros w Hw. specialize (Hlt w Hw). rewrite at_most_sorted in Hlt. lia.
Qed.

(** C40: For a stage with measured claims the percentiles are taken without an index out of
    range: the two upper ones are the nearest ranks of 95 and 99 percent, the middle one
    is a sample which more than half of the samples do not exceed while at most half lie
    below it, and they are in order. *)
Theorem percentiles_are_nearest_ranks t stage samples :
  byStage t !! stage = Some samples → samples ≠ [] →
  let n := Z.of_nat (length samples) in
  ∃ p50 p95 p99,
    percentiles t stage = Ok (n, p50, p95, p99) ∧ p50 <= p95 <= p99 ∧
    nearest_rank 95 samples p95 ∧ nearest_rank 99 samples p99 ∧
    p50 ∈ samples ∧ n < 2 * at_most p50 samples ∧
    (∀ w, w < p50 → 2 * at_most w samples <= n).
Proof.
  intros Hst Hne n. unfold percentiles. rewrite Hst. cbv zeta. cbn [default from_option id].
  set (l := merge_sort Z.le samples).
  assert (StronglySorted Z.le l) as Hs by (apply StronglySorted_merge_sort; apply _).
  assert (length l = length samples) as Hlen by (unfold l; by rewrite merge_sort_Permutation).
  rewrite Hlen. fold n. assert (0 < n) by (destruct samples; [done|unfold n; cbn; lia]).
  rewrite (proj2 (Z.eqb_neq n 0)) by lia.
  assert (0 <= n / 2 < n) by (split; [apply Z.div_pos|apply Z.div_lt]; lia).
  assert (∀ p, 0 < p <= 100 → 0 <= (p * n + 99) / 100 - 1 < n) as Hrank.
  { intros p Hp. pose proof (Z.div_mod (p * n + 99) 100).
    pose proof (Z.mod_pos_bound (p * n + 99) 100). nia. }
  destruct (index_at_Ok l (n / 2)) as (p50 & -> & H50); [lia|].
  destruct (index_at_Ok l ((95 * n + 99) / 100 - 1)) as (p95 & -> & H95);
    [rewrite Hlen; apply Hrank; lia|].
  destruct (index_at_Ok l ((99 * n + 99) / 100 - 1)) as (p99 & -> & H99);
    [rewrite Hlen; apply Hrank; lia|].
  exists p50, p95, p99. split; [done|].
  destruct (sorted_rank _ _ _ Hs H50) as [Hge Hlt]. rewrite Z2Nat.id in * by lia.
  unfold l in Hge, Hlt. rewrite at_most_sorted in Hge.
  assert (p50 ∈ samples).
  { rewrite <-(merge_sort_Permutation Z.le samples). by eapply list_elem_of_lookup_2. }
  pose proof (Hrank 95) as H95r. pose proof (Hrank 99) as H99r.
  pose proof (Z.div_mod n 2). pose proof (Z.mod_pos_bound n 2).
  split_and!; try (apply rank_nearest; [lia|done..]); try done; try lia.
  - eapply sorted_lookup_le; [done..|]. apply Z2Nat.inj_le; [lia..|].
    pose proof (Z.div_mod (95 * n + 99) 100). pose proof (Z.mod_pos_bound (95 * n + 99) 100). lia.
  - eapply sorted_lookup_le; [done..|]. apply Z2Nat.inj_le; [lia..|].
    apply Z.sub_le_mono_r, Z.div_le_mono; lia.
  - intros w Hw. specialize (Hlt w Hw). rewrite at_most_sorted in Hlt. lia.
Qed.
