(* ===== verification/Benchmark.v ===== *)
(** * cmd/growthbench/main.go: the program

    [run] and what it calls, in a state monad [bio] over the tables, the catalog and what
    its goroutines share: the tracer, the counters, the channels.  The two workers and the
    producer are [happening]s, which may take place before every effect of [run]: an
    oracle gives a [bmoment] for each effect, with what has happened and what the server
    answers.  The lines that the program prints are its report, without their format. *)

From S2P Require Import Prelude GoText Json Types Builder Postgres Queries Store.
From S2P Require Import Timing Effects Engine SqlText Migrate Explain Growthbench.

(** ** Goroutines and channels *)

(** The producer: its result waits in [producerDone] until [run] receives it. *)
Inductive producer :=
  | NotStarted
  | Producing (short : Engine)
  | Produced (r : option error)
  | Collected.

(** [measurement]; the numbers of the server's statistics, the counts and the plans. *)
Record measurement := {
  Live : Z; DeadEstimate : Z; Updates : Z; HOT : Z; AutoCount : Z; HeapBytes : Z; IndexBytes : Z;
  HeapDead : Z; LeaseDead : Z; LeaseBytes : Z;
  AutoMS : float64; WALBytes : float64; AutoReadBytes : float64; AutoWriteBytes : float64;
  ShortCompleted : Z; ShortFailed : Z; LongLeased : Z; LongCompleted : Z;
  m_Claim : plan; m_Recovery : plan;
}.

(** The numbers of an [OBS] line. *)
Record observation := {
  obs_target : Z;
  obs_enqueued : Z;
  obs_enqueued_stage : Z;
  obs_percentiles : Z * Z * Z * Z;
  obs_measurement : measurement;
}.

(** What the goroutines share.  [bw_running] counts the workers that have not returned,
    [bw_workers] is the content of the channel [workers], [bw_stopped] is
    [stoppedWorkers]; the booleans are the closed channels and the cancelled context. *)
Record bench (T : Type) := {
  bw_tables : db;
  bw_catalog : catalog T;
  bw_trace : claimTrace;
  bw_enqueued : Z;
  bw_longStarted : Z;
  bw_producer : producer;
  bw_running : nat;
  bw_workers : list (option error);
  bw_stopped : nat;
  bw_released : bool;
  bw_producerStop : bool;
  bw_cancelled : bool;
  bw_report : list observation;
  bw_step : nat;
}.
Arguments bw_tables {T} _.
Arguments bw_catalog {T} _.
Arguments bw_trace {T} _.
Arguments bw_enqueued {T} _.
Arguments bw_longStarted {T} _.
Arguments bw_producer {T} _.
Arguments bw_running {T} _.
Arguments bw_workers {T} _.
Arguments bw_stopped {T} _.
Arguments bw_released {T} _.
Arguments bw_producerStop {T} _.
Arguments bw_cancelled {T} _.
Arguments bw_report {T} _.
Arguments bw_step {T} _.

(** What the queries on the server's statistics answer, and the text of a plan. *)
Record statistics := {
  stat_user_tables : env → db → error + Z * Z * Z * Z * Z * float64 * Z * Z;
  pgstattuple_approx : env → db → error + Z;
  pgstattuple : env → db → error + Z * Z;
  stat_wal : env → db → error + float64;
  stat_io : env → db → error + float64 * float64;
  explained : list string → env → db → error + list ascii;
}.

Section bench.
Context {T : Type}.
#[local] Abbreviation bench := (bench T).

Definition set_tables (x : db) (w : bench) : bench :=
  {| bw_tables := x; bw_catalog := bw_catalog w; bw_trace := bw_trace w;
     bw_enqueued := bw_enqueued w; bw_longStarted := bw_longStarted w;
     bw_producer := bw_producer w; bw_running := bw_running w; bw_workers := bw_workers w;
     bw_stopped := bw_stopped w; bw_released := bw_released w;
     bw_producerStop := bw_producerStop w; bw_cancelled := bw_cancelled w;
     bw_report := bw_report w; bw_step := bw_step w |}.
Definition set_catalog (x : catalog T) (w : bench) : bench :=
  {| bw_tables := bw_tables w; bw_catalog := x; bw_trace := bw_trace w;
     bw_enqueued := bw_enqueued w; bw_longStarted := bw_longStarted w;
     bw_producer := bw_producer w; bw_running := bw_running w; bw_workers := bw_workers w;
     bw_stopped := bw_stopped w; bw_released := bw_released w;
     bw_producerStop := bw_producerStop w; bw_cancelled := bw_cancelled w;
     bw_report := bw_report w; bw_step := bw_step w |}.
Definition set_trace (x : claimTrace) (w : bench) : bench :=
  {| bw_tables := bw_tables w; bw_catalog := bw_catalog w; bw_trace := x;
     bw_enqueued := bw_enqueued w; bw_longStarted := bw_longStarted w;
     bw_producer := bw_producer w; bw_running := bw_running w; bw_workers := bw_workers w;
     bw_stopped := bw_stopped w; bw_released := bw_released w;
     bw_producerStop := bw_producerStop w; bw_cancelled := bw_cancelled w;
     bw_report := bw_report w; bw_step := bw_step w |}.
(** [enqueued.Add(n)] and [longStarted.Add(n)]. *)
Definition add_enqueued (n : Z) (w : bench) : bench :=
  {| bw_tables := bw_tables w; bw_catalog := bw_catalog w; bw_trace := bw_trace w;
     bw_enqueued := bw_enqueued w + n; bw_longStarted := bw_longStarted w;
     bw_producer := bw_producer w; bw_running := bw_running w; bw_workers := bw_workers w;
     bw_stopped := bw_stopped w; bw_released := bw_released w;
     bw_producerStop := bw_producerStop w; bw_cancelled := bw_cancelled w;
     bw_report := bw_report w; bw_step := bw_step w |}.
Definition add_longStarted (n : Z) (w : bench) : bench :=
  {| bw_tables := bw_tables w; bw_catalog := bw_catalog w; bw_trace := bw_trace w;
     bw_enqueued := bw_enqueued w; bw_longStarted := bw_longStarted w + n;
     bw_producer := bw_producer w; bw_running := bw_running w; bw_workers := bw_workers w;
     bw_stopped := bw_stopped w; bw_released := bw_released w;
     bw_producerStop := bw_producerStop w; bw_cancelled := bw_cancelled w;
     bw_report := bw_report w; bw_step := bw_step w |}.
Definition set_producer (x : producer) (w : bench) : bench :=
  {| bw_tables := bw_tables w; bw_catalog := bw_catalog w; bw_trace := bw_trace w;
     bw_enqueued := bw_enqueued w; bw_longStarted := bw_longStarted w;
     bw_producer := x; bw_running := bw_running w; bw_workers := bw_workers w;
     bw_stopped := bw_stopped w; bw_released := bw_released w;
     bw_producerStop := bw_producerStop w; bw_cancelled := bw_cancelled w;
     bw_report := bw_report w; bw_step := bw_step w |}.
Definition set_workers (running : nat) (x : list (option error)) (stopped : nat) (w : bench) : bench :=
  {| bw_tables := bw_tables w; bw_catalog := bw_catalog w; bw_trace := bw_trace w;
     bw_enqueued := bw_enqueued w; bw_longStarted := bw_longStarted w;
     bw_producer := bw_producer w; bw_running := running; bw_workers := x;
     bw_stopped := stopped; bw_released := bw_released w;
     bw_producerStop := bw_producerStop w; bw_cancelled := bw_cancelled w;
     bw_report := bw_report w; bw_step := bw_step w |}.
(** [close(release)], [close(producerStop)] - each once - and [cancelWorkers()]. *)
Definition set_signals (released producerStop cancelled : bool) (w : bench) : bench :=
  {| bw_tables := bw_tables w; bw_catalog := bw_catalog w; bw_trace := bw_trace w;
     bw_enqueued := bw_enqueued w; bw_longStarted := bw_longStarted w;
     bw_producer := bw_producer w; bw_running := bw_running w; bw_workers := bw_workers w;
     bw_stopped := bw_stopped w; bw_released := released;
     bw_producerStop := producerStop; bw_cancelled := cancelled;
     bw_report := bw_report w; bw_step := bw_step w |}.
Definition releaseClaim (w : bench) : bench :=
  set_signals true (bw_producerStop w) (bw_cancelled w) w.
Definition stopProducer (w : bench) : bench :=
  set_signals (bw_released w) true (bw_cancelled w) w.
Definition cancelWorkers (w : bench) : bench :=
  set_signals (bw_released w) (bw_producerStop w) true w.
Definition print_obs (x : observation) (w : bench) : bench :=
  {| bw_tables := bw_tables w; bw_catalog := bw_catalog w; bw_trace := bw_trace w;
     bw_enqueued := bw_enqueued w; bw_longStarted := bw_longStarted w;
     bw_producer := bw_producer w; bw_running := bw_running w; bw_workers := bw_workers w;
     bw_stopped := bw_stopped w; bw_released := bw_released w;
     bw_producerStop := bw_producerStop w; bw_cancelled := bw_cancelled w;
     bw_report := bw_report w ++ [x]; bw_step := bw_step w |}.
Definition next_step (w : bench) : bench :=
  {| bw_tables := bw_tables w; bw_catalog := bw_catalog w; bw_trace := bw_trace w;
     bw_enqueued := bw_enqueued w; bw_longStarted := bw_longStarted w;
     bw_producer := bw_producer w; bw_running := bw_running w; bw_workers := bw_workers w;
     bw_stopped := bw_stopped w; bw_released := bw_released w;
     bw_producerStop := bw_producerStop w; bw_cancelled := bw_cancelled w;
     bw_report := bw_report w; bw_step := S (bw_step w) |}.
End bench.

(** ** What happens beside [run] *)

Section program.
Context `{Postgres} {T : Type} (ddl : string → T → outcome T).
#[local] Abbreviation bench := (bench T).

(** A statement of a worker; a call of the long step; a tick of the producer, whose [Run]
    gets an id, the server's decisions and a fault; the producer takes its stop; a worker
    returns; the tracer sees the end of a query. *)
Inductive happening :=
  | Served (x : other)
  | LongStarted
  | Ticked (id : string) (e : env) (f : fault)
  | ProducerQuits
  | WorkerReturned (r : option error)
  | Traced (start : option queryStart) (at_ : Z) (failed : bool) (rows : Z).

(** [engine.Run(ctx, name, nil)]; the moment of its one effect. *)
Definition run_moment (e : env) (f : fault) : moment :=
  {| m_others := []; m_env := e; m_fault := f; m_ctx := None; m_fn := FnOut (Ok []);
     m_key := KeyReturned "" None; m_now := 0 |}.
Definition call_Run (engine : Engine) (name id : string) (e : env) (f : fault) (d : db)
    : outcome string * db :=
  let (r, w) := Engine.Run (λ _, run_moment e f) engine name (Ok (s2b "null")) [] (Ok id)
                  {| w_db := d; w_tx := None; w_tick := 0; w_calls := []; w_log := [] |} in
  (r, w_db w).

(** One turn of the producer's loop. *)
Definition produce (short : Engine) (id : string) (e : env) (f : fault) (w : bench) : bench :=
  match call_Run short "short" id e f (bw_tables w) with
  | (Ok _, d) => add_enqueued 1 (set_tables d w)
  | (Err er, d) => set_producer (Produced (Some er)) (set_tables d w)
  | (Panic _ _, _) => w
  end.

Definition happen (w : bench) (h : happening) : bench :=
  match h with
  | Served x => set_tables (run_other (bw_tables w) x) w
  | LongStarted => add_longStarted 1 w
  | Ticked id e f =>
    match bw_producer w with Producing short => produce short id e f w | _ => w end
  | ProducerQuits =>
    match bw_producer w with
    | Producing _ => if bw_producerStop w then set_producer (Produced None) w else w
    | _ => w
    end
  | WorkerReturned r =>
    match bw_running w with
    | O => w
    | S n => set_workers n (bw_workers w ++ [r]) (bw_stopped w) w
    end
  | Traced start at_ failed rows => set_trace (TraceQueryEnd (bw_trace w) at_ start failed rows) w
  end.

(** [bm_timeout]: the context of [await] is done; [bm_worker]: what the worker returns
    for which [run] waits; [bm_faults]: the faults of [ApplySchema]. *)
Record bmoment := {
  bm_others : list happening;
  bm_env : env;
  bm_fault : fault;
  bm_uuid : string;
  bm_timeout : bool;
  bm_worker : option error;
  bm_faults : nat → fault;
}.

Definition bio (A : Type) : Type := bench → outcome A * bench.
#[global] Instance bio_ret : MRet bio := λ A a w, (Ok a, w).
#[global] Instance bio_bind : MBind bio := λ A B f m w,
  match m w with
  | (Ok a, w') => f a w'
  | (Err e, w') => (Err e, w')
  | (Panic msg a, w') => (Panic msg a, w')
  end.
Definition blift {A} (x : outcome A) : bio A := λ w, (x, w).

(** [defer cleanup()]; the cleanup can block for ever. *)
Definition bdefer {A} (cleanup : bio ()) (m : bio A) : bio A := λ w,
  let (a, w1) := m w in
  match cleanup w1 with
  | (Panic msg x, w2) => (Panic msg x, w2)
  | (_, w2) => (a, w2)
  end.

Section oracle.
Context (o : nat → bmoment).

Definition elapse (w : bench) : bench := next_step (foldl happen w (bm_others (o (bw_step w)))).
Definition beffect {A} (act : bmoment → bench → outcome A * bench) : bio A := λ w,
  act (o (bw_step w)) (elapse w).

(** A call to the server, with its faults; [pool]: a statement on the tables. *)
Definition call {A} (act : env → bench → outcome A * bench) : bio A := beffect (λ m w,
  match bm_fault m with
  | NoFault => act (bm_env m) w
  | FailBefore e => (Err e, w)
  | FailAfter e => (Err e, (act (bm_env m) w).2)
  end).
Definition pool {A} (s : env → db → outcome A * db) : bio A :=
  call (λ e w, let (a, d) := s e (bw_tables w) in (a, set_tables d w)).
Definition answered {A} (x : error + A) : outcome A := match x with inl er => Err er | inr a => Ok a end.
Definition server {A} (answer : env → db → error + A) : bio A :=
  pool (λ e d, (answered (answer e d), d)).

(** A read or write of what the goroutines share, and [time.Sleep]. *)
Definition load {A} (f : bench → A) : bio A := beffect (λ _ w, (Ok (f w), w)).
Definition store (f : bench → bench) : bio () := beffect (λ _ w, (Ok (), f w)).
Definition sleep : bio () := beffect (λ _ w, (Ok (), w)).

Definition deadlock {A} : outcome A := Panic "all goroutines are asleep - deadlock!" [].

(** [<-workers], counted: a result that is there, or the one of the next worker to
    return, for which [run] waits.  A worker whose context is cancelled returns when the
    runs it executes have ended, and the step of a run of "long" ends when the claims are
    released; any other worker may never return. *)
Definition recv_worker : bio (option error) := beffect (λ m w,
  match bw_workers w, bw_running w with
  | r :: rs, n => (Ok r, set_workers n rs (S (bw_stopped w)) w)
  | [], S n =>
    if bw_cancelled w && bw_released w
    then (Ok (bm_worker m), set_workers n [] (S (bw_stopped w)) w) else (deadlock, w)
  | [], O => (deadlock, w)
  end).

(** [<-producerDone]: a producer that was told to stop will do so. *)
Definition recv_producer : bio (option error) := beffect (λ _ w,
  match bw_producer w with
  | Produced r => (Ok r, set_producer Collected w)
  | Producing _ => if bw_producerStop w then (Ok None, set_producer Collected w) else (deadlock, w)
  | NotStarted | Collected => (deadlock, w)
  end).

(** ** Seeding *)

Section statements.
Context (md5_uuid : string → string) (stats : statistics).

(** The loop of [seedHistory]; [fuel] bounds its rounds. *)
Fixpoint seed_batches (fuel : nat) (first to : Z) : bio () :=
  match fuel with
  | O => mret ()
  | S fuel =>
    if to <? first then mret ()
    else
      let last := Z.min (int64 (first + 99999)) to in
      _ ← pool (insert_history md5_uuid first last);
      _ ← pool (insert_history_checkpoints md5_uuid first last);
      seed_batches fuel (int64 (first + 100000)) to
  end.

(** It ends with [ANALYZE]. *)
Definition seedHistory (from to : Z) : bio () :=
  _ ← seed_batches (Z.to_nat (to - from + 1)) from to;
  server (λ _ _, inr ()).

(** ** Measuring *)

Definition explain (probe : env → db → list string) : bio plan :=
  raw ← server (λ e d, explained stats (probe e d) e d);
  blift (read_plan raw).

Definition run_counts (d : db) : Z * Z * Z * Z :=
  (count_runs "short" RunCompleted d, count_runs "short" RunFailed d,
   count_runs "long" RunLeased d, count_runs "long" RunCompleted d).

Definition measure : bio measurement :=
  '(live, dead, updates, hot, auto, auto_ms, heap, index) ← server (stat_user_tables stats);
  heap_dead ← server (pgstattuple_approx stats);
  '(lease_dead, lease_bytes) ← server (pgstattuple stats);
  wal ← server (stat_wal stats);
  '(auto_read, auto_write) ← server (stat_io stats);
  '(short_completed, short_failed, long_leased, long_completed) ← server (λ _ d, inr (run_counts d));
  claim ← explain claimProbe;
  recovery ← explain recoveryProbe;
  mret {| Live := live; DeadEstimate := dead; Updates := updates; HOT := hot; AutoCount := auto;
          HeapBytes := heap; IndexBytes := index; HeapDead := heap_dead; LeaseDead := lease_dead;
          LeaseBytes := lease_bytes; AutoMS := auto_ms; WALBytes := wal; AutoReadBytes := auto_read;
          AutoWriteBytes := auto_write; ShortCompleted := short_completed;
          ShortFailed := short_failed; LongLeased := long_leased; LongCompleted := long_completed;
          m_Claim := claim; m_Recovery := recovery |}.

(** ** The stages *)

(** A stage after its seeding: it lets the load run and prints what it measures. *)
Definition observe (active stage target : Z) : bio () :=
  stageStartEnqueued ← load bw_enqueued;
  _ ← store (λ w, set_trace (set_stage stage (bw_trace w)) w);
  _ ← sleep;
  stageEnqueued ← load bw_enqueued;
  _ ← store (λ w, set_trace (set_stage (-1) (bw_trace w)) w);
  m ← measure;
  current ← load bw_enqueued;
  trace ← load bw_trace;
  ps ← blift (percentiles trace stage);
  _ ← store (print_obs {| obs_target := target; obs_enqueued := current;
                          obs_enqueued_stage := stageEnqueued - stageStartEnqueued;
                          obs_percentiles := ps; obs_measurement := m |});
  blift (guard_err
    (negb (ShortFailed m =? 0) || negb (LongLeased m =? active) || negb (LongCompleted m =? 0))
    (Errorf "workflow state changed unexpectedly at milestone %d" [itoa target])).

(** The loop of [run] over the milestones, from the one with the index [stage]. *)
Fixpoint stages (active : Z) (targets : list Z) (stage previous : Z) : bio () :=
  match targets with
  | [] => mret ()
  | target :: rest =>
    _ ← (if previous <? target then seedHistory (int64 (previous + 1)) target else mret ());
    _ ← observe active stage target;
    stages active rest (stage + 1) target
  end.

(** ** Waiting *)

(** [await]: [check] once, and again at each tick until the context ends, which it does
    at the latest when [ticks] ticks of 50ms have used up its timeout. *)
Fixpoint await_ticks (ticks : nat) (label : string) (check : bio bool) : bio () :=
  ok ← check;
  if (ok : bool) then mret ()
  else
    let expired := blift (Err (Wrapf "waiting for %s: %w" [label] (Sentinel context_DeadlineExceeded))) in
    match ticks with
    | O => expired
    | S ticks =>
      done ← beffect (λ m w, (Ok (bm_timeout m), w));
      if (done : bool) then expired else await_ticks ticks label check
    end.
Definition await (timeout : Z) : string → bio bool → bio () :=
  await_ticks (Z.to_nat (timeout / (50 * Millisecond))).

Definition long_claims_active (active : Z) : bio bool :=
  n ← load bw_longStarted; mret (n =? active).

(** Everything enqueued has completed, and nothing failed. *)
Definition all_completed (active : Z) : bio bool :=
  '(shortDone, longDone, failed) ← server (λ _ d,
    inr (count_runs "short" RunCompleted d, count_runs "long" RunCompleted d,
         count_runs "short" RunFailed d + count_runs "long" RunFailed d));
  _ ← blift (guard_err (0 <? failed) (Errorf "%d failed runs" [itoa failed]));
  enqueued ← load bw_enqueued;
  mret ((shortDone =? enqueued) && (longDone =? active)).

(** ** [run] *)

(** The package pgxpool and the server: parsing the URL and making a pool, the server's
    version, and [GOMAXPROCS]. *)
Context (connect : string → error + ()) (server_version : Z) (gomaxprocs : Z).

Definition bench_config (queue : string) (concurrency : Z) : Config :=
  {| cfg_DB := true; cfg_Schema := bench_schema; cfg_Queue := queue;
     cfg_MaxConcurrency := concurrency; cfg_PollInterval := 10 * Millisecond;
     cfg_LeaseTTL := 0; cfg_HeartbeatInterval := 0 |}.
Definition new_engine (cfg : Config) : bio Engine :=
  beffect (λ m w, (New cfg gomaxprocs (Ok (bm_uuid m)), w)).

Definition to_regnamespace : bio (option string) := call (λ _ w,
  (Ok (if cat_schema (bw_catalog w) then Some bench_schema else None), w)).
Definition apply_schema (e : Engine) : bio () := beffect (λ m w,
  let (r, c) := ApplySchema ddl (bm_faults m) e (bw_catalog w) in (r, set_catalog c w)).

(** What both workflows are: one step; the functions are 0 and 1. *)
Definition process (fn : StepFunc) : list builder_call := [CallStep "process" (Some fn) []].

(** The checks and the set-up, up to the registration of "short". *)
Definition prepare (f : flags) : bio (Engine * Engine) :=
  _ ← blift (answered (connect (f_url f)));
  _ ← call (λ _ w, (Ok (), w));
  version ← call (λ _ w, (Ok server_version, w));
  _ ← blift (checkServer version);
  existing ← to_regnamespace;
  _ ← blift (checkFresh existing);
  short ← new_engine (bench_config "short" 8);
  long ← new_engine (bench_config "long" (f_active f));
  _ ← apply_schema short;
  _ ← call (λ _ w, (Ok (), w));
  _ ← (if bool_decide (f_profile f = "tuned") then call (λ _ w, (Ok (), w)) else mret ());
  short ← blift (RegisterWorkflow short "short" (process 0%nat));
  mret (short, long).

(** The runs of "long". *)
Fixpoint enqueue_long (n : nat) (long : Engine) : bio () :=
  match n with
  | O => mret ()
  | S n =>
    _ ← beffect (λ m w,
          let (r, d) := call_Run long "long" (bm_uuid m) (bm_env m) (bm_fault m) (bw_tables w) in
          (r, set_tables d w));
    enqueue_long n long
  end.

(** The deferred collection of the workers. *)
Fixpoint receive_rest (n : nat) : bio () :=
  match n with O => mret () | S n => _ ← recv_worker; receive_rest n end.
Definition drain_workers : bio () :=
  _ ← store releaseClaim;
  _ ← store cancelWorkers;
  stopped ← load bw_stopped;
  receive_rest (2 - stopped).

(** The collection at the end, which stops at an error. *)
Fixpoint collect_workers (n : nat) : bio () :=
  match n with
  | O => mret ()
  | S n =>
    err ← recv_worker;
    _ ← blift (match err with
               | Some e => if errors_Is e context_Canceled then Ok () else Err e
               | None => Ok ()
               end);
    collect_workers n
  end.

(** While the producer runs. *)
Definition produce_and_measure (active : Z) (targets : list Z) (short : Engine) : bio () :=
  _ ← store (set_producer (Producing short));
  _ ← stages active targets 0 0;
  _ ← store stopProducer;
  produced ← recv_producer;
  _ ← blift (match produced with Some e => Err e | None => Ok () end);
  _ ← store releaseClaim;
  _ ← await (45 * Second) "all workflows completed" (all_completed active);
  _ ← store cancelWorkers;
  stopped ← load bw_stopped;
  collect_workers (2 - stopped).

(** While the workers run. *)
Definition with_workers (active : Z) (targets : list Z) (short : Engine) : bio () :=
  _ ← await (30 * Second) "active long claims" (long_claims_active active);
  bdefer (store stopProducer) (produce_and_measure active targets short).

Definition serve (active : Z) (targets : list Z) (short long : Engine) : bio () :=
  long ← blift (RegisterWorkflow long "long" (process 1%nat));
  _ ← pool (insert_probes md5_uuid);
  _ ← enqueue_long (Z.to_nat active) long;
  _ ← store (λ w, set_workers 2 (bw_workers w) (bw_stopped w) w);
  bdefer drain_workers (with_workers active targets short).

Definition run (f : flags) : bio () :=
  targets ← blift (checkFlags f);
  '(short, long) ← prepare f;
  bdefer (store releaseClaim) (serve (f_active f) targets short long).
End statements.
End oracle.
End program.

(** ** The effects of the program *)

Section effects.
Context `{Postgres} {T : Type}.
#[local] Abbreviation bench := (bench T).

Lemma bio_bind_eq {A B} (m : bio A) (f : A → bio B) (w : bench) :
  (m ≫= f) w = match m w with
               | (Ok a, w') => f a w'
               | (Err e, w') => (Err e, w')
               | (Panic msg a, w') => (Panic msg a, w')
               end.
Proof. done. Qed.
Lemma bio_bind_Ok {A B} (m : bio A) (k : A → bio B) (w : bench) b w' :
  (m ≫= k) w = (Ok b, w') → ∃ a w1, m w = (Ok a, w1) ∧ k a w1 = (Ok b, w').
Proof. rewrite bio_bind_eq. destruct (m w) as [[a|e|msg x] w1]; [|done..]. by exists a, w1. Qed.
Lemma blift_Ok {A} (x : outcome A) (w : bench) a w' : blift x w = (Ok a, w') → x = Ok a ∧ w' = w.
Proof. by intros [= -> ->]. Qed.
Lemma bdefer_Ok {A} (cleanup : bio ()) (m : bio A) (w : bench) a w' :
  bdefer cleanup m w = (Ok a, w') →
  ∃ w1 c, m w = (Ok a, w1) ∧ cleanup w1 = (c, w').
Proof.
  unfold bdefer. destruct (m w) as [x w1]. destruct (cleanup w1) as [[[]|e|msg l] w2] eqn:E;
    intros [= -> ->]; [exists w1, (Ok ())|exists w1, (Err e)]; done.
Qed.

(** [engine.Run] inserts one run of the newest version of the workflow, without a
    deduplication key; the answer can be lost. *)
Lemma call_Run_cases engine name id e f d r d' :
  call_Run engine name id e f d = (r, d') →
  (d' = d ∧ ∀ rid, r ≠ Ok rid) ∨
  ∃ wf max_att q rn d1,
    latestWorkflow engine name = Some wf ∧
    exec (InsertRun id (cw_name wf) (cw_version wf) q max_att None (s2b "null") None
            (channel engine)) e d = (rn, d1) ∧
    match r with
    | Ok rid => d' = d1 ∧ ∃ n, rn = Ok (rid, n)
    | _ => d' = d ∨ d' = d1
    end.
Proof.
  unfold call_Run, Engine.Run, Enqueue, wrapping, lift, apply_options.
  cbv [foldl defaultOptions o_workflowVersion o_queue o_maxAttempts o_runID o_idempotencyKey
    o_scheduledAt mret mbind io_ret io_bind guard_err]. cbn [Z.ltb Z.eqb Z.compare Z.leb].
  rewrite !(bool_decide_eq_true_2 ("" = "")) by done.
  destruct (latestWorkflow engine name) as [wf|]; cbn [from_option]; [|intros [= <- <-]; by left].
  destruct (bool_decide (TrimSpace _ = "")); [intros [= <- <-]; by left|].
  intros Hx. right. exists wf, defaultMaxAttempts, (TrimSpace (e_queue engine)).
  revert Hx. unfold query, effect, interfere. cbn [run_moment m_others m_env m_fault foldl w_db fst].
  destruct (exec _ e d) as [rn d1]. exists rn, d1. split_and!; [done..|]. revert Hx. cbn.
  destruct f, rn as [[rid n]| |]; cbn; intros [= <- <-]; eauto.
Qed.

Lemma call_Run_step engine name id e f d : rtc db_step d (call_Run engine name id e f d).2.
Proof.
  destruct (call_Run engine name id e f d) as [r d'] eqn:E.
  apply call_Run_cases in E as [[-> _]|(wf & ma & q & rn & d1 & _ & Hx & Hd)]; [done|].
  assert (rtc db_step d d1) as Hs by (apply rtc_once; eexists _, _, _; by rewrite Hx).
  destruct r; naive_solver.
Qed.

(** What happens beside [run], and each of its statements, are steps of the tables. *)
Lemma produce_step short id e f (w : bench) :
  rtc db_step (bw_tables w) (bw_tables (produce short id e f w)).
Proof.
  unfold produce. pose proof (call_Run_step short "short" id e f (bw_tables w)) as Hs.
  by destruct (call_Run _ _ _ _ _ _) as [[]].
Qed.

Lemma happen_step (w : bench) h : rtc db_step (bw_tables w) (bw_tables (happen w h)).
Proof.
  destruct h; cbn; try done.
  - apply rtc_once, run_other_step.
  - destruct (bw_producer w); [done|apply produce_step|done..].
  - by destruct (bw_producer w), (bw_producerStop w).
  - by destruct (bw_running w).
Qed.

Lemma elapse_steps o (w : bench) : rtc db_step (bw_tables w) (bw_tables (elapse o w)).
Proof.
  unfold elapse. cbn. generalize (bm_others (o (bw_step w))) as hs. intros hs. revert w.
  induction hs as [|h hs IH]; intros w; [done|]. cbn. by etrans; [apply (happen_step w h)|].
Qed.

(** A statement of the benchmark that succeeds ran on tables that the others left. *)
Lemma pool_Ok o {X} (s : env → db → outcome X * db) (w : bench) x w' :
  pool o s w = (Ok x, w') →
  ∃ e d, rtc db_step (bw_tables w) d ∧ s e d = (Ok x, bw_tables w').
Proof.
  unfold pool, call, beffect. intros Hp. eexists (bm_env (o (bw_step w))), _.
  split; [apply (elapse_steps o)|].
  destruct (bm_fault _); [|done|by destruct (s _ _)]. destruct (s _ _) as [a d]. by injection Hp as -> <-.
Qed.
(** A part of [run] that leaves the tables to the others. *)
Definition stepwise {A} (m : bio A) : Prop :=
  ∀ w : bench, rtc db_step (bw_tables w) (bw_tables (m w).2).

Lemma stepwise_bind {A B} (m : bio A) (k : A → bio B) :
  stepwise m → (∀ a, stepwise (k a)) → stepwise (m ≫= k).
Proof.
  intros Hm Hk w. rewrite bio_bind_eq. specialize (Hm w). destruct (m w) as [[a|e|msg l] w1]; [|done..].
  etrans; [exact Hm|apply Hk].
Qed.
Lemma stepwise_ret {A} (a : A) : stepwise (mret a).
Proof. by intros w. Qed.
Lemma stepwise_blift {A} (x : outcome A) : stepwise (blift x).
Proof. by intros w. Qed.
Lemma stepwise_effect o {A} (act : bmoment → bench → outcome A * bench) :
  (∀ m w, bw_tables (act m w).2 = bw_tables w) → stepwise (beffect o act).
Proof. intros Ha w. unfold beffect. rewrite Ha. apply elapse_steps. Qed.
Lemma stepwise_server o {A} (answer : env → db → error + A) : stepwise (server o answer).
Proof.
  intros w. unfold server, pool, call, beffect. destruct (bm_fault _); apply elapse_steps.
Qed.
Lemma stepwise_load o {A} (f : bench → A) : stepwise (load o f).
Proof. by apply stepwise_effect. Qed.
Lemma stepwise_store o f : (∀ w, bw_tables (f w) = bw_tables w) → stepwise (store o f).
Proof. intros. by apply stepwise_effect. Qed.
End effects.

Create HintDb stepwise.
#[export] Hint Resolve stepwise_bind stepwise_ret stepwise_blift stepwise_server stepwise_load
  : stepwise.
#[export] Hint Extern 1 (stepwise (store _ _)) => by apply stepwise_store : stepwise.
#[export] Hint Extern 1 (stepwise (beffect _ _)) => by apply stepwise_effect : stepwise.

Ltac solve_stepwise :=
  repeat first
    [ solve [eauto 2 with stepwise] | apply stepwise_bind; [|intros ?]
    | match goal with |- stepwise (let (_, _) := ?x in _) => destruct x
                    | |- stepwise (if ?b then _ else _) => destruct b end ].
