(* ===== verification/Seeding.v ===== *)
(** * The history that the growth benchmark writes

    [history_is_seeded]: running through the stages leaves the rows of every milestone;
    [seedHistory_succeeds]: undisturbed, the writing comes to its end;
    [seeding_is_inert]: what it writes changes no answer that the workers get. *)

From S2P Require Import Prelude GoText Json Types Builder Postgres Queries Store.
From S2P Require Import Inert Timing Effects Engine SqlText Growthbench.
From S2P Require Import Migrate Explain Benchmark.

(** ** Seeding *)

Section seeding.
Context `{Postgres}.
Context {T : Type} (md5_uuid : string → string) (o : nat → bmoment).
#[local] Abbreviation bench := (bench T).
#[local] Abbreviation history_id := (history_id md5_uuid).

(** The row of [g], whatever its clock readings are, and with it its checkpoint. *)
Definition history_row (d : db) (g : Z) : Prop :=
  ∃ e u, workflow_runs d !! history_id g = Some (set_updated_at u (history_run g e)).
Definition seeded (d : db) (g : Z) : Prop :=
  history_row d g ∧ step_checkpoints d !! (history_id g, 0) = Some (s2b "true").

(** The rows of [lo] to [hi] are there, each under an id of its own. *)
Definition seeded_range (d : db) (lo hi : Z) : Prop :=
  (∀ g, lo <= g <= hi → seeded d g) ∧
  (∀ g g', lo <= g <= hi → lo <= g' <= hi → history_id g = history_id g' → g = g').

Lemma history_row_steps d d' g : rtc db_step d d' → history_row d g → history_row d' g.
Proof.
  intros Hs (e & u & Hr). destruct (rtc_terminal _ _ _ _ Hs Hr) as (r' & Hr' & E); [done|].
  exists e, (updated_at r'). by rewrite Hr', E at 1.
Qed.

Lemma checkpoints_steps d d' : rtc db_step d d' → step_checkpoints d ⊆ step_checkpoints d'.
Proof.
  induction 1 as [|d d1 d2 (X & s & e & ->) _ IH]; [done|]. etrans; [eapply exec_checkpoints_mono|done].
Qed.

Lemma seeded_steps d d' g : rtc db_step d d' → seeded d g → seeded d' g.
Proof.
  intros Hs [Hr Hc]. split; [by eapply history_row_steps|].
  by eapply lookup_weaken; [|apply checkpoints_steps].
Qed.

Lemma insert_rows_Ok rows d n d' :
  insert_rows rows d = (Ok n, d') →
  insertable rows d ∧ d' = set_runs (list_to_map rows ∪ workflow_runs d) d.
Proof. unfold insert_rows. case_decide; [|done]. by intros [= _ <-]. Qed.

Lemma bind_range_Ok first last a b :
  bind_range first last = Ok (a, b) →
  a = first ∧ b = last ∧ -(2^31) <= first < 2^31 ∧ -(2^31) <= last < 2^31.
Proof.
  unfold bind_range. intros (x & Hx%bind_int4_Ok & (y & Hy%bind_int4_Ok & [= <- <-])%outcome_bind_Ok)%outcome_bind_Ok.
  naive_solver.
Qed.

Lemma insert_history_Ok first last e d n d' :
  insert_history md5_uuid first last e d = (Ok n, d') →
  first < 2^31 ∧ last < 2^31 ∧ step_checkpoints d' = step_checkpoints d ∧
  workflow_runs d ⊆ workflow_runs d' ∧
  (∀ g, first <= g <= last →
     workflow_runs d !! history_id g = None ∧ workflow_runs d' !! history_id g = Some (history_run g e)) ∧
  (∀ g g', first <= g <= last → first <= g' <= last → history_id g = history_id g' → g = g').
Proof.
  unfold insert_history. destruct (bind_range first last) as [[a b]| |] eqn:Hb; [|done..].
  apply bind_range_Ok in Hb as (-> & -> & Hf & Hl).
  set (rows := _ <$> generate_series first last).
  intros [(Hnd & Habs & _) ->]%insert_rows_Ok. cbn.
  assert (∀ g, first <= g <= last → (history_id g, history_run g e) ∈ rows) as Hin.
  { intros g Hg. unfold rows, generate_series. apply list_elem_of_fmap. exists g. split; [done|].
    apply elem_of_seqZ. lia. }
  rewrite Forall_forall in Habs. split_and!; try lia; try done.
  - apply map_union_subseteq_r, map_disjoint_spec. intros k x y Hk Hy.
    apply elem_of_list_to_map_2, Habs in Hk. cbn in Hk. congruence.
  - intros g Hg. specialize (Hin g Hg). split; [by apply (Habs _ Hin)|].
    apply lookup_union_Some_l. by apply elem_of_list_to_map_1.
  - intros g g' Hg Hg'. unfold rows in Hnd. rewrite <-list_fmap_compose in Hnd.
    apply (NoDup_fmap_inj _ _ g g' Hnd); apply elem_of_seqZ; lia.
Qed.

Lemma insert_checkpoints_Ok first last e d n d' :
  insert_history_checkpoints md5_uuid first last e d = (Ok n, d') →
  workflow_runs d' = workflow_runs d ∧ step_checkpoints d ⊆ step_checkpoints d' ∧
  ∀ g, first <= g <= last → step_checkpoints d' !! (history_id g, 0) = Some (s2b "true").
Proof.
  unfold insert_history_checkpoints. destruct (bind_range first last) as [[a b]| |] eqn:Hb; [|done..].
  apply bind_range_Ok in Hb as (-> & -> & _ & _).
  set (rows := _ <$> generate_series first last).
  destruct (_ || _) eqn:Hkey; [done|].
  apply orb_false_iff in Hkey as [Hnd%negb_false_iff Habs%negb_false_iff]. bool_to_prop.
  destruct (negb _); [done|]. intros [= _ <-].
  split_and!; [done| |].
  - apply map_union_subseteq_r, map_disjoint_spec. intros k x y Hk Hy.
    rewrite Forall_forall in Habs. apply elem_of_list_to_map_2, Habs in Hk. cbn in Hk. congruence.
  - intros g Hg. apply lookup_union_Some_l. apply elem_of_list_to_map_1; [done|].
    apply list_elem_of_fmap. exists g. split; [done|]. apply elem_of_seqZ. lia.
Qed.

(** One round of the loop of [seedHistory]. *)
Lemma seed_batch lo first last (w : bench) n w1 n' w2 :
  pool o (insert_history md5_uuid first last) w = (Ok n, w1) →
  pool o (insert_history_checkpoints md5_uuid first last) w1 = (Ok n', w2) →
  seeded_range (bw_tables w) lo (first - 1) → lo <= first → first <= last + 1 →
  first < 2^31 ∧ last < 2^31 ∧ seeded_range (bw_tables w2) lo last.
Proof.
  intros (e1 & d1 & Hd1 & H1)%pool_Ok (e2 & d2 & Hd2 & H2)%pool_Ok [Hs Hinj] Hlo Hle.
  apply insert_history_Ok in H1 as (Hf & Hl & Hcp1 & Hsub1 & Hnew & Hinj').
  apply insert_checkpoints_Ok in H2 as (Hrun2 & Hsub2 & Hcp2).
  assert (∀ g, lo <= g < first → seeded d1 g) as Hs1.
  { intros g Hg. eapply seeded_steps; [done|]. apply Hs. lia. }
  assert (∀ g, first <= g <= last → history_row (bw_tables w2) g) as Hrow.
  { intros g Hg. destruct (Hnew g Hg) as [_ Hg1].
    destruct (history_row_steps (bw_tables w1) d2 g) as (e & u & Hr); [done| |].
    - exists e1, (now e1). by rewrite Hg1.
    - exists e, u. by rewrite Hrun2. }
  assert (∀ g, lo <= g < first → seeded (bw_tables w2) g) as Hkept.
  { intros g Hg. destruct (Hs1 g Hg) as [(e & u & Hr) Hc].
    destruct (seeded_steps (bw_tables w1) d2 g) as [(e' & u' & Hr') Hc']; [done| |].
    - split; [exists e, u; by eapply lookup_weaken|by rewrite Hcp1].
    - split; [exists e', u'; by rewrite Hrun2|by eapply lookup_weaken]. }
  split_and!; [done..|]. split.
  - intros g Hg. destruct (decide (g < first)); [apply Hkept; lia|].
    split; [apply Hrow|apply Hcp2]; lia.
  - assert (∀ g g', lo <= g < first → first <= g' <= last → history_id g ≠ history_id g') as Hne.
    { intros g g' Hg Hg' E. destruct (Hs1 g Hg) as [(e & u & Hr) _].
      destruct (Hnew g' Hg') as [Habs _]. congruence. }
    intros g g' Hg Hg' E. destruct (decide (g < first)), (decide (g' < first)).
    + apply Hinj; [lia..|done].
    + by destruct (Hne g g'); [lia..|].
    + by destruct (Hne g' g); [lia..|].
    + apply Hinj'; [lia..|done].
Qed.

Lemma seed_batches_Ok fuel lo first to (w w' : bench) :
  seed_batches o md5_uuid fuel first to w = (Ok (), w') →
  to - first < Z.of_nat fuel → lo <= first → first <= to + 1 → in_int64 first →
  seeded_range (bw_tables w) lo (first - 1) → seeded_range (bw_tables w') lo to.
Proof.
  revert first w. induction fuel as [|fuel IH]; intros first w Hrun Hfuel Hlo Hto Hint Hs; cbn in Hrun.
  { injection Hrun as <-. by replace to with (first - 1) by lia. }
  destruct (to <? first) eqn:Hlt; bool_to_prop.
  { injection Hrun as <-. by replace to with (first - 1) by lia. }
  set (last := Z.min (int64 (first + 99999)) to) in Hrun.
  apply bio_bind_Ok in Hrun as (n & w1 & H1 & (n' & w2 & H2 & Hrun)%bio_bind_Ok).
  assert (first < 2^31) as Hf.
  { apply pool_Ok in H1 as (? & ? & _ & H1). unfold insert_history in H1.
    destruct (bind_range first last) as [[]| |] eqn:Hb; [|done..]. apply bind_range_Ok in Hb. lia. }
  assert (last = Z.min (first + 99999) to) as Hlast.
  { unfold last. rewrite int64_id; [done|]. unfold in_int64 in *. lia. }
  destruct (seed_batch lo first last w n w1 n' w2) as (_ & _ & Hs'); [done..|lia|].
  destruct (decide (to <= first + 99999)) as [Hend|Hmore].
  - replace last with to in Hs' by lia. revert Hrun.
    assert (in_int64 (first + 100000)) by (unfold in_int64 in *; lia). rewrite int64_id by done.
    destruct fuel; cbn; [by intros [= <-]|]. rewrite (proj2 (Z.ltb_lt _ _)) by lia. by intros [= <-].
  - rewrite int64_id in Hrun by (unfold in_int64 in *; lia).
    eapply IH; [exact Hrun|lia..| |].
    + unfold in_int64 in *. lia.
    + by replace (first + 100000 - 1) with last by lia.
Qed.

Lemma seedHistory_Ok lo from to (w w' : bench) :
  seedHistory o md5_uuid from to w = (Ok (), w') → lo <= from <= to → in_int64 from →
  seeded_range (bw_tables w) lo (from - 1) → seeded_range (bw_tables w') lo to.
Proof.
  unfold seedHistory. intros ([] & w1 & H1 & (e & d & Hd & [= ->])%pool_Ok)%bio_bind_Ok Hle Hint Hs.
  destruct (seed_batches_Ok _ lo _ _ _ _ H1) as [H2 H3]; [lia..|done|done|].
  split; [|done]. intros g Hg. eapply seeded_steps; [done|]. by apply H2.
Qed.

(** ** The stages *)

Context (stats : statistics).

Lemma observe_stepwise active stage target : stepwise (T := T) (observe o stats active stage target).
Proof.
  unfold observe, measure, explain, sleep. solve_stepwise.
Qed.

Lemma seeded_range_steps d d' lo hi :
  rtc db_step d d' → seeded_range d lo hi → seeded_range d' lo hi.
Proof. intros Hs [H1 H2]. split; [|done]. intros g Hg. eapply seeded_steps; [done|by apply H1]. Qed.

Lemma stages_Ok active targets stage previous (w w' : bench) :
  stages o md5_uuid stats active targets stage previous w = (Ok (), w') →
  Forall in_int64 targets → 0 <= previous → in_int64 previous →
  StronglySorted Z.lt targets → Forall (Z.le previous) targets →
  seeded_range (bw_tables w) 1 previous → seeded_range (bw_tables w') 1 (default previous (last targets)).
Proof.
  revert stage previous w.
  induction targets as [|target rest IH]; intros stage previous w Hrun Hint Hp Hpi Hs Hge Hd.
  { by injection Hrun as <-. }
  cbn in Hrun. apply StronglySorted_inv in Hs as [Hs Hlt].
  apply Forall_cons in Hint as [Ht Hint]. apply Forall_cons in Hge as [Hpt Hge].
  apply bio_bind_Ok in Hrun as ([] & w1 & H1 & ([] & w2 & H2 & Hrun)%bio_bind_Ok).
  assert (seeded_range (bw_tables w1) 1 target) as Hd1.
  { destruct (previous <? target) eqn:E; bool_to_prop.
    - assert (in_int64 (previous + 1)) by (unfold in_int64 in *; lia).
      rewrite int64_id in H1 by done.
      eapply seedHistory_Ok; [done|lia|done|]. by replace (previous + 1 - 1) with previous by lia.
    - injection H1 as <-. by replace target with previous by lia. }
  assert (seeded_range (bw_tables w2) 1 target) as Hd2.
  { eapply seeded_range_steps; [|done]. pose proof (observe_stepwise active stage target w1) as Hst.
    by rewrite H2 in Hst. }
  assert (Forall (Z.le target) rest) by (eapply Forall_impl; [exact Hlt|]; cbn; lia).
  specialize (IH _ target w2 Hrun Hint ltac:(lia) Ht Hs ltac:(done) Hd2).
  destruct rest as [|t rest]; [done|]. rewrite last_cons_cons.
  destruct (last (t :: rest)) eqn:E; [done|by apply last_None in E].
Qed.
End seeding.

(** If the benchmark accepts its milestones and runs through all of its stages, beside
    whatever the workers did and whatever faults the server answered, then the history of
    the last milestone is complete: for each number from one up to it there is one
    completed run with its checkpoint, as the two statements wrote them, under an id
    that no other number has. *)
Theorem history_is_seeded `{Postgres} {T} (md5_uuid : string → string) (o : nat → bmoment)
    stats s targets active (w w' : bench T) :
  parseHistory s = Ok targets →
  stages o md5_uuid stats active targets 0 0 w = (Ok (), w') →
  seeded_range md5_uuid (bw_tables w') 1 (default 0 (last targets)).
Proof.
  intros Hparse Hrun. apply parseHistory_targets in Hparse as (Hint & Hs & Hge).
  eapply stages_Ok in Hrun; [done|done|lia|by vm_compute|done|done|].
  split; intros; lia.
Qed.

(** ** Seeding succeeds *)

Section success.
Context `{Postgres}.
Context {T : Type} (md5_uuid : string → string) (o : nat → bmoment).
#[local] Abbreviation bench := (bench T).
#[local] Abbreviation history_id := (history_id md5_uuid).

(** The tables have room for the rows of [lo] to [hi]. *)
Definition room (d : db) (lo hi : Z) : Prop :=
  ∀ g, lo <= g <= hi →
    workflow_runs d !! history_id g = None ∧ step_checkpoints d !! (history_id g, 0) = None ∧
    ∀ k r, workflow_runs d !! k = Some r → dedup_conflict "history" (Some (history_dedup g)) k r = false.

Definition distinct_ids (lo hi : Z) : Prop :=
  ∀ g g', lo <= g <= hi → lo <= g' <= hi → history_id g = history_id g' → g = g'.

(** Nothing happens beside the seeding, and no call fails. *)
Definition undisturbed : Prop := ∀ n, bm_others (o n) = [] ∧ bm_fault (o n) = NoFault.
Context (Hq : undisturbed).

Lemma pool_quiet {X} (s : env → db → outcome X * db) (w : bench) :
  let e := bm_env (o (bw_step w)) in
  pool o s w = ((s e (bw_tables w)).1, set_tables (s e (bw_tables w)).2 (next_step w)).
Proof.
  unfold pool, call, beffect, elapse. destruct (Hq (bw_step w)) as [-> ->]. cbn. by destruct (s _ _).
Qed.

Lemma history_dedup_inj g g' :
  0 <= g < 2^31 → 0 <= g' < 2^31 → history_dedup g = history_dedup g' → g = g'.
Proof.
  unfold history_dedup, itoa. intros Hg Hg' E%(f_equal s2b). rewrite !s2b_app, !s2b_b2s in E.
  apply app_inv_head in E. apply itoa_inj; [lia..|done].
Qed.

Lemma NoDup_series {A} (f : Z → A) lo hi first last :
  (∀ g g', lo <= g <= hi → lo <= g' <= hi → f g = f g' → g = g') →
  lo <= first → last <= hi → NoDup (f <$> generate_series first last).
Proof.
  intros Hf Hlo Hhi. apply NoDup_fmap_2_strong; [|apply NoDup_seqZ].
  intros g g' Hg%elem_of_seqZ Hg'%elem_of_seqZ. apply Hf; lia.
Qed.

Lemma dedup_keys e (l : list Z) :
  omap (λ kr, pair (workflow_name kr.2) <$> dedup_key kr.2)
    ((λ g, (history_id g, history_run g e)) <$> l) = (λ g, ("history", history_dedup g)) <$> l.
Proof. induction l as [|g l IH]; [done|]. cbn. by rewrite IH. Qed.

Lemma bind_range_in first last :
  -(2^31) <= first < 2^31 → -(2^31) <= last < 2^31 → bind_range first last = Ok (first, last).
Proof.
  intros Hf Hl. unfold bind_range.
  rewrite (proj2 (bind_int4_Ok first first)), (proj2 (bind_int4_Ok last last)) by done. done.
Qed.

Lemma seed_batch_succeeds first last hi (w : bench) :
  0 <= first → first <= last → last <= hi → hi < 2^31 → distinct_ids first hi →
  room (bw_tables w) first hi →
  ∃ n n' w1 w2,
    pool o (insert_history md5_uuid first last) w = (Ok n, w1) ∧
    pool o (insert_history_checkpoints md5_uuid first last) w1 = (Ok n', w2) ∧
    room (bw_tables w2) (last + 1) hi.
Proof.
  intros Hf Hle Hhi Hmax Hinj Hroom. set (e := bm_env (o (bw_step w))). set (d := bw_tables w) in *.
  set (rows := (λ g, (history_id g, history_run g e)) <$> generate_series first last).
  set (d1 := set_runs (list_to_map rows ∪ workflow_runs d) d).
  assert (∀ kr, kr ∈ rows → ∃ g, kr = (history_id g, history_run g e) ∧ first <= g <= last) as Hrows.
  { intros kr (g & -> & Hg%elem_of_seqZ)%list_elem_of_fmap. exists g. split; [done|lia]. }
  assert (NoDup rows.*1) as Hnd.
  { unfold rows. rewrite <-list_fmap_compose. by apply (NoDup_series _ first hi). }
  assert (insert_history md5_uuid first last e d = (Ok (Z.of_nat (length rows)), d1)) as E1.
  { unfold insert_history. rewrite bind_range_in by lia. unfold insert_rows. rewrite decide_True; [done|].
    split_and!; [done| | |].
    - apply Forall_forall. intros kr (g & -> & Hg)%Hrows. apply Hroom. lia.
    - unfold rows. rewrite dedup_keys. apply (NoDup_series _ first hi); [|lia..].
      intros g g' Hg Hg' E%(f_equal snd). apply history_dedup_inj in E; [done|lia..].
    - apply Forall_forall. intros kr (g & -> & Hg)%Hrows. apply affected_empty. apply Hroom. lia. }
  set (cps := (λ g, ((history_id g, 0), s2b "true")) <$> generate_series first last).
  set (d2 := set_checkpoints (list_to_map cps ∪ step_checkpoints d1) d1).
  assert (∀ e', insert_history_checkpoints md5_uuid first last e' d1 =
    (Ok (Z.of_nat (length cps)), d2)) as E2.
  { intros e'. unfold insert_history_checkpoints. rewrite bind_range_in by lia. fold cps.
    assert (∀ kv, kv ∈ cps → ∃ g, kv = ((history_id g, 0), s2b "true") ∧ first <= g <= last) as Hcps.
    { intros kv (g & -> & Hg%elem_of_seqZ)%list_elem_of_fmap. exists g. split; [done|lia]. }
    rewrite !bool_decide_eq_true_2; [done|..].
    - apply Forall_forall. intros kv (g & -> & Hg)%Hcps.
      exists (history_run g e). apply lookup_union_Some_l, elem_of_list_to_map_1; [done|].
      apply list_elem_of_fmap. exists g. split; [done|]. apply elem_of_seqZ. lia.
    - apply Forall_forall. intros kv (g & -> & Hg)%Hcps. apply Hroom. lia.
    - unfold cps. rewrite <-list_fmap_compose. apply (NoDup_series _ first hi); [|lia..].
      intros g g' Hg Hg' [= E]. by apply Hinj. }
  eexists _, _, (set_tables d1 (next_step w)), (set_tables d2 (next_step (set_tables d1 (next_step w)))).
  split_and!; [by rewrite pool_quiet; fold e d; rewrite E1|rewrite pool_quiet; cbn [bw_tables set_tables]; by rewrite E2|].
  intros g Hg. cbn.
  destruct (Hroom g) as (Hr & Hc & Hk); [lia|].
  split_and!.
  - apply lookup_union_None. split; [|done]. apply not_elem_of_list_to_map_1.
    intros ([k r] & E & (g' & [= -> ->] & Hg')%Hrows)%list_elem_of_fmap. cbn in E.
    apply Hinj in E; lia.
  - apply lookup_union_None. split; [|done]. apply not_elem_of_list_to_map_1.
    intros ([[k i] v] & E & (g' & [= -> -> ->] & Hg'%elem_of_seqZ)%list_elem_of_fmap)%list_elem_of_fmap.
    cbn in E. injection E as E. apply Hinj in E; lia.
  - intros k r [Hin|[_ Hin]]%lookup_union_Some_raw; [|by eapply Hk].
    apply elem_of_list_to_map_2, Hrows in Hin as (g' & [= -> ->] & Hg'). unfold dedup_conflict.
    apply andb_false_iff. right. apply bool_decide_eq_false. intros E%(inj Some).
    apply history_dedup_inj in E; lia.
Qed.

Lemma seed_batches_succeed fuel first to (w : bench) :
  to - first < Z.of_nat fuel → 0 <= first → first <= to + 1 → to < 2^31 → distinct_ids first to →
  room (bw_tables w) first to →
  ∃ w', seed_batches o md5_uuid fuel first to w = (Ok (), w').
Proof.
  revert first w. induction fuel as [|fuel IH]; intros first w Hfuel Hf Hto Hmax Hinj Hroom; cbn; [by eexists|].
  destruct (to <? first) eqn:Hlt; bool_to_prop; [by eexists|].
  rewrite !int64_id by (unfold in_int64; lia). set (last := Z.min (first + 99999) to).
  destruct (seed_batch_succeeds first last to w) as (n & n' & w1 & w2 & E1 & E2 & Hroom'); [lia..|done|done|].
  rewrite bio_bind_eq, E1, bio_bind_eq, E2.
  destruct (decide (to < first + 100000)).
  - destruct fuel; cbn; [by eexists|]. rewrite (proj2 (Z.ltb_lt _ _)) by lia. by eexists.
  - apply IH; [lia..| |].
    + intros g g' Hg Hg'. apply Hinj; lia.
    + by replace (last + 1) with (first + 100000) in Hroom' by lia.
Qed.

(** Undisturbed, and with room for the rows, seeding comes to its end. *)
Lemma seedHistory_succeeds from to (w : bench) :
  0 <= from → from <= to + 1 → to < 2^31 → distinct_ids from to → room (bw_tables w) from to →
  ∃ w', seedHistory o md5_uuid from to w = (Ok (), w').
Proof.
  intros Hf Hle Hmax Hinj Hroom. unfold seedHistory.
  destruct (seed_batches_succeed (Z.to_nat (to - from + 1)) from to w) as [w1 E1]; [lia..|done|done|].
  unfold server. rewrite bio_bind_eq, E1, pool_quiet. by eexists.
Qed.
End success.

(** What a batch of [seedHistory] adds to the tables is inert (see [Inert]): to every
    statement that does not ask for it the workers' tables answer as before. *)
Lemma seeding_is_inert `{Postgres} md5_uuid first last e e' d n d1 n' d2 :
  insert_history md5_uuid first last e d = (Ok n, d1) →
  insert_history_checkpoints md5_uuid first last e' d1 = (Ok n', d2) →
  (∀ id i v, step_checkpoints d !! (id, i) = Some v → is_Some (workflow_runs d !! id)) →
  ∃ H1 C, apart H1 C d ∧ d2 = beside H1 C d ∧
    (∀ id r, H1 !! id = Some r →
       ∃ g, first <= g <= last ∧ id = history_id md5_uuid g ∧ r = history_run g e) ∧
    ∀ X (s : stmt X) e, spares H1 s → (exec s e d2).1 = (exec s e d).1.
Proof.
  unfold insert_history, insert_history_checkpoints.
  destruct (bind_range first last) as [[a b]| |] eqn:Hb; [|done..].
  apply bind_range_Ok in Hb as (-> & -> & _ & _).
  set (rows := _ <$> generate_series first last). set (cps := _ <$> generate_series first last).
  intros [(Hnd & Habs & _) ->]%insert_rows_Ok. destruct (_ || _); [done|].
  destruct (negb _); [done|]. intros [= _ <-] Hfk.
  assert (∀ id r, (list_to_map rows : gmap string Postgres.run) !! id = Some r → ∃ g, first <= g <= last ∧
    id = history_id md5_uuid g ∧ r = history_run g e) as Hrows.
  { intros id r (g & [= -> ->] & Hg%elem_of_seqZ)%elem_of_list_to_map_2%list_elem_of_fmap.
    exists g. split; [lia|done]. }
  assert (apart (list_to_map rows) (list_to_map cps) d) as Hap.
  { rewrite Forall_forall in Habs. split.
    - by intros id r (g & _ & _ & ->)%Hrows.
    - apply map_disjoint_spec. intros id r r' Hin%elem_of_list_to_map_2%Habs Hd. cbn in *. congruence.
    - intros id i v (g & [= -> -> ->] & Hg)%elem_of_list_to_map_2%list_elem_of_fmap.
      exists (history_run g e). apply elem_of_list_to_map_1; [done|].
      apply list_elem_of_fmap. by exists g.
    - intros id i v [r Hr]%Hfk. destruct (list_to_map rows !! id) as [r'|] eqn:E; [|done].
      apply elem_of_list_to_map_2, Habs in E. cbn in E. congruence. }
  exists (list_to_map rows), (list_to_map cps). split_and!; [done..|].
  intros X s e0 Hs. exact (f_equal fst (exec_beside _ _ d Hap s e0 Hs)).
Qed.
