(* ===== verification/Goroutines.v ===== *)
(** * The goroutines of the growth benchmark

    Invariants of the parts of [run], whatever happens beside it, and
    [run_leaves_nothing_running]: however it ends, its workers have returned and its
    producer has been told to stop, and it never waits for ever. *)

From S2P Require Import Prelude GoText Json Types Builder Postgres Queries Store Claims.
From S2P Require Import Timing Effects Engine Registry SqlText Migrate Explain Growthbench.
From S2P Require Import Benchmark.

(** ** Invariants of the parts of [run] *)

Section safe.
Context `{Postgres} {T : Type} (o : nat → bmoment).
#[local] Abbreviation bench := (bench T).

(** A part of [run] that keeps [P] and does not wait for ever. *)
Definition safe (P : bench → Prop) {A} (m : bio A) : Prop :=
  ∀ w, P w → P (m w).2 ∧ (m w).1 ≠ deadlock.

Lemma safe_bind P {A B} (m : bio A) (k : A → bio B) :
  safe P m → (∀ a, safe P (k a)) → safe P (m ≫= k).
Proof.
  intros Hm Hk w Hw. rewrite bio_bind_eq. destruct (Hm w Hw) as [H1 H2].
  destruct (m w) as [[a|e|msg l] w1]; [by apply Hk|done|]. cbn in *. split; [done|].
  unfold deadlock in *. congruence.
Qed.
Lemma safe_ret P {A} (a : A) : safe P (mret a).
Proof. by intros w Hw. Qed.
Lemma safe_blift P {A} (x : outcome A) : x ≠ deadlock → safe P (blift x).
Proof. by intros Hx w Hw. Qed.

(** What an invariant has to be closed under. *)
Record frame (P : bench → Prop) : Prop := {
  fr_happen n w h : h ∈ bm_others (o n) → P w → P (happen w h);
  fr_next w : P w → P (next_step w);
  fr_trace t w : P w → P (set_trace t w);
  fr_print x w : P w → P (print_obs x w);
}.

Lemma frame_and (P Q : bench → Prop) : frame P → frame Q → frame (λ w, P w ∧ Q w).
Proof. intros [] []. split; naive_solver. Qed.

Lemma frame_elapse P w : frame P → P w → P (elapse o w).
Proof.
  intros HP Hw. unfold elapse. apply fr_next; [done|]. pose proof (fr_happen _ HP (bw_step w)) as Hh.
  revert Hh. generalize (bm_others (o (bw_step w))) as hs. intros hs.
  induction hs as [|h hs IH] in w, Hw |- *; intros Hh; [done|]. cbn.
  apply IH; [apply Hh; [by left|done]|]. intros w' h' Hin. apply Hh. by right.
Qed.

Lemma safe_effect P {A} (act : bmoment → bench → outcome A * bench) :
  frame P → (∀ m w, P w → P (act m w).2 ∧ (act m w).1 ≠ deadlock) → safe P (beffect o act).
Proof. intros HP Ha w Hw. apply Ha. by apply frame_elapse. Qed.

Lemma safe_call P {A} (act : env → bench → outcome A * bench) :
  frame P → (∀ e w, P w → P (act e w).2 ∧ (act e w).1 ≠ deadlock) → safe P (call o act).
Proof.
  intros HP Ha. apply safe_effect; [done|]. intros m w Hw.
  destruct (bm_fault m); [by apply Ha|done|]. by split; [apply Ha|].
Qed.
Lemma safe_load P {A} (f : bench → A) : frame P → safe P (load o f).
Proof. intros. by apply safe_effect. Qed.
Lemma safe_store P f : frame P → (∀ w, P w → P (f w)) → safe P (store o f).
Proof. intros HP Hf. apply safe_effect; [done|]. intros m w Hw. by split; [apply Hf|]. Qed.
Lemma safe_sleep P : frame P → safe P (sleep o).
Proof. intros. by apply safe_effect. Qed.

(** A statement of [run] keeps [P] if writing its tables does. *)
Lemma safe_pool P {A} (s : env → db → outcome A * db) :
  frame P → (∀ e d, (s e d).1 ≠ deadlock) →
  (∀ e w, P w → P (set_tables (s e (bw_tables w)).2 w)) → safe P (pool o s).
Proof.
  intros HP Hx Hs. apply safe_call; [done|]. intros e w Hw. specialize (Hs e w Hw).
  specialize (Hx e (bw_tables w)). by destruct (s _ _).
Qed.
Lemma set_tables_same (w : bench) : set_tables (bw_tables w) w = w.
Proof. by destruct w. Qed.
Lemma answered_live {A} (x : error + A) : answered x ≠ deadlock.
Proof. by destruct x. Qed.
Lemma safe_server P {A} (answer : env → db → error + A) : frame P → safe P (server o answer).
Proof.
  intros HP. apply safe_pool; [done|intros; apply answered_live|].
  intros e w Hw. cbn. by rewrite set_tables_same.
Qed.
End safe.

Lemma no_panic_live {A} (x : outcome A) : no_panic x → x ≠ deadlock.
Proof. intros Hx. apply Hx. Qed.
Lemma guard_live c e : guard_err c e ≠ deadlock.
Proof. by destruct c. Qed.
Lemma percentiles_live t stage : percentiles t stage ≠ deadlock.
Proof.
  unfold percentiles, index_at.
  repeat first [done | case_match | progress cbn [mbind outcome_bind mret outcome_ret]].
Qed.

Create HintDb safe.
#[export] Hint Resolve safe_bind safe_ret safe_blift safe_load safe_sleep safe_server
  answered_live guard_live percentiles_live no_panic_live : safe.
Ltac solve_safe :=
  repeat first
    [ solve [eauto 3 with safe] | apply safe_bind; [|intros ?]
    | match goal with |- safe _ (let (_, _) := ?x in _) => destruct x
                    | |- safe _ (if ?b then _ else _) => destruct b end ].

(** ** No part panics *)

Lemma from_option_no_panic {A} (x : option A) e : no_panic (from_option Ok (Err e) x).
Proof. by destruct x. Qed.

Lemma unmarshal_int_no_panic v : no_panic (unmarshal_int v).
Proof. unfold unmarshal_int. by repeat case_match. Qed.

Lemma decode_struct_no_panic {S} depth (field : list ascii → list ascii → S → outcome S) v old :
  (∀ k v s, no_panic (field k v s)) → no_panic (decode_struct depth field v old).
Proof.
  intros Hf. unfold decode_struct. repeat case_match; try done.
  match goal with |- no_panic (foldl _ _ ?ms) => generalize ms end.
  intros ms. assert (no_panic (Ok old)) as Hold by done. revert Hold. generalize (Ok old).
  induction ms as [|[k w] ms IH]; intros acc Hacc; [done|]. cbn. apply IH.
  apply no_panic_bind; [done|]. intros. apply Hf.
Qed.

Lemma decode_int64_no_panic v old : no_panic (decode_int64 v old).
Proof. unfold decode_int64. case_match; [done|apply unmarshal_int_no_panic]. Qed.
Lemma decode_float64_no_panic v old : no_panic (decode_float64 v old).
Proof. unfold decode_float64. repeat case_match; try done. apply from_option_no_panic. Qed.

Lemma plan_member_no_panic k v p : no_panic (plan_member k v p).
Proof.
  unfold plan_member. repeat case_match; try done;
    (apply no_panic_bind; [apply decode_int64_no_panic|done]).
Qed.
Lemma top_member_no_panic k v p : no_panic (top_member k v p).
Proof.
  unfold top_member. repeat case_match; try done.
  - apply decode_struct_no_panic, plan_member_no_panic.
  - apply no_panic_bind; [apply decode_float64_no_panic|done].
Qed.

Lemma read_plan_no_panic raw : no_panic (read_plan raw).
Proof.
  unfold read_plan. apply no_panic_bind; [|intros; by repeat case_match].
  unfold unmarshal_plans. repeat case_match; try done.
  apply mapM_no_panic. intros e. apply decode_struct_no_panic, top_member_no_panic.
Qed.

Section no_panic.
Context `{Postgres}.

Lemma bind_range_no_panic first last : no_panic (bind_range first last).
Proof.
  unfold bind_range. apply no_panic_bind; [apply bind_int4_no_panic|]. intros.
  by apply no_panic_bind; [apply bind_int4_no_panic|].
Qed.
Lemma insert_rows_no_panic rows d : no_panic (insert_rows rows d).1.
Proof. unfold insert_rows. by case_decide. Qed.
Lemma insert_history_no_panic md5 first last e d : no_panic (insert_history md5 first last e d).1.
Proof.
  unfold insert_history. apply match_no_panic; [apply bind_range_no_panic|].
  intros []. apply insert_rows_no_panic.
Qed.
Lemma insert_history_checkpoints_no_panic md5 first last e d :
  no_panic (insert_history_checkpoints md5 first last e d).1.
Proof.
  unfold insert_history_checkpoints. apply match_no_panic; [apply bind_range_no_panic|].
  intros []. by repeat case_match.
Qed.
Lemma insert_probes_no_panic md5 e d : no_panic (insert_probes md5 e d).1.
Proof. apply insert_rows_no_panic. Qed.

Lemma call_Run_no_panic engine name id e f d : no_panic (call_Run engine name id e f d).1.
Proof.
  unfold call_Run, Engine.Run, Enqueue, wrapping, lift, apply_options.
  cbv [foldl defaultOptions o_workflowVersion o_queue o_maxAttempts o_runID o_idempotencyKey
    o_scheduledAt mret mbind io_ret io_bind guard_err]. cbn [Z.ltb Z.eqb Z.compare Z.leb].
  rewrite !(bool_decide_eq_true_2 ("" = "")) by done.
  destruct (latestWorkflow engine name) as [wf|]; cbn [from_option]; [|done].
  destruct (bool_decide (TrimSpace _ = "")); [done|].
  unfold query, effect, interfere. cbn [run_moment m_others m_env m_fault foldl w_db fst].
  match goal with |- context [exec ?s e d] => pose proof (exec_no_panic s e d) as Hx end.
  destruct (exec _ e d) as [[[rid n]|er|m l] d1]; destruct f; cbn; try done.
  exfalso. by apply (Hx m l).
Qed.
End no_panic.

(** [ApplySchema] panics at most for a negative version. *)
Section migration.
Context {T : Type} (ddl : string → T → outcome T) (Hddl : ∀ s t, no_panic (ddl s t)).

Definition tx_live {A} (m : tx (T := T) A) : Prop := ∀ s, (m s).1 ≠ deadlock.

Lemma tx_live_bind {A B} (m : tx A) (k : A → tx B) :
  tx_live m → (∀ a, tx_live (k a)) → tx_live (tx_bind _ _ k m).
Proof.
  intros Hm Hk s. unfold tx_bind. specialize (Hm s). destruct (m s) as [[a|er|msg l] s1]; [apply Hk|done|].
  cbn in *. unfold deadlock in *. congruence.
Qed.
Lemma tx_live_ret {A} (a : A) : tx_live (tx_ret _ a).
Proof. done. Qed.
Lemma tx_live_statement f {A} format args (act : catalog T → outcome A * catalog T) :
  (∀ c, no_panic (act c).1) → tx_live (statement f format args act).
Proof.
  intros Ha [n c]. unfold statement. specialize (Ha c).
  destruct (f n), (act c) as [[] ?]; cbn in *; try done. by apply no_panic_live.
Qed.
Lemma run_ddl_no_panic sql c : no_panic (run_ddl ddl sql c).1.
Proof.
  unfold run_ddl. specialize (Hddl sql (cat_objects c)). destruct (ddl sql _) as [|?|m l]; [done..|].
  by destruct (Hddl m l).
Qed.
Lemma record_version_no_panic v (c : catalog T) : no_panic (record_version v c).1.
Proof. unfold record_version. by repeat case_match. Qed.
Lemma read_version_no_panic (c : catalog T) : no_panic (read_version c).1.
Proof. unfold read_version. cbn. by case_match. Qed.

Lemma apply_from_live f rest v : tx_live (apply_from ddl f rest v).
Proof.
  revert v. induction rest as [|sql rest IH]; intros v; [apply tx_live_ret|]. cbn.
  apply tx_live_bind; [apply tx_live_statement, run_ddl_no_panic|intros _].
  apply tx_live_bind; [apply tx_live_statement, record_version_no_panic|intros _; apply IH].
Qed.

Lemma migration_body_live f e : tx_live (migration_body ddl f e).
Proof.
  unfold migration_body.
  repeat (apply tx_live_bind; [by apply tx_live_statement|intros _]).
  apply tx_live_bind; [apply tx_live_statement, read_version_no_panic|intros v].
  case_match; [done|]. case_match; [done|]. apply apply_from_live.
Qed.

Lemma ApplySchema_live f e c : (ApplySchema ddl f e c).1 ≠ deadlock.
Proof.
  unfold ApplySchema. pose proof (migration_body_live f e (1%nat, c)) as Hl.
  destruct (f 0%nat); [|done..].
  destruct (migration_body ddl f e (1%nat, c)) as [[[]|er|msg l] [n c']]; cbn in *; [|done..].
  by destruct (f n).
Qed.
End migration.

(** ** The parts of [run] *)

Section parts.
Context `{Postgres} {T : Type} (ddl : string → T → outcome T) (o : nat → bmoment).
Context (md5_uuid : string → string) (stats : statistics).
#[local] Abbreviation bench := (bench T).

(** An invariant that the statements of [seedHistory] keep. *)
Record history_frame (P : bench → Prop) : Prop := {
  hf_frame : frame o P;
  hf_history first last e w :
    P w → P (set_tables (insert_history md5_uuid first last e (bw_tables w)).2 w);
  hf_checkpoints first last e w :
    P w → P (set_tables (insert_history_checkpoints md5_uuid first last e (bw_tables w)).2 w);
}.

Lemma seedHistory_safe P from to : history_frame P → safe P (seedHistory o md5_uuid from to).
Proof.
  intros [HP Hh Hc]. unfold seedHistory. apply safe_bind; [|intros; by apply (safe_server o)].
  generalize (Z.to_nat (to - from + 1)) as fuel. intros fuel. revert from.
  induction fuel as [|fuel IH]; intros from; cbn; [apply safe_ret|].
  case_match; [apply safe_ret|]. apply safe_bind; [|intros _; apply safe_bind; [|intros _; apply IH]].
  - apply safe_pool; [done| |by intros; apply hf_history].
    intros. apply no_panic_live, insert_history_no_panic.
  - apply safe_pool; [done| |by intros; apply hf_checkpoints].
    intros. apply no_panic_live, insert_history_checkpoints_no_panic.
Qed.

Lemma read_plan_live raw : read_plan raw ≠ deadlock.
Proof. apply no_panic_live, read_plan_no_panic. Qed.
#[local] Hint Resolve read_plan_live : safe.

Lemma store_trace_safe P f : frame o P → safe P (store (T := T) o (λ w, set_trace (f w) w)).
Proof. intros HP. apply safe_store; [done|]. intros. by apply (fr_trace _ _ HP). Qed.
Lemma store_print_safe P x : frame o P → safe P (store (T := T) o (print_obs x)).
Proof. intros HP. apply safe_store; [done|]. intros. by apply (fr_print _ _ HP). Qed.
#[local] Hint Resolve store_trace_safe store_print_safe : safe.

Lemma observe_safe P active stage target : frame o P → safe (T := T) P (observe o stats active stage target).
Proof. intros HP. unfold observe, measure, explain. solve_safe. Qed.

Lemma stages_safe P active targets stage previous :
  history_frame P → safe P (stages o md5_uuid stats active targets stage previous).
Proof.
  intros HP. revert stage previous. induction targets as [|target rest IH]; intros; cbn; [apply safe_ret|].
  apply safe_bind; [case_match; [by apply seedHistory_safe|apply safe_ret]|intros _].
  apply safe_bind; [by apply observe_safe, hf_frame|intros _; apply IH].
Qed.

Lemma await_safe P timeout label check :
  frame o P → safe P check → safe P (await (T := T) o timeout label check).
Proof.
  intros HP Hc. unfold await. generalize (Z.to_nat (timeout / (50 * Millisecond))) as ticks. intros ticks.
  induction ticks as [|ticks IH]; cbn; (apply safe_bind; [done|intros []; [apply safe_ret|]]);
    [by apply safe_blift|].
  apply safe_bind; [by apply safe_effect|intros []; [by apply safe_blift|done]].
Qed.

Lemma long_claims_active_safe P active : frame o P → safe P (long_claims_active (T := T) o active).
Proof. intros HP. unfold long_claims_active. solve_safe. Qed.
Lemma all_completed_safe P active : frame o P → safe P (all_completed (T := T) o active).
Proof. intros HP. unfold all_completed. solve_safe. Qed.

(** What [run] does before its workers start: the set-up changes the catalog, and each
    call of [Run] the tables. *)
Record setup_frame (P : bench → Prop) : Prop := {
  sf_frame : frame o P;
  sf_catalog c w : P w → P (set_catalog c w);
}.

Context (Hddl : ∀ s t, no_panic (ddl s t)).
Context (connect : string → error + ()) (server_version gomaxprocs : Z).

Lemma Register_process_live e name fn :
  name = "short" ∨ name = "long" → RegisterWorkflow e name (process fn) ≠ deadlock.
Proof.
  intros Hn. unfold RegisterWorkflow, Register.
  assert (∃ cw, compileWorkflow (Some (DefineWorkflow name (process fn))) = Ok cw) as [cw ->]
    by (destruct Hn as [-> | ->]; eexists; by vm_compute).
  cbn. by case_bool_decide.
Qed.

Lemma New_live cfg id : New cfg gomaxprocs (Ok id) ≠ deadlock.
Proof.
  apply no_panic_live. unfold New.
  repeat (apply no_panic_bind; [apply guard_no_panic|intros _]). done.
Qed.
#[local] Hint Resolve New_live : safe.

Lemma prepare_safe P f :
  setup_frame P → safe (T := T) P (prepare ddl o connect server_version gomaxprocs f).
Proof.
  intros [HP Hc]. unfold prepare, new_engine, to_regnamespace.
  assert (∀ A (x : A), safe P (call (T := T) o (λ _ w, (Ok x, w)))) as Hcall by (intros; by apply safe_call).
  assert (∀ e, safe P (apply_schema ddl o e)) as Happ.
  { intros e. apply safe_effect; [done|]. intros m w Hw.
    pose proof (ApplySchema_live ddl Hddl (bm_faults m) e (bw_catalog w)) as Hl.
    destruct (ApplySchema _ _ _ _). by split; [apply Hc|]. }
  repeat (apply safe_bind; [|intros ?]); try done; try apply safe_ret;
    try (apply safe_blift; solve [apply answered_live|apply guard_live|apply Register_process_live; auto]).
  - by apply safe_call.
  - apply safe_effect; [done|]. intros. split; [done|apply New_live].
  - apply safe_effect; [done|]. intros. split; [done|apply New_live].
  - case_match; [apply Hcall|apply safe_ret].
Qed.

Lemma enqueue_long_safe P n long :
  frame o P →
  (∀ id e f w, P w → P (set_tables (call_Run long "long" id e f (bw_tables w)).2 w)) →
  safe (T := T) P (enqueue_long o n long).
Proof.
  intros HP Ht. induction n as [|n IH]; cbn; [apply safe_ret|].
  apply safe_bind; [|intros _; apply IH]. apply safe_effect; [done|]. intros m w Hw.
  specialize (Ht (bm_uuid m) (bm_env m) (bm_fault m) w Hw).
  pose proof (call_Run_no_panic long "long" (bm_uuid m) (bm_env m) (bm_fault m) (bw_tables w)) as Hx.
  destruct (call_Run _ _ _ _ _ _). split; [done|]. by apply no_panic_live.
Qed.
End parts.

(** ** The goroutines *)

Section goroutines.
Context `{Postgres} {T : Type} (o : nat → bmoment).
#[local] Abbreviation bench := (bench T).

(** From [P], the part does not wait for ever; it ends in [R], and in [Q] if without an
    error. *)
Definition triple (P : bench → Prop) {A} (m : bio A) (Q : A → bench → Prop) (R : bench → Prop) : Prop :=
  ∀ w, P w → (m w).1 ≠ deadlock ∧ R (m w).2 ∧ ∀ a, (m w).1 = Ok a → Q a (m w).2.

Lemma triple_bind {A B} P (m : bio A) (k : A → bio B) Q Q' R :
  triple P m Q R → (∀ a, triple (Q a) (k a) Q' R) → triple P (m ≫= k) Q' R.
Proof.
  intros Hm Hk w Hw. rewrite bio_bind_eq. destruct (Hm w Hw) as (H1 & H2 & H3).
  destruct (m w) as [[a|e|msg l] w1]; [by apply Hk, H3|done|]. cbn in *.
  split_and!; [|done..]. unfold deadlock in *. congruence.
Qed.
Lemma triple_safe P {A} (m : bio A) R : safe P m → (∀ w, P w → R w) → triple P m (λ _, P) R.
Proof. intros Hm HR w Hw. destruct (Hm w Hw) as [H1 H2]. by split_and!; [|apply HR|]. Qed.
Lemma triple_weaken {A} P P' (m : bio A) Q Q' R R' :
  triple P m Q R → (∀ w, P' w → P w) → (∀ a w, Q a w → Q' a w) → (∀ w, R w → R' w) →
  triple P' m Q' R'.
Proof. intros Hm HP HQ HR w Hw. destruct (Hm w) as (H1 & H2 & H3); naive_solver. Qed.
Lemma triple_effect P {A} (act : bmoment → bench → outcome A * bench) Q R :
  frame o P →
  (∀ m w, P w → (act m w).1 ≠ deadlock ∧ R (act m w).2 ∧ ∀ a, (act m w).1 = Ok a → Q a (act m w).2) →
  triple P (beffect o act) Q R.
Proof. intros HP Ha w Hw. apply Ha. by apply frame_elapse. Qed.
Lemma triple_store P f (Q R : bench → Prop) :
  frame o P → (∀ w, P w → Q (f w)) → (∀ w, Q w → R w) → triple P (store o f) (λ _, Q) R.
Proof.
  intros HP Hf HR. apply triple_effect; [done|]. intros m w Hw. split_and!; [done|by apply HR, Hf|by intros; apply Hf].
Qed.

(** A cleanup runs after every end. *)
Lemma triple_bdefer {A} P (m : bio A) (cleanup : bio ()) Q R R' Q' :
  triple P m Q R → triple R cleanup (λ _, Q') R' →
  triple P (bdefer cleanup m) (λ _ w, R' w) R'.
Proof.
  intros Hm Hc w Hw. unfold bdefer. destruct (Hm w Hw) as (H1 & H2 & _).
  destruct (m w) as [a w1]. destruct (Hc w1 H2) as (H3 & H4 & _).
  by destruct (cleanup w1) as [[?|?|? ?] w2]; cbn in *; split_and!; try done; unfold deadlock in *; congruence.
Qed.

(** [n] workers have been started, [k] collected; [ph] holds of the producer and its
    stop. *)
Record goroutines (n k : nat) (ph : producer → bool → Prop) (w : bench) : Prop := {
  go_balance : (bw_running w + length (bw_workers w) + bw_stopped w = n)%nat;
  go_stopped : bw_stopped w = k;
  go_producer : ph (bw_producer w) (bw_producerStop w);
}.

(** The producer may end on its own. *)
Class producer_phase (ph : producer → bool → Prop) : Prop :=
  phase_ends s b r : ph (Producing s) b → ph (Produced r) b.
Definition not_started (p : producer) (_ : bool) : Prop := p = NotStarted.
Definition alive (p : producer) (_ : bool) : Prop := p ≠ NotStarted ∧ p ≠ Collected.
Definition stopping (p : producer) (b : bool) : Prop := alive p b ∧ b = true.
Definition collected (p : producer) (_ : bool) : Prop := p = Collected.
Definition told (p : producer) (b : bool) : Prop := ∀ s, p = Producing s → b = true.
#[global] Instance not_started_phase : producer_phase not_started. Proof. done. Qed.
#[global] Instance alive_phase : producer_phase alive. Proof. done. Qed.
#[global] Instance stopping_phase : producer_phase stopping. Proof. by intros s b r [_ ?]. Qed.
#[global] Instance collected_phase : producer_phase collected. Proof. done. Qed.
#[global] Instance told_phase : producer_phase told. Proof. by intros s b r _ s'. Qed.

Lemma goroutines_frame n k ph : producer_phase ph → frame o (goroutines n k ph).
Proof.
  intros Hph. split; [|by intros w []|by intros t w []|by intros x w []].
  intros i w h _ [Hb Hk Hp]. destruct h; cbn; try by split.
  - destruct (bw_producer w) as [|short|r|] eqn:E; try by (split; rewrite ?E).
    unfold produce. destruct (call_Run _ _ _ _ _ _) as [[]]; split; cbn; rewrite ?E; try done.
    by eapply phase_ends.
  - destruct (bw_producer w) as [|short|r|] eqn:E; try by (split; rewrite ?E).
    destruct (bw_producerStop w) eqn:Es; split; cbn; rewrite ?E, ?Es; try done. by eapply phase_ends.
  - destruct (bw_running w) eqn:E; split; cbn; rewrite ?E; try done. rewrite length_app. cbn. lia.
Qed.
#[local] Hint Resolve goroutines_frame : core.
#[local] Hint Extern 1 (producer_phase _) => apply _ : core.

(** The same once the claims are released and the workers cancelled, which lets every
    worker return. *)
Definition ending (k : nat) (ph : producer → bool → Prop) (w : bench) : Prop :=
  goroutines 2 k ph w ∧ bw_released w = true ∧ bw_cancelled w = true.

Lemma signals_frame (S : bool → bool → Prop) : frame o (λ w : bench, S (bw_released w) (bw_cancelled w)).
Proof.
  split; [|done..]. intros n w h Hin Hw. destruct h; cbn; unfold produce; repeat case_match; done.
Qed.
Lemma released_frame k ph : producer_phase ph → frame o (λ w, goroutines 2 k ph w ∧ bw_released w = true).
Proof. intros. apply frame_and; [auto|apply (signals_frame (λ r _, r = true))]. Qed.
Lemma ending_frame k ph : producer_phase ph → frame o (ending k ph).
Proof. intros. apply frame_and; [auto|apply (signals_frame (λ r c, r = true ∧ c = true))]. Qed.
#[local] Hint Resolve ending_frame : core.

Lemma recv_worker_next k ph (m : bmoment) w : (k < 2)%nat → ending k ph w →
  ∃ r w', (match bw_workers w, bw_running w with
           | r :: rs, n => (Ok r, set_workers n rs (S (bw_stopped w)) w)
           | [], S n =>
             if bw_cancelled w && bw_released w
             then (Ok (bm_worker m), set_workers n [] (S (bw_stopped w)) w) else (deadlock, w)
           | [], O => (deadlock, w)
           end) = (Ok r, w') ∧ ending (S k) ph w'.
Proof.
  intros Hk ([Hb Hs Hp] & Hr & Hc). rewrite Hr, Hc. cbn [andb].
  destruct (bw_workers w) as [|r rs] eqn:Ew; [destruct (bw_running w) as [|n] eqn:Er|]; cbn in *; [lia|..];
    eexists _, _; (split; [done|]); (split; [|done]); (split; cbn; [lia..|done]).
Qed.
Lemma recv_worker_triple k ph R : producer_phase ph → (k < 2)%nat →
  (∀ k w, goroutines 2 k ph w → R w) →
  triple (ending k ph) (recv_worker o) (λ _, ending (S k) ph) R.
Proof.
  intros Hph Hk HR. apply triple_effect; [auto|]. intros m w Hw.
  destruct (recv_worker_next k ph m w Hk Hw) as (r & w' & -> & Hw'). cbn.
  split_and!; [done|by eapply HR; apply Hw'|by intros ? [= <-]].
Qed.

Lemma goroutines_history md5_uuid n k ph : producer_phase ph → history_frame o md5_uuid (goroutines n k ph).
Proof. intros Hph. split; [auto|by intros ? ? ? w []..]. Qed.
Lemma goroutines_setup n k ph : producer_phase ph → setup_frame o (goroutines n k ph).
Proof. intros Hph. split; [auto|by intros ? w []]. Qed.

(** Both workers are accounted for, and the producer told to stop if it still runs. *)
Definition two_workers (ph : producer → bool → Prop) (w : bench) : Prop :=
  ∃ k, goroutines 2 k ph w.
Lemma two_workers_weaken (ph ph' : producer → bool → Prop) w :
  (∀ p b, ph p b → ph' p b) → two_workers ph w → two_workers ph' w.
Proof. intros Hi (k & [? ? ?]). exists k. split; auto. Qed.
Lemma goroutines_two k ph w : goroutines 2 k ph w → two_workers ph w.
Proof. by exists k. Qed.
#[local] Hint Resolve goroutines_two : core.

Definition any (_ : producer) (_ : bool) : Prop := True.
#[global] Instance any_phase : producer_phase any. Proof. done. Qed.
Lemma goroutines_any k ph w : goroutines 2 k ph w → two_workers any w.
Proof. intros [? ? ?]. by exists k. Qed.
#[local] Hint Resolve goroutines_any : core.

Lemma load_stopped_triple k ph R : producer_phase ph → (∀ w, goroutines 2 k ph w → R w) →
  triple (ending k ph) (load o bw_stopped) (λ a w, a = k ∧ ending k ph w) R.
Proof.
  intros Hph HR. apply triple_effect; [auto|]. intros m w [Hw He]. split_and!; [done|by apply HR|].
  intros a [= <-]. by destruct Hw.
Qed.

Lemma collect_workers_triple n k ph :
  producer_phase ph → (n + k ≤ 2)%nat →
  triple (ending k ph) (collect_workers o n) (λ _, two_workers any) (two_workers any).
Proof.
  intros Hph. revert k. induction n as [|n IH]; intros k Hk; cbn.
  - intros w [Hw _]. split_and!; eauto.
  - eapply triple_bind; [apply recv_worker_triple; [done|lia|eauto]|]. intros err.
    eapply triple_bind; [apply triple_safe; [apply safe_blift|intros w [Hw _]; eauto]|];
      [by repeat case_match|].
    intros []. apply IH. lia.
Qed.

(** The cleanups come to their end. *)
Definition always (P : bench → Prop) {A} (m : bio A) (Q : A → bench → Prop) : Prop :=
  ∀ w, P w → ∃ a, (m w).1 = Ok a ∧ Q a (m w).2.
Lemma always_bind {A B} P (m : bio A) (k : A → bio B) Q Q' :
  always P m Q → (∀ a, always (Q a) (k a) Q') → always P (m ≫= k) Q'.
Proof.
  intros Hm Hk w Hw. rewrite bio_bind_eq. destruct (Hm w Hw) as (a & H1 & H2).
  destruct (m w) as [r w1]. cbn in *. subst r. by apply Hk.
Qed.
Lemma always_effect P {A} (act : bmoment → bench → outcome A * bench) Q :
  frame o P → (∀ m w, P w → ∃ a, (act m w).1 = Ok a ∧ Q a (act m w).2) → always P (beffect o act) Q.
Proof. intros HP Ha w Hw. apply Ha. by apply frame_elapse. Qed.
Lemma always_triple P {A} (m : bio A) (Q : bench → Prop) :
  always P m (λ _, Q) → triple P m (λ _, Q) Q.
Proof. intros Hm w Hw. destruct (Hm w Hw) as (a & -> & HQ). by split_and!. Qed.

Lemma triple_bind_always {A B} P (m : bio A) (k : A → bio B) Q Q' R :
  always P m Q → (∀ a, triple (Q a) (k a) Q' R) → triple P (m ≫= k) Q' R.
Proof.
  intros Hm Hk w Hw. rewrite bio_bind_eq. destruct (Hm w Hw) as (a & H1 & H2).
  destruct (m w) as [r w1]. cbn in *. subst r. by apply Hk.
Qed.

Lemma recv_worker_always k ph : producer_phase ph → (k < 2)%nat →
  always (ending k ph) (recv_worker o) (λ _, ending (S k) ph).
Proof.
  intros Hph Hk. apply always_effect; [auto|]. intros m w Hw.
  destruct (recv_worker_next k ph m w Hk Hw) as (r & w' & -> & Hw'). by exists r.
Qed.

Lemma drain_workers_always :
  always (two_workers told) (drain_workers o) (λ _, goroutines 2 2 told).
Proof.
  assert (∀ n, (n ≤ 2)%nat →
    always (ending (2 - n) told) (receive_rest o n) (λ _, goroutines 2 2 told)) as Hrest.
  { intros n. induction n as [|n IH]; intros Hn; cbn [receive_rest].
    - intros w [Hw _]. by exists ().
    - eapply always_bind; [apply recv_worker_always; [apply _|lia]|]. intros err.
      replace (S (2 - S n)) with (2 - n)%nat by lia. apply IH. lia. }
  intros w0 (k & Hk0). revert w0 Hk0.
  enough (always (goroutines 2 k told) (drain_workers o) (λ _, goroutines 2 2 told)) as Hd by exact Hd.
  eapply always_bind.
  { apply (always_effect _ _ (λ _ w, goroutines 2 k told w ∧ bw_released w = true)); [auto|].
    intros m w []. by exists (). }
  intros ?. eapply (always_bind _ _ _ (λ _, ending k told)).
  { apply (always_effect (λ w, goroutines 2 k told w ∧ bw_released w = true)); [by apply released_frame|].
    intros m w [[] Hr]. by exists (). }
  intros ?. eapply (always_bind _ _ _ (λ a w, a = k ∧ ending k told w)).
  { apply always_effect; [auto|]. intros m w [Hw He]. eexists. split; [done|]. by destruct Hw. }
  intros stopped w [-> Hw]. assert (k ≤ 2)%nat as Hk by (destruct Hw as [[] _]; lia).
  apply (Hrest (2 - k)%nat); [lia|]. by replace (2 - (2 - k))%nat with k by lia.
Qed.

(** ** The program *)

Context (md5_uuid : string → string) (stats : statistics).

Lemma await_goroutines k ph timeout label check :
  producer_phase ph → safe (goroutines 2 k ph) check →
  triple (goroutines 2 k ph) (await o timeout label check) (λ _, goroutines 2 k ph) (two_workers any).
Proof. intros Hph Hc. apply triple_safe; [by apply await_safe; auto|eauto]. Qed.

Lemma store_goroutines k (ph ph' : producer → bool → Prop) f :
  producer_phase ph → (∀ w, goroutines 2 k ph w → goroutines 2 k ph' (f w)) →
  triple (goroutines 2 k ph) (store o f) (λ _, goroutines 2 k ph') (two_workers any).
Proof. intros Hph Hf. apply triple_store; eauto. Qed.

Lemma recv_producer_triple :
  triple (goroutines 2 0 stopping) (recv_producer o) (λ _, goroutines 2 0 collected) (two_workers any).
Proof.
  apply triple_effect; [auto|]. intros m w [Hb Hk [[Hn Hc] Hs]].
  assert (goroutines 2 0 collected (set_producer Collected w)) by by split.
  destruct (bw_producer w) as [|s|r|]; [done| |by split_and!; eauto|done].
  rewrite Hs. by split_and!; eauto.
Qed.

Lemma produce_and_measure_triple active targets short :
  triple (goroutines 2 0 not_started) (produce_and_measure o md5_uuid stats active targets short)
    (λ _, two_workers any) (two_workers any).
Proof.
  eapply triple_bind; [apply (store_goroutines 0 _ alive); [apply _|]|intros ?].
  { intros w []. by split. }
  eapply triple_bind; [apply triple_safe; [apply stages_safe, goroutines_history; apply _|eauto]|intros ?].
  eapply triple_bind; [apply (store_goroutines 0 _ stopping); [apply _|]|intros ?].
  { intros w []. by split. }
  eapply triple_bind; [apply recv_producer_triple|intros produced].
  eapply triple_bind; [apply triple_safe; [apply safe_blift; by case_match|eauto]|intros ?].
  set (released := λ w : bench, goroutines 2 0 collected w ∧ bw_released w = true).
  assert (frame o released) as Hrel by (apply released_frame, _).
  assert (∀ w, released w → two_workers any w) as Hany by (intros w [Hw _]; eauto).
  eapply (triple_bind _ _ _ (λ _, released)).
  { apply triple_effect; [auto|]. intros m w []. by split_and!; [|apply Hany|]. }
  intros ?. eapply triple_bind; [apply triple_safe; [by apply await_safe; [|apply all_completed_safe]|done]|intros ?].
  eapply (triple_bind _ _ _ (λ _, ending 0 collected)).
  { apply triple_effect; [done|]. intros m w [[] Hr].
    assert (ending 0 collected (cancelWorkers w)) as He by done.
    split_and!; [done|apply (goroutines_any 0 collected), He|done]. }
  intros ?. eapply triple_bind; [apply load_stopped_triple; [apply _|eauto]|intros stopped].
  intros w [-> Hw]. by apply (collect_workers_triple 2 0 collected).
Qed.

Lemma with_workers_triple active targets short :
  triple (goroutines 2 0 not_started) (with_workers o md5_uuid stats active targets short)
    (λ _, two_workers told) (two_workers told).
Proof.
  eapply triple_bind.
  - apply triple_safe; [apply await_safe; [apply goroutines_frame, _|apply long_claims_active_safe, goroutines_frame, _]|].
    intros w [Hb Hk Hp]. exists 0%nat. split; [done..|]. intros s E. unfold not_started in Hp. congruence.
  - intros ?. eapply triple_bdefer; [apply produce_and_measure_triple|].
    apply (always_triple _ _ (two_workers told)). intros w (k & Hw). revert w Hw.
    enough (always (goroutines 2 k any) (store o stopProducer) (λ _, two_workers told)) as Hd by exact Hd.
    apply always_effect; [auto|]. intros m w [Hb Hk _]. exists (). split; [done|].
    exists k. split; [done..|]. by intros s _.
Qed.

(** Every worker that was started has been collected. *)
Definition settled (w : bench) : Prop := goroutines 0 0 told w ∨ goroutines 2 2 told w.
Lemma early_settled w : goroutines 0 0 not_started w → settled w.
Proof.
  intros [Hb Hk Hp]. left. split; [done..|]. intros s E. unfold not_started in Hp. congruence.
Qed.
#[local] Hint Resolve early_settled : core.

Lemma serve_triple active targets short long :
  triple (goroutines 0 0 not_started) (serve o md5_uuid stats active targets short long)
    (λ _, settled) settled.
Proof.
  eapply triple_bind; [apply triple_safe; [apply safe_blift, Register_process_live; auto|auto]|intros lg].
  eapply triple_bind; [apply triple_safe; [apply (safe_pool o); [auto| |]|auto]|intros ?].
  { intros. apply no_panic_live, insert_probes_no_panic. }
  { by intros e w []. }
  eapply triple_bind; [apply triple_safe; [apply enqueue_long_safe; [auto|]|auto]|intros ?].
  { by intros id e f w []. }
  eapply triple_bind_always; [apply (always_effect _ _ (λ _, goroutines 2 0 not_started)); [auto|]|intros ?].
  { intros m w [Hb Hk Hp]. exists (). split; [done|]. split; cbn; [|done..].
    destruct (bw_workers w); cbn in *; lia. }
  eapply triple_weaken; [eapply triple_bdefer; [apply with_workers_triple|]|done| |].
  - apply always_triple, drain_workers_always.
  - by right.
  - by right.
Qed.

Context (ddl : string → T → outcome T) (Hddl : ∀ s t, no_panic (ddl s t)).
Context (connect : string → error + ()) (server_version gomaxprocs : Z).

Lemma checkFlags_live f : checkFlags f ≠ deadlock.
Proof.
  apply no_panic_live. unfold checkFlags. apply no_panic_bind; [apply guard_no_panic|intros _].
  unfold parseHistory. apply no_panic_bind.
  - generalize (Split 44 (s2b (f_history f))) as parts. intros parts. generalize (@nil Z).
    induction parts as [|part parts IH]; intros ts; cbn; [done|]. repeat case_match; try done; apply IH.
  - intros ts. by apply no_panic_bind; [apply guard_no_panic|].
Qed.

(** C39: however the benchmark ends - with an error of the server or of a run, with a timeout,
    or as it should - it does not wait for ever, both workers have returned and been
    collected if they were started, and the producer has ended or been told to. *)
Theorem run_leaves_nothing_running f w :
  bw_running w = 0%nat → bw_workers w = [] → bw_stopped w = 0%nat → bw_producer w = NotStarted →
  let (r, w') := run ddl o md5_uuid stats connect server_version gomaxprocs f w in
  r ≠ deadlock ∧ bw_running w' = 0%nat ∧ bw_workers w' = [] ∧
  (bw_stopped w' = 0 ∨ bw_stopped w' = 2)%nat ∧
  ∀ short, bw_producer w' = Producing short → bw_producerStop w' = true.
Proof.
  intros Hr Hw Hs Hp.
  assert (triple (goroutines 0 0 not_started)
    (run ddl o md5_uuid stats connect server_version gomaxprocs f) (λ _, settled) settled) as Ht.
  { eapply triple_bind; [apply triple_safe; [apply safe_blift, checkFlags_live|auto]|intros targets].
    eapply triple_bind; [apply triple_safe; [by apply prepare_safe, goroutines_setup|auto]|intros [short long]].
    eapply triple_bdefer; [apply serve_triple|]. apply (always_triple _ _ settled).
    intros w0 [Hw0|Hw0]; revert w0 Hw0.
    - enough (always (goroutines 0 0 told) (store o releaseClaim) (λ _, settled)) as Hd by exact Hd.
      apply always_effect; [auto|]. intros m w0 []. exists (). split; [done|]. by left.
    - enough (always (goroutines 2 2 told) (store o releaseClaim) (λ _, settled)) as Hd by exact Hd.
      apply always_effect; [auto|]. intros m w0 []. exists (). split; [done|]. by right. }
  destruct (Ht w) as (H1 & H2 & _); [split; [by rewrite Hr, Hw, Hs|done..]|].
  destruct (run _ _ _ _ _ _ _ f w) as [r w']. cbn in *. split; [done|].
  destruct H2 as [[Hb Hk Hq]|[Hb Hk Hq]]; (split_and!; [lia| |lia|done]); apply nil_length_inv; lia.
Qed.
End goroutines.
