(* ===== verification/Accounting.v ===== *)
(** * What the growth benchmark has done when it succeeds

    [run_accounts_for_every_run]: if [run] ends without an error, then every run that was
    enqueued has completed, none was lost or counted twice, and the history is there. *)

From S2P Require Import Prelude GoText Json Types Builder Postgres Queries Store Claims.
From S2P Require Import Timing Effects Engine Registry SqlText Migrate Explain Growthbench.
From S2P Require Import Benchmark Seeding Goroutines.

(** ** Counting runs *)

Section counts.
Context `{Postgres}.

Definition named (name : string) (_ : string) (r : Postgres.run) : bool :=
  bool_decide (workflow_name r = name).
(** The runs of a workflow. *)
Definition count_name (name : string) (d : db) : Z := rows_affected (named name) (workflow_runs d).

Lemma rows_affected_dom P (m m' : gmap string Postgres.run) :
  (∀ k, k ∈ dom (affected P m) ↔ k ∈ dom (affected P m')) → rows_affected P m = rows_affected P m'.
Proof. intros Hd. unfold rows_affected. rewrite <-!size_dom. do 2 f_equal. by apply set_eq. Qed.

(** A statement that does not enqueue adds no runs. *)
Lemma exec_no_new {X} (s : stmt X) e d k r' :
  enqueued_id s = None → workflow_runs (exec s e d).2 !! k = Some r' →
  ∃ r, workflow_runs d !! k = Some r ∧ row_change r r'.
Proof.
  intros Hs Hr'. destruct (workflow_runs d !! k) as [r|] eqn:Hr.
  - destruct (exec_row_change s e d k r Hr) as (r1 & Hr1 & Hc). exists r. split; [done|congruence].
  - destruct (exec_new_row_id s e d k Hr) as (i & Hi & _); [by eexists|congruence].
Qed.

Lemma exec_count {X} (s : stmt X) e d name :
  enqueued_id s = None → count_name name (exec s e d).2 = count_name name d.
Proof.
  intros Hs. apply rows_affected_dom. intros k. rewrite !elem_of_dom. split.
  - intros [r' [Hr' Hn]%lookup_affected]. destruct (exec_no_new s e d k r' Hs Hr') as (r & Hr & Hc).
    exists r. apply lookup_affected. split; [done|]. unfold named in *.
    apply row_change_identity in Hc as [E _]. by rewrite <-E.
  - intros [r [Hr Hn]%lookup_affected]. destruct (exec_row_change s e d k r Hr) as (r' & Hr' & Hc).
    exists r'. apply lookup_affected. split; [done|]. unfold named in *.
    apply row_change_identity in Hc as [E _]. by rewrite E.
Qed.

Lemma count_insert name k r d :
  workflow_runs d !! k = None →
  rows_affected (named name) (<[k := r]> (workflow_runs d)) =
    count_name name d + (if bool_decide (workflow_name r = name) then 1 else 0).
Proof.
  intros Hk. unfold count_name, rows_affected, affected, named.
  case_bool_decide as Hn.
  - rewrite map_filter_insert_True by (by apply Is_true_true, bool_decide_eq_true_2).
    rewrite map_size_insert_None; [lia|]. apply map_lookup_filter_None. by left.
  - rewrite map_filter_insert_False by (by rewrite Is_true_true, bool_decide_eq_true).
    rewrite delete_id by done. lia.
Qed.

(** Enqueueing a run without a deduplication key adds it, or changes nothing. *)
Lemma enqueue_count id wname version q ma sched input channel e d r d' name :
  exec (InsertRun id wname version q ma sched input None channel) e d = (r, d') →
  match r with
  | Ok _ => count_name name d' = count_name name d + (if bool_decide (wname = name) then 1 else 0)
  | _ => d' = d
  end.
Proof.
  cbn [exec]. intros Hx. destruct r as [[rid n]| |].
  - apply insertRun_Ok in Hx as [(r & _ & Hf & _)|(v & _ & _ & _ & _ & Hnone & _ & _ & ->)]; [done|].
    unfold count_name at 1. cbn [workflow_runs notify set_runs]. by rewrite count_insert.
  - revert Hx. unfold insertRun. repeat case_match; congruence.
  - revert Hx. unfold insertRun. repeat case_match; congruence.
Qed.

Lemma call_Run_count engine name id e f d r d' :
  registry_wf (workflows engine) → call_Run engine name id e f d = (r, d') →
  match r with
  | Ok _ => ∀ n, count_name n d' = count_name n d + (if bool_decide (name = n) then 1 else 0)
  | _ => ∀ n, n ≠ name → count_name n d' = count_name n d
  end.
Proof.
  intros Hreg Hc. apply call_Run_cases in Hc as [[-> Hr]|(wf & ma & q & rn & d1 & Hwf & Hx & Hr)].
  { destruct r; [by destruct (Hr a)|done..]. }
  assert (cw_name wf = name) as Hn.
  { destruct (latest_spec engine name Hreg wf Hwf) as [Hl _]. by destruct (Hreg _ _ Hl) as [[= ->] _]. }
  pose proof (λ n, enqueue_count _ _ _ _ _ _ _ _ _ _ _ _ n Hx) as Hcount. rewrite Hn in Hcount.
  destruct r as [rid|er|m l]; [destruct Hr as [-> [n ->]]; exact Hcount|..];
    (intros n Hne; destruct Hr as [-> | ->]; [done|]; specialize (Hcount n);
     rewrite bool_decide_eq_false_2 in Hcount by done; destruct rn; [lia|congruence..]).
Qed.

Lemma insert_rows_count rows d name :
  Forall (λ kr, workflow_name kr.2 ≠ name) rows →
  count_name name (insert_rows rows d).2 = count_name name d.
Proof.
  intros Hn. unfold insert_rows. case_decide as Hi; [|done]. destruct Hi as (_ & Habs & _).
  rewrite Forall_forall in Hn, Habs. apply rows_affected_dom. intros k. cbn. rewrite !elem_of_dom.
  assert (∀ r, (list_to_map rows : gmap string Postgres.run) !! k = Some r → workflow_name r ≠ name ∧
    workflow_runs d !! k = None) as Hrow.
  { intros r Hr%elem_of_list_to_map_2. split; [by apply (Hn _ Hr)|by apply (Habs _ Hr)]. }
  split; intros [r [Hr Hnm]%lookup_affected]; exists r; apply lookup_affected; (split; [|done]).
  - apply lookup_union_Some_raw in Hr as [Hr|[_ Hr]]; [|done].
    apply Hrow in Hr as [Hne _]. unfold named in Hnm. by bool_to_prop.
  - apply lookup_union_Some_raw. right. split; [|done].
    destruct (list_to_map rows !! k) as [r0|] eqn:E; [|done]. destruct (Hrow r0 eq_refl) as [_ E']. congruence.
Qed.

Lemma insert_history_count md5 first last e d name :
  name ≠ "history" → count_name name (insert_history md5 first last e d).2 = count_name name d.
Proof.
  intros Hn. unfold insert_history. destruct (bind_range first last) as [[a b]| |]; [|done..].
  apply insert_rows_count, Forall_forall. intros kr (g & -> & _)%list_elem_of_fmap. by cbn.
Qed.
Lemma insert_checkpoints_runs md5 first last e d :
  workflow_runs (insert_history_checkpoints md5 first last e d).2 = workflow_runs d.
Proof.
  unfold insert_history_checkpoints. destruct (bind_range first last) as [[a b]| |]; [|done..].
  by repeat case_match.
Qed.
Lemma insert_probes_count md5 e d name :
  name ≠ "probe" → count_name name (insert_probes md5 e d).2 = count_name name d.
Proof.
  intros Hn. apply insert_rows_count, Forall_forall. intros kr (g & -> & _)%list_elem_of_fmap. by cbn.
Qed.

(** All runs of a workflow are completed if as many are as there are. *)
Lemma all_of_name_completed name d :
  count_runs name RunCompleted d = count_name name d →
  ∀ id r, workflow_runs d !! id = Some r → workflow_name r = name → state r = RunCompleted.
Proof.
  intros Hc id r Hr Hn. unfold count_runs, count_name, rows_affected in Hc. rewrite <-!size_dom in Hc.
  set (A := dom _) in Hc. set (B := dom _) in Hc.
  assert (A ⊆ B) as Hsub.
  { intros k [r0 [Hr0 Hp]%lookup_affected]%elem_of_dom. apply elem_of_dom. exists r0.
    apply lookup_affected. split; [done|]. by apply andb_prop in Hp as [? _]. }
  assert (id ∈ A) as [r0 [Hr0 Hp]%lookup_affected]%elem_of_dom.
  { rewrite (set_subseteq_size_eq A B) by (done || lia). apply elem_of_dom. exists r.
    apply lookup_affected. split; [done|]. unfold named. by rewrite bool_decide_eq_true_2. }
  bool_to_prop. congruence.
Qed.
End counts.

(** ** The books of the benchmark *)

Section books.
Context `{Postgres} {T : Type} (o : nat → bmoment) (md5_uuid : string → string).
#[local] Abbreviation bench := (bench T).

(** The workers execute any statements except enqueues. *)
Definition serving (h : happening) : Prop :=
  match h with Served (Other _ s _) => enqueued_id s = None | _ => True end.
Context (Hserving : ∀ n, Forall serving (bm_others (o n))).

Lemma serving_frame (P : bench → Prop) :
  (∀ w h, serving h → P w → P (happen w h)) → (∀ w, P w → P (next_step w)) →
  (∀ t w, P w → P (set_trace t w)) → (∀ x w, P w → P (print_obs x w)) → frame o P.
Proof.
  intros Hh Hn Ht Hp. split; [|done..]. intros n w h Hin. apply Hh.
  specialize (Hserving n). rewrite Forall_forall in Hserving. auto.
Qed.

Lemma frame_tables (P : db → Prop) :
  (∀ d d', rtc db_step d d' → P d → P d') → frame o (λ w : bench, P (bw_tables w)).
Proof. intros HP. split; [|done..]. intros n w h _. apply HP, happen_step. Qed.

(** The runs of "long" are those which [run] has enqueued; the runs of "short" are counted
    by the producer, unless it has failed. *)
Record accounted (long : Z) (w : bench) : Prop := {
  ac_long : count_name "long" (bw_tables w) = long;
  ac_short : match bw_producer w with
             | Produced (Some _) => True
             | _ => count_name "short" (bw_tables w) = bw_enqueued w
             end;
  ac_registered : ∀ short, bw_producer w = Producing short → registry_wf (workflows short);
}.

Lemma accounted_tables long d w :
  accounted long w → (∀ n, n = "short" ∨ n = "long" → count_name n d = count_name n (bw_tables w)) →
  accounted long (set_tables d w).
Proof.
  intros [Hl Hs Hr] Hd. split; cbn; [rewrite Hd; auto| |done].
  repeat case_match; try done; rewrite Hd; auto.
Qed.

Lemma produce_accounted long short id e f w :
  bw_producer w = Producing short → accounted long w → accounted long (produce short id e f w).
Proof.
  intros E [Hl Hs Hr]. specialize (Hr short E). rewrite E in Hs. unfold produce.
  destruct (call_Run short "short" id e f (bw_tables w)) as [r d] eqn:Hc.
  pose proof (call_Run_count short "short" id e f _ _ _ Hr Hc) as Hn.
  destruct r as [rid|er|m l].
  - split; cbn; rewrite ?E; [by rewrite Hn, Z.add_0_r|by rewrite Hn, Hs|naive_solver].
  - split; cbn; [by rewrite Hn|done|done].
  - by split; rewrite ?E; [|done|naive_solver].
Qed.

Lemma accounted_frame long : frame o (accounted long).
Proof.
  apply serving_frame; [|by intros w []|by intros t w []|by intros x w []].
  intros w h Hh Hw. destruct h as [[X s e]| |id e f| |r|st at_ fl rows]; cbn.
  - apply accounted_tables; [done|]. intros n _. by apply exec_count.
  - by destruct Hw.
  - destruct (bw_producer w) eqn:E; [done| |done..]. by apply produce_accounted.
  - destruct (bw_producer w) eqn:E; try done. case_match; [|done]. destruct Hw as [Hl Hs _].
    rewrite E in Hs. by split.
  - destruct (bw_running w); [done|]. by destruct Hw.
  - by destruct Hw.
Qed.

Lemma accounted_history long : history_frame o md5_uuid (accounted long).
Proof.
  split; [apply accounted_frame|..]; intros first last e w Hw; apply accounted_tables; try done.
  - intros n [-> | ->]; by apply insert_history_count.
  - intros n _. unfold count_name. by rewrite insert_checkpoints_runs.
Qed.
Lemma accounted_setup long : setup_frame o (accounted long).
Proof. split; [apply accounted_frame|]. by intros c w []. Qed.

(** [run] enqueues [n] runs of "long". *)
Lemma enqueue_long_accounted n engine long (w w' : bench) :
  registry_wf (workflows engine) → accounted long w → enqueue_long o n engine w = (Ok (), w') →
  accounted (long + Z.of_nat n) w'.
Proof.
  intros Hreg. revert long w. induction n as [|n IH]; intros long w Hw.
  { intros [= <-]. by rewrite Z.add_0_r. }
  cbn [enqueue_long]. intros (rid & w1 & H1 & H2)%bio_bind_Ok.
  replace (long + Z.of_nat (S n)) with (long + 1 + Z.of_nat n) by lia. eapply IH; [|exact H2].
  unfold beffect in H1. assert (accounted long (elapse o w)) as [Hl Hs Hr]
    by by apply frame_elapse; [apply accounted_frame|].
  set (w2 := elapse o w) in *. set (m := o (bw_step w)) in *. clearbody w2 m.
  destruct (call_Run engine "long" (bm_uuid m) (bm_env m) (bm_fault m) (bw_tables w2)) as [r d] eqn:Hc.
  injection H1 as -> <-. pose proof (call_Run_count _ _ _ _ _ _ _ _ Hreg Hc) as Hn. cbn in Hn.
  split; cbn; [by rewrite Hn, Hl| |done]. repeat case_match; try done; by rewrite Hn, Z.add_0_r.
Qed.

(** ** The end *)

(** The producer has been collected, and every run has completed. *)
Record complete (long enqueued : Z) (w : bench) : Prop := {
  cp_producer : bw_producer w = Collected;
  cp_enqueued : bw_enqueued w = enqueued;
  cp_short : count_name "short" (bw_tables w) = enqueued;
  cp_long : count_name "long" (bw_tables w) = long;
  cp_done : ∀ id r, workflow_runs (bw_tables w) !! id = Some r →
    workflow_name r = "short" ∨ workflow_name r = "long" → state r = RunCompleted;
}.

Lemma complete_frame long enqueued : frame o (complete long enqueued).
Proof.
  apply serving_frame; [|by intros w []|by intros t w []|by intros x w []].
  intros w h Hh [Hp He Hs Hl Hd]. destruct h as [[X s e]| |id e f| |r|st at_ fl rows]; cbn; rewrite ?Hp;
    try by split.
  - split; cbn; [done|done|by rewrite exec_count..|].
    intros id r' Hr' Hn. destruct (exec_no_new s e _ id r' Hh Hr') as (r & Hr & Hc).
    pose proof (row_change_identity _ _ Hc) as [En _]. rewrite En in Hn.
    specialize (Hd id r Hr Hn). rewrite (row_change_terminal _ _ Hc); [done|by rewrite Hd].
  - by destruct (bw_running w).
Qed.

Definition awaiting (long : Z) (w : bench) : Prop := accounted long w ∧ bw_producer w = Collected.
Lemma collected_frame e : frame o (λ w : bench, bw_producer w = Collected ∧ bw_enqueued w = e).
Proof.
  split; [|done..]. intros n w h _ [Hp He]. destruct h; cbn; rewrite ?Hp; try done.
  by destruct (bw_running w).
Qed.
Lemma awaiting_frame long : frame o (awaiting long).
Proof.
  apply frame_and; [apply accounted_frame|].
  split; [|done..]. intros n w h _ Hp. destruct h; cbn; rewrite ?Hp; try done.
  by destruct (bw_running w).
Qed.

(** The last condition of [run] is conclusive. *)
Lemma all_completed_complete long (w w' : bench) :
  awaiting long w → all_completed o long w = (Ok true, w') → complete long (bw_enqueued w') w'.
Proof.
  intros Hw (x & w1 & H1 & H2)%bio_bind_Ok.
  unfold server, pool, call, beffect in H1.
  assert (awaiting long (elapse o w)) as [[Hl Hs _] Hp] by by apply frame_elapse; [apply awaiting_frame|].
  set (w0 := elapse o w) in *. clearbody w0. rewrite Hp in Hs.
  assert (x = (count_runs "short" RunCompleted (bw_tables w0), count_runs "long" RunCompleted (bw_tables w0),
    count_runs "short" RunFailed (bw_tables w0) + count_runs "long" RunFailed (bw_tables w0)) ∧ w1 = w0)
    as [-> ->].
  { destruct (bm_fault _); [|done..]. cbn [answered] in H1.
    injection H1 as <- <-. split; [done|apply set_tables_same]. }
  clear H1. apply bio_bind_Ok in H2 as ([] & w2 & [_ ->]%blift_Ok & H2).
  assert (bw_producer (elapse o w0) = Collected ∧ bw_enqueued (elapse o w0) = bw_enqueued w0) as [_ He].
  { by apply (frame_elapse o (λ w, bw_producer w = Collected ∧ bw_enqueued w = bw_enqueued w0));
      [apply collected_frame|]. }
  assert (complete long (bw_enqueued w0) w0 → complete long (bw_enqueued w0) (elapse o w0)) as Hstay
    by by apply frame_elapse, complete_frame.
  apply bio_bind_Ok in H2 as (e & w3 & H2 & H3). unfold load, beffect in H2.
  set (w4 := elapse o w0) in *. clearbody w4. injection H2 as <- <-. injection H3 as Hc <-.
  apply andb_prop in Hc as [Hc1%Z.eqb_eq Hc2%Z.eqb_eq]. rewrite He in *.
  apply Hstay. split; [done..|].
  intros id r Hr [Hn|Hn]; (eapply all_of_name_completed; [|exact Hr|exact Hn]); congruence.
Qed.

(** [await] ends well only when the condition has held. *)
Lemma await_Ok P timeout label (check : bio bool) (w w' : bench) :
  frame o P → safe P check → P w → await o timeout label check w = (Ok (), w') →
  ∃ w0, P w0 ∧ check w0 = (Ok true, w').
Proof.
  intros HP Hc. unfold await. generalize (Z.to_nat (timeout / (50 * Millisecond))) as ticks.
  intros ticks. revert w. induction ticks as [|ticks IH]; intros w Hw; cbn [await_ticks];
    intros (ok & w1 & H1 & H2)%bio_bind_Ok; pose proof (proj1 (Hc w Hw)) as Hw1; rewrite H1 in Hw1; cbn in Hw1;
    (destruct ok; [injection H2 as <-; by exists w|]); [done|].
  apply bio_bind_Ok in H2 as (expired & w2 & H2 & H3). destruct expired; [done|].
  apply (IH w2); [|done]. unfold beffect in H2. injection H2 as _ <-. by apply frame_elapse.
Qed.

(** ** Collecting the goroutines changes no books *)

Definition keeps (P : bench → Prop) {A} (m : bio A) : Prop := ∀ w, P w → P (m w).2.
Lemma keeps_bind P {A B} (m : bio A) (k : A → bio B) :
  keeps P m → (∀ a, keeps P (k a)) → keeps P (m ≫= k).
Proof.
  intros Hm Hk w Hw. rewrite bio_bind_eq. specialize (Hm w Hw).
  destruct (m w) as [[a|e|msg l] w1]; [by apply Hk|done..].
Qed.
Lemma keeps_blift P {A} (x : outcome A) : keeps P (blift x).
Proof. by intros w Hw. Qed.
Lemma keeps_effect P {A} (act : bmoment → bench → outcome A * bench) :
  frame o P → (∀ m w, P w → P (act m w).2) → keeps P (beffect o act).
Proof. intros HP Ha w Hw. apply Ha. by apply frame_elapse. Qed.

Record end_frame (P : bench → Prop) : Prop := {
  ef_frame : frame o P;
  ef_workers a b c w : P w → P (set_workers a b c w);
  ef_signals a b c w : P w → P (set_signals a b c w);
}.

Lemma recv_worker_keeps P : end_frame P → keeps P (recv_worker o).
Proof.
  intros [HP Hw _]. apply keeps_effect; [done|]. intros m w. repeat case_match; cbn; auto.
Qed.
Lemma collect_workers_keeps P n : end_frame P → keeps P (collect_workers o n).
Proof.
  intros HP. induction n as [|n IH]; [by intros w Hw|]. apply keeps_bind; [by apply recv_worker_keeps|intros err].
  apply keeps_bind; [apply keeps_blift|intros _; apply IH].
Qed.
Lemma drain_workers_keeps P : end_frame P → keeps P (drain_workers o).
Proof.
  intros HP. pose proof HP as [Hf _ Hs].
  apply keeps_bind; [by apply keeps_effect; [|intros; apply Hs]|intros _].
  apply keeps_bind; [by apply keeps_effect; [|intros; apply Hs]|intros _].
  apply keeps_bind; [by apply keeps_effect|intros stopped].
  generalize (2 - stopped)%nat as n. intros n. induction n as [|n IH]; [by intros w Hw|].
  apply keeps_bind; [by apply recv_worker_keeps|intros _; apply IH].
Qed.

(** What holds at the end. *)
Definition final (long enqueued hi : Z) (w : bench) : Prop :=
  complete long enqueued w ∧ seeded_range md5_uuid (bw_tables w) 1 hi.
Lemma seeded_frame hi : frame o (λ w : bench, seeded_range md5_uuid (bw_tables w) 1 hi).
Proof.
  apply (frame_tables (λ d, seeded_range md5_uuid d 1 hi)).
  intros d d' Hd. by apply seeded_range_steps.
Qed.
Lemma final_end_frame long enqueued hi : end_frame (final long enqueued hi).
Proof.
  split; [apply frame_and; [apply complete_frame|apply seeded_frame]|..];
    by intros ? ? ? w [[] ?].
Qed.

(** ** From the workers' start to the end *)

Context (stats : statistics).

(** Receiving the producer's good result closes its count. *)
Lemma recv_producer_Ok long hi w w' :
  accounted long w ∧ seeded_range md5_uuid (bw_tables w) 1 hi →
  recv_producer o w = (Ok None, w') →
  awaiting long w' ∧ seeded_range md5_uuid (bw_tables w') 1 hi.
Proof.
  intros Hw Hx. unfold recv_producer, beffect in Hx.
  assert (accounted long (elapse o w) ∧ seeded_range md5_uuid (bw_tables (elapse o w)) 1 hi) as [[Hl Hs Hr] Hd].
  { apply (frame_elapse o (λ w, accounted long w ∧ seeded_range md5_uuid (bw_tables w) 1 hi)); [|done].
    apply frame_and; [apply accounted_frame|apply seeded_frame]. }
  set (w0 := elapse o w) in *. clearbody w0.
  destruct (bw_producer w0) as [|short|[er|]|] eqn:E; try done; [destruct (bw_producerStop w0); [|done]|];
    injection Hx as <-; (split; [|done]); by split; [split|].
Qed.

(** The final wait, and what comes after it. *)
Lemma await_all_completed_Ok long hi (w w' : bench) :
  awaiting long w ∧ seeded_range md5_uuid (bw_tables w) 1 hi →
  await o (45 * Second) "all workflows completed" (all_completed o long) w = (Ok (), w') →
  ∃ enqueued, final long enqueued hi w'.
Proof.
  intros Hw Hx. set (P := λ w : bench, awaiting long w ∧ seeded_range md5_uuid (bw_tables w) 1 hi).
  assert (frame o P) as HP by (apply frame_and; [apply awaiting_frame|apply seeded_frame]).
  destruct (await_Ok P _ _ _ w w' HP (all_completed_safe o P long HP) Hw Hx) as (w0 & Hw0 & Hc).
  exists (bw_enqueued w'). split; [by eapply all_completed_complete; [apply Hw0|]|].
  pose proof (all_completed_safe o _ long (seeded_frame hi) w0 (proj2 Hw0)) as [Hd _]. by rewrite Hc in Hd.
Qed.

Lemma store_signals_keeps P f :
  end_frame P → (∀ w, ∃ a b c, f w = set_signals a b c w) → keeps P (store o f).
Proof.
  intros [HP _ Hs] Hf. apply keeps_effect; [done|]. intros m w Hw. cbn.
  destruct (Hf w) as (a & b & c & ->). by apply Hs.
Qed.

Definition books_open (long : Z) (w : bench) : Prop := accounted long w ∧ bw_producer w = NotStarted.
Lemma not_started_frame : frame o (λ w : bench, bw_producer w = NotStarted).
Proof.
  split; [|done..]. intros n w h _ Hp. destruct h; cbn; rewrite ?Hp; try done. by destruct (bw_running w).
Qed.
Lemma books_open_end_frame long : end_frame (books_open long).
Proof.
  split; [|by intros ? ? ? w [[] ?]..]. apply frame_and; [apply accounted_frame|apply not_started_frame].
Qed.

Lemma start_producer_Ok long short (w w' : bench) :
  registry_wf (workflows short) → books_open long w →
  store o (set_producer (Producing short)) w = (Ok (), w') → accounted long w'.
Proof.
  intros Hreg Hw Hx. unfold store, beffect in Hx.
  assert (books_open long (elapse o w)) as [[Hl Hs _] Hn]
    by by apply frame_elapse; [apply books_open_end_frame|].
  set (w0 := elapse o w) in *. clearbody w0. injection Hx as <-. rewrite Hn in Hs.
  split; cbn; [done..|]. by intros s [= <-].
Qed.

Lemma produce_and_measure_Ok active targets short (w w' : bench) :
  registry_wf (workflows short) → books_open active w →
  Forall in_int64 targets → StronglySorted Z.lt targets → Forall (Z.le 0) targets →
  produce_and_measure o md5_uuid stats active targets short w = (Ok (), w') →
  ∃ enqueued, final active enqueued (default 0 (last targets)) w'.
Proof.
  intros Hreg Hw Hint Hs Hge. unfold produce_and_measure.
  intros ([] & w1 & H1 & ([] & w2 & H2 & ([] & w3 & H3 & (r & w4 & H4 & Hrest)%bio_bind_Ok)%bio_bind_Ok)%bio_bind_Ok
    )%bio_bind_Ok.
  assert (accounted active w1) as Hw1 by by eapply start_producer_Ok.
  assert (accounted active w2) as Hw2.
  { pose proof (stages_safe o md5_uuid stats _ active targets 0 0 (accounted_history active) w1 Hw1) as [Hx _].
    by rewrite H2 in Hx. }
  apply stages_Ok in H2; [|done|lia|by vm_compute|done|done|split; intros; lia].
  set (hi := default 0 (last targets)) in *.
  assert (end_frame (λ w : bench, accounted active w ∧ seeded_range md5_uuid (bw_tables w) 1 hi)) as HP.
  { split; [apply frame_and; [apply accounted_frame|apply seeded_frame]|..]; by intros ? ? ? w0 [[] ?]. }
  assert (accounted active w3 ∧ seeded_range md5_uuid (bw_tables w3) 1 hi) as Hw3.
  { pose proof (store_signals_keeps _ stopProducer HP ltac:(by do 3 eexists) w2 (conj Hw2 H2)) as Hx.
    by rewrite H3 in Hx. }
  apply bio_bind_Ok in Hrest as ([] & w5 & [Hr ->]%blift_Ok & Hrest). destruct r as [er|]; [done|].
  destruct (recv_producer_Ok active hi w3 w4 Hw3 H4) as [Hw4 Hd4].
  apply bio_bind_Ok in Hrest as ([] & w6 & H6 & ([] & w7 & H7 & Hend)%bio_bind_Ok).
  assert (awaiting active w6 ∧ seeded_range md5_uuid (bw_tables w6) 1 hi) as Hw6.
  { assert (end_frame (λ w : bench, awaiting active w ∧ seeded_range md5_uuid (bw_tables w) 1 hi)) as HP'.
    { split; [apply frame_and; [apply awaiting_frame|apply seeded_frame]|..]; by intros ? ? ? w0 [[[] ?] ?]. }
    pose proof (store_signals_keeps _ releaseClaim HP' ltac:(by do 3 eexists) w4 (conj Hw4 Hd4)) as Hx.
    by rewrite H6 in Hx. }
  destruct (await_all_completed_Ok active hi w6 w7 Hw6 H7) as (enqueued & Hf). exists enqueued.
  assert (keeps (final active enqueued hi) (_ ← store o cancelWorkers; stopped ← load o bw_stopped;
    collect_workers o (2 - stopped))) as Hk.
  { apply keeps_bind; [apply store_signals_keeps; [apply final_end_frame|by do 3 eexists]|intros ?].
    apply keeps_bind; [by apply keeps_effect; [apply final_end_frame|]|intros n].
    apply collect_workers_keeps, final_end_frame. }
  specialize (Hk w7 Hf). by rewrite Hend in Hk.
Qed.

Lemma with_workers_Ok active targets short (w w' : bench) :
  registry_wf (workflows short) → books_open active w →
  Forall in_int64 targets → StronglySorted Z.lt targets → Forall (Z.le 0) targets →
  with_workers o md5_uuid stats active targets short w = (Ok (), w') →
  ∃ enqueued, final active enqueued (default 0 (last targets)) w'.
Proof.
  intros Hreg Hw Hint Hs Hge. unfold with_workers.
  intros ([] & w1 & H1 & (w2 & c & H2 & H3)%bdefer_Ok)%bio_bind_Ok.
  pose proof (ef_frame _ (books_open_end_frame active)) as HP.
  assert (books_open active w1) as Hw1.
  { pose proof (await_safe o _ (30 * Second) "active long claims" _ HP
      (long_claims_active_safe o _ active HP) w Hw) as [Hx _]. by rewrite H1 in Hx. }
  destruct (produce_and_measure_Ok active targets short w1 w2 Hreg Hw1 Hint Hs Hge H2) as (enqueued & Hf).
  exists enqueued.
  pose proof (store_signals_keeps _ stopProducer (final_end_frame active enqueued _)
    ltac:(by do 3 eexists) w2 Hf) as Hx. by rewrite H3 in Hx.
Qed.

Lemma Register_process_wf e name fn e' :
  registry_wf (workflows e) → RegisterWorkflow e name (process fn) = Ok e' → registry_wf (workflows e').
Proof. intros Hreg Hr. by apply (Register_adds e _ e' Hreg) in Hr as [? _]. Qed.

Lemma serve_Ok active targets short long (w w' : bench) :
  registry_wf (workflows short) → registry_wf (workflows long) → books_open 0 w → 0 <= active →
  Forall in_int64 targets → StronglySorted Z.lt targets → Forall (Z.le 0) targets →
  serve o md5_uuid stats active targets short long w = (Ok (), w') →
  ∃ enqueued, final active enqueued (default 0 (last targets)) w'.
Proof.
  intros Hreg Hregl Hw Hact Hint Hs Hge. unfold serve.
  intros (long' & w0 & [Hl ->]%blift_Ok & (n & w1 & H1 & ([] & w2 & H2 & ([] & w3 & H3 & H4)%bio_bind_Ok)%bio_bind_Ok
    )%bio_bind_Ok)%bio_bind_Ok.
  apply bdefer_Ok in H4 as (w4 & c & H4 & H5).
  assert (books_open 0 w1) as Hw1.
  { assert (safe (books_open 0) (pool (T := T) o (insert_probes md5_uuid))) as Hsafe.
    { apply safe_pool; [apply books_open_end_frame|intros; apply no_panic_live, insert_probes_no_panic|].
      intros e w0 [Ha Hn]. split; [|done]. apply accounted_tables; [done|].
      intros nm [-> | ->]; by apply insert_probes_count. }
    pose proof (proj1 (Hsafe w Hw)) as Hx. by rewrite H1 in Hx. }
  assert (books_open active w2) as Hw2.
  { split.
    - rewrite <-(Z2Nat.id active) by done. rewrite <-(Z.add_0_l (Z.of_nat _)).
      eapply enqueue_long_accounted; [by eapply Register_process_wf|apply Hw1|exact H2].
    - pose proof (enqueue_long_safe o _ (Z.to_nat active) long' not_started_frame ltac:(done) w1
        (proj2 Hw1)) as [Hx _]. by rewrite H2 in Hx. }
  pose proof (books_open_end_frame active) as HP.
  assert (books_open active w3) as Hw3.
  { assert (keeps (books_open active)
      (store (T := T) o (λ w, set_workers 2 (bw_workers w) (bw_stopped w) w))) as Hk.
    { apply keeps_effect; [apply HP|]. intros m w0. apply (ef_workers _ HP). }
    specialize (Hk w2 Hw2). by rewrite H3 in Hk. }
  destruct (with_workers_Ok active targets short w3 w4 Hreg Hw3 Hint Hs Hge H4) as (enqueued & Hf).
  exists enqueued. pose proof (drain_workers_keeps _ (final_end_frame active enqueued _) w4 Hf) as Hx.
  by rewrite H5 in Hx.
Qed.

(** ** The set-up *)

Context (ddl : string → T → outcome T) (connect : string → error + ()) (server_version gomaxprocs : Z).

Lemma elapse_catalog (w : bench) : bw_catalog (elapse o w) = bw_catalog w.
Proof.
  unfold elapse. cbn. generalize (bm_others (o (bw_step w))) as hs. intros hs.
  induction hs as [|h hs IH] in w |- *; [done|]. cbn. rewrite IH. destruct h; cbn; try done.
  - destruct (bw_producer w); try done. unfold produce. by destruct (call_Run _ _ _ _ _ _) as [[]].
  - by destruct (bw_producer w), (bw_producerStop w).
  - by destruct (bw_running w).
Qed.
Lemma call_Ok {A} (act : env → bench → outcome A * bench) w a w' :
  call o act w = (Ok a, w') → ∃ e, act e (elapse o w) = (Ok a, w').
Proof. unfold call, beffect. destruct (bm_fault _); [|done|by destruct (act _ _)]. eauto. Qed.

(** What the checks have established. *)
Lemma prepare_Ok f short long (w w' : bench) :
  prepare ddl o connect server_version gomaxprocs f w = (Ok (short, long), w') →
  180000 <= server_version ∧ cat_schema (bw_catalog w) = false ∧
  registry_wf (workflows short) ∧ workflows long = ∅.
Proof.
  unfold prepare.
  intros (u & w1 & [_ ->]%blift_Ok & (u1 & w2 & H1 & (v & w3 & H2 & (u2 & w4 & [Hv ->]%blift_Ok & Hrest)%bio_bind_Ok
    )%bio_bind_Ok)%bio_bind_Ok)%bio_bind_Ok.
  apply call_Ok in H1 as [_ [_ <-]%pair_eq], H2 as [_ [[= <-] <-]%pair_eq].
  apply guard_err_Ok in Hv.
  apply bio_bind_Ok in Hrest as (existing & w5 & H3 & (u3 & w6 & [Hex ->]%blift_Ok & Hrest)%bio_bind_Ok).
  apply call_Ok in H3 as [_ [H3 <-]%pair_eq]. rewrite !elapse_catalog in H3. injection H3 as <-.
  apply guard_err_Ok in Hex.
  apply bio_bind_Ok in Hrest as (sh & w7 & H4 & (lg & w8 & H5 & Hrest)%bio_bind_Ok).
  unfold new_engine, beffect in H4, H5. apply pair_eq in H4 as [H4 _], H5 as [H5 _].
  apply New_returns_usable_engine in H4 as (_ & Hsh & _), H5 as (_ & Hlg & _).
  apply bio_bind_Ok in Hrest as (u4 & w9 & _ & (u5 & w10 & _ & (u6 & w11 & _ & Hrest)%bio_bind_Ok)%bio_bind_Ok).
  apply bio_bind_Ok in Hrest as (sh' & w12 & [Hreg _]%blift_Ok & [= <- <- _]).
  split_and!; [by bool_to_prop; lia|by destruct (cat_schema (bw_catalog w))| |done].
  eapply Register_process_wf; [|exact Hreg]. rewrite Hsh. apply registry_wf_empty.
Qed.

(** Before [run]: no goroutines, and no tables unless there is a schema. *)
Record fresh (w : bench) : Prop := {
  fs_producer : bw_producer w = NotStarted;
  fs_enqueued : bw_enqueued w = 0;
  fs_tables : cat_schema (bw_catalog w) = false → bw_tables w = empty_db;
}.
End books.

Lemma checkFlags_Ok f targets :
  checkFlags f = Ok targets → 1 <= f_active f <= 1000 ∧ parseHistory (f_history f) = Ok targets.
Proof.
  unfold checkFlags. intros ([] & Hg%guard_err_Ok & Hp)%outcome_bind_Ok. split; [|done].
  repeat (apply orb_false_iff in Hg as [Hg ?]). bool_to_prop. lia.
Qed.

(** C38: if the benchmark ends without an error - beside engines that serve its queues, and
    whatever the server failed to answer - then its books balance: the server was recent
    and the schema new; exactly the runs of "short" that the producer counted and the
    [active] ones of "long" are there, and every one of them has completed; and the
    history of the last milestone is complete. *)
Theorem run_accounts_for_every_run `{Postgres} {T} (ddl : string → T → outcome T) o md5_uuid stats
    connect server_version gomaxprocs f (w w' : bench T) :
  (∀ s t, no_panic (ddl s t)) → (∀ n, Forall serving (bm_others (o n))) → fresh w →
  run ddl o md5_uuid stats connect server_version gomaxprocs f w = (Ok (), w') →
  180000 <= server_version ∧ cat_schema (bw_catalog w) = false ∧
  count_name "short" (bw_tables w') = bw_enqueued w' ∧
  count_name "long" (bw_tables w') = f_active f ∧
  (∀ id r, workflow_runs (bw_tables w') !! id = Some r →
     workflow_name r = "short" ∨ workflow_name r = "long" → state r = RunCompleted) ∧
  ∃ targets, parseHistory (f_history f) = Ok targets ∧
    seeded_range md5_uuid (bw_tables w') 1 (default 0 (last targets)).
Proof.
  intros Hddl Hserving [Hp He Ht]. unfold run.
  intros (targets & w0 & [Hfl ->]%blift_Ok & ([short long] & w1 & H1 & H2)%bio_bind_Ok)%bio_bind_Ok.
  destruct (prepare_Ok o ddl connect server_version gomaxprocs f short long w w1 H1)
    as (Hv & Hcat & Hshort & Hlong).
  apply bdefer_Ok in H2 as (w2 & c & H2 & H3). apply checkFlags_Ok in Hfl as [Hact Hparse].
  assert (books_open 0 w1) as Hw1.
  { assert (setup_frame (T := T) o (books_open 0)) as HP
      by (split; [by apply books_open_end_frame|by intros ? ? [[] ?]]).
    assert (books_open 0 w) as Hw.
    { split; [|done]. specialize (Ht Hcat). split; rewrite ?Ht, ?Hp, ?He; done. }
    pose proof (prepare_safe ddl o Hddl connect server_version gomaxprocs _ f HP w Hw) as [Hx _].
    by rewrite H1 in Hx. }
  apply parseHistory_targets in Hparse as Hts. destruct Hts as (Hint & Hs & Hge).
  destruct (serve_Ok o md5_uuid Hserving stats (f_active f) targets short long w1 w2)
    as (enqueued & Hf); [done|by rewrite Hlong; apply registry_wf_empty|done|lia|done..|].
  pose proof (store_signals_keeps o _ releaseClaim (final_end_frame o md5_uuid Hserving (f_active f) enqueued _)
    ltac:(by do 3 eexists) w2 Hf) as Hx. rewrite H3 in Hx. cbn [snd] in Hx.
  destruct Hx as [[Hpr Hen Hsh Hlg Hdone] Hd].
  split_and!; [done..|by rewrite Hsh, Hen|done|done|]. by exists targets.
Qed.
