(* ===== verification/Limits.v ===== *)
(** * Where the checks of the package end

    Inputs that the package accepts and the server then refuses, or grants nothing
    for: names and versions that no statement can carry, leases of no length, and
    identifiers that are not UUIDs. *)

From S2P Require Import Prelude GoText Json Types Builder Postgres Queries Store Statements.
From S2P Require Import Claims Timing Leases Effects Engine Worker Replay Loading Client.
From S2P Require Import Delivery Deadlines.

(** What the columns [workflow_name text] and [workflow_version integer] can hold. *)
Definition carried (name : string) (version : Z) : bool :=
  storable (s2b name) && (-(2^31) <=? version) && (version <? 2^31).

Section limits.
Context `{Postgres} (o : nat → moment) (eng : Engine).

Lemma bound_carried names versions ns vs n v :
  mapM bind_text names = Ok ns → mapM bind_int4 versions = Ok vs →
  (n, v) ∈ zip names versions → carried n v = true.
Proof.
  intros Hn Hv Hin.
  assert (ns = names) as -> by (apply (mapM_bind_id _ _ _) in Hn; [done|by intros ? ? [-> _]%bind_text_Ok]).
  assert (vs = versions) as -> by (apply (mapM_bind_id _ _ _) in Hv; [done|by intros ? ? [-> _]%bind_int4_Ok]).
  apply elem_of_zip_l in Hin as Hin1. apply elem_of_zip_r in Hin as Hin2.
  destruct (outcome_mapM_elem _ _ _ _ Hn Hin1) as (? & _ & [-> Hs]%bind_text_Ok).
  destruct (outcome_mapM_elem _ _ _ _ Hv Hin2) as (? & _ & [-> Hr]%bind_int4_Ok).
  unfold carried. rewrite Hs. cbn. lia.
Qed.

(** A claim statement that succeeds has carried every registered pair. *)
Lemma claim_stmt_carries limit names versions e d rows d' n v :
  exec (claim_stmt eng limit names versions) e d = (Ok rows, d') →
  (n, v) ∈ zip names versions → carried n v = true.
Proof.
  set (ttl := Milliseconds (leaseTTL eng)).
  assert (exec (ClaimMulti (e_queue eng) limit ttl names versions) e d = (Ok rows, d') →
    (n, v) ∈ zip names versions → carried n v = true) as Hmulti.
  { cbn [exec]. unfold claimMulti. case_match eqn:Hb; [|done..]. invert_outcome.
    intros _. by eapply bound_carried. }
  unfold claim_stmt. destruct names as [|n0 [|]]; [apply Hmulti| |apply Hmulti].
  destruct versions as [|v0 [|]]; [apply Hmulti| |apply Hmulti].
  rewrite claim_statements_agree. apply Hmulti.
Qed.

(** One registration that no statement can carry stops the claims of its engine, those
    of its other workflows included: [claimReadyRuns] fails at every call, whatever the
    oracle. *)
Theorem uncarried_version_stops_claims limit n v w :
  0 < limit → is_Some (workflows eng !! (n, v)) → carried n v = false →
  ∀ runs w', claimReadyRuns o eng limit w ≠ (Ok runs, w').
Proof.
  intros Hl [wf Hwf] Hc runs w' Hx. unfold claimReadyRuns in Hx.
  rewrite (proj2 (Z.leb_gt limit 0)) in Hx by lia.
  assert ((n, v) ∈ zip (supportedWorkflows eng).1 (supportedWorkflows eng).2) as Hin.
  { unfold supportedWorkflows. cbn. rewrite zip_fst_snd.
    apply list_elem_of_fmap. exists ((n, v), wf). split; [done|]. by apply elem_of_map_to_list. }
  destruct (supportedWorkflows eng) as [names versions]. cbn in Hin.
  case_bool_decide as Hn; [by rewrite Hn in Hin; apply elem_of_nil in Hin|].
  apply io_bind_Ok in Hx as (started & w1 & _ & Hx).
  apply wrapping_bind_Ok in Hx as (rows & w2 & Hq & _).
  apply (query_pool o) in Hq as [_ (d1 & e & _ & Hex & _)].
  by rewrite (claim_stmt_carries _ _ _ _ _ _ _ _ _ Hex Hin) in Hc.
Qed.

(** A lease of less than a millisecond ends where it begins: a worker of such an engine
    can record nothing of what it claims. *)
Theorem submillisecond_lease_is_never_held limit names versions e d rows d' row r e' :
  0 <= leaseTTL eng < Millisecond →
  exec (claim_stmt eng limit names versions) e d = (Ok rows, d') → row ∈ rows →
  workflow_runs d' !! c_id row = Some r →
  (∀ r0, workflow_runs d !! c_id row = Some r0 → state r0 = RunReady) →
  clock_timestamp_set e (c_id row) <= clock_timestamp e' (c_id row) →
  fence (c_id row) (c_lease_token row) e' (c_id row) r = false.
Proof.
  intros Httl Hex Hrow Hr Hready Hclock.
  destruct (exec_claim_leases _ _ e d (c_id row) r (proj1 (claim_stmt_ttl eng limit names versions)))
    as [Hr0|[_ Hu]]; [by rewrite Hex| |].
  - unfold fence. rewrite (Hready _ Hr0). by rewrite bool_decide_eq_true_2.
  - assert (Milliseconds (leaseTTL eng) = 0) as Hms.
    { unfold Milliseconds. apply Z.quot_small. done. }
    unfold fence. rewrite Hu, Hms. unfold interval_ms.
    rewrite (proj2 (Z.ltb_ge _ _)); [by rewrite andb_false_r|lia].
Qed.

(** A query of an identifier that is no UUID answers an error, and not that of a missing
    row. *)
Lemma malformed_query {X} (s : stmt X) er0 w :
  (∀ n e, m_fault (o n) = FailBefore e ∨ m_fault (o n) = FailAfter e → isNoRows e = false) →
  isNoRows er0 = false → (∀ e d, exec s e d = (Err er0, d)) →
  ∃ er w', query o Pool s w = (Err er, w') ∧ isNoRows er = false.
Proof.
  intros Hf Her Hs. unfold query, effect. rewrite Hs.
  destruct (m_fault (o (w_tick w))) as [|er|er] eqn:Em; [by eauto|..];
    (eexists er, _; split; [done|]; eauto).
Qed.

(** An identifier that the server does not read as a UUID is an error of the server, not
    [ErrRunNotFound], when no driver error passes for a missing row. *)
Theorem malformed_id_is_not_unknown id w :
  honest_faults o → uuid_in id = None →
  (∃ er w', RunStatus o id w = (Err (Wrapf "durablepg: run status: %w" [] er), w')) ∧
  (∃ er w', Cancel o id w = (Err (Wrapf "durablepg: cancel run: %w" [] er), w')).
Proof.
  intros Hf Hid.
  assert (bind_uuid id = Err (db_error "invalid input syntax for type uuid")) as Hb
    by (unfold bind_uuid; by rewrite Hid).
  split.
  - destruct (malformed_query (RunStatus_ id) (db_error "invalid input syntax for type uuid") w)
      as (er & w' & Hq & Hn); [done|done|by intros e d; cbn; unfold runStatus; rewrite Hb|].
    exists er, w'. unfold RunStatus, catching, query_row. rewrite !io_bind_eq, Hq. cbn. by rewrite Hn.
  - destruct (malformed_query (CancelRun id) (db_error "invalid input syntax for type uuid") w)
      as (er & w' & Hq & Hn); [done|done|by intros e d; cbn; unfold cancelRun; rewrite Hb|].
    exists er, w'. unfold Cancel, wrapping. by rewrite io_bind_eq, Hq.
Qed.
End limits.
