(* ===== verification/Undisturbed.v ===== *)
(** * A worker that nothing disturbs

    What the statements do to tables with one run in them, how many stops are ahead of a
    run, and where executing a claim leaves it when nobody else acts, no call fails, steps
    succeed and keys resolve. *)

From S2P Require Import Prelude GoText Json Types Builder Postgres Queries Store Statements.
From S2P Require Import Claims Events Timing Effects Engine Worker Replay Invariant Loading.
From S2P Require Import Client Progress Delivery Loops Limits.
#[local] Open Scope sql_scope.

(** ** Tables with one run *)

Section alone.
Context (id : string) (r : run).

Lemma update_where_alone P f :
  update_where P f {[id := r]} = {[id := if P id r then f id r else r]}.
Proof.
  apply map_eq. intros k. rewrite lookup_update_where. destruct (decide (k = id)) as [->|Hk].
  - by rewrite !lookup_singleton_eq.
  - by rewrite !lookup_singleton_ne.
Qed.

Lemma pick_alone lk P key n :
  0 < n → id ∉ lk → P id r = true → pick lk P key n {[id := r]} = [id].
Proof.
  intros Hn Hlk HP. unfold pick, candidates. rewrite map_filter_singleton_True by (cbn; rewrite HP; by split).
  rewrite map_to_list_singleton. cbn [fmap list_fmap].
  pose proof (merge_sort_Permutation row_le [(key r, id)]) as ->%Permutation_singleton_r.
  destruct (Z.to_nat n) eqn:E; [lia|]. cbn. by rewrite take_nil.
Qed.

Lemma pick_nobody lk P key n : P id r = false → pick lk P key n {[id := r]} = [].
Proof.
  intros HP. unfold pick, candidates. rewrite map_filter_singleton_False.
  - rewrite map_to_list_empty. cbn [fmap list_fmap].
    pose proof (merge_sort_Permutation row_le []) as ->%Permutation_nil_r. by rewrite take_nil.
  - cbn. rewrite HP. by intros [? _].
Qed.
End alone.

Section statements.
Context `{Postgres} (id : string).

(** Recovery leaves a run alone that is not leased. *)
Lemma recover_alone e d r :
  workflow_runs d = {[id := r]} → state r ≠ RunLeased → exec RecoverLeases e d = (Ok 0, d).
Proof.
  intros Hr Hs. cbn [exec]. unfold recoverLeases. rewrite Hr, pick_nobody.
  - rewrite update_where_alone, bool_decide_eq_false_2 by apply not_elem_of_nil.
    rewrite <-Hr. by destruct d.
  - unfold expired. by rewrite bool_decide_eq_false_2.
Qed.

(** Promotion times an overdue wait out, and does nothing to other runs. *)
Definition timed_out_row (e : env) (r : run) : run :=
  r ▷ set_state RunReady ▷ set_next_run_at (now e) ▷ set_waiting_event_key None
    ▷ set_waiting_deadline None ▷ set_updated_at (now e).

Lemma promote_alone ch e d r :
  workflow_runs d = {[id := r]} → id ∉ locked_runs e →
  let out := exec (PromoteTimedOut ch) e d in
  (∃ n q, out.1 = Ok (n, q) ∧ n < maintenanceBatch) ∧
  workflow_runs out.2 = {[id := if timed_out e id r then timed_out_row e r else r]} ∧
  step_checkpoints out.2 =
    (if timed_out e id r then insert_new {[(id, step_index r) := timed_out_text]} (step_checkpoints d)
     else step_checkpoints d) ∧
  event_log out.2 = event_log d.
Proof.
  intros Hr Hlk. cbn [exec]. unfold promoteTimedOut. rewrite Hr.
  assert (0 < maintenanceBatch) as Hpos by done.
  destruct (timed_out e id r) eqn:Hto.
  - rewrite pick_alone by done. cbn [fst snd workflow_runs step_checkpoints event_log notify
      set_checkpoints set_runs]. rewrite update_where_alone, bool_decide_eq_true_2 by by left.
    unfold affected. rewrite map_filter_singleton_True by (cbn; rewrite bool_decide_eq_true_2; [done|by left]).
    rewrite map_size_singleton. split_and!; [|done| |done].
    + eexists _, _. split; [done|]. done.
    + unfold checkpoints_at_cursor. rewrite map_to_list_singleton. done.
  - rewrite pick_nobody by done. cbn [fst snd workflow_runs step_checkpoints event_log notify
      set_checkpoints set_runs].
    rewrite update_where_alone, bool_decide_eq_false_2 by apply not_elem_of_nil.
    unfold affected. rewrite map_filter_singleton_False by (cbn; rewrite bool_decide_eq_false_2;
      [by intros ?|apply not_elem_of_nil]).
    rewrite map_size_empty. split_and!; [|done| |done].
    + eexists _, _. by split.
    + unfold checkpoints_at_cursor. rewrite map_to_list_empty. cbn. unfold insert_new.
      by rewrite map_union_empty.
Qed.

Definition claimed_row (ttl : Z) (e : env) (r : run) : run :=
  r ▷ set_state RunLeased ▷ set_lease_token (Some (gen_random_uuid e id))
    ▷ set_lease_until (Some (clock_timestamp_set e id + interval_ms ttl)) ▷ set_updated_at (now e).
Definition row_of_claim (e : env) (d : db) (r : run) : claim_row :=
  {| c_id := id; c_workflow_name := workflow_name r; c_workflow_version := workflow_version r;
     c_step_index := step_index r; c_attempt := attempt r; c_lease_token := gen_random_uuid e id;
     c_input := input_json r; c_checkpoints := checkpoints_json id (step_checkpoints d) |}.

Lemma claim_alone pred q limit ttl e d r :
  workflow_runs d = {[id := r]} → id ∉ locked_runs e → 0 < limit → claimable q pred e id r = true →
  claim pred q limit ttl e d =
    (Ok [row_of_claim e d r], set_runs {[id := claimed_row ttl e r]} d).
Proof.
  intros Hr Hlk Hl Hc. unfold claim. rewrite Hr, pick_alone by done. cbn [omap list_omap].
  rewrite lookup_singleton_eq. cbn. by rewrite update_where_alone, bool_decide_eq_true_2 by by left.
Qed.
End statements.

(** ** The course of a run *)

Section course.
Context `{Postgres} (wf : compiledWorkflow) (id : string).

Notation recorded_at d i := (step_checkpoints d !! (id, Z.of_nat i)).

(** The server accepts the values it has stored for the run, and the outcomes of the
    events. *)
Definition accepted (d : db) : Prop :=
  (∀ i v, step_checkpoints d !! (id, i) = Some v → jsonb_in v = Some v) ∧
  (∀ i ev, event_log d !! i = Some ev → is_Some (jsonb_in (received_raw (payload_json ev)))).

(** The sleeps from position [p] on, and the waits without an outcome. *)
Definition stop_at (d : db) (i : nat) : bool :=
  match cw_ops wf !! i with
  | Some (opSleep _) => true
  | Some (opWaitEvent _) => bool_decide (recorded_at d i = None)
  | _ => false
  end.
Definition ahead (d : db) (p : nat) : nat :=
  length (filter (λ i, stop_at d i) (seq p (length (cw_ops wf) - p))).

Lemma ahead_here d p :
  (p < length (cw_ops wf))%nat → ahead d p = (Nat.b2n (stop_at d p) + ahead d (S p))%nat.
Proof.
  intros Hp. unfold ahead. replace (length (cw_ops wf) - p)%nat with (S (length (cw_ops wf) - S p)) by lia.
  cbn [seq]. destruct (stop_at d p) eqn:E.
  - by rewrite filter_cons_True by (rewrite E; done).
  - rewrite filter_cons_False; [done|]. rewrite E. by intros ?.
Qed.

Lemma ahead_mono d d' p : step_checkpoints d ⊆ step_checkpoints d' → (ahead d' p ≤ ahead d p)%nat.
Proof.
  intros Hsub. unfold ahead. induction (seq p _) as [|i l IH]; [done|]. rewrite !filter_cons.
  assert (stop_at d' i → stop_at d i) as Himp.
  { unfold stop_at. destruct (cw_ops wf !! i) as [[| |]|]; try done. rewrite !bool_decide_spec.
    intros Hn. destruct (recorded_at d i) eqn:E; [|done]. eapply lookup_weaken in E; [|done]. congruence. }
  repeat case_decide; cbn; try lia. tauto.
Qed.

Lemma ahead_runs m d p : ahead (set_runs m d) p = ahead d p.
Proof. done. Qed.

(** Where a claim leaves its run that had [m] sleeps and waits ahead: completed, or parked
    with fewer ahead, due by [T]; a wait parks with as many, and one of them over at [T]. *)
Definition left_off (m : nat) (T : Z) (d : db) : Prop :=
  ∃ r, workflow_runs d = {[id := r]} ∧
    (state r = RunCompleted ∨
     state r = RunReady ∧ next_run_at r <= T ∧ (ahead d (Z.to_nat (step_index r)) < m)%nat ∨
     state r = RunWaitingEvent ∧ (∃ t, waiting_deadline r = Some t ∧ t <= T) ∧
       (ahead d (Z.to_nat (step_index r)) ≤ m)%nat ∧
       step_checkpoints d !! (id, step_index r) = None).

Lemma left_off_le m m' T d : (m ≤ m')%nat → left_off m T d → left_off m' T d.
Proof.
  intros Hm (r & Hr & Hs). exists r. split; [done|].
  destruct Hs as [?|[(?&?&?)|(?&?&?&?)]]; [by left|right; left|right; right]; split_and!; auto; lia.
Qed.

End course.

(** ** Executing a claim undisturbed *)

Section execution.
Context `{Postgres} `{!PostgresLaws}.
Context (o : nat → moment) (Error : error → string) (eng : Engine).
Context (Hq : quiet o).

Lemma query_tx_quiet {X} (s : stmt X) w :
  query o Tx s w =
    let a := (exec s (env_at o w) (view w)).1 in
    (a, if is_ok a then set_tx (Some (pending w ++ [Other X s (env_at o w)])) (next w) else next w).
Proof.
  unfold query, effect, env_at. rewrite (interfere_quiet o Hq).
  by destruct (Hq (w_tick w)) as (_ & -> & _).
Qed.

Lemma begin_quiet w : begin_tx o w = (Ok (), set_tx (Some []) (next w)).
Proof.
  unfold begin_tx, effect. rewrite (interfere_quiet o Hq). by destruct (Hq (w_tick w)) as (_ & -> & _).
Qed.

Lemma commit_quiet w : commit_tx o w = (Ok (), set_tx None (set_db (view w) (pending w) (next w))).
Proof.
  unfold commit_tx, effect. rewrite (interfere_quiet o Hq). by destruct (Hq (w_tick w)) as (_ & -> & _).
Qed.

Lemma view_tx w l : view (set_tx (Some l) w) = foldl run_other (w_db w) l.
Proof. done. Qed.

(** A claim that the worker holds: alone in the tables, leased until after all moments. *)
Context (run : claimedRun) (wf : compiledWorkflow) (u : Z).
Context (Hid : uuid_in (ID run) = Some (ID run)) (Htok : uuid_in (Token run) = Some (Token run)).
Context (Hwf : compiled_wf wf) (Hlen : Z.of_nat (length (cw_ops wf)) < 2^31 - 1).
Context (Hlease : ∀ n, clock_timestamp (m_env (o n)) (ID run) < u).

Notation recorded_at d i := (step_checkpoints d !! (ID run, Z.of_nat i)).
Notation accepted := (accepted (ID run)).
Notation ahead := (ahead wf (ID run)).
Notation left_off := (left_off wf (ID run)).

Record held_row (index : nat) (r : Postgres.run) : Prop := {
  hr_state : state r = RunLeased;
  hr_token : lease_token r = Some (Token run);
  hr_until : lease_until r = Some u;
  hr_cursor : step_index r <= Z.of_nat index;
}.
Definition holds (index : nat) (d : db) : Prop :=
  ∃ r, workflow_runs d = {[ID run := r]} ∧ held_row index r.

Lemma held_row_fence index r n :
  held_row index r → fence (ID run) (Token run) (m_env (o n)) (ID run) r = true.
Proof. intros [Hs Ht Hu _]. apply fence_spec. split_and!; eauto. Qed.

(** The values in memory are those of the table, or texts that the server stored as those. *)
Definition in_memory (vs : values) (d : db) : Prop :=
  length vs = length (cw_ops wf) ∧
  ∀ i, (i < length (cw_ops wf))%nat →
    match mjoin (vs !! i), recorded_at d i with
    | Some raw, Some v => jsonb_in raw = Some v
    | None, None => True
    | _, _ => False
    end.

Lemma in_memory_None vs d i :
  in_memory vs d → (i < length (cw_ops wf))%nat → mjoin (vs !! i) = None ↔ recorded_at d i = None.
Proof. intros [_ Hl] Hi. specialize (Hl i Hi). by repeat case_match. Qed.

(** ** The recording statements *)

Definition committed (index : nat) (complete : bool) (v : list ascii) (e : env) (r : Postgres.run)
    (d : db) : db :=
  set_checkpoints (<[(ID run, Z.of_nat index) := v]> (step_checkpoints d))
    (set_runs {[ID run := committed_row (Z.of_nat index) complete v e r]} d).

Lemma exec_commit index raw v complete n d r :
  (index < length (cw_ops wf))%nat → workflow_runs d = {[ID run := r]} → held_row index r →
  recorded_at d index = None → jsonb_in raw = Some v →
  exec (CommitStep (ID run) (Token run) (Z.of_nat index) raw complete) (m_env (o n)) d =
    (Ok (Some None), committed index complete v (m_env (o n)) r d).
Proof.
  intros Hi Hr Hh Hn Hv. cbn [exec]. rewrite (commitStep_owned _ _ _ _ v _ _ _ r); try done.
  - rewrite Hn, Hr. cbn [default]. unfold committed. by rewrite insert_singleton_eq.
  - lia.
  - by rewrite Hr, lookup_singleton_eq.
  - by eapply held_row_fence.
  - apply Hh.
Qed.

Lemma commit_pool index raw v complete w r :
  (index < length (cw_ops wf))%nat → workflow_runs (w_db w) = {[ID run := r]} → held_row index r →
  recorded_at (w_db w) index = None → jsonb_in raw = Some v →
  commitStep o Pool run index raw complete w =
    (Ok raw, set_db (committed index complete v (env_at o w) r (w_db w))
       [Other _ (CommitStep (ID run) (Token run) (Z.of_nat index) raw complete) (env_at o w)] (next w)).
Proof.
  intros Hi Hr Hh Hn Hv. unfold commitStep. rewrite io_bind_eq, catching_eq. unfold query_row.
  rewrite io_bind_eq, (query_quiet o Hq). unfold env_at. by rewrite (exec_commit index raw v _ _ _ r).
Qed.

Lemma commit_in_tx index raw v complete w r :
  (index < length (cw_ops wf))%nat → workflow_runs (view w) = {[ID run := r]} → held_row index r →
  recorded_at (view w) index = None → jsonb_in raw = Some v →
  commitStep o Tx run index raw complete w =
    (Ok raw, set_tx (Some (pending w ++ [Other _ (CommitStep (ID run) (Token run) (Z.of_nat index)
      raw complete) (env_at o w)])) (next w)).
Proof.
  intros Hi Hr Hh Hn Hv. unfold commitStep. rewrite io_bind_eq, catching_eq. unfold query_row.
  rewrite io_bind_eq, query_tx_quiet. unfold env_at. by rewrite (exec_commit index raw v _ _ _ r).
Qed.

(** What a transaction has written when its last statement was [s]. *)
Lemma view_last {X} (s : stmt X) e w :
  view (set_tx (Some (pending w ++ [Other X s e])) (next w)) = (exec s e (view w)).2.
Proof. rewrite view_tx, foldl_app. done. Qed.

Lemma exec_update s args f n d r :
  (∀ e, exec s e d = fenced_update (ID run) (Token run) args f e d) → args = Ok () →
  workflow_runs d = {[ID run := r]} → (∃ index, held_row index r) →
  exec s (m_env (o n)) d =
    (Ok 1, set_runs {[ID run := f (m_env (o n)) (ID run) r]} d).
Proof.
  intros -> Ha Hr [index Hh]. rewrite (fenced_update_owned _ _ _ _ _ _ r); try done.
  - by rewrite Hr, insert_singleton_eq.
  - by rewrite Hr, lookup_singleton_eq.
  - by eapply held_row_fence.
Qed.

(** ** Waiting for an event *)

Definition parked_row (index : nat) (key : string) (timeout : Z) (e : env) (r : Postgres.run)
    : Postgres.run :=
  r ▷ set_state RunWaitingEvent ▷ set_step_index (Z.of_nat index) ▷ set_waiting_event_key (Some key)
    ▷ set_waiting_deadline (Some (now e + interval_ms (Milliseconds timeout)))
    ▷ set_lease_token None ▷ set_lease_until None ▷ set_last_error None
    ▷ set_lease_failures 0 ▷ set_updated_at (now e).

Lemma exec_park index key timeout n d r :
  (index < length (cw_ops wf))%nat → storable (s2b key) = true →
  workflow_runs d = {[ID run := r]} → held_row index r →
  exec (ParkWait (ID run) (Token run) (Z.of_nat index) key (Milliseconds timeout)) (m_env (o n)) d =
    (Ok 1, set_runs {[ID run := parked_row index key timeout (m_env (o n)) r]} d).
Proof.
  intros Hi Hk Hr Hh.
  erewrite (exec_update (ParkWait (ID run) (Token run) (Z.of_nat index) key (Milliseconds timeout)));
    [|done| |done|eauto]; [done|].
  rewrite (proj2 (bind_int4_Ok _ (Z.of_nat index))) by (split; [done|lia]). cbn.
  by rewrite (proj2 (bind_text_Ok key key)).
Qed.

(** The transaction delivers an event that is there, or parks the run. *)
Lemma wait_quiet index key timeout complete w r :
  (index < length (cw_ops wf))%nat → storable (s2b key) = true → w_tx w = None →
  workflow_runs (w_db w) = {[ID run := r]} → held_row index r → recorded_at (w_db w) index = None →
  accepted (w_db w) →
  ∃ n res w', waitForEvent o eng run index key timeout complete w = (Ok res, w') ∧ w_tx w' = None ∧
    match res with
    | Some raw => ∃ v, jsonb_in raw = Some v ∧
        w_db w' = committed index complete v (m_env (o n)) r (w_db w)
    | None => w_db w' = set_runs {[ID run := parked_row index key timeout (m_env (o n)) r]} (w_db w)
    end.
Proof.
  intros Hi Hk Hn Hr Hh Hnone [_ Hev]. unfold waitForEvent.
  rewrite io_bind_eq. unfold wrapping at 1. rewrite begin_quiet. unfold deferring.
  rewrite io_bind_eq. unfold wrapping at 1. rewrite query_tx_quiet.
  cbn [exec fst snd]. rewrite (proj2 (bind_text_Ok key key)) by done.
  cbn [mbind outcome_bind is_ok mret outcome_ret].
  set (w2 := set_tx (Some _) _). rewrite io_bind_eq, catching_eq. unfold query_row at 1.
  rewrite io_bind_eq, query_tx_quiet. unfold env_at at 1.
  assert (view w2 = w_db w) as -> by done. cbn [exec].
  destruct (latestEvent_spec key (m_env (o (w_tick w2))) (w_db w) Hk) as [(i & ev & Hnew & E)|[_ E]];
    rewrite E; cbn [fst is_ok].
  - destruct (Hev i ev ltac:(apply Hnew)) as [v Hv]. set (w3 := set_tx (Some _) _).
    assert (view w3 = w_db w) as Hview.
    { unfold w3. rewrite view_last. cbn [exec]. unfold env_at. change (view w2) with (w_db w). by rewrite E. }
    unfold mret at 1, io_ret at 1. cbv beta iota. rewrite io_bind_eq.
    rewrite (commit_in_tx index _ v _ _ r) by (rewrite ?Hview; done).
    rewrite io_bind_eq. unfold wrapping. rewrite commit_quiet, view_last, Hview. unfold env_at.
    rewrite (exec_commit index _ v _ _ _ r) by done.
    eexists _, _, _. split; [done|]. split; [done|]. by exists v.
  - set (w3 := set_tx (Some _) _).
    assert (view w3 = w_db w) as Hview.
    { unfold w3. rewrite view_last. cbn [exec]. unfold env_at. change (view w2) with (w_db w). by rewrite E. }
    unfold throw at 1, lift at 1. cbv beta iota.
    change (negb (isNoRows (Sentinel pgx_ErrNoRows))) with false. cbv iota.
    rewrite io_bind_eq. unfold wrapping at 1. rewrite query_tx_quiet, Hview. unfold env_at at 1.
    rewrite (exec_park index key timeout _ _ r) by done. cbn [fst is_ok].
    rewrite io_bind_eq. unfold lift at 1. cbv beta iota. change (fenced 1) with (Ok ()). cbv iota.
    rewrite io_bind_eq. unfold wrapping. rewrite commit_quiet, view_last, Hview. unfold env_at.
    rewrite (exec_park index key timeout _ _ r) by done.
    by eexists _, None, _.
Qed.

(** ** The loop over the operations *)

Context (T D : Z).
Context (Hnow : ∀ n, now (m_env (o n)) <= T).
Context (Hshort : ∀ op, op ∈ cw_ops wf →
  match op with
  | opStep _ => True
  | opSleep d => interval_ms (Milliseconds d) <= D
  | opWaitEvent w => interval_ms (Milliseconds (w_timeout w)) <= D
  end).
Context (Hsteps : ∀ n, ∃ raw v, m_fn (o n) = FnOut (Ok raw) ∧ jsonb_in raw = Some v).
Context (Hkeys : ∀ n wait, opWaitEvent wait ∈ cw_ops wf →
  ∃ key, resolve_key wait (m_key (o n)) = Ok key ∧ storable (s2b key) = true).

(** After a result is committed, the run has completed or goes on behind it. *)
Lemma after_commit index vs raw v n d r :
  let complete := bool_decide (index = pred (length (cw_ops wf))) in
  (index < length (cw_ops wf))%nat → in_memory vs d → accepted d → held_row index r →
  recorded_at d index = None → jsonb_in raw = Some v →
  let d' := committed index complete v (m_env (o n)) r d in
  in_memory (<[index := Some raw]> vs) d' ∧ accepted d' ∧ (ahead d' (S index) ≤ ahead d index)%nat ∧
  if complete then ∃ r', workflow_runs d' = {[ID run := r']} ∧ state r' = RunCompleted
  else holds (S index) d'.
Proof.
  intros complete Hi [Hvl Hmem] [Hacc Hev] [Hs Ht Hu Hc] Hnone Hv d'. split_and!.
  - split; [by rewrite length_insert|]. intros i Hilt. cbn. destruct (decide (i = index)) as [->|Hne].
    + rewrite list_lookup_insert_eq, lookup_insert_eq by lia. done.
    + rewrite list_lookup_insert_ne by done. rewrite lookup_insert_ne by (intros [=]; lia). by apply Hmem.
  - split; [|done]. intros i v'. cbn. rewrite lookup_insert_Some. intros [[_ <-]|[_ ?]]; [|by eapply Hacc].
    by eapply jsonb_in_canonical.
  - rewrite (ahead_here wf (ID run) d index) by done. trans (ahead d (S index)); [|lia].
    apply ahead_mono. by apply insert_subseteq.
  - destruct complete; eexists; (split; [done|]); [done|]. split; [done..|].
    change (Z.of_nat index + 1 <= Z.of_nat (S index)). lia.
Qed.

Lemma sleep_quiet next_ d w r :
  (next_ ≤ length (cw_ops wf))%nat → workflow_runs (w_db w) = {[ID run := r]} →
  (∃ index, held_row index r) →
  ∃ r' l, parkForSleep o run next_ d w = (Ok (), set_db (set_runs {[ID run := r']} (w_db w)) l (next w)) ∧
    state r' = RunReady ∧ step_index r' = Z.of_nat next_ ∧
    next_run_at r' = now (env_at o w) + interval_ms (Milliseconds d).
Proof.
  intros Hi Hr Hh. unfold parkForSleep. rewrite io_bind_eq. unfold wrapping. rewrite (query_quiet o Hq).
  unfold env_at. erewrite (exec_update (ParkSleep (ID run) (Token run) (Z.of_nat next_) (Milliseconds d)));
    [|done| |done|done]; [by eexists _, _|].
  by rewrite (proj2 (bind_int4_Ok _ (Z.of_nat next_))) by (split; [done|lia]).
Qed.

(** Behind the last operation the run completes with the value of its last step or wait. *)
Lemma complete_quiet vs w r :
  workflow_runs (w_db w) = {[ID run := r]} → (∃ index, held_row index r) →
  in_memory vs (w_db w) →
  ∃ w', Worker.completeRun o wf run vs w = (Ok (), w') ∧ w_tx w' = w_tx w ∧
    step_checkpoints (w_db w') = step_checkpoints (w_db w) ∧
    event_log (w_db w') = event_log (w_db w) ∧
    ∃ r', workflow_runs (w_db w') = {[ID run := r']} ∧ state r' = RunCompleted.
Proof.
  intros Hr Hh [Hvl Hmem]. unfold Worker.completeRun.
  set (output := if 0 <=? cw_outputIndex wf then _ else None).
  assert (∃ out, bind_opt bind_jsonb output = Ok out) as [out Hout].
  { destruct output as [raw|] eqn:E; [|by exists None]. unfold output in E.
    destruct (0 <=? _); [|done]. set (i := Z.to_nat _) in *.
    assert (i < length (cw_ops wf))%nat as Hi.
    { rewrite <-Hvl. apply lookup_lt_is_Some. destruct (vs !! i); [by eexists|done]. }
    specialize (Hmem i Hi). rewrite E in Hmem. destruct (recorded_at (w_db w) i) as [v|]; [|done].
    exists (Some v). cbn. by rewrite (proj2 (bind_jsonb_Ok raw v) Hmem). }
  rewrite io_bind_eq. unfold wrapping. rewrite (query_quiet o Hq). unfold env_at.
  erewrite (exec_update (CompleteRun (ID run) (Token run) (Z.of_nat (length (cw_ops wf))) output));
    [| | |done|done].
  2: { intros e. cbn [exec]. unfold Queries.completeRun. rewrite Hout. reflexivity. }
  2: { by rewrite (proj2 (bind_int4_Ok _ _)) by (split; [done|lia]). }
  eexists. split; [done|]. split_and!; try done. by eexists.
Qed.


Lemma resolve_quiet vs index wait w :
  opWaitEvent wait ∈ cw_ops wf →
  ∃ key w', resolve o wf run vs index wait w = (Ok key, w') ∧ storable (s2b key) = true ∧
    w_db w' = w_db w ∧ w_tx w' = w_tx w.
Proof.
  intros Hin. destruct (Hkeys (w_tick w) wait Hin) as (key & Hres & Hst). exists key.
  unfold resolve. destruct (w_keyFn wait) as [fn|] eqn:E.
  - rewrite io_bind_eq. unfold call_keyFn, effect. rewrite (interfere_quiet o Hq).
    unfold lift. rewrite Hres. eexists. by split_and!.
  - exists w. split_and!; [|done..]. unfold lift. rewrite <-Hres. unfold resolve_key. by rewrite E.
Qed.

(** From [index] the loop over [rest] gets to the run's next stop, or to its end. *)
Definition drives (rest : list operation) (index : nat) : Prop := ∀ vs w,
  w_tx w = None → in_memory vs (w_db w) → accepted (w_db w) → holds index (w_db w) →
  ∃ w', drive_from o eng wf run rest index vs w = (Ok (), w') ∧ w_tx w' = None ∧
    accepted (w_db w') ∧ left_off (ahead (w_db w) index) (T + D) (w_db w').

Lemma drive_end : drives [] (length (cw_ops wf)).
Proof.
  intros vs w Hn Hmem [Hacc Hev] (r & Hr & Hh).
  destruct (complete_quiet vs w r) as (w' & Hd & Htx & Hcp & Hlog & r' & Hr' & Hs'); [done|eauto|done|].
  exists w'. split_and!; [done|congruence| |].
  - split; intros i x; [rewrite Hcp; apply Hacc|rewrite Hlog; apply Hev].
  - exists r'. by auto.
Qed.

Lemma drive_skip rest index vs w :
  drives rest (S index) → (index < length (cw_ops wf))%nat → w_tx w = None →
  in_memory vs (w_db w) → accepted (w_db w) → holds index (w_db w) →
  ∃ w', drive_from o eng wf run rest (S index) vs w = (Ok (), w') ∧ w_tx w' = None ∧
    accepted (w_db w') ∧ left_off (ahead (w_db w) index) (T + D) (w_db w').
Proof.
  intros IH Hlt Hn Hmem Hacc (r & Hr & Hh).
  destruct (IH vs w) as (w' & Hd & Htx & Hacc' & Hleft); [done..| |].
  - exists r. split; [done|]. destruct Hh as [? ? ? Hc]. split; try done. lia.
  - exists w'. split_and!; [done..|]. eapply left_off_le; [|exact Hleft].
    rewrite (ahead_here wf (ID run) (w_db w) index) by done. lia.
Qed.

(** A committed result, in the middle or at the end. *)
Lemma drive_committed rest index vs raw v n d r w :
  let complete := bool_decide (index = pred (length (cw_ops wf))) in
  drives rest (S index) → (index < length (cw_ops wf))%nat →
  in_memory vs d → accepted d → held_row index r → recorded_at d index = None →
  jsonb_in raw = Some v → w_tx w = None → w_db w = committed index complete v (m_env (o n)) r d →
  ∃ w', (if complete then mret ()
         else drive_from o eng wf run rest (S index) (<[index := Some raw]> vs)) w = (Ok (), w') ∧
    w_tx w' = None ∧ accepted (w_db w') ∧ left_off (ahead d index) (T + D) (w_db w').
Proof.
  intros complete IH Hlt Hmem Hacc Hh Hnone Hv Hn Hdb.
  destruct (after_commit index vs raw v n d r) as (Hmem' & Hacc' & Hah & Hres); try done.
  fold complete in Hmem', Hacc', Hah, Hres. rewrite <-Hdb in *. destruct complete.
  - destruct Hres as (r' & Hr' & Hs'). exists w. split_and!; [done..|]. exists r'. by auto.
  - destruct (IH (<[index := Some raw]> vs) w) as (w' & Hd & Htx & Hacc2 & Hleft); [done..|].
    exists w'. split_and!; [done..|]. by eapply left_off_le.
Qed.

Lemma drive_sleep index d w r :
  cw_ops wf !! index = Some (opSleep d) → w_tx w = None → accepted (w_db w) →
  workflow_runs (w_db w) = {[ID run := r]} → held_row index r →
  ∃ w', parkForSleep o run (S index) d w = (Ok (), w') ∧ w_tx w' = None ∧ accepted (w_db w') ∧
    left_off (ahead (w_db w) index) (T + D) (w_db w').
Proof.
  intros Hop Hn Hacc Hr Hh. pose proof (lookup_lt_Some _ _ _ Hop) as Hlt.
  pose proof (Hshort _ (list_elem_of_lookup_2 _ _ _ Hop)) as Hdur. cbn in Hdur.
  destruct (sleep_quiet (S index) d w r) as (r' & lg & Hp & Hs' & Hi' & Ht'); [lia|done|eauto|].
  rewrite Hp. eexists. split_and!; [done..|]. exists r'. split; [done|].
  right; left. split; [done|]. rewrite Ht', Hi'. split.
  - pose proof (Hnow (w_tick w)). unfold env_at. lia.
  - cbn [w_db set_db next]. rewrite ahead_runs, Nat2Z.id, (ahead_here wf (ID run) (w_db w) index) by done.
    unfold stop_at. rewrite Hop. cbn. lia.
Qed.

Lemma drive_parked index key wait n d r :
  cw_ops wf !! index = Some (opWaitEvent wait) → recorded_at d index = None →
  left_off (ahead d index) (T + D)
    (set_runs {[ID run := parked_row index key (w_timeout wait) (m_env (o n)) r]} d).
Proof.
  intros Hop Hnone. pose proof (Hshort _ (list_elem_of_lookup_2 _ _ _ Hop)) as Hdur. cbn in Hdur.
  eexists. split; [done|]. right; right. split; [done|]. split.
  - eexists. split; [done|]. pose proof (Hnow n). lia.
  - split; [|done]. unfold parked_row. cbn. by rewrite Nat2Z.id.
Qed.

Lemma drive_quiet rest : ∀ index,
  rest = drop index (cw_ops wf) → (index ≤ length (cw_ops wf))%nat → drives rest index.
Proof.
  induction rest as [|op rest IH]; intros index Hrest Hle.
  { assert (index = length (cw_ops wf)) as ->; [|exact drive_end].
    apply (f_equal length) in Hrest. rewrite length_drop in Hrest. cbn in Hrest. lia. }
  assert (cw_ops wf !! index = Some op) as Hop.
  { rewrite <-(Nat.add_0_r index), <-lookup_drop, <-Hrest. done. }
  pose proof (lookup_lt_Some _ _ _ Hop) as Hlt.
  assert (rest = drop (S index) (cw_ops wf)) as Hrest'.
  { rewrite <-Nat.add_1_r, <-drop_drop. by rewrite <-Hrest. }
  specialize (IH (S index) Hrest' Hlt). clear Hrest Hrest'. intros vs w Hn Hmem Hacc Hhold.
  cbn [drive_from]. rewrite io_bind_eq, (ctx_quiet o Hq).
  case_bool_decide as Hrec; [by apply (drive_skip _ _ _ (next w))|].
  assert (mjoin (vs !! index) = None) as Hnone by by apply eq_None_not_Some.
  apply (in_memory_None _ _ _ Hmem Hlt) in Hnone. destruct Hhold as (r & Hr & Hh).
  destruct op as [st|d|wait].
  - rewrite io_bind_eq, (runStep_quiet o Hq). cbn [next w_tick].
    destruct (Hsteps (S (w_tick w))) as (raw & v & -> & Hv). cbn [executeStepSafely].
    set (w1 := log_call _ _). rewrite io_bind_eq.
    rewrite (commit_pool index raw v _ w1 r) by done. by eapply drive_committed.
  - by eapply (drive_sleep index d (next w)).
  - rewrite io_bind_eq.
    destruct (resolve_quiet vs index wait (next w)) as (key & w1 & -> & Hk & Hdb1 & Htx1);
      [by eapply list_elem_of_lookup_2|].
    cbn [next w_db w_tx] in Hdb1, Htx1. rewrite io_bind_eq. set (complete := bool_decide _).
    destruct (wait_quiet index key (w_timeout wait) complete w1 r) as (n & res & w2 & -> & Htx2 & Hres);
      rewrite ?Hdb1; try done; [congruence|]. rewrite Hdb1 in Hres. destruct res as [raw|].
    + destruct Hres as (v & Hv & Hdb2). by eapply drive_committed.
    + exists w2. split_and!; [done..| |]; rewrite Hres; [done|by apply drive_parked].
Qed.
End execution.
