(* ===== verification/Polls.v ===== *)
(** * Polls of an undisturbed worker

    A poll is one maintenance round, one claim, and the execution of what was claimed.
    This file says what the first two do to the only run in the tables, and what a poll
    does to a finished one; what the execution does is for [Lifetime] and [Failing]. *)

From S2P Require Import Prelude GoText Json Types Builder Postgres Queries Store Statements.
From S2P Require Import Claims Events Timing Effects Engine Worker Replay Invariant Loading.
From S2P Require Import Client Progress Delivery Loops Limits Undisturbed.
#[local] Open Scope sql_scope.

(** ** Polls *)

Section poll.
Context `{Postgres} `{!PostgresLaws}.
Context (Error : error → string) (eng : Engine) (wf : compiledWorkflow) (id : string).

Fixpoint execute_all (o : nat → moment) (runs : list claimedRun) : io () :=
  match runs with
  | [] => mret ()
  | run :: rest => _ ← executeClaim o Error eng run; execute_all o rest
  end.

(** A tick of the maintenance loop, then a dispatch whose claims are executed. *)
Definition poll (o : nat → moment) : io () :=
  _ ← maintain o eng;
  runs ← claimReadyRuns o eng (maxConcurrency eng);
  execute_all o runs.

(** [W] bounds the length of a poll, [D] how long the workflow sleeps and waits at once. *)

(** [W] bounds the length of a poll. *)
Context (W : Z).
Context (Hcompiled : ∀ k wf', workflows eng !! k = Some wf' → compiled_wf wf').
Context (Hsmall : ∀ k wf', workflows eng !! k = Some wf' → Z.of_nat (length (cw_ops wf')) < 2^31 - 1).
Context (Hcarried : ∀ n v, is_Some (workflows eng !! (n, v)) → carried n v = true).
Context (Hqueue : storable (s2b (e_queue eng)) = true) (Hmax : 1 <= maxConcurrency eng).
Context (HW : W < interval_ms (Milliseconds (leaseTTL eng))).

(** A poll that begins at [T]: nothing happens around it, and no call fails. *)
Record in_calm (o : nat → moment) (T : Z) : Prop := {
  ca_quiet : quiet o;
  ca_now n : T <= now (m_env (o n)) <= T + W;
  ca_monotone n n' : (n ≤ n')%nat → now (m_env (o n)) <= now (m_env (o n'));
  ca_statement n : T <= statement_timestamp (m_env (o n));
  ca_clock n : clock_timestamp (m_env (o n)) id <= T + W;
  ca_clock_set n : T <= clock_timestamp_set (m_env (o n)) id <= T + W;
  ca_free n : id ∉ locked_runs (m_env (o n));
  ca_uuid n : uuid_in (gen_random_uuid (m_env (o n)) id) = Some (gen_random_uuid (m_env (o n)) id);
}.

Lemma mapM_all_Ok {A} (f : A → outcome A) l : (∀ x, x ∈ l → f x = Ok x) → mapM f l = Ok l.
Proof.
  induction l as [|x l IH]; intros Hf; [done|]. cbn. rewrite Hf by by left. cbn.
  rewrite IH; [done|]. intros y Hy. apply Hf. by right.
Qed.

Lemma mapM_one {A B} (f : A → outcome B) x y : f x = Ok y → mapM f [x] = Ok [y].
Proof. intros E. cbn. by rewrite E. Qed.

(** The claim statement of the engine succeeds, and claims what is registered. *)
Lemma claim_stmt_exec limit names versions e d :
  supportedWorkflows eng = (names, versions) → 0 <= limit →
  exec (claim_stmt eng limit names versions) e d =
    claim (multi_pred names versions) (e_queue eng) limit (Milliseconds (leaseTTL eng)) e d.
Proof.
  intros Hsup Hl. set (ttl := Milliseconds (leaseTTL eng)).
  assert (∀ nv, nv ∈ (map_to_list (workflows eng)).*1 → carried nv.1 nv.2 = true) as Hreg.
  { intros [n v] ([[n' v'] wf'] & [= -> ->] & Hin%elem_of_map_to_list)%list_elem_of_fmap.
    apply Hcarried. by exists wf'. }
  unfold supportedWorkflows in Hsup. injection Hsup as Hn Hv.
  assert (mapM bind_text names = Ok names) as Hnames.
  { apply mapM_all_Ok. rewrite <-Hn. intros n (nv & -> & Hin)%list_elem_of_fmap.
    apply bind_text_Ok. split; [done|]. apply Hreg in Hin. unfold carried in Hin. by bool_to_prop. }
  assert (mapM bind_int4 versions = Ok versions) as Hversions.
  { apply mapM_all_Ok. rewrite <-Hv. intros v (nv & -> & Hin)%list_elem_of_fmap.
    apply bind_int4_Ok. split; [done|]. apply Hreg in Hin. unfold carried in Hin. by bool_to_prop. }
  assert (exec (ClaimMulti (e_queue eng) limit ttl names versions) e d =
    claim (multi_pred names versions) (e_queue eng) limit ttl e d) as Hm.
  { cbn [exec]. unfold claimMulti. rewrite (proj2 (bind_text_Ok _ _) (conj eq_refl Hqueue)), Hnames, Hversions.
    cbn. by rewrite (proj2 (Z.ltb_ge _ _)). }
  unfold claim_stmt. destruct names as [|n [|]]; [exact Hm| |exact Hm].
  destruct versions as [|v [|]]; [exact Hm| |exact Hm]. by rewrite claim_statements_agree.
Qed.

Section quiet.
Context (o : nat → moment) (T : Z) (Ho : in_calm o T).

Lemma time_quiet w : time_Now o w = (Ok (m_now (o (w_tick w))), next w).
Proof. unfold time_Now, effect. by rewrite (interfere_quiet o (ca_quiet _ _ Ho)). Qed.

Lemma small_batch started k size (batch : io Z) w n w' :
  batch w = (Ok n, w') → n < size → batches o started (S k) size batch w = (Ok (), w').
Proof.
  intros Hb Hn. cbn [batches]. rewrite io_bind_eq, Hb. by rewrite (proj2 (Z.ltb_lt _ _)).
Qed.

Lemma promote_tick w r :
  workflow_runs (w_db w) = {[id := r]} →
  ∃ n w', promoteTimedOutWaiters o eng w = (Ok (), w') ∧ w_tx w' = w_tx w ∧ (n ≤ w_tick w')%nat ∧
    w_db w' = (exec (PromoteTimedOut (channel eng)) (m_env (o n)) (w_db w)).2.
Proof.
  intros Hr. pose proof (ca_quiet _ _ Ho) as Hq. unfold promoteTimedOutWaiters.
  rewrite io_bind_eq, time_quiet.
  destruct (promote_alone id (channel eng) (env_at o (next w)) (w_db w) r Hr (ca_free _ _ Ho _))
    as ((n & q & Hout & Hlt) & _).
  assert ((r0 ← query o Pool (PromoteTimedOut (channel eng)); mret r0.1) (next w) =
    (Ok n, set_db (exec (PromoteTimedOut (channel eng)) (env_at o (next w)) (w_db w)).2
       [Other _ (PromoteTimedOut (channel eng)) (env_at o (next w))] (next (next w))))
    as Hpro.
  { rewrite io_bind_eq, (query_quiet o Hq). cbn [next w_db set_db]. by rewrite Hout. }
  rewrite (small_batch _ 7 _ _ _ _ _ Hpro) by done.
  eexists (w_tick (next w)), _. split_and!; [done|done|cbn; lia|done].
Qed.

Lemma maintain_quiet w r :
  workflow_runs (w_db w) = {[id := r]} → state r ≠ RunLeased →
  ∃ n w', maintain o eng w = (Ok (), w') ∧ w_tx w' = w_tx w ∧ (n ≤ w_tick w')%nat ∧
    w_db w' = (exec (PromoteTimedOut (channel eng)) (m_env (o n)) (w_db w)).2.
Proof.
  intros Hr Hs. pose proof (ca_quiet _ _ Ho) as Hq.
  unfold maintain. rewrite io_bind_eq, catching_eq. unfold recoverExpiredLeases.
  rewrite io_bind_eq, time_quiet.
  assert (query o Pool RecoverLeases (next w) = (Ok 0, set_db (w_db w) [Other _ RecoverLeases (env_at o (next w))] (next (next w)))) as Hrec.
  { rewrite (query_quiet o Hq). unfold env_at. by rewrite (recover_alone id _ _ r). }
  rewrite (small_batch _ 7 _ _ _ _ _ Hrec) by done.
  set (w1 := set_db _ _ _). rewrite io_bind_eq, catching_eq.
  destruct (promote_tick w1 r) as (n & w2 & -> & Htx & Hn & Hdb); [done|].
  by exists n, w2.
Qed.

Lemma claim_quiet w r :
  w_tx w = None → sys_inv (workflows eng) (w_db w) →
  workflow_runs (w_db w) = {[id := r]} →
  workflows eng !! (workflow_name r, workflow_version r) = Some wf → queue r = e_queue eng →
  state r = RunReady → next_run_at r <= now (m_env (o (S (w_tick w)))) →
  ∃ run n w', claimReadyRuns o eng (maxConcurrency eng) w = (Ok [run], w') ∧ w_tx w' = None ∧
    let e := m_env (o n) in
    w_db w' = set_runs {[id := claimed_row id (Milliseconds (leaseTTL eng)) e r]} (w_db w) ∧
    good_claim (workflows eng) (w_db w) run ∧ ID run = id ∧ Token run = gen_random_uuid e id ∧
    WorkflowName run = workflow_name r ∧ Version run = workflow_version r ∧
    StepIndex run = step_index r ∧ Attempt run = attempt r ∧
    (∀ i, checkpoints run !! i = Some <$> step_checkpoints (w_db w) !! (id, i)) ∧
    exec (claim_stmt eng (maxConcurrency eng) (supportedWorkflows eng).1 (supportedWorkflows eng).2) e
      (w_db w) = (Ok [row_of_claim id e (w_db w) r], w_db w').
Proof.
  intros Hn Hinv Hr Hreg Hqr Hs Hdue. pose proof (ca_quiet _ _ Ho) as Hq. unfold claimReadyRuns.
  rewrite (proj2 (Z.leb_gt _ 0)) by lia.
  destruct (supportedWorkflows eng) as [names versions] eqn:Hsup.
  assert ((workflow_name r, workflow_version r) ∈ zip names versions) as Hin.
  { unfold supportedWorkflows in Hsup. injection Hsup as <- <-. rewrite zip_fst_snd.
    apply list_elem_of_fmap. eexists (_, wf). split; [reflexivity|]. by apply elem_of_map_to_list. }
  rewrite bool_decide_eq_false_2 by (intros ->; by apply elem_of_nil in Hin).
  rewrite io_bind_eq, time_quiet, io_bind_eq. unfold wrapping. rewrite (query_quiet o Hq).
  unfold env_at. set (e := m_env (o (w_tick (next w)))). cbn [next w_db].
  assert (claimable (e_queue eng) (multi_pred names versions) e id r = true) as Hc.
  { apply claimable_spec. split_and!; [done|done| |].
    - exact Hdue.
    - unfold multi_pred. by apply bool_decide_eq_true. }
  pose proof (claim_stmt_exec (maxConcurrency eng) names versions e (w_db w) Hsup ltac:(lia)) as Hex.
  assert (0 < maxConcurrency eng) as Hpos by lia.
  rewrite (claim_alone id _ _ _ _ _ _ r Hr (ca_free _ _ Ho _) Hpos Hc) in Hex.
  rewrite Hex. cbn [fst snd]. unfold lift.
  destruct (claim_of_row_good (workflows eng) ltac:(intros k wf' Hk; specialize (Hsmall k wf' Hk); lia)
    (w_db w) (m_now (o (w_tick w)) + leaseTTL eng) (row_of_claim id e (w_db w) r) r e Hinv)
    as (run & Hrun & Hgood & Hidr & Ht & Hnm & Hv & Hsi & Hat & _ & Hcps).
  - cbn. by rewrite Hr, lookup_singleton_eq.
  - by exists wf.
  - apply Ho.
  - done.
  - fold e. rewrite (mapM_one _ _ _ Hrun). eexists run, (w_tick (next w)), _. split; [done|]. split; [done|].
    by split_and!.
Qed.

(** The claim that a due run gets keeps the invariant, and is a good claim afterwards. *)
Lemma claimed_next w r :
  w_tx w = None → sys_inv (workflows eng) (w_db w) →
  workflow_runs (w_db w) = {[id := r]} →
  workflows eng !! (workflow_name r, workflow_version r) = Some wf → queue r = e_queue eng →
  state r = RunReady → next_run_at r <= now (m_env (o (S (w_tick w)))) →
  ∃ run n w', claimReadyRuns o eng (maxConcurrency eng) w = (Ok [run], w') ∧ w_tx w' = None ∧
    w_db w' = set_runs {[id := claimed_row id (Milliseconds (leaseTTL eng)) (m_env (o n)) r]} (w_db w) ∧
    sys_inv (workflows eng) (w_db w') ∧ good_claim (workflows eng) (w_db w') run ∧
    ID run = id ∧ Token run = gen_random_uuid (m_env (o n)) id ∧
    workflow eng (WorkflowName run) (Version run) = Some wf ∧
    StepIndex run = step_index r ∧ Attempt run = attempt r ∧
    ∀ i, checkpoints run !! i = Some <$> step_checkpoints (w_db w') !! (id, i).
Proof.
  intros Hn Hinv Hr Hreg Hqr Hs Hdue.
  destruct (claim_quiet w r Hn Hinv Hr Hreg Hqr Hs Hdue)
    as (run & n & w1 & Hclaim & Hn1 & Hdb & Hgood & Hid & Htok & Hnm & Hv & Hsi & Hat & Hcps & Hex).
  assert (sys_step (workflows eng) (w_db w) (w_db w1)) as Hstep.
  { pose proof (sys_open (workflows eng) (w_db w) _ (claim_stmt eng (maxConcurrency eng)
      (supportedWorkflows eng).1 (supportedWorkflows eng).2) (m_env (o n))) as Hopen.
    rewrite Hex in Hopen. apply Hopen. by destruct (supportedWorkflows eng) as [[|? [|]] [|? [|]]]. }
  exists run, n, w1. split_and!; try done.
  - by eapply sys_inv_step.
  - eapply good_claim_mono; [|done]. apply rtc_once. by apply sys_step_db in Hstep.
  - unfold workflow. rewrite Hnm, Hv. exact Hreg.
  - intros i. rewrite Hdb. apply Hcps.
Qed.

(** Executing it keeps the invariant and what identifies the run. *)
Lemma executed_next run w r w' :
  sys_inv (workflows eng) (w_db w) → good_claim (workflows eng) (w_db w) run →
  workflow_runs (w_db w) !! id = Some r → executeClaim o Error eng run w = (Ok (), w') →
  w_tx w = None → workflow eng (WorkflowName run) (Version run) = Some wf →
  sys_inv (workflows eng) (w_db w') ∧
  ∃ r', workflow_runs (w_db w') !! id = Some r' ∧ same_identity r r'.
Proof.
  intros Hinv Hgood Hr Hexec Hn Hwfe. pose proof (ca_quiet _ _ Ho) as Hq.
  destruct (executeClaim_steps (workflows eng) Hcompiled o Error eng run w (Ok ()) w') as [Hrtc Hinv'];
    [done|by eexists|intros x d (k & t & Hx & _); by rewrite (proj1 (Hq k)) in Hx; apply elem_of_nil in Hx|done..|].
  split; [done|]. apply (rtc_row_identity (w_db w) (w_db w') id r); [|done].
  clear -Hrtc. induction Hrtc; [done|]. eapply rtc_l; [by eapply sys_step_db|done].
Qed.

(** A run that is not ready, or not due, is not claimed. *)
Lemma claim_nobody w r :
  workflow_runs (w_db w) = {[id := r]} →
  (state r = RunReady → ∀ n, now (m_env (o n)) < next_run_at r) →
  ∃ w', claimReadyRuns o eng (maxConcurrency eng) w = (Ok [], w') ∧ w_db w' = w_db w.
Proof.
  intros Hr Hno. pose proof (ca_quiet _ _ Ho) as Hq.
  unfold claimReadyRuns. rewrite (proj2 (Z.leb_gt _ 0)) by lia.
  destruct (supportedWorkflows eng) as [names versions] eqn:Hsup. case_bool_decide as Hnames.
  { by exists w. }
  rewrite io_bind_eq, time_quiet, io_bind_eq. unfold wrapping. rewrite (query_quiet o Hq).
  assert (0 <= maxConcurrency eng) as Hlim by lia.
  unfold env_at. rewrite (claim_stmt_exec _ _ _ _ _ Hsup Hlim). cbn [next w_db].
  unfold claim. rewrite Hr, pick_nobody.
  2: { apply not_true_iff_false. intros (_ & Hready & Hdue & _)%claimable_spec.
    specialize (Hno Hready (S (w_tick w))). cbn in Hdue. lia. }
  rewrite update_where_alone, bool_decide_eq_false_2 by apply not_elem_of_nil.
  rewrite <-Hr. assert (set_runs (workflow_runs (w_db w)) (w_db w) = w_db w) as Hsame by by destruct (w_db w).
  cbn [fst snd omap list_omap]. rewrite Hsame. by eexists.
Qed.

Lemma promote_rests w r n w' :
  sys_inv (workflows eng) (w_db w) → workflow_runs (w_db w) = {[id := r]} →
  state r ≠ RunWaitingEvent →
  w_db w' = (exec (PromoteTimedOut (channel eng)) (m_env (o n)) (w_db w)).2 →
  sys_inv (workflows eng) (w_db w') ∧ workflow_runs (w_db w') = {[id := r]} ∧
  step_checkpoints (w_db w') = step_checkpoints (w_db w).
Proof.
  intros Hinv Hr Hw Hdb.
  destruct (promote_alone id (channel eng) (m_env (o n)) (w_db w) r Hr (ca_free _ _ Ho n))
    as (_ & Hr1 & Hc1 & _).
  assert (timed_out (m_env (o n)) id r = false) as Hto
    by (unfold timed_out; by rewrite bool_decide_eq_false_2).
  rewrite <-Hdb, Hto in Hr1, Hc1. split_and!; [|done..]. rewrite Hdb. by apply sys_inv_open.
Qed.

(** The maintenance tick leaves a run alone that is neither leased nor waiting. *)
Lemma tick_rests w r :
  sys_inv (workflows eng) (w_db w) → workflow_runs (w_db w) = {[id := r]} →
  state r ≠ RunLeased → state r ≠ RunWaitingEvent →
  ∃ w', maintain o eng w = (Ok (), w') ∧ w_tx w' = w_tx w ∧ sys_inv (workflows eng) (w_db w') ∧
    workflow_runs (w_db w') = {[id := r]} ∧ step_checkpoints (w_db w') = step_checkpoints (w_db w).
Proof.
  intros Hinv Hr Hl Hw. destruct (maintain_quiet w r Hr Hl) as (n & w1 & Hm & Htx & _ & Hdb).
  destruct (promote_rests w r n w1) as (? & ? & ?); [done..|]. by exists w1.
Qed.

(** A poll leaves a run in a final state alone. *)
Lemma poll_terminal w r :
  sys_inv (workflows eng) (w_db w) → workflow_runs (w_db w) = {[id := r]} →
  Terminal (state r) = true →
  ∃ w', poll o w = (Ok (), w') ∧ sys_inv (workflows eng) (w_db w') ∧
    workflow_runs (w_db w') = {[id := r]} ∧ step_checkpoints (w_db w') = step_checkpoints (w_db w).
Proof.
  intros Hinv Hr Hs.
  destruct (tick_rests w r) as (w1 & Hm & _ & Hinv1 & Hr1 & Hc1); try done; [by intros E; rewrite E in Hs..|].
  destruct (claim_nobody w1 r Hr1) as (w2 & Hcl & Hdb2); [by intros E; rewrite E in Hs|].
  exists w2. unfold poll. rewrite io_bind_eq, Hm, io_bind_eq, Hcl, Hdb2. by split_and!.
Qed.
End quiet.

Fixpoint polls (rounds : list ((nat → moment) * Z)) (d : db) : db :=
  match rounds with
  | [] => d
  | (o, _) :: rest =>
    polls rest (w_db (poll o {| w_db := d; w_tx := None; w_tick := 0; w_calls := []; w_log := [] |}).2)
  end.

(** Polls that begin at [T] or later, in each of which [during] holds, with a pause of [D]
    between them. *)
Fixpoint spaced (during : (nat → moment) → Z → Prop) (D T : Z) (rounds : list ((nat → moment) * Z))
    : Prop :=
  match rounds with
  | [] => True
  | (o, T') :: rest => T <= T' ∧ during o T' ∧ spaced during D (T' + W + D) rest
  end.
End poll.
