(* ===== verification/Lifetime.v ===== *)
(** * A run's life to its end

    Polls of an undisturbed worker, repeated until the run has completed.  Between polls
    enough time passes for the sleeps and waits that the run was parked in; the number of
    polls needed is one more than the sleeps and waits that are ahead of it. *)

From S2P Require Import Prelude GoText Json Types Builder Postgres Queries Store Statements.
From S2P Require Import Claims Events Timing Effects Engine Worker Replay Invariant Loading.
From S2P Require Import Client Progress Delivery Loops Limits Undisturbed Polls.
#[local] Open Scope sql_scope.

Section course.
Context `{Postgres} `{!PostgresLaws}.
Context (Error : error → string) (eng : Engine) (wf : compiledWorkflow) (id : string).

(** [W] bounds the length of a poll, [D] how long the workflow sleeps and waits at once. *)
Context (W D : Z).
Context (Hcompiled : ∀ k wf', workflows eng !! k = Some wf' → compiled_wf wf').
Context (Hsmall : ∀ k wf', workflows eng !! k = Some wf' → Z.of_nat (length (cw_ops wf')) < 2^31 - 1).
Context (Hcarried : ∀ n v, is_Some (workflows eng !! (n, v)) → carried n v = true).
Context (Hqueue : storable (s2b (e_queue eng)) = true) (Hmax : 1 <= maxConcurrency eng).
Context (Hshort : ∀ op, op ∈ cw_ops wf →
  match op with
  | opStep _ => True
  | opSleep d => interval_ms (Milliseconds d) <= D
  | opWaitEvent w => interval_ms (Milliseconds (w_timeout w)) <= D
  end).
Context (HW : W < interval_ms (Milliseconds (leaseTTL eng))).

(** A calm poll in which steps succeed and keys resolve. *)
Record undisturbed (o : nat → moment) (T : Z) : Prop := {
  ud_calm :> in_calm id W o T;
  ud_steps n : ∃ raw v, m_fn (o n) = FnOut (Ok raw) ∧ jsonb_in raw = Some v;
  ud_keys n wait : opWaitEvent wait ∈ cw_ops wf →
    ∃ key, resolve_key wait (m_key (o n)) = Ok key ∧ storable (s2b key) = true;
}.

Section quiet.
Context (o : nat → moment) (T : Z) (Ho : undisturbed o T).

(** ** Where a run stands between polls *)

Definition finished (d : db) : Prop :=
  sys_inv (workflows eng) d ∧ ∃ r, workflow_runs d = {[id := r]} ∧ state r = RunCompleted ∧
    workflows eng !! (workflow_name r, workflow_version r) = Some wf.

(** By [T] the run is due, with at most [m] sleeps and waits ahead, or its wait is over,
    with at most [m] behind that. *)
Definition on_course (T : Z) (m : nat) (d : db) : Prop :=
  sys_inv (workflows eng) d ∧ accepted id d ∧
  ∃ r, workflow_runs d = {[id := r]} ∧
    workflows eng !! (workflow_name r, workflow_version r) = Some wf ∧ queue r = e_queue eng ∧
    (state r = RunReady ∧ next_run_at r <= T ∧ (ahead wf id d (Z.to_nat (step_index r)) ≤ m)%nat ∨
     state r = RunWaitingEvent ∧ (∃ t, waiting_deadline r = Some t ∧ t <= T) ∧
       (ahead wf id d (Z.to_nat (step_index r)) ≤ S m)%nat ∧
       step_checkpoints d !! (id, step_index r) = None).

(** The cursor of a waiting run is ahead of it. *)
Lemma waiting_ahead d r :
  sys_inv (workflows eng) d → workflow_runs d = {[id := r]} →
  workflows eng !! (workflow_name r, workflow_version r) = Some wf → state r = RunWaitingEvent →
  let p := Z.to_nat (step_index r) in
  Z.of_nat p = step_index r ∧ (p < length (cw_ops wf))%nat ∧
  ∃ wait, cw_ops wf !! p = Some (opWaitEvent wait).
Proof.
  intros Hinv Hr Hreg Hs p.
  destruct (si_runs _ _ Hinv id r wf) as [Hc _ _ Hw _]; [by rewrite Hr, lookup_singleton_eq|done|].
  destruct (Hw Hs) as [wait Hwait]. split_and!; [lia|by eapply lookup_lt_Some|by exists wait].
Qed.

(** The maintenance tick makes the run due. *)
Lemma tick_quiet w m :
  on_course T m (w_db w) →
  ∃ w' r, maintain o eng w = (Ok (), w') ∧ w_tx w' = w_tx w ∧
    sys_inv (workflows eng) (w_db w') ∧ accepted id (w_db w') ∧
    workflow_runs (w_db w') = {[id := r]} ∧
    workflows eng !! (workflow_name r, workflow_version r) = Some wf ∧ queue r = e_queue eng ∧
    state r = RunReady ∧ next_run_at r <= now (m_env (o (S (w_tick w')))) ∧
    (ahead wf id (w_db w') (Z.to_nat (step_index r)) ≤ m)%nat.
Proof.
  intros (Hinv & [Hacc Hev] & r & Hr & Hreg & Hqr & Hcase).
  destruct (maintain_quiet eng id W o T Ho w r Hr) as (n & w' & Hm & Htx & Hn & Hdb).
  { destruct Hcase as [[-> _]|[-> _]]; done. }
  set (e := m_env (o n)) in *.
  destruct (promote_alone id (channel eng) e (w_db w) r Hr (ca_free _ _ _ _ Ho n)) as (_ & Hruns & Hcps & Hlog).
  rewrite <-Hdb in *.
  assert (sys_inv (workflows eng) (w_db w')) as Hinv'.
  { rewrite Hdb. by apply sys_inv_open. }
  pose proof (ca_monotone _ _ _ _ Ho n (S (w_tick w')) ltac:(lia)) as Hmono. fold e in Hmono.
  assert (accepted id (w_db w')) as Hacc'.
  { split; [|by rewrite Hlog]. rewrite Hcps. intros i v. destruct (timed_out e id r); [|by apply Hacc].
    rewrite lookup_insert_new. destruct (step_checkpoints (w_db w) !! (id, i)) as [v'|] eqn:E.
    - intros [= <-]. by eapply Hacc.
    - intros [_ <-]%lookup_singleton_Some. apply jsonb_in_timed_out. }
  destruct Hcase as [(Hs & Hdue & Hah)|(Hs & (t & Ht & Hle) & Hah & Hnone)].
  - assert (timed_out e id r = false) as Hto by (unfold timed_out; by rewrite Hs).
    rewrite Hto in *. exists w', r.
    split_and!; try done; [pose proof (ca_now _ _ _ _ Ho (S (w_tick w'))); lia|]. etrans; [|exact Hah]. apply ahead_mono. by rewrite Hcps.
  - assert (timed_out e id r = true) as Hto.
    { apply timed_out_spec. split; [done|]. exists t. split; [done|].
      pose proof (ca_statement _ _ _ _ Ho n) as Hts. fold e in Hts. lia. }
    rewrite Hto in *. exists w', (timed_out_row e r).
    destruct (waiting_ahead _ r Hinv Hr Hreg Hs) as (Hz & Hlt & wait & Hwait).
    split_and!; try done.
    change (step_index (timed_out_row e r)) with (step_index r).
    set (p := Z.to_nat (step_index r)) in *.
    rewrite (ahead_here wf id (w_db w)) in Hah by done. rewrite (ahead_here wf id (w_db w')) by done.
    unfold stop_at in *. rewrite Hwait, Hz in *. rewrite Hnone, bool_decide_eq_true_2 in Hah by done.
    rewrite bool_decide_eq_false_2.
    2: { rewrite Hcps, lookup_insert_new, Hnone, lookup_singleton_eq. done. }
    cbn in *. pose proof (ahead_mono wf id (w_db w) (w_db w') (S p)) as Hmo.
    assert (step_checkpoints (w_db w) ⊆ step_checkpoints (w_db w')) as Hsub.
    { rewrite Hcps. by apply map_union_subseteq_l. }
    specialize (Hmo Hsub). lia.
Qed.

Lemma claimed_memory run d :
  accepted id d → (∀ i, checkpoints run !! i = Some <$> step_checkpoints d !! (id, i)) → ID run = id →
  in_memory run wf (load_values (length (cw_ops wf)) (checkpoints run)) d.
Proof.
  intros [Hacc _] Hcps <-.
  destruct (load_values_spec (length (cw_ops wf)) (checkpoints run)) as [Hlen Hl].
  split; [done|]. intros i Hi. destruct (step_checkpoints d !! (ID run, Z.of_nat i)) as [v|] eqn:E.
  - rewrite (proj2 (Hl i v)); [by eapply Hacc|]. split; [done|]. by rewrite Hcps, E.
  - destruct (load_values _ _ !! i) as [[v|]|] eqn:E'; [|done..].
    apply Hl in E' as [_ E']. by rewrite Hcps, E in E'.
Qed.

(** The claim of a due run is executed to the run's next stop, or to its end. *)
Lemma execute_quiet w r m :
  w_tx w = None → sys_inv (workflows eng) (w_db w) → accepted id (w_db w) →
  workflow_runs (w_db w) = {[id := r]} →
  workflows eng !! (workflow_name r, workflow_version r) = Some wf → queue r = e_queue eng →
  state r = RunReady → next_run_at r <= now (m_env (o (S (w_tick w)))) →
  (ahead wf id (w_db w) (Z.to_nat (step_index r)) ≤ m)%nat →
  ∃ w', (runs ← claimReadyRuns o eng (maxConcurrency eng); execute_all Error eng o runs) w = (Ok (), w') ∧
    w_tx w' = None ∧ sys_inv (workflows eng) (w_db w') ∧ accepted id (w_db w') ∧
    left_off wf id m (T + W + D) (w_db w') ∧
    ∀ r', workflow_runs (w_db w') = {[id := r']} → same_identity r r'.
Proof.
  intros Hn Hinv Hacc Hr Hreg Hqr Hs Hdue Hah. pose proof (ca_quiet _ _ _ _ Ho) as Hq.
  destruct (claimed_next eng wf id W Hcompiled Hsmall Hcarried Hqueue Hmax o T Ho w r Hn Hinv Hr Hreg Hqr Hs Hdue)
    as (run & n & w1 & Hclaim & Hn1 & Hdb & Hinv1 & Hgood & Hid & Htok & Hwfe & Hsi & _ & Hcps).
  rewrite io_bind_eq, Hclaim. cbn [execute_all].
  set (e := m_env (o n)) in *. set (r1 := claimed_row id _ e r) in *.
  assert (accepted id (w_db w1)) as Hacc1 by (rewrite Hdb; exact Hacc).
  pose proof (gc_claim _ _ _ Hgood) as (Hidc & Htokc & Hpos & _).
  destruct (si_runs _ _ Hinv id r wf) as [Hcur _ _ _ _]; [by rewrite Hr, lookup_singleton_eq|done|].
  set (index := Z.to_nat (StepIndex run)).
  set (u := clock_timestamp_set e id + interval_ms (Milliseconds (leaseTTL eng))).
  destruct (drive_quiet o eng Hq run wf u Hidc Htokc ltac:(by eapply Hsmall)
    ltac:(intros k; rewrite Hid; pose proof (ca_clock _ _ _ _ Ho k); pose proof (ca_clock_set _ _ _ _ Ho n);
      unfold u, e; lia) (T + W) D ltac:(intros k; apply (ca_now _ _ _ _ Ho k)) Hshort
    (ud_steps _ _ Ho) (ud_keys _ _ Ho) (drop index (cw_ops wf)) index eq_refl
    ltac:(unfold index; lia) (load_values (length (cw_ops wf)) (checkpoints run)) w1)
    as (w2 & Hdrive & Hn2 & Hacc2 & Hleft); [done| | | |].
  - by apply claimed_memory.
  - by rewrite Hid.
  - exists r1. rewrite Hid, Hdb. split; [done|]. split; cbn; [done|by rewrite Htok|done|].
    unfold index. rewrite Hsi. lia.
  - rewrite Hid in Hacc2, Hleft.
    assert (executeClaim o Error eng run w1 = (Ok (), w2)) as Hexec.
    { unfold executeClaim. rewrite io_bind_eq, catching_eq. unfold drive. rewrite Hwfe.
      rewrite (proj2 (Z.ltb_ge _ 0)) by lia. fold index. by rewrite Hdrive. }
    destruct (executed_next Error eng wf id W Hcompiled o T Ho run w1 r1 w2) as (Hinv2 & r2 & Hr2 & Hsame);
      [done|done|by rewrite Hdb; apply lookup_singleton_eq|done..|].
    rewrite io_bind_eq, Hexec. exists w2. split_and!; [done..| |].
    + eapply left_off_le; [|exact Hleft]. rewrite Hdb, ahead_runs. unfold index. by rewrite Hsi.
    + intros r' Hr'. rewrite Hr', lookup_singleton_eq in Hr2. by simplify_eq.
Qed.

Lemma poll_quiet m w :
  w_tx w = None → on_course T m (w_db w) →
  ∃ w', poll Error eng o w = (Ok (), w') ∧ w_tx w' = None ∧
    (finished (w_db w') ∨ ∃ m', m = S m' ∧ on_course (T + W + D) m' (w_db w')).
Proof.
  intros Hn Hon. unfold poll. rewrite io_bind_eq.
  destruct (tick_quiet w m Hon)
    as (w1 & r & -> & Hn1 & Hinv & Hacc & Hr & Hreg & Hqr & Hs & Hdue & Hah).
  destruct (execute_quiet w1 r m) as (w2 & -> & Hn2 & Hinv2 & Hacc2 & Hleft & Hsame); try done; [congruence|].
  exists w2. split_and!; [done..|]. destruct Hleft as (r' & Hr' & Hcase).
  destruct (Hsame r' Hr') as (Hnm & Hv & Hqu & _).
  assert (workflows eng !! (workflow_name r', workflow_version r') = Some wf) as Hreg' by congruence.
  destruct Hcase as [Hc|[(Hs' & Ht & Ha)|(Hs' & Ht & Ha & Hnone)]].
  - left. split; [done|]. by exists r'.
  - right. destruct m as [|m']; [lia|]. exists m'. split; [done|]. split_and!; [done..|].
    exists r'. split_and!; [done..|congruence|]. left. split_and!; [done..|lia].
  - right. destruct (waiting_ahead _ r' Hinv2 Hr' Hreg' Hs') as (Hz & Hlt & wait & Hwait).
    assert (0 < ahead wf id (w_db w2) (Z.to_nat (step_index r')))%nat as Hpos.
    { rewrite ahead_here by done. unfold stop_at. rewrite Hwait, Hz, bool_decide_eq_true_2 by done.
      cbn. lia. }
    destruct m as [|m']; [lia|]. exists m'. split; [done|]. split_and!; [done..|].
    exists r'. split_and!; [done..|congruence|]. by right.
Qed.

(** A poll leaves a completed run alone. *)
Lemma poll_finished w :
  finished (w_db w) → ∃ w', poll Error eng o w = (Ok (), w') ∧ finished (w_db w').
Proof.
  intros (Hinv & r & Hr & Hs & Hreg).
  destruct (poll_terminal Error eng id W Hcompiled Hcarried Hqueue Hmax o T Ho w r) as (w' & Hp & Hinv' & Hr' & _);
    [done|done|by rewrite Hs|].
  exists w'. split; [done|]. split; [done|]. by exists r.
Qed.
End quiet.

Lemma on_course_later T T' m d : T <= T' → on_course T m d → on_course T' m d.
Proof.
  intros Hle (Hinv & Hacc & r & Hr & Hreg & Hqr & Hcase). split_and!; [done..|].
  exists r. split_and!; [done..|]. destruct Hcase as [(?&?&?)|(?&(t&?&?)&?&?)]; [left|right].
  - split_and!; [done|lia|done].
  - split_and!; [done|exists t; split; [done|lia]|done..].
Qed.

Lemma polls_finished rounds : ∀ T d, spaced W undisturbed D T rounds → finished d → finished (polls Error eng rounds d).
Proof.
  induction rounds as [|[o T'] rest IH]; intros T d Hsp Hf; [done|]. destruct Hsp as (_ & Ho & Hsp).
  cbn [polls]. set (w := Build_world _ _ _ _ _).
  destruct (poll_finished o T' Ho w Hf) as (w' & -> & Hf'). by eapply IH.
Qed.

Lemma polls_course rounds : ∀ T m d,
  spaced W undisturbed D T rounds → on_course T m d → (m < length rounds)%nat → finished (polls Error eng rounds d).
Proof.
  induction rounds as [|[o T'] rest IH]; intros T m d Hsp Hon Hlt; [cbn in Hlt; lia|].
  destruct Hsp as (Hle & Ho & Hsp). cbn [polls]. set (w := Build_world _ _ _ _ _).
  destruct (poll_quiet o T' Ho m w eq_refl (on_course_later _ _ _ _ Hle Hon)) as (w' & -> & _ & Hres).
  destruct Hres as [Hf|(m' & -> & Hon')]; [by eapply polls_finished|].
  eapply IH; [exact Hsp|exact Hon'|]. cbn in Hlt. lia.
Qed.

(** C2: every run comes to its end.  A run of any registered workflow that is ready and due,
    the only one in the tables, polled by an undisturbed worker - each poll one maintenance round, one claim and the
    execution of what was claimed, within the length of a lease - completes after at most
    one poll more than the sleeps and waits without an outcome ahead of its cursor, when
    the polls are as far apart as the longest of these.  Steps succeed; events may be there
    for its waits, and other waits time out.  The completed run has a result for every step
    and wait, and its output is the last of them. *)
Theorem every_run_completes rounds T d r :
  sys_inv (workflows eng) d → accepted id d → workflow_runs d = {[id := r]} →
  workflows eng !! (workflow_name r, workflow_version r) = Some wf → queue r = e_queue eng →
  state r = RunReady → next_run_at r <= T → spaced W undisturbed D T rounds →
  (ahead wf id d (Z.to_nat (step_index r)) < length rounds)%nat →
  let d' := polls Error eng rounds d in
  ∃ r', workflow_runs d' = {[id := r']} ∧ state r' = RunCompleted ∧
    (∀ j op, cw_ops wf !! j = Some op → op_name op ≠ None →
       is_Some (step_checkpoints d' !! (id, Z.of_nat j))) ∧
    output_json r' =
      if 0 <=? cw_outputIndex wf then step_checkpoints d' !! (id, cw_outputIndex wf) else None.
Proof.
  intros Hinv Hacc Hr Hreg Hqr Hs Hdue Hsp Hlt d'.
  destruct (polls_course rounds T (ahead wf id d (Z.to_nat (step_index r))) d Hsp)
    as (Hinv' & r' & Hr' & Hs' & Hreg'); [|done|].
  { split_and!; [done..|]. exists r. split_and!; [done..|]. left. by split_and!. }
  destruct (si_runs _ _ Hinv' id r' wf) as [_ Hrec _ _ Hc]; [by rewrite Hr', lookup_singleton_eq|done|].
  destruct (Hc Hs') as [Hlen Hout]. exists r'. split_and!; [done..| |done].
  intros j op Hop Hn. apply (Hrec j op); [|done..]. apply lookup_lt_Some in Hop. lia.
Qed.
End course.
