(* ===== verification/Failing.v ===== *)
(** * A run whose step keeps failing

    Polls of a worker that nothing disturbs but whose user code fails at the step where the
    run stands: every poll uses up one attempt, and with the last one the run has failed.
    The pause between the polls is the longest backoff. *)

From S2P Require Import Prelude GoText Json Types Builder Postgres Queries Store Statements.
From S2P Require Import Claims Events Timing Effects Engine Worker Replay Invariant Loading.
From S2P Require Import Client Progress Delivery Loops Limits Undisturbed Polls.
#[local] Open Scope sql_scope.

Section failing.
Context `{Postgres} `{!PostgresLaws}.
Context (Error : error → string) (eng : Engine) (wf : compiledWorkflow) (id : string).

(** [W] bounds the length of a poll. *)
Context (W : Z).
Context (Hcompiled : ∀ k wf', workflows eng !! k = Some wf' → compiled_wf wf').
Context (Hsmall : ∀ k wf', workflows eng !! k = Some wf' → Z.of_nat (length (cw_ops wf')) < 2^31 - 1).
Context (Hcarried : ∀ n v, is_Some (workflows eng !! (n, v)) → carried n v = true).
Context (Hqueue : storable (s2b (e_queue eng)) = true) (Hmax : 1 <= maxConcurrency eng).
Context (HW : W < interval_ms (Milliseconds (leaseTTL eng))).

(** The step at which the run stands fails in every way that a step can fail. *)
Context (st : stepOp).
Record failing (o : nat → moment) (T : Z) : Prop := {
  fa_calm :> in_calm id W o T;
  fa_step n : ∃ er, executeStepSafely (st_name st) (m_fn (o n)) = Err er ∧
    errors_Is er errLostLease = false;
}.

(** The longest backoff, in the microseconds of the tables. *)
Definition longest_backoff : Z := interval_ms (Milliseconds Minute).

Lemma backoff_le a : in_int64 a → interval_ms (Milliseconds (backoffDuration a)) <= longest_backoff.
Proof.
  intros Ha. rewrite backoff_capped by done. unfold longest_backoff, interval_ms, Milliseconds.
  apply Z.mul_le_mono_nonneg_r, Z.quot_le_mono; [done..|]. apply Z.le_min_l.
Qed.

(** By [T] the run is due at its step, having failed [n] times since it was [r0]. *)
Definition retrying (r0 : Postgres.run) (cps : gmap (string * Z) (list ascii)) (T n : Z) (d : db) : Prop :=
  sys_inv (workflows eng) d ∧ step_checkpoints d = cps ∧
  ∃ r, workflow_runs d = {[id := r]} ∧ same_identity r0 r ∧ step_index r = step_index r0 ∧
    attempt r = attempt r0 + n ∧ state r = RunReady ∧ next_run_at r <= T.

(** The run has failed, with [n] more attempts used up than when it was [r0]. *)
Definition exhausted (r0 : Postgres.run) (cps : gmap (string * Z) (list ascii)) (n : Z) (d : db) : Prop :=
  sys_inv (workflows eng) d ∧ step_checkpoints d = cps ∧
  ∃ r, workflow_runs d = {[id := r]} ∧ same_identity r0 r ∧ step_index r = step_index r0 ∧
    attempt r = attempt r0 + n ∧ state r = RunFailed ∧ is_Some (last_error r).

Context (r0 : Postgres.run) (cps : gmap (string * Z) (list ascii)).
Context (Hreg : workflows eng !! (workflow_name r0, workflow_version r0) = Some wf).
Context (Hq0 : queue r0 = e_queue eng) (Hatt : 0 <= attempt r0) (Hlim : max_attempts r0 < 2^31).
Context (Hop : cw_ops wf !! Z.to_nat (step_index r0) = Some (opStep st)).
Context (Hcur : 0 <= step_index r0) (Hnone : cps !! (id, step_index r0) = None).

Lemma same_identity_trans a b c : same_identity a b → same_identity b c → same_identity a c.
Proof. unfold same_identity. intros; destruct_and!; split_and!; congruence. Qed.

(** One poll, one failure. *)
Lemma failing_poll o T n w :
  failing o T → w_tx w = None → retrying r0 cps T n (w_db w) → 0 <= n → attempt r0 + n < max_attempts r0 →
  ∃ w', poll Error eng o w = (Ok (), w') ∧
    if max_attempts r0 <=? attempt r0 + (n + 1)
    then exhausted r0 cps (n + 1) (w_db w')
    else retrying r0 cps (T + W + longest_backoff) (n + 1) (w_db w').
Proof.
  intros Ho Hn (Hinv & Hcp & r & Hr & Hsame & Hsi & Ha & Hs & Hdue) Hpos Hlt.
  pose proof (ca_quiet _ _ _ _ Ho) as Hq. pose proof Hsame as (Hnm & Hv & Hqu & Hmx & _).
  unfold poll. rewrite io_bind_eq.
  destruct (tick_rests eng id W Hcompiled o T Ho w r) as (w1 & -> & Htx1 & Hinv1 & Hr1 & Hc1);
    [done|done|by rewrite Hs..|].
  destruct (claimed_next eng wf id W Hcompiled Hsmall Hcarried Hqueue Hmax o T Ho w1 r)
    as (run & m & w2 & Hclaim & Hn2 & Hdb2 & Hinv2 & Hgood & Hid & Htok & Hwfe & Hsr & Har & Hcps);
    try done; [congruence|congruence|congruence| |].
  { pose proof (ca_now _ _ _ _ Ho (S (w_tick w1))). lia. }
  rewrite io_bind_eq, Hclaim. cbn [execute_all].
  set (r1 := claimed_row id _ (m_env (o m)) r) in *.
  set (u := clock_timestamp_set (m_env (o m)) id + interval_ms (Milliseconds (leaseTTL eng))).
  pose proof (gc_claim _ _ _ Hgood) as (Hidc & Htokc & _).
  destruct (fa_step _ _ Ho (S (w_tick w2))) as (er & Her & Hnl).
  destruct (failed_step_stored o Error eng Hq run wf w2 r1 u st er) as (w3 & r3 & Hexec & Hr3 & Hc3 & Hs3 &
    Ha3 & Hsi3 & _ & _ & He3 & Hnx3); try done.
  - rewrite Hsr. lia.
  - by rewrite Hsr, Hsi.
  - rewrite Hcps, Hsr, Hsi, Hdb2. cbn. by rewrite Hc1, Hcp, Hnone.
  - rewrite Har, Ha. lia.
  - rewrite Hdb2, Hid. apply lookup_singleton_eq.
  - cbn. by rewrite Htok.
  - intros j. rewrite Hid. pose proof (ca_clock _ _ _ _ Ho j). pose proof (ca_clock_set _ _ _ _ Ho m).
    unfold u. lia.
  - destruct (executed_next Error eng wf id W Hcompiled o T Ho run w2 r1 w3) as (Hinv3 & r4 & Hr4 & Hsame');
      [done|done|by rewrite Hdb2; apply lookup_singleton_eq|done..|].
    rewrite io_bind_eq, Hexec. exists w3. split; [done|].
    rewrite Hid, Hdb2 in Hr3. cbn in Hr3. rewrite insert_singleton_eq in Hr3.
    rewrite Hr3, lookup_singleton_eq in Hr4. injection Hr4 as <-.
    assert (step_checkpoints (w_db w3) = cps) as Hc by (rewrite Hc3, Hdb2; cbn; congruence).
    assert (same_identity r0 r3) as Hsame3 by (eapply same_identity_trans; [exact Hsame|exact Hsame']).
    assert (attempt r3 = attempt r0 + (n + 1)) as Hatt3 by lia.
    change (max_attempts r1) with (max_attempts r) in Hs3.
    rewrite Har, Ha, Hmx, <-Z.add_assoc in Hs3. change (step_index r1) with (step_index r) in Hsi3.
    destruct (max_attempts r0 <=? attempt r0 + (n + 1)).
    + split_and!; [done..|]. exists r3. split_and!; [done|done|congruence|done|done|by eexists].
    + split_and!; [done..|]. exists r3. split_and!; [done|done|congruence|done|done|].
      rewrite Hnx3. pose proof (ca_now _ _ _ _ Ho (3 + w_tick w2)%nat).
      assert (in_int64 (Attempt run + 1)) as Hi by (unfold in_int64; lia).
      pose proof (backoff_le _ Hi). lia.
Qed.

Lemma exhausted_polls rounds : ∀ T n d,
  spaced W failing longest_backoff T rounds → exhausted r0 cps n d →
  exhausted r0 cps n (polls Error eng rounds d).
Proof.
  induction rounds as [|[o T'] rest IH]; intros T n d Hsp Hex; [done|]. destruct Hsp as (_ & Ho & Hsp).
  cbn [polls]. set (w := Build_world _ _ _ _ _). eapply IH; [exact Hsp|].
  destruct Hex as (Hinv & Hcp & r & Hr & Hsame & Hsi & Ha & Hs & He).
  destruct (poll_terminal Error eng id W Hcompiled Hcarried Hqueue Hmax o T' Ho w r)
    as (w' & -> & Hinv' & Hr' & Hc'); [done|done|by rewrite Hs|].
  split_and!; [done|by etrans|]. by exists r.
Qed.

Lemma retrying_later T T' n d : T <= T' → retrying r0 cps T n d → retrying r0 cps T' n d.
Proof.
  intros Hle (Hinv & Hc & r & ? & ? & ? & ? & ? & ?). split_and!; [done..|]. exists r. split_and!; [done..|lia].
Qed.

Lemma failing_polls rounds : ∀ T n d,
  spaced W failing longest_backoff T rounds → retrying r0 cps T n d → 0 <= n →
  attempt r0 + n < max_attempts r0 →
  let total := attempt r0 + n + Z.of_nat (length rounds) in
  if max_attempts r0 <=? total
  then exhausted r0 cps (max_attempts r0 - attempt r0) (polls Error eng rounds d)
  else ∃ T', retrying r0 cps T' (n + Z.of_nat (length rounds)) (polls Error eng rounds d).
Proof.
  induction rounds as [|[o T'] rest IH]; intros T n d Hsp Hre Hn Hlt total.
  { unfold total. cbn. rewrite Z.add_0_r, (proj2 (Z.leb_gt _ _)) by lia. exists T.
    by rewrite Z.add_0_r. }
  destruct Hsp as (Hle & Ho & Hsp). cbn [polls]. set (w := Build_world _ _ _ _ _).
  destruct (failing_poll o T' n w Ho eq_refl (retrying_later _ _ _ _ Hle Hre) Hn Hlt) as (w' & -> & Hres).
  assert (total = attempt r0 + (n + 1) + Z.of_nat (length rest)) as -> by (unfold total; cbn [length]; lia).
  destruct (max_attempts r0 <=? attempt r0 + (n + 1)) eqn:E; bool_to_prop.
  - rewrite (proj2 (Z.leb_le _ _)) by lia.
    replace (max_attempts r0 - attempt r0) with (n + 1) by lia. by eapply exhausted_polls.
  - specialize (IH (T' + W + longest_backoff) (n + 1) (w_db w') Hsp Hres). cbn zeta in IH.
    replace (n + Z.of_nat (length ((o, T') :: rest))) with (n + 1 + Z.of_nat (length rest))
      by (cbn [length]; lia).
    apply IH; lia.
Qed.
End failing.

(** C3: A step that always fails ends its run after exactly the allowed attempts.  Take a
    run of any registered workflow, alone in the tables, ready and due at a step without
    a result, that a worker polls whose calls of the step all fail - with an error, a
    panic, a timeout or a result that cannot be encoded - while nothing else goes wrong,
    the polls being as far apart as the longest backoff.  Each poll counts one attempt;
    the run stays ready for the next until the attempts reach the limit, has then failed,
    with an error stored, and stays so; its cursor and its results are never touched. *)
Theorem failing_step_fails_run `{Postgres, !PostgresLaws} Error eng wf id W st rounds T d r :
  (∀ k wf', workflows eng !! k = Some wf' → compiled_wf wf') →
  (∀ k wf', workflows eng !! k = Some wf' → Z.of_nat (length (cw_ops wf')) < 2^31 - 1) →
  (∀ n v, is_Some (workflows eng !! (n, v)) → carried n v = true) →
  storable (s2b (e_queue eng)) = true → 1 <= maxConcurrency eng →
  W < interval_ms (Milliseconds (leaseTTL eng)) →
  sys_inv (workflows eng) d → workflow_runs d = {[id := r]} →
  workflows eng !! (workflow_name r, workflow_version r) = Some wf → queue r = e_queue eng →
  state r = RunReady → next_run_at r <= T →
  cw_ops wf !! Z.to_nat (step_index r) = Some (opStep st) → 0 <= step_index r →
  step_checkpoints d !! (id, step_index r) = None →
  0 <= attempt r < max_attempts r → max_attempts r < 2^31 →
  spaced W (failing id W st) longest_backoff T rounds →
  let d' := polls Error eng rounds d in
  let total := attempt r + Z.of_nat (length rounds) in
  step_checkpoints d' = step_checkpoints d ∧
  ∃ r', workflow_runs d' = {[id := r']} ∧ step_index r' = step_index r ∧
    attempt r' = Z.min total (max_attempts r) ∧
    state r' = (if max_attempts r <=? total then RunFailed else RunReady) ∧
    (state r' = RunFailed → is_Some (last_error r')).
Proof.
  intros Hco Hsm Hca Hqu Hmx HW Hinv Hr Hreg Hq0 Hs Hdue Hop Hcur Hnone [Ha Hlt] Hlim Hsp d' total.
  pose proof (failing_polls Error eng wf id W Hco Hsm Hca Hqu Hmx HW st r (step_checkpoints d) Hreg Hq0 Ha
    Hlim Hop Hcur Hnone rounds T 0 d Hsp) as Hres. cbn zeta in Hres. fold d' in Hres.
  rewrite Z.add_0_r, Z.add_0_l in Hres. fold total in Hres.
  assert (retrying eng id r (step_checkpoints d) T 0 d) as Hre.
  { split_and!; [done..|]. exists r. split_and!; [done|done|done|lia|done|done]. }
  specialize (Hres Hre ltac:(lia) Hlt).
  destruct (max_attempts r <=? total) eqn:E; bool_to_prop.
  - destruct Hres as (_ & Hc & r' & Hr' & _ & Hsi & Ha' & Hs' & He). split; [done|].
    exists r'. split_and!; [done|done|lia|done|done].
  - destruct Hres as (T' & _ & Hc & r' & Hr' & _ & Hsi & Ha' & Hs' & _). split; [done|].
    exists r'. split_and!; [done|done|unfold total in *; lia|done|congruence].
Qed.
