(* ===== verification/Crashing.v ===== *)
(** * A run whose workers die

    Rounds of a deployment in which every worker dies as soon as it has claimed the run:
    the maintenance of the next round finds the lease expired and frees the run, and after
    the backoff it is claimed again - until its failures reach the limit, and it has
    failed.  A round that recovers is too short to claim what it has recovered. *)

From S2P Require Import Prelude GoText Json Types Builder Postgres Queries Store Statements.
From S2P Require Import Claims Events Timing Effects Engine Worker Replay Invariant Loading.
From S2P Require Import Client Progress Delivery Loops Limits Undisturbed Polls.
#[local] Open Scope sql_scope.

(** What recovery makes of an expired run. *)
Definition recovered_row (id : string) (e : env) (r : run) : run :=
  r ▷ set_state (if max_attempts r <=? lease_failures r + 1 then RunFailed else RunReady)
    ▷ set_lease_failures (lease_failures r + 1)
    ▷ set_next_run_at (clock_timestamp_set e id + interval_ms (recovery_backoff_ms (lease_failures r)))
    ▷ set_lease_token None ▷ set_lease_until None
    ▷ set_last_error (Some lease_expired_text) ▷ set_updated_at (now e).

Lemma recovery_backoff_range lf : 0 <= lf → 250 <= recovery_backoff_ms lf <= 60000.
Proof.
  intros Hlf. unfold recovery_backoff_ms. rewrite Z.shiftl_1_l.
  pose proof (Z.pow_pos_nonneg 2 (Z.min lf 8)). lia.
Qed.

Section crashing.
Context `{Postgres} `{!PostgresLaws}.
Context (eng : Engine) (wf : compiledWorkflow) (id : string).

Lemma recover_expired e d r :
  workflow_runs d = {[id := r]} → id ∉ locked_runs e → expired e id r = true →
  exec RecoverLeases e d = (Ok 1, set_runs {[id := recovered_row id e r]} d).
Proof.
  intros Hr Hlk Hex. cbn [exec]. unfold recoverLeases. rewrite Hr, pick_alone by done.
  by rewrite update_where_alone, bool_decide_eq_true_2 by by left.
Qed.

Context (W : Z).
Context (Hcompiled : ∀ k wf', workflows eng !! k = Some wf' → compiled_wf wf').
Context (Hsmall : ∀ k wf', workflows eng !! k = Some wf' → Z.of_nat (length (cw_ops wf')) < 2^31 - 1).
Context (Hcarried : ∀ n v, is_Some (workflows eng !! (n, v)) → carried n v = true).
Context (Hqueue : storable (s2b (e_queue eng)) = true) (Hmax : 1 <= maxConcurrency eng).
Context (HW : W < interval_ms 250).

(** The claimed runs are never executed. *)
Definition crash (o : nat → moment) : io () :=
  _ ← maintain o eng; _ ← claimReadyRuns o eng (maxConcurrency eng); mret ().

Fixpoint crashes (rounds : list ((nat → moment) * Z)) (d : db) : db :=
  match rounds with
  | [] => d
  | (o, _) :: rest =>
    crashes rest (w_db (crash o {| w_db := d; w_tx := None; w_tick := 0; w_calls := []; w_log := [] |}).2)
  end.

(** Between rounds the leases and the backoffs run out. *)
Definition outage : Z :=
  Z.max (interval_ms (Milliseconds (leaseTTL eng))) (interval_ms 60000) + 1.

Section round.
Context (o : nat → moment) (T : Z) (Ho : in_calm id W o T).

(** The maintenance tick frees a run whose lease has expired. *)
Lemma tick_recovers w r u :
  sys_inv (workflows eng) (w_db w) → workflow_runs (w_db w) = {[id := r]} →
  state r = RunLeased → lease_until r = Some u → u < T →
  ∃ n w', maintain o eng w = (Ok (), w') ∧ w_tx w' = w_tx w ∧ sys_inv (workflows eng) (w_db w') ∧
    workflow_runs (w_db w') = {[id := recovered_row id (m_env (o n)) r]} ∧
    step_checkpoints (w_db w') = step_checkpoints (w_db w).
Proof.
  intros Hinv Hr Hs Hu Hlt. pose proof (ca_quiet _ _ _ _ Ho) as Hq.
  unfold maintain. rewrite io_bind_eq, catching_eq. unfold recoverExpiredLeases.
  rewrite io_bind_eq, (time_quiet id W o T Ho).
  set (e := m_env (o (w_tick (next w)))). set (r' := recovered_row id e r).
  assert (expired e id r = true) as Hex.
  { unfold expired. rewrite Hs, Hu. pose proof (ca_statement _ _ _ _ Ho (w_tick (next w))) as Hst.
    fold e in Hst. apply Z.ltb_lt. lia. }
  assert (query o Pool RecoverLeases (next w) = (Ok 1, set_db (set_runs {[id := r']} (w_db w))
    [Other _ RecoverLeases (env_at o (next w))] (next (next w)))) as Hrec.
  { rewrite (query_quiet o Hq). unfold env_at. fold e. cbn [next w_db].
    by rewrite (recover_expired e _ r Hr (ca_free _ _ _ _ Ho _) Hex). }
  rewrite (small_batch o _ 7 _ _ _ _ _ Hrec) by done.
  set (w1 := set_db _ _ _).
  assert (sys_inv (workflows eng) (w_db w1)) as Hinv1.
  { pose proof (sys_inv_open (workflows eng) Hcompiled RecoverLeases e (w_db w) eq_refl Hinv) as Ho1.
    by rewrite (recover_expired e _ r Hr (ca_free _ _ _ _ Ho _) Hex) in Ho1. }
  rewrite io_bind_eq, catching_eq.
  destruct (promote_tick eng id W o T Ho w1 r') as (n & w2 & -> & Htx & _ & Hdb); [done|].
  destruct (promote_rests eng id W Hcompiled o T Ho w1 r' n w2) as (Hinv2 & Hr2 & Hc2); [done|done| |done|].
  { unfold r', recovered_row. cbn. by destruct (_ <=? _). }
  by exists (w_tick (next w)), w2.
Qed.

End round.

Context (r0 : Postgres.run) (cps : gmap (string * Z) (list ascii)).
Context (Hreg : workflows eng !! (workflow_name r0, workflow_version r0) = Some wf).
Context (Hq0 : queue r0 = e_queue eng).

(** Where the run stands between rounds, after [f] failures: due by [T], or under a lease
    that has expired by then. *)
Definition stands (f : Z) (d : db)
    (P : Postgres.run → Prop) : Prop :=
  sys_inv (workflows eng) d ∧ step_checkpoints d = cps ∧
  ∃ r, workflow_runs d = {[id := r]} ∧ same_identity r0 r ∧ step_index r = step_index r0 ∧
    attempt r = attempt r0 ∧ lease_failures r = f ∧ P r.
Definition due_by (T : Z) (r : Postgres.run) : Prop := state r = RunReady ∧ next_run_at r <= T.
Definition dead_by (T : Z) (r : Postgres.run) : Prop :=
  state r = RunLeased ∧ ∃ u, lease_until r = Some u ∧ u < T.
Definition failed_out (r : Postgres.run) : Prop :=
  state r = RunFailed ∧ last_error r = Some lease_expired_text.

Lemma stands_step r f d d' r' (P P' : Postgres.run → Prop) f' :
  workflow_runs d = {[id := r]} → stands f d P → sys_inv (workflows eng) d' →
  step_checkpoints d' = step_checkpoints d → workflow_runs d' = {[id := r']} →
  same_identity r r' → step_index r' = step_index r → attempt r' = attempt r →
  lease_failures r' = f' → P' r' → stands f' d' P'.
Proof.
  intros Hr (_ & Hc & r1 & Hr1 & Hsame & Hsi & Ha & _) Hinv Hc' Hr' Hsame' Hsi' Ha' Hf HP.
  assert (r1 = r) as ->.
  { rewrite Hr in Hr1. apply (f_equal (lookup id)) in Hr1. rewrite !lookup_singleton_eq in Hr1.
    by simplify_eq. }
  split_and!; [done|congruence|]. exists r'. split_and!; try done; try congruence.
  unfold same_identity in *. destruct_and!. split_and!; congruence.
Qed.

(** A round on a due run ends with a lease that nobody serves. *)
Lemma crash_claims o T f w :
  in_calm id W o T → w_tx w = None → stands f (w_db w) (due_by T) →
  ∃ w', crash o w = (Ok (), w') ∧ stands f (w_db w') (dead_by (T + W + outage)).
Proof.
  intros Ho Hn Hst. pose proof Hst as (Hinv & Hc & r & Hr & Hsame & Hsi & Ha & Hf & Hs & Hdue).
  pose proof Hsame as (Hnm & Hv & Hqu & _).
  destruct (tick_rests eng id W Hcompiled o T Ho w r) as (w1 & Hm & Htx1 & Hinv1 & Hr1 & Hc1);
    [done|done|by rewrite Hs..|].
  destruct (claimed_next eng wf id W Hcompiled Hsmall Hcarried Hqueue Hmax o T Ho w1 r)
    as (run & m & w2 & Hclaim & _ & Hdb2 & Hinv2 & _);
    try done; [congruence|congruence|congruence| |].
  { pose proof (ca_now _ _ _ _ Ho (S (w_tick w1))). lia. }
  exists w2. unfold crash. rewrite io_bind_eq, Hm, io_bind_eq, Hclaim. split; [done|].
  eapply (stands_step r); [exact Hr|exact Hst|done|by rewrite Hdb2|by rewrite Hdb2|by split_and!|done..|].
  split; [done|]. eexists. split; [done|].
  pose proof (ca_clock_set _ _ _ _ Ho m). unfold outage. lia.
Qed.

(** A round on an abandoned run counts a failure. *)
Lemma crash_recovers o T f w :
  in_calm id W o T → w_tx w = None → 0 <= f → stands f (w_db w) (dead_by T) →
  ∃ w', crash o w = (Ok (), w') ∧
    if max_attempts r0 <=? f + 1 then stands (f + 1) (w_db w') failed_out
    else stands (f + 1) (w_db w') (due_by (T + W + outage)).
Proof.
  intros Ho Hn Hf0 Hst. pose proof Hst as (Hinv & Hc & r & Hr & Hsame & Hsi & Ha & Hf & Hs & u & Hu & Hlt).
  pose proof Hsame as (_ & _ & _ & Hmx & _).
  destruct (tick_recovers o T Ho w r u) as (n & w1 & Hm & _ & Hinv1 & Hr1 & Hc1); try done.
  set (r1 := recovered_row id (m_env (o n)) r) in *.
  pose proof (ca_clock_set _ _ _ _ Ho n) as Hcs.
  pose proof (recovery_backoff_range (lease_failures r) ltac:(lia)) as Hb.
  assert (next_run_at r1 = clock_timestamp_set (m_env (o n)) id +
    interval_ms (recovery_backoff_ms (lease_failures r))) as Hnx by done.
  destruct (claim_nobody eng id W Hcarried Hqueue Hmax o T Ho w1 r1 Hr1) as (w2 & Hcl & Hdb2).
  { intros _ k. rewrite Hnx. pose proof (ca_now _ _ _ _ Ho k). unfold interval_ms in *. lia. }
  exists w2. unfold crash. rewrite io_bind_eq, Hm, io_bind_eq, Hcl, Hdb2. split; [done|].
  assert (∀ P, P r1 → stands (f + 1) (w_db w1) P) as Hnext.
  { intros P HP. eapply (stands_step r); [exact Hr|exact Hst|done..|by split_and!|done|done| |done].
    cbn. lia. }
  assert (state r1 = if max_attempts r0 <=? f + 1 then RunFailed else RunReady) as Hs1
    by (rewrite <-Hmx, <-Hf; done).
  destruct (max_attempts r0 <=? f + 1); apply Hnext; split; [done|done|done|].
  rewrite Hnx. unfold outage, interval_ms in *. lia.
Qed.

Lemma crash_failed o T f w :
  in_calm id W o T → stands f (w_db w) failed_out →
  ∃ w', crash o w = (Ok (), w') ∧ stands f (w_db w') failed_out.
Proof.
  intros Ho Hst. pose proof Hst as (Hinv & Hc & r & Hr & Hsame & Hsi & Ha & Hf & Hs & He).
  destruct (tick_rests eng id W Hcompiled o T Ho w r) as (w1 & Hm & _ & Hinv1 & Hr1 & Hc1);
    [done|done|by rewrite Hs..|].
  destruct (claim_nobody eng id W Hcarried Hqueue Hmax o T Ho w1 r Hr1) as (w2 & Hcl & Hdb2);
    [by rewrite Hs|].
  exists w2. unfold crash. rewrite io_bind_eq, Hm, io_bind_eq, Hcl, Hdb2. split; [done|].
  eapply (stands_step r); [exact Hr|exact Hst|done..|by split_and!|done|done|done|done].
Qed.

Lemma crashes_failed rounds : ∀ T f d,
  spaced W (in_calm id W) outage T rounds → stands f d failed_out →
  stands f (crashes rounds d) failed_out.
Proof.
  induction rounds as [|[o T'] rest IH]; intros T f d Hsp Hst; [done|]. destruct Hsp as (_ & Ho & Hsp).
  cbn [crashes]. set (w := Build_world _ _ _ _ _).
  destruct (crash_failed o T' f w Ho Hst) as (w' & -> & Hst'). by eapply IH.
Qed.

(** [k] rounds after the run was due with [f] failures. *)
Definition outcome_after (f : Z) (k : nat) (d : db) : Prop :=
  let f' := f + Z.of_nat (Nat.div2 k) in
  if max_attempts r0 <=? f' then stands (max_attempts r0) d failed_out
  else if Nat.even k then ∃ T, stands f' d (due_by T)
  else ∃ T, stands f' d (dead_by T).

Lemma stands_mono f d (P P' : Postgres.run → Prop) : (∀ r, P r → P' r) → stands f d P → stands f d P'.
Proof. intros HP (? & ? & r & ? & ? & ? & ? & ? & ?). split_and!; [done..|]. exists r. split_and!; auto. Qed.

Lemma due_later T T' f d : T <= T' → stands f d (due_by T) → stands f d (due_by T').
Proof. intros Hle. apply stands_mono. intros r [? ?]. split; [done|lia]. Qed.
Lemma dead_later T T' f d : T <= T' → stands f d (dead_by T) → stands f d (dead_by T').
Proof. intros Hle. apply stands_mono. intros r [? (u & ? & ?)]. split; [done|]. exists u. split; [done|lia]. Qed.

Lemma crashes_outcome rounds : ∀ T f d,
  spaced W (in_calm id W) outage T rounds → 0 <= f → f < max_attempts r0 →
  (stands f d (due_by T) → outcome_after f (length rounds) (crashes rounds d)) ∧
  (stands f d (dead_by T) → outcome_after f (S (length rounds)) (crashes rounds d)).
Proof.
  induction rounds as [|[o T'] rest IH]; intros T f d Hsp Hf Hlt.
  { unfold outcome_after. cbn. rewrite Z.add_0_r, (proj2 (Z.leb_gt _ _)) by done.
    split; intros Hst; by exists T. }
  destruct Hsp as (Hle & Ho & Hsp). cbn [crashes]. set (w := Build_world _ _ _ _ _). split; intros Hst.
  - destruct (crash_claims o T' f w Ho eq_refl (due_later _ _ _ _ Hle Hst)) as (w' & -> & Hst').
    cbn [length snd]. by apply (IH (T' + W + outage) f (w_db w') Hsp Hf Hlt).
  - destruct (crash_recovers o T' f w Ho eq_refl Hf (dead_later _ _ _ _ Hle Hst)) as (w' & -> & Hst').
    unfold outcome_after. cbn [length Nat.div2 Nat.even].
    replace (f + Z.of_nat (S (Nat.div2 (length rest)))) with (f + 1 + Z.of_nat (Nat.div2 (length rest))) by lia.
    destruct (max_attempts r0 <=? f + 1) eqn:E; bool_to_prop.
    + set (k := Nat.div2 (length rest)). rewrite (proj2 (Z.leb_le _ (f + 1 + Z.of_nat k))) by lia. replace (max_attempts r0) with (f + 1) by lia.
      by eapply crashes_failed.
    + by apply (IH (T' + W + outage) (f + 1) (w_db w') Hsp ltac:(lia) ltac:(lia)).
Qed.
End crashing.

(** C4: A run that kills its workers is given up.  Take a run of any registered workflow,
    alone in the tables, ready and due, whose every worker dies when it has claimed it,
    each round beginning when the leases and backoffs of the one before are over.  Two
    rounds, one that claims and one that recovers, count one failure and use up no
    attempt; when the failures reach the run's limit it has failed, for the reason that
    its lease expired, and stays so; until then it is claimed again and again.  Cursor
    and results are never touched. *)
Theorem crashing_run_is_given_up `{Postgres, !PostgresLaws} eng wf id W rounds T d r :
  (∀ k wf', workflows eng !! k = Some wf' → compiled_wf wf') →
  (∀ k wf', workflows eng !! k = Some wf' → Z.of_nat (length (cw_ops wf')) < 2^31 - 1) →
  (∀ n v, is_Some (workflows eng !! (n, v)) → carried n v = true) →
  storable (s2b (e_queue eng)) = true → 1 <= maxConcurrency eng → W < interval_ms 250 →
  sys_inv (workflows eng) d → workflow_runs d = {[id := r]} →
  workflows eng !! (workflow_name r, workflow_version r) = Some wf → queue r = e_queue eng →
  state r = RunReady → next_run_at r <= T → lease_failures r < max_attempts r →
  spaced W (in_calm id W) (outage eng) T rounds →
  let d' := crashes eng rounds d in
  let failures := lease_failures r + Z.of_nat (Nat.div2 (length rounds)) in
  step_checkpoints d' = step_checkpoints d ∧
  ∃ r', workflow_runs d' = {[id := r']} ∧ step_index r' = step_index r ∧ attempt r' = attempt r ∧
    lease_failures r' = Z.min failures (max_attempts r) ∧
    state r' = (if max_attempts r <=? failures then RunFailed
                else if Nat.even (length rounds) then RunReady else RunLeased) ∧
    (state r' = RunFailed → last_error r' = Some lease_expired_text).
Proof.
  intros Hco Hsm Hca Hqu Hmx HW Hinv Hr Hreg Hq0 Hs Hdue Hlt Hsp d' failures.
  assert (0 <= lease_failures r) as Hf.
  { destruct (si_runs _ _ Hinv id r wf) as [? ? ? ? ?]; [by rewrite Hr, lookup_singleton_eq|done|].
    pose proof (dw_rows _ (si_wf _ _ Hinv) id r) as Hrow. rewrite Hr, lookup_singleton_eq in Hrow.
    by destruct (rw_failures _ (Hrow eq_refl)). }
  destruct (crashes_outcome eng wf id W Hco Hsm Hca Hqu Hmx HW r (step_checkpoints d) Hreg Hq0 rounds T
    (lease_failures r) d Hsp Hf Hlt) as [Hout _].
  fold d' in Hout. unfold outcome_after in Hout. fold failures in Hout.
  assert (stands eng id r (step_checkpoints d) (lease_failures r) d (due_by T)) as Hst.
  { split_and!; [done..|]. exists r. by split_and!. }
  specialize (Hout Hst). destruct (max_attempts r <=? failures) eqn:E; bool_to_prop.
  - destruct Hout as (_ & Hc & r' & Hr' & _ & Hsi & Ha & Hlf & Hs' & He). split; [done|].
    exists r'. split_and!; [done..|lia|done|done].
  - destruct (Nat.even (length rounds)); destruct Hout as (T' & _ & Hc & r' & Hr' & _ & Hsi & Ha & Hlf & Hs' & He);
      (split; [done|]); exists r'; split_and!; try done; try lia; congruence.
Qed.
