(* ===== verification/Scenario.v ===== *)
(** * A small deployment

    Concrete data on which the witnesses evaluate: one engine with a workflow of two
    steps and one with a wait, the tables after a few statements, and oracles that
    leave the worker in peace or let a maintenance loop in. *)

From S2P Require Import Durablepg Prelude GoText Json Types Builder Postgres ToyPg Queries.
From S2P Require Import Store Statements Claims Events Timing Leases Effects Engine Worker.
From S2P Require Import Replay.

(** An environment whose clocks all read [t]. *)
Definition at_ (t : Z) : env :=
  {| now := t; statement_timestamp := t; clock_timestamp := λ _, t; clock_timestamp_set := λ _, t;
     gen_random_uuid := λ k, "token-" +:+ k; locked_runs := ∅; locked_events := ∅ |}.

(** ** Workflows and engine *)

Definition demo : workflowDefinition :=
  DefineWorkflow " demo " [CallStep "one" (Some 0%nat) []; CallStep "two" (Some 1%nat) []].
Definition order : workflowDefinition :=
  DefineWorkflowVersion "order" 2 [CallWaitEvent "paid" "payment" Minute; CallStep "ship" (Some 2%nat) []].
Definition empty_cw : compiledWorkflow :=
  {| cw_name := ""; cw_version := 0; cw_ops := []; cw_names := ∅; cw_outputIndex := -1 |}.
Definition compiled (wf : workflowDefinition) : compiledWorkflow :=
  match compileWorkflow (Some wf) with Ok cw => cw | _ => empty_cw end.

Definition config : Config :=
  {| cfg_DB := true; cfg_Schema := ""; cfg_Queue := " default "; cfg_MaxConcurrency := 4;
     cfg_PollInterval := 0; cfg_LeaseTTL := 0; cfg_HeartbeatInterval := 0 |}.
Definition bare : Engine :=
  {| schema := "durable"; qSchema := quoteIdentifier "durable"; e_queue := "default";
     channel := "durablepg_durable"; maxConcurrency := 4; pollInterval := defaultPollInterval;
     leaseTTL := defaultLeaseTTL; heartbeatEvery := defaultHeartbeatInterval;
     eventTTL := defaultEventTTL; workerID := "worker"; workflows := ∅ |}.
Definition registered (e : Engine) (wf : workflowDefinition) : Engine :=
  match Register e (Some wf) with Ok e' => e' | _ => e end.
Definition engine : Engine := registered (registered bare demo) order.

(** ** Tables *)

Definition d_enqueued : db :=
  (exec (InsertRun "r1" "demo" 1 "default" 3 None (s2b "{}") (Some "order-7") "durablepg_durable")
     (at_ 1000) empty_db).2.
Definition d_claimed : db :=
  (exec (ClaimMulti "default" 10 30000 ["demo"] [1]) (at_ 2000) d_enqueued).2.
Definition d_stepped : db :=
  (exec (CommitStep "r1" "token-r1" 0 (s2b "1") false) (at_ 3000) d_claimed).2.
Definition d_done : db :=
  (exec (CommitStep "r1" "token-r1" 1 (s2b "2") true) (at_ 4000) d_stepped).2.
Definition d_waiting : db :=
  (exec (ParkWait "r1" "token-r1" 0 "payment" 60000) (at_ 3000) d_claimed).2.

(** The lease that [d_claimed] gives out ends here. *)
Definition lease_end : Z := 30002000.

(** The row of the only run. *)
Definition row1 (d : db) : run :=
  default {| workflow_name := ""; workflow_version := 0; queue := ""; state := RunReady;
    step_index := 0; attempt := 0; max_attempts := 0; lease_failures := 0; next_run_at := 0;
    lease_token := None; lease_until := None; waiting_event_key := None; waiting_deadline := None;
    input_json := []; output_json := None; dedup_key := None; last_error := None;
    created_at := 0; updated_at := 0 |} (workflow_runs d !! "r1").

(** ** Moments *)

Definition moment_with (others : list (list other)) (fn : fn_result) : moment :=
  {| m_others := others; m_env := at_ 3000; m_fault := NoFault; m_ctx := None; m_fn := fn;
     m_key := KeyReturned "payment" None; m_now := 3000000 |}.

(** Nobody else acts, steps return 1. *)
Definition calm : nat → moment := λ _, moment_with [] (FnOut (Ok (s2b "1"))).
(** Steps fail. *)
Definition failing : nat → moment := λ _, moment_with [] (FnError (Errorf "boom" [])).
(** Other workers recover leases, promote waits and claim runs before every effect. *)
Definition busy : nat → moment := λ _,
  moment_with [[Other _ RecoverLeases (at_ 3000)]; [Other _ (PromoteTimedOut "durablepg_durable") (at_ 3000)];
               [Other _ (ClaimMulti "default" 10 30000 ["demo"] [1]) (at_ 3000)]]
    (FnOut (Ok (s2b "1"))).

Definition world_at (d : db) : world := {| w_db := d; w_tx := None; w_tick := 0; w_calls := []; w_log := [] |}.

(** The claim that [d_claimed] and [d_stepped] hand out. *)
Definition claim1 (index : Z) (cps : gmap Z (option (list ascii))) : claimedRun :=
  {| ID := "r1"; WorkflowName := "demo"; Version := 1; StepIndex := index; Input := s2b "{}";
     Attempt := 0; Token := "token-r1"; checkpoints := cps; deadline := 30002000000 |}.
Definition fresh_claim : claimedRun := claim1 0 ∅.
Definition resumed_claim : claimedRun := claim1 1 {[ 0 := Some (s2b "1") ]}.
