(* ===== verification/Witnesses.v ===== *)
(** * The hypotheses can hold

    Each lemma applies a theorem of the library to the small deployment of
    [Scenario], discharging its hypotheses by evaluation. *)

From S2P Require Import Durablepg Prelude GoText Json Types Builder Postgres ToyPg Queries.
From S2P Require Import Store Statements Claims Events Timing Leases Uuid Effects Engine.
From S2P Require Import Fairness.
From S2P Require Import Registry Worker Replay Invariant Loading Contexts Client Progress Delivery Loops.
From S2P Require Import Heartbeat Deadlines Dispatcher Listener Migrate Journal Limits Undisturbed Polls.
From S2P Require Import Deployment Lifetime Failing Crashing Inert Growthbench SqlText Scenario.

(** Only evaluation looks into the tables. *)
#[local] Opaque d_enqueued d_claimed d_stepped d_done d_waiting row1 lease_end.

(** A statement is a step. *)
Lemma statement_step {X} (s : stmt X) e d : rtc db_step d (exec s e d).2.
Proof. apply rtc_once. by exists X, s, e. Qed.

(** ** Builder and registry *)

Lemma compile_sound_witness : compiled_wf (compiled demo) ∧ compiled_wf (compiled order).
Proof. split; [apply (compile_sound demo)|apply (compile_sound order)]; by vm_compute. Defined.

Lemma New_returns_usable_engine_witness : engine_ok bare ∧ schema bare = "durable".
Proof.
  destruct (New_returns_usable_engine config 8 (Ok "worker") bare) as [Hok _]; [by vm_compute|].
  by split.
Defined.

Lemma register_demo : Register bare (Some demo) = Ok (registered bare demo).
Proof. by vm_compute. Qed.
Lemma register_order : Register (registered bare demo) (Some order) = Ok engine.
Proof. by vm_compute. Qed.

Lemma registry_wf_demo : registry_wf (workflows (registered bare demo)).
Proof. exact (proj1 (Register_adds bare _ _ registry_wf_empty register_demo)). Qed.
Lemma registry_wf_engine : registry_wf (workflows engine).
Proof. exact (proj1 (Register_adds _ _ _ registry_wf_demo register_order)). Qed.

Lemma Register_adds_one_version_witness : registry_wf (workflows engine).
Proof. exact (proj1 (Register_adds_one_version _ _ _ registry_wf_demo register_order)). Defined.

Lemma latest_version_is_highest_witness :
  latest_in "order" (map_to_list (workflows engine)) = Some (compiled order) ∧
  ∀ v cw', workflow engine "order" v = Some cw' → v <= 2.
Proof.
  pose proof (latest_version_is_highest engine "order" (map_to_list (workflows engine))
    registry_wf_engine (Permutation_refl _)) as [H _].
  assert (latest_in "order" (map_to_list (workflows engine)) = Some (compiled order)) as E
    by by vm_compute.
  rewrite E in H. split; [done|]. exact (proj2 H).
Defined.

(** ** Tables *)

Lemma history_stepped : rtc db_step empty_db d_stepped.
Proof.
  etrans; [apply (statement_step (InsertRun "r1" "demo" 1 "default" 3 None (s2b "{}") (Some "order-7")
    "durablepg_durable") (at_ 1000))|].
  etrans; [apply (statement_step (ClaimMulti "default" 10 30000 ["demo"] [1]) (at_ 2000))|].
  apply (statement_step (CommitStep "r1" "token-r1" 0 (s2b "1") false) (at_ 3000)).
Qed.

Lemma reachable_wf_witness : db_wf d_stepped.
Proof. apply reachable_wf. exact history_stepped. Defined.

Lemma checkpoint_write_once_witness : step_checkpoints d_done !! ("r1", 0) = Some (s2b "1").
Proof.
  apply (checkpoint_write_once d_stepped d_done).
  - apply (statement_step (CommitStep "r1" "token-r1" 1 (s2b "2") true) (at_ 4000)).
  - by vm_compute.
Defined.

Lemma terminal_is_final_witness :
  ∃ r', workflow_runs (exec RecoverLeases (at_ 5000) d_done).2 !! "r1" = Some r' ∧
    r' = set_updated_at (updated_at r') (row1 d_done).
Proof.
  apply (terminal_is_final d_done).
  - apply (statement_step RecoverLeases (at_ 5000)).
  - by vm_compute.
  - by vm_compute.
Defined.

Lemma row1_claimed : workflow_runs d_claimed !! "r1" = Some (row1 d_claimed).
Proof. by vm_compute. Qed.

(** A commit by a claim whose lease was taken over. *)
Lemma stale_worker_cannot_write_witness :
  let s := CommitStep "r1" "token-old" 0 (s2b "9") false in
  (exec s (at_ 3000) d_claimed).2 = d_claimed ∧
  (lost_answer s (exec s (at_ 3000) d_claimed).1 ∨ is_ok (exec s (at_ 3000) d_claimed).1 = false).
Proof.
  apply (stale_worker_cannot_write _ "r1" "token-old"); [done..|].
  intros (r & Hr & Hf). rewrite row1_claimed in Hr. apply (inj Some) in Hr. subst r.
  vm_compute in Hf. discriminate.
Defined.

Lemma fenced_write_is_local_witness :
  workflow_runs (exec (CommitStep "r1" "token-r1" 0 (s2b "1") false) (at_ 3000) d_claimed).2 !! "r2" =
  workflow_runs d_claimed !! "r2".
Proof.
  exact (proj1 (fenced_write_is_local (CommitStep "r1" "token-r1" 0 (s2b "1") false)
    "r1" "token-r1" (at_ 3000) d_claimed "r2" 0 eq_refl eq_refl ltac:(done))).
Defined.

(** The commit of a step at a position that has a checkpoint already. *)
Lemma commit_first_result_wins_witness :
  let (answer, d') := exec (CommitStep "r1" "token-r1" 1 (s2b "2") true) (at_ 4000) d_stepped in
  answer = Ok (Some None) ∧ step_checkpoints d' !! ("r1", 1) = Some (s2b "2").
Proof.
  pose proof (commit_first_result_wins "r1" "token-r1" 1 (s2b "2") (s2b "2") true (at_ 4000)
    d_stepped (row1 d_stepped) eq_refl eq_refl ltac:(by vm_compute) ltac:(lia)
    ltac:(by vm_compute) ltac:(by vm_compute) ltac:(by vm_compute)) as H.
  destruct (exec _ _ _) as [answer d']. destruct H as (Ha & Hc & _).
  assert (step_checkpoints d_stepped !! ("r1", 1) = None) as E by by vm_compute.
  rewrite E in *. split; [done|]. rewrite Hc. by rewrite lookup_insert_eq.
Defined.

(** ** Claims and recovery *)

Lemma claim_takes_due_runs_witness :
  ∃ rows, claim_contract "default" 10 30000 ["demo"] [1] (at_ 2000) d_enqueued rows d_claimed ∧
    c_id <$> rows = ["r1"].
Proof.
  pose (rows := match (exec (ClaimMulti "default" 10 30000 ["demo"] [1]) (at_ 2000) d_enqueued).1
                with Ok rows => rows | _ => [] end).
  exists rows. split; [apply claim_takes_due_runs; by vm_compute|by vm_compute].
Defined.

(** Another worker's claim while the lease lasts. *)
Lemma lease_is_exclusive_witness :
  ∃ r', workflow_runs (exec (ClaimMulti "default" 10 30000 ["demo"] [1]) (at_ 3000) d_claimed).2
      !! "r1" = Some r' ∧ state r' = RunLeased ∧ lease_token r' = Some "token-r1".
Proof.
  destruct (lease_is_exclusive (ClaimMulti "default" 10 30000 ["demo"] [1]) (at_ 3000) d_claimed
    "r1" "token-r1" (row1 d_claimed) lease_end row1_claimed
    ltac:(by vm_compute) ltac:(by vm_compute) ltac:(by vm_compute) ltac:(by vm_compute)
    ltac:(split; [intros ? ? E; cbn in E; discriminate|exact I])) as [(r' & Hr & Hs & Ht & _) _].
  exact (ex_intro _ r' (conj Hr (conj Hs Ht))).
Defined.

Lemma failures_nonneg_claimed : map_Forall (λ _ r, 0 <= lease_failures r) (workflow_runs d_claimed).
Proof. refine (bool_decide_unpack _ _). by vm_compute. Qed.

Lemma recovery_frees_expired_witness :
  ∃ (ids : list string) d', exec RecoverLeases (at_ (lease_end + 1)) d_claimed = (Ok (Z.of_nat (length ids)), d') ∧
    NoDup ids ∧ Z.of_nat (length ids) <= maintenanceBatch.
Proof.
  destruct (recovery_frees_expired (at_ (lease_end + 1)) d_claimed failures_nonneg_claimed) as
    (ids & d' & He & Hnd & Hlen & _).
  exact (ex_intro _ ids (ex_intro _ d' (conj He (conj Hnd Hlen)))).
Defined.

Lemma enqueue_is_idempotent_witness :
  let s := InsertRun "r9" "demo" 2 "other" 5 None (s2b "[]") (Some "order-7") "durablepg_durable" in
  ∃ r, workflow_runs d_stepped !! "r1" = Some r ∧
    workflow_runs (exec s (at_ 9000) d_stepped).2 =
      <["r1" := set_updated_at 9000 r]> (workflow_runs d_stepped).
Proof.
  refine (proj2 (proj2 (proj2 (enqueue_is_idempotent
    "r1" 1 "default" 3 None (s2b "{}") "durablepg_durable" (at_ 1000) 1
    "r9" 2 "other" 5 None (s2b "[]") "durablepg_durable" (at_ 9000) 0
    "demo" "order-7" empty_db d_enqueued d_stepped _ "r1" "r1" empty_db_wf _ _ _)))).
  - by vm_compute.
  - etrans; [apply (statement_step (ClaimMulti "default" 10 30000 ["demo"] [1]) (at_ 2000))|].
    apply (statement_step (CommitStep "r1" "token-r1" 0 (s2b "1") false) (at_ 3000)).
  - by vm_compute.
Defined.

Lemma enqueue_creates_ready_run_witness :
  ∃ r, workflow_runs d_enqueued = <["r1" := r]> (workflow_runs empty_db) ∧ state r = RunReady ∧
    next_run_at r = default (now (at_ 1000)) None.
Proof.
  destruct (enqueue_creates_ready_run "r1" "demo" 1 "default" 3 None (s2b "{}") (Some "order-7")
    "durablepg_durable" (at_ 1000) empty_db "r1" 1 d_enqueued ltac:(by vm_compute) ltac:(by vm_compute))
    as (r & Hr & _ & _ & Hs & _ & _ & _ & _ & _ & _ & _ & _ & Hn & _).
  exact (ex_intro _ r (conj Hr (conj Hs Hn))).
Defined.

(** ** Events *)

Lemma emit_wakes_waiters_witness :
  ∃ n q d', exec (EmitEvent_ "payment" (s2b "7") 1000 "durablepg_durable") (at_ 4000) d_waiting =
    (Ok (n, q), d') ∧
    n = Z.of_nat (size (affected (waiting_on "payment" (at_ 4000)) (workflow_runs d_waiting))).
Proof.
  destruct (emit_wakes_waiters "payment" (s2b "7") (s2b "7") 1000 "durablepg_durable" (at_ 4000)
    d_waiting ltac:(by vm_compute) ltac:(by vm_compute)) as (n & q & d' & He & Hn & _).
  exact (ex_intro _ n (ex_intro _ q (ex_intro _ d' (conj He Hn)))).
Defined.

Lemma latest_event_is_newest_witness :
  (exec (LatestEvent "payment") (at_ 4000) d_waiting).2 = d_waiting.
Proof. exact (proj1 (latest_event_is_newest "payment" (at_ 4000) d_waiting ltac:(by vm_compute))). Defined.

Lemma pruning_is_invisible_witness :
  workflow_runs (exec PruneEvents (at_ 4000) d_waiting).2 = workflow_runs d_waiting.
Proof.
  exact (proj1 (pruning_is_invisible "payment" (at_ 4000) (at_ 5000) d_waiting
    ltac:(by vm_compute) ltac:(by vm_compute))).
Defined.

(** ** Arithmetic *)

Lemma backoff_doubles_witness : backoffDuration 3 = Second.
Proof. rewrite (backoff_doubles 3 ltac:(unfold in_int64; lia)). reflexivity. Defined.

Lemma backoff_matches_recovery_witness :
  Milliseconds (backoffDuration 3) = recovery_backoff_ms 2.
Proof. exact (backoff_matches_recovery 2 ltac:(lia)). Defined.

Lemma newUUID_time_ordered_witness :
  let random := repeat 255 16 in let zeros := repeat 0 16 in
  match newUUID (inr random) 1, newUUID (inr zeros) 1700000000000 with
  | Ok u1, Ok u2 => compare_bytes (s2b u1) (s2b u2) = Lt
  | _, _ => False
  end.
Proof.
  intros random zeros.
  exact (newUUID_time_ordered random zeros 1 1700000000000 _ _ ltac:(lia) ltac:(lia) eq_refl eq_refl).
Defined.

Lemma newUUID_is_version_7_witness :
  is_ok (newUUID (inr (repeat 255 16)) 1700000000000) = true.
Proof.
  destruct (newUUID_is_version_7 (repeat 255 16) 1700000000000 eq_refl ltac:(repeat constructor; lia))
    as (a & b & c & d & e & -> & _).
  reflexivity.
Defined.

Lemma colon_free_r1 : colon_free "r1".
Proof. split; [done|]. refine (bool_decide_unpack _ _). by vm_compute. Qed.

Lemma idempotency_key_identifies_step_witness :
  IdempotencyKey (Some (stepContext fresh_claim (compiled demo) [] 0 "one")) ≠
  IdempotencyKey (Some (stepContext fresh_claim (compiled demo) [] 1 "two")).
Proof.
  intros E. apply (idempotency_key_identifies_step fresh_claim (compiled demo) [] 0 "one"
    fresh_claim (compiled demo) [] 1 "two" colon_free_r1 colon_free_r1) in E; [|done..].
  destruct E as (_ & E & _). discriminate E.
Defined.

(** ** The worker *)

Definition render (e : error) : string := "error".

Lemma compiled_demo : compileWorkflow (Some demo) = Ok (compiled demo).
Proof. by vm_compute. Qed.
Lemma compiled_demo_wf : compiled_wf (compiled demo).
Proof. exact (compiled_is_wf _ _ compiled_demo). Qed.
Lemma engine_demo : workflow engine "demo" 1 = Some (compiled demo).
Proof. by vm_compute. Qed.
Lemma compiled_order : compileWorkflow (Some order) = Ok (compiled order).
Proof. by vm_compute. Qed.

Lemma resumed_checkpoint i v :
  checkpoints resumed_claim !! i = Some (Some v) → i = 0 ∧ v = s2b "1".
Proof. cbn. intros [<- [= <-]]%lookup_singleton_Some. done. Qed.

Lemma resumed_claim_of : claim_of d_stepped resumed_claim.
Proof.
  split_and!; [done..|cbn; lia|]. intros i v [E ->]%resumed_checkpoint.
  exists (s2b "1"). split; [|by left]. rewrite E. by vm_compute.
Qed.

(** A second worker continues a run whose first step is committed, while others work. *)
Lemma replay_skips_committed_steps_witness :
  Forall (λ c, 1 <= Z.of_nat (call_index c))
    (w_calls (executeClaim busy render engine resumed_claim (world_at d_stepped)).2).
Proof.
  destruct (replay_skips_committed_steps busy render engine resumed_claim (compiled demo)
    (world_at d_stepped) _ _ engine_demo compiled_demo_wf eq_refl resumed_claim_of
    (surjective_pairing _)) as (new & Hnew & _ & Hall).
  rewrite Hnew. apply Forall_forall. intros c Hc. exact (proj1 (Hall c Hc)).
Defined.

Lemma resumed_full j op :
  Z.of_nat j < StepIndex resumed_claim → cw_ops (compiled demo) !! j = Some op →
  op_name op ≠ None → ∃ v, checkpoints resumed_claim !! Z.of_nat j = Some (Some v).
Proof.
  cbn [StepIndex resumed_claim claim1]. intros Hj _ _. exists (s2b "1").
  replace (Z.of_nat j) with 0 by lia. by vm_compute.
Qed.

Lemma step_contexts_show_committed_results_witness :
  Forall (λ c, sc_RunID (call_sc c) = "r1")
    (w_calls (executeClaim busy render engine resumed_claim (world_at d_stepped)).2).
Proof.
  destruct (step_contexts_show_committed_results busy render engine resumed_claim (compiled demo)
    (world_at d_stepped) _ _ engine_demo compiled_demo_wf eq_refl resumed_claim_of resumed_full
    (surjective_pairing _)) as (new & Hnew & Hall).
  rewrite Hnew. apply Forall_forall. intros c Hc. destruct (Hall c Hc) as ((op & name & _ & _ & Hid & _) & _).
  exact Hid.
Defined.

(** ** The deployment *)

Lemma engine_wfs k wf : workflows engine !! k = Some wf → compiled_wf wf.
Proof. intros Hk. exact (proj2 (registry_wf_engine k wf Hk)). Qed.

Lemma engine_small : map_Forall (λ _ wf, Z.of_nat (length (cw_ops wf)) < 2^31) (workflows engine).
Proof. refine (bool_decide_unpack _ _). by vm_compute. Qed.

Lemma enqueued_inv : sys_inv (workflows engine) d_enqueued.
Proof.
  exact (sys_inv_open (workflows engine) engine_wfs (InsertRun "r1" "demo" 1 "default" 3 None (s2b "{}")
    (Some "order-7") "durablepg_durable") (at_ 1000) empty_db eq_refl (sys_inv_empty _)).
Qed.

(** Two workers, each of which claims and executes a run while the other is at work. *)
#[local] Abbreviation insert id := (Other _ (InsertRun id "demo" 1 "default" 3 None (s2b "{}") None "durablepg_durable") (at_ 1000)).
#[local] Abbreviation sent_commit id i last :=
  (Other _ (CommitStep id ("token-" +:+ id) i (s2b "1") last) (at_ 3000)).
Definition claim_other : other :=
  let (names, versions) := supportedWorkflows engine in Other _ (claim_stmt engine 1 names versions) (at_ 3000).
Definition history : list other :=
  [insert "r1"; insert "r2"; claim_other; sent_commit "r1" 0 false;
   claim_other; sent_commit "r2" 0 false; sent_commit "r1" 1 true; sent_commit "r2" 1 true].

Definition meanwhile (n : nat) (others : list other) : nat → moment := λ k,
  moment_with (if bool_decide (k = n) then (λ x, [x]) <$> others else []) (FnOut (Ok (s2b "1"))).
Definition claims (k : nat) (o : nat → moment) := claimReadyRuns o engine 1 (world_at (tables_after (take k history))).
Definition claim_of (k : nat) (o : nat → moment) : claimedRun :=
  match (claims k o).1 with Ok (run :: _) => run | _ => fresh_claim end.
Definition run_a := claim_of 2 calm.
Definition others_b := meanwhile 0 [sent_commit "r1" 0 false].
Definition run_b := claim_of 3 others_b.
Definition beside_a := meanwhile 3 [claim_other; sent_commit "r2" 0 false].
Definition beside_b := meanwhile 3 [sent_commit "r1" 1 true].
Definition work_a := executeClaim beside_a render engine run_a (world_at (tables_after (take 3 history))).
Definition work_b := executeClaim beside_b render engine run_b (world_at (tables_after (take 5 history))).

(** An answer and a world, from what they evaluate to. *)
Lemma answered_by {A} (m : outcome A * world) a : m.1 = a → m = (a, m.2).
Proof. intros <-. apply surjective_pairing. Qed.

Lemma claimed_a : claimed_in (workflows engine) (take 3 history) engine run_a.
Proof.
  apply (claimed_by _ _ _ _ 1 calm 2 (world_at (tables_after (take 2 history))) [run_a] (claims 2 calm).2).
  - done.
  - by split_and!.
  - apply answered_by. by vm_compute.
  - by left.
  - by exists [].
Qed.
Lemma claimed_b : claimed_in (workflows engine) (take 5 history) engine run_b.
Proof.
  apply (claimed_by _ _ _ _ 1 others_b 3 (world_at (tables_after (take 3 history))) [run_b] (claims 3 others_b).2).
  - done.
  - by split_and!.
  - apply answered_by. by vm_compute.
  - by left.
  - by exists [].
Qed.

(** What the two have sent, in the history up to [m]. *)
Lemma sent_by_a m i x n :
  take 3 (take m history) = take 3 history → w_log work_a.2 !! n = Some (Mine, x) →
  take n (logged work_a.2) = take n (drop 3 (take m history)) →
  i = (3 + n)%nat → sent_by_claim (workflows engine) (take m history) i x.
Proof.
  intros Hm. apply (sent_by _ _ _ _ engine run_a beside_a render 3 (world_at (tables_after (take 3 history))) work_a.1).
  - rewrite Hm. exact claimed_a.
  - rewrite Hm. by split_and!.
  - apply surjective_pairing.
Qed.
Lemma sent_by_b m i x n :
  take 5 (take m history) = take 5 history → w_log work_b.2 !! n = Some (Mine, x) →
  take n (logged work_b.2) = take n (drop 5 (take m history)) →
  i = (5 + n)%nat → sent_by_claim (workflows engine) (take m history) i x.
Proof.
  intros Hm. apply (sent_by _ _ _ _ engine run_b beside_b render 5 (world_at (tables_after (take 5 history))) work_b.1).
  - rewrite Hm. exact claimed_b.
  - rewrite Hm. by split_and!.
  - apply surjective_pairing.
Qed.

Lemma toy_uuids (t : Z) X (s : stmt X) : server_uuids (Other X s (at_ t)).
Proof. intros id. cbn. unfold toy_uuid_in. by rewrite bool_decide_eq_false_2. Qed.
Lemma history_uuids : Forall server_uuids history.
Proof. repeat constructor; apply toy_uuids. Qed.

Lemma deployed_history : deployed (workflows engine) (take 8 history).
Proof.
  split; [by apply Forall_take, history_uuids|].
  intros i x Hx. destruct i as [|[|[|[|[|[|[|[|i]]]]]]]]; try injection Hx as <-; [by left|by left|by left| |by left|..].
  - right. by apply (sent_by_a 8 _ _ 0).
  - right. by apply (sent_by_b 8 _ _ 0).
  - right. by apply (sent_by_a 8 _ _ 3).
  - right. by apply (sent_by_b 8 _ _ 2).
  - done.
Qed.
Lemma deployed_so_far : deployed (workflows engine) (take 5 history).
Proof.
  split; [by apply Forall_take, history_uuids|].
  intros i x Hx. destruct i as [|[|[|[|[|i]]]]]; try injection Hx as <-; [by left|by left|by left| |by left|done].
  right. by apply (sent_by_a 5 _ _ 0).
Qed.

Lemma begins_at k : begins (take k history) (world_at (tables_after (take k history))).
Proof. by split_and!. Qed.
Lemma claims_b : claimReadyRuns others_b engine 1 (world_at (tables_after (take 3 history))) = (Ok [run_b], (claims 3 others_b).2).
Proof. apply answered_by. by vm_compute. Qed.
Lemma claims_b_logged : take 3 history ++ logged (claims 3 others_b).2 = take 5 history.
Proof. by vm_compute. Qed.
Lemma work_b_eq :
  executeClaim beside_b render engine run_b (world_at (tables_after (take 5 history))) = (work_b.1, work_b.2).
Proof. apply surjective_pairing. Qed.
Lemma work_b_logged : logged work_b.2 = drop 5 history.
Proof. by vm_compute. Qed.
Lemma work_b_log : w_log work_b.2 = zip [Mine; Theirs; Mine] (drop 5 history).
Proof. by vm_compute. Qed.
Lemma work_b_uuids : Forall server_uuids (logged work_b.2).
Proof. rewrite work_b_logged. apply Forall_drop, history_uuids. Qed.
Lemma beside_b_sent n x :
  w_log work_b.2 !! n = Some (Theirs, x) →
  unfenced x ∨ sent_by_claim (workflows engine) (take 5 history ++ logged work_b.2)
    (length (take 5 history) + n) x.
Proof.
  rewrite work_b_logged, work_b_log. intros Hx. right.
  destruct n as [|[|[|n]]]; [discriminate Hx| |discriminate Hx|discriminate Hx].
  injection Hx as <-. by apply (sent_by_a 8 _ _ 3).
Qed.

(** The second worker claims while the first commits. *)
Lemma claimed_runs_are_complete_witness : mirrors (w_db (claims 3 others_b).2) run_b.
Proof.
  pose proof (claimed_runs_are_complete (workflows engine) engine_wfs engine_small (take 3 history) engine 1
    others_b _ (Ok [run_b]) (claims 3 others_b).2 ltac:(done) (begins_at 3) claims_b) as Hc.
  rewrite claims_b_logged in Hc.
  exact (proj1 (Hc deployed_so_far run_b (list_elem_of_here _ _))).
Defined.

(** It executes the run while the first completes its own. *)
Lemma executing_a_claim_keeps_the_invariant_witness :
  deployed (workflows engine) (take 5 history ++ logged work_b.2) ∧ sys_inv (workflows engine) (w_db work_b.2).
Proof.
  destruct (executing_a_claim_keeps_the_invariant (workflows engine) engine_wfs engine_small (take 5 history) engine
    run_b beside_b render _ work_b.1 work_b.2 deployed_so_far claimed_b (begins_at 5) work_b_eq
    work_b_uuids beside_b_sent) as (Hd & _ & Hi).
  exact (conj Hd Hi).
Defined.

Definition h_row (id : string) : run := default (row1 empty_db) (workflow_runs (tables_after history) !! id).
Lemma h_row_2 : workflow_runs (tables_after (take 8 history)) !! "r2" = Some (h_row "r2").
Proof. by vm_compute. Qed.

Lemma deployed_after : deployed (workflows engine) (take 8 history ++ [Other _ RecoverLeases (at_ 4000)]).
Proof.
  destruct deployed_history as [Hu Hs]. split.
  - apply Forall_app_2; [exact Hu|repeat constructor; apply toy_uuids].
  - intros i x Hi. destruct (decide (i < 8)%nat) as [Hlt|Hge].
    + rewrite lookup_app_l in Hi by exact Hlt. destruct (Hs i x Hi) as [?|?]; [by left|right]. by apply sent_app.
    + destruct i as [|[|[|[|[|[|[|[|[|i]]]]]]]]]; try lia; [injection Hi as <-; by left|by destruct i].
Qed.

Lemma deployment_keeps_journals_witness :
  length (outcomes (compiled demo) "r2" (tables_after (take 8 history))) = length (positions (compiled demo)) ∧
  ∃ r', workflow_runs (tables_after (take 8 history ++ [Other _ RecoverLeases (at_ 4000)])) !! "r2" = Some r' ∧
    rtc (journal_step 2) (journal_of (compiled demo) "r2" (h_row "r2") (tables_after (take 8 history)))
      (journal_of (compiled demo) "r2" r' (tables_after (take 8 history ++ [Other _ RecoverLeases (at_ 4000)]))).
Proof.
  destruct (deployment_keeps_journals (workflows engine) engine_wfs engine_small (take 8 history) "r2" (h_row "r2")
    (compiled demo) deployed_history h_row_2 ltac:(by vm_compute)) as (_ & Hc & Hf).
  split; [exact (proj1 (Hc ltac:(by vm_compute)))|].
  destruct (Hf _ deployed_after) as (r' & Hr' & Hj & _). exact (ex_intro _ r' (conj Hr' Hj)).
Defined.

Lemma enqueued_order :
  Enqueue calm engine "order" (Ok (s2b "{}")) [] (Ok "r5") (world_at d_claimed) =
    (Ok "r5", (Enqueue calm engine "order" (Ok (s2b "{}")) [] (Ok "r5") (world_at d_claimed)).2).
Proof.
  assert ((Enqueue calm engine "order" (Ok (s2b "{}")) [] (Ok "r5") (world_at d_claimed)).1 = Ok "r5")
    as E by by vm_compute.
  rewrite <-E. apply surjective_pairing.
Qed.

Lemma enqueue_creates_requested_run_witness :
  let w' := (Enqueue calm engine "order" (Ok (s2b "{}")) [] (Ok "r5") (world_at d_claimed)).2 in
  ∃ d1, rtc db_step d_claimed d1 ∧
    match workflow_runs d1 !! "r5" with
    | Some r => dedup_key r = None
    | None => ∃ r, workflow_runs (w_db w') = <["r5" := r]> (workflow_runs d1) ∧ queue r = "default"
    end.
Proof.
  intros w'.
  destruct (enqueue_creates_requested_run calm engine "order" (Ok (s2b "{}")) [] (Ok "r5")
    (world_at d_claimed) "r5" w' registry_wf_engine eq_refl enqueued_order)
    as (_ & _ & _ & input & wf & runID & d1 & _ & _ & _ & _ & _ & Hd & Hrow).
  exists d1. split; [exact Hd|]. destruct (workflow_runs d1 !! "r5") as [r|].
  - exact (proj1 (proj2 Hrow)).
  - destruct Hrow as (_ & _ & r & Hr & _ & _ & _ & _ & Hq & _). exact (ex_intro _ r (conj Hr Hq)).
Defined.

Lemma cancel_answer_is_final_witness :
  ∃ r, workflow_runs (exec RecoverLeases (at_ 9000) (w_db (Cancel calm "r1" (world_at d_claimed)).2)).2
      !! "r1" = Some r ∧ state r = RunCancelled.
Proof.
  exact (proj2 (proj2 (cancel_answer_is_final calm "r1" (world_at d_claimed)
    {| Cancelled := true; State := RunCancelled |} (Cancel calm "r1" (world_at d_claimed)).2 _
    eq_refl eq_refl (ex_intro _ _ row1_claimed) ltac:(by vm_compute)
    (statement_step RecoverLeases (at_ 9000) _)))).
Defined.

Definition as_text (raw : list ascii) : error + string := inr (b2s raw).
Lemma output_read :
  RunOutput calm "r1" as_text (world_at d_done) =
    (Ok {| dec_ok := true; dec_err := None; dec_dst := Some "2" |}, (RunOutput calm "r1" as_text (world_at d_done)).2).
Proof. by vm_compute. Qed.

Lemma r1_canonical : uuid_in "r1" = Some "r1".
Proof. by vm_compute. Qed.

Lemma run_output_is_final_witness :
  ∃ r, workflow_runs (w_db (RunOutput calm "r1" as_text (world_at d_done)).2) !! "r1" = Some r ∧
    state r = RunCompleted.
Proof.
  destruct (run_output_is_final calm as_text "r1" (world_at d_done) _ _ r1_canonical output_read)
    as (r & Hr & Hs & _).
  exact (ex_intro _ r (conj Hr (proj1 Hs eq_refl))).
Defined.

Lemma calm_quiet : quiet calm.
Proof. by intros n. Qed.
Definition demo_step (name : string) (fn : StepFunc) : stepOp :=
  {| st_name := name; st_fn := fn; st_opts := {| so_timeout := 0 |} |}.
Lemma demo_ops : cw_ops (compiled demo) = [opStep (demo_step "one" 0%nat); opStep (demo_step "two" 1%nat)].
Proof. by vm_compute. Qed.

Lemma steps_of_demo i op : 0 <= Z.of_nat i → cw_ops (compiled demo) !! i = Some op →
  ∃ st, op = opStep st.
Proof.
  intros _ Hop. rewrite demo_ops in Hop.
  destruct i as [|[|i]]; cbn in Hop; [injection Hop as <-; by eexists..|done].
Qed.

Lemma steps_run_to_completion_witness :
  stepped calm fresh_claim (compiled demo) 0 2 (world_at d_claimed)
    (executeClaim calm render engine fresh_claim (world_at d_claimed)).2 ∧
  ∃ r', workflow_runs (w_db (executeClaim calm render engine fresh_claim (world_at d_claimed)).2)
      !! "r1" = Some r' ∧ state r' = RunCompleted.
Proof.
  destruct (steps_run_to_completion (H := ToyPg) calm render engine calm_quiet fresh_claim (compiled demo)
    (world_at d_claimed) (row1 d_claimed) lease_end engine_demo eq_refl eq_refl
    ltac:(split; by vm_compute) ltac:(by vm_compute) ltac:(by vm_compute)
    ltac:(intros; exists (s2b "1"), (s2b "1"); by vm_compute) steps_of_demo
    ltac:(intros; apply lookup_empty) row1_claimed
    ltac:(by vm_compute) ltac:(by vm_compute) ltac:(by vm_compute) ltac:(by vm_compute))
    as (w' & E & Hd & r' & Hr & Hs & _).
  rewrite E. exact (conj Hd (ex_intro _ r' (conj Hr Hs))).
Defined.

Definition panics : nat → moment := λ _, moment_with [] (FnPanicked "index out of range" "main.go:1").
Lemma panics_quiet : quiet panics.
Proof. intros n. by split_and!. Qed.


(** ** Events, waits and maintenance *)

Lemma calm_honest : honest_faults calm.
Proof. intros n e [E|E]; discriminate E. Qed.

Lemma ran {A} (m : io A) w a : (m w).1 = Ok a → m w = (Ok a, (m w).2).
Proof. intros <-. apply surjective_pairing. Qed.

(** A claim that waits for the key "payment", and the world it waits in. *)
Definition waits (complete : bool) : io (option (list ascii)) :=
  waitForEvent calm engine fresh_claim 0 "payment" Minute complete.
Definition unpaid : world := world_at d_claimed.
Definition paid : world :=
  world_at (exec (EmitEvent_ "payment" (s2b "7") 1000 "durablepg_durable") (at_ 2500) d_claimed).2.

Lemma fresh_id : uuid_in (ID fresh_claim) = Some (ID fresh_claim).
Proof. by vm_compute. Qed.
Lemma fresh_token : uuid_in (Token fresh_claim) = Some (Token fresh_claim).
Proof. by vm_compute. Qed.
Lemma payment_storable : storable (s2b "payment") = true.
Proof. by vm_compute. Qed.
Lemma wait_parks : (waits false unpaid).1 = Ok None.
Proof. by vm_compute. Qed.
Lemma wait_delivers : (waits true paid).1 = Ok (Some (received_raw (s2b "7"))).
Proof. by vm_compute. Qed.
(** Another engine emits the key while the wait holds its lock, and has to wait. *)
Definition emit_world : world := (EmitEvent calm engine "payment" (Ok (s2b "7")) (world_at empty_db)).2.
Definition contended : nat → moment := λ n,
  moment_with (if (2 <=? n)%nat then [executed emit_world] else []) (FnOut (Ok (s2b "1"))).
Lemma emit_world_eq : EmitEvent calm engine "payment" (Ok (s2b "7")) (world_at empty_db) =
  ((EmitEvent calm engine "payment" (Ok (s2b "7")) (world_at empty_db)).1, emit_world).
Proof. apply surjective_pairing. Qed.
Lemma contended_emitters key : emitters contended engine key.
Proof.
  intros n t Ht _. unfold contended in Ht. cbn [m_others moment_with] in Ht.
  destruct (2 <=? n)%nat; [|by apply elem_of_nil in Ht]. apply list_elem_of_singleton in Ht as ->.
  exists calm, engine, "payment", (Ok (s2b "7")), (world_at empty_db). eexists _, emit_world.
  by split_and!; [..|exact emit_world_eq|].
Qed.
Lemma contended_honest : honest_faults contended.
Proof. intros n e [E|E]; discriminate E. Qed.
Lemma contended_emits : Exists (emits "payment") (executed emit_world).
Proof. right. left. reflexivity. Qed.
Definition contended_wait := waitForEvent contended engine fresh_claim 0 "payment" Minute false unpaid.
Lemma contended_parks : contended_wait.1 = Ok None.
Proof. by vm_compute. Qed.

Lemma parked_wait_misses_no_event_witness :
  Exists (emits "payment") (executed emit_world) ∧
  ∃ r, workflow_runs (w_db contended_wait.2) !! "r1" = Some r ∧ state r = RunWaitingEvent.
Proof.
  destruct (parked_wait_misses_no_event contended engine fresh_claim fresh_id fresh_token 0 "payment" Minute
    false unpaid _ eq_refl contended_honest payment_storable (contended_emitters _)
    (answered_by _ _ contended_parks)) as [_ (r & _ & Hr & Hs & _)].
  exact (conj contended_emits (ex_intro _ r (conj Hr Hs))).
Defined.

Lemma delivered_wait_records_newest_event_witness :
  ∃ r, workflow_runs (w_db (waits true paid).2) !! "r1" = Some r ∧ state r = RunCompleted.
Proof.
  destruct (delivered_wait_records_newest_event calm engine fresh_claim fresh_id fresh_token 0 "payment"
    Minute true paid _ _ eq_refl payment_storable (ran _ _ _ wait_delivers))
    as (d & i & ev & dc & t & r & _ & _ & _ & _ & _ & Hr & _ & Hs & _).
  exact (ex_intro _ r (conj Hr Hs)).
Defined.

Lemma order_paid : cw_names (compiled order) !! "paid" = Some 0%nat.
Proof. by vm_compute. Qed.
Lemma order_wf : compiled_wf (compiled order).
Proof. apply (compile_sound order). by vm_compute. Qed.
Lemma paid_reachable : rtc db_step empty_db (w_db paid).
Proof.
  etrans; [exact (statement_step (InsertRun "r1" "demo" 1 "default" 3 None (s2b "{}") (Some "order-7")
    "durablepg_durable") (at_ 1000) empty_db)|].
  etrans; [exact (statement_step (ClaimMulti "default" 10 30000 ["demo"] [1]) (at_ 2000) d_enqueued)|].
  exact (statement_step (EmitEvent_ "payment" (s2b "7") 1000 "durablepg_durable") (at_ 2500) d_claimed).
Qed.
Lemma woken_outcome : step_checkpoints (exec (EmitEvent_ "payment" (s2b "7") 1000 "durablepg_durable") (at_ 4000) d_waiting).2
  !! ("r1", Z.of_nat 0) = Some (jsonb_build_received (s2b "7")).
Proof. by vm_compute. Qed.
Lemma overdue_outcome : step_checkpoints (exec (PromoteTimedOut "durablepg_durable") (at_ 90000000) d_waiting).2
  !! ("r1", Z.of_nat 0) = Some timed_out_text.
Proof. by vm_compute. Qed.
Lemma order_shape : length (replicate 2 (None : option (list ascii))) = length (cw_ops (compiled order)).
Proof. by vm_compute. Qed.

Lemma event_payload_round_trip_witness :
  (∃ payload, jsonb_in (s2b "7") = Some payload ∧
     later_claims_answer (compiled order) "paid" 0 "r1"
       (exec (EmitEvent_ "payment" (s2b "7") 1000 "durablepg_durable") (at_ 4000) d_waiting).2 (Some payload)) ∧
  later_claims_answer (compiled order) "paid" 0 "r1"
    (exec (PromoteTimedOut "durablepg_durable") (at_ 90000000) d_waiting).2 None ∧
  ((∃ d, rtc db_step (w_db paid) d ∧
      step_checkpoints d !! ("r1", Z.of_nat 0) = Some (received_raw (s2b "7"))) ∨
   ∃ ev, answers (stepContext fresh_claim (compiled order)
     (<[0%nat := Some (received_raw (s2b "7"))]> (replicate 2 None)) 1 "ship") "paid" (Some (payload_json ev))).
Proof.
  destruct (event_payload_round_trip (compiled order) order_wf "paid" 0 order_paid) as [Hrec Hown].
  split; [|split].
  - exact (Hrec _ (EmitEvent_ "payment" (s2b "7") 1000 "durablepg_durable") (at_ 4000) d_waiting "r1" _
      ltac:(by vm_compute) woken_outcome).
  - exact (Hrec _ (PromoteTimedOut "durablepg_durable") (at_ 90000000) d_waiting "r1" _
      ltac:(by vm_compute) overdue_outcome).
  - destruct (Hown calm engine fresh_claim "payment" Minute true paid _ _ (replicate 2 None) 1%nat "ship"
      fresh_id fresh_token payment_storable eq_refl paid_reachable (answered_by _ _ wait_delivers) order_shape
      (le_n _)) as [Hl|(d & n & ev & _ & _ & Ha & _)]; [exact (or_introl Hl)|exact (or_intror (ex_intro _ ev Ha))].
Defined.

(** The lease of [d_claimed] has expired at this moment, and no wait is overdue. *)
Definition late : nat → moment := λ _,
  {| m_others := []; m_env := at_ (lease_end + 1); m_fault := NoFault; m_ctx := None;
     m_fn := FnOut (Ok []); m_key := KeyReturned "" None; m_now := 0 |}.

Lemma maintenance_drains_backlog_witness :
  ∃ w', maintain late engine (world_at d_claimed) = (Ok (), w') ∧
    ∀ r, workflow_runs (w_db w') !! "r1" = Some r → state r = RunLeased →
      ∀ u, lease_until r = Some u → lease_end + 1 <= u.
Proof.
  destruct (maintenance_drains_backlog late engine (λ n, conj eq_refl (conj eq_refl eq_refl)) ∅ (lease_end + 1)
    (λ n, conj eq_refl eq_refl) (world_at d_claimed) (λ _ _, eq_refl)
    ltac:(apply Nat.leb_le; by vm_compute) ltac:(apply Nat.leb_le; by vm_compute)) as (w' & E & H).
  exists w'. split; [exact E|]. intros r Hr Hs u Hu. exact (proj1 (H "r1" r Hr ltac:(done)) u Hs Hu).
Defined.

(** ** The dispatcher *)

(** An engine with one slot, whose worker claims a run, executes it and frees the slot. *)
Definition single : Engine :=
  {| schema := schema engine; qSchema := qSchema engine; e_queue := e_queue engine;
     channel := channel engine; maxConcurrency := 1; pollInterval := pollInterval engine;
     leaseTTL := leaseTTL engine; heartbeatEvery := heartbeatEvery engine; eventTTL := eventTTL engine;
     workerID := workerID engine; workflows := workflows engine |}.
Definition answered : list claimedRun :=
  match (claimReadyRuns calm single 1 (world_at d_enqueued)).1 with Ok runs => runs | _ => [] end.
Definition answered_claim : claimedRun := default fresh_claim (head answered).
Definition with_loop (s : Z * dispatcher) : lifecycle :=
  {| workerRunning := true; activeClaims := s.1; workers := [s.2] |}.
Definition loop0 : Z * dispatcher := (0, new_dispatcher single).
Definition loop1 : Z * dispatcher := (0, dispatch_answer 1 (Ok answered) (new_dispatcher single)).
Definition loop2 : Z * dispatcher := spawn answered_claim (0, set_todo [] loop1.2).
Definition loop4 : Z * dispatcher := cleanup 0 (cleanup 0 loop2).

Lemma answered_one : answered = [answered_claim].
Proof. by vm_compute. Qed.

Lemma answered_Ok : (claimReadyRuns calm single 1 (world_at d_enqueued)).1 = Ok answered.
Proof. by vm_compute. Qed.

Lemma Ok_inj {A} (x y : A) : Ok x = Ok y → y = x.
Proof. by intros [= ->]. Qed.
Lemma fresh_one run d : goroutines d = [] → fresh_tokens [run] d.
Proof.
  intros E. split; [apply NoDup_singleton|]. intros run' _. rewrite E. apply not_elem_of_nil.
Qed.
Lemma answered_fresh runs : Ok answered = Ok runs → fresh_tokens runs (new_dispatcher single).
Proof. intros E. apply Ok_inj in E. rewrite E, answered_one. by apply fresh_one. Qed.
#[local] Opaque answered answered_claim.

Lemma loop_steps s s' : dispatch_step single s s' → engine_step single (with_loop s) (with_loop s').
Proof.
  destruct s as [a d], s' as [a' d']. intros Hs.
  exact (engine_worker single (with_loop (a, d)) 0 d a' d' eq_refl Hs).
Qed.

Lemma reached_loop2 : rtc (engine_step single) new_engine (with_loop loop2).
Proof.
  eapply rtc_l; [exact (engine_start single new_engine (with_loop loop0) eq_refl)|].
  eapply rtc_l; [apply loop_steps|].
  - apply (step_answer single 0 (new_dispatcher single) 1 calm (world_at d_enqueued) (Ok answered)
      (claimReadyRuns calm single 1 (world_at d_enqueued)).2 eq_refl).
    + exact (ran (claimReadyRuns calm single 1) (world_at d_enqueued) answered answered_Ok).
    + exact answered_fresh.
  - apply rtc_once, loop_steps. apply (step_spawn single 0 loop1.2 answered_claim []).
    exact answered_one.
Qed.

Lemma reached_loop4 : rtc (engine_step single) new_engine (with_loop loop4).
Proof.
  etrans; [exact reached_loop2|].
  eapply rtc_l; [apply loop_steps, (step_cleanup single loop2 0)|].
  apply rtc_once, loop_steps. exact (step_cleanup single (cleanup 0 loop2) 0).
Qed.

Lemma concurrency_is_bounded_witness :
  ∃ j run, goroutines loop2.2 !! j = Some (run, Executing) ∧ Token run = "token-r1" ∧ ID run = "r1".
Proof.
  destruct (concurrency_is_bounded single ltac:(done) (with_loop loop2) reached_loop2) as [_ Hl].
  destruct (Hl 0%nat loop2.2 eq_refl) as (_ & _ & _ & Hk).
  apply Hk. by vm_compute.
Defined.

Lemma no_free_slot_is_overlooked_witness :
  wake_coming loop4.2 ∧ asking (dispatch single (consume loop4.2)) = Some 1.
Proof.
  apply (no_free_slot_is_overlooked single ltac:(done) (with_loop loop4) 0 loop4.2 reached_loop4
    eq_refl); by vm_compute.
Defined.

Lemma idle_means_no_claims_witness :
  Ok () ∉ WaitForIdle None (with_loop loop2) ∧ Ok () ∈ WaitForIdle None new_engine.
Proof.
  split.
  - intros Hin. destruct (proj1 (proj1 (idle_means_no_claims single ltac:(done) (with_loop loop2) None
      reached_loop2)) Hin) as [E _]. discriminate E.
  - apply (proj1 (idle_means_no_claims single ltac:(done) new_engine None (rtc_refl _ _))).
    split; [reflexivity|]. intros i d E. discriminate E.
Defined.

(** ** The listener *)

(** The worker of [bare] listens, its first dispatch answered; a run is enqueued, heard of
    and asked for. *)
Definition listening : site :=
  {| tables := empty_db; ear := Waiting 0; asked := 0;
     loop := (0, dispatch_answer 4 (Ok []) (signal (new_dispatcher bare))) |}.
Definition enqueue_r1 : stmt (string * Z) :=
  InsertRun "r1" "demo" 1 "default" 3 None (s2b "{}") (Some "order-7") "durablepg_durable".
Definition told : site :=
  begin_dispatch bare (consume (loop listening).2)
    {| tables := d_enqueued; ear := Waiting 1; loop := loop listening; asked := 0 |}.

Lemma listener_starts : rtc (site_step bare) (new_site bare 0 empty_db) listening.
Proof.
  set (s1 := heard Subscribing false (new_site bare 0 empty_db)).
  set (s2 := heard (Announcing 0) false s1). set (s3 := heard (Waiting 0) true s2).
  eapply rtc_l; [exact (site_listener bare true (new_site bare 0 empty_db) Subscribing false eq_refl)|].
  eapply rtc_l; [exact (site_listener bare true s1 (Announcing 0) false eq_refl)|].
  eapply rtc_l; [exact (site_listener bare true s2 (Waiting 0) true eq_refl)|].
  apply rtc_once. apply (site_loop bare s3 (loop listening)).
  - exact (step_answer bare 0 (signal (new_dispatcher bare)) 4 calm (world_at empty_db) (Ok [])
      (world_at empty_db) eq_refl eq_refl (λ runs E, ltac:(apply Ok_inj in E as ->;
        split; [apply NoDup_nil_2|intros run Hin; by apply elem_of_nil in Hin]))).
  - reflexivity.
Qed.

Lemma d_enqueued_eq : (exec enqueue_r1 (at_ 1000) empty_db).2 = d_enqueued.
Proof. reflexivity. Qed.

Lemma listener_hears :
  rtc (site_step bare) (on_tables (exec enqueue_r1 (at_ 1000) empty_db).2 listening) told.
Proof.
  rewrite d_enqueued_eq.
  eapply rtc_l; [apply (site_listener bare true (on_tables d_enqueued listening)
    (Comparing 1 "default") false); by vm_compute|].
  eapply rtc_l; [apply (site_listener bare true (heard (Comparing 1 "default") false
    (on_tables d_enqueued listening)) (Waiting 1) true); by vm_compute|].
  apply rtc_once. exact (site_woken bare (heard (Waiting 1) true
    (heard (Comparing 1 "default") false (on_tables d_enqueued listening))) I I).
Qed.

Lemma published_work_is_asked_for_witness : (0 < asked told)%nat.
Proof.
  refine (published_work_is_asked_for bare 0 empty_db listening enqueue_r1 (at_ 1000) "r1" (row1 d_enqueued)
    told listener_starts eq_refl _ eq_refl listener_hears eq_refl _).
  - split; [by vm_compute|]. split; [by vm_compute|]. split; [|by vm_compute].
    apply Z.leb_le. by vm_compute.
  - split; [|by vm_compute]. exists 1%nat. split; [done|]. apply Nat.leb_le. by vm_compute.
Defined.

(** ** The schema *)

(** A server that keeps the texts it has run. *)
Definition keep_ddl (sql : string) (ran : list string) : outcome (list string) := Ok (ran ++ [sql]).
Definition no_schema : catalog (list string) :=
  {| cat_schema := false; cat_history := None; cat_objects := [] |}.

Lemma apply_schema_installs_once_witness :
  ∃ c', ApplySchema keep_ddl (λ _, NoFault) engine no_schema = (Ok (), c') ∧
    ApplySchema keep_ddl (λ _, NoFault) engine c' = (Ok (), c') ∧
    cat_objects c' = migrations engine.
Proof.
  destruct (apply_schema_installs_once keep_ddl (λ _, NoFault) engine no_schema
    (Sprintf1 install_template (qSchema engine)) (migrations engine) (λ _, eq_refl) eq_refl eq_refl eq_refl)
    as [H1 H2].
  exact (ex_intro _ _ (conj H1 (conj (proj2 (H2 (λ _, NoFault)) (λ _, eq_refl)) eq_refl))).
Defined.

(** ** The heartbeat *)

(** The run is claimed while the loop sleeps; the second renewal fails. *)
Definition beat (planned woken : Z) (asleep : list lease_op) (answer : error + gset string) : turn :=
  {| hb_before := []; hb_planned := planned; hb_asleep := asleep; hb_done := false; hb_woken := woken;
     hb_between := []; hb_renewing := []; hb_answer := answer; hb_cancelled := false |}.
Definition beats : list turn :=
  [beat 0 (10 * Second) [Inserted "r1" "token-r1" (31 * Second)] (inr {["token-r1"]});
   beat (10 * Second + 5) (20 * Second + 5) [] (inl (Errorf "connection lost" []));
   beat (20 * Second + 9) (31 * Second) [] (inr {["token-r1"]})].

(** A turn without claims that come or go after its sleep. *)
Lemma healthy_beat eng f from next planned woken asleep answer rest t :
  prompt Second from next (beat planned woken asleep answer) →
  claimed_since eng "token-r1" Second from asleep → next <= woken →
  match answer with
  | inr renewed => "token-r1" ∈ renewed
  | inl _ => (f < 1)%nat
  end →
  (∀ t, healthy eng "token-r1" Second 1 (match answer with inr _ => 0%nat | inl _ => S f end) woken
     (woken + heartbeatEvery eng) rest t) →
  healthy eng "token-r1" Second 1 f from next (beat planned woken asleep answer :: rest) t.
Proof.
  intros Hp Hc Hle Ha Hr. cbn [healthy]. split; [done|]. split; [by rewrite app_nil_r|].
  split; [by intros id D Hin%elem_of_nil|]. unfold heartbeat_turn, turn_renews, turn_wakes, hb_wake.
  cbn [hb_done hb_woken beat]. rewrite (proj2 (Z.ltb_ge _ _)) by done.
  destruct (expire _ _ _) as [t1 o]. cbn [hb_answer hb_cancelled hb_between hb_renewing beat].
  destruct (hb_send _ _ _ _ _) as [[[ids tokens] bound]|], answer as [er|renewed]; by split.
Qed.

Lemma beats_healthy eng :
  heartbeatEvery eng = 10 * Second → leaseTTL eng = 30 * Second →
  healthy eng "token-r1" Second 1 0 0 (0 + heartbeatEvery eng) beats newLeaseTable.
Proof.
  intros Hevery Httl. unfold beats. generalize newLeaseTable as t0. intros t0.
  assert (∀ from, claimed_since eng "token-r1" Second from []) as Hnil by by intros ? ? ? ?%elem_of_nil.
  apply healthy_beat; rewrite ?Hevery; [by vm_compute| |by vm_compute|by apply elem_of_singleton|intros t1].
  { intros id D [= -> ->]%list_elem_of_singleton. rewrite Httl. by vm_compute. }
  apply healthy_beat; rewrite ?Hevery; [by vm_compute|apply Hnil|by vm_compute|lia|intros t2].
  by apply healthy_beat; rewrite ?Hevery; [vm_compute|apply Hnil|vm_compute|apply elem_of_singleton|].
Qed.

Lemma heartbeat_keeps_healthy_claims_witness :
  le_cancelled <$> heartbeatLoop engine 0 beats newLeaseTable !! "token-r1" = Some false.
Proof.
  assert (∀ en, heartbeatLoop engine 0 beats newLeaseTable !! "token-r1" = Some en →
    le_cancelled en = false) as H.
  { apply (heartbeat_keeps_healthy_claims engine "token-r1" Second 1); [by vm_compute..|].
    by apply beats_healthy; vm_compute. }
  assert (is_Some (heartbeatLoop engine 0 beats newLeaseTable !! "token-r1")) as [en Hen]
    by (by vm_compute; eexists).
  rewrite Hen. cbn. by rewrite (H en Hen).
Defined.

(** ** Deadlines *)

(** A worker, two milliseconds into its life, claims the run and enters it in its table;
    the clocks agree. *)
Definition node0 : node := started_at 2000000 d_enqueued.
Definition claim_demo : stmt (list claim_row) := claim_stmt engine 4 ["demo"] [1].
Definition demo_runs : list claimedRun :=
  match (exec claim_demo (at_ 2000) d_enqueued).1 with
  | Ok rows => match mapM (claim_of_row (2000000 + leaseTTL engine)) rows with Ok runs => runs | _ => [] end
  | _ => []
  end.
Definition node1 : node := set_claiming (Some (n_now node0)) (n_claimed node0) node0.
Definition node2 : node :=
  set_claiming None (n_claimed node1 ++ demo_runs)
    (set_tables (exec claim_demo (at_ 2000) d_enqueued).2 node1).
Definition node3 : node :=
  set_table (insert_lease "r1" "token-r1" 30002000000 ∅) (set_claiming None [] node2).

Lemma enqueued_tokens : map_Forall (λ _ r, lease_token r = None) (workflow_runs d_enqueued).
Proof. refine (bool_decide_unpack _ _). by vm_compute. Qed.
Lemma enqueued_unique : token_unique d_enqueued.
Proof. intros i j ri rj k Hi _ Hk _. pose proof (enqueued_tokens i ri Hi). congruence. Qed.

Lemma at_timed t : timed 0 (t * 1000) (at_ t).
Proof.
  assert (server 0 (t * 1000) = t) as E by (unfold server; rewrite Z.add_0_r; by apply Z.div_mul).
  unfold timed. rewrite E. split_and!; cbn; done || lia.
Qed.

Lemma draws_fresh_node1 : draws_fresh engine node1 (at_ 2000).
Proof.
  split_and!.
  - intros i j E. by apply (inj (String.append "token-")) in E.
  - intros i D [en E _|run E _ _|t ts rn E _ _]; cbn in E; [|by apply elem_of_nil in E|done].
    unfold newLeaseTable in E. by rewrite lookup_empty in E.
  - intros i j r Hr. pose proof (enqueued_tokens j r Hr) as ->. discriminate.
Qed.

Lemma demo_claim : (exec claim_demo (at_ 2000) d_enqueued).1 =
  Ok (match (exec claim_demo (at_ 2000) d_enqueued).1 with Ok rows => rows | _ => [] end).
Proof. by vm_compute. Qed.
Lemma demo_decoded : mapM (claim_of_row (2000000 + leaseTTL engine))
  (match (exec claim_demo (at_ 2000) d_enqueued).1 with Ok rows => rows | _ => [] end) = Ok demo_runs.
Proof. by vm_compute. Qed.
Lemma demo_run : ∃ run, demo_runs = [run] ∧ ID run = "r1" ∧ Token run = "token-r1" ∧ deadline run = 30002000000.
Proof. eexists. split_and!; by vm_compute. Qed.

Lemma fst_pair {A B} (p : A * B) a : p.1 = a → p = (a, p.2).
Proof. intros <-. apply surjective_pairing. Qed.

Lemma reached_node2 : rtc (node_step engine 0) node0 node2.
Proof.
  eapply rtc_l; [exact (ns_claim_start engine 0 node0 eq_refl)|].
  apply rtc_once.
  exact (ns_claimed engine 0 node1 2000000 4 ["demo"] [1] (at_ 2000) _
    (exec claim_demo (at_ 2000) d_enqueued).2 demo_runs eq_refl (at_timed 2000)
    draws_fresh_node1 (fst_pair _ _ demo_claim) demo_decoded).
Qed.

Lemma reached_node3 : rtc (node_step engine 0) node0 node3.
Proof.
  etrans; [exact reached_node2|]. apply rtc_once.
  destruct demo_run as (run & E & Hid & Htok & Hdl).
  pose proof (ns_insert engine 0 node2 run [] E) as Hs. rewrite Hid, Htok, Hdl in Hs. exact Hs.
Qed.

Definition entry3 : leaseEntry :=
  {| le_runID := "r1"; le_deadline := 30002000000; le_cancelled := false |}.
Lemma node3_row : workflow_runs (n_db node3) !! le_runID entry3 = Some (row1 (n_db node3)) ∧
  state (row1 (n_db node3)) = RunLeased ∧ lease_token (row1 (n_db node3)) = Some "token-r1".
Proof. split_and!; by vm_compute. Qed.

Lemma node3_entry : n_leases node3 !! "token-r1" = Some entry3.
Proof. by vm_compute. Qed.
Lemma node3_confirmed : n_now node3 <= le_deadline entry3 - leaseTTL engine mod Millisecond.
Proof. by vm_compute. Qed.
Lemma node3_timed : timed 0 (n_now node3) (at_ 2000).
Proof. exact (at_timed 2000). Qed.
Lemma engine_ttl : 0 <= leaseTTL engine.
Proof. by vm_compute. Qed.
Lemma recover_foreign : foreign (le_runID entry3) "token-r1" RecoverLeases.
Proof. split; [intros ? ? E; discriminate E|exact I]. Qed.

Lemma confirmed_deadline_protects_claim_witness :
  ∃ r', workflow_runs (exec RecoverLeases (at_ 2000) (n_db node3)).2 !! le_runID entry3 = Some r' ∧
    lease_token r' = Some "token-r1".
Proof.
  destruct node3_row as (Hr & Hs & Hk).
  destruct (proj1 (confirmed_deadline_protects_claim engine 0 engine_ttl 2000000 d_enqueued node3
    "token-r1" entry3 (row1 (n_db node3)) RecoverLeases (at_ 2000) enqueued_unique reached_node3
    node3_entry Hr Hs Hk node3_timed node3_confirmed) recover_foreign) as (r' & Hr' & _ & Hk' & _).
  exact (ex_intro _ r' (conj Hr' Hk')).
Defined.

(** ** A run's life *)

(** A run of [order] parks at its wait in the first poll, and completes in the second. *)
Definition d_order : db :=
  (exec (InsertRun "o1" "order" 2 "default" 3 None (s2b "{}") None "durablepg_durable") (at_ 1000) empty_db).2.
Definition row_o1 : run := default (row1 d_order) (workflow_runs d_order !! "o1").
Definition poll_at (t : Z) : nat → moment := λ _,
  {| m_others := []; m_env := at_ t; m_fault := NoFault; m_ctx := None;
     m_fn := FnOut (Ok (s2b "1")); m_key := KeyReturned "payment" None; m_now := t * 1000 |}.
Definition two_polls : list ((nat → moment) * Z) :=
  [(poll_at 2000, 2000); (poll_at 70000000, 70000000)].

Lemma order_inv : sys_inv (workflows engine) d_order.
Proof.
  exact (sys_inv_open (workflows engine) engine_wfs (InsertRun "o1" "order" 2 "default" 3 None (s2b "{}")
    None "durablepg_durable") (at_ 1000) empty_db eq_refl (sys_inv_empty _)).
Qed.
Lemma order_accepted : accepted "o1" d_order.
Proof. split; intros i x Hx; vm_compute in Hx; discriminate Hx. Qed.
Lemma order_row : workflow_runs d_order = {["o1" := row_o1]}.
Proof. by vm_compute. Qed.

Lemma engine_fits : map_Forall (λ _ wf, Z.of_nat (length (cw_ops wf)) < 2^31 - 1) (workflows engine).
Proof. refine (bool_decide_unpack _ _). by vm_compute. Qed.
Lemma engine_carried : map_Forall (λ nv (_ : compiledWorkflow), carried nv.1 nv.2 = true) (workflows engine).
Proof. refine (bool_decide_unpack _ _). by vm_compute. Qed.
Lemma engine_carries n v : is_Some (workflows engine !! (n, v)) → carried n v = true.
Proof. intros [wf Hwf]. exact (engine_carried (n, v) wf Hwf). Qed.

Lemma order_ops : cw_ops (compiled order) =
  [opWaitEvent {| w_name := "paid"; w_key := "payment"; w_keyFn := None; w_timeout := Minute |};
   opStep {| st_name := "ship"; st_fn := 2%nat; st_opts := {| so_timeout := 0 |} |}].
Proof. by vm_compute. Qed.

Lemma order_short op : op ∈ cw_ops (compiled order) →
  match op with
  | opStep _ => True
  | opSleep d => interval_ms (Milliseconds d) <= 60000000
  | opWaitEvent w => interval_ms (Milliseconds (w_timeout w)) <= 60000000
  end.
Proof.
  rewrite order_ops. intros [->|[->|Hin]%elem_of_cons]%elem_of_cons; [|done|by apply elem_of_nil in Hin].
  apply Z.leb_le. by vm_compute.
Qed.

Lemma poll_calm t : in_calm "o1" 1000 (poll_at t) t.
Proof.
  split; [by intros n|intros n; cbn; lia..| |].
  - intros n. apply not_elem_of_empty.
  - intros n. exact (eq_refl (Some "token-o1")).
Qed.
Lemma poll_undisturbed t : undisturbed (compiled order) "o1" 1000 (poll_at t) t.
Proof.
  split; [apply poll_calm|..].
  - intros n. exists (s2b "1"), (s2b "1"). split; [done|by vm_compute].
  - intros n wait. rewrite order_ops. intros Hin. exists "payment".
    apply elem_of_cons in Hin as [[= ->]|Hin]; [split; by vm_compute|].
    apply elem_of_cons in Hin as [Hin|Hin]; [discriminate Hin|by apply elem_of_nil in Hin].
Qed.

Lemma queue_storable : storable (s2b (e_queue engine)) = true.
Proof. by vm_compute. Qed.
Lemma engine_slots : 1 <= maxConcurrency engine.
Proof. by vm_compute. Qed.
Lemma lease_outlasts_poll : 1000 < interval_ms (Milliseconds (leaseTTL engine)).
Proof. by vm_compute. Qed.
Lemma order_registered :
  workflows engine !! (workflow_name row_o1, workflow_version row_o1) = Some (compiled order).
Proof. by vm_compute. Qed.
Lemma order_queue : queue row_o1 = e_queue engine.
Proof. by vm_compute. Qed.
Lemma order_ready : state row_o1 = RunReady.
Proof. by vm_compute. Qed.
Lemma order_due : next_run_at row_o1 <= 2000.
Proof. by vm_compute. Qed.
Lemma polls_spaced : spaced 1000 (undisturbed (compiled order) "o1" 1000) 60000000 2000 two_polls.
Proof. split_and!; [done|apply poll_undisturbed|]. split_and!; [lia|apply poll_undisturbed|done]. Qed.
Lemma order_ahead :
  (ahead (compiled order) "o1" d_order (Z.to_nat (step_index row_o1)) < length two_polls)%nat.
Proof. apply Nat.ltb_lt. by vm_compute. Qed.

Lemma every_run_completes_witness :
  ∃ r, workflow_runs (polls render engine two_polls d_order) = {["o1" := r]} ∧ state r = RunCompleted.
Proof.
  destruct (every_run_completes render engine (compiled order) "o1" 1000 60000000 engine_wfs engine_fits
    engine_carries queue_storable engine_slots order_short lease_outlasts_poll two_polls 2000 d_order row_o1
    order_inv order_accepted order_row order_registered order_queue order_ready order_due polls_spaced
    order_ahead) as (r & Hr & Hs & _).
  exact (ex_intro _ r (conj Hr Hs)).
Defined.

(** A run of [demo] whose first step always fails has failed after three polls. *)
Definition failing_at (t : Z) : nat → moment := λ _,
  {| m_others := []; m_env := at_ t; m_fault := NoFault; m_ctx := None;
     m_fn := FnError (Errorf "boom" []); m_key := KeyReturned "payment" None; m_now := t * 1000 |}.
Definition three_polls : list ((nat → moment) * Z) :=
  (λ t, (failing_at t, t)) <$> [2000; 61000000; 122000000].
Definition step_one : stepOp := {| st_name := "one"; st_fn := 0%nat; st_opts := {| so_timeout := 0 |} |}.

Lemma enqueued_alone : workflow_runs d_enqueued = {["r1" := row1 d_enqueued]}.
Proof. by vm_compute. Qed.
Lemma enqueued_registered : workflows engine !!
  (workflow_name (row1 d_enqueued), workflow_version (row1 d_enqueued)) = Some (compiled demo).
Proof. by vm_compute. Qed.
Lemma enqueued_queue : queue (row1 d_enqueued) = e_queue engine.
Proof. by vm_compute. Qed.
Lemma enqueued_ready : state (row1 d_enqueued) = RunReady.
Proof. by vm_compute. Qed.
Lemma enqueued_due : next_run_at (row1 d_enqueued) <= 2000.
Proof. by vm_compute. Qed.
Lemma enqueued_step :
  cw_ops (compiled demo) !! Z.to_nat (step_index (row1 d_enqueued)) = Some (opStep step_one).
Proof. by vm_compute. Qed.
Lemma enqueued_cursor : 0 <= step_index (row1 d_enqueued).
Proof. by vm_compute. Qed.
Lemma enqueued_none : step_checkpoints d_enqueued !! ("r1", step_index (row1 d_enqueued)) = None.
Proof. by vm_compute. Qed.
Lemma enqueued_attempts : 0 <= attempt (row1 d_enqueued) < max_attempts (row1 d_enqueued).
Proof. split; by vm_compute. Qed.
Lemma enqueued_limit : max_attempts (row1 d_enqueued) < 2^31.
Proof. by vm_compute. Qed.
Lemma enqueued_failures : lease_failures (row1 d_enqueued) < max_attempts (row1 d_enqueued).
Proof. by vm_compute. Qed.

Lemma calm_at o t : (∀ n, m_env (o n) = at_ t ∧ m_others (o n) = [] ∧ m_fault (o n) = NoFault ∧
  m_ctx (o n) = None) → in_calm "r1" 1000 o t.
Proof.
  intros Ho. split; intros n; destruct (Ho n) as (He & Hoth & Hf & Hc); rewrite ?He; cbn; try lia; try done.
  all: try apply not_elem_of_empty. intros n' _. destruct (Ho n') as (-> & _). cbn. lia.
Qed.
Lemma polls_fail : spaced 1000 (Failing.failing "r1" 1000 step_one) longest_backoff 2000 three_polls.
Proof.
  assert (∀ t, Failing.failing "r1" 1000 step_one (failing_at t) t) as Hf.
  { intros t. split; [by apply calm_at|]. intros n. by eexists. }
  assert (longest_backoff = 60000000) as -> by by vm_compute.
  split_and!; [done|apply Hf|]. split_and!; [lia|apply Hf|]. split_and!; [lia|apply Hf|done].
Qed.

Lemma failing_step_fails_run_witness :
  ∃ r, workflow_runs (polls render engine three_polls d_enqueued) = {["r1" := r]} ∧
    attempt r = Z.min (attempt (row1 d_enqueued) + 3) (max_attempts (row1 d_enqueued)).
Proof.
  destruct (failing_step_fails_run render engine (compiled demo) "r1" 1000 step_one three_polls 2000 d_enqueued
    (row1 d_enqueued) engine_wfs engine_fits engine_carries queue_storable engine_slots lease_outlasts_poll
    enqueued_inv enqueued_alone enqueued_registered enqueued_queue enqueued_ready enqueued_due enqueued_step
    enqueued_cursor enqueued_none enqueued_attempts enqueued_limit polls_fail) as (_ & r & Hr & _ & Ha & _).
  exact (ex_intro _ r (conj Hr Ha)).
Defined.

(** The same run, whose workers die three times. *)
Definition six_rounds : list ((nat → moment) * Z) :=
  (λ t, (poll_at t, t)) <$> [2000; 61000000; 122000000; 183000000; 244000000; 305000000].

Lemma rounds_crash : spaced 1000 (in_calm "r1" 1000) (outage engine) 2000 six_rounds.
Proof.
  assert (∀ t, in_calm "r1" 1000 (poll_at t) t) as Hf by (intros t; by apply calm_at).
  assert (outage engine = 60000001) as -> by by vm_compute.
  unfold six_rounds. cbn. split_and!; try apply Hf; try done; lia.
Qed.
Lemma short_round : 1000 < interval_ms 250.
Proof. by vm_compute. Qed.

Lemma crashing_run_is_given_up_witness :
  ∃ r, workflow_runs (crashes engine six_rounds d_enqueued) = {["r1" := r]} ∧
    lease_failures r = Z.min (lease_failures (row1 d_enqueued) + 3) (max_attempts (row1 d_enqueued)).
Proof.
  destruct (crashing_run_is_given_up engine (compiled demo) "r1" 1000 six_rounds 2000 d_enqueued
    (row1 d_enqueued) engine_wfs engine_fits engine_carries queue_storable engine_slots short_round
    enqueued_inv enqueued_alone enqueued_registered enqueued_queue enqueued_ready enqueued_due
    enqueued_failures rounds_crash) as (_ & r & Hr & _ & _ & Hf & _).
  exact (ex_intro _ r (conj Hr Hf)).
Defined.

(** ** Finished runs *)

(** A completed run beside the enqueued one, which is then claimed. *)
Definition old_runs : gmap string run := {["h1" := row1 d_done]}.
Definition old_results : gmap (string * Z) (list ascii) := {[("h1", 0) := s2b "1"]}.

Lemma old_apart : apart old_runs old_results d_enqueued.
Proof.
  split.
  - apply map_Forall_singleton. by vm_compute.
  - apply map_disjoint_singleton_l. by vm_compute.
  - intros id i v Hv. unfold old_results in Hv. apply lookup_singleton_Some in Hv as [[= <- _] _]. exists (row1 d_done).
    apply lookup_singleton_eq.
  - assert (step_checkpoints d_enqueued = ∅) as Hnone by by vm_compute.
    intros id i v. by rewrite Hnone.
Qed.
Lemma claim_spares : rtc (sparing_step old_runs) d_enqueued d_claimed.
Proof. apply rtc_once. by exists _, (ClaimMulti "default" 10 30000 ["demo"] [1]), (at_ 2000). Qed.

Lemma finished_runs_are_inert_witness :
  (exec RecoverLeases (at_ 3000) (beside old_runs old_results d_claimed)).1 =
  (exec RecoverLeases (at_ 3000) d_claimed).1.
Proof.
  exact (f_equal fst (proj2 (proj2 (finished_runs_are_inert old_runs old_results d_enqueued d_claimed
    old_apart claim_spares)) Z RecoverLeases (at_ 3000) I)).
Defined.

(** ** The growth benchmark *)

(** Two claims of two runs each, when two runs are ahead of the third. *)
Definition insert_at (t : Z) (id : string) : other :=
  Other _ (InsertRun id "demo" 1 "default" 3 None (s2b "{}") None "durablepg_durable") (at_ t).
Definition queued : db := foldl run_other empty_db [insert_at 1000 "r1"; insert_at 1001 "r2"; insert_at 1002 "r3"].
Definition queued_run : Postgres.run := default (new_run "" 0 "" 0 None [] None (at_ 0)) (workflow_runs queued !! "r3").
Definition two_claims : list other :=
  [Other _ (ClaimSingle "default" 2 30000 "demo" 1) (at_ 2000); insert_at 2100 "r0";
   Other _ (ClaimMulti "default" 2 30000 ["demo"] [1]) (at_ 2200)].
Lemma queued_third : workflow_runs queued !! "r3" = Some queued_run.
Proof. by vm_compute. Qed.
Lemma queued_ready : state queued_run = RunReady.
Proof. by vm_compute. Qed.
Lemma queued_orderly : Forall (orderly "r3" (next_run_at queued_run)) two_claims.
Proof. repeat constructor. Qed.
Lemma queued_offer :
  place (queue queued_run) (next_run_at queued_run) "r3" queued < offered "r3" queued_run queued two_claims.
Proof. by vm_compute. Qed.

Lemma due_run_is_claimed_witness :
  ∃ pre x post, two_claims = pre ++ x :: post ∧ takes "r3" x (foldl run_other queued pre).
Proof.
  exact (due_run_is_claimed "r3" queued_run queued two_claims queued_third queued_ready queued_orderly
    queued_offer).
Defined.

(** ** Limits *)

(** A registration that the server cannot take beside one that it can. *)
Definition crowded : Engine :=
  registered (registered bare demo) (DefineWorkflowVersion "later" (2^31) [CallStep "one" (Some 0%nat) []]).
Lemma crowded_versions : (workflows crowded !! ("demo", 1)) = Some (compiled demo) ∧
  is_Some (workflows crowded !! ("later", 2^31)).
Proof. split; [by vm_compute|]. eexists. vm_compute. reflexivity. Qed.

Lemma uncarried_version_stops_claims_witness :
  is_ok (claimReadyRuns calm crowded 4 (world_at d_enqueued)).1 = false.
Proof.
  destruct (claimReadyRuns calm crowded 4 (world_at d_enqueued)) as [[runs| |] w'] eqn:E; [|done..].
  exfalso. refine (uncarried_version_stops_claims calm crowded 4 "later" (2^31) (world_at d_enqueued)
    _ (proj2 crowded_versions) _ runs w' E); [lia|by vm_compute].
Defined.

Definition hasty : Config :=
  {| cfg_DB := true; cfg_Schema := ""; cfg_Queue := ""; cfg_MaxConcurrency := 4; cfg_PollInterval := 0;
     cfg_LeaseTTL := 999 * Microsecond; cfg_HeartbeatInterval := 100 * Microsecond |}.
Example hasty_accepted : leaseTTL <$> New hasty 4 (Ok "worker") = Ok (999 * Microsecond).
Proof. by vm_compute. Qed.
