(* ===== verification/BenchWitnesses.v ===== *)
(** * A run of the growth benchmark

    An oracle with which the benchmark runs to its end: the hypotheses of the theorems
    about it hold, by evaluation. *)

From S2P Require Import Durablepg Prelude GoText Json Types Builder Postgres ToyPg Queries.
From S2P Require Import Store Effects Engine Migrate Explain Growthbench Benchmark Seeding.
From S2P Require Import Goroutines Accounting Scenario.

(** A stage of the benchmark with one long run: the worker claims it before the first look
    at the counter, a short run is enqueued, claimed and completed while [run] sleeps, and
    the long one completes after its release. *)
Definition bench_others (n : nat) : list happening :=
  if Nat.eqb n 10 then
    [Served (Other _ (ClaimSingle "long" 1 30000 "long" 1) (at_ 2000)); LongStarted]
  else if Nat.eqb n 14 then
    [Ticked "s1" (at_ 3000) NoFault;
     Served (Other _ (ClaimSingle "short" 8 30000 "short" 1) (at_ 4000));
     Served (Other _ (CommitStep "s1" "token-s1" 0 (s2b "true") true) (at_ 5000))]
  else if Nat.eqb n 53 then
    [ProducerQuits; Served (Other _ (CommitStep "l1" "token-l1" 0 (s2b "true") true) (at_ 6000))]
  else [].
Definition bench_oracle (n : nat) : bmoment :=
  {| bm_others := bench_others n; bm_env := at_ 1000; bm_fault := NoFault; bm_uuid := "l1";
     bm_timeout := false; bm_worker := None; bm_faults := λ _, NoFault |}.
Definition plan_text : list ascii :=
  (λ c, if ch 39 c then dquote else c) <$>
    s2b "[{'Plan': {'Shared Hit Blocks': 7, 'Shared Read Blocks': 0}, 'Execution Time': 0.25}]".
Definition toy_stats : statistics :=
  {| stat_user_tables := λ _ _, inr (1, 0, 0, 0, 0, round64 false 0 0, 0, 0);
     pgstattuple_approx := λ _ _, inr 0; pgstattuple := λ _ _, inr (0, 0);
     stat_wal := λ _ _, inr (round64 false 0 0);
     stat_io := λ _ _, inr (round64 false 0 0, round64 false 0 0);
     explained := λ _ _ _, inr plan_text |}.
Definition bench_start : bench () :=
  {| bw_tables := empty_db;
     bw_catalog := {| cat_schema := false; cat_history := None; cat_objects := () |};
     bw_trace := {| ct_stage := -1; byStage := ∅ |}; bw_enqueued := 0; bw_longStarted := 0;
     bw_producer := NotStarted; bw_running := 0; bw_workers := []; bw_stopped := 0;
     bw_released := false; bw_producerStop := false; bw_cancelled := false; bw_report := [];
     bw_step := 0 |}.
Definition bench_flags : flags :=
  {| f_url := "postgres://localhost/bench"; f_profile := "default"; f_history := "0,2";
     f_stage := Minute; f_rate := 100; f_active := 1 |}.
Definition md5_toy : string → string := λ s, s.
Definition toy_ddl : string → () → outcome () := λ _ t, Ok t.
Definition toy_connect : string → error + () := λ _, inr ().

Lemma pair_with {A B} (p : A * B) a : p.1 = a → p = (a, p.2).
Proof. destruct p. by intros <-. Qed.

#[local] Abbreviation staged := (stages bench_oracle md5_toy toy_stats 0 [0; 2; 3] 0 0 bench_start).
Lemma history_parsed : parseHistory "0, 2,3" = Ok [0; 2; 3].
Proof. by vm_compute. Qed.
Lemma staged_ok : staged.1 = Ok ().
Proof. by vm_compute. Qed.
Lemma stages_ran : staged = (Ok (), staged.2).
Proof. exact (pair_with staged (Ok ()) staged_ok). Qed.

Lemma three_in_range : 1 <= 3 <= default 0 (last [0; 2; 3]).
Proof. cbn. lia. Qed.

Lemma history_is_seeded_witness : seeded md5_toy (bw_tables staged.2) 3.
Proof.
  exact (proj1 (history_is_seeded md5_toy bench_oracle toy_stats "0, 2,3" [0; 2; 3] 0
    bench_start staged.2 history_parsed stages_ran) 3 three_in_range).
Defined.

#[local] Abbreviation bench_ran := (Benchmark.run toy_ddl bench_oracle md5_toy toy_stats toy_connect
  180001 4 bench_flags bench_start).
Lemma bench_ran_ok : bench_ran.1 = Ok ().
Proof. by vm_compute. Qed.
Lemma bench_run : bench_ran = (Ok (), bench_ran.2).
Proof. exact (pair_with bench_ran (Ok ()) bench_ran_ok). Qed.
Lemma bench_serving n : Forall serving (bm_others (bench_oracle n)).
Proof. cbn. unfold bench_others. repeat case_match; repeat constructor. Qed.
Lemma bench_fresh : fresh bench_start.
Proof. by split. Qed.
Lemma toy_ddl_live s t : no_panic (toy_ddl s t).
Proof. done. Qed.

Lemma run_accounts_for_every_run_witness :
  count_name "short" (bw_tables bench_ran.2) = bw_enqueued bench_ran.2 ∧
  count_name "long" (bw_tables bench_ran.2) = 1.
Proof.
  destruct (run_accounts_for_every_run toy_ddl bench_oracle md5_toy toy_stats toy_connect 180001 4
    bench_flags bench_start bench_ran.2 toy_ddl_live bench_serving bench_fresh bench_run)
    as (_ & _ & Hs & Hl & _).
  exact (conj Hs Hl).
Defined.

Lemma run_leaves_nothing_running_witness : bw_running bench_ran.2 = 0%nat.
Proof.
  pose proof (run_leaves_nothing_running bench_oracle md5_toy toy_stats toy_ddl toy_ddl_live
    toy_connect 180001 4 bench_flags bench_start eq_refl eq_refl eq_refl eq_refl) as Hx.
  rewrite bench_run in Hx. exact (proj1 (proj2 Hx)).
Defined.

Definition timed : claimTrace := {| ct_stage := 0; byStage := {[0 := [5; 3; 9; 1]]} |}.
Lemma timed_samples : byStage timed !! 0 = Some [5; 3; 9; 1].
Proof. by vm_compute. Qed.

Lemma percentiles_are_nearest_ranks_witness :
  ∃ p50 p95 p99, percentiles timed 0 = Ok (4, p50, p95, p99) ∧ p50 <= p95 <= p99.
Proof.
  destruct (percentiles_are_nearest_ranks timed 0 [5; 3; 9; 1] timed_samples ltac:(done))
    as (p50 & p95 & p99 & E & Hle & _).
  exact (ex_intro _ p50 (ex_intro _ p95 (ex_intro _ p99 (conj E Hle)))).
Defined.
